(* ===== verification/_CoqProject ===== *)
-Q . S2P
Prelude.v
Bits.v
Queues.v
Lockfree.v
MemArea.v
PageRange.v
PageRangeSpec.v
Memory.v
Reclaim.v
Large.v
PageSource.v
PagePool.v
Pool.v
PoolSpec.v
Early.v
Pte.v
PageTable.v
PageTableSpec.v
PageOps.v
BootFrames.v
Vma.v
VmaSpec.v
Malloc.v
MallocSpec.v
MallocMaps.v
Mutex.v
MutexSpec.v
TimerSet.v
TimerSetSpec.v
TimerList.v
TimerListSpec.v
WaitQueue.v
Condvar.v
Semaphore.v
RwLock.v
RwLockSpec.v
Rcu.v
RcuSpec.v
Sched.v
SchedInv.v
SchedWake.v
SchedRun.v
SchedPick.v
SchedSwitch.v
SchedCall.v
SchedSpec.v
