(* ===== verification/Prelude.v ===== *)
(** * miniosv: memory management, scheduling, locks, RCU and timers, verified

    miniosv is a unikernel in C++ that runs one program on one machine.  This
    development models its memory management, from the free physical memory up to
    [malloc] and down to the x64 page tables; the scheduler of its threads; the
    primitives by which they exclude and wait for each other; read-copy-update; its
    timers; and the linked queues all of these are built on.  Paths below are
    relative to the source tree.

    ** The program and the files

    At boot the ranges of physical memory are handed to the _page range
    allocator_, which keeps its administration in the free memory itself.
    Everything else takes pages from it: the _page pools_ (a stack of pages per
    CPU, a global stack of batches), _large objects_, _huge pages_ and, before the
    other CPUs run, single _early_ pages.  _Pools of small objects_ and the _early
    objects_ cut pages into objects; [malloc] and [free] choose among all of
    these by size and find the way back by the area an address lies in.  Threads
    that find no memory wait for the _reclaimer_.  The _virtual memory areas_
    record what is mapped where; the _page tables_ carry it out, with frames from
    the page allocators.

    The _scheduler_ has a run queue per CPU.  A thread that waits is woken through a
    queue between the CPU of the waker and its own, and an interrupt if that CPU may
    have halted.  Threads meet at the lock-free _mutex_, whose unlock hands the lock over to a
    waiter instead of taking another lock.  _Wait queues_ and _condition
    variables_ send their waiters on to the queue of a mutex instead of waking
    them; _semaphores_ and _read-write locks_ are built on mutexes too.  Memory
    that is read without a lock is given back through _RCU_: a thread per CPU waits
    until all CPUs have left the sections that might still read it.  A wait
    that is to end by itself sets a _timer_; each CPU keeps its timers in a
    _timer set_, a radix tree of buckets, and has one clock event to look at it.

    - [Prelude]: words, the monad of operations that may sleep or fail, its
      weakest preconditions, and generic lemmas.
    - [Bits], [MemArea]: [include/osv/align.hh], [include/osv/ilog2.hh] and the
      areas of the linear map of [include/osv/mmu-defs.hh].
    - [Queues]: the intrusive queues and stacks of [include/osv] and the
      sequential effect of those of [include/lockfree]; [Lockfree]: the latter
      with every interleaving of their atomic accesses, as a step relation.
    - [PageRange], [PageRangeSpec]: [page_range_allocator] of [core/mempool.cc]:
      the lists by order, the multiset of huge ranges, headers, tails and bitmap
      as a state, one function per method; the invariant [wf] and the contracts.
    - [Memory]: the counters and the growth of the bitmap when memory is added.
    - [Reclaim]: waiters, shrinkers and the passes of the reclaimer thread.
    - [Large]: [malloc_large], [free_large], huge pages, early pages, and the
      invariant over every sequence of them.
    - [PageSource]: the class of what the users of single pages rely on;
      [PagePool]: [page_pool::l1] and [page_pool::l2], an instance of it.
    - [Pool], [PoolSpec]: [pool], [malloc_pool] and [garbage_sink] over any source
      of pages; [Early]: the early objects, over any source as well.
    - [Pte]: page table elements as 64-bit words ([arch/x64/arch-mmu.hh],
      [include/osv/mmu-defs.hh]); [PageTable]: the walker and the page table
      operations of [core/mmu.cc] over any allocator of frames (class [Frames]);
      [PageTableSpec]: the walker seen as a relation on the translation of each
      address; [PageOps]: the operations; [BootFrames]: the instance of [Frames]
      for the page ranges of this development.
    - [Vma], [VmaSpec]: the areas, the set of ranges and the system calls of
      [core/mmu.cc] on them.
    - [Malloc], [MallocSpec]: the C interface over all the allocators, with the
      bytes of the objects, over any provider of mapped memory (class
      [AnonMaps]); [MallocMaps]: the areas of [Vma] are such a provider.
    - [Mutex], [MutexSpec]: [core/lfmutex.cc], every atomic access of every thread
      a step; [RwLock], [RwLockSpec]: [core/rwlock.cc] in the same way, on a mutex
      that excludes.
    - [WaitQueue]: [core/waitqueue.cc] and the linked list of wait records it
      shares with [Condvar], [core/condvar.cc], where threads interleave at the
      critical sections; [Semaphore]: [core/semaphore.cc].
    - [Rcu], [RcuSpec]: [core/rcu.cc], one step per access to shared memory.
    - [Sched]: the scheduler of [core/sched.cc] and [include/osv/sched.hh]: threads,
      CPUs, wakers and interrupt handlers, one step per access to memory that CPUs
      share.  [SchedInv]: its invariant, in groups that most steps leave alone;
      [SchedWake], [SchedRun], [SchedPick], [SchedSwitch], [SchedCall]: wakers,
      threads, arrivals in the run queue, the choice of and the switch to a thread,
      and the calls and interrupts preserve it; [SchedSpec]: what follows.
    - [TimerSet], [TimerSetSpec]: [include/osv/timer-set.hh] with the bit sets of
      [include/osv/bitset-iter.hh]; [TimerList], [TimerListSpec]: the timers of a
      CPU ([timer_list] and [timer_base] of [core/sched.cc]) and the clock event of
      [arch/x64/apic-clock.cc], over any clock that does not run backwards.

    ** How the code is translated

    Unsigned integers are integers in [Z]; where an operation of the source may
    leave its width the definition wraps it ([wrap64], [wrap32]).  Pointers are
    addresses, 0 the null pointer.  Structures in memory are maps from addresses
    to their fields, so that a stale or aliased pointer is visible; a read of a
    header that is not there is a failure.  Operations that may sleep, and those
    with assertions, live in [prog]: [Ret] is a return, [Blocked] a wait (with the
    state in which the thread waits; it will look again when it is woken; in the page
    tables, that there is no page for a table, which fails an assertion), [Fault]
    a failed assertion, an abort or a wild access.  [wp m s Q W F] says that [m]
    from [s] ends in [Q], waits in [W] or fails only if [F]; a theorem with [F]
    = [False] and [W] false is total correctness.  Code under a lock or with
    preemption off is one function; what may interleave is a step relation
    ([Lockfree.step], [Large.mstep]).  The locks are executable step functions: a
    program counter per thread, [advance] for the next access of a thread inside
    an operation and [call] for the first access of a new one; reachability is
    [rtc] of the step relation, and invariants are shown for every step.  Memory
    is sequentially consistent, and a compare-and-exchange fails only if the value
    differs, as on x64.

    Loops are structural where they can be.  The others take fuel, and running
    out of it is a failure, so that the contracts also show the fuel to be
    enough: 64 rounds for a logarithm; the length of the linked list for the
    queues; the bytes of a page for the objects [carve] cuts from it; the number
    of objects in the queue for [drain]; the size of the pool for the refill
    loops, and one refill for a retry; three times the number of areas for the
    loops over areas, each of which may be split at both ends; 512 rounds for the
    slots of a table; 64 rounds for the bits of a set; the number of records for
    the walks over a wait queue; the number of armed timers for the rounds of
    [timer_list::fired], each of which fires one at least.

    ** What is proved

    - The page ranges: allocation, aligned allocation and freeing do exactly what
      they say to the set of free pages and fail only when nothing fits; freeing
      undoes allocating, in pieces as well; the invariant holds in every reachable
      state, memory added at boot included, and so does the exactness of the counters,
      up to the pages that [early_alloc_page] counted and did not find.
    - Page pools, pools of small objects, early objects, large objects and huge
      pages: nobody is given memory that somebody else holds; freeing always
      succeeds; waiting and failing happen exactly when memory is short; the
      garbage collector terminates and empties its queues.
    - [malloc], [calloc], [realloc] and [free]: objects from different allocators
      never overlap, [free] and [malloc_usable_size] find the right one from the
      address alone, and no byte of another object changes.
    - The areas: [munmap], [mprotect] and [mmap] change the permissions of exactly
      their range; the search finds a hole if there is one; a page fault is
      answered inside the area that allows the access.
    - The page tables: mapping, protecting, populating and unpopulating change the
      translation of exactly the pages of their range, large pages are split
      where needed, and each frame is owned exactly once; populating leaves a page
      out only if there is no frame for it.
    - The queues implement lists, also under concurrent producers.
    - The reclaimer wakes only waiters whose requests fit, and each that does.
    - The mutex excludes, in every interleaving of any number of threads; its
      operations end, and no wakeup is lost, as long as its counters do not overflow
      and no thread remembers a hand-off for 2^32 others.  So for the read-write lock,
      as long as its counters do not overflow, which they can.
    - Wait queues wake in the order of arrival; a condition variable touches no
      record that is gone and loses no wakeup; a semaphore conserves its units and
      keeps nobody waiting that it could serve.
    - The scheduler: no assertion fails, every thread is exactly where its state
      says, and states change only as the documented matrix allows, but for one
      transition that it lacks; a CPU halts only
      when none of its threads can run, so that no wakeup is lost; the thread chosen
      has the highest realtime priority; the preemption counters are exact.
    - A callback deferred with RCU is run once, after a grace period, and grace
      periods end.
    - The timer set keeps its contract (without [clear], which nothing calls); timers fire once, when they are due and not
      before; the clock event is set early enough for the next timer.
    - Places where the code does not do what it means to, with concrete runs: see
      the last theorems of [Reclaim], [PagePool], [PoolSpec], [VmaSpec], [PageOps],
      [BootFrames], [MallocSpec], [MutexSpec], [RwLockSpec], [Condvar],
      [TimerSetSpec] and [TimerListSpec].

    ** Not modelled

    - Of the scheduler: moving threads between CPUs, [unsafe_stop], detached threads
      and their reaper, interruptible waits, the floating point arithmetic of the
      runtimes (the steps take the new value; that giving the hysteresis back
      increases it is a condition of [Sched.step]).  The locks, RCU and the allocators
      do not run on [Sched]: they see of it that a thread waits and is woken; what the
      scheduler relies on in turn, that [wake_lock] is called with the mutex held, is
      part of [Sched.allowed].
    - Per-CPU data, other than by the number of the CPU.  The page tables only list
      what they hand to RCU.  Spinlocks, and the locks that disable preemption,
      interrupts or migration.
    - Memory orders weaker than sequential consistency.
    - Two page table walks at the same time: a walk sees the element it read when
      it exchanges it.  TLB flushes are counted, not modelled as hardware.
    - The memory tracker and the debug allocator, which the configuration leaves
      out, and trace points.
    - [mincore] and the listing of the areas, which only read; files behind
      mappings, which this kernel does not have.
    - Consoles, drivers, clocks, boot code, the C library and everything written
      in assembler: input and output, or third-party code. *)
From Stdlib Require Export ZArith Lia.
From stdpp Require Export functions base tactics numbers option decidable sorting gmap list relations.

#[global] Open Scope Z_scope.

(** ** Machine words

    Unsigned values of width [w] are integers of [[0, 2^w)]; every arithmetic
    operation of the source that may leave the range is followed by [wrap]. *)

Definition wrap (w x : Z) : Z := x mod 2 ^ w.
Definition wrap64 (x : Z) : Z := wrap 64 x.
Definition wrap32 (x : Z) : Z := wrap 32 x.

(** [u64 x]: [x] is a value of a 64-bit unsigned type. *)
Definition u64 (x : Z) : Prop := 0 ≤ x < 2 ^ 64.

(** Reading of an unsigned 64-bit word as a signed one ([(ssize_t)x]). *)
Definition signed64 (x : Z) : Z := if Z.testbit x 63 then x - 2 ^ 64 else x.

(** The bitwise complement of a 64-bit word, [~x]. *)
Definition not64 (x : Z) : Z := Z.lxor x (Z.ones 64).

(** The word [v ? 1 : 0]. *)
Definition b2z (b : bool) : Z := if b then 1 else 0.

Create HintDb osv.
Create HintDb wsimp.

Lemma wrap_small w x : 0 ≤ x < 2 ^ w → wrap w x = x.
Proof. apply Z.mod_small. Qed.

Lemma wrap32_small x : 0 ≤ x < 2 ^ 32 → wrap32 x = x.
Proof. apply Z.mod_small. Qed.

Lemma wrap64_small x : u64 x → wrap64 x = x.
Proof. apply wrap_small. Qed.

Lemma wrap_range w x : 0 ≤ w → 0 ≤ wrap w x < 2 ^ w.
Proof. intros. apply Z.mod_pos_bound. lia. Qed.

Lemma signed64_small x : 0 ≤ x < 2 ^ 63 → signed64 x = x.
Proof.
  intros Hx. unfold signed64. rewrite (proj2 (Z.testbit_false x 63 ltac:(lia))); [done|].
  by rewrite Z.div_small by lia.
Qed.

Lemma wrap64_u64 x : u64 (wrap64 x).
Proof. apply wrap_range. lia. Qed.
#[export] Hint Resolve wrap64_u64 : osv.

Lemma not64_spec x i : 0 ≤ i < 64 → Z.testbit (not64 x) i = negb (Z.testbit x i).
Proof.
  intros. unfold not64. rewrite Z.lxor_spec, Z.ones_spec_low by lia.
  by destruct (Z.testbit x i).
Qed.

Lemma u64_testbit_high x i : u64 x → 64 ≤ i → Z.testbit x i = false.
Proof.
  intros [H1 H2] Hi. rewrite <- (Z.mod_small x (2 ^ 64)) by done.
  by apply Z.mod_pow2_bits_high.
Qed.

(** ** Tactics *)

(** Turns the boolean comparisons of the context and the goal into
    propositions on integers. *)
Ltac breflect :=
  repeat match goal with
  | H : (_ && _)%bool = true |- _ => apply andb_true_iff in H; destruct H
  | H : (_ || _)%bool = false |- _ => apply orb_false_iff in H; destruct H
  | H : negb _ = true |- _ => apply negb_true_iff in H
  | H : negb _ = false |- _ => apply negb_false_iff in H
  | H : (_ <? _) = true |- _ => apply Z.ltb_lt in H
  | H : (_ <? _) = false |- _ => apply Z.ltb_ge in H
  | H : (_ <=? _) = true |- _ => apply Z.leb_le in H
  | H : (_ <=? _) = false |- _ => apply Z.leb_gt in H
  | H : (_ =? _) = true |- _ => apply Z.eqb_eq in H
  | H : (_ =? _) = false |- _ => apply Z.eqb_neq in H
  | |- (_ && _)%bool = true => apply andb_true_iff; split
  | |- (_ <? _) = true => apply Z.ltb_lt
  | |- (_ <? _) = false => apply Z.ltb_ge
  | |- (_ <=? _) = true => apply Z.leb_le
  | |- (_ <=? _) = false => apply Z.leb_gt
  | |- (_ =? _) = true => apply Z.eqb_eq
  | |- (_ =? _) = false => apply Z.eqb_neq
  end.

(** Membership in lists built with [++] and [::]. *)
Ltac elem :=
  first [ solve [rewrite ?elem_of_app, ?elem_of_cons; auto 10]
        | match goal with H : _ ∈ _ ++ _ |- _ => apply elem_of_app in H as [H|H]; elem end
        | set_solver ].

(** Case analysis on the first boolean condition of the goal. *)
Tactic Notation "case_if" ident(E) :=
  match goal with
  | |- context [if ?b then _ else _] => destruct b eqn:E
  end.

Tactic Notation "case_if" ident(E) "in" hyp(H) :=
  match type of H with
  | context [if ?b then _ else _] => destruct b eqn:E
  end.

(** ** Lists *)

(** Unlinking of a node from an intrusive list. *)
Fixpoint erase {A} `{EqDecision A} (x : A) (l : list A) : list A :=
  match l with
  | [] => []
  | y :: l => if decide (x = y) then l else y :: erase x l
  end.

(** Insertion in a sequence ordered by the key [f], after the elements with an
    equal key ([insert_equal] of an ordered multiset). *)
Fixpoint insert_upper {A} (f : A → Z) (x : A) (l : list A) : list A :=
  match l with
  | [] => [x]
  | y :: l => if f x <? f y then x :: y :: l else y :: insert_upper f x l
  end.

(** [R] holds between each element and all the later ones. *)
Fixpoint pairwise {A} (R : A → A → Prop) (l : list A) : Prop :=
  match l with
  | [] => True
  | x :: l => Forall (R x) l ∧ pairwise R l
  end.

Section Lists.
Context {A : Type} `{EqDecision A}.
Implicit Types (l : list A) (x : A).

Lemma erase_perm x l : x ∈ l → l ≡ₚ x :: erase x l.
Proof.
  induction l as [|y l IH]; simpl; intros Hx; [by apply not_elem_of_nil in Hx|].
  case_decide; [by subst|]. apply elem_of_cons in Hx as [->|Hl]; [done|].
  etrans; [apply perm_skip, IH, Hl|apply Permutation_swap].
Qed.

Lemma erase_subseteq x l : erase x l ⊆ l.
Proof.
  induction l as [|y l IH]; simpl; [done|]. destruct (decide (x = y)); set_solver.
Qed.

Lemma erase_sublist x l : erase x l `sublist_of` l.
Proof.
  induction l as [|y l IH]; simpl; [done|].
  case_decide; [by apply sublist_cons|by apply sublist_skip].
Qed.

Lemma erase_notin x l : x ∉ l → erase x l = l.
Proof.
  induction l as [|y l IH]; simpl; intros Hx; [done|].
  case_decide; [set_solver|]. rewrite IH; set_solver.
Qed.

Lemma erase_elem x y l : NoDup l → y ∈ erase x l ↔ y ≠ x ∧ y ∈ l.
Proof.
  intros Hnd. destruct (decide (x ∈ l)) as [Hx|Hx].
  - pose proof (erase_perm x l Hx) as Hp.
    assert (y ∈ l ↔ y ∈ x :: erase x l) as Hy by by rewrite <- Hp.
    rewrite Hp in Hnd. apply NoDup_cons in Hnd. rewrite Hy, elem_of_cons. naive_solver.
  - rewrite erase_notin by done. naive_solver.
Qed.

Lemma insert_upper_perm (f : A → Z) x l : insert_upper f x l ≡ₚ x :: l.
Proof.
  induction l as [|y l IH]; simpl; [done|]. case_if E; [done|].
  rewrite IH. apply Permutation_swap.
Qed.

Lemma insert_upper_ext (f g : A → Z) x l :
  (∀ y, y ∈ x :: l → f y = g y) → insert_upper f x l = insert_upper g x l.
Proof.
  induction l as [|y l IH]; simpl; intros Hfg; [done|].
  rewrite (Hfg x), (Hfg y) by set_solver. case_if E; [done|]. rewrite IH; [done|set_solver].
Qed.

Lemma insert_upper_sorted (f : A → Z) x l :
  StronglySorted (λ a b, f a ≤ f b) l →
  StronglySorted (λ a b, f a ≤ f b) (insert_upper f x l).
Proof.
  induction 1 as [|y l Hs IH Hall]; simpl; [repeat constructor|].
  case_if E; breflect.
  - constructor; [by constructor|]. constructor; [lia|].
    rewrite Forall_forall in Hall |- *. intros z Hz. specialize (Hall z Hz). lia.
  - constructor; [done|]. rewrite insert_upper_perm. by constructor.
Qed.

Lemma pairwise_perm (R : A → A → Prop) l1 l2 :
  Symmetric R → l1 ≡ₚ l2 → pairwise R l1 → pairwise R l2.
Proof.
  intros HR. induction 1 as [|x l1 l2 Hp IH|x y l|]; simpl; [done| | |by auto].
  - intros [Hx Hl]. split; [by rewrite <- Hp|auto].
  - intros [Hy [Hx Hl]]. inversion Hy; subst. split_and!; [constructor| |]; auto.
Qed.

Lemma pairwise_app (R : A → A → Prop) l1 l2 :
  pairwise R (l1 ++ l2) ↔
  pairwise R l1 ∧ pairwise R l2 ∧ ∀ x y, x ∈ l1 → y ∈ l2 → R x y.
Proof.
  induction l1 as [|x l1 IH]; simpl.
  { split; [|tauto]. intros Hl. split_and!; [done..|]. by intros ?? ?%not_elem_of_nil. }
  rewrite IH, Forall_app, !Forall_forall. setoid_rewrite elem_of_cons. split.
  - intros [[H1 H2] (H3 & H4 & H5)]. split_and!; [done..|]. intros ?? [->|?] ?; auto.
  - intros ([H1 H2] & H3 & H4). split_and!; auto.
Qed.

Lemma pairwise_filter (R : A → A → Prop) (Q : A → Prop) `{∀ x, Decision (Q x)} l :
  pairwise R l → pairwise R (filter Q l).
Proof.
  induction l as [|x l IH]; [done|]. intros [Hx Hl]. rewrite filter_cons.
  destruct (decide (Q x)); [|by apply IH]. split; [|by apply IH].
  rewrite Forall_forall in *. intros y [_ Hy]%list_elem_of_filter. by apply Hx.
Qed.

Lemma pairwise_elem (R : A → A → Prop) l x y :
  Symmetric R → pairwise R l → x ∈ l → y ∈ l → x = y ∨ R x y.
Proof.
  intros HR. induction l as [|z l IH]; simpl; [by intros _ ?%not_elem_of_nil|].
  rewrite Forall_forall. intros [Hz Hl] Hx Hy.
  apply elem_of_cons in Hx as [->|Hx]; apply elem_of_cons in Hy as [->|Hy]; auto.
Qed.
End Lists.

Lemma filter_all {A} (Q : A → Prop) `{∀ x, Decision (Q x)} (l : list A) : (∀ x, x ∈ l → Q x) → filter Q l = l.
Proof.
  induction l as [|x l IH]; intros Hl; [done|]. rewrite filter_cons_True by (apply Hl; elem).
  f_equal. apply IH. intros y Hy. apply Hl. elem.
Qed.

Lemma filter_none {A} (Q : A → Prop) `{∀ x, Decision (Q x)} (l : list A) : (∀ x, x ∈ l → ¬ Q x) → filter Q l = [].
Proof.
  induction l as [|x l IH]; intros Hl; [done|]. rewrite filter_cons_False by (apply Hl; elem).
  apply IH. intros y Hy. apply Hl. elem.
Qed.

Lemma filter_same {A} (P Q : A → Prop) `{!∀ x, Decision (P x), !∀ x, Decision (Q x)} (l : list A) :
  (∀ x, x ∈ l → P x ↔ Q x) → filter P l = filter Q l.
Proof.
  induction l as [|x l IH]; [done|]. intros Hl. rewrite !filter_cons.
  assert (filter P l = filter Q l) as -> by (apply IH; intros y Hy; apply Hl; by right).
  specialize (Hl x ltac:(left)). repeat case_decide; tauto.
Qed.

(** A sum over the elements of a list. *)
Definition total {A} (f : A → Z) (l : list A) : Z := foldr (λ x n, f x + n) 0 l.

Lemma total_cons {A} (f : A → Z) x l : total f (x :: l) = f x + total f l.
Proof. done. Qed.

Lemma total_insert {A} (f : A → Z) l t p q : l !! t = Some p → total f (<[t := q]> l) = total f l - f p + f q.
Proof.
  revert t. induction l as [|r l IH]; intros [|t] Ht; [done|done| |].
  - injection Ht as ->. cbn [insert list_insert]. rewrite !total_cons. lia.
  - change (<[S t := q]> (r :: l)) with (r :: <[t := q]> l). rewrite !total_cons, (IH t Ht). lia.
Qed.

Lemma total_nonneg {A} (f : A → Z) l : (∀ x, 0 ≤ f x) → 0 ≤ total f l.
Proof. intros Hf. induction l as [|r l IH]; [done|]. rewrite total_cons. specialize (Hf r). lia. Qed.

Lemma total_ge {A} (f : A → Z) l t p : (∀ p, 0 ≤ f p) → l !! t = Some p → 0 ≤ total f l ∧ f p ≤ total f l.
Proof.
  intros Hf. pose proof (total_nonneg f l Hf) as H0. revert t. induction l as [|r l IH]; intros [|t] Ht; [done|done| |];
    rewrite total_cons in *; pose proof (total_nonneg f l Hf); pose proof (Hf r).
  - injection Ht as ->. lia.
  - destruct (IH ltac:(done) t Ht). lia.
Qed.

Lemma total_zero {A} (f : A → Z) l : (∀ x, 0 ≤ f x) → total f l = 0 ↔ ∀ x, x ∈ l → f x = 0.
Proof.
  intros Hf. induction l as [|r l IH]; [split; [by intros _ x ?%elem_of_nil|done]|].
  rewrite total_cons. pose proof (total_nonneg f l Hf). pose proof (Hf r). split.
  - intros Hz x [->|Hx]%elem_of_cons; [lia|]. apply IH; [lia|done].
  - intros Hx. rewrite (Hx r) by elem. rewrite (proj2 IH); [done|]. intros x Hin. apply Hx. elem.
Qed.

(** A function changed at one place. *)
Lemma fn_insert_if {A B} `{EqDecision A} (f : A → B) a b x : <[a := b]> f x = if decide (x = a) then b else f x.
Proof. case_decide; subst; [by rewrite fn_lookup_insert|by rewrite fn_lookup_insert_ne]. Qed.

(** A sorted list cut at a key. *)
Lemma sorted_cut {A} (key : A → Z) a (l : list A) :
  pairwise (λ x y, key x < key y) l →
  l = filter (λ x, key x < a) l ++ filter (λ x, a ≤ key x) l.
Proof.
  induction l as [|x l IH]; [done|]. intros [Hx Hl]. rewrite !filter_cons.
  destruct (decide (key x < a)) as [Hlt|Hge].
  - rewrite decide_False by lia. cbn [app]. f_equal. by apply IH.
  - rewrite decide_True by lia. rewrite Forall_forall in Hx.
    rewrite filter_none; [cbn [app]|intros y Hy; specialize (Hx y Hy); lia]. f_equal.
    rewrite filter_all; [done|]. intros y Hy. specialize (Hx y Hy). lia.
Qed.

Lemma StronglySorted_sublist {A} (R : A → A → Prop) l1 l2 :
  l1 `sublist_of` l2 → StronglySorted R l2 → StronglySorted R l1.
Proof.
  induction 1 as [|x l1 l2 Hs IH|x l1 l2 Hs IH]; intros H; [done| |]; inversion H; subst.
  - constructor; [auto|]. rewrite Forall_forall in *. intros y Hy.
    by eauto using elem_of_sublist.
  - auto.
Qed.

Lemma StronglySorted_Forall_ext {A} (R S : A → A → Prop) l :
  (∀ x y, x ∈ l → y ∈ l → R x y → S x y) → StronglySorted R l → StronglySorted S l.
Proof.
  intros H. induction 1 as [|x l Hs IH Hall]; constructor.
  - apply IH. set_solver.
  - rewrite Forall_forall in Hall |- *. set_solver.
Qed.

Lemma concat_insert_perm {A} (ls : list (list A)) i l l' :
  ls !! i = Some l →
  concat ls ≡ₚ l ++ concat (delete i ls) ∧ concat (<[i:=l']> ls) ≡ₚ l' ++ concat (delete i ls).
Proof.
  revert i. induction ls as [|x ls IH]; intros i Hi; [done|].
  destruct i as [|i]; simplify_eq/=; [done|].
  destruct (IH i Hi) as [H1 H2].
  split; [rewrite H1|rewrite H2]; by rewrite !(assoc_L (++)), (comm (++) x).
Qed.

Lemma NoDup_perm {A} (l l' : list A) : l ≡ₚ l' → NoDup l → NoDup l'.
Proof. by intros ->. Qed.

(** ** Reachability *)

(** An invariant of the steps holds in every reachable state. *)
Lemma rtc_invariant {A} (R : relation A) (P : A → Prop) x y :
  (∀ x y, R x y → P x → P y) → rtc R x y → P x → P y.
Proof. intros Hs. induction 1; eauto. Qed.

(** ** Code that may sleep or fault

    A computation on a state [S] returns a value, puts its thread to sleep (the
    state is what the other threads see meanwhile), or ends the machine: a
    failed assertion, a null dereference, [abort]. *)
Inductive res (S A : Type) :=
  | Ret (a : A) (s : S)
  | Blocked (s : S)
  | Fault.
Arguments Ret {S A}.
Arguments Blocked {S A}.
Arguments Fault {S A}.

Definition prog (S A : Type) : Type := S → res S A.

Definition ret {S A} (a : A) : prog S A := λ s, Ret a s.

Definition bind {S A B} (m : prog S A) (k : A → prog S B) : prog S B := λ s,
  match m s with
  | Ret a s => k a s
  | Blocked s => Blocked s
  | Fault => Fault
  end.

Definition get {S} : prog S S := λ s, Ret s s.
Definition modify {S} (f : S → S) : prog S unit := λ s, Ret tt (f s).
Definition check {S} (b : bool) : prog S unit := λ s, if b then Ret tt s else Fault.
Definition fault {S A} : prog S A := λ _, Fault.

Declare Scope prog_scope.
Delimit Scope prog_scope with prog.
Notation "x ⟵ m ; k" := (bind m (λ x, k))
  (at level 20, m at level 100, k at level 200, right associativity) : prog_scope.
Notation "m ;;; k" := (bind m (λ _, k))
  (at level 100, k at level 200, right associativity) : prog_scope.

(** The result of a computation satisfies [Q] if there is one, the state a
    sleeping thread leaves behind satisfies [W], and a fault implies [F]. *)
Definition wp {S A} (m : prog S A) (s : S) (Q : A → S → Prop) (W : S → Prop) (F : Prop) : Prop :=
  match m s with
  | Ret a s => Q a s
  | Blocked s => W s
  | Fault => F
  end.

Lemma wp_bind {S A B} (m : prog S A) (k : A → prog S B) s Q W F :
  wp m s (λ a s, wp (k a) s Q W F) W F → wp (bind m k) s Q W F.
Proof. unfold wp, bind. by destruct (m s). Qed.

(** A run that finishes. *)
Definition finished {S A} (r : res S A) : bool := match r with Ret _ _ => true | _ => false end.

Lemma wp_finished {S A} (m : prog S A) s d d' Q W :
  wp m s Q W False → finished (m s) = true →
  Q (match m s with Ret a _ => a | _ => d end) (match m s with Ret _ s' => s' | _ => d' end).
Proof. unfold wp. destruct (m s); [done|discriminate 2|done]. Qed.

(** Two specifications at once, and the fault itself. *)
Lemma wp_conj {S A} (m : prog S A) s (Q Q' : A → S → Prop) (W W' : S → Prop) (F F' : Prop) :
  wp m s Q W F → wp m s Q' W' F' → wp m s (λ a s, Q a s ∧ Q' a s) (λ s, W s ∧ W' s) (F ∧ F').
Proof. unfold wp. by destruct (m s). Qed.

Lemma wp_fault {S A} (m : prog S A) s Q W F : wp m s Q W F → wp m s Q W (m s = Fault).
Proof. unfold wp. by destruct (m s). Qed.

Lemma wp_mono {S A} (m : prog S A) s (Q Q' : A → S → Prop) (W W' : S → Prop) (F F' : Prop) :
  wp m s Q W F → (∀ a s, Q a s → Q' a s) → (∀ s, W s → W' s) → (F → F') → wp m s Q' W' F'.
Proof. unfold wp. destruct (m s); auto. Qed.
