(* ===== verification/Bits.v ===== *)
(** * Alignment and integer logarithms

    [include/osv/align.hh] and [include/osv/ilog2.hh], on 64-bit words. *)
From S2P Require Import Prelude.

(** [align_down]: [n & ~(alignment - 1)]. *)
Definition align_down (n alignment : Z) : Z :=
  Z.land n (not64 (wrap64 (alignment - 1))).

(** [align_up]: [align_down(n + alignment - 1, alignment)]. *)
Definition align_up (n alignment : Z) : Z :=
  align_down (wrap64 (n + alignment - 1)) alignment.

Definition align_check (n alignment : Z) : bool := align_down n alignment =? n.

(** [__builtin_clzl]; undefined in C for 0, where the model gives 64. *)
Definition count_leading_zeros (n : Z) : Z := if n =? 0 then 64 else 63 - Z.log2 n.

Fixpoint pos_ctz (p : positive) : Z :=
  match p with
  | xO q => 1 + pos_ctz q
  | _ => 0
  end.

(** [__builtin_ctzl]; undefined in C for 0, where the model gives 64. *)
Definition count_trailing_zeros (n : Z) : Z :=
  match n with Zpos p => pos_ctz p | _ => 64 end.

Definition ilog2_roundup (n : Z) : Z :=
  if n <=? 1 then 0 else 64 - count_leading_zeros (wrap64 (n - 1)).

Definition ilog2 (n : Z) : Z :=
  if n <=? 1 then 0 else 64 - count_leading_zeros n - 1.

(** The recursion halves its argument: 64 unfoldings exhaust a 64-bit word. *)
Fixpoint ilog2_roundup_fuel (fuel : nat) (n : Z) : Z :=
  match fuel with
  | O => 0
  | S fuel =>
      if n <=? 1 then 0
      else 1 + ilog2_roundup_fuel fuel (Z.shiftr n 1 + Z.land n 1)
  end.

Definition ilog2_roundup_constexpr (n : Z) : Z := ilog2_roundup_fuel 64 n.

Definition is_power_of_two (n : Z) : bool := Z.land n (wrap64 (n - 1)) =? 0.

(** ** Correctness *)

Lemma align_down_pow2 n k : u64 n → 0 ≤ k < 64 → align_down n (2 ^ k) = n - n mod 2 ^ k.
Proof.
  intros Hn Hk. unfold align_down, wrap64.
  pose proof (Z.pow_lt_mono_r 2 k 64 ltac:(lia) ltac:(lia) ltac:(lia)).
  rewrite wrap_small by lia.
  replace (n - n mod 2 ^ k) with (Z.ldiff n (Z.ones k)).
  2:{ rewrite Z.ldiff_ones_r, Z.shiftl_mul_pow2, Z.shiftr_div_pow2 by lia.
      pose proof (Z.div_mod n (2 ^ k)). lia. }
  replace (2 ^ k - 1) with (Z.ones k) by (rewrite Z.ones_equiv; lia).
  apply Z.bits_inj'; intros i Hi. rewrite Z.land_spec, Z.ldiff_spec.
  destruct (Z_lt_dec i 64).
  - by rewrite not64_spec by lia.
  - by rewrite u64_testbit_high by (done || lia).
Qed.

Lemma align_down_div n k :
  u64 n → 0 ≤ k < 64 → align_down n (2 ^ k) = 2 ^ k * (n / 2 ^ k).
Proof. intros. rewrite align_down_pow2 by done. pose proof (Z.div_mod n (2 ^ k)). lia. Qed.

Lemma align_up_pow2 n k :
  0 ≤ k < 64 → 0 ≤ n → n + 2 ^ k - 1 < 2 ^ 64 →
  align_up n (2 ^ k) = 2 ^ k * ((n + 2 ^ k - 1) / 2 ^ k).
Proof.
  intros. unfold align_up, wrap64. rewrite wrap_small by lia.
  apply align_down_div; unfold u64; lia.
Qed.

(** The bounds and the multiple that alignment promises, in the form the other
    files use. *)
Lemma align_down_bounds n k :
  u64 n → 0 ≤ k < 64 →
  (2 ^ k | align_down n (2 ^ k)) ∧ align_down n (2 ^ k) ≤ n < align_down n (2 ^ k) + 2 ^ k.
Proof.
  intros. rewrite align_down_div by done. split; [apply Z.divide_factor_l|].
  pose proof (Z.div_mod n (2 ^ k)). pose proof (Z.mod_pos_bound n (2 ^ k)). lia.
Qed.

Lemma align_up_bounds n k :
  0 ≤ k < 64 → 0 ≤ n → n + 2 ^ k - 1 < 2 ^ 64 →
  (2 ^ k | align_up n (2 ^ k)) ∧ n ≤ align_up n (2 ^ k) < n + 2 ^ k.
Proof.
  intros. rewrite align_up_pow2 by done. split; [apply Z.divide_factor_l|].
  pose proof (Z.div_mod (n + 2 ^ k - 1) (2 ^ k)).
  pose proof (Z.mod_pos_bound (n + 2 ^ k - 1) (2 ^ k)). lia.
Qed.

Lemma align_down_id n k : u64 n → 0 ≤ k < 64 → (2 ^ k | n) → align_down n (2 ^ k) = n.
Proof.
  intros ?? [q ->]. rewrite align_down_pow2 by done.
  rewrite Z.mod_mul by lia. lia.
Qed.

Lemma align_up_id n k :
  0 ≤ k < 64 → 0 ≤ n → n + 2 ^ k - 1 < 2 ^ 64 → (2 ^ k | n) → align_up n (2 ^ k) = n.
Proof.
  intros ??? [q ->]. rewrite align_up_pow2 by done.
  replace (q * 2 ^ k + 2 ^ k - 1) with (q * 2 ^ k + (2 ^ k - 1)) by lia.
  rewrite Z.div_add_l by lia. rewrite (Z.div_small (2 ^ k - 1)) by lia. lia.
Qed.

Lemma ilog2_log2 n : u64 n → ilog2 n = Z.log2 n.
Proof.
  intros Hn. unfold ilog2, count_leading_zeros. case_if E; breflect.
  - assert (n = 0 ∨ n = 1) as [-> | ->] by (unfold u64 in Hn; lia); done.
  - rewrite (proj2 (Z.eqb_neq n 0)) by lia. lia.
Qed.

Lemma ilog2_roundup_log2_up n : u64 n → ilog2_roundup n = Z.log2_up n.
Proof.
  intros Hn. unfold ilog2_roundup, count_leading_zeros. case_if E; breflect.
  - assert (n = 0 ∨ n = 1) as [-> | ->] by (unfold u64 in Hn; lia); done.
  - rewrite wrap64_small by (unfold u64 in *; lia).
    rewrite (proj2 (Z.eqb_neq (n - 1) 0)) by lia.
    rewrite Z.log2_up_eqn by lia. replace (Z.pred n) with (n - 1) by lia. lia.
Qed.

Lemma half_roundup n : 0 ≤ n → Z.shiftr n 1 + Z.land n 1 = (n + 1) / 2.
Proof.
  intros. rewrite Z.shiftr_div_pow2 by lia. change 1 with (Z.ones 1) at 2.
  rewrite Z.land_ones by lia. change (2 ^ 1) with 2.
  pose proof (Z.div_mod n 2). pose proof (Z.mod_pos_bound n 2).
  pose proof (Z.div_mod (n + 1) 2). pose proof (Z.mod_pos_bound (n + 1) 2). lia.
Qed.

Lemma log2_up_half n : 1 < n → Z.log2_up n = 1 + Z.log2_up ((n + 1) / 2).
Proof.
  intros Hn. rewrite (Z.log2_up_eqn n) by lia. symmetry.
  destruct (Z.eq_dec n 2) as [-> | Hn2]; [done|].
  assert (1 < (n + 1) / 2) by (apply Z.lt_le_trans with 2; [lia|apply Z.div_le_lower_bound; lia]).
  rewrite Z.log2_up_eqn by lia.
  replace (Z.pred ((n + 1) / 2)) with (Z.pred n / 2).
  2:{ replace (n + 1) with (Z.pred n + 1 * 2) by lia. rewrite Z.div_add by lia. lia. }
  rewrite <- (Z.shiftr_div_pow2 _ 1) by lia. rewrite Z.log2_shiftr by lia.
  pose proof (Z.log2_le_mono 2 (Z.pred n) ltac:(lia)). change (Z.log2 2) with 1 in *. lia.
Qed.

Lemma ilog2_roundup_fuel_log2_up fuel n :
  0 ≤ n ≤ 2 ^ Z.of_nat fuel → ilog2_roundup_fuel fuel n = Z.log2_up n.
Proof.
  revert n. induction fuel as [|fuel IH]; intros n Hn; simpl.
  - change (2 ^ Z.of_nat 0) with 1 in Hn. assert (n = 0 ∨ n = 1) as [-> | ->] by lia; done.
  - case_if E; breflect.
    { assert (n = 0 ∨ n = 1) as [-> | ->] by lia; done. }
    rewrite half_roundup, (log2_up_half n) by lia. rewrite IH; [done|].
    rewrite Nat2Z.inj_succ, Z.pow_succ_r in Hn by lia.
    split; [apply Z.div_pos; lia|].
    apply Z.lt_succ_r, Z.div_lt_upper_bound; lia.
Qed.

(** The lowest set bit of a positive word. *)
Lemma pos_ctz_spec p :
  0 ≤ pos_ctz p ∧ Z.testbit (Zpos p) (pos_ctz p) = true ∧
  ∀ i, i < pos_ctz p → Z.testbit (Zpos p) i = false.
Proof.
  induction p as [p IH | p [IH1 [IH2 IH3]] |]; simpl pos_ctz.
  - split_and!; [done..|]. intros i Hi. by apply Z.testbit_neg_r.
  - split_and!; [lia| |].
    + rewrite Z.add_1_l, Pos2Z.inj_xO, Z.double_bits_succ. done.
    + intros i Hi. rewrite Pos2Z.inj_xO.
      destruct (Z_le_dec i 0) as [Hle | Hgt].
      { destruct (Z.eq_dec i 0) as [-> | Hn]; [done|]. apply Z.testbit_neg_r. lia. }
      replace i with (Z.succ (Z.pred i)) by lia. rewrite Z.double_bits_succ. apply IH3. lia.
  - split_and!; [done..|]. intros i Hi. by apply Z.testbit_neg_r.
Qed.

Lemma count_trailing_zeros_spec n :
  0 < n →
  0 ≤ count_trailing_zeros n ∧ Z.testbit n (count_trailing_zeros n) = true ∧
  ∀ i, i < count_trailing_zeros n → Z.testbit n i = false.
Proof. intros. destruct n; [lia| |lia]. apply pos_ctz_spec. Qed.

Lemma is_power_of_two_pow2 k : 0 ≤ k < 64 → is_power_of_two (2 ^ k) = true.
Proof.
  intros. unfold is_power_of_two. breflect.
  pose proof (Z.pow_lt_mono_r 2 k 64 ltac:(lia) ltac:(lia) ltac:(lia)).
  rewrite wrap64_small by (unfold u64; lia).
  replace (2 ^ k - 1) with (Z.ones k) by (rewrite Z.ones_equiv; lia).
  rewrite Z.land_ones by lia. apply Z.mod_same. lia.
Qed.

(** The test accepts exactly the powers of two and zero. *)
Lemma is_power_of_two_inv n :
  u64 n → is_power_of_two n = true → n = 0 ∨ ∃ k, 0 ≤ k < 64 ∧ n = 2 ^ k.
Proof.
  unfold is_power_of_two. intros Hn H. breflect.
  destruct (Z.eq_dec n 0) as [? | Hn0]; [by left|]. right. unfold u64 in Hn.
  rewrite wrap64_small in H by (unfold u64; lia).
  pose proof (Z.log2_spec n ltac:(lia)) as [Hl Hu].
  pose proof (Z.log2_nonneg n).
  exists (Z.log2 n). split.
  { split; [done|]. apply Z.log2_lt_pow2; lia. }
  destruct (Z.eq_dec n (2 ^ Z.log2 n)) as [|Hne]; [done|]. exfalso.
  assert (Z.log2 (n - 1) = Z.log2 n) as Hlog.
  { apply Z.log2_unique; [done|]. lia. }
  assert (Z.testbit (Z.land n (n - 1)) (Z.log2 n) = true) as Hb.
  { rewrite Z.land_spec, Z.bit_log2 by lia. rewrite <- Hlog, Z.bit_log2 by lia. done. }
  by rewrite H, Z.bits_0 in Hb.
Qed.
