(* ===== verification/Queues.v ===== *)
(** * Linked queues and stacks

    The containers that link their elements through a [next] field: the
    lock-free ones of [include/lockfree] ([stack], [queue_mpsc],
    [unordered_queue_mpsc]) and the sequential ones of [include/osv]
    ([intrusive_queue], [compact_queue], [compact_stack]).  The memory holds the
    [next] field of every node; 0 is the null pointer.  Each container is shown
    to implement a list. *)
From S2P Require Import Prelude.

Notation memory := (gmap Z Z).

(** [p->next] *)
Definition nx (m : memory) (p : Z) : Z := default 0 (m !! p).

(** The nodes from [h] on are those of [l], up to the pointer [e]. *)
Fixpoint seg (m : memory) (h : Z) (l : list Z) (e : Z) : Prop :=
  match l with
  | [] => h = e
  | x :: l => h = x ∧ x ≠ 0 ∧ seg m (nx m x) l e
  end.

(** A null-terminated chain. *)
Definition chain (m : memory) (h : Z) (l : list Z) : Prop := seg m h l 0.

(** ** Lemmas on chains *)

Lemma nx_insert_eq m x v : nx (<[x := v]> m) x = v.
Proof. unfold nx. by rewrite lookup_insert_eq. Qed.

Lemma nx_insert_ne m x y v : x ≠ y → nx (<[x := v]> m) y = nx m y.
Proof. intros. unfold nx. by rewrite lookup_insert_ne. Qed.

(** Writing the field of another node. *)
Lemma seg_insert m h l e x v : x ∉ l → seg m h l e → seg (<[x := v]> m) h l e.
Proof.
  revert h. induction l as [|y l IH]; intros h Hx; cbn [seg]; [done|].
  rewrite not_elem_of_cons in Hx. intros (-> & Hy & Hs). split_and!; [done..|].
  rewrite nx_insert_ne by tauto. apply IH; [tauto|done].
Qed.

Lemma chain_insert m h l x v : x ∉ l → chain m h l → chain (<[x := v]> m) h l.
Proof. apply seg_insert. Qed.

Lemma chain_det m h l l' : chain m h l → chain m h l' → l = l'.
Proof.
  revert h l'. induction l as [|x l IH]; intros h l' H1 H2; destruct l' as [|y l'];
    cbn in H1, H2; [done|naive_solver..|].
  destruct H1 as (-> & _ & H1), H2 as (-> & _ & H2). f_equal. by eapply IH.
Qed.

Lemma chain_nil m l : chain m 0 l → l = [].
Proof. destruct l; [done|]. intros (? & ? & _). congruence. Qed.

Lemma chain_cons_inv m h l : chain m h l → h ≠ 0 → ∃ l', l = h :: l' ∧ chain m (nx m h) l'.
Proof. destruct l as [|x l]; [done|]. intros (-> & _ & H) _. by exists l. Qed.

Lemma seg_app m h l l' e : seg m h (l ++ l') e ↔ ∃ p, seg m h l p ∧ seg m p l' e.
Proof.
  revert h. induction l as [|x l IH]; intros h; cbn [seg app].
  - split; [by exists h|]. by intros (p & -> & ?).
  - rewrite IH. naive_solver.
Qed.

Lemma seg_nonzero m h l e x : seg m h l e → x ∈ l → x ≠ 0.
Proof.
  revert h. induction l as [|y l IH]; intros h; cbn [seg].
  - intros _ Hx. by apply not_elem_of_nil in Hx.
  - intros (-> & Hy & Hs) [->|Hx]%elem_of_cons; [done|by eapply IH].
Qed.

(** A chain has no cycle. *)
Lemma chain_nodup m h l : chain m h l → NoDup l.
Proof.
  revert h. induction l as [|x l IH]; intros h; [constructor|].
  intros (-> & Hx & Hs). constructor; [|by eapply IH].
  intros (l1 & l2 & ->)%list_elem_of_split.
  apply seg_app in Hs as Hs'. destruct Hs' as (p & _ & (-> & _ & Hs2)).
  pose proof (chain_det _ _ _ _ Hs Hs2) as E. apply (f_equal length) in E.
  rewrite length_app in E. simpl in E. lia.
Qed.

(** The same links. *)
Lemma chain_ext m m' h l : chain m h l → (∀ x, x ∈ l → nx m' x = nx m x) → chain m' h l.
Proof.
  revert h. induction l as [|y l IH]; intros h; [done|]. intros (-> & Hy & Hc) Hx.
  split_and!; [done..|]. rewrite Hx by elem. apply IH; [done|]. intros x Hin. apply Hx. elem.
Qed.

Lemma chain_head m h l : chain m h l → h = default 0 (head l).
Proof. destruct l; [done|]. by intros (-> & _). Qed.

(** ** [compact_stack], and the sequential effect of [lockfree::stack] *)

Module CompactStack.

Definition push (m : memory) (head node : Z) : Z * memory * Z := (node, <[node := head]> m, head).

(** The new head and the node, or the null pointer. *)
Definition pop (m : memory) (head : Z) : Z * Z :=
  if head =? 0 then (0, 0) else (nx m head, head).

(** The assertion is the [option]. *)
Definition unpush (m : memory) (head old_head : Z) : option Z :=
  if nx m head =? old_head then Some old_head else None.

End CompactStack.

(** ** [unordered_queue_mpsc] *)

Module Unordered.

Record t := mk { head : Z; poll_list : Z }.

Definition empty : t := mk 0 0.

Definition push (m : memory) (q : t) (item : Z) : memory * t :=
  (<[item := head q]> m, mk item (poll_list q)).

Definition pop (m : memory) (q : t) : Z * t :=
  if negb (poll_list q =? 0) then (poll_list q, mk (head q) (nx m (poll_list q)))
  else
    let r := head q in
    if r =? 0 then (0, mk 0 (poll_list q)) else (r, mk 0 (nx m r)).

(** The queue holds the items of [l] in the order they come out if nothing is
    pushed meanwhile. *)
Definition holds (m : memory) (q : t) (l : list Z) : Prop :=
  ∃ l1 l2, chain m (poll_list q) l1 ∧ chain m (head q) l2 ∧ l = l1 ++ l2 ∧ NoDup l.

Lemma holds_empty m : holds m empty [].
Proof. exists [], []. split_and!; try done. constructor. Qed.

Lemma unordered_push m q l x :
  holds m q l → x ≠ 0 → x ∉ l →
  let '(m', q') := push m q x in ∃ l', holds m' q' l' ∧ l' ≡ₚ x :: l.
Proof.
  intros (l1 & l2 & H1 & H2 & -> & Hnd) Hx Hin. rewrite elem_of_app in Hin.
  exists (l1 ++ x :: l2). split; [|by rewrite Permutation_middle].
  exists l1, (x :: l2). split_and!; try done.
  - apply chain_insert; [tauto|done].
  - split_and!; [done..|]. rewrite nx_insert_eq. apply chain_insert; [tauto|done].
  - rewrite <- Permutation_middle. constructor; [by rewrite elem_of_app|done].
Qed.

Lemma unordered_pop m q l :
  holds m q l → (pop m q).1 = default 0 (list.head l) ∧ holds m (pop m q).2 (tail l).
Proof.
  intros (l1 & l2 & H1 & H2 & -> & Hnd). unfold pop.
  destruct (Z.eqb_spec (poll_list q) 0) as [E|E]; cbn [negb].
  - rewrite E in *. apply chain_nil in H1 as ->. cbn [app].
    destruct (Z.eqb_spec (head q) 0) as [Eh|Eh].
    + rewrite Eh in H2. apply chain_nil in H2 as ->. split; [done|]. apply holds_empty.
    + destruct (chain_cons_inv _ _ _ H2 Eh) as (l' & -> & Hl'). split; [done|].
      apply NoDup_cons in Hnd as [_ Hnd]. exists l', []. rewrite app_nil_r. done.
  - destruct (chain_cons_inv _ _ _ H1 E) as (l' & -> & Hl'). split; [done|].
    cbn [app tail]. apply NoDup_cons in Hnd as [_ Hnd]. by exists l', l2.
Qed.

(** The other items may change their links. *)
Lemma holds_insert m q l x v : holds m q l → x ∉ l → holds (<[x := v]> m) q l.
Proof.
  intros (l1 & l2 & H1 & H2 & -> & Hnd) Hx. rewrite elem_of_app in Hx. exists l1, l2.
  split_and!; try done; (apply chain_insert; [tauto|done]).
Qed.

End Unordered.

(** ** [queue_mpsc] *)

Module Mpsc.

Record t := mk { pushlist : Z; poplist : Z }.

Definition empty : t := mk 0 0.

Definition is_empty (q : t) : bool := (poplist q =? 0) && (pushlist q =? 0).

Definition push (m : memory) (q : t) (item : Z) : memory * t :=
  (<[item := pushlist q]> m, mk item (poplist q)).

(** The loop that reverses the push list into the pop list, down to its last
    node. *)
Fixpoint reverse_loop (fuel : nat) (m : memory) (r pop : Z) : option (memory * Z * Z) :=
  match fuel with
  | O => None
  | S fuel =>
      let next := nx m r in
      if next =? 0 then Some (m, r, pop)
      else reverse_loop fuel (<[r := pop]> m) next r
  end.

Definition pop (fuel : nat) (m : memory) (q : t) : option (Z * memory * t) :=
  if negb (poplist q =? 0) then
    Some (poplist q, m, mk (pushlist q) (nx m (poplist q)))
  else
    let r := pushlist q in
    if r =? 0 then Some (0, m, mk 0 (poplist q))
    else
      match reverse_loop fuel m r (poplist q) with
      | Some (m, r, pop) => Some (r, m, mk 0 pop)
      | None => None
      end.

(** The queue holds [l], oldest first. *)
Definition holds (m : memory) (q : t) (l : list Z) : Prop :=
  ∃ l1 l2, chain m (poplist q) l1 ∧ chain m (pushlist q) l2 ∧ l = l1 ++ reverse l2 ∧ NoDup l.

Lemma mpsc_push m q l x :
  holds m q l → x ≠ 0 → x ∉ l →
  let '(m', q') := push m q x in holds m' q' (l ++ [x]).
Proof.
  intros (l1 & l2 & H1 & H2 & -> & Hnd) Hx Hin. rewrite elem_of_app, elem_of_reverse in Hin.
  exists l1, (x :: l2). rewrite reverse_cons. split_and!.
  - apply chain_insert; [tauto|done].
  - split_and!; [done..|]. rewrite nx_insert_eq. apply chain_insert; [tauto|done].
  - by rewrite (assoc_L (++)).
  - rewrite <- Permutation_cons_append. constructor; [by rewrite elem_of_app, elem_of_reverse|done].
Qed.

Lemma reverse_loop_spec fuel l m r p l1 :
  chain m r (r :: l) → chain m p l1 → NoDup ((r :: l) ++ l1) → (length l < fuel)%nat →
  ∃ m' x h rest, reverse_loop fuel m r p = Some (m', x, h) ∧ reverse (r :: l) = x :: rest ∧
    chain m' h (rest ++ l1).
Proof.
  revert fuel m r p l1. induction l as [|y l IH]; intros fuel m r p l1 H1 H2 Hnd Hf;
    (destruct fuel as [|fuel]; [lia|]); cbn [reverse_loop].
  - destruct H1 as (_ & _ & ->). by exists m, r, p, [].
  - destruct H1 as (_ & Hr & H1). pose proof (chain_head _ _ _ H1) as E. cbn in E. rewrite E in *.
    assert (y ≠ 0) as Hy by (destruct H1 as (_ & ? & _); done).
    rewrite (proj2 (Z.eqb_neq y 0) Hy). cbn [app] in Hnd. apply NoDup_cons in Hnd as [Hnin Hnd].
    cbn [app] in Hnin. rewrite not_elem_of_cons, not_elem_of_app in Hnin.
    destruct (IH fuel (<[r := p]> m) y r (r :: l1)) as (m' & x & h & rest & E1 & E2 & E3).
    + apply chain_insert; [rewrite not_elem_of_cons; tauto|done].
    + split_and!; [done..|]. rewrite nx_insert_eq. apply chain_insert; [tauto|done].
    + rewrite <- Permutation_middle. constructor; [|done].
      cbn [app]. rewrite not_elem_of_cons, not_elem_of_app. tauto.
    + simpl in Hf. lia.
    + exists m', x, h, (rest ++ [r]). split_and!; [done| |by rewrite <- (assoc_L (++))].
      rewrite reverse_cons, E2. done.
Qed.

Lemma mpsc_pop fuel m q l :
  holds m q l → (length l ≤ fuel)%nat →
  ∃ x m' q', pop fuel m q = Some (x, m', q') ∧ x = default 0 (head l) ∧ holds m' q' (tail l).
Proof.
  intros (l1 & l2 & H1 & H2 & -> & Hnd) Hf. unfold pop.
  destruct (Z.eqb_spec (poplist q) 0) as [E|E]; cbn [negb].
  - rewrite E in H1. apply chain_nil in H1 as ->. cbn [app] in *. rewrite E.
    destruct (Z.eqb_spec (pushlist q) 0) as [Eh|Eh].
    + rewrite Eh in H2. apply chain_nil in H2 as ->. exists 0, m, (mk 0 0).
      split_and!; try done. exists [], []. by rewrite reverse_nil.
    + destruct (chain_cons_inv _ _ _ H2 Eh) as (l' & -> & Hl').
      rewrite length_reverse in Hf. simpl in Hf.
      destruct (reverse_loop_spec fuel l' m (pushlist q) 0 []) as (m' & x & h & rest & E1 & E2 & E3);
        [done|done| |lia|].
      { rewrite app_nil_r. by rewrite reverse_Permutation in Hnd. }
      rewrite E1, E2, app_nil_r in *. exists x, m', (mk 0 h). split_and!; [done..|].
      apply NoDup_cons in Hnd as [_ Hnd]. exists rest, []. by rewrite reverse_nil, app_nil_r.
  - destruct (chain_cons_inv _ _ _ H1 E) as (l' & -> & Hl').
    cbn [app] in Hnd. apply NoDup_cons in Hnd as [_ Hnd].
    eexists _, _, _. split; [done|]. split; [done|]. by exists l', l2.
Qed.

End Mpsc.

(** ** [intrusive_queue] *)

Module Intrusive.

Record t := mk { push_list : Z; pop_list : Z }.

Definition is_empty (q : t) : bool := (pop_list q =? 0) && (push_list q =? 0).
Definition clear : t := mk 0 0.

Definition push (m : memory) (q : t) (item : Z) : memory * t :=
  (<[item := push_list q]> m, mk item (pop_list q)).

(** The loop of [reverse]. *)
Fixpoint reverse_chain (fuel : nat) (m : memory) (head reversed : Z) : option (memory * Z) :=
  if head =? 0 then Some (m, reversed)
  else
    match fuel with
    | O => None
    | S fuel => reverse_chain fuel (<[head := reversed]> m) (nx m head) head
    end.

Definition pop (fuel : nat) (m : memory) (q : t) : option (Z * memory * t) :=
  if pop_list q =? 0 then
    if push_list q =? 0 then Some (0, m, q)
    else
      '(m, h) ← reverse_chain fuel m (push_list q) 0;
      Some (h, m, mk 0 (nx m h))
  else Some (pop_list q, m, mk (push_list q) (nx m (pop_list q))).

(** Iteration: the element behind [pred], the first one for the null pointer. *)
Definition next (fuel : nat) (m : memory) (q : t) (pred : Z) : option (Z * memory * t) :=
  if pred =? 0 then
    if (pop_list q =? 0) && negb (push_list q =? 0) then
      '(m, h) ← reverse_chain fuel m (push_list q) 0;
      Some (h, m, mk 0 h)
    else Some (pop_list q, m, q)
  else if negb (nx m pred =? 0) then Some (nx m pred, m, q)
  else if push_list q =? 0 then Some (0, m, q)
  else
    '(m, h) ← reverse_chain fuel m (push_list q) 0;
    Some (h, <[pred := h]> m, mk 0 (pop_list q)).

Definition holds (m : memory) (q : t) (l : list Z) : Prop :=
  ∃ l1 l2, chain m (pop_list q) l1 ∧ chain m (push_list q) l2 ∧ l = l1 ++ reverse l2 ∧ NoDup l.

Lemma intrusive_push m q l x :
  holds m q l → x ≠ 0 → x ∉ l →
  let '(m', q') := push m q x in holds m' q' (l ++ [x]).
Proof.
  intros (l1 & l2 & H) Hx Hin.
  apply (Mpsc.mpsc_push m (Mpsc.mk (push_list q) (pop_list q)) l x); [by exists l1, l2|done..].
Qed.

Lemma reverse_chain_spec fuel l m h r l1 :
  chain m h l → chain m r l1 → NoDup (l ++ l1) → (length l ≤ fuel)%nat →
  ∃ m' h', reverse_chain fuel m h r = Some (m', h') ∧ chain m' h' (reverse l ++ l1) ∧
    ∀ x, x ∉ l → nx m' x = nx m x.
Proof.
  revert fuel m h r l1. induction l as [|y l IH]; intros fuel m h r l1 H1 H2 Hnd Hf.
  - rewrite (H1 : h = 0). exists m, r. by destruct fuel.
  - destruct H1 as (-> & Hy & H1). destruct fuel as [|fuel]; [simpl in Hf; lia|].
    cbn [reverse_chain]. rewrite (proj2 (Z.eqb_neq y 0) Hy).
    cbn [app] in Hnd. apply NoDup_cons in Hnd as [Hnin Hnd]. rewrite not_elem_of_app in Hnin.
    destruct (IH fuel (<[y := r]> m) (nx m y) y (y :: l1)) as (m' & h' & E & Hc & Hn).
    + apply chain_insert; [tauto|done].
    + split_and!; [done..|]. rewrite nx_insert_eq. apply chain_insert; [tauto|done].
    + rewrite <- Permutation_middle. constructor; [|done]. by rewrite not_elem_of_app.
    + simpl in Hf. lia.
    + exists m', h'. split_and!; [done| |].
      * by rewrite reverse_cons, <- (assoc_L (++)).
      * intros x Hx. rewrite not_elem_of_cons in Hx. rewrite Hn by tauto. rewrite nx_insert_ne by naive_solver. done.
Qed.

(** The push list reversed on its own. *)
Lemma reverse_push fuel m h l :
  chain m h l → NoDup l → (length l ≤ fuel)%nat →
  ∃ m' h', reverse_chain fuel m h 0 = Some (m', h') ∧ chain m' h' (reverse l) ∧
    ∀ x, x ∉ l → nx m' x = nx m x.
Proof.
  intros Hc Hnd Hf. destruct (reverse_chain_spec fuel l m h 0 []) as (m' & h' & E & H & Hn);
    [done|done|by rewrite app_nil_r|done|]. rewrite app_nil_r in H. eauto.
Qed.

Lemma intrusive_pop fuel m q l :
  holds m q l → (length l ≤ fuel)%nat →
  ∃ x m' q', pop fuel m q = Some (x, m', q') ∧ x = default 0 (head l) ∧ holds m' q' (tail l).
Proof.
  intros (l1 & l2 & H1 & H2 & -> & Hnd) Hf. unfold pop.
  destruct (Z.eqb_spec (pop_list q) 0) as [E|E].
  - rewrite E in H1. apply chain_nil in H1 as ->. cbn [app] in *.
    destruct (Z.eqb_spec (push_list q) 0) as [Eh|Eh].
    + rewrite Eh in H2. apply chain_nil in H2 as ->. exists 0, m, q.
      split_and!; try done. exists [], []. rewrite E, Eh. by rewrite reverse_nil.
    + rewrite length_reverse in Hf.
      destruct (reverse_push fuel m (push_list q) l2 H2) as (m' & h & E1 & E2 & _);
        [by rewrite reverse_Permutation in Hnd|done|].
      rewrite E1. cbn. destruct (reverse l2) as [|x rest] eqn:El.
      { destruct (chain_cons_inv _ _ _ H2 Eh) as (l' & -> & _). rewrite reverse_cons in El.
        by apply app_nil in El as [_ ?]. }
      destruct E2 as (-> & _ & E2). exists x, m', (mk 0 (nx m' x)). split_and!; [done..|].
      apply NoDup_cons in Hnd as [_ Hnd]. exists rest, []. by rewrite reverse_nil, app_nil_r.
  - destruct (chain_cons_inv _ _ _ H1 E) as (l' & -> & Hl').
    cbn [app] in Hnd. apply NoDup_cons in Hnd as [_ Hnd].
    eexists _, _, _. split; [done|]. split; [done|]. by exists l', l2.
Qed.

(** Writing the last link of a chain appends another one. *)
Lemma chain_append m h l x y lb :
  chain m h (l ++ [x]) → chain m y lb → NoDup (l ++ [x]) → x ∉ lb →
  chain (<[x := y]> m) h (l ++ x :: lb).
Proof.
  intros Hc Hy Hnd Hx. apply seg_app in Hc as (p & Hs & (-> & Hx0 & _)).
  apply NoDup_app in Hnd as (_ & Hnd & _). apply seg_app. exists x. split.
  - apply seg_insert; [|done]. intros Hin. apply (Hnd x Hin). elem.
  - split_and!; [done..|]. rewrite nx_insert_eq. by apply chain_insert.
Qed.

(** [next] walks through the queue and leaves its contents alone: [pred] is in
    the pop list, and so is what it returns. *)
Lemma next_holds fuel m q l1 l2 la pred lc :
  chain m (pop_list q) l1 → chain m (push_list q) l2 → NoDup (l1 ++ reverse l2) →
  l1 = la ++ pred :: lc → (length l2 ≤ fuel)%nat →
  ∃ x m' q' l1' l2', next fuel m q pred = Some (x, m', q') ∧
    x = default 0 (head (lc ++ reverse l2)) ∧ l1' ++ reverse l2' = l1 ++ reverse l2 ∧
    chain m' (pop_list q') l1' ∧ chain m' (push_list q') l2' ∧ (x ≠ 0 → x ∈ l1').
Proof.
  intros H1 H2 Hnd -> Hf. unfold next.
  assert (pred ≠ 0) as Hp0 by (eapply seg_nonzero; [exact H1|elem]).
  rewrite (proj2 (Z.eqb_neq pred 0) Hp0).
  pose proof H1 as H1'. apply seg_app in H1' as (p & Hs & (-> & _ & Hlc)).
  destruct (Z.eqb_spec (nx m pred) 0) as [En|En]; cbn [negb].
  - rewrite En in Hlc. apply chain_nil in Hlc as ->. cbn [app].
    destruct (Z.eqb_spec (push_list q) 0) as [Ep|Ep].
    + rewrite Ep in H2. apply chain_nil in H2 as ->.
      exists 0, m, q, (la ++ [pred]), []. split_and!; done.
    + rewrite <- (assoc_L (++)) in Hnd. apply NoDup_app in Hnd as (Hla & Hdis & Hnd).
      cbn [app] in Hnd. apply NoDup_cons in Hnd as [Hpin Hnd].
      destruct (reverse_push fuel m (push_list q) l2 H2) as (m' & h & E1 & E2 & E3);
        [by rewrite reverse_Permutation in Hnd|done|]. rewrite E1. cbn.
      exists h, (<[pred := h]> m'), (mk 0 (pop_list q)), (la ++ pred :: reverse l2), [].
      assert (chain m' (pop_list q) (la ++ [pred])) as Hc'.
      { apply (chain_ext m); [done|]. intros x Hx. apply E3.
        rewrite elem_of_app, list_elem_of_singleton in Hx. destruct Hx as [Hx| ->].
        - intros Hin. apply (Hdis x Hx). cbn [app]. rewrite elem_of_cons, elem_of_reverse. auto.
        - by rewrite elem_of_reverse in Hpin. }
      split_and!; try done.
      * by apply chain_head in E2.
      * rewrite reverse_nil, app_nil_r, <- (assoc_L (++)). done.
      * apply chain_append; [done|done| |done].
        apply NoDup_app. split_and!; [done| |by repeat constructor; apply not_elem_of_nil].
        intros x Hx Hx2. apply (Hdis x Hx). rewrite list_elem_of_singleton in Hx2. subst. elem.
      * intros Hh. destruct (chain_cons_inv _ _ _ E2 Hh) as (l' & -> & _). elem.
  - destruct (chain_cons_inv _ _ _ Hlc En) as (l' & -> & _).
    exists (nx m pred), m, q, (la ++ pred :: nx m pred :: l'), l2. split_and!; try done.
    intros _. elem.
Qed.

End Intrusive.

(** ** [compact_queue]: a cycle with a pointer to the last node *)

Module Compact.

Definition front (m : memory) (tail : Z) : Z := if tail =? 0 then 0 else nx m tail.

Definition push_back (m : memory) (tail node : Z) : memory * Z :=
  if tail =? 0 then (<[node := node]> m, node)
  else (<[tail := node]> (<[node := nx m tail]> m), node).

Definition push_back_rollbackable (m : memory) (tail node : Z) : Z * memory * Z :=
  let '(m, t) := push_back m tail node in (tail, m, t).

(** The assertion is the [option]. *)
Definition pop_back (m : memory) (tail old_tail : Z) : option (memory * Z) :=
  if tail =? 0 then None
  else if old_tail =? 0 then Some (m, 0)
  else Some (<[old_tail := nx m tail]> m, old_tail).

Definition pop_front (m : memory) (tail : Z) : Z * memory * Z :=
  if tail =? 0 then (0, m, tail)
  else
    let head := nx m tail in
    if head =? tail then (head, m, 0)
    else (head, <[tail := nx m head]> m, tail).

(** The queue holds [l]: its last node is [tail], and the links lead through [l]
    back to its first node. *)
Definition holds (m : memory) (tail : Z) (l : list Z) : Prop :=
  match last l with
  | None => tail = 0
  | Some x => tail = x ∧ NoDup l ∧ seg m (nx m tail) l (nx m tail)
  end.

Lemma holds_snoc m tail l x :
  holds m tail (l ++ [x]) ↔ tail = x ∧ NoDup (l ++ [x]) ∧ seg m (nx m x) (l ++ [x]) (nx m x).
Proof. unfold holds. rewrite last_snoc. naive_solver. Qed.

Lemma seg_relink m h l x e v :
  NoDup (l ++ [x]) → seg m h (l ++ [x]) e → seg (<[x := v]> m) h (l ++ [x]) v.
Proof.
  intros Hnd (p & Hs & (-> & Hx & _))%seg_app. apply NoDup_app in Hnd as (_ & Hnd & _).
  apply seg_app. exists x. split.
  - apply seg_insert; [|done]. intros Hin. apply (Hnd x Hin). elem.
  - split_and!; [done..|]. by rewrite nx_insert_eq.
Qed.

Lemma push_back_holds m tail l x :
  holds m tail l → x ≠ 0 → x ∉ l →
  let '(m', t') := push_back m tail x in holds m' t' (l ++ [x]).
Proof.
  intros Hh Hx Hin. unfold push_back. destruct l as [|y l0 _] using rev_ind.
  - rewrite (Hh : tail = 0). cbn [Z.eqb app]. apply (holds_snoc _ _ []). cbn [app].
    rewrite nx_insert_eq. split_and!; [done|by repeat constructor; apply not_elem_of_nil|].
    cbn [seg]. rewrite nx_insert_eq. done.
  - apply holds_snoc in Hh as (-> & Hnd & Hs).
    assert (y ≠ 0) as Hy by (eapply seg_nonzero; [exact Hs|elem]).
    rewrite (proj2 (Z.eqb_neq y 0) Hy). apply holds_snoc.
    assert (x ≠ y) as Hxy by (intros ->; apply Hin; elem).
    rewrite nx_insert_ne, nx_insert_eq by done. split_and!; [done| |].
    + apply NoDup_app. split_and!; [done| |by repeat constructor; apply not_elem_of_nil].
      intros z Hz ->%list_elem_of_singleton. done.
    + apply seg_app. exists x. split.
      * eapply seg_relink; [done|]. by apply seg_insert.
      * split_and!; [done..|]. cbn [seg]. rewrite nx_insert_ne, nx_insert_eq by done. done.
Qed.

Lemma pop_front_holds m tail l :
  holds m tail l →
  let '(x, m', t') := pop_front m tail in x = default 0 (head l) ∧ holds m' t' (list.tail l).
Proof.
  intros Hh. unfold pop_front. destruct l as [|y l0 _] using rev_ind.
  - by rewrite (Hh : tail = 0).
  - apply holds_snoc in Hh as (-> & Hnd & Hs).
    assert (y ≠ 0) as Hy by (eapply seg_nonzero; [exact Hs|elem]).
    rewrite (proj2 (Z.eqb_neq y 0) Hy).
    destruct l0 as [|x l0]; cbn [app] in *.
    + destruct Hs as (-> & _ & _). rewrite Z.eqb_refl. done.
    + destruct Hs as (E & Hx & Hs). rewrite E in *. apply NoDup_cons in Hnd as [Hxn Hnd].
      assert (x ≠ y) as Hxy by (intros ->; apply Hxn; elem).
      rewrite (proj2 (Z.eqb_neq x y) Hxy). split; [done|]. cbn [list.tail].
      apply holds_snoc. rewrite nx_insert_eq. split_and!; [done..|].
      eapply seg_relink; [done|exact Hs].
Qed.

(** [pop_back] undoes [push_back_rollbackable]. *)
Lemma rollback_holds m tail l x :
  holds m tail l → x ≠ 0 → x ∉ l →
  let '(old, m', t') := push_back_rollbackable m tail x in
  ∃ m'', pop_back m' t' old = Some (m'', tail) ∧ holds m'' tail l.
Proof.
  intros Hh Hx Hin. unfold push_back_rollbackable, push_back, pop_back.
  destruct l as [|y l0 _] using rev_ind.
  - rewrite (Hh : tail = 0). change (0 =? 0) with true. cbv iota.
    rewrite (proj2 (Z.eqb_neq x 0) Hx). eexists. by split.
  - apply holds_snoc in Hh as (-> & Hnd & Hs).
    assert (y ≠ 0) as Hy by (eapply seg_nonzero; [exact Hs|elem]).
    rewrite (proj2 (Z.eqb_neq y 0) Hy). cbv iota beta.
    rewrite (proj2 (Z.eqb_neq x 0) Hx), (proj2 (Z.eqb_neq y 0) Hy).
    eexists. split; [done|]. assert (x ≠ y) as Hxy by (intros ->; apply Hin; elem).
    rewrite (nx_insert_ne (<[x := nx m y]> m) y x) by done. rewrite nx_insert_eq.
    apply holds_snoc. rewrite nx_insert_eq. split_and!; [done..|].
    eapply seg_relink; [done|]. eapply seg_relink; [done|]. by apply seg_insert.
Qed.

End Compact.

(** ** The interface of the queues *)

(** A queue of nodes in memory that behaves as a list, oldest first; [fuel]
    bounds the loop of a removal. *)
Class LinkedQueue (Q : Type) := {
  lq_push : memory → Q → Z → memory * Q;
  lq_pop : nat → memory → Q → option (Z * memory * Q);
  lq_holds : memory → Q → list Z → Prop;
  lq_push_spec m q l x : lq_holds m q l → x ≠ 0 → x ∉ l →
    lq_holds (lq_push m q x).1 (lq_push m q x).2 (l ++ [x]);
  lq_pop_spec fuel m q l : lq_holds m q l → (length l ≤ fuel)%nat →
    ∃ x m' q', lq_pop fuel m q = Some (x, m', q') ∧ x = default 0 (head l) ∧
      lq_holds m' q' (tail l);
}.

#[export, refine] Instance mpsc_queue : LinkedQueue Mpsc.t := {
  lq_push := Mpsc.push; lq_pop := Mpsc.pop; lq_holds := Mpsc.holds;
}.
Proof. exact Mpsc.mpsc_push. exact Mpsc.mpsc_pop. Defined.

#[export, refine] Instance intrusive_queue : LinkedQueue Intrusive.t := {
  lq_push := Intrusive.push; lq_pop := Intrusive.pop; lq_holds := Intrusive.holds;
}.
Proof. exact Intrusive.intrusive_push. exact Intrusive.intrusive_pop. Defined.

#[export, refine] Instance compact_queue : LinkedQueue Z := {
  lq_push := Compact.push_back;
  lq_pop _ m t := Some (Compact.pop_front m t);
  lq_holds := Compact.holds;
}.
Proof.
  - intros m q l x H1 H2 H3. pose proof (Compact.push_back_holds m q l x H1 H2 H3) as H.
    by destruct (Compact.push_back m q x).
  - intros _ m q l H _. pose proof (Compact.pop_front_holds m q l H) as H'.
    destruct (Compact.pop_front m q) as [[x m'] q']. eauto.
Defined.

(** Operations and what they answer: a removal gives a node or the null
    pointer. *)
Inductive op := Push (x : Z) | Pop.

Section Run.
Context `{LinkedQueue Q}.

Fixpoint run (fuel : nat) (m : memory) (q : Q) (ops : list op) : option (list Z) :=
  match ops with
  | [] => Some []
  | Push x :: ops => let '(m, q) := lq_push m q x in run fuel m q ops
  | Pop :: ops =>
      '(x, m, q) ← lq_pop fuel m q;
      l ← run fuel m q ops;
      Some (x :: l)
  end.

(** The specification: a list. *)
Fixpoint run_list (l : list Z) (ops : list op) : list Z :=
  match ops with
  | [] => []
  | Push x :: ops => run_list (l ++ [x]) ops
  | Pop :: ops => default 0 (head l) :: run_list (tail l) ops
  end.

(** Only nodes that are not in the queue are added. *)
Fixpoint ops_ok (l : list Z) (ops : list op) : Prop :=
  match ops with
  | [] => True
  | Push x :: ops => x ≠ 0 ∧ x ∉ l ∧ ops_ok (l ++ [x]) ops
  | Pop :: ops => ops_ok (tail l) ops
  end.

Lemma run_refines fuel m q l ops :
  lq_holds m q l → ops_ok l ops → (length l + length ops ≤ fuel)%nat →
  run fuel m q ops = Some (run_list l ops).
Proof.
  revert m q l. induction ops as [|[x|] ops IH]; intros m q l Hh Hok Hf; cbn [run run_list]; [done| |].
  - destruct Hok as (Hx & Hin & Hok). pose proof (lq_push_spec m q l x Hh Hx Hin) as Hp.
    destruct (lq_push m q x) as [m' q']. apply IH; [done|done|].
    rewrite length_app. simpl in *. lia.
  - destruct (lq_pop_spec fuel m q l Hh) as (x & m' & q' & E & -> & Hh'); [simpl in Hf; lia|].
    rewrite E. cbn. rewrite (IH m' q' (tail l) Hh' Hok); [done|].
    destruct l; simpl in *; lia.
Qed.
End Run.

(** ** Properties *)

(** C27: [queue_mpsc], [intrusive_queue] and [compact_queue] are first-in
    first-out queues: whatever the sequence of insertions and removals, each
    answers as a list does that is extended at the end and consumed from the
    front; the reversing loops of the first two end. *)
Theorem queues_fifo fuel m ops :
  ops_ok [] ops → (length ops ≤ fuel)%nat →
  run fuel m Mpsc.empty ops = Some (run_list [] ops) ∧
  run fuel m Intrusive.clear ops = Some (run_list [] ops) ∧
  run fuel m (0 : Z) ops = Some (run_list [] ops).
Proof.
  intros Hok Hf. split_and!; apply run_refines; try done.
  - exists [], []. by rewrite reverse_nil; split_and!; try constructor.
  - exists [], []. by rewrite reverse_nil; split_and!; try constructor.
Qed.

Lemma queues_fifo_witness :
  run 9 ∅ Mpsc.empty [Push 10; Push 20; Pop; Push 30; Push 10; Pop; Pop; Pop; Pop]
    = Some [10; 20; 30; 10; 0].
Proof.
  apply (queues_fifo 9 ∅ [Push 10; Push 20; Pop; Push 30; Push 10; Pop; Pop; Pop; Pop]); [|done].
  cbn. rewrite !not_elem_of_cons. split_and!; try done; try apply not_elem_of_nil.
Defined.
