(* ===== verification/Lockfree.v ===== *)
(** * The lock-free stack and queues under concurrency

    [lockfree::stack], and the push list of [queue_mpsc] and
    [unordered_queue_mpsc], with any number of producers in their
    compare-and-swap loops and one consumer: each atomic access is a step.  The
    pointers of a producer may be arbitrarily old when it swaps (the ABA case
    included). *)
From S2P Require Import Prelude Queues.

Module Lockfree.

(** Where a producer of [item] is in [push]: it has read the head, or has also
    written [item->next]. *)
Inductive producer :=
  | PLoaded (item old : Z)
  | PLinked (item old : Z).

(** Where the consumer is in [pop]. *)
Inductive consumer :=
  | CIdle
  | CLoaded (old : Z)
  | CRead (old next : Z).

Definition item_of (p : producer) : Z :=
  match p with PLoaded item _ | PLinked item _ => item end.

(** [links] is the memory, [owned] the items outside the container, [contents]
    what has been pushed and not removed, latest first. *)
Record st := mk {
  links : memory;
  head : Z;
  producers : gmap nat producer;
  cons : consumer;
  owned : list Z;
  contents : list Z;
}.

(** One atomic access of some thread. *)
Inductive step : st → st → Prop :=
  | push_load m h ps c own l t item :
      ps !! t = None → item ∈ own →
      step (mk m h ps c own l) (mk m h (<[t := PLoaded item h]> ps) c (erase item own) l)
  | push_link m h ps c own l t item old :
      ps !! t = Some (PLoaded item old) →
      step (mk m h ps c own l) (mk (<[item := old]> m) h (<[t := PLinked item old]> ps) c own l)
  | push_cas m h ps c own l t item :
      ps !! t = Some (PLinked item h) →
      step (mk m h ps c own l) (mk m item (delete t ps) c own (item :: l))
  | push_retry m h ps c own l t item old :
      ps !! t = Some (PLinked item old) →
      step (mk m h ps c own l) (mk m h (<[t := PLoaded item h]> ps) c own l)
  | pop_all m h ps own l :
      step (mk m h ps CIdle own l) (mk m 0 ps CIdle (l ++ own) [])
  | pop_load m h ps own l :
      h ≠ 0 → step (mk m h ps CIdle own l) (mk m h ps (CLoaded h) own l)
  | pop_read m h ps own l old :
      step (mk m h ps (CLoaded old) own l) (mk m h ps (CRead old (nx m old)) own l)
  | pop_cas m h ps own l next :
      step (mk m h ps (CRead h next) own l)
        (mk (<[h := 0]> m) next ps CIdle (h :: own) (tail l))
  | pop_retry m h ps own l old next :
      step (mk m h ps (CRead old next) own l)
        (mk m h ps (if h =? 0 then CIdle else CLoaded h) own l)
  | write m h ps c own l x v :
      x ∈ own → step (mk m h ps c own l) (mk (<[x := v]> m) h ps c own l).

Definition items (ps : gmap nat producer) : list Z := (item_of ∘ snd) <$> map_to_list ps.

(** Each item is in one place, the chain from the head is [contents], and what
    the threads remember is still true where they rely on it. *)
Record inv (s : st) : Prop := {
  iv_chain : chain (links s) (head s) (contents s);
  iv_nodup : NoDup (owned s ++ contents s ++ items (producers s));
  iv_nonzero : ∀ x, x ∈ owned s ++ items (producers s) → x ≠ 0;
  iv_linked : ∀ t item old, producers s !! t = Some (PLinked item old) → nx (links s) item = old;
  iv_cons : match cons s with
    | CIdle => True
    | CLoaded old => old ∈ contents s
    | CRead old next => old ∈ contents s ∧ nx (links s) old = next
    end;
}.

Lemma items_insert_new ps t p : ps !! t = None → items (<[t := p]> ps) ≡ₚ item_of p :: items ps.
Proof. intros Ht. unfold items. by rewrite map_to_list_insert. Qed.

Lemma items_delete ps t p : ps !! t = Some p → items ps ≡ₚ item_of p :: items (delete t ps).
Proof. intros Ht. unfold items. by rewrite <- (map_to_list_delete ps t p Ht). Qed.

Lemma items_insert ps t p q :
  ps !! t = Some p → item_of q = item_of p → items (<[t := q]> ps) ≡ₚ items ps.
Proof.
  intros Ht Hq. rewrite <- insert_delete_eq, items_insert_new by apply lookup_delete_eq.
  rewrite Hq. symmetry. by apply items_delete.
Qed.

Lemma items_elem ps t p : ps !! t = Some p → item_of p ∈ items ps.
Proof. intros Ht. rewrite (items_delete ps t p Ht). elem. Qed.

(** An item of a producer is neither in the container nor outside. *)
Lemma inv_private s t p :
  inv s → producers s !! t = Some p → item_of p ∉ contents s ∧ item_of p ∉ owned s.
Proof.
  intros Hi Ht%items_elem. pose proof (iv_nodup _ Hi) as Hnd.
  apply NoDup_app in Hnd as (_ & H1 & (_ & H2 & _)%NoDup_app). split; intros Hin.
  - by apply (H2 _ Hin).
  - apply (H1 _ Hin). elem.
Qed.

(** Two producers have different items. *)
Lemma inv_distinct s t1 t2 p1 p2 :
  inv s → producers s !! t1 = Some p1 → producers s !! t2 = Some p2 → t1 ≠ t2 →
  item_of p1 ≠ item_of p2.
Proof.
  intros Hi H1 H2 Hne E. pose proof (iv_nodup _ Hi) as Hnd.
  apply NoDup_app in Hnd as (_ & _ & (_ & _ & Hnd)%NoDup_app).
  rewrite (items_delete _ _ _ H1) in Hnd. apply NoDup_cons in Hnd as [Hnin _]. apply Hnin.
  rewrite E. apply (items_elem _ t2). by rewrite lookup_delete_ne.
Qed.

(** Writing the link of an item outside the container and not yet linked. *)
Lemma inv_write s x v :
  inv s → x ∉ contents s → (∀ t item old, producers s !! t = Some (PLinked item old) → item ≠ x) →
  inv (mk (<[x := v]> (links s)) (head s) (producers s) (cons s) (owned s) (contents s)).
Proof.
  intros [H1 H2 H3 H4 H5] Hx Hl. split; cbn; try done.
  - by apply chain_insert.
  - intros t item old Ht. rewrite nx_insert_ne; [by eapply H4|]. intros <-. by eapply Hl.
  - destruct (cons s); try done. destruct H5 as [H5 H6]. split; [done|].
    rewrite nx_insert_ne; [done|]. by intros ->.
Qed.

Lemma step_inv s s' : step s s' → inv s → inv s'.
Proof.
  intros Hs Hi. pose proof Hi as [H1 H2 H3 H4 H5]. destruct Hs; cbn in *.
  - (* push_load *)
    pose proof (erase_perm item own ltac:(done)) as Hp. revert Hp.
    generalize (erase item own). intros own' Hp.
    assert (own' ++ l ++ items (<[t:=PLoaded item h]> ps) ≡ₚ own ++ l ++ items ps) as Hq.
    { rewrite items_insert_new by done. rewrite Hp. simpl. solve_Permutation. }
    split; cbn; try done.
    + by rewrite Hq.
    + intros x Hx. apply H3. rewrite items_insert_new in Hx by done. rewrite Hp.
      rewrite !elem_of_app, !elem_of_cons in *. simpl in Hx. tauto.
    + intros t' it old [[_ [=]]|[_ Ht']]%lookup_insert_Some. by eapply H4.
  - (* push_link *)
    destruct (inv_private _ t _ Hi ltac:(done)) as [Hc Ho]. cbn in Hc, Ho.
    assert (items (<[t:=PLinked item old]> ps) ≡ₚ items ps) as Hq by (by eapply items_insert).
    split; cbn.
    + by apply chain_insert.
    + by rewrite Hq.
    + intros x. rewrite Hq. apply H3.
    + intros t' it o [[<- [= -> ->]]|[Hne Ht']]%lookup_insert_Some; [by rewrite nx_insert_eq|].
      rewrite nx_insert_ne; [by eapply H4|].
      apply (inv_distinct _ t t' _ _ Hi ltac:(done) Ht' Hne).
    + destruct c; try done. destruct H5 as [H5 H6]. split; [done|].
      rewrite nx_insert_ne; [done|]. by intros ->.
  - (* push_cas *)
    pose proof (items_delete _ _ _ H) as Hq. cbn in Hq.
    destruct (inv_private _ t _ Hi ltac:(done)) as [Hc Ho]. cbn in Hc, Ho.
    split; cbn.
    + split_and!; [done| |].
      * apply H3. rewrite Hq. elem.
      * by rewrite (H4 _ _ _ H).
    + eapply NoDup_perm; [|exact H2]. rewrite Hq. simpl. solve_Permutation.
    + intros x Hx. apply H3. rewrite Hq. rewrite !elem_of_app, !elem_of_cons in *. tauto.
    + intros t' it o [_ Ht']%lookup_delete_Some. by eapply H4.
    + destruct c; try done; [elem|]. destruct H5. split; [elem|done].
  - (* push_retry *)
    assert (items (<[t:=PLoaded item h]> ps) ≡ₚ items ps) as Hq by (by eapply items_insert).
    split; cbn; try done.
    + by rewrite Hq.
    + intros x. rewrite Hq. apply H3.
    + intros t' it o [[_ [=]]|[_ Ht']]%lookup_insert_Some. by eapply H4.
  - (* pop_all *)
    split; cbn; try done.
    + eapply NoDup_perm; [|exact H2]. solve_Permutation.
    + intros x. rewrite !elem_of_app. intros [[Hx|Hx]|Hx].
      * by eapply seg_nonzero.
      * apply H3. elem.
      * apply H3. elem.
  - (* pop_load *)
    destruct (chain_cons_inv _ _ _ H1 H) as (l' & -> & _). split; cbn; try done. elem.
  - by split.
  - (* pop_cas *)
    destruct H5 as [Hin <-].
    assert (h ≠ 0) as Hh by (by eapply seg_nonzero).
    destruct (chain_cons_inv _ _ _ H1 Hh) as (l' & -> & Hl'). cbn [tail].
    pose proof (chain_nodup _ _ _ H1) as [Hn _]%NoDup_cons.
    split; cbn; try done.
    + by apply chain_insert.
    + eapply NoDup_perm; [|exact H2]. simpl. solve_Permutation.
    + intros x. rewrite elem_of_cons, elem_of_app. intros [->|[Hx|Hx]]; [done|apply H3; elem..].
    + intros t it o Ht. rewrite nx_insert_ne; [by eapply H4|]. intros ->.
      destruct (inv_private _ _ _ Hi Ht) as [Hc _]. apply Hc. cbn. elem.
  - (* pop_retry *)
    split; cbn; try done. destruct (Z.eqb_spec h 0) as [|Hh]; [done|].
    destruct (chain_cons_inv _ _ _ H1 Hh) as (l' & -> & _). elem.
  - (* write *)
    apply (inv_write _ x v Hi); cbn.
    + intros Hin. apply NoDup_app in H2 as (_ & H2 & _). apply (H2 x H). elem.
    + intros t it o Ht ->. by destruct (inv_private _ _ _ Hi Ht) as [_ Ho].
Qed.

(** An empty container, with items that no thread uses yet. *)
Definition start (own : list Z) : st := mk ∅ 0 ∅ CIdle own [].

Lemma start_inv own : NoDup own → 0 ∉ own → inv (start own).
Proof.
  intros Hnd H0. split; cbn; try done.
  - by rewrite app_nil_r.
  - intros x. unfold items. rewrite map_to_list_empty, app_nil_r. by intros Hx ->.
Qed.

(** No item is lost or duplicated. *)
Definition everything (s : st) : list Z := owned s ++ contents s ++ items (producers s).

Lemma step_everything s s' : step s s' → inv s → everything s' ≡ₚ everything s.
Proof.
  intros Hs Hi. destruct Hs; unfold everything; cbn; try done.
  - pose proof (erase_perm item own ltac:(done)) as Hp. revert Hp.
    generalize (erase item own). intros own' Hp.
    rewrite items_insert_new by done. rewrite Hp. simpl. solve_Permutation.
  - by rewrite (items_insert ps t (PLoaded item old) (PLinked item old)).
  - rewrite (items_delete ps t _ ltac:(done)). simpl. solve_Permutation.
  - by rewrite (items_insert ps t (PLinked item old) (PLoaded item h)).
  - solve_Permutation.
  - pose proof (iv_cons _ Hi) as [Hin _]. pose proof (iv_chain _ Hi) as Hc. cbn in Hin, Hc.
    assert (h ≠ 0) as Hh by (by eapply seg_nonzero).
    destruct (chain_cons_inv _ _ _ Hc Hh) as (l' & -> & _). simpl. solve_Permutation.
Qed.

End Lockfree.
Import Lockfree.

(** ** Properties *)

(** C28: whatever the interleaving of any number of producers with the consumer,
    and however stale the pointers they compare, the container is a
    null-terminated chain of exactly the items pushed and not removed, latest
    first, so that taking the whole list or the first item takes what was
    pushed; every item is in exactly one place, and none is lost. *)
Theorem lockfree_reachable own s :
  NoDup own → 0 ∉ own → rtc step (start own) s →
  chain (links s) (head s) (contents s) ∧ NoDup (everything s) ∧ everything s ≡ₚ own.
Proof.
  intros Hnd H0 Hr.
  assert (inv s ∧ everything s ≡ₚ own) as [Hi He].
  { refine (rtc_invariant step (λ s, inv s ∧ everything s ≡ₚ own) _ _ _ Hr _).
    - intros x y Hs [Hx1 Hx2]. split; [by eapply step_inv|]. by rewrite (step_everything x y).
    - split; [by apply start_inv|]. unfold everything, items. simpl.
      by rewrite map_to_list_empty, app_nil_r. }
  split_and!; [apply Hi| |done]. by rewrite He.
Qed.

Lemma lockfree_reachable_witness :
  chain (<[8 := 0]> ∅) 8 [8].
Proof.
  pose proof (lockfree_reachable [8] (mk (<[8 := 0]> ∅) 8 (delete 1%nat (<[1%nat := PLinked 8 0]> (<[1%nat := PLoaded 8 0]> ∅))) CIdle [] [8])) as H.
  apply H.
  - repeat constructor. apply not_elem_of_nil.
  - by intros Hin%list_elem_of_singleton.
  - eapply rtc_l; [apply (push_load ∅ 0 ∅ CIdle [8] [] 1 8); [done|by apply list_elem_of_singleton]|].
    eapply rtc_l; [by apply (push_link _ _ _ _ _ _ 1 8 0)|].
    apply rtc_once. change (erase 8 [8]) with (@nil Z).
    by apply (push_cas _ _ _ _ _ _ 1 8).
Defined.
