(* ===== verification/MemArea.v ===== *)
(** * Memory areas of the linear map

    [include/osv/mmu-defs.hh]: the page sizes, the four areas of the linear map
    and the translation of an address from one area to another. *)
From S2P Require Import Prelude Bits.

Definition page_size : Z := 4096.
Definition page_size_shift : Z := 12.
Definition pte_per_page : Z := 512.
Definition pte_per_page_shift : Z := 9.
Definition huge_page_size : Z := page_size * pte_per_page.

Inductive mem_area := main | page | mempool | debug.

#[export] Instance mem_area_eq_dec : EqDecision mem_area.
Proof. solve_decision. Defined.

(** The value of the enumerator. *)
Definition mem_area_num (a : mem_area) : Z :=
  match a with main => 0 | page => 1 | mempool => 2 | debug => 3 end.

Definition mem_area_size : Z := Z.shiftl 1 44.

Definition get_mem_area_base (a : mem_area) : Z :=
  Z.lor 0x400000000000 (Z.shiftl (mem_area_num a) 44).

(** [mem_area(addr >> 44 & 3)] *)
Definition get_mem_area (addr : Z) : mem_area :=
  let n := Z.land (Z.shiftr addr 44) 3 in
  if n =? 0 then main else if n =? 1 then page else if n =? 2 then mempool else debug.

Definition translate_mem_area (from to : mem_area) (addr : Z) : Z :=
  wrap64 (addr - get_mem_area_base from + get_mem_area_base to).

(** [phys_mem], the base of the main area. *)
Definition phys_mem : Z := get_mem_area_base main.
Definition debug_base : Z := get_mem_area_base debug.

Definition page_size_level (level : Z) : Z :=
  Z.shiftl 1 (page_size_shift + pte_per_page_shift * level).

(** [addr] lies in the area [a]. *)
Definition in_area (a : mem_area) (addr : Z) : Prop :=
  get_mem_area_base a ≤ addr < get_mem_area_base a + mem_area_size.

Lemma get_mem_area_base_eq a : get_mem_area_base a = (4 + mem_area_num a) * 2 ^ 44.
Proof. by destruct a. Qed.

Lemma mem_area_size_eq : mem_area_size = 2 ^ 44.
Proof. done. Qed.

Lemma mem_area_num_range a : 0 ≤ mem_area_num a < 4.
Proof. by destruct a. Qed.

Ltac area_lia :=
  unfold in_area, translate_mem_area in *;
  rewrite ?get_mem_area_base_eq, ?mem_area_size_eq in *;
  repeat match goal with a : mem_area |- _ =>
    let n := fresh "n" in
    pose proof (mem_area_num_range a); set (n := mem_area_num a) in *; clearbody n; clear a end.

Lemma get_mem_area_in_area a addr : in_area a addr → get_mem_area addr = a.
Proof.
  unfold get_mem_area. intros H.
  assert (addr / 2 ^ 44 = 4 + mem_area_num a) as Hd.
  { symmetry. apply Z.div_unique_pos with (addr - get_mem_area_base a); area_lia; lia. }
  rewrite Z.shiftr_div_pow2, Hd by lia. by destruct a.
Qed.

Lemma translate_mem_area_eq a b addr :
  in_area a addr →
  translate_mem_area a b addr = addr - get_mem_area_base a + get_mem_area_base b.
Proof. intros H. area_lia. rewrite wrap64_small; unfold u64; lia. Qed.

Lemma translate_mem_area_in a b addr :
  in_area a addr → in_area b (translate_mem_area a b addr).
Proof. intros H. rewrite translate_mem_area_eq by done. area_lia. lia. Qed.

Lemma translate_mem_area_back a b addr :
  in_area a addr → translate_mem_area b a (translate_mem_area a b addr) = addr.
Proof.
  intros H. rewrite (translate_mem_area_eq b a) by by apply translate_mem_area_in.
  rewrite translate_mem_area_eq by done. lia.
Qed.
