(* ===== verification/PageRange.v ===== *)
(** * The page range allocator

    [page_range_allocator] of [core/mempool.cc]: the free physical memory is a
    set of page ranges.  A range of less than [2^16] pages sits in the list of
    its order, a bigger one in a multiset ordered by size.  The first word of a
    free range is its header, the last one points back to the header, and a
    bitmap marks the first and the last page of each free range, so that a range
    that is freed finds its neighbours. *)
From S2P Require Import Prelude Bits MemArea.

Definition max_order : Z := 16.

Module PageRanges.

(** The allocator, with the part of the memory it owns: [hdr] is the [size]
    field of the [page_range] at an address, [tail] the [page_range*] stored at
    an address.  Intrusive containers are the lists of the addresses they link;
    [not_empty] is the value [to_ulong] gives. *)
Record t := mk {
  hdr : gmap Z Z;
  tail : gmap Z Z;
  free_huge : list Z;
  free_lists : list (list Z);
  not_empty : Z;
  bitmap : list bool;
}.

Definition empty : t :=
  mk ∅ ∅ [] (replicate 16 []) 0 [].

(** ** Fields *)

Definition pr_size (s : t) (pr : Z) : Z := default 0 (hdr s !! pr).

Definition set_hdr (s : t) (pr size : Z) : t :=
  mk (<[pr := size]> (hdr s)) (tail s) (free_huge s) (free_lists s) (not_empty s) (bitmap s).

Definition set_tail (s : t) (addr pr : Z) : t :=
  mk (hdr s) (<[addr := pr]> (tail s)) (free_huge s) (free_lists s) (not_empty s) (bitmap s).

Definition set_bitmap (s : t) (bm : list bool) : t :=
  mk (hdr s) (tail s) (free_huge s) (free_lists s) (not_empty s) bm.

Definition free_list (s : t) (order : Z) : list Z :=
  default [] (free_lists s !! Z.to_nat order).

Definition set_free_list (s : t) (order : Z) (l : list Z) (ne : Z) : t :=
  mk (hdr s) (tail s) (free_huge s) (<[Z.to_nat order := l]> (free_lists s)) ne (bitmap s).

Definition set_free_huge (s : t) (l : list Z) (ne : Z) : t :=
  mk (hdr s) (tail s) l (free_lists s) ne (bitmap s).

Definition pr_order (s : t) (pr : Z) : Z := ilog2 (pr_size s pr / page_size).

(** ** Bitmap *)

(** The index has type [unsigned]. *)
Definition get_bitmap_idx (pr : Z) : Z := wrap32 ((pr - phys_mem) / page_size).

Definition get_bit (s : t) (idx : Z) : bool :=
  default false (bitmap s !! Z.to_nat idx).

Definition set_bit (s : t) (idx : Z) (v : bool) : t :=
  set_bitmap s (<[Z.to_nat idx := v]> (bitmap s)).

Definition set_bits (s : t) (pr : Z) (value fill : bool) : t :=
  let last := pr_size s pr / page_size - 1 in
  if fill then
    fold_left (λ s idx, set_bit s (get_bitmap_idx pr + idx) value)
      (seqZ 0 (last + 1)) s
  else
    let s := set_bit s (get_bitmap_idx pr) value in
    set_bit s (get_bitmap_idx pr + last) value.

(** ** Insertion and removal *)

Definition insert (use_bitmap : bool) (s : t) (pr : Z) : t :=
  let s := set_tail s (pr + pr_size s pr - 8) pr in
  let order := pr_order s pr in
  let s :=
    if max_order <=? order then
      set_free_huge s (insert_upper (pr_size s) pr (free_huge s))
        (Z.setbit (not_empty s) max_order)
    else
      set_free_list s order (pr :: free_list s order) (Z.setbit (not_empty s) order) in
  if use_bitmap then set_bits s pr true false else s.

Definition remove_huge (s : t) (pr : Z) : t :=
  let l := erase pr (free_huge s) in
  set_free_huge s l
    (if decide (l = []) then Z.clearbit (not_empty s) max_order else not_empty s).

Definition remove_list (s : t) (order pr : Z) : t :=
  let l := erase pr (free_list s order) in
  set_free_list s order l
    (if decide (l = []) then Z.clearbit (not_empty s) order else not_empty s).

Definition remove (s : t) (pr : Z) : t :=
  let order := pr_order s pr in
  if max_order <=? order then remove_huge s pr else remove_list s order pr.

(** ** Allocation *)

(** The order whose ranges all hold [size] bytes, cut to [max_order]. *)
Definition exact_order_of (size : Z) : Z :=
  let exact_order := ilog2_roundup (size / page_size) in
  if max_order <? exact_order then max_order else exact_order.

(** The non-empty orders from [exact_order] on, as a bit set. *)
Definition alloc_bitset (s : t) (exact_order : Z) : Z :=
  if exact_order =? 0 then not_empty s
  else Z.land (not_empty s) (not64 (Z.shiftl 1 exact_order - 1)).

(** The choice of a range by [alloc]: the range and the state without it. *)
Definition alloc_pick (s : t) (size : Z) (contiguous : bool) : option (Z * t) :=
  let exact_order := exact_order_of size in
  let bitset := alloc_bitset s exact_order in
  let order := count_trailing_zeros bitset in
  if bitset =? 0 then
    if negb contiguous || (exact_order =? 0)
       || bool_decide (free_list s (exact_order - 1) = []) then None
    else
      match list_find (λ pr, size ≤ pr_size s pr) (free_list s (exact_order - 1)) with
      | Some (_, pr) => Some (pr, remove_list s (exact_order - 1) pr)
      | None => None
      end
  else if order =? max_order then
    match last (free_huge s) with
    | Some pr => if pr_size s pr <? size then None else Some (pr, remove_huge s pr)
    | None => None
    end
  else
    match head (free_list s order) with
    | Some pr => Some (pr, remove_list s order pr)
    | None => None
    end.

Definition alloc (use_bitmap : bool) (s : t) (size : Z) (contiguous : bool) : option Z * t :=
  match alloc_pick s size contiguous with
  | None => (None, s)
  | Some (pr, s) =>
      let s :=
        if size <? pr_size s pr then
          let np := pr + size in
          let s := set_hdr s np (pr_size s pr - size) in
          set_hdr (insert use_bitmap s np) pr size
        else s in
      (Some pr, if use_bitmap then set_bits s pr false false else s)
  end.

(** The order of [for_each]: the huge ranges, then the lists from the highest
    order down to [min_order]. *)
Definition for_each_list (s : t) (min_order : Z) : list Z :=
  free_huge s ++ concat (free_list s <$> reverse (seqZ min_order (max_order - min_order))).

(** [expected_ret - align_down(expected_ret, alignment)] of a candidate. *)
Definition alignment_shift (s : t) (size offset alignment header : Z) : Z :=
  let expected_ret := wrap64 (header + pr_size s header - size + offset) in
  expected_ret - align_down expected_ret alignment.

Definition alloc_aligned (s : t) (size offset alignment : Z) (fill : bool) : option Z * t :=
  let min_order := Z.max (ilog2 (size / page_size)) 1 - 1 in
  match list_find (λ h, size + alignment_shift s size offset alignment h ≤ pr_size s h)
          (for_each_list s min_order) with
  | None => (None, s)
  | Some (_, header) =>
      let shift := alignment_shift s size offset alignment header in
      let s := remove s header in
      let s :=
        if shift =? 0 then s
        else
          let np := header + pr_size s header - shift in
          let s := insert true (set_hdr s np shift) np in
          set_hdr s header (pr_size s header - shift) in
      let '(ret_header, s) :=
        if pr_size s header =? size then (header, s)
        else
          let s := set_hdr s header (pr_size s header - size) in
          let s := insert true s header in
          let ret_header := header + pr_size s header in
          (ret_header, set_hdr s ret_header size) in
      (Some ret_header, set_bits s ret_header false fill)
  end.

(** ** Freeing, with coalescing *)

Definition free_merge_prev (s : t) (pr : Z) : Z * t :=
  let idx := get_bitmap_idx pr in
  if negb (idx =? 0) && get_bit s (idx - 1) then
    let pr2 := default 0 (tail s !! (pr - 8)) in
    let s := remove s pr2 in
    (pr2, set_hdr s pr2 (pr_size s pr2 + pr_size s pr))
  else (pr, s).

Definition free_merge_next (s : t) (pr : Z) : t :=
  let next_idx := get_bitmap_idx pr + pr_size s pr / page_size in
  if (next_idx <? Z.of_nat (length (bitmap s))) && get_bit s next_idx then
    let pr2 := pr + pr_size s pr in
    let s := remove s pr2 in
    set_hdr s pr (pr_size s pr + pr_size s pr2)
  else s.

Definition free (s : t) (pr : Z) : t :=
  let '(pr, s) := free_merge_prev s pr in
  let s := free_merge_next s pr in
  insert true s pr.

(** ** Observers *)

Definition is_empty (s : t) : bool := not_empty s =? 0.

(** [size()] of the class: the number of ranges. *)
Definition count (s : t) : Z :=
  Z.of_nat (length (free_huge s))
  + foldr Z.add 0 (Z.of_nat ∘ length <$> (free_list s <$> seqZ 0 max_order)).

(** [ranges_num] and [bytes] of an order in [page_ranges_stats]. *)
Definition stats_order (s : t) (order : Z) : Z * Z :=
  let l := if order =? max_order then free_huge s else free_list s order in
  (Z.of_nat (length l), wrap64 (foldr Z.add 0 (pr_size s <$> l))).

Definition stats (s : t) : list (Z * Z) := stats_order s <$> seqZ 0 (max_order + 1).

(** ** The structure of the containers

    [all_free] is the set of free ranges; [placed] says that each of them is in
    the container of its order, that the multiset is ordered and that the
    summary [not_empty] is exact. *)

Definition all_free (s : t) : list Z := free_huge s ++ concat (free_lists s).

Record placed (s : t) : Prop := {
  pl_len : length (free_lists s) = 16%nat;
  pl_list : ∀ o a, 0 ≤ o < max_order → a ∈ free_list s o → pr_order s a = o;
  pl_huge : ∀ a, a ∈ free_huge s → max_order ≤ pr_order s a;
  pl_sorted : StronglySorted (λ a b, pr_size s a ≤ pr_size s b) (free_huge s);
  pl_ne : ∀ o, 0 ≤ o < max_order →
    Z.testbit (not_empty s) o = negb (bool_decide (free_list s o = []));
  pl_ne_huge : Z.testbit (not_empty s) max_order = negb (bool_decide (free_huge s = []));
  pl_ne_range : ∀ o, max_order < o → Z.testbit (not_empty s) o = false;
}.

Lemma free_list_empty o : free_list empty o = [].
Proof.
  unfold free_list. destruct (free_lists empty !! Z.to_nat o) eqn:E; [|done].
  by apply lookup_replicate in E as [-> _].
Qed.

Lemma placed_empty : placed empty.
Proof.
  split; try done; intros; rewrite ?free_list_empty in *; rewrite ?Z.bits_0; try set_solver.
  constructor.
Qed.

Lemma ilog2_nonneg n : 0 ≤ ilog2 n.
Proof.
  unfold ilog2, count_leading_zeros. case_if E; breflect; [done|].
  rewrite (proj2 (Z.eqb_neq n 0)) by lia. pose proof (Z.log2_nonneg n). lia.
Qed.

Lemma pr_order_nonneg s a : 0 ≤ pr_order s a.
Proof. apply ilog2_nonneg. Qed.

Section Structure.
Context (s : t) (Hs : placed s).

Lemma free_list_lookup o :
  0 ≤ o < max_order → free_lists s !! Z.to_nat o = Some (free_list s o).
Proof.
  intros Ho. unfold free_list. pose proof (pl_len s Hs). unfold max_order in Ho.
  destruct (lookup_lt_is_Some_2 (free_lists s) (Z.to_nat o)) as [l Hl]; [lia|].
  by rewrite Hl.
Qed.

Lemma elem_of_all_free a :
  a ∈ all_free s ↔
  a ∈ free_huge s ∨ ∃ o, 0 ≤ o < max_order ∧ a ∈ free_list s o.
Proof.
  unfold all_free. rewrite elem_of_app, (list_elem_of_In (concat _)), in_concat.
  pose proof (pl_len s Hs). split; (intros [?|H']; [by left|right]).
  - destruct H' as (l & Hl%list_elem_of_In & Ha%list_elem_of_In).
    apply list_elem_of_lookup in Hl as [i Hi].
    pose proof (lookup_lt_Some _ _ _ Hi). exists (Z.of_nat i).
    unfold free_list, max_order. rewrite Nat2Z.id, Hi. split; [lia|done].
  - destruct H' as (o & Ho & Ha). exists (free_list s o).
    rewrite <- !list_elem_of_In. split; [|done].
    eapply list_elem_of_lookup_2, free_list_lookup, Ho.
Qed.

(** The container of a free range is the one of its order. *)
Lemma all_free_huge a : a ∈ all_free s → max_order ≤ pr_order s a → a ∈ free_huge s.
Proof.
  intros [?|(o & Ho & Ha)]%elem_of_all_free Hord; [done|].
  rewrite (pl_list s Hs o a) in Hord by done. lia.
Qed.

Lemma all_free_list a :
  a ∈ all_free s → pr_order s a < max_order → a ∈ free_list s (pr_order s a).
Proof.
  intros [Ha|(o & Ho & Ha)]%elem_of_all_free Hord.
  - apply (pl_huge s Hs) in Ha. lia.
  - by rewrite (pl_list s Hs o a).
Qed.

Lemma all_free_set_list o l ne :
  0 ≤ o < max_order →
  ∃ rest, all_free s ≡ₚ free_list s o ++ rest ∧
          all_free (set_free_list s o l ne) ≡ₚ l ++ rest.
Proof.
  intros Ho. exists (free_huge s ++ concat (delete (Z.to_nat o) (free_lists s))).
  destruct (concat_insert_perm _ _ _ l (free_list_lookup o Ho)) as [H1 H2].
  unfold all_free. simpl. rewrite H1, H2.
  split; rewrite !(assoc_L (++)); by rewrite (comm (++) (free_huge s)).
Qed.
End Structure.

(** Only the header map and the containers matter for [placed]. *)
Lemma placed_ext s s' :
  hdr s' = hdr s → free_huge s' = free_huge s → free_lists s' = free_lists s →
  not_empty s' = not_empty s → placed s → placed s'.
Proof.
  intros H1 H2 H3 H4 []. split; unfold pr_order, pr_size, free_list in *;
    rewrite ?H1, ?H2, ?H3, ?H4; done.
Qed.

Lemma free_list_set_list s o o' l ne :
  length (free_lists s) = 16%nat → 0 ≤ o < max_order → 0 ≤ o' →
  free_list (set_free_list s o l ne) o' = if decide (o' = o) then l else free_list s o'.
Proof.
  intros Hlen Ho Ho'. unfold free_list. simpl. unfold max_order in *. case_decide.
  - subst. rewrite list_lookup_insert_eq by lia. done.
  - rewrite list_lookup_insert_ne by lia. done.
Qed.

(** [set_bits] writes the bitmap only. *)
Lemma set_bits_fields s pr v fill :
  hdr (set_bits s pr v fill) = hdr s ∧ tail (set_bits s pr v fill) = tail s ∧
  free_huge (set_bits s pr v fill) = free_huge s ∧
  free_lists (set_bits s pr v fill) = free_lists s ∧
  not_empty (set_bits s pr v fill) = not_empty s.
Proof.
  unfold set_bits. destruct fill; [|done].
  generalize (seqZ 0 (pr_size s pr / page_size - 1 + 1)). intros l. revert s.
  induction l as [|i l IH]; intros s; simpl; [done|].
  by destruct (IH (set_bit s (get_bitmap_idx pr + i) v)) as (-> & -> & -> & -> & ->).
Qed.

Lemma pr_size_set_hdr s a n b :
  pr_size (set_hdr s a n) b = if decide (a = b) then n else pr_size s b.
Proof. unfold pr_size. simpl. rewrite lookup_insert. by case_decide. Qed.

Lemma placed_set_hdr s a n : placed s → a ∉ all_free s → placed (set_hdr s a n).
Proof.
  intros Hs Ha. pose proof (elem_of_all_free s Hs) as Hin.
  assert (∀ b, b ∈ all_free s → pr_size (set_hdr s a n) b = pr_size s b) as Heq.
  { intros b Hb. rewrite pr_size_set_hdr, decide_False; [done|]. by intros ->. }
  assert (∀ b, b ∈ free_huge s → pr_size (set_hdr s a n) b = pr_size s b) as Heqh.
  { intros b Hb. apply Heq, Hin. by left. }
  assert (∀ b o, 0 ≤ o < max_order → b ∈ free_list s o →
    pr_size (set_hdr s a n) b = pr_size s b) as Heql.
  { intros b o Ho Hb. apply Heq, Hin. right. eauto. }
  destruct Hs. split; try done; unfold pr_order in *.
  - intros o b Ho Hb. rewrite (Heql b o) by done. by apply pl_list0.
  - intros b Hb. rewrite (Heqh b) by done. by apply pl_huge0.
  - eapply StronglySorted_Forall_ext, pl_sorted0. simpl. intros x y Hx Hy.
    by rewrite (Heqh x), (Heqh y).
Qed.

Lemma setbit_testbit n i j : 0 ≤ i → 0 ≤ j →
  Z.testbit (Z.setbit n i) j = if decide (j = i) then true else Z.testbit n j.
Proof.
  intros. rewrite Z.setbit_eqb by done. case_decide.
  - subst. by rewrite Z.eqb_refl.
  - by rewrite (proj2 (Z.eqb_neq i j)) by lia.
Qed.

Lemma clearbit_testbit n i j : 0 ≤ i → 0 ≤ j →
  Z.testbit (Z.clearbit n i) j = if decide (j = i) then false else Z.testbit n j.
Proof.
  intros. rewrite Z.clearbit_eqb. case_decide.
  - subst. rewrite Z.eqb_refl. by destruct (Z.testbit n i).
  - rewrite (proj2 (Z.eqb_neq i j)) by lia. by destruct (Z.testbit n j).
Qed.

Ltac pr_simpl :=
  cbn [hdr tail free_huge free_lists not_empty bitmap set_hdr set_tail set_bitmap
       set_free_huge set_free_list]; unfold max_order in *.

Lemma placed_insert_huge s a :
  placed s → max_order ≤ pr_order s a →
  placed (set_free_huge s (insert_upper (pr_size s) a (free_huge s))
            (Z.setbit (not_empty s) max_order)).
Proof.
  intros [] Ho. unfold max_order in *. split; pr_simpl; try done.
  - intros b. change (pr_order (set_free_huge _ _ _) b) with (pr_order s b).
    rewrite insert_upper_perm. intros [->|Hb]%elem_of_cons; auto.
  - by apply insert_upper_sorted.
  - intros o Hlt. rewrite setbit_testbit, decide_False by lia. by apply pl_ne0.
  - rewrite setbit_testbit, decide_True by lia. symmetry. apply negb_true_iff, bool_decide_eq_false.
    intros E. pose proof (insert_upper_perm (pr_size s) a (free_huge s)) as Hp.
    rewrite E in Hp. by apply Permutation_nil_cons in Hp.
  - intros o Hlt. rewrite setbit_testbit, decide_False by lia. by apply pl_ne_range0.
Qed.

Lemma placed_insert_list s a o :
  placed s → pr_order s a = o → 0 ≤ o < max_order →
  placed (set_free_list s o (a :: free_list s o) (Z.setbit (not_empty s) o)).
Proof.
  intros [] Ha Ho. split; pr_simpl; try done.
  - by rewrite length_insert.
  - intros o' b Ho'. rewrite free_list_set_list by (done || lia).
    change (pr_order (set_free_list _ _ _ _) b) with (pr_order s b).
    case_decide; [subst o'; intros [->|Hb]%elem_of_cons|]; auto.
  - intros o' Hlt. rewrite free_list_set_list by (done || lia).
    rewrite setbit_testbit by lia. case_decide; [done|]. by apply pl_ne0.
  - unfold max_order in *. rewrite setbit_testbit, decide_False by lia. by apply pl_ne_huge0.
  - intros o' Hlt. unfold max_order in *. rewrite setbit_testbit, decide_False by lia.
    by apply pl_ne_range0.
Qed.

Lemma placed_insert b s a :
  placed s → placed (insert b s a) ∧ all_free (insert b s a) ≡ₚ a :: all_free s.
Proof.
  intros Hs. unfold insert.
  set (s1 := set_tail s _ a). assert (placed s1) as Hs1 by by apply (placed_ext s).
  change (pr_order s1 a) with (pr_order s a).
  set (s2 := if max_order <=? pr_order s a then _ else _).
  assert (placed s2 ∧ all_free s2 ≡ₚ a :: all_free s) as [Hs2 Hp].
  { unfold s2. pose proof (pr_order_nonneg s a).
    destruct (max_order <=? pr_order s a) eqn:E; breflect.
    - split; [by apply placed_insert_huge|].
      unfold all_free. simpl. by rewrite insert_upper_perm.
    - split; [by apply placed_insert_list|].
      destruct (all_free_set_list s1 Hs1 (pr_order s a) (a :: free_list s1 (pr_order s a))
        (Z.setbit (not_empty s1) (pr_order s a))) as (rest & H1 & H2); [lia|].
      rewrite H2. change (all_free s) with (all_free s1). by rewrite H1. }
  destruct b; [|done].
  destruct (set_bits_fields s2 a true false) as (E1 & E2 & E3 & E4 & E5).
  split; [by apply (placed_ext s2)|]. unfold all_free. by rewrite E3, E4.
Qed.

Lemma placed_remove s a :
  placed s → a ∈ all_free s → placed (remove s a) ∧ all_free s ≡ₚ a :: all_free (remove s a).
Proof.
  intros Hs Ha. unfold remove. pose proof (pr_order_nonneg s a).
  case_if E; breflect; unfold max_order in *.
  - pose proof (all_free_huge s Hs a Ha E) as Hh.
    unfold remove_huge. set (l := erase a (free_huge s)).
    split; [|unfold all_free; simpl; by rewrite (erase_perm a (free_huge s))].
    destruct Hs. unfold max_order in *. split; pr_simpl; try done.
    + intros b Hb. apply pl_huge0. by apply (erase_subseteq a).
    + eapply StronglySorted_sublist, pl_sorted0. apply erase_sublist.
    + intros o Ho. case_decide; rewrite ?clearbit_testbit, ?decide_False by lia; auto.
    + case_decide as Hl; [by rewrite clearbit_testbit, decide_True, bool_decide_true|].
      rewrite pl_ne_huge0, (bool_decide_false _ Hl), bool_decide_false; [done|].
      intros E2. unfold l in Hl. by rewrite E2 in Hl.
    + intros o Ho. case_decide; rewrite ?clearbit_testbit, ?decide_False by lia; auto.
  - pose proof (all_free_list s Hs a Ha E) as Hl. set (o := pr_order s a) in *.
    unfold remove_list. set (l := erase a (free_list s o)).
    split.
    2:{ destruct (all_free_set_list s Hs o l
          (if decide (l = []) then Z.clearbit (not_empty s) o else not_empty s))
          as (rest & H1 & H2); [done|].
        rewrite H1, H2, (erase_perm a (free_list s o)) by done. done. }
    destruct Hs. unfold max_order in *. split; pr_simpl; try done.
    + by rewrite length_insert.
    + intros o' b Ho'. rewrite free_list_set_list by (done || lia).
      case_decide; [subst o'; intros Hb; apply pl_list0; [done|by apply (erase_subseteq a)]|by apply pl_list0].
    + intros o' Ho'. rewrite free_list_set_list by (done || lia).
      case_decide as Hl0; case_decide as Heq; try subst o';
        rewrite ?clearbit_testbit, ?decide_True, ?decide_False, ?bool_decide_true by first [done|lia];
        auto.
      rewrite pl_ne0, (bool_decide_false _ Hl0), bool_decide_false; [done| |lia].
      intros E2. unfold l in Hl0. by rewrite E2 in Hl0.
    + case_decide; rewrite ?clearbit_testbit, ?decide_False by lia; auto.
    + intros o' Ho'. case_decide; rewrite ?clearbit_testbit, ?decide_False by lia; auto.
Qed.

End PageRanges.
