(* ===== verification/PageRangeSpec.v ===== *)
(** * The page range allocator: specification

    What [PageRange.v] promises: ranges and allocated blocks stay disjoint and
    page aligned, an allocation takes exactly the pages it returns, freeing gives
    them back and merges them with their free neighbours, and a contiguous
    allocation fails only when no free range is large enough. *)
From S2P Require Import Prelude Bits MemArea PageRange.
Import PageRanges.

(** ** Orders *)

Section Orders.
Context (s : t) (a : Z) (n : Z) (Hn : pr_size s a = n * page_size) (Hr : 0 < n < 2 ^ 64).

Lemma pr_order_log2 : pr_order s a = Z.log2 n.
Proof.
  unfold pr_order. rewrite Hn, Z.div_mul by done. apply ilog2_log2. unfold u64. lia.
Qed.

Lemma pr_order_bounds : 2 ^ pr_order s a ≤ n < 2 ^ (pr_order s a + 1).
Proof. rewrite pr_order_log2. pose proof (Z.log2_spec n). lia. Qed.
End Orders.

Lemma exact_order_of_spec m :
  0 < m < 2 ^ 64 → exact_order_of (m * page_size) = Z.min (Z.log2_up m) max_order.
Proof.
  intros Hm. unfold exact_order_of. rewrite Z.div_mul by done.
  rewrite ilog2_roundup_log2_up by (unfold u64; lia). case_if E; breflect; lia.
Qed.

(** Ranges of an order below [max_order] that is at least the exact order hold
    the request. *)
Lemma exact_order_fits m n o :
  0 < m → 0 < n → 0 ≤ o → Z.log2_up m ≤ o → 2 ^ o ≤ n → m ≤ n.
Proof.
  intros. pose proof (Z.log2_log2_up_spec m ltac:(lia)).
  pose proof (Z.pow_le_mono_r 2 (Z.log2_up m) o). lia.
Qed.

(** Ranges of an order two below the exact one never do. *)
Lemma exact_order_too_small m n o :
  0 < m → o + 1 < Z.log2_up m → 0 ≤ o → n < 2 ^ (o + 1) → n < m.
Proof.
  intros Hm Ho H0 Hn.
  assert (1 < m). { destruct (Z_lt_dec 1 m); [done|]. assert (m = 1) as -> by lia.
    rewrite Z.log2_up_1 in Ho. lia. }
  pose proof (Z.log2_up_spec m ltac:(lia)) as [Hl _].
  pose proof (Z.pow_le_mono_r 2 (o + 1) (Z.pred (Z.log2_up m))). lia.
Qed.

Section Bitset.
Context (s : t) (Hs : placed s).

Lemma alloc_bitset_testbit eo i :
  0 ≤ eo ≤ max_order → 0 ≤ i →
  Z.testbit (alloc_bitset s eo) i = Z.testbit (not_empty s) i && (eo <=? i).
Proof.
  intros Heo Hi. unfold alloc_bitset, max_order in *. case_if E; breflect.
  { subst. by rewrite (proj2 (Z.leb_le 0 i)), andb_true_r by lia. }
  rewrite Z.land_spec. destruct (Z_lt_dec i 64).
  - rewrite not64_spec by lia. f_equal.
    rewrite Z.shiftl_1_l. replace (2 ^ eo - 1) with (Z.ones eo) by (rewrite Z.ones_equiv; lia).
    destruct (Z_lt_dec i eo).
    + rewrite Z.ones_spec_low by lia. by rewrite (proj2 (Z.leb_gt eo i)) by lia.
    + rewrite Z.ones_spec_high by lia. by rewrite (proj2 (Z.leb_le eo i)) by lia.
  - rewrite (pl_ne_range s Hs i) by (unfold max_order; lia). done.
Qed.

Lemma not_empty_nonneg : 0 ≤ not_empty s.
Proof.
  apply Z.bits_iff_nonneg_ex. exists max_order. intros m Hm. by apply (pl_ne_range s Hs).
Qed.

Lemma alloc_bitset_nonneg eo : 0 ≤ alloc_bitset s eo.
Proof.
  unfold alloc_bitset. pose proof not_empty_nonneg. case_if E; [done|].
  apply Z.land_nonneg. by left.
Qed.

(** An empty set: no free range has an order from the exact one on. *)
Lemma alloc_bitset_zero eo a :
  0 ≤ eo ≤ max_order → alloc_bitset s eo = 0 → a ∈ all_free s → pr_order s a < eo.
Proof.
  intros Heo Hz Ha. destruct (Z_lt_dec (pr_order s a) eo) as [|Hge]; [done|]. exfalso.
  pose proof (pr_order_nonneg s a).
  assert (∀ i, eo ≤ i → 0 ≤ i → Z.testbit (not_empty s) i = false) as Hno.
  { intros i H1 H2. pose proof (alloc_bitset_testbit eo i Heo H2) as Hb.
    rewrite Hz, Z.bits_0, (proj2 (Z.leb_le eo i)), andb_true_r in Hb by done. done. }
  destruct (Z_lt_dec (pr_order s a) max_order) as [Hlt|Hge2].
  - pose proof (all_free_list s Hs a Ha Hlt) as Hin.
    pose proof (pl_ne s Hs (pr_order s a)) as Hne. rewrite Hno in Hne by lia.
    symmetry in Hne. apply negb_false_iff in Hne; [|done]. apply bool_decide_eq_true in Hne.
    rewrite Hne in Hin. by apply not_elem_of_nil in Hin.
  - pose proof (all_free_huge s Hs a Ha ltac:(lia)) as Hin.
    pose proof (pl_ne_huge s Hs) as Hne. rewrite Hno in Hne by (unfold max_order in *; lia).
    symmetry in Hne. apply negb_false_iff, bool_decide_eq_true in Hne.
    rewrite Hne in Hin. by apply not_elem_of_nil in Hin.
Qed.

(** A non-empty set: its lowest order has a free range. *)
Lemma alloc_bitset_pos eo :
  0 ≤ eo ≤ max_order → alloc_bitset s eo ≠ 0 →
  let o := count_trailing_zeros (alloc_bitset s eo) in
  eo ≤ o ≤ max_order ∧
  (o < max_order → ∃ a l, free_list s o = a :: l) ∧
  (o = max_order → ∃ a, last (free_huge s) = Some a).
Proof.
  intros Heo Hz o. pose proof (alloc_bitset_nonneg eo).
  destruct (count_trailing_zeros_spec (alloc_bitset s eo)) as (H1 & H2 & _); [lia|].
  fold o in H1, H2. rewrite alloc_bitset_testbit in H2 by done. breflect.
  destruct (Z_lt_dec max_order o) as [Hlt|?]; [by rewrite (pl_ne_range s Hs) in H0|].
  split_and!; [lia..| |].
  - intros Ho. rewrite (pl_ne s Hs) in H0 by lia. breflect.
    apply bool_decide_eq_false in H0. destruct (free_list s o); [done|]. eauto.
  - intros ->. rewrite (pl_ne_huge s Hs) in H0. breflect. apply bool_decide_eq_false in H0.
    destruct (free_huge s) as [|x l] using rev_ind; [done|]. exists x. by rewrite last_snoc.
Qed.
End Bitset.

(** ** The choice of a range *)

(** The free ranges hold a positive number of pages. *)
Definition sized (s : t) : Prop :=
  ∀ a, a ∈ all_free s → ∃ n, pr_size s a = n * page_size ∧ 0 < n < 2 ^ 52.

Lemma remove_is_list s a o :
  pr_order s a = o → o < max_order → remove_list s o a = remove s a.
Proof.
  intros <- Ho. unfold remove. case_if E; breflect; [lia|done].
Qed.

Lemma remove_is_huge s a : max_order ≤ pr_order s a → remove_huge s a = remove s a.
Proof. intros Ho. unfold remove. case_if E; breflect; [done|lia]. Qed.

Section Pick.
Context (s : t) (Hs : placed s) (Hsz : sized s) (m : Z) (Hm : 0 < m < 2 ^ 52).

Local Lemma exact_order_range : 0 ≤ exact_order_of (m * page_size) ≤ max_order.
Proof.
  rewrite exact_order_of_spec by lia. pose proof (Z.log2_up_nonneg m).
  unfold max_order. lia.
Qed.

Local Lemma free_list_all_free a o :
  0 ≤ o < max_order → a ∈ free_list s o → a ∈ all_free s ∧ pr_order s a = o.
Proof.
  intros Ho Ha. split; [|by apply (pl_list s Hs)]. apply elem_of_all_free; [done|]. eauto.
Qed.

Lemma alloc_pick_sound contiguous a s' :
  alloc_pick s (m * page_size) contiguous = Some (a, s') →
  a ∈ all_free s ∧ m * page_size ≤ pr_size s a ∧ s' = remove s a.
Proof.
  unfold alloc_pick. pose proof exact_order_range as Heo.
  set (eo := exact_order_of (m * page_size)) in *.
  destruct (alloc_bitset s eo =? 0) eqn:Ez; breflect.
  - destruct (negb contiguous || (eo =? 0) || bool_decide (free_list s (eo - 1) = [])) eqn:Eg;
      [done|]. breflect.
    destruct (list_find _ _) as [[i b]|] eqn:Ef; [|done]. intros [= <- <-].
    apply list_find_Some in Ef as (Hb & Hfit & _).
    apply list_elem_of_lookup_2, free_list_all_free in Hb as [Hb Ho]; [|lia].
    split_and!; [done..|]. apply remove_is_list; [done|lia].
  - destruct (alloc_bitset_pos s Hs eo Heo Ez) as (Ho & Hlist & Hhuge).
    set (o := count_trailing_zeros (alloc_bitset s eo)) in *.
    destruct (o =? max_order) eqn:Eo; breflect.
    + destruct (last (free_huge s)) as [b|] eqn:El; [|done].
      case_if Ec; [done|]. intros [= <- <-]. breflect.
      assert (b ∈ free_huge s) as Hb by by apply last_Some_elem_of.
      split_and!; [|done|apply remove_is_huge; by apply (pl_huge s Hs)].
      apply elem_of_all_free; [done|]. by left.
    + destruct Hlist as (b & l & El); [lia|]. rewrite El. simpl. intros [= <- <-].
      destruct (free_list_all_free b o) as [Hb Hord]; [lia|rewrite El; set_solver|].
      split_and!; [done| |apply remove_is_list; [done|lia]].
      destruct (Hsz b Hb) as (n & Hn & Hnr).
      pose proof (pr_order_bounds s b n Hn ltac:(lia)) as [Hlo _]. rewrite Hord in Hlo.
      unfold eo in Ho, Heo. rewrite exact_order_of_spec in Ho, Heo by lia.
      rewrite Hn. apply Z.mul_le_mono_nonneg_r; [done|].
      apply (exact_order_fits m n o); lia.
Qed.

(** A contiguous allocation fails only when no free range is large enough. *)
Lemma alloc_pick_complete :
  alloc_pick s (m * page_size) true = None →
  ∀ a, a ∈ all_free s → pr_size s a < m * page_size.
Proof.
  unfold alloc_pick. pose proof exact_order_range as Heo.
  set (eo := exact_order_of (m * page_size)) in *. intros Hnone a Ha.
  destruct (Hsz a Ha) as (n & Hn & Hnr).
  pose proof (pr_order_bounds s a n Hn ltac:(lia)) as Hord.
  pose proof (pr_order_nonneg s a) as Hpos.
  assert (eo = Z.min (Z.log2_up m) max_order) as Heq.
  { apply exact_order_of_spec. lia. }
  destruct (alloc_bitset s eo =? 0) eqn:Ez; breflect.
  - pose proof (alloc_bitset_zero s Hs eo a Heo Ez Ha) as Hlt.
    destruct (Z.eq_dec (pr_order s a) (eo - 1)) as [Hoe|Hoe].
    + pose proof (all_free_list s Hs a Ha ltac:(lia)) as Hin. rewrite Hoe in Hin.
      rewrite (proj2 (Z.eqb_neq eo 0)), bool_decide_false in Hnone.
      2:{ intros E. rewrite E in Hin. by apply not_elem_of_nil in Hin. }
      2:{ lia. }
      simpl in Hnone. destruct (list_find _ _) as [[]|] eqn:Ef in Hnone; [done|].
      apply list_find_None in Ef. rewrite Forall_forall in Ef. specialize (Ef a Hin).
      simpl in Ef. lia.
    + rewrite Hn. apply Z.mul_lt_mono_pos_r; [done|].
      apply (exact_order_too_small m n (pr_order s a)); lia.
  - destruct (alloc_bitset_pos s Hs eo Heo Ez) as (Ho & Hlist & Hhuge).
    set (o := count_trailing_zeros (alloc_bitset s eo)) in *.
    destruct (o =? max_order) eqn:Eo; breflect.
    + destruct (Hhuge Eo) as [b El]. rewrite El in Hnone.
      case_if Ec in Hnone; [|done]. breflect.
      assert (b ∈ free_huge s) as Hb by by apply last_Some_elem_of.
      assert (pr_size s a ≤ pr_size s b); [|lia].
      destruct (Z_lt_dec (pr_order s a) max_order) as [Hsmall|Hbig].
      * destruct (Hsz b) as (nb & Hnb & Hnbr).
        { apply elem_of_all_free; [done|]. by left. }
        pose proof (pr_order_bounds s b nb Hnb ltac:(lia)) as Hordb.
        pose proof (pl_huge s Hs b Hb).
        pose proof (Z.pow_le_mono_r 2 (pr_order s a + 1) (pr_order s b)).
        unfold page_size in *. lia.
      * pose proof (all_free_huge s Hs a Ha ltac:(lia)) as Hah.
        apply last_Some in El as [l El]. rewrite El in Hah.
        apply elem_of_app in Hah as [Hah| ->%list_elem_of_singleton]; [|done].
        pose proof (pl_sorted s Hs) as Hsort. rewrite El in Hsort.
        apply StronglySorted_app_1_elem_of with (x1 := a) (x2 := b) in Hsort; set_solver.
    + destruct Hlist as (b & l & El); [lia|]. by rewrite El in Hnone.
Qed.
End Pick.

(** ** Layout *)

(** The page number of an address, and the first address of a page. *)
Definition page_no (a : Z) : Z := (a - phys_mem) / page_size.
Definition page_addr (i : Z) : Z := phys_mem + i * page_size.

(** The range [(addr, size)] covers page [i]. *)
Definition covers (x : Z * Z) (i : Z) : Prop := x.1 ≤ page_addr i < x.1 + x.2.

Definition covered (l : list (Z * Z)) (i : Z) : Prop := ∃ x, x ∈ l ∧ covers x i.

(** [(addr, size)] is a positive number of whole pages among the first [lim] of
    the main area. *)
Definition fits (lim : Z) (x : Z * Z) : Prop :=
  ∃ p k, x = (page_addr p, k * page_size) ∧ 0 ≤ p ∧ 0 < k ∧ p + k ≤ lim.

Definition disj (x y : Z * Z) : Prop := x.1 + x.2 ≤ y.1 ∨ y.1 + y.2 ≤ x.1.

#[export] Instance disj_sym : Symmetric disj.
Proof. unfold disj. intros x y. tauto. Qed.

(** No range ends where another one starts. *)
Definition coalesced (l : list (Z * Z)) : Prop :=
  ∀ x y, x ∈ l → y ∈ l → x.1 + x.2 ≠ y.1.

(** The free ranges as pairs of an address and a size. *)
Definition ranges (s : t) : list (Z * Z) := (λ a, (a, pr_size s a)) <$> all_free s.

(** The allocator, with the blocks [bs] it has handed out and the ranges [lm]
    that an operation in progress has taken out of the containers. *)
Record inv (s : t) (bs lm : list (Z * Z)) : Prop := {
  i_placed : placed s;
  i_lim : Z.of_nat (length (bitmap s)) ≤ 2 ^ 32;
  i_fits : ∀ x, x ∈ ranges s ++ bs ++ lm → fits (Z.of_nat (length (bitmap s))) x;
  i_disj : pairwise disj (ranges s ++ bs ++ lm);
  i_coalesced : coalesced (ranges s);
  i_tails : ∀ a, a ∈ all_free s → tail s !! (a + pr_size s a - 8) = Some a;
  i_bits_free : ∀ x, x ∈ ranges s →
    get_bit s (page_no x.1) = true ∧ get_bit s (page_no (x.1 + x.2) - 1) = true;
  i_bits_block : ∀ x, x ∈ bs →
    get_bit s (page_no x.1) = false ∧ get_bit s (page_no (x.1 + x.2) - 1) = false;
  i_bits_covered : ∀ i, 0 ≤ i → get_bit s i = true → covered (ranges s ++ bs ++ lm) i;
}.

(** The invariant between two operations. *)
Definition wf (s : t) (bs : list (Z * Z)) : Prop := inv s bs [].

(** The headers of the blocks are left alone. *)
Definition frame (s s' : t) (bs : list (Z * Z)) : Prop :=
  ∀ x, x ∈ bs → pr_size s' x.1 = pr_size s x.1.

Lemma page_no_addr p : page_no (page_addr p) = p.
Proof. unfold page_no, page_addr. rewrite Z.add_simpl_l, Z.div_mul by done. done. Qed.

Lemma page_no_end p k : page_no (page_addr p + k * page_size) = p + k.
Proof.
  rewrite <- (page_no_addr (p + k)). f_equal. unfold page_addr. lia.
Qed.

Lemma get_bitmap_idx_page p : 0 ≤ p < 2 ^ 32 → get_bitmap_idx (page_addr p) = p.
Proof.
  intros Hp. unfold get_bitmap_idx. change ((page_addr p - phys_mem) / page_size)
    with (page_no (page_addr p)). rewrite page_no_addr. by apply wrap_small.
Qed.

Lemma covers_page p k i : covers (page_addr p, k * page_size) i ↔ p ≤ i < p + k.
Proof. unfold covers, page_addr, page_size. simpl. lia. Qed.

Lemma disj_page p k q l :
  disj (page_addr p, k * page_size) (page_addr q, l * page_size) ↔ p + k ≤ q ∨ q + l ≤ p.
Proof. unfold disj, page_addr, page_size. simpl. lia. Qed.

(** ** Bits *)

Lemma get_set_bit s i j v :
  0 ≤ i < Z.of_nat (length (bitmap s)) → 0 ≤ j →
  get_bit (set_bit s i v) j = if decide (i = j) then v else get_bit s j.
Proof.
  intros Hi Hj. unfold get_bit, set_bit, set_bitmap. simpl. case_decide.
  - subst. rewrite list_lookup_insert_eq by lia. done.
  - rewrite list_lookup_insert_ne by lia. done.
Qed.

Lemma set_bits_bitmap s p k v fill :
  pr_size s (page_addr p) = k * page_size → 0 ≤ p → 0 < k →
  p + k ≤ Z.of_nat (length (bitmap s)) → Z.of_nat (length (bitmap s)) ≤ 2 ^ 32 →
  length (bitmap (set_bits s (page_addr p) v fill)) = length (bitmap s) ∧
  ∀ i, 0 ≤ i → get_bit (set_bits s (page_addr p) v fill) i =
    if decide (i = p ∨ i = p + k - 1 ∨ (fill = true ∧ p ≤ i < p + k)) then v else get_bit s i.
Proof.
  intros Hsz Hp Hk Hlim Hlim2. unfold set_bits. rewrite Hsz, Z.div_mul by done.
  rewrite get_bitmap_idx_page by lia. destruct fill.
  - rewrite Z.sub_add.
    assert (∀ l s0, length (bitmap s0) = length (bitmap s) →
      (∀ j, j ∈ l → 0 ≤ j < k) →
      let s1 := fold_left (λ s idx, set_bit s (p + idx) v) l s0 in
      length (bitmap s1) = length (bitmap s) ∧
      ∀ i, 0 ≤ i → get_bit s1 i = if decide (i - p ∈ l) then v else get_bit s0 i) as Hfold.
    { induction l as [|j l IH]; intros s0 Hlen Hin; cbn [fold_left].
      { split; [done|]. intros i Hi. by rewrite decide_False by apply not_elem_of_nil. }
      destruct (IH (set_bit s0 (p + j) v)) as [H1 H2].
      { simpl. by rewrite length_insert. }
      { intros. apply Hin. set_solver. }
      specialize (Hin j ltac:(elem)). split; [done|]. intros i Hi. rewrite H2 by done.
      rewrite get_set_bit by lia. pose proof (elem_of_cons l (i - p) j) as Hc.
      destruct (decide (i - p = j)); repeat case_decide; try done; exfalso; try tauto; lia. }
    destruct (Hfold (seqZ 0 k) s) as [H1 H2]; [done| |].
    { intros j Hj. apply elem_of_seqZ in Hj. lia. }
    split; [done|]. intros i Hi. rewrite H2 by done. 
    apply decide_ext. rewrite elem_of_seqZ. intuition lia.
  - split; [simpl; by rewrite !length_insert|]. intros i Hi.
    rewrite get_set_bit; [|simpl; rewrite length_insert; lia|done].
    rewrite get_set_bit by lia. repeat case_decide; try done; intuition lia.
Qed.

(** ** Elementary steps

    Each operation of the allocator is a sequence of the steps below; each step
    preserves the invariant. *)

Lemma elem_of_ranges s x : x ∈ ranges s ↔ x.1 ∈ all_free s ∧ x.2 = pr_size s x.1.
Proof.
  unfold ranges. rewrite list_elem_of_fmap. split.
  - by intros (a & -> & Ha).
  - destruct x as [a n]. simpl. intros [Ha ->]. by exists a.
Qed.

Lemma ranges_set_hdr s a n : a ∉ all_free s → ranges (set_hdr s a n) = ranges s.
Proof.
  intros Ha. unfold ranges. apply list_fmap_ext. intros i b Hb.
  apply list_elem_of_lookup_2 in Hb. rewrite pr_size_set_hdr, decide_False; [done|].
  by intros ->.
Qed.

Lemma insert_hdr b s a : hdr (insert b s a) = hdr s.
Proof.
  unfold insert. destruct b; [|by case_if E].
  rewrite (proj1 (set_bits_fields _ _ _ _)). by case_if E.
Qed.

Lemma remove_hdr s a :
  hdr (remove s a) = hdr s ∧ tail (remove s a) = tail s ∧ bitmap (remove s a) = bitmap s.
Proof. unfold remove. by case_if E. Qed.

Lemma remove_pr_size s a b : pr_size (remove s a) b = pr_size s b.
Proof. unfold pr_size. by rewrite (proj1 (remove_hdr s a)). Qed.

Lemma insert_pr_size u s a b : pr_size (insert u s a) b = pr_size s b.
Proof. unfold pr_size. by rewrite insert_hdr. Qed.

Lemma ranges_insert b s a :
  placed s → ranges (insert b s a) ≡ₚ (a, pr_size s a) :: ranges s.
Proof.
  intros Hs. unfold ranges. destruct (placed_insert b s a Hs) as [_ Hp]. rewrite Hp. simpl.
  unfold pr_size. by rewrite insert_hdr.
Qed.

Lemma ranges_remove s a :
  placed s → a ∈ all_free s → ranges s ≡ₚ (a, pr_size s a) :: ranges (remove s a).
Proof.
  intros Hs Ha. unfold ranges. destruct (placed_remove s a Hs Ha) as [_ Hp].
  unfold pr_size at 3. rewrite (proj1 (remove_hdr s a)). by rewrite Hp.
Qed.

Lemma coalesced_mono l l' : (∀ x, x ∈ l' → x ∈ l) → coalesced l → coalesced l'.
Proof. unfold coalesced. naive_solver. Qed.

Lemma covered_mono l l' i : (∀ x, x ∈ l → x ∈ l') → covered l i → covered l' i.
Proof. unfold covered. naive_solver. Qed.

Lemma inv_limbo_notin s bs lm x : inv s bs lm → x ∈ bs ++ lm → x.1 ∉ all_free s.
Proof.
  intros Hi Hx Ha. pose proof (i_disj _ _ _ Hi) as Hd.
  apply pairwise_app in Hd as (_ & _ & Hd).
  specialize (Hd (x.1, pr_size s x.1) x). destruct Hd; [by apply elem_of_ranges|done| |];
    simpl in *.
  - destruct (i_fits _ _ _ Hi (x.1, pr_size s x.1)) as (p & k & E & ?);
      [apply elem_of_app; left; by apply elem_of_ranges|]. simplify_eq.
    unfold page_size in *. lia.
  - destruct (i_fits _ _ _ Hi x) as (p & k & -> & ?); [elem|]. simpl in *.
    unfold page_size in *. lia.
Qed.

(** Taking a free range out of its container. *)
Lemma inv_remove s bs lm a :
  inv s bs lm → a ∈ all_free s → inv (remove s a) bs ((a, pr_size s a) :: lm).
Proof.
  intros Hi Ha. pose proof (i_placed _ _ _ Hi) as Hs.
  pose proof (ranges_remove s a Hs Ha) as Hr.
  destruct (placed_remove s a Hs Ha) as [Hs' Hp].
  destruct (remove_hdr s a) as (Eh & Et & Eb).
  assert (ranges s ++ bs ++ lm ≡ₚ ranges (remove s a) ++ bs ++ (a, pr_size s a) :: lm) as Hall.
  { rewrite Hr. simpl. by rewrite <- !Permutation_middle. }
  assert (∀ x, x ∈ ranges (remove s a) → x ∈ ranges s) as Hsub
    by (intros x Hx; rewrite Hr; elem).
  destruct Hi. split; unfold get_bit in *; rewrite ?Eb; try done.
  - intros x. rewrite <- Hall. auto.
  - by apply (pairwise_perm _ _ _ _ Hall).
  - by eapply coalesced_mono.
  - intros b Hb. rewrite remove_pr_size, Et. apply i_tails0. rewrite Hp. set_solver.
  - auto.
  - intros i Hpos Hb. eapply covered_mono; [|by apply i_bits_covered0]. intros x. by rewrite Hall.
Qed.

(** Writing the header of a range that is in no container. *)
Lemma inv_set_hdr s bs lm a n : inv s bs lm → a ∉ all_free s → inv (set_hdr s a n) bs lm.
Proof.
  intros Hi Ha. pose proof (ranges_set_hdr s a n Ha) as Hr.
  pose proof (placed_set_hdr s a n (i_placed _ _ _ Hi) Ha) as Hs.
  destruct Hi. split; rewrite ?Hr; try done.
  intros b Hb. rewrite pr_size_set_hdr, decide_False; [by apply i_tails0|]. by intros ->.
Qed.

(** Changing the ranges in limbo for others that cover the same pages. *)
Lemma inv_limbo s bs lm lm' :
  inv s bs lm →
  (∀ x, x ∈ lm' → fits (Z.of_nat (length (bitmap s))) x) →
  (∀ i, covered lm' i ↔ covered lm i) → pairwise disj lm' →
  inv s bs lm'.
Proof.
  intros Hi Hf Hc Hd. destruct Hi. split; try done.
  - intros x Hx. rewrite !elem_of_app in Hx. destruct Hx as [Hx|[Hx|Hx]]; [| |by auto];
      apply i_fits0; set_solver.
  - rewrite (assoc_L (++)) in *. apply pairwise_app in i_disj0 as (H1 & H2 & H3).
    apply pairwise_app. split_and!; [done..|]. intros x y Hx Hy.
    destruct (i_fits0 x) as (p & k & -> & Hp & Hk & _). { elem. }
    destruct (Hf y Hy) as (q & l & -> & Hq & Hl & _). apply disj_page.
    (* A page of y that is also in x would be covered by lm. *)
    assert (¬ (p < q + l ∧ q < p + k)); [|lia]. intros Hov.
    destruct (proj1 (Hc (Z.max p q))) as (z & Hz & Hzc).
    { exists (page_addr q, l * page_size). split; [done|]. apply covers_page. lia. }
    destruct (i_fits0 z) as (r & m & -> & _ & Hm & _). { elem. }
    rewrite covers_page in Hzc.
    specialize (H3 _ _ Hx Hz). rewrite disj_page in H3. lia.
  - intros i Hpos Hb. destruct (i_bits_covered0 i Hpos Hb) as (x & Hx & Hxc).
    rewrite (assoc_L (++)) in *. apply elem_of_app in Hx as [Hx|Hx].
    + exists x. set_solver.
    + destruct (proj2 (Hc i)) as (y & ? & ?); [by exists x|]. exists y. set_solver.
Qed.

Lemma insert_true_fields s a :
  tail (insert true s a) = <[a + pr_size s a - 8 := a]> (tail s) ∧
  ∃ s1, insert true s a = set_bits s1 a true false ∧ pr_size s1 a = pr_size s a ∧
        bitmap s1 = bitmap s.
Proof.
  unfold insert. set (s1 := if _ <=? _ then _ else _).
  assert (tail s1 = <[a + pr_size s a - 8 := a]> (tail s) ∧
          pr_size s1 a = pr_size s a ∧ bitmap s1 = bitmap s) as (H1 & H2 & H3).
  { unfold s1. by case_if E. }
  split; [|by exists s1]. by rewrite (proj1 (proj2 (set_bits_fields _ _ _ _))).
Qed.

(** The first and the last page of a range or a block, seen from another one. *)
Lemma inv_ends_disj s bs lm x y :
  inv s bs lm → x ∈ ranges s ++ bs ++ lm → y ∈ ranges s ++ bs ++ lm → x = y ∨
  (page_no x.1 ≠ page_no y.1 ∧ page_no x.1 ≠ page_no (y.1 + y.2) - 1 ∧
   page_no (x.1 + x.2) - 1 ≠ page_no y.1 ∧
   page_no (x.1 + x.2) - 1 ≠ page_no (y.1 + y.2) - 1).
Proof.
  intros Hi Hx Hy.
  destruct (pairwise_elem _ _ _ _ disj_sym (i_disj _ _ _ Hi) Hx Hy) as [->|Hd]; [by left|right].
  destruct (i_fits _ _ _ Hi x Hx) as (p & k & -> & ? & ? & _).
  destruct (i_fits _ _ _ Hi y Hy) as (q & l & -> & ? & ? & _).
  rewrite disj_page in Hd. simpl. rewrite !page_no_end, !page_no_addr. lia.
Qed.

(** Putting a range in its container. *)
Lemma inv_insert s bs lm a n :
  inv s bs ((a, n) :: lm) → pr_size s a = n →
  (∀ x, x ∈ ranges s → x.1 + x.2 ≠ a ∧ a + n ≠ x.1) →
  inv (insert true s a) bs lm.
Proof.
  intros Hi Hn Hadj. pose proof (i_placed _ _ _ Hi) as Hs.
  pose proof (ranges_insert true s a Hs) as Hr. rewrite Hn in Hr.
  destruct (placed_insert true s a Hs) as [Hs' Hp].
  destruct (insert_true_fields s a) as (Et & s1 & Es & Hsz1 & Eb1).
  destruct (i_fits _ _ _ Hi (a, n)) as (p & k & [= -> Enk] & Hp0 & Hk & Hlim); [elem|].
  assert (ranges (insert true s (page_addr p)) ++ bs ++ lm ≡ₚ
          ranges s ++ bs ++ (page_addr p, n) :: lm) as Hall.
  { rewrite Hr. simpl. by rewrite <- !Permutation_middle. }
  pose proof (i_lim _ _ _ Hi) as Hlim2.
  destruct (set_bits_bitmap s1 p k true false) as [Elen Hbits];
    [rewrite Hsz1; lia|lia|lia|rewrite Eb1; lia|by rewrite Eb1|].
  rewrite <- Es, Eb1 in Elen. rewrite <- Es in Hbits.
  assert (∀ i, 0 ≤ i → get_bit (insert true s (page_addr p)) i =
    if decide (i = p ∨ i = p + k - 1) then true else get_bit s i) as Hbit.
  { intros i Hpos. rewrite Hbits by done. unfold get_bit. rewrite Eb1.
    apply decide_ext. intuition lia. }
  clear Hbits. split; rewrite ?Elen; try done.
  - intros x. rewrite Hall. apply (i_fits _ _ _ Hi).
  - eapply (pairwise_perm _ _ _ disj_sym); [symmetry; exact Hall|]. apply (i_disj _ _ _ Hi).
  - intros x y. rewrite Hr, !elem_of_cons. intros [->|Hx] [->|Hy]; simpl.
    + unfold page_size in *. lia.
    + by apply Hadj.
    + by apply Hadj.
    + by apply (i_coalesced _ _ _ Hi).
  - intros b. rewrite Hp, elem_of_cons, insert_pr_size, Et.
    intros [->|Hb]; [by rewrite lookup_insert_eq|].
    rewrite lookup_insert_ne; [by apply (i_tails _ _ _ Hi)|]. intros E.
    assert ((b, pr_size s b) ∈ ranges s) as Hbr by by apply elem_of_ranges.
    pose proof (i_disj _ _ _ Hi) as Hd. apply pairwise_app in Hd as (_ & _ & Hd).
    specialize (Hd _ (page_addr p, n) Hbr ltac:(elem)).
    destruct (i_fits _ _ _ Hi (b, pr_size s b)) as (q & l & [= -> Eq] & ? & ? & ?); [elem|].
    rewrite Hn in E. rewrite Eq, Enk in *. rewrite disj_page in Hd.
    unfold page_addr, page_size in *. lia.
  - intros x. rewrite Hr, elem_of_cons. intros [->|Hx].
    + simpl. rewrite Enk, page_no_end, page_no_addr.
      rewrite !Hbit, !decide_True by lia. done.
    + destruct (i_bits_free _ _ _ Hi x Hx) as [H1 H2].
      destruct (i_fits _ _ _ Hi x) as (q & l & -> & ? & ? & ?); [elem|].
      revert H1 H2. simpl. rewrite page_no_end, page_no_addr. intros H1 H2.
      rewrite !Hbit by lia. split; by case_decide.
  - intros x Hx. destruct (i_bits_block _ _ _ Hi x Hx) as [H1 H2].
    destruct (inv_ends_disj _ _ _ x (page_addr p, n) Hi) as [->|Hne]; [set_solver..| |].
    { exfalso. pose proof (i_disj _ _ _ Hi) as Hd. apply pairwise_app in Hd as (_ & Hd & _).
      apply pairwise_app in Hd as (_ & _ & Hd).
      specialize (Hd _ (page_addr p, n) Hx ltac:(elem)).
      rewrite Enk, disj_page in Hd. lia. }
    destruct (i_fits _ _ _ Hi x) as (q & l & -> & ? & ? & ?); [elem|].
    revert H1 H2 Hne. simpl. rewrite Enk, !page_no_end, !page_no_addr. intros H1 H2 Hne.
    rewrite !Hbit, !decide_False by lia. done.
  - intros i Hpos. rewrite Hbit by done. intros Hb.
    assert (covered (ranges s ++ bs ++ (page_addr p, n) :: lm) i) as Hcov.
    { case_decide as Hc; [|by apply (i_bits_covered _ _ _ Hi)].
      exists (page_addr p, n). split; [elem|]. rewrite Enk. apply covers_page. lia. }
    eapply covered_mono; [|exact Hcov]. intros x. by rewrite Hall.
Qed.

(** Taking a block back. *)
Lemma inv_unblock s b bs lm : inv s (b :: bs) lm → inv s bs (b :: lm).
Proof.
  intros Hi.
  assert (ranges s ++ (b :: bs) ++ lm ≡ₚ ranges s ++ bs ++ b :: lm) as Hall.
  { by rewrite <- Permutation_middle. }
  destruct Hi. split; try done.
  - intros x. rewrite <- Hall. auto.
  - by apply (pairwise_perm _ _ _ _ Hall).
  - intros x Hx. apply i_bits_block0. set_solver.
  - intros i Hpos Hb. eapply covered_mono; [|by apply i_bits_covered0]. intros x. by rewrite Hall.
Qed.

(** Handing out a block. *)
Lemma inv_block s bs lm a n fill :
  inv s bs ((a, n) :: lm) → pr_size s a = n →
  inv (set_bits s a false fill) ((a, n) :: bs) lm.
Proof.
  intros Hi Hn.
  destruct (i_fits _ _ _ Hi (a, n)) as (p & k & [= -> Enk] & Hp0 & Hk & Hlim); [elem|].
  destruct (set_bits_fields s (page_addr p) false fill) as (E1 & E2 & E3 & E4 & E5).
  pose proof (i_lim _ _ _ Hi) as Hlim2.
  destruct (set_bits_bitmap s p k false fill) as [Elen Hbit]; [lia..|].
  set (s' := set_bits _ _ _ _) in *.
  assert (all_free s' = all_free s) as Ha by (unfold all_free; by rewrite E3, E4).
  assert (∀ b, pr_size s' b = pr_size s b) as Hsz by (intros; unfold pr_size; by rewrite E1).
  assert (ranges s' = ranges s) as Hr by (unfold ranges, pr_size; by rewrite Ha, E1).
  assert (ranges s ++ ((page_addr p, n) :: bs) ++ lm ≡ₚ
          ranges s ++ bs ++ (page_addr p, n) :: lm) as Hall.
  { by rewrite <- Permutation_middle. }
  assert (∀ x, x ∈ ranges s ++ bs → ∃ q l, x = (page_addr q, l * page_size) ∧ 0 ≤ q ∧ 0 < l ∧
    (p + k ≤ q ∨ q + l ≤ p)) as Hother.
  { intros x Hx. destruct (i_fits _ _ _ Hi x) as (q & l & -> & ? & ? & ?); [elem|].
    exists q, l. split_and!; [done..|].
    pose proof (i_disj _ _ _ Hi) as Hd. rewrite (assoc_L (++)) in Hd.
    apply pairwise_app in Hd as (_ & _ & Hd).
    specialize (Hd _ (page_addr p, n) Hx ltac:(elem)).
    rewrite Enk, disj_page in Hd. lia. }
  split; rewrite ?Hr, ?Elen; try apply Hi.
  - apply (placed_ext s); try done. apply Hi.
  - intros x. rewrite Hall. apply (i_fits _ _ _ Hi).
  - eapply (pairwise_perm _ _ _ disj_sym); [symmetry; exact Hall|]. apply (i_disj _ _ _ Hi).
  - intros b. rewrite Ha, Hsz, E2. apply (i_tails _ _ _ Hi).
  - intros x Hx. destruct (i_bits_free _ _ _ Hi x Hx) as [H1 H2].
    destruct (Hother x) as (q & l & -> & ? & ? & ?); [elem|].
    revert H1 H2. simpl. rewrite page_no_end, page_no_addr. intros H1 H2.
    rewrite !Hbit, !decide_False by lia. done.
  - intros x [->|Hx]%elem_of_cons.
    + simpl. rewrite Enk, page_no_end, page_no_addr. rewrite !Hbit, !decide_True by lia. done.
    + destruct (i_bits_block _ _ _ Hi x Hx) as [H1 H2].
      destruct (Hother x) as (q & l & -> & ? & ? & ?); [elem|].
      revert H1 H2. simpl. rewrite page_no_end, page_no_addr. intros H1 H2.
      rewrite !Hbit, !decide_False by lia. done.
  - intros i Hpos. rewrite Hbit by done. intros Hb. case_decide; [done|].
    eapply covered_mono; [|by apply (i_bits_covered _ _ _ Hi)]. intros x. by rewrite Hall.
Qed.

(** ** Allocation *)

Lemma inv_sized s bs lm : inv s bs lm → sized s.
Proof.
  intros Hi a Ha. destruct (i_fits _ _ _ Hi (a, pr_size s a)) as (p & k & [= -> E] & ?).
  { apply elem_of_app. left. by apply elem_of_ranges. }
  pose proof (i_lim _ _ _ Hi). exists k. rewrite E. split; [done|lia].
Qed.

Lemma covered_cons x l i : covered (x :: l) i ↔ covers x i ∨ covered l i.
Proof.
  unfold covered. setoid_rewrite elem_of_cons. naive_solver.
Qed.

Lemma covered_perm l l' i : l ≡ₚ l' → covered l i ↔ covered l' i.
Proof. intros Hp. unfold covered. by setoid_rewrite Hp. Qed.

Lemma covered_nil i : covered [] i ↔ False.
Proof. unfold covered. split; [|done]. intros (x & Hx & _). by apply not_elem_of_nil in Hx. Qed.

Lemma inv_limbo_perm s bs lm lm' : lm ≡ₚ lm' → inv s bs lm → inv s bs lm'.
Proof.
  intros Hp Hi. eapply inv_limbo; [exact Hi|..].
  - intros x Hx. apply (i_fits _ _ _ Hi). rewrite <- Hp in Hx. rewrite !elem_of_app. auto.
  - intros i. by apply covered_perm.
  - eapply (pairwise_perm _ _ _ disj_sym); [exact Hp|].
    pose proof (i_disj _ _ _ Hi) as Hd. rewrite !pairwise_app in Hd. tauto.
Qed.

Lemma inv_limbo_swap s bs lm x y : inv s bs (x :: y :: lm) → inv s bs (y :: x :: lm).
Proof. apply inv_limbo_perm, Permutation_swap. Qed.

(** Cutting a range in limbo in two. *)
Lemma inv_split s bs lm p k j :
  inv s bs ((page_addr p, k * page_size) :: lm) → 0 < j < k →
  inv s bs ((page_addr p, j * page_size) :: (page_addr (p + j), (k - j) * page_size) :: lm).
Proof.
  intros Hi Hj. destruct (i_fits _ _ _ Hi (page_addr p, k * page_size))
    as (p' & k' & [= E1 E2] & ? & ? & ?); [elem|].
  assert (p' = p) as -> by (unfold page_addr, page_size in *; lia).
  assert (k' = k) as -> by (unfold page_size in *; lia).
  assert (∀ x, x ∈ lm → fits (Z.of_nat (length (bitmap s))) x) as Hlm.
  { intros x Hx. apply (i_fits _ _ _ Hi). set_solver. }
  eapply inv_limbo; [exact Hi| | |].
  - intros x. rewrite !elem_of_cons. intros [->|[->|Hx]]; [| |auto].
    + exists p, j. split_and!; [done|lia..].
    + exists (p + j), (k - j). split_and!; [done|lia..].
  - intros i. rewrite !covered_cons, !covers_page. intuition lia.
  - pose proof (i_disj _ _ _ Hi) as Hd. rewrite (assoc_L (++)) in Hd.
    apply pairwise_app in Hd as (_ & [Hd1 Hd2] & _). rewrite Forall_forall in Hd1.
    cbn [pairwise]. rewrite Forall_cons, !Forall_forall, disj_page.
    split_and!; [lia| | |done]; intros x Hx; specialize (Hd1 x Hx);
      destruct (Hlm x Hx) as (q & l & -> & ? & ? & ?); rewrite disj_page in *; lia.
Qed.

(** Joining two adjacent ranges in limbo. *)
Lemma inv_join s bs lm p k j :
  inv s bs ((page_addr p, j * page_size) :: (page_addr (p + j), k * page_size) :: lm) →
  inv s bs ((page_addr p, (j + k) * page_size) :: lm).
Proof.
  intros Hi.
  assert (∀ x, x ∈ lm → fits (Z.of_nat (length (bitmap s))) x) as Hlm.
  { intros x Hx. apply (i_fits _ _ _ Hi). set_solver. }
  destruct (i_fits _ _ _ Hi (page_addr p, j * page_size))
    as (p1 & k1 & [= E1 E2] & ? & ? & ?); [elem|].
  destruct (i_fits _ _ _ Hi (page_addr (p + j), k * page_size))
    as (p2 & k2 & [= E3 E4] & ? & ? & ?); [elem|].
  assert (p1 = p ∧ k1 = j ∧ p2 = p + j ∧ k2 = k) as (-> & -> & -> & ->)
    by (unfold page_addr, page_size in *; lia).
  eapply inv_limbo; [exact Hi| | |].
  - intros x. rewrite !elem_of_cons. intros [->|Hx]; [|auto].
    exists p, (j + k). split_and!; [done|lia..].
  - intros i. rewrite !covered_cons, !covers_page. intuition lia.
  - pose proof (i_disj _ _ _ Hi) as Hd. rewrite (assoc_L (++)) in Hd.
    apply pairwise_app in Hd as (_ & Hd & _). cbn [pairwise] in Hd |- *.
    destruct Hd as (Hd1 & Hd2 & Hd3). rewrite !Forall_forall in *.
    split; [|done]. intros x Hx. specialize (Hd1 x ltac:(elem)). specialize (Hd2 x Hx).
    destruct (Hlm x Hx) as (q & l & -> & ? & ? & ?). rewrite disj_page in *. lia.
Qed.

Lemma frame_refl s bs : frame s s bs.
Proof. by intros ??. Qed.

Lemma frame_trans s1 s2 s3 bs : frame s1 s2 bs → frame s2 s3 bs → frame s1 s3 bs.
Proof. unfold frame. intros H1 H2 x Hx. by rewrite H2, H1. Qed.

Lemma frame_hdr s s' bs : hdr s' = hdr s → frame s s' bs.
Proof. unfold frame, pr_size. by intros ->. Qed.

(** The header of a range that is not a block may be written. *)
Lemma frame_set_hdr s bs lm a n m :
  inv s bs lm → (a, m) ∈ lm → frame s (set_hdr s a n) bs.
Proof.
  intros Hi Ha x Hx. rewrite pr_size_set_hdr. case_decide; [|done]. subst a. exfalso.
  pose proof (i_disj _ _ _ Hi) as Hd. apply pairwise_app in Hd as (_ & Hd & _).
  apply pairwise_app in Hd as (_ & _ & Hd). specialize (Hd x (x.1, m) Hx Ha).
  destruct (i_fits _ _ _ Hi x) as (p & k & -> & ? & ? & _); [elem|].
  destruct (i_fits _ _ _ Hi (page_addr p, m)) as (q & l & [= E ->] & ? & ? & _); [elem|].
  assert (q = p) as -> by (unfold page_addr, page_size in *; lia).
  simpl in Hd. rewrite disj_page in Hd. lia.
Qed.

(** What taking [size] bytes at [a] as a block out of the free pages means. *)
Record taken (s s' : t) (bs : list (Z * Z)) (a size : Z) : Prop := {
  tk_wf : wf s' ((a, size) :: bs);
  tk_size : pr_size s' a = size;
  tk_frame : frame s s' bs;
  tk_pages : ∀ i, covered (ranges s) i ↔ covers (a, size) i ∨ covered (ranges s') i;
}.

Lemma set_bits_ranges s a v fill : ranges (set_bits s a v fill) = ranges s.
Proof.
  destruct (set_bits_fields s a v fill) as (E1 & E2 & E3 & E4 & E5).
  unfold ranges, all_free, pr_size. by rewrite E1, E3, E4.
Qed.

Lemma set_bits_pr_size s a v fill b : pr_size (set_bits s a v fill) b = pr_size s b.
Proof. unfold pr_size. by rewrite (proj1 (set_bits_fields s a v fill)). Qed.

(** Writing the header of a range in limbo and putting it in its container. *)
Lemma inv_put s bs lm a n :
  inv s bs ((a, n) :: lm) →
  (∀ x, x ∈ ranges s → x.1 + x.2 ≠ a ∧ a + n ≠ x.1) →
  let s' := insert true (set_hdr s a n) a in
  inv s' bs lm ∧ ranges s' ≡ₚ (a, n) :: ranges s ∧ frame s s' bs ∧ pr_size s' a = n.
Proof.
  intros Hi Hadj s'.
  assert (a ∉ all_free s) as Hnin.
  { apply (inv_limbo_notin _ _ _ (a, n) Hi). apply elem_of_app. right. left. }
  assert (inv (set_hdr s a n) bs ((a, n) :: lm)) as Hi2 by by apply inv_set_hdr.
  assert (pr_size (set_hdr s a n) a = n) as Hsz by by rewrite pr_size_set_hdr, decide_True.
  split_and!.
  - eapply inv_insert; [exact Hi2|done|]. by rewrite ranges_set_hdr.
  - unfold s'. by rewrite ranges_insert, Hsz, ranges_set_hdr by first [done|apply Hi2].
  - eapply frame_trans; [|apply frame_hdr, insert_hdr].
    eapply frame_set_hdr; [exact Hi|left].
  - unfold s'. by rewrite insert_pr_size.
Qed.

(** A range in limbo, with a header of its size, becomes a block. *)
Lemma inv_take s bs a n fill :
  inv s bs [(a, n)] →
  let s' := set_bits (set_hdr s a n) a false fill in
  wf s' ((a, n) :: bs) ∧ ranges s' = ranges s ∧ frame s s' bs ∧ pr_size s' a = n.
Proof.
  intros Hi s'.
  assert (a ∉ all_free s) as Hnin.
  { apply (inv_limbo_notin _ _ _ (a, n) Hi). apply elem_of_app. right. left. }
  assert (pr_size (set_hdr s a n) a = n) as Hsz by by rewrite pr_size_set_hdr, decide_True.
  split_and!.
  - apply inv_block; [by apply inv_set_hdr|done].
  - unfold s'. by rewrite set_bits_ranges, ranges_set_hdr.
  - eapply frame_trans; [eapply frame_set_hdr; [exact Hi|left]|].
    apply frame_hdr, set_bits_fields.
  - unfold s'. by rewrite set_bits_pr_size.
Qed.

Lemma set_hdr_id s a n : 0 < n → pr_size s a = n → set_hdr s a n = s.
Proof.
  intros Hn Ha. destruct s. unfold set_hdr, pr_size in *. simpl in *. f_equal.
  destruct (hdr0 !! a) as [v|] eqn:E; simpl in Ha; [|lia]. subst. by apply insert_id.
Qed.

(** A range taken out of its container, with what is known of its neighbours. *)
Lemma inv_pick s bs a :
  wf s bs → a ∈ all_free s →
  ∃ p k, a = page_addr p ∧ pr_size s a = k * page_size ∧ 0 ≤ p ∧ 0 < k < 2 ^ 52 ∧
    inv (remove s a) bs [(page_addr p, k * page_size)] ∧
    ranges s ≡ₚ (page_addr p, k * page_size) :: ranges (remove s a) ∧
    frame s (remove s a) bs ∧
    ∀ x, x ∈ ranges (remove s a) →
      ∃ q l, x = (page_addr q, l * page_size) ∧ 0 < l ∧ (q + l < p ∨ p + k < q).
Proof.
  intros Hwf Ha. pose proof (i_placed _ _ _ Hwf) as Hs.
  assert ((a, pr_size s a) ∈ ranges s) as Har by by apply elem_of_ranges.
  destruct (inv_sized _ _ _ Hwf a Ha) as (k' & Ek' & Hk').
  destruct (i_fits _ _ _ Hwf (a, pr_size s a)) as (p & k & [= -> Ek] & Hp & Hk & Hlim);
    [elem|].
  assert (k' = k) as -> by (unfold page_size in *; lia).
  pose proof (ranges_remove s _ Hs Ha) as Hr. pose proof (inv_remove s bs [] _ Hwf Ha) as Hi.
  rewrite Ek in *. exists p, k.
  split_and!; try done; try lia; [apply frame_hdr, remove_hdr|].
  intros x Hx. destruct (i_fits _ _ _ Hi x) as (q & l & -> & ? & ? & ?); [elem|].
  exists q, l. split_and!; [done..|].
  assert ((page_addr q, l * page_size) ∈ ranges s) as Hxs by (rewrite Hr; elem).
  pose proof (i_coalesced _ _ _ Hwf _ _ Har Hxs) as Hc1.
  pose proof (i_coalesced _ _ _ Hwf _ _ Hxs Har) as Hc2.
  pose proof (i_disj _ _ _ Hi) as Hd. apply pairwise_app in Hd as (_ & _ & Hd).
  specialize (Hd _ (page_addr p, k * page_size) Hx ltac:(elem)).
  rewrite disj_page in Hd. simpl in *. unfold page_addr, page_size in *. lia.
Qed.

Lemma alloc_taken s bs m contiguous a s' :
  wf s bs → 0 < m < 2 ^ 52 →
  alloc true s (m * page_size) contiguous = (Some a, s') → taken s s' bs a (m * page_size).
Proof.
  intros Hwf Hm. unfold alloc.
  destruct (alloc_pick s (m * page_size) contiguous) as [[b s1]|] eqn:Epick; [|done].
  intros [[= ->] <-]%pair_equal_spec.
  apply (alloc_pick_sound s (i_placed _ _ _ Hwf) (inv_sized _ _ _ Hwf) m Hm) in Epick
    as (Ha & Hfit & ->).
  destruct (inv_pick s bs a Hwf Ha) as (p & k & -> & Ek & Hp & Hk & Hi & Hr & Hf & Hfar).
  rewrite remove_pr_size, Ek in *. set (s1 := remove s (page_addr p)) in *.
  destruct (Z.eq_dec k m) as [->|Hne].
  - rewrite Z.ltb_irrefl. apply (inv_take _ _ _ _ false) in Hi as (H1 & H2 & H3 & H4).
    rewrite (set_hdr_id s1) in H1, H2, H3, H4
      by first [unfold page_size; lia|unfold s1; by rewrite remove_pr_size].
    split; [done..|by eapply frame_trans|]. intros i.
    by rewrite H2, (covered_perm _ _ _ Hr), covered_cons.
  - assert (m < k) as Hmk by (unfold page_size in *; lia).
    rewrite (proj2 (Z.ltb_lt _ _)) by (unfold page_size; lia).
    replace (page_addr p + m * page_size) with (page_addr (p + m)) by (unfold page_addr; lia).
    replace (k * page_size - m * page_size) with ((k - m) * page_size) by lia.
    apply inv_split with (j := m) in Hi; [|lia]. apply inv_limbo_swap, inv_put in Hi
      as (Hi & Hr2 & Hf2 & _).
    2:{ intros x (q & l & -> & ? & ?)%Hfar. simpl. unfold page_addr, page_size. lia. }
    apply (inv_take _ _ _ _ false) in Hi as (H1 & H2 & H3 & H4).
    split; [done..|eauto using frame_trans|]. intros i.
    rewrite H2, (covered_perm _ _ _ Hr), (covered_perm _ _ _ Hr2), !covered_cons, !covers_page.
    intuition lia.
Qed.

(** ** Aligned allocation *)

Section Aligned.
Context (s : t) (bs : list (Z * Z)) (Hwf : wf s bs).
Context (m o j : Z) (Hm : 0 < m < 2 ^ 52) (Ho : 0 ≤ o ≤ 1) (Hj : 12 ≤ j < 62).

Local Notation size := (m * page_size).
Local Notation offset := (o * page_size).

Lemma align_down_pages x :
  0 ≤ x → u64 (x * page_size) →
  ∃ y, align_down (x * page_size) (2 ^ j) = y * page_size ∧ (2 ^ j | y * page_size) ∧
       0 ≤ y ≤ x ∧ x * page_size < y * page_size + 2 ^ j.
Proof.
  intros Hx Hu. destruct (align_down_bounds (x * page_size) j) as [[q Hq] Hb]; [done|lia|].
  pose proof (Z.pow_pos_nonneg 2 (j - 12)).
  assert (2 ^ j = 2 ^ (j - 12) * page_size) as Ej.
  { unfold page_size. change 4096 with (2 ^ 12). rewrite <- Z.pow_add_r by lia. f_equal. lia. }
  exists (q * 2 ^ (j - 12)). rewrite Hq in Hb |- *. rewrite Ej in Hb |- *.
  assert (q * (2 ^ (j - 12) * page_size) = q * 2 ^ (j - 12) * page_size) as Eq by lia.
  rewrite Eq in *. split_and!; [done| | | |lia].
  - exists q. lia.
  - assert (-1 < q); [|nia]. unfold page_size in *. nia.
  - unfold page_size in *. lia.
Qed.

(** The shift of a candidate that is large enough. *)
Lemma alignment_shift_fits p k :
  pr_size s (page_addr p) = k * page_size → 0 ≤ p < 2 ^ 32 → 0 < k ≤ 2 ^ 32 → m ≤ k →
  ∃ w, alignment_shift s size offset (2 ^ j) (page_addr p) = w * page_size ∧ 0 ≤ w ∧
    (2 ^ j | page_addr (p + k - m - w) + offset) ∧ w * page_size < 2 ^ j.
Proof.
  intros Hsz Hp Hk Hmk. unfold alignment_shift. rewrite Hsz.
  set (x := phys_mem / page_size + p + k - m + o).
  assert (page_addr p + k * page_size - size + offset = x * page_size) as Ex.
  { unfold x, page_addr. change phys_mem with (phys_mem / page_size * page_size) at 1. lia. }
  assert (0 ≤ x ∧ u64 (x * page_size)) as [Hx Hu].
  { unfold u64, x. change (phys_mem / page_size) with (2 ^ 34). unfold page_size. lia. }
  rewrite Ex, wrap64_small by done.
  destruct (align_down_pages x Hx Hu) as (y & -> & Hdiv & Hy & Hlt).
  exists (x - y). split_and!; [lia..| |lia].
  replace (page_addr (p + k - m - (x - y)) + offset) with (y * page_size); [done|].
  unfold page_addr in *. lia.
Qed.

Lemma alignment_shift_nonneg a : 0 ≤ alignment_shift s size offset (2 ^ j) a.
Proof.
  unfold alignment_shift. set (e := wrap64 _).
  pose proof (align_down_bounds e j (wrap64_u64 _) ltac:(lia)). lia.
Qed.

Lemma for_each_list_all_free lo a : 0 ≤ lo → a ∈ for_each_list s lo → a ∈ all_free s.
Proof.
  intros Hlo Ha. apply elem_of_all_free; [apply Hwf|]. unfold for_each_list in Ha.
  apply elem_of_app in Ha as [Ha|Ha]; [by left|right].
  apply list_elem_of_In, in_concat in Ha as (l & Hl%list_elem_of_In & Hal%list_elem_of_In).
  apply list_elem_of_fmap in Hl as (o' & -> & Ho').
  rewrite elem_of_reverse, elem_of_seqZ in Ho'. exists o'. split; [lia|done].
Qed.

Lemma for_each_list_complete lo a :
  0 ≤ lo → a ∈ all_free s → lo ≤ pr_order s a → a ∈ for_each_list s lo.
Proof.
  intros Hlo Ha Hord. pose proof (i_placed _ _ _ Hwf) as Hs. unfold for_each_list.
  apply elem_of_app. destruct (Z_lt_dec (pr_order s a) max_order) as [Hlt|Hge].
  - right. rewrite list_elem_of_In, in_concat.
    exists (free_list s (pr_order s a)). rewrite <- !list_elem_of_In.
    split; [|by apply all_free_list]. apply list_elem_of_fmap.
    exists (pr_order s a). split; [done|]. rewrite elem_of_reverse, elem_of_seqZ. lia.
  - left. apply all_free_huge; [done..|lia].
Qed.

End Aligned.

Section AlignedBlock.
Context (s : t) (bs : list (Z * Z)).

(** The part of the range above the aligned block goes back. *)
Lemma aligned_tail p k w :
  inv (remove s (page_addr p)) bs [(page_addr p, k * page_size)] →
  pr_size (remove s (page_addr p)) (page_addr p) = k * page_size →
  0 ≤ w → w < k →
  (∀ x, x ∈ ranges (remove s (page_addr p)) →
    ∃ q l, x = (page_addr q, l * page_size) ∧ 0 < l ∧ (q + l < p ∨ p + k < q)) →
  let s1 := remove s (page_addr p) in
  let np := page_addr p + pr_size s1 (page_addr p) - w * page_size in
  let s2 := if w * page_size =? 0 then s1
    else let s := insert true (set_hdr s1 np (w * page_size)) np in
         set_hdr s (page_addr p) (pr_size s (page_addr p) - w * page_size) in
  inv s2 bs [(page_addr p, (k - w) * page_size)] ∧ frame s1 s2 bs ∧
  pr_size s2 (page_addr p) = (k - w) * page_size ∧
  (∀ i, covered (ranges s2) i ↔ p + k - w ≤ i < p + k ∨ covered (ranges s1) i) ∧
  (∀ x, x ∈ ranges s2 →
    ∃ q l, x = (page_addr q, l * page_size) ∧ 0 < l ∧ (q + l < p ∨ p + (k - w) ≤ q)).
Proof.
  intros Hi Hsz Hw Hwk Hfar s1 np s2. unfold s2, np. fold s1 in Hi, Hsz, Hfar. rewrite Hsz.
  destruct (Z.eq_dec w 0) as [->|Hw0].
  { rewrite Z.mul_0_l, Z.eqb_refl, !Z.sub_0_r. split_and!; [done|apply frame_refl|done| |].
    - intros i. intuition lia.
    - intros x (q & l & -> & ? & ?)%Hfar. exists q, l. split_and!; [done..|lia]. }
  rewrite (proj2 (Z.eqb_neq _ 0)) by (unfold page_size; lia).
  replace (page_addr p + k * page_size - w * page_size) with (page_addr (p + (k - w)))
    by (unfold page_addr; lia).
  apply inv_split with (j := k - w) in Hi; [|lia]. replace (k - (k - w)) with w in Hi by lia.
  apply inv_limbo_swap, inv_put in Hi as (Hi & Hr & Hf & _).
  2:{ intros x (q & l & -> & ? & ?)%Hfar. simpl. unfold page_addr, page_size. lia. }
  set (s3 := insert true _ _) in *.
  assert (pr_size s3 (page_addr p) = k * page_size) as Hsz3.
  { unfold s3. rewrite insert_pr_size, pr_size_set_hdr, decide_False; [done|].
    unfold page_addr, page_size. lia. }
  rewrite Hsz3. replace (k * page_size - w * page_size) with ((k - w) * page_size) by lia.
  assert (page_addr p ∉ all_free s3) as Hnin.
  { apply (inv_limbo_notin _ _ _ (page_addr p, (k - w) * page_size) Hi). elem. }
  rewrite ranges_set_hdr by done. split_and!.
  - by apply inv_set_hdr.
  - eapply frame_trans; [exact Hf|]. eapply frame_set_hdr; [exact Hi|left].
  - by rewrite pr_size_set_hdr, decide_True.
  - intros i. rewrite (covered_perm _ _ _ Hr), covered_cons, covers_page. intuition lia.
  - intros x. rewrite Hr, elem_of_cons. intros [->|(q & l & -> & ? & ?)%Hfar].
    + exists (p + (k - w)), w. split_and!; [done|lia..].
    + exists q, l. split_and!; [done..|lia].
Qed.

(** The block is taken from the end of what is left. *)
Lemma aligned_take m s2 p k fill :
  inv s2 bs [(page_addr p, k * page_size)] → pr_size s2 (page_addr p) = k * page_size →
  0 < m ≤ k →
  (∀ x, x ∈ ranges s2 →
    ∃ q l, x = (page_addr q, l * page_size) ∧ 0 < l ∧ (q + l < p ∨ p + k ≤ q)) →
  let '(ret, s3) :=
    if pr_size s2 (page_addr p) =? m * page_size then (page_addr p, s2)
    else
      let s := set_hdr s2 (page_addr p) (pr_size s2 (page_addr p) - m * page_size) in
      let s := insert true s (page_addr p) in
      let ret_header := page_addr p + pr_size s (page_addr p) in
      (ret_header, set_hdr s ret_header (m * page_size)) in
  ret = page_addr (p + k - m) ∧
  let s4 := set_bits s3 ret false fill in
  wf s4 ((ret, m * page_size) :: bs) ∧ pr_size s4 ret = m * page_size ∧ frame s2 s4 bs ∧
  (∀ i, p ≤ i < p + k ∨ covered (ranges s2) i ↔ covers (ret, m * page_size) i ∨ covered (ranges s4) i).
Proof.
  intros Hi Hsz Hmk Hfar. rewrite Hsz. case_if E; breflect.
  - assert (k = m) as -> by (unfold page_size in *; lia).
    split; [f_equal; lia|]. apply (inv_take _ _ _ _ fill) in Hi as (H1 & H2 & H3 & H4).
    rewrite (set_hdr_id s2) in H1, H2, H3, H4 by first [done|unfold page_size; lia].
    split_and!; [done..|]. intros i. rewrite H2, covers_page. done.
  - assert (m < k) by (unfold page_size in *; lia).
    replace (k * page_size - m * page_size) with ((k - m) * page_size) by lia.
    apply inv_split with (j := k - m) in Hi; [|lia]. replace (k - (k - m)) with m in Hi by lia.
    apply inv_put in Hi as (Hi & Hr & Hf & Hsz3).
    2:{ intros x (q & l & -> & ? & ?)%Hfar. simpl. unfold page_addr, page_size. lia. }
    cbv beta iota zeta. rewrite Hsz3. set (s3 := insert true _ _) in *.
    replace (page_addr p + (k - m) * page_size) with (page_addr (p + (k - m)))
      by (unfold page_addr; lia).
    split; [f_equal; lia|]. apply (inv_take _ _ _ _ fill) in Hi as (H1 & H2 & H3 & H4).
    split_and!; [done..|eauto using frame_trans|]. intros i.
    rewrite H2, (covered_perm _ _ _ Hr), covered_cons, !covers_page. intuition lia.
Qed.
End AlignedBlock.

Lemma min_order_nonneg n : 0 ≤ Z.max (ilog2 n) 1 - 1.
Proof. lia. Qed.

Lemma alloc_aligned_taken s bs m o j fill a s' :
  wf s bs → 0 < m < 2 ^ 52 → 0 ≤ o ≤ 1 → 12 ≤ j < 62 →
  alloc_aligned s (m * page_size) (o * page_size) (2 ^ j) fill = (Some a, s') →
  taken s s' bs a (m * page_size) ∧ (2 ^ j | a + o * page_size).
Proof.
  intros Hwf Hm Ho Hj. unfold alloc_aligned.
  destruct (list_find _ _) as [[i h]|] eqn:Ef; [|done].
  apply list_find_Some in Ef as (Hh & Hfit & _).
  apply list_elem_of_lookup_2, (for_each_list_all_free s bs Hwf) in Hh; [|apply min_order_nonneg].
  pose proof (alignment_shift_nonneg s m o j Hj h) as Hnn.
  destruct (inv_pick s bs h Hwf Hh) as (p & k & -> & Ek & Hp & Hk & Hi & Hr & Hf & Hfar).
  destruct (i_fits _ _ _ Hwf (page_addr p, pr_size s (page_addr p)))
    as (p' & k' & [= E1 E2] & _ & _ & Hlim).
  { apply elem_of_app. left. by apply elem_of_ranges. }
  assert (p' = p ∧ k' = k) as [-> ->] by (unfold page_addr, page_size in *; lia).
  pose proof (i_lim _ _ _ Hwf) as Hlim2. rewrite Ek in Hfit.
  destruct (alignment_shift_fits s m o j Hm Ho Hj p k) as (w & Ew & Hw & Hdiv & _);
    [done|lia|lia|unfold page_size in *; lia|].
  rewrite Ew in *.
  destruct (aligned_tail s bs p k w) as (Hi2 & Hf2 & Hsz2 & Hc2 & Hfar2);
    [done|by rewrite remove_pr_size|lia|unfold page_size in *; lia|done|].
  set (s2 := if w * page_size =? 0 then _ else _) in *.
  pose proof (aligned_take bs m s2 p (k - w) fill Hi2 Hsz2) as Ht.
  destruct (if pr_size s2 (page_addr p) =? m * page_size then _ else _) as [ret s3].
  destruct Ht as (-> & H1 & H2 & H3 & H4); [unfold page_size in *; lia|done|].
  intros [[= <-] <-]%pair_equal_spec. split.
  - split; [done..|eauto using frame_trans|]. intros i'. rewrite <- H4, Hc2.
    rewrite (covered_perm _ _ _ Hr), covered_cons, covers_page. 
    assert (p ≤ i' < p + k ↔ p ≤ i' < p + (k - w) ∨ p + k - w ≤ i' < p + k) as ->; [|tauto].
    clear -Hfit Hw Hm. unfold page_size in *. lia.
  - replace (p + (k - w) - m) with (p + k - m - w) by lia. done.
Qed.

(** An aligned allocation fails only when no free range has room for an aligned
    block. *)
Lemma alloc_aligned_complete s bs m o j fill s' :
  wf s bs → 0 < m < 2 ^ 52 → 0 ≤ o ≤ 1 → 12 ≤ j < 62 →
  alloc_aligned s (m * page_size) (o * page_size) (2 ^ j) fill = (None, s') →
  s' = s ∧
  ∀ x r, x ∈ ranges s → x.1 ≤ r → r + m * page_size ≤ x.1 + x.2 →
         ¬ (2 ^ j | r + o * page_size).
Proof.
  intros Hwf Hm Ho Hj. unfold alloc_aligned.
  destruct (list_find _ _) as [[i h]|] eqn:Ef; [case_if E; done|].
  intros [_ <-]%pair_equal_spec. split; [done|]. intros x r Hx Hlo Hhi Hdiv.
  apply elem_of_ranges in Hx as [Ha Hn]. destruct x as [a n]. simpl in *. subst n.
  destruct (i_fits _ _ _ Hwf (a, pr_size s a)) as (p & k & [= -> Ek] & Hp & Hk & Hlim).
  { apply elem_of_app. left. by apply elem_of_ranges. }
  pose proof (i_lim _ _ _ Hwf) as Hlim2. rewrite Ek in *.
  assert (m ≤ k) as Hmk by (unfold page_size in *; lia).
  destruct (alignment_shift_fits s m o j Hm Ho Hj p k) as (w & Ew & Hw & Hdw & Hlt); [done|lia..|].
  apply list_find_None in Ef. rewrite Forall_forall in Ef.
  assert (page_addr p ∈ for_each_list s (Z.max (ilog2 (m * page_size / page_size)) 1 - 1)) as Hin.
  { apply (for_each_list_complete s bs Hwf); [apply min_order_nonneg|done|].
    rewrite Z.div_mul, ilog2_log2 by (done || unfold u64; lia).
    rewrite (pr_order_log2 s _ k) by (done || lia).
    pose proof (Z.log2_le_mono m k Hmk). pose proof (Z.log2_nonneg k). lia. }
  specialize (Ef _ Hin). simpl in Ef. rewrite Ew, Ek in Ef.
  (* the aligned end of the range is the highest one, and the block at [r] is above it *)
  destruct Hdiv as [u Hu]. destruct Hdw as [v Hv].
  assert (u * 2 ^ j ≤ v * 2 ^ j) by (apply Z.mul_le_mono_nonneg_r; [lia|];
    assert (u < v + 1); [|lia]; apply (Z.mul_lt_mono_pos_r (2 ^ j)); [lia|];
    unfold page_addr in *; lia).
  unfold page_addr, page_size in *. lia.
Qed.

(** ** Freeing *)

(** A set bit next to a block in limbo belongs to the free range that ends or
    starts there. *)
Lemma inv_neighbour s bs p k lm i :
  inv s bs ((page_addr p, k * page_size) :: lm) → lm = [] → 0 ≤ i → i = p - 1 ∨ i = p + k →
  get_bit s i = true →
  ∃ q l, (page_addr q, l * page_size) ∈ ranges s ∧ 0 < l ∧
    (i = p - 1 → q + l = p) ∧ (i = p + k → q = p + k).
Proof.
  intros Hi -> Hpos Hip Hb.
  destruct (i_fits _ _ _ Hi (page_addr p, k * page_size)) as (p' & k' & [= E1 E2] & ? & ? & ?);
    [elem|].
  assert (p' = p ∧ k' = k) as [-> ->] by (unfold page_addr, page_size in *; lia).
  destruct (i_bits_covered _ _ _ Hi i Hpos Hb) as (x & Hx & Hc).
  destruct (i_fits _ _ _ Hi x Hx) as (q & l & -> & ? & ? & ?). rewrite covers_page in Hc.
  rewrite (assoc_L (++)) in Hx. apply elem_of_app in Hx as [Hx|Hx].
  2:{ apply list_elem_of_singleton in Hx. simplify_eq.
      assert (q = p ∧ l = k) as [-> ->] by (unfold page_addr, page_size in *; lia). lia. }
  pose proof (i_disj _ _ _ Hi) as Hd. rewrite (assoc_L (++)) in Hd.
  apply pairwise_app in Hd as (_ & _ & Hd).
  specialize (Hd _ (page_addr p, k * page_size) Hx ltac:(elem)). rewrite disj_page in Hd.
  apply elem_of_app in Hx as [Hx|Hx]; [exists q, l; split_and!; [done..|lia|lia]|].
  exfalso. destruct (i_bits_block _ _ _ Hi _ Hx) as [Hb1 Hb2]. simpl in *.
  rewrite page_no_end, page_no_addr in *.
  assert (i = q ∨ i = q + l - 1) as [-> | ->] by lia; congruence.
Qed.

(** The bits at the ends of a free range are set. *)
Lemma inv_end_bits s bs lm q l :
  inv s bs lm → (page_addr q, l * page_size) ∈ ranges s →
  get_bit s q = true ∧ get_bit s (q + l - 1) = true.
Proof.
  intros Hi Hx. pose proof (i_bits_free _ _ _ Hi _ Hx) as Hb. simpl in Hb.
  by rewrite page_no_end, page_no_addr in Hb.
Qed.

Section Free.
Context (s : t) (bs : list (Z * Z)) (p k : Z).
Context (Hi : inv s bs [(page_addr p, k * page_size)]).
Context (Hsz : pr_size s (page_addr p) = k * page_size).

Local Lemma free_range : 0 ≤ p ∧ 0 < k ∧ p + k ≤ Z.of_nat (length (bitmap s)).
Proof.
  destruct (i_fits _ _ _ Hi (page_addr p, k * page_size)) as (p' & k' & [= E1 E2] & ? & ? & ?);
    [elem|].
  assert (p' = p ∧ k' = k) as [-> ->] by (unfold page_addr, page_size in *; lia). lia.
Qed.

Local Lemma ranges_pages x :
  x ∈ ranges s → ∃ q l, x = (page_addr q, l * page_size) ∧ 0 ≤ q ∧ 0 < l ∧
                        (q + l ≤ p ∨ p + k ≤ q).
Proof.
  intros Hx. destruct (i_fits _ _ _ Hi x) as (q & l & -> & ? & ? & ?); [elem|].
  exists q, l. split_and!; [done..|]. pose proof (i_disj _ _ _ Hi) as Hd.
  apply pairwise_app in Hd as (_ & _ & Hd).
  specialize (Hd _ (page_addr p, k * page_size) Hx ltac:(elem)). rewrite disj_page in Hd. lia.
Qed.

(** Merging with the free range that ends at the block. *)
Lemma free_merge_prev_spec :
  let '(pr, s') := free_merge_prev s (page_addr p) in
  ∃ q l, pr = page_addr q ∧ q + l = p + k ∧ q ≤ p ∧
    inv s' bs [(page_addr q, l * page_size)] ∧ pr_size s' pr = l * page_size ∧
    frame s s' bs ∧
    (∀ i, q ≤ i < q + l ∨ covered (ranges s') i ↔ p ≤ i < p + k ∨ covered (ranges s) i) ∧
    (∀ x, x ∈ ranges s' → x ∈ ranges s) ∧
    (∀ x, x ∈ ranges s' → x.1 + x.2 ≠ page_addr q).
Proof.
  pose proof free_range as (Hp & Hk & Hlim). pose proof (i_lim _ _ _ Hi) as Hlim2.
  unfold free_merge_prev. rewrite get_bitmap_idx_page by lia.
  destruct (negb (p =? 0) && get_bit s (p - 1)) eqn:E; breflect.
  - destruct (inv_neighbour s bs p k [] (p - 1) Hi) as (q & l & Hx & Hl & Hql & _);
      [done|lia|lia|done|]. specialize (Hql eq_refl).
    pose proof (proj1 (elem_of_ranges s _) Hx) as [Hqa Hqs]. simpl in Hqa, Hqs.
    pose proof (i_tails _ _ _ Hi _ Hqa) as Ht. rewrite <- Hqs in Ht.
    replace (page_addr q + l * page_size - 8) with (page_addr p - 8) in Ht
      by (unfold page_addr; lia).
    rewrite Ht. simpl default.
    pose proof (ranges_remove s _ (i_placed _ _ _ Hi) Hqa) as Hr. rewrite <- Hqs in Hr.
    pose proof (inv_remove _ _ _ _ Hi Hqa) as Hi2. rewrite <- Hqs in Hi2.
    rewrite !remove_pr_size, <- Hqs, Hsz. set (s1 := remove s (page_addr q)) in *.
    replace p with (q + l) in Hi2 by lia. apply inv_join in Hi2.
    assert (page_addr q ∉ all_free s1) as Hnin.
    { apply (inv_limbo_notin _ _ _ (page_addr q, (l + k) * page_size) Hi2). elem. }
    replace (l * page_size + k * page_size) with ((l + k) * page_size) by lia.
    assert (∀ x, x ∈ ranges s1 → x ∈ ranges s) as Hsub by (intros x Hx1; rewrite Hr; elem).
    exists q, (l + k). rewrite ranges_set_hdr by done.
    split_and!; [done|lia|lia|by apply inv_set_hdr|by rewrite pr_size_set_hdr, decide_True| | |done|].
    + eapply frame_trans; [apply frame_hdr, remove_hdr|].
      eapply frame_set_hdr; [exact Hi2|left].
    + intros i. rewrite (covered_perm _ _ _ Hr), covered_cons, covers_page. intuition lia.
    + intros x Hx1. apply (i_coalesced _ _ _ Hi x _ (Hsub x Hx1) Hx).
  - exists p, k. split_and!; [done|lia|lia|done..|apply frame_refl|done|done|].
    intros x Hx Hend. destruct (ranges_pages x Hx) as (q & l & -> & ? & ? & ?). simpl in Hend.
    assert (q + l = p) as Eql by (unfold page_addr, page_size in *; lia).
    destruct (inv_end_bits _ _ _ _ _ Hi Hx) as [_ Hb]. rewrite Eql in Hb.
    rewrite Hb, andb_true_r in E. breflect. lia.
Qed.

(** Merging with the free range that starts at its end. *)
Lemma free_merge_next_spec :
  let s' := free_merge_next s (page_addr p) in
  ∃ l, k ≤ l ∧ inv s' bs [(page_addr p, l * page_size)] ∧
    pr_size s' (page_addr p) = l * page_size ∧ frame s s' bs ∧
    (∀ i, p ≤ i < p + l ∨ covered (ranges s') i ↔ p ≤ i < p + k ∨ covered (ranges s) i) ∧
    (∀ x, x ∈ ranges s' → x ∈ ranges s) ∧
    (∀ x, x ∈ ranges s' → page_addr p + l * page_size ≠ x.1).
Proof.
  pose proof free_range as (Hp & Hk & Hlim). pose proof (i_lim _ _ _ Hi) as Hlim2.
  unfold free_merge_next. rewrite get_bitmap_idx_page, Hsz, Z.div_mul by (done || lia).
  destruct ((p + k <? Z.of_nat (length (bitmap s))) && get_bit s (p + k)) eqn:E; breflect.
  - destruct (inv_neighbour s bs p k [] (p + k) Hi) as (q & l & Hx & Hl & _ & Hq);
      [done|lia|lia|done|]. specialize (Hq eq_refl). subst q.
    pose proof (proj1 (elem_of_ranges s _) Hx) as [Hqa Hqs]. simpl in Hqa, Hqs.
    replace (page_addr p + k * page_size) with (page_addr (p + k)) by (unfold page_addr; lia).
    pose proof (ranges_remove s _ (i_placed _ _ _ Hi) Hqa) as Hr. rewrite <- Hqs in Hr.
    pose proof (inv_remove _ _ _ _ Hi Hqa) as Hi2. rewrite <- Hqs in Hi2.
    cbv zeta. rewrite !remove_pr_size, <- Hqs, Hsz. set (s1 := remove s (page_addr (p + k))) in *.
    apply inv_limbo_swap, inv_join in Hi2.
    assert (page_addr p ∉ all_free s1) as Hnin.
    { apply (inv_limbo_notin _ _ _ (page_addr p, (k + l) * page_size) Hi2). elem. }
    replace (k * page_size + l * page_size) with ((k + l) * page_size) by lia.
    assert (∀ x, x ∈ ranges s1 → x ∈ ranges s) as Hsub by (intros x Hx1; rewrite Hr; elem).
    exists (k + l). rewrite ranges_set_hdr by done.
    split_and!; [lia|by apply inv_set_hdr|by rewrite pr_size_set_hdr, decide_True| | |done|].
    + eapply frame_trans; [apply frame_hdr, remove_hdr|].
      eapply frame_set_hdr; [exact Hi2|left].
    + intros i. rewrite (covered_perm _ _ _ Hr), covered_cons, covers_page. intuition lia.
    + intros x Hx1 Ex. apply (i_coalesced _ _ _ Hi _ x Hx (Hsub x Hx1)). simpl.
      rewrite <- Ex. unfold page_addr. lia.
  - exists k. split_and!; [lia|done..|apply frame_refl|done|done|].
    intros x Hx Hend. destruct (i_fits _ _ _ Hi x) as (q & l & -> & ? & ? & ?); [elem|].
    simpl in Hend. assert (q = p + k) as -> by (unfold page_addr, page_size in *; lia).
    destruct (inv_end_bits _ _ _ _ _ Hi Hx) as [Hb _].
    rewrite Hb, andb_true_r in E. breflect. lia.
Qed.
End Free.

Lemma free_released s bs p k :
  wf s ((page_addr p, k * page_size) :: bs) → pr_size s (page_addr p) = k * page_size →
  let s' := free s (page_addr p) in
  wf s' bs ∧ frame s s' bs ∧
  ∀ i, covered (ranges s') i ↔ covers (page_addr p, k * page_size) i ∨ covered (ranges s) i.
Proof.
  intros Hwf Hsz s'. apply inv_unblock in Hwf as Hi. unfold s', free.
  pose proof (free_merge_prev_spec s bs p k Hi Hsz) as Hprev.
  destruct (free_merge_prev s (page_addr p)) as [pr s1].
  destruct Hprev as (q & l & -> & Hql & Hq & Hi1 & Hsz1 & Hf1 & Hc1 & Hsub1 & Hadj1).
  destruct (free_merge_next_spec s1 bs q l Hi1 Hsz1) as (l2 & Hl2 & Hi2 & Hsz2 & Hf2 & Hc2 & Hsub2 & Hadj2).
  set (s2 := free_merge_next s1 (page_addr q)) in *.
  pose proof (ranges_insert true s2 (page_addr q) (i_placed _ _ _ Hi2)) as Hr.
  split_and!.
  - eapply inv_insert; [exact Hi2|done|]. intros x Hx. split; [by apply Hadj1, Hsub2|by apply Hadj2].
  - eauto using frame_trans, frame_hdr, insert_hdr.
  - intros i. rewrite (covered_perm _ _ _ Hr), covered_cons, Hsz2, !covers_page, Hc2, Hc1. done.
Qed.

(** ** A first range *)

(** The allocator with a clear bitmap of [n] bits and no free range. *)
Definition cleared (n : nat) : t := set_bitmap empty (replicate n false).

Lemma inv_cleared n x :
  Z.of_nat n ≤ 2 ^ 32 → fits (Z.of_nat n) x → inv (cleared n) [] [x].
Proof.
  intros Hn Hx.
  assert (ranges (cleared n) = []) as Hr by done.
  assert (∀ i, get_bit (cleared n) i = false) as Hb.
  { intros i. unfold get_bit. simpl. destruct (replicate n false !! Z.to_nat i) eqn:E; [|done].
    by apply lookup_replicate in E as [-> _]. }
  split; rewrite ?Hr; simpl; rewrite ?length_replicate; try done.
  - by apply (placed_ext empty); [..|apply placed_empty].
  - intros y Hy. by apply list_elem_of_singleton in Hy as ->.
  - intros y z Hy. by apply not_elem_of_nil in Hy.
  - intros y Hy. by apply not_elem_of_nil in Hy.
  - intros y Hy. by apply not_elem_of_nil in Hy.
  - intros i _. by rewrite Hb.
Qed.

(** One free range of [k] pages from page [p]. *)
Definition one_range (n : nat) (p k : Z) : t :=
  insert true (set_hdr (cleared n) (page_addr p) (k * page_size)) (page_addr p).

Lemma one_range_wf n p k :
  Z.of_nat n ≤ 2 ^ 32 → 0 ≤ p → 0 < k → p + k ≤ Z.of_nat n →
  wf (one_range n p k) [] ∧ ranges (one_range n p k) ≡ₚ [(page_addr p, k * page_size)].
Proof.
  intros. assert (inv (cleared n) [] [(page_addr p, k * page_size)]) as Hi.
  { apply inv_cleared; [done|]. by exists p, k. }
  apply inv_put in Hi as (? & ? & _); [done|]. intros x Hx. by apply not_elem_of_nil in Hx.
Qed.

(** ** Pages of a block *)

(** The [n] single pages of a block. *)
Definition page_blocks (a : Z) (n : nat) : list (Z * Z) :=
  (λ i, (a + i * page_size, page_size)) <$> seqZ 0 (Z.of_nat n).

Lemma page_blocks_elem p n x :
  x ∈ page_blocks (page_addr p) n ↔ ∃ i, x = (page_addr i, page_size) ∧ p ≤ i < p + Z.of_nat n.
Proof.
  unfold page_blocks. rewrite list_elem_of_fmap. setoid_rewrite elem_of_seqZ. split.
  - intros (i & -> & Hi). exists (p + i). split; [unfold page_addr; f_equal; lia|lia].
  - intros (i & -> & Hi). exists (i - p). split; [unfold page_addr; f_equal; lia|lia].
Qed.

Lemma page_blocks_disj p n : pairwise disj (page_blocks (page_addr p) n).
Proof.
  unfold page_blocks. generalize 0 as z. induction n as [|n IH]; intros z.
  - done.
  - rewrite Nat2Z.inj_succ. rewrite seqZ_cons by lia. rewrite Z.pred_succ. simpl. split; [|by apply IH].
    rewrite Forall_forall. intros x. rewrite list_elem_of_fmap. intros (i & -> & Hi).
    apply elem_of_seqZ in Hi. unfold disj, page_size. simpl. lia.
Qed.

(** A block none of whose bits is set is as good as its pages. *)
Lemma wf_split_block s p n bs :
  wf s ((page_addr p, Z.of_nat n * page_size) :: bs) →
  (∀ i, p ≤ i < p + Z.of_nat n → get_bit s i = false) →
  wf s (page_blocks (page_addr p) n ++ bs).
Proof.
  intros Hwf Hbits.
  destruct (i_fits _ _ _ Hwf (page_addr p, Z.of_nat n * page_size))
    as (p' & k' & [= E1 E2] & ? & ? & ?); [elem|].
  assert (p' = p ∧ k' = Z.of_nat n) as [-> ->] by (unfold page_addr, page_size in *; lia).
  pose proof (inv_unblock _ _ _ _ Hwf) as Hi.
  assert (inv s bs (page_blocks (page_addr p) n)) as Hi2.
  { eapply inv_limbo; [exact Hi| | |apply page_blocks_disj].
    - intros x (i & -> & Hi2)%page_blocks_elem. exists i, 1. split_and!; [f_equal; lia|lia..].
    - intros i. rewrite covered_cons, covered_nil, covers_page. split.
      + intros (x & (j & -> & Hj)%page_blocks_elem & Hc).
        unfold covers, page_addr, page_size in Hc. simpl in Hc. lia.
      + intros [Hc|[]]. exists (page_addr i, page_size). split; [apply page_blocks_elem; eauto|].
        unfold covers, page_size. simpl. lia. }
  assert (ranges s ++ (page_blocks (page_addr p) n ++ bs) ++ [] ≡ₚ
          ranges s ++ bs ++ page_blocks (page_addr p) n) as Hall.
  { by rewrite app_nil_r, (comm (++) bs). }
  destruct Hi2. split; try done.
  - intros x. rewrite Hall. auto.
  - eapply (pairwise_perm _ _ _ disj_sym); [symmetry; exact Hall|done].
  - intros x [(j & -> & Hj)%page_blocks_elem|Hx]%elem_of_app; [|by auto]. simpl.
    rewrite <- (Z.mul_1_l page_size), page_no_end, page_no_addr, Z.add_simpl_r.
    split; by apply Hbits.
  - intros i Hpos Hb. eapply covered_mono; [|by apply i_bits_covered0]. intros x. by rewrite Hall.
Qed.

Lemma set_bits_length s a v fill : length (bitmap (set_bits s a v fill)) = length (bitmap s).
Proof.
  unfold set_bits. destruct fill; [|simpl; by rewrite !length_insert].
  generalize (seqZ 0 (pr_size s a / page_size - 1 + 1)). intros l. revert s.
  induction l as [|y l IH]; intros; simpl; [done|]. rewrite IH. simpl. by rewrite length_insert.
Qed.

Lemma alloc_aligned_bits s bs m o j a s' :
  wf s bs → 0 < m < 2 ^ 52 → 0 ≤ o ≤ 1 → 12 ≤ j < 62 →
  alloc_aligned s (m * page_size) (o * page_size) (2 ^ j) true = (Some a, s') →
  ∀ i, covers (a, m * page_size) i → get_bit s' i = false.
Proof.
  intros Hwf Hm Ho Hj Hall i Hc.
  destruct (alloc_aligned_taken s bs m o j true a s') as [[Hwf' Hsz' Hf' Hp'] _]; [done..|].
  destruct (i_fits _ _ _ Hwf' (a, m * page_size)) as (p & k & [= -> E] & Hp & Hk & Hl); [elem|].
  assert (k = m) as -> by (unfold page_size in *; lia). rewrite covers_page in Hc.
  pose proof (i_lim _ _ _ Hwf') as Hlim. revert Hall Hsz' Hl Hlim. clear - Hp Hk Hc Hm.
  unfold alloc_aligned. destruct (list_find _ _) as [[? h]|]; [|done].
  match goal with |- context [let '(_, _) := ?e in _] => destruct e as [ret s3] end.
  intros [[= ->] <-]%pair_equal_spec Hsz Hl Hlim.
  rewrite set_bits_pr_size in Hsz.
  rewrite set_bits_length in Hl, Hlim.
  destruct (set_bits_bitmap s3 p m false true) as [_ Hb]; [done|lia..|].
  rewrite Hb, decide_True by lia. done.
Qed.

Lemma alloc_none s bs m contiguous s' :
  wf s bs → 0 < m < 2 ^ 52 →
  alloc true s (m * page_size) contiguous = (None, s') →
  s' = s ∧ (contiguous = true → ∀ x, x ∈ ranges s → x.2 < m * page_size).
Proof.
  intros Hwf Hm Hall.
  unfold alloc in Hall. destruct (alloc_pick _ _ _) as [[]|] eqn:E; [by case_if E' in Hall|].
  apply pair_equal_spec in Hall as [_ <-]. split; [done|]. intros -> [a n] [Ha ->]%elem_of_ranges.
  by eapply (alloc_pick_complete s (i_placed _ _ _ Hwf) (inv_sized _ _ _ Hwf) m Hm).
Qed.

Lemma wf_empty : wf empty [].
Proof.
  assert (ranges empty = []) as Hr by done.
  split; rewrite ?Hr; try done; try (intros x Hx; by apply not_elem_of_nil in Hx).
  - apply placed_empty.
  - intros x y Hx. by apply not_elem_of_nil in Hx.
Qed.

(** ** Properties *)


Definition ex0 : t := one_range 64 3 50.

Lemma ex0_wf : wf ex0 [].
Proof. apply one_range_wf; lia. Qed.


(** C4: an aligned allocation returns a block of the requested size, made of free
    pages only, whose address plus the offset is a multiple of the alignment; it
    fails only when no free range has room for such a block. *)
Theorem alloc_aligned_correct s bs m o j fill r s' :
  wf s bs → 0 < m < 2 ^ 52 → 0 ≤ o ≤ 1 → 12 ≤ j < 62 →
  alloc_aligned s (m * page_size) (o * page_size) (2 ^ j) fill = (r, s') →
  match r with
  | Some a => taken s s' bs a (m * page_size) ∧ (2 ^ j | a + o * page_size)
  | None => s' = s ∧ ∀ x b, x ∈ ranges s → x.1 ≤ b → b + m * page_size ≤ x.1 + x.2 →
              ¬ (2 ^ j | b + o * page_size)
  end.
Proof.
  intros ???? Hall. destruct r; [by eapply alloc_aligned_taken|by eapply alloc_aligned_complete].
Qed.

Lemma alloc_aligned_correct_witness :
  (2 ^ 15 | page_addr 39 + 1 * page_size).
Proof.
  apply (alloc_aligned_correct ex0 [] 8 1 15 false (Some (page_addr 39))
    (alloc_aligned ex0 (8 * page_size) (1 * page_size) (2 ^ 15) false).2);
    [apply ex0_wf|lia..|]. vm_compute. reflexivity.
Defined.

(** C5: freeing a block gives exactly its pages back, merges them with the free
    ranges on both sides (no two free ranges are adjacent afterwards, as the
    invariant says), and leaves the headers of the other blocks alone. *)
Theorem free_correct s bs p k :
  wf s ((page_addr p, k * page_size) :: bs) → pr_size s (page_addr p) = k * page_size →
  let s' := free s (page_addr p) in
  wf s' bs ∧ coalesced (ranges s') ∧ frame s s' bs ∧
  ∀ i, covered (ranges s') i ↔ covers (page_addr p, k * page_size) i ∨ covered (ranges s) i.
Proof.
  intros Hwf Hsz s'. destruct (free_released s bs p k Hwf Hsz) as (H1 & H2 & H3).
  split_and!; [done|apply H1|done..].
Qed.

Definition ex1 : t := (alloc true ex0 (5 * page_size) true).2.

Lemma free_correct_witness : coalesced (ranges (free ex1 (page_addr 3))).
Proof.
  assert (wf ex1 [(page_addr 3, 5 * page_size)]) as Hwf.
  { apply (alloc_taken ex0 [] 5 true); [apply ex0_wf|lia|]. vm_compute. reflexivity. }
  apply (free_correct ex1 [] 3 5 Hwf). vm_compute. reflexivity.
Defined.

(** an allocation followed by the release of its block restores the set of
    free pages, and the blocks in use keep their headers. *)
Theorem alloc_free_roundtrip s bs m contiguous a s' :
  wf s bs → 0 < m < 2 ^ 52 →
  alloc true s (m * page_size) contiguous = (Some a, s') →
  let s2 := free s' a in
  wf s2 bs ∧ frame s s2 bs ∧ ∀ i, covered (ranges s2) i ↔ covered (ranges s) i.
Proof.
  intros Hwf Hm Hall s2. destruct (alloc_taken _ _ _ _ _ _ Hwf Hm Hall) as [H1 H2 H3 H4].
  destruct (i_fits _ _ _ H1 (a, m * page_size)) as (p & k & [= -> E] & _); [elem|].
  rewrite E in *. destruct (free_released s' bs p k) as (F1 & F2 & F3); [done..|].
  split_and!; [done|by eapply frame_trans|]. intros i. unfold s2. by rewrite F3, <- H4.
Qed.

Lemma alloc_free_roundtrip_witness :
  wf (free ex1 (page_addr 3)) [].
Proof.
  apply (alloc_free_roundtrip ex0 [] 5 true (page_addr 3) ex1); [apply ex0_wf|lia|].
  vm_compute. reflexivity.
Defined.

(** a huge page ([fill] set) may be given back page by page: after the
    allocation the invariant also holds with its single pages as the blocks in
    use. *)
Theorem huge_page_pieces s bs n j a s' :
  wf s bs → 0 < Z.of_nat n < 2 ^ 52 → 12 ≤ j < 62 →
  alloc_aligned s (Z.of_nat n * page_size) 0 (2 ^ j) true = (Some a, s') →
  wf s' (page_blocks a n ++ bs).
Proof.
  intros Hwf Hn Hj Hall. rewrite <- (Z.mul_0_l page_size) in Hall.
  destruct (alloc_aligned_taken s bs (Z.of_nat n) 0 j true a s') as [[Hwf' _ _ _] _]; [done..|].
  pose proof (alloc_aligned_bits s bs _ 0 j a s' Hwf Hn ltac:(lia) Hj Hall) as Hb.
  destruct (i_fits _ _ _ Hwf' (a, Z.of_nat n * page_size)) as (p & k & [= -> E] & _); [elem|].
  apply wf_split_block; [done|]. intros i Hi. apply Hb. by rewrite covers_page.
Qed.

Lemma huge_page_pieces_witness :
  wf (alloc_aligned ex0 (4 * page_size) 0 (2 ^ 14) true).2 (page_blocks (page_addr 48) 4 ++ []).
Proof.
  apply (huge_page_pieces ex0 [] 4 14); [apply ex0_wf|lia..|]. vm_compute. reflexivity.
Defined.
