(* ===== verification/Memory.v ===== *)
(** * Free memory: accounting and the initial ranges

    The counters [total_memory], [free_memory] and [watermark_lo] of
    [core/mempool.cc], the bitmap of the page range allocator as the storage it
    takes from the allocator itself, and the addition of the memory found at
    boot.  The theorems show that the allocator's invariant survives the growth
    of its own bitmap and that [free_memory] is the number of bytes in the free
    ranges. *)
From S2P Require Import Prelude Bits MemArea PageRange PageRangeSpec.
Import PageRanges.

Module Memory.

(** [pra] is [free_page_ranges]; [bm_buf] and [bm_cap] are the address and the
    capacity, in 64-bit blocks, of the storage of its [_bitmap], and
    [deferred_free] its field of that name (0 is the null pointer).  [wakes]
    counts the calls of [reclaimer_thread.wake()]. *)
Record mem := mkMem {
  pra : t;
  bm_buf : Z;
  bm_cap : Z;
  deferred_free : Z;
  total_memory : Z;
  free_memory : Z;
  watermark_lo : Z;
  wakes : Z;
}.

Definition initial : mem := mkMem empty 0 0 0 0 0 0 0.

Definition set_pra (m : mem) (s : t) : mem :=
  mkMem s (bm_buf m) (bm_cap m) (deferred_free m) (total_memory m) (free_memory m)
    (watermark_lo m) (wakes m).
Definition set_buf (m : mem) (b c : Z) : mem :=
  mkMem (pra m) b c (deferred_free m) (total_memory m) (free_memory m)
    (watermark_lo m) (wakes m).
Definition set_deferred (m : mem) (d : Z) : mem :=
  mkMem (pra m) (bm_buf m) (bm_cap m) d (total_memory m) (free_memory m)
    (watermark_lo m) (wakes m).
Definition set_free_memory (m : mem) (f : Z) : mem :=
  mkMem (pra m) (bm_buf m) (bm_cap m) (deferred_free m) (total_memory m) f
    (watermark_lo m) (wakes m).
Definition set_total (m : mem) (t w : Z) : mem :=
  mkMem (pra m) (bm_buf m) (bm_cap m) (deferred_free m) t (free_memory m) w (wakes m).

(** [reclaimer::wake]. *)
Definition wake (m : mem) : mem :=
  mkMem (pra m) (bm_buf m) (bm_cap m) (deferred_free m) (total_memory m) (free_memory m)
    (watermark_lo m) (wakes m + 1).

(** ** Counters *)

Definition on_free (m : mem) (n : Z) : mem :=
  set_free_memory m (wrap64 (free_memory m + n)).

Definition on_alloc (m : mem) (n : Z) : mem :=
  let m := set_free_memory m (wrap64 (free_memory m - n)) in
  if free_memory m <? watermark_lo m then wake m else m.

Definition on_new_memory (m : mem) (n : Z) : mem :=
  let total := wrap64 (total_memory m + n) in
  set_total m total (wrap64 (total * 10) / 100).

Definition max_no_reclaim (m : mem) : Z := wrap64 (total_memory m - watermark_lo m).

Inductive pressure := RELAXED | NORMAL | PRESSURE | EMERGENCY.

Definition pressure_level (m : mem) : pressure :=
  if free_memory m <? watermark_lo m then PRESSURE else NORMAL.

(** The result is an [ssize_t]. *)
Definition bytes_until_normal (m : mem) (curr : pressure) : Z :=
  match curr with
  | PRESSURE => signed64 (wrap64 (watermark_lo m - free_memory m))
  | _ => 0
  end.

(** ** The bitmap's storage *)

(** [get_size] for [n] 64-bit blocks. *)
Definition get_size (n : Z) : Z := align_up (8 * n) page_size.

Definition bitmap_allocate (m : mem) (n : Z) : option Z * mem :=
  let size := get_size n in
  let m := on_alloc m size in
  let '(r, s) := alloc false (pra m) size true in
  (r, set_pra m s).

(** The assertion that no other range is deferred is the [option]. *)
Definition bitmap_deallocate (m : mem) (p n : Z) : option mem :=
  let size := get_size n in
  let m := on_free m size in
  let m := set_pra m (set_hdr (pra m) p size) in
  if deferred_free m =? 0 then Some (set_deferred m p) else None.

(** [_bitmap.reset(); _bitmap.resize(idx)]: the blocks live in a
    [std::vector] with the allocator above.  [grow] is the vector's growth
    policy: the capacity it asks for, from its size, its capacity and the number
    of blocks it needs.  [None] is the
    write through the null pointer that a failed allocation gives, or the
    assertion. *)
Section Resize.
Variable grow : Z → Z → Z → Z.

Definition num_blocks (bits : Z) : Z := (bits + 63) / 64.

Definition bitmap_resize (m : mem) (idx : Z) : option mem :=
  let n := num_blocks idx in
  let clear m := set_pra m (set_bitmap (pra m) (replicate (Z.to_nat idx) false)) in
  if bm_cap m <? n then
    let cap := grow (num_blocks (Z.of_nat (length (bitmap (pra m))))) (bm_cap m) n in
    match bitmap_allocate m cap with
    | (None, _) => None
    | (Some p, m1) =>
        m2 ← (if bm_cap m1 =? 0 then Some m1 else bitmap_deallocate m1 (bm_buf m1) (bm_cap m1));
        Some (clear (set_buf m2 p cap))
    end
  else Some (clear m).

(** The walk [for_each] with [set_bits(pr, true)]. *)
Definition set_all_bits (s : t) : t :=
  fold_left (λ s pr, set_bits s pr true false) (for_each_list s 0) s.

Definition initial_merge (s : t) (pr : Z) : Z * t :=
  let prev_idx := wrap32 (get_bitmap_idx pr - 1) in
  if (prev_idx <? Z.of_nat (length (bitmap s))) && get_bit s prev_idx then
    let pr2 := default 0 (tail s !! (pr - 8)) in
    let s := remove s pr2 in
    (pr2, set_hdr s pr2 (pr_size s pr2 + pr_size s pr))
  else (pr, s).

Definition initial_add (m : mem) (pr : Z) : option mem :=
  let s := pra m in
  let idx := get_bitmap_idx pr + pr_size s pr / page_size in
  if Z.of_nat (length (bitmap s)) <? idx then
    let '(pr, s) := initial_merge s pr in
    let m := set_pra m (insert false s pr) in
    m ← bitmap_resize m idx;
    let m := set_pra m (set_all_bits (pra m)) in
    Some (if deferred_free m =? 0 then m
          else set_deferred (set_pra m (free (pra m) (deferred_free m))) 0)
  else Some (set_pra m (free s pr)).

Definition free_initial_memory_range (m : mem) (addr size : Z) : option mem :=
  if size =? 0 then Some m else
  let delta := align_up addr page_size - addr in
  if size <? delta then Some m else
  let addr := addr + delta in
  let size := align_down (size - delta) page_size in
  if size =? 0 then Some m else
  let m := on_free (on_new_memory m size) size in
  initial_add (set_pra m (set_hdr (pra m) addr size)) addr.

End Resize.

End Memory.
Import Memory.

(** ** Bytes in a set of ranges *)

Definition bytes (l : list (Z * Z)) : Z := foldr (λ x n, x.2 + n) 0 l.

Definition pages (l : list (Z * Z)) : gset Z :=
  foldr (λ x acc, list_to_set (seqZ (page_no x.1) (x.2 / page_size)) ∪ acc) ∅ l.

Lemma bytes_cons x l : bytes (x :: l) = x.2 + bytes l.
Proof. done. Qed.

Lemma bytes_nonneg l : (∀ x, x ∈ l → 0 ≤ x.2) → 0 ≤ bytes l.
Proof.
  induction l as [|x l IH]; intros H; [done|]. rewrite bytes_cons.
  assert (0 ≤ x.2) by (apply H; elem). assert (0 ≤ bytes l) by (apply IH; intros; apply H; elem). lia.
Qed.

Lemma bytes_perm l l' : l ≡ₚ l' → bytes l = bytes l'.
Proof. induction 1; simpl; lia. Qed.

Lemma elem_of_pages lim l i : (∀ x, x ∈ l → fits lim x) → i ∈ pages l ↔ covered l i.
Proof.
  induction l as [|x l IH]; intros Hf.
  - rewrite covered_nil. unfold pages. simpl. set_solver.
  - rewrite covered_cons, <- IH by (intros; apply Hf; elem).
    destruct (Hf x) as (p & k & -> & Hp & Hk & _); [elem|].
    rewrite covers_page. cbn [pages foldr]. rewrite elem_of_union, elem_of_list_to_set.
    cbn [fst snd]. rewrite elem_of_seqZ, page_no_addr, Z.div_mul by done. done.
Qed.

Lemma bytes_pages lim l :
  (∀ x, x ∈ l → fits lim x) → pairwise disj l → bytes l = page_size * Z.of_nat (size (pages l)).
Proof.
  induction l as [|x l IH]; intros Hf Hd; [done|].
  apply (pairwise_app _ [x]) in Hd as (_ & Hd & Hx).
  rewrite bytes_cons, IH by (try done; intros; apply Hf; elem).
  destruct (Hf x) as (p & k & -> & Hp & Hk & _); [elem|].
  cbn [pages foldr fst snd]. rewrite page_no_addr, Z.div_mul by done.
  rewrite size_union.
  - rewrite size_list_to_set by apply NoDup_seqZ. rewrite length_seqZ. unfold pages. lia.
  - intros i Hi1 Hi2. rewrite elem_of_list_to_set, elem_of_seqZ in Hi1.
    apply (elem_of_pages lim) in Hi2 as (y & Hy & Hc); [|intros; apply Hf; elem].
    specialize (Hx _ y (list_elem_of_here _ _) Hy).
    destruct (Hf y) as (q & j & -> & _); [elem|].
    rewrite covers_page in Hc. rewrite disj_page in Hx. lia.
Qed.

(** Ranges that cover the same pages have the same number of bytes. *)
Lemma bytes_covered lim l l' :
  (∀ x, x ∈ l → fits lim x) → pairwise disj l →
  (∀ x, x ∈ l' → fits lim x) → pairwise disj l' →
  (∀ i, covered l i ↔ covered l' i) → bytes l = bytes l'.
Proof.
  intros Hf Hd Hf' Hd' Hc. rewrite (bytes_pages lim l), (bytes_pages lim l') by done.
  do 3 f_equal. apply set_eq. intros i.
  rewrite (elem_of_pages lim l), (elem_of_pages lim l') by done. apply Hc.
Qed.

Lemma bytes_bound lim l :
  0 ≤ lim → (∀ x, x ∈ l → fits lim x) → pairwise disj l → 0 ≤ bytes l ≤ lim * page_size.
Proof.
  intros Hlim Hf Hd. rewrite (bytes_pages lim) by done.
  assert (pages l ⊆ list_to_set (seqZ 0 lim)) as Hs%subseteq_size.
  { intros i Hi. apply (elem_of_pages lim) in Hi as (x & Hx & Hc); [|done].
    destruct (Hf x Hx) as (p & k & -> & ? & ? & ?). rewrite covers_page in Hc.
    rewrite elem_of_list_to_set, elem_of_seqZ. lia. }
  rewrite size_list_to_set, length_seqZ in Hs by apply NoDup_seqZ. unfold page_size. lia.
Qed.

(** ** States that differ in the bitmap only *)

Definition strip (s : t) : t := set_bitmap s [].

Lemma strip_set_bits s a v fill : strip (set_bits s a v fill) = strip s.
Proof.
  destruct (set_bits_fields s a v fill) as (E1 & E2 & E3 & E4 & E5).
  unfold strip, set_bitmap. by rewrite E1, E2, E3, E4, E5.
Qed.

Lemma strip_insert b s a : strip (insert b s a) = insert false (strip s) a.
Proof.
  unfold insert. destruct b; [rewrite strip_set_bits|];
    change (pr_order (set_tail (strip s) (a + pr_size (strip s) a - 8) a) a)
      with (pr_order (set_tail s (a + pr_size s a - 8) a) a);
    by destruct (max_order <=? _).
Qed.

Lemma strip_remove s a : strip (remove s a) = remove (strip s) a.
Proof.
  unfold remove. change (pr_order (strip s) a) with (pr_order s a).
  by destruct (max_order <=? _).
Qed.

Lemma strip_alloc_pick s n c :
  alloc_pick (strip s) n c = (λ x, (x.1, strip x.2)) <$> alloc_pick s n c.
Proof.
  unfold alloc_pick.
  change (alloc_bitset (strip s)) with (alloc_bitset s).
  change (free_list (strip s)) with (free_list s).
  change (free_huge (strip s)) with (free_huge s).
  change (pr_size (strip s)) with (pr_size s).
  repeat case_match; simplify_eq; done.
Qed.

Lemma strip_alloc b s n c :
  alloc false (strip s) n c = ((alloc b s n c).1, strip (alloc b s n c).2).
Proof.
  unfold alloc. rewrite strip_alloc_pick. destruct (alloc_pick s n c) as [[a s1]|]; [|done].
  cbn [fmap option_fmap option_map fst snd]. f_equal.
  change (pr_size (strip s1) a) with (pr_size s1 a).
  assert (strip (if n <? pr_size s1 a
    then set_hdr (insert b (set_hdr s1 (a + n) (pr_size s1 a - n)) (a + n)) a n else s1)
    = if n <? pr_size s1 a
      then set_hdr (insert false (set_hdr (strip s1) (a + n) (pr_size s1 a - n)) (a + n)) a n
      else strip s1) as E.
  { case_match; [|done].
    match goal with |- strip (set_hdr ?x _ _) = _ => set (y := x) end.
    change (strip (set_hdr y a n)) with (set_hdr (strip y) a n). f_equal. apply strip_insert. }
  destruct b; [by rewrite strip_set_bits, E|by rewrite E].
Qed.

Lemma strip_eq s s' : strip s = strip s' →
  hdr s = hdr s' ∧ tail s = tail s' ∧ free_huge s = free_huge s' ∧
  free_lists s = free_lists s' ∧ not_empty s = not_empty s'.
Proof. by intros [= -> -> -> -> ->]. Qed.

Lemma strip_ranges s s' : strip s = strip s' → ranges s = ranges s' ∧ all_free s = all_free s'.
Proof.
  intros (E1 & E2 & E3 & E4 & E5)%strip_eq. unfold ranges, all_free, pr_size.
  by rewrite E1, E3, E4.
Qed.

Lemma strip_pr_size s s' a : strip s = strip s' → pr_size s a = pr_size s' a.
Proof. intros (E1 & _)%strip_eq. unfold pr_size. by rewrite E1. Qed.

(** A page is the first or the last one of a free range. *)
Definition end_of (l : list (Z * Z)) (i : Z) : Prop :=
  ∃ x, x ∈ l ∧ (i = page_no x.1 ∨ i = page_no (x.1 + x.2) - 1).

(** Another bitmap may replace the current one when it marks exactly the ends of
    the free ranges. *)
Lemma inv_rebuild s s' bs lm :
  inv s bs lm → strip s' = strip s →
  (length (bitmap s) ≤ length (bitmap s'))%nat → Z.of_nat (length (bitmap s')) ≤ 2 ^ 32 →
  (∀ i, 0 ≤ i → get_bit s' i = true ↔ end_of (ranges s) i) →
  inv s' bs lm.
Proof.
  intros Hi Hs Hlen Hlim Hb. pose proof (strip_eq _ _ Hs) as (E1 & E2 & E3 & E4 & E5).
  destruct (strip_ranges _ _ Hs) as [Er Ea].
  assert (∀ x, x ∈ ranges s ++ bs ++ lm → fits (Z.of_nat (length (bitmap s))) x) as Hf by apply Hi.
  pose proof (i_disj _ _ _ Hi) as Hd. rewrite !pairwise_app in Hd.
  assert (∀ x y, x ∈ ranges s → y ∈ bs → disj x y) as Hd'.
  { intros. apply Hd; [done|elem]. }
  split; rewrite ?Er, ?Ea.
  - by eapply placed_ext; [..|apply Hi].
  - done.
  - intros x Hx. destruct (Hf x Hx) as (p & k & -> & ?). exists p, k. split; [done|lia].
  - apply Hi.
  - apply Hi.
  - intros a Ha. rewrite E2. rewrite (strip_pr_size _ _ _ Hs). by apply Hi.
  - intros x Hx. destruct (Hf x) as (p & k & -> & ?); [elem|].
    split; (apply Hb; [|eexists; split; [exact Hx|]; tauto]);
      cbn [fst snd]; rewrite ?page_no_end, ?page_no_addr; lia.
  - intros x Hx. destruct (Hf x) as (p & k & -> & ?); [elem|]. cbn [fst snd].
    rewrite page_no_end, page_no_addr.
    split; apply not_true_is_false; (intros Ht%Hb; [|lia]); destruct Ht as (y & Hy & Hz);
      destruct (Hf y ltac:(elem)) as (q & l & -> & ?); cbn [fst snd] in Hz;
      rewrite page_no_end, page_no_addr in Hz; specialize (Hd' _ _ Hy Hx);
      rewrite disj_page in Hd'; lia.
  - intros i Hi0 (x & Hx & Hz)%Hb; [|done]. exists x. split; [elem|].
    destruct (Hf x) as (p & k & -> & ?); [elem|]. cbn [fst snd] in Hz.
    rewrite page_no_end, page_no_addr in Hz. rewrite covers_page. lia.
Qed.

(** [set_bits] over a list of free ranges marks their ends. *)
Lemma fold_set_bits s l :
  (∀ a, a ∈ l → fits (Z.of_nat (length (bitmap s))) (a, pr_size s a)) →
  Z.of_nat (length (bitmap s)) ≤ 2 ^ 32 →
  let s' := fold_left (λ s pr, set_bits s pr true false) l s in
  strip s' = strip s ∧ length (bitmap s') = length (bitmap s) ∧
  ∀ i, 0 ≤ i → get_bit s' i = true ↔
    get_bit s i = true ∨ end_of ((λ a, (a, pr_size s a)) <$> l) i.
Proof.
  revert s. induction l as [|a l IH]; intros s Hf Hlim; cbn [fold_left].
  { split_and!; [done..|]. intros i _. split; [by left|]. intros [?|(x & Hx & _)]; [done|].
    by apply not_elem_of_nil in Hx. }
  destruct (Hf a) as (p & k & [= -> E] & Hp & Hk & Hl); [elem|].
  destruct (set_bits_bitmap s p k true false E Hp Hk Hl Hlim) as [Hlen Hb].
  destruct (IH (set_bits s (page_addr p) true false)) as (H1 & H2 & H3).
  { intros b Hb'. rewrite Hlen, set_bits_pr_size. apply Hf. elem. }
  { by rewrite Hlen. }
  split_and!; [by rewrite H1, strip_set_bits|by rewrite H2, Hlen|].
  intros i Hi. rewrite H3, Hb by done.
  assert (((λ a, (a, pr_size (set_bits s (page_addr p) true false) a)) <$> l)
    = ((λ a, (a, pr_size s a)) <$> l)) as ->.
  { apply list_fmap_ext. intros. by rewrite set_bits_pr_size. }
  rewrite fmap_cons, E.
  unfold end_of. setoid_rewrite elem_of_cons. split.
  - intros [H|(x & ? & ?)]; [|right; naive_solver]. case_decide as Hd; [right|by left].
    eexists; split; [by left|]. cbn [fst snd]. rewrite page_no_end, page_no_addr. naive_solver.
  - intros [H|(x & [->|Hx] & Hz)]; [left; destruct (decide _); done|left|right; by exists x].
    cbn [fst snd] in Hz. rewrite page_no_end, page_no_addr in Hz.
    rewrite decide_True by tauto. done.
Qed.

Lemma set_all_bits_wf s s' bs :
  wf s bs → strip s' = strip s →
  bitmap s' = replicate (length (bitmap s')) false →
  (length (bitmap s) ≤ length (bitmap s'))%nat → Z.of_nat (length (bitmap s')) ≤ 2 ^ 32 →
  wf (set_all_bits s') bs ∧ strip (set_all_bits s') = strip s.
Proof.
  intros Hwf Hs Hz Hlen Hlim. destruct (strip_ranges _ _ Hs) as [Er Ea].
  assert (for_each_list s' 0 = for_each_list s 0) as El.
  { apply strip_eq in Hs as (_ & _ & E3 & E4 & _). unfold for_each_list, free_list. by rewrite E3, E4. }
  assert (∀ a, a ∈ for_each_list s 0 ↔ a ∈ all_free s) as Hl.
  { intros a. split; [eapply for_each_list_all_free; done|]. intros.
    eapply for_each_list_complete; try done. apply pr_order_nonneg. }
  destruct (fold_set_bits s' (for_each_list s 0)) as (H1 & H2 & H3); [|done|].
  { intros a Ha%Hl. rewrite (strip_pr_size _ _ _ Hs).
    destruct (i_fits _ _ _ Hwf (a, pr_size s a)) as (p & k & E & ?).
    { apply elem_of_app. left. by apply elem_of_ranges. }
    rewrite E. exists p, k. split; [done|lia]. }
  unfold set_all_bits. rewrite El. set (s2 := fold_left _ _ _) in *.
  split; [|by rewrite H1]. eapply inv_rebuild; [exact Hwf|by rewrite H1|by rewrite H2..|].
  intros i Hi. rewrite H3 by done.
  assert (get_bit s' i = false) as ->.
  { unfold get_bit. rewrite Hz. destruct (replicate _ _ !! _) eqn:E; [|done].
    by apply lookup_replicate_1 in E as [-> _]. }
  split.
  - intros [?|(x & Hx & ?)]; [done|]. exists x. split; [|done].
    apply list_elem_of_fmap in Hx as (a & -> & Ha%Hl). apply elem_of_ranges.
    by rewrite (strip_pr_size _ _ _ Hs).
  - intros ([a n] & [Ha ->]%elem_of_ranges & ?). right. exists (a, pr_size s a). split; [|done].
    apply list_elem_of_fmap. exists a. split; [by rewrite (strip_pr_size _ _ _ Hs)|by apply Hl].
Qed.

(** ** A new range *)

Definition extended (s : t) (n : nat) : t :=
  set_bitmap s (bitmap s ++ replicate (n - length (bitmap s)) false).

Lemma get_bit_extended s n i : get_bit (extended s n) i = get_bit s i.
Proof.
  unfold get_bit, extended. simpl. destruct (bitmap s !! Z.to_nat i) eqn:E.
  { by rewrite (lookup_app_l_Some _ _ _ _ E). }
  rewrite lookup_app, E. destruct (replicate _ _ !! _) eqn:E2; [|done].
  by apply lookup_replicate_1 in E2 as [-> _].
Qed.

(** Memory that is not yet part of the allocator becomes a range in limbo, once
    the bitmap is long enough. *)
Lemma inv_extend s bs n x :
  wf s bs → (length (bitmap s) ≤ n)%nat → Z.of_nat n ≤ 2 ^ 32 → fits (Z.of_nat n) x →
  (∀ y, y ∈ ranges s ++ bs → disj x y) →
  inv (extended s n) bs [x] ∧ strip (extended s n) = strip s.
Proof.
  intros Hwf Hn Hlim Hx Hd. split; [|done].
  assert (length (bitmap (extended s n)) = n) as El.
  { simpl. rewrite length_app, length_replicate. lia. }
  change (ranges (extended s n)) with (ranges s).
  split; rewrite ?El; try change (ranges (extended s n)) with (ranges s).
  - by eapply placed_ext; [..|apply Hwf].
  - done.
  - intros y Hy. assert (y ∈ ranges s ++ bs ++ [] ∨ y = x) as [Hy'| ->]; [|by destruct (i_fits _ _ _ Hwf y Hy') as (p & k & -> & ?); exists p, k; split; [done|lia]|done].
    rewrite !elem_of_app in *. rewrite list_elem_of_singleton in Hy. tauto.
  - pose proof (i_disj _ _ _ Hwf) as Hd'. rewrite app_nil_r in Hd'.
    rewrite app_assoc. apply pairwise_app. split_and!; [done|by repeat constructor|].
    intros y z Hy ->%list_elem_of_singleton. symmetry. auto.
  - apply Hwf.
  - apply Hwf.
  - intros y Hy. rewrite !get_bit_extended. by apply Hwf.
  - intros y Hy. rewrite !get_bit_extended. by apply Hwf.
  - intros i Hi. rewrite get_bit_extended. intros Hb.
    destruct (i_bits_covered _ _ _ Hwf i Hi Hb) as (y & Hy & Hc). exists y. split; [|done].
    rewrite !elem_of_app in *. rewrite elem_of_nil in Hy. tauto.
Qed.

Lemma inv_blocks_perm s bs bs' lm : bs ≡ₚ bs' → inv s bs lm → inv s bs' lm.
Proof.
  intros Hp [H1 H2 H3 H4 H5 H6 H7 H8 H9].
  assert (ranges s ++ bs ++ lm ≡ₚ ranges s ++ bs' ++ lm) as Hp' by by rewrite Hp.
  split; try done.
  - intros x. rewrite <- Hp'. apply H3.
  - by eapply (pairwise_perm _ _ _ disj_sym).
  - intros x. rewrite <- Hp. apply H8.
  - intros i Hi Hb. apply (covered_perm _ _ i Hp'). by apply H9.
Qed.

Lemma alloc_strip_eq b b' s s' n c :
  strip s = strip s' →
  (alloc b s n c).1 = (alloc b' s' n c).1 ∧
  strip (alloc b s n c).2 = strip (alloc b' s' n c).2.
Proof.
  intros Hs. pose proof (strip_alloc b s n c) as E. rewrite Hs, (strip_alloc b' s' n c) in E.
  apply pair_equal_spec in E as [-> ->]. done.
Qed.

Lemma remove_bitmap s a : bitmap (remove s a) = bitmap s.
Proof. unfold remove. by destruct (max_order <=? _). Qed.

Lemma insert_length b s a : length (bitmap (insert b s a)) = length (bitmap s).
Proof.
  unfold insert. destruct b; [rewrite set_bits_length|]; by destruct (max_order <=? _).
Qed.

Lemma alloc_length b s n c : length (bitmap (alloc b s n c).2) = length (bitmap s).
Proof.
  unfold alloc. destruct (alloc_pick s n c) as [[a s1]|] eqn:E; [|done].
  assert (bitmap s1 = bitmap s) as Es.
  { unfold alloc_pick in E. repeat case_match; by simplify_eq. }
  cbn [snd]. destruct b; [rewrite set_bits_length|]; (case_match; [|by rewrite Es]);
    cbn [bitmap set_hdr]; rewrite insert_length; cbn [bitmap set_hdr]; by rewrite Es.
Qed.

Lemma free_merge_prev_length s a : length (bitmap (free_merge_prev s a).2) = length (bitmap s).
Proof. unfold free_merge_prev. case_match; [|done]. simpl. by rewrite remove_bitmap. Qed.

Lemma free_length s a : length (bitmap (free s a)) = length (bitmap s).
Proof.
  unfold free. pose proof (free_merge_prev_length s a) as E.
  destruct (free_merge_prev s a) as [pr s1]. cbn [snd] in E. rewrite insert_length.
  unfold free_merge_next. case_match; [|done]. cbn [bitmap set_hdr]. by rewrite remove_bitmap.
Qed.

(** The merge of [initial_add] is the one of [free] on the extended bitmap. *)
Lemma initial_merge_prev s p n :
  0 ≤ p < 2 ^ 32 → Z.of_nat (length (bitmap s)) < 2 ^ 32 →
  (initial_merge s (page_addr p)).1 = (free_merge_prev (extended s n) (page_addr p)).1 ∧
  strip (initial_merge s (page_addr p)).2 =
    strip (free_merge_prev (extended s n) (page_addr p)).2.
Proof.
  intros Hp Hlen. unfold initial_merge, free_merge_prev.
  rewrite get_bitmap_idx_page, get_bit_extended by done.
  change (tail (extended s n)) with (tail s).
  assert ((wrap32 (p - 1) <? Z.of_nat (length (bitmap s))) && get_bit s (wrap32 (p - 1))
    = negb (p =? 0) && get_bit s (p - 1)) as ->.
  { destruct (Z.eqb_spec p 0) as [->|Hp0]; cbn [negb andb].
    - change (wrap32 (0 - 1)) with (2 ^ 32 - 1). apply andb_false_iff. left. lia.
    - assert (wrap32 (p - 1) = p - 1) as -> by (apply wrap_small; lia).
      destruct (Z.ltb_spec (p - 1) (Z.of_nat (length (bitmap s)))); cbn [andb]; [done|].
      unfold get_bit. by rewrite lookup_ge_None_2 by lia. }
  case_match; [|done]. cbn [fst snd]. split; [done|].
  set (pr2 := default 0 _). rewrite !remove_pr_size.
  change (pr_size (extended s n)) with (pr_size s).
  change (strip (set_hdr ?x ?a ?b)) with (set_hdr (strip x) a b). by rewrite !strip_remove.
Qed.

Lemma on_alloc_fields m n :
  pra (on_alloc m n) = pra m ∧ bm_buf (on_alloc m n) = bm_buf m ∧
  bm_cap (on_alloc m n) = bm_cap m ∧ deferred_free (on_alloc m n) = deferred_free m ∧
  total_memory (on_alloc m n) = total_memory m ∧
  free_memory (on_alloc m n) = wrap64 (free_memory m - n) ∧
  watermark_lo (on_alloc m n) = watermark_lo m.
Proof. unfold on_alloc. by case_match. Qed.

Lemma bytes_app l l' : bytes (l ++ l') = bytes l + bytes l'.
Proof. induction l; simpl; lia. Qed.

Lemma covered_app l l' i : covered (l ++ l') i ↔ covered l i ∨ covered l' i.
Proof. unfold covered. setoid_rewrite elem_of_app. naive_solver. Qed.

Lemma get_size_pages n : 0 < n ≤ 2 ^ 50 → ∃ k, get_size n = k * page_size ∧ 0 < k < 2 ^ 52 ∧ 8 * n ≤ get_size n.
Proof.
  intros Hn. unfold get_size.
  destruct (align_up_bounds (8 * n) 12) as [[q Hq] Hb]; [unfold u64; lia|lia|lia|].
  change (2 ^ 12) with page_size in *. exists q. rewrite Hq in *. unfold page_size in *. lia.
Qed.

(** ** The growth of the bitmap *)

(** The blocks in use: the bitmap's storage and those of the clients. *)
Definition blocks (m : mem) (bs : list (Z * Z)) : list (Z * Z) :=
  (if bm_cap m =? 0 then [] else [(bm_buf m, get_size (bm_cap m))]) ++ bs.

(** The end of [initial_add], after the bitmap has its new size. *)
Definition finish (m : mem) : mem :=
  let m := set_pra m (set_all_bits (pra m)) in
  if deferred_free m =? 0 then m
  else set_deferred (set_pra m (free (pra m) (deferred_free m))) 0.

Lemma set_all_bits_length s : length (bitmap (set_all_bits s)) = length (bitmap s).
Proof.
  unfold set_all_bits. generalize (for_each_list s 0). intros l. generalize s as s1.
  induction l as [|a l IH]; [done|]. intros s1. cbn [fold_left].
  rewrite IH. apply set_bits_length.
Qed.

(** A block is not a free range. *)
Lemma block_not_free s bs lm a n : inv s bs lm → (a, n) ∈ bs ++ lm → a ∉ all_free s.
Proof.
  intros Hi Ha Hf. pose proof (i_disj _ _ _ Hi) as Hd. apply pairwise_app in Hd as (_ & _ & Hd).
  specialize (Hd (a, pr_size s a) (a, n) (proj2 (elem_of_ranges s (a, pr_size s a)) (conj Hf eq_refl)) Ha).
  destruct (i_fits _ _ _ Hi (a, n)) as (p & k & [= -> ->] & ?); [elem|].
  destruct (i_fits _ _ _ Hi (page_addr p, pr_size s (page_addr p))) as (q & l & [= E1 E2] & ?).
  { apply elem_of_app. left. by apply elem_of_ranges. }
  rewrite E2 in Hd. unfold disj, page_size in *. simpl in Hd. lia.
Qed.

(** Memory outside the allocator, within the reach of the bitmap, may be taken
    for a block in use. *)
Lemma inv_adopt s bs x :
  wf s bs → fits (Z.of_nat (length (bitmap s))) x → (∀ y, y ∈ ranges s ++ bs → disj x y) →
  wf s (x :: bs).
Proof.
  intros Hwf Hx Hd. assert (∀ i, 0 ≤ i → covers x i → get_bit s i = false) as Hb.
  { intros i Hi Hc. apply not_true_is_false. intros Hb.
    destruct (i_bits_covered _ _ _ Hwf i Hi Hb) as (y & Hy & Hcy). rewrite app_nil_r in Hy.
    specialize (Hd y Hy). unfold disj, covers in *. lia. }
  destruct (inv_extend s bs (length (bitmap s)) x) as [Hi _]; try done; [apply Hwf|].
  assert (extended s (length (bitmap s)) = s) as E.
  { unfold extended, set_bitmap. rewrite Nat.sub_diag. simpl. rewrite app_nil_r. by destruct s. }
  rewrite E in Hi. clear E.
  assert (ranges s ++ (x :: bs) ++ [] ≡ₚ ranges s ++ bs ++ [x]) as Hp.
  { rewrite app_nil_r. f_equiv. apply Permutation_cons_append. }
  split; try apply Hi.
  - intros y. rewrite Hp. apply Hi.
  - apply (pairwise_perm _ (ranges s ++ bs ++ [x]) _ disj_sym); [done|apply Hi].
  - intros y [->|Hy]%elem_of_cons; [|by apply Hwf].
    destruct Hx as (p & k & -> & ?). cbn [fst snd]. rewrite page_no_end, page_no_addr.
    split; apply Hb; rewrite ?covers_page; lia.
  - intros i Hi0 Hbi. apply (covered_perm _ _ i Hp). by apply Hi.
Qed.

(** The bitmap is rebuilt, then a block with a fresh header is freed. *)
Lemma rebuild_free s s5 a n buf sz bs :
  wf s ((a, n) :: (buf, sz) :: bs) → strip s5 = strip (set_hdr s buf sz) →
  bitmap s5 = replicate (length (bitmap s5)) false →
  (length (bitmap s) ≤ length (bitmap s5))%nat → Z.of_nat (length (bitmap s5)) ≤ 2 ^ 32 →
  let s' := free (set_all_bits s5) buf in
  buf ≠ 0 ∧ wf s' ((a, n) :: bs) ∧ length (bitmap s') = length (bitmap s5) ∧
  ∀ i, covered (ranges s') i ↔ covers (buf, sz) i ∨ covered (ranges s) i.
Proof.
  intros Hwf Hs Hz Hlen Hlim s'.
  assert (buf ∉ all_free s) as Hnf by (eapply (block_not_free _ _ _ _ sz); [exact Hwf|elem]).
  pose proof (inv_set_hdr _ _ _ buf sz Hwf Hnf) as Hwf'.
  destruct (set_all_bits_wf _ s5 _ Hwf' Hs Hz Hlen Hlim) as [H1 H2].
  destruct (i_fits _ _ _ Hwf (buf, sz)) as (p & k & [= Ep Ek] & Hp & Hk & _); [elem|].
  assert (pr_size (set_all_bits s5) buf = sz) as Esz.
  { rewrite (strip_pr_size _ _ _ H2), pr_size_set_hdr. by rewrite decide_True. }
  unfold s'. rewrite Ep, Ek in *. clear Ep Ek s'.
  apply (inv_blocks_perm _ _ ((page_addr p, k * page_size) :: (a, n) :: bs)) in H1;
    [|apply Permutation_swap].
  destruct (free_released _ _ _ _ H1 Esz) as (F1 & F2 & F3). split_and!; [|done| |].
  - unfold page_addr, phys_mem, page_size. rewrite get_mem_area_base_eq. simpl. lia.
  - by rewrite free_length, set_all_bits_length.
  - intros i. rewrite F3, (proj1 (strip_ranges _ _ H2)).
    by rewrite ranges_set_hdr by done.
Qed.

Lemma initial_merge_length s a : length (bitmap (initial_merge s a).2) = length (bitmap s).
Proof. unfold initial_merge. case_match; [|done]. simpl. by rewrite remove_bitmap. Qed.

(** The new range in its container, under a bitmap that reaches its end. *)
Lemma initial_insert s bs p k :
  wf s bs → pr_size s (page_addr p) = k * page_size → 0 ≤ p → 0 < k →
  Z.of_nat (length (bitmap s)) < p + k ≤ 2 ^ 32 →
  (∀ y, y ∈ ranges s ++ bs → disj (page_addr p, k * page_size) y) →
  let '(pr, s2) := initial_merge s (page_addr p) in
  ∃ v, wf v bs ∧ strip (insert false s2 pr) = strip v ∧
    length (bitmap v) = Z.to_nat (p + k) ∧ (∃ x, x ∈ ranges v ∧ k * page_size ≤ x.2) ∧
    ∀ i, covered (ranges v) i ↔ p ≤ i < p + k ∨ covered (ranges s) i.
Proof.
  intros Hwf Hsz Hp Hk Hlen Hd.
  destruct (inv_extend s bs (Z.to_nat (p + k)) (page_addr p, k * page_size)) as [He _];
    [done|lia|lia|exists p, k; split_and!; [done|lia..]|done|].
  destruct (initial_merge_prev s p (Z.to_nat (p + k))) as [E1 E2]; [lia|lia|].
  set (e := extended s _) in *. pose proof (free_merge_prev_length e (page_addr p)) as El.
  assert (length (bitmap e) = Z.to_nat (p + k)) as El'.
  { simpl. rewrite length_app, length_replicate. lia. }
  pose proof (free_merge_prev_spec e bs p k He Hsz) as Hspec.
  destruct (initial_merge s (page_addr p)) as [pr s2].
  destruct (free_merge_prev e (page_addr p)) as [pr' s2']. cbn [fst snd] in *. subst pr'.
  destruct Hspec as (q & l & -> & Hql & Hq & Hi & Hsz' & _ & Hc & Hsub & Hadj).
  assert (ranges e = ranges s) as Ere by done.
  exists (insert true s2' (page_addr q)). split_and!.
  - apply (inv_insert _ _ _ _ _ Hi Hsz'). intros x Hx. split; [by apply Hadj|].
    intros Heq. apply Hsub in Hx. rewrite Ere in Hx.
    destruct (i_fits _ _ _ Hwf x) as (r & j & -> & ?); [elem|]. cbn [fst] in Heq.
    pose proof (page_no_addr r) as Er. rewrite <- Heq, page_no_end in Er. lia.
  - by rewrite !strip_insert, E2.
  - rewrite insert_length. congruence.
  - exists (page_addr q, l * page_size). split; [|unfold page_size; simpl; lia].
    rewrite (ranges_insert true s2' (page_addr q) (i_placed _ _ _ Hi)), Hsz'. elem.
  - intros i. rewrite (covered_perm _ _ i (ranges_insert true s2' (page_addr q) (i_placed _ _ _ Hi))).
    rewrite covered_cons, Hsz', covers_page, <- Ere. apply Hc.
Qed.

(** The invariant of the memory with the blocks [bs] in use: the allocator is
    well formed, the bitmap fits in its storage, [free_memory] is what the free
    ranges hold and [total_memory] what they and the blocks hold. *)
Record mem_inv (m : mem) (bs : list (Z * Z)) : Prop := {
  mi_wf : wf (pra m) (blocks m bs);
  mi_free : free_memory m = bytes (ranges (pra m));
  mi_total : total_memory m = bytes (ranges (pra m) ++ blocks m bs);
  mi_mark : watermark_lo m = total_memory m * 10 / 100;
  mi_deferred : deferred_free m = 0;
  mi_cap : num_blocks (Z.of_nat (length (bitmap (pra m)))) ≤ bm_cap m ≤ 2 ^ 50;
}.

Lemma wf_bytes s bs :
  wf s bs → 0 ≤ bytes (ranges s) ≤ 2 ^ 44 ∧ 0 ≤ bytes (ranges s ++ bs) ≤ 2 ^ 44 ∧
            0 ≤ bytes bs ≤ 2 ^ 44.
Proof.
  intros Hwf. pose proof (i_lim _ _ _ Hwf). pose proof (i_disj _ _ _ Hwf) as Hd.
  pose proof (i_fits _ _ _ Hwf) as Hf. rewrite !app_nil_r in *.
  set (lim := Z.of_nat _) in *.
  assert (lim * page_size ≤ 2 ^ 44) by (unfold page_size; lia).
  pose proof (bytes_bound lim (ranges s ++ bs) ltac:(lia) Hf Hd).
  apply pairwise_app in Hd as (Hd1 & Hd2 & _).
  pose proof (bytes_bound lim (ranges s) ltac:(lia) ltac:(intros; apply Hf; elem) Hd1).
  pose proof (bytes_bound lim bs ltac:(lia) ltac:(intros; apply Hf; elem) Hd2). lia.
Qed.

(** Two well-formed allocators whose ranges and blocks cover the same pages. *)
Lemma wf_bytes_eq s bs s' bs' l :
  wf s bs → wf s' bs' →
  (∀ i, covered (ranges s' ++ bs') i ↔ covered l i ∨ covered (ranges s ++ bs) i) →
  (∀ x, x ∈ l → fits (2 ^ 32) x) → pairwise disj l →
  (∀ x y, x ∈ l → y ∈ ranges s ++ bs → disj x y) →
  bytes (ranges s' ++ bs') = bytes l + bytes (ranges s ++ bs).
Proof.
  intros H1 H2 Hc Hf Hl Hd. rewrite <- bytes_app. pose proof (i_disj _ _ _ H1) as Hd1.
  pose proof (i_disj _ _ _ H2) as Hd2. rewrite app_nil_r in Hd1, Hd2.
  assert (∀ v b, wf v b → ∀ x, x ∈ ranges v ++ b → fits (2 ^ 32) x) as Hfits.
  { intros v b Hv x Hx. pose proof (i_lim _ _ _ Hv).
    destruct (i_fits _ _ _ Hv x) as (p & k & -> & ?); [rewrite app_nil_r; done|].
    exists p, k. split; [done|lia]. }
  apply (bytes_covered (2 ^ 32)).
  - by apply Hfits.
  - done.
  - intros x [?|?]%elem_of_app; [by apply Hf|by apply (Hfits s bs)].
  - apply pairwise_app. done.
  - intros i. rewrite Hc, (covered_app l). done.
Qed.

Section Grow.
Variable grow : Z → Z → Z → Z.
Hypothesis grow_enough : ∀ s c n, n ≤ grow s c n.
Hypothesis grow_bound : ∀ s c n, 0 ≤ s ≤ n → n ≤ 2 ^ 26 → grow s c n ≤ 2 ^ 50.

(** What [initial_add] leaves once the new range is in its container: [s] is
    the allocator with an exact bitmap. *)
Record grown (m m' : mem) (s : t) (bs : list (Z * Z)) (idx : Z) : Prop := {
  g_wf : wf (pra m') (blocks m' bs);
  g_deferred : deferred_free m' = 0;
  g_total : total_memory m' = total_memory m;
  g_mark : watermark_lo m' = watermark_lo m;
  g_cap : num_blocks idx ≤ bm_cap m' ≤ 2 ^ 50;
  g_len : length (bitmap (pra m')) = Z.to_nat idx;
  g_pages : ∀ i, covered (ranges (pra m') ++ blocks m' bs) i ↔ covered (ranges s ++ blocks m bs) i;
  g_free : free_memory m' =
    wrap64 (free_memory m + bytes (blocks m []) - bytes (blocks m' []));
}.

Lemma num_blocks_nonneg n : 0 ≤ n → 0 ≤ num_blocks n.
Proof. unfold num_blocks. intros. apply Z.div_pos; lia. Qed.

Lemma num_blocks_mono n n' : n ≤ n' → num_blocks n ≤ num_blocks n'.
Proof. unfold num_blocks. intros. apply Z.div_le_mono; lia. Qed.

Lemma num_blocks_bounds idx : 0 < idx ≤ 2 ^ 32 → 0 < num_blocks idx ≤ 2 ^ 26.
Proof. unfold num_blocks. intros. Z.to_euclidean_division_equations. lia. Qed.

(** No new storage: the bitmap is cleared and rebuilt in place. *)
Lemma resize_in_place m s bs idx :
  wf s (blocks m bs) → strip (pra m) = strip s → deferred_free m = 0 →
  length (bitmap s) = Z.to_nat idx → 0 < idx ≤ 2 ^ 32 → num_blocks idx ≤ bm_cap m ≤ 2 ^ 50 →
  u64 (free_memory m) →
  grown m (finish (set_pra m (set_bitmap (pra m) (replicate (Z.to_nat idx) false)))) s bs idx.
Proof.
  intros Hwf Hs Hd Hlen Hidx Hcap Hu. unfold finish.
  change (deferred_free (set_pra ?a ?b)) with (deferred_free m). rewrite Hd.
  change (0 =? 0) with true. cbv iota.
  set (s1 := set_bitmap (pra m) _).
  change (pra (set_pra m s1)) with s1.
  destruct (set_all_bits_wf s s1 (blocks m bs)) as [H1 H2]; [done|done|..];
    try (simpl; rewrite length_replicate; first [done|lia]).
  split; try done.
  - cbn [pra set_pra]. rewrite set_all_bits_length. simpl. by rewrite length_replicate.
  - intros i. change (blocks (set_pra ?a ?b) bs) with (blocks m bs). cbn [pra set_pra].
    by rewrite (proj1 (strip_ranges _ _ H2)).
  - cbn [free_memory set_pra]. change (blocks (set_pra ?a ?b) []) with (blocks m []).
    rewrite Z.add_simpl_r. symmetry. by apply wrap64_small.
Qed.
(** New storage is taken from the free ranges, and the old one is freed once the
    bitmap is exact again. *)
Lemma resize_realloc m s bs idx m' :
  wf s (blocks m bs) → strip (pra m) = strip s → deferred_free m = 0 →
  length (bitmap s) = Z.to_nat idx → 0 < idx ≤ 2 ^ 32 → 0 ≤ bm_cap m < num_blocks idx →
  Z.of_nat (length (bitmap (pra m))) ≤ idx → u64 (free_memory m) →
  bitmap_resize grow m idx = Some m' → grown m (finish m') s bs idx.
Proof.
  intros Hwf Hs Hd Hlen Hidx Hcap Hlen0 Hu. unfold bitmap_resize, bitmap_allocate.
  rewrite (proj2 (Z.ltb_lt _ _)) by lia.
  pose proof (num_blocks_bounds idx Hidx) as Hn.
  set (cap := grow _ _ _).
  assert (num_blocks idx ≤ cap ≤ 2 ^ 50) as Hc.
  { unfold cap. split; [apply grow_enough|]. apply grow_bound; [|lia].
    split; [apply num_blocks_nonneg; lia|by apply num_blocks_mono]. }
  destruct (get_size_pages cap) as (k & Ek & Hk & _); [lia|].
  destruct (on_alloc_fields m (get_size cap)) as (F1 & F2 & F3 & F4 & F5 & F6 & F7).
  destruct (alloc_strip_eq false true (pra m) s (get_size cap) true Hs) as [E1 E2].
  rewrite F1. set (ma := on_alloc m _) in *.
  destruct (alloc false (pra m) (get_size cap) true) as [r s1] eqn:Ea.
  destruct (alloc true s (get_size cap) true) as [r' s1'] eqn:Ea'. cbn [fst snd] in E1, E2.
  subst r'. destruct r as [a|]; [|done]. rewrite Ek in Ea'.
  destruct (alloc_taken _ _ _ _ _ _ Hwf Hk Ea') as [T1 T2 T3 T4]. rewrite <- Ek in *.
  pose proof (alloc_length true s (get_size cap) true) as Hlen1.
  rewrite Ea' in Hlen1. cbn [snd] in Hlen1.
  cbn [bm_cap set_pra]. rewrite F3.
  assert (∀ bs' b, bm_cap b = cap → bm_buf b = a → blocks b bs' = (a, get_size cap) :: bs') as Hblk.
  { intros bs' b Eb1 Eb2. unfold blocks. rewrite Eb1, Eb2. by rewrite (proj2 (Z.eqb_neq cap 0)) by lia. }
  destruct (Z.eqb_spec (bm_cap m) 0) as [Hz|Hz]; intros Hm; cbn [mbind option_bind] in Hm.
  - apply (inj Some) in Hm as <-. unfold finish.
    cbn [deferred_free pra set_pra set_buf]. rewrite F4, Hd.
    change (0 =? 0) with true. cbv iota. set (s5 := set_bitmap s1 _).
    assert (blocks m bs = bs ∧ blocks m [] = []) as [Eb Eb0].
    { unfold blocks. by rewrite Hz. }
    rewrite Eb in *.
    destruct (set_all_bits_wf s1' s5 ((a, get_size cap) :: bs)) as [H1 H2]; [done|done|..];
      try (simpl; rewrite length_replicate; first [done|lia]).
    match goal with |- grown _ ?mf _ _ _ => assert (∀ bs', blocks mf bs' =
      (a, get_size cap) :: bs') as Hb by (intros; by apply Hblk) end.
    split; rewrite ?Hb;
      cbn [deferred_free total_memory watermark_lo bm_cap pra set_pra set_buf]; try done.
    + by rewrite F4.
    + rewrite set_all_bits_length. simpl. by rewrite length_replicate.
    + intros i. rewrite (proj1 (strip_ranges _ _ H2)), Eb, !covered_app, covered_cons, T4. tauto.
    + cbn [free_memory set_pra set_buf]. rewrite F6, Eb0. cbn [bytes foldr snd]. f_equal. lia.
  - unfold bitmap_deallocate in Hm.
    cbn [deferred_free pra bm_buf set_pra on_free set_free_memory] in Hm.
    rewrite F2, F4, Hd in Hm. change (0 =? 0) with true in Hm. cbv iota in Hm.
    apply (inj Some) in Hm as <-. unfold finish.
    cbn [deferred_free pra set_pra set_buf set_deferred].
    set (buf := bm_buf m) in *. set (sz := get_size (bm_cap m)) in *.
    assert (∀ bs', blocks m bs' = (buf, sz) :: bs') as Eb.
    { intros. unfold blocks. by rewrite (proj2 (Z.eqb_neq _ 0) Hz). }
    rewrite Eb in *. set (s5 := set_bitmap (set_hdr s1 buf sz) _).
    destruct (rebuild_free s1' s5 a (get_size cap) buf sz bs) as (H0 & H1 & H2 & H3); [done|..].
    { change (strip s5) with (set_hdr (strip s1) buf sz). by rewrite E2. }
    { simpl. by rewrite length_replicate. }
    { simpl. rewrite length_replicate. lia. }
    { simpl. rewrite length_replicate. lia. }
    rewrite (proj2 (Z.eqb_neq buf 0)) by done.
    match goal with |- grown _ ?mf _ _ _ => assert (∀ bs', blocks mf bs' =
      (a, get_size cap) :: bs') as Hb by (intros; by apply Hblk) end.
    split; rewrite ?Hb;
      cbn [deferred_free total_memory watermark_lo bm_cap pra set_pra set_buf set_deferred]; try done.
    + rewrite H2. simpl. by rewrite length_replicate.
    + intros i. rewrite !Eb, !covered_app, !covered_cons, H3, T4. tauto.
    + cbn [free_memory set_pra set_buf set_deferred on_free set_free_memory].
      rewrite F6, Eb. cbn [bytes foldr snd]. unfold wrap64, wrap.
      rewrite Zplus_mod_idemp_l. f_equal. fold sz. lia.
Qed.

(** The invariant after memory has been added, from the ranges and the
    counters. *)
Lemma mem_inv_added m bs p k mf :
  let n := k * page_size in
  let m0 := on_free (on_new_memory m n) n in
  mem_inv m bs → 0 ≤ p → 0 < k → p + k ≤ 2 ^ 32 →
  (∀ y, y ∈ ranges (pra m) ++ blocks m bs → disj (page_addr p, n) y) →
  wf (pra mf) (blocks mf bs) → deferred_free mf = 0 →
  total_memory mf = total_memory m0 → watermark_lo mf = watermark_lo m0 →
  num_blocks (Z.of_nat (length (bitmap (pra mf)))) ≤ bm_cap mf ≤ 2 ^ 50 →
  (∀ i, covered (ranges (pra mf) ++ blocks mf bs) i ↔
     p ≤ i < p + k ∨ covered (ranges (pra m) ++ blocks m bs) i) →
  free_memory mf = wrap64 (free_memory m0 + bytes (blocks m []) - bytes (blocks mf [])) →
  mem_inv mf bs.
Proof.
  intros n m0 Hm Hp Hk Hpk Hd F1 F2 F3 F4 F5 F6 F7.
  destruct (wf_bytes _ _ (mi_wf _ _ Hm)) as (B1 & B2 & B3).
  destruct (wf_bytes _ _ F1) as (C1 & C2 & C3).
  assert (bytes (ranges (pra mf) ++ blocks mf bs)
    = bytes [(page_addr p, n)] + bytes (ranges (pra m) ++ blocks m bs)) as Eb.
  { apply wf_bytes_eq; try done.
    - apply Hm.
    - intros i. rewrite F6, covered_cons, covered_nil. unfold n. rewrite covers_page. tauto.
    - intros x ->%list_elem_of_singleton. exists p, k. split; [done|lia].
    - intros x y ->%list_elem_of_singleton Hy; by apply Hd. }
  rewrite bytes_cons in Eb. cbn [snd bytes foldr] in Eb. fold bytes in Eb.
  pose proof (mi_free _ _ Hm) as Hfr. pose proof (mi_total _ _ Hm) as Ht.
  assert (0 < n ≤ 2 ^ 44) as Hn by (unfold n, page_size; lia).
  assert (wrap64 (total_memory m + n) = total_memory m + n) as Et.
  { apply wrap64_small. unfold u64. lia. }
  assert (wrap64 (free_memory m + n) = free_memory m + n) as Ef.
  { apply wrap64_small. unfold u64. lia. }
  assert (∀ x, bytes (blocks x bs) = bytes (blocks x []) + bytes bs) as Hbb.
  { intros x. unfold blocks. rewrite app_nil_r. apply bytes_app. }
  rewrite !bytes_app, !Hbb in *.
  unfold m0 in F3, F4, F7.
  cbn [total_memory watermark_lo free_memory on_free set_free_memory on_new_memory set_total] in F3, F4, F7.
  rewrite Et in F3, F4. rewrite Ef in F7.
  split; try done.
  - rewrite F7. rewrite wrap64_small; [lia|]. unfold u64. lia.
  - rewrite bytes_app, Hbb. lia.
  - rewrite F4, F3. f_equal. apply wrap64_small. unfold u64. lia.
Qed.

(** The header of memory that is not yet part of the allocator. *)
Lemma fresh_header s bs p k :
  wf s bs → 0 < k → (∀ y, y ∈ ranges s ++ bs → disj (page_addr p, k * page_size) y) →
  let s0 := set_hdr s (page_addr p) (k * page_size) in
  wf s0 bs ∧ pr_size s0 (page_addr p) = k * page_size ∧ ranges s0 = ranges s.
Proof.
  intros Hwf Hk Hd s0.
  assert (page_addr p ∉ all_free s) as Hnf.
  { intros Hf. specialize (Hd (page_addr p, pr_size s (page_addr p))).
    rewrite elem_of_app, elem_of_ranges in Hd. specialize (Hd (or_introl (conj Hf eq_refl))).
    destruct (i_fits _ _ _ Hwf (page_addr p, pr_size s (page_addr p))) as (q & l & [= E1 E2] & ?).
    { apply elem_of_app. left. by apply elem_of_ranges. }
    rewrite E2 in Hd. unfold disj, page_size in *. simpl in Hd. lia. }
  split_and!; [by apply inv_set_hdr| |by apply ranges_set_hdr].
  unfold s0. rewrite pr_size_set_hdr. by rewrite decide_True.
Qed.

(** [initial_add] on memory with a fresh header and counters that already count
    it. *)
Lemma initial_add_ok m bs p k m' :
  mem_inv m bs → 0 ≤ p → 0 < k → p + k ≤ 2 ^ 32 →
  (∀ y, y ∈ ranges (pra m) ++ blocks m bs → disj (page_addr p, k * page_size) y) →
  let n := k * page_size in
  let m0 := on_free (on_new_memory m n) n in
  initial_add grow (set_pra m0 (set_hdr (pra m) (page_addr p) n)) (page_addr p) = Some m' →
  mem_inv m' bs ∧
  ∀ i, covered (ranges (pra m') ++ blocks m' bs) i ↔
       p ≤ i < p + k ∨ covered (ranges (pra m) ++ blocks m bs) i.
Proof.
  intros Hm Hp Hk Hpk Hd n m0. set (s0 := set_hdr (pra m) (page_addr p) n).
  pose proof (mi_wf _ _ Hm) as Hwf.
  destruct (fresh_header (pra m) (blocks m bs) p k) as (Hwf0 & Hsz & Er); [done..|].
  fold n s0 in Hwf0, Hsz, Er. rewrite <- Er in Hd.
  pose proof (mi_cap _ _ Hm) as Hcap. pose proof (mi_deferred _ _ Hm) as Hdef.
  unfold initial_add. cbn [pra set_pra]. rewrite Hsz, get_bitmap_idx_page by lia.
  assert (n / page_size = k) as -> by (by apply Z.div_mul).
  set (len := Z.of_nat (length (bitmap s0))) in *.
  destruct (Z.ltb_spec len (p + k)) as [Hl|Hl].
  - pose proof (initial_insert s0 _ p k Hwf0 Hsz Hp Hk (conj Hl Hpk) Hd) as Hins.
    pose proof (initial_merge_length s0 (page_addr p)) as Elen.
    destruct (initial_merge s0 (page_addr p)) as [pr s2]. cbn [snd] in Elen.
    destruct Hins as (v & V1 & V2 & V3 & V5 & V4).
    set (m1 := set_pra (set_pra m0 s0) (insert false s2 pr)).
    destruct (bitmap_resize grow m1 (p + k)) as [m2|] eqn:E2; [|done].
    intros Em. change (Some (finish m2) = Some m') in Em. apply (inj Some) in Em as <-.
    assert (grown m1 (finish m2) v bs (p + k)) as [G1 G2 G3 G4 G5 G6 G7 G8].
    { assert (u64 (free_memory m1)) by apply wrap64_u64.
      destruct (Z.ltb_spec (bm_cap m1) (num_blocks (p + k))) as [Hlt|Hge].
      - apply resize_realloc; try done; [lia| |].
        + pose proof (num_blocks_nonneg len). change (bm_cap m1) with (bm_cap m) in *.
          change (length (bitmap (pra m))) with (length (bitmap s0)) in Hcap. fold len in Hcap. lia.
        + cbn [pra m1 set_pra]. rewrite insert_length, Elen. fold len. lia.
      - unfold bitmap_resize in E2. rewrite (proj2 (Z.ltb_ge _ _) Hge) in E2.
        apply (inj Some) in E2 as <-. apply resize_in_place; try done; [lia|].
        change (bm_cap m1) with (bm_cap m) in *. lia. }
    assert (∀ i, covered (ranges (pra (finish m2)) ++ blocks (finish m2) bs) i ↔
       p ≤ i < p + k ∨ covered (ranges (pra m) ++ blocks m bs) i) as Hc.
    { intros i. rewrite G7. change (blocks m1 bs) with (blocks m bs).
      rewrite !covered_app, V4, Er. tauto. }
    split; [|done]. eapply (mem_inv_added m bs p k); try done.
    + by rewrite <- Er.
    + rewrite G6, Z2Nat.id by lia. done.
  - intros Em. apply (inj Some) in Em as <-. cbn [pra set_pra].
    assert (wf s0 ((page_addr p, n) :: blocks m bs)) as Hb.
    { apply inv_adopt; [done| |done]. exists p, k. split; [done|]. fold len. lia. }
    destruct (free_released _ _ _ _ Hb Hsz) as (R1 & _ & R3).
    assert (∀ i, covered (ranges (free s0 (page_addr p)) ++ blocks m bs) i ↔
       p ≤ i < p + k ∨ covered (ranges (pra m) ++ blocks m bs) i) as Hc.
    { intros i. rewrite !covered_app, R3, covers_page, Er. tauto. }
    split; [|done]. eapply (mem_inv_added m bs p k); try done.
    + by rewrite <- Er.
    + cbn [pra set_pra bm_cap]. rewrite free_length. done.
    + change (blocks (set_pra ?a ?b) []) with (blocks m []).
      rewrite Z.add_simpl_r. cbn [free_memory set_pra]. symmetry. apply wrap64_small, wrap64_u64.
Qed.

(** The only failure is that no free range can hold the new bitmap. *)
Lemma initial_add_none m bs p k :
  mem_inv m bs → 0 ≤ p → 0 < k → p + k ≤ 2 ^ 32 →
  (∀ y, y ∈ ranges (pra m) ++ blocks m bs → disj (page_addr p, k * page_size) y) →
  let n := k * page_size in
  let m0 := on_free (on_new_memory m n) n in
  initial_add grow (set_pra m0 (set_hdr (pra m) (page_addr p) n)) (page_addr p) = None →
  n < get_size (grow (num_blocks (Z.of_nat (length (bitmap (pra m))))) (bm_cap m)
                 (num_blocks (p + k))).
Proof.
  intros Hm Hp Hk Hpk Hd n m0. set (s0 := set_hdr (pra m) (page_addr p) n).
  destruct (fresh_header (pra m) (blocks m bs) p k) as (Hwf0 & Hsz & Er); [apply Hm|done..|].
  fold n s0 in Hwf0, Hsz, Er. rewrite <- Er in Hd.
  pose proof (mi_cap _ _ Hm) as Hcap. pose proof (mi_deferred _ _ Hm) as Hdef.
  unfold initial_add. cbn [pra set_pra]. rewrite Hsz, get_bitmap_idx_page by lia.
  assert (n / page_size = k) as -> by (by apply Z.div_mul).
  change (length (bitmap (pra m))) with (length (bitmap s0)) in *.
  set (len := Z.of_nat (length (bitmap s0))) in *.
  destruct (Z.ltb_spec len (p + k)) as [Hl|Hl]; [|done].
  pose proof (initial_insert s0 _ p k Hwf0 Hsz Hp Hk (conj Hl Hpk) Hd) as Hins.
  pose proof (initial_merge_length s0 (page_addr p)) as Elen.
  destruct (initial_merge s0 (page_addr p)) as [pr s2]. cbn [snd] in Elen.
  destruct Hins as (v & V1 & V2 & V3 & (x & Hx & Hkx) & V4).
  set (m1 := set_pra (set_pra m0 s0) (insert false s2 pr)).
  destruct (bitmap_resize grow m1 (p + k)) as [m2|] eqn:E2; [done|]. intros _. revert E2.
  unfold bitmap_resize. change (bm_cap m1) with (bm_cap m).
  case_match eqn:Ecap; [|done]. rewrite Z.ltb_lt in Ecap.
  assert (length (bitmap (pra m1)) = length (bitmap s0)) as ->.
  { cbn [pra m1 set_pra]. by rewrite insert_length. }
  fold len. set (cap := grow _ _ _).
  pose proof (num_blocks_nonneg len ltac:(lia)) as Hnn.
  pose proof (num_blocks_bounds (p + k) ltac:(lia)) as Hnb.
  pose proof (num_blocks_mono len (p + k) ltac:(lia)) as Hnm.
  assert (num_blocks (p + k) ≤ cap ≤ 2 ^ 50) as Hc.
  { unfold cap. split; [apply grow_enough|]. apply grow_bound; lia. }
  destruct (get_size_pages cap) as (j & Ej & Hj & _); [lia|].
  unfold bitmap_allocate. rewrite (proj1 (on_alloc_fields m1 (get_size cap))).
  destruct (alloc_strip_eq false true (pra m1) v (get_size cap) true V2) as [E1 _].
  destruct (alloc false (pra m1) (get_size cap) true) as [[a|] s3]; cbn [fst] in E1.
  - destruct (on_alloc_fields m1 (get_size cap)) as (_ & _ & F3 & F4 & _).
    cbn [bm_cap set_pra]. rewrite F3. unfold bitmap_deallocate.
    cbn [deferred_free set_pra on_free set_free_memory]. rewrite F4.
    change (deferred_free m1) with (deferred_free m). rewrite Hdef. by case_match.
  - intros _. destruct (alloc true v (get_size cap) true) as [r s4] eqn:Ea. cbn [fst] in E1.
    subst r. rewrite Ej in Ea. destruct (alloc_none _ _ _ _ _ V1 Hj Ea) as [_ Hno].
    specialize (Hno eq_refl x Hx). lia.
Qed.

(** The whole pages of a region. *)
Lemma region_pages addr size :
  phys_mem ≤ addr → 0 ≤ size → addr + size ≤ phys_mem + 2 ^ 44 →
  ∃ p k, 0 ≤ p ∧ p + k ≤ 2 ^ 32 ∧ 0 ≤ k ∧
    align_up addr page_size = page_addr p ∧
    (align_up addr page_size - addr ≤ size →
       align_down (size - (align_up addr page_size - addr)) page_size = k * page_size) ∧
    (size < align_up addr page_size - addr → k = 0) ∧
    ∀ i, p ≤ i < p + k ↔ addr ≤ page_addr i ∧ page_addr i + page_size ≤ addr + size.
Proof.
  intros H1 H2 H3. set (a := align_up addr page_size).
  assert (phys_mem = 2 ^ 34 * page_size) as Hph by done.
  destruct (align_up_bounds addr 12) as [[q Hq] Hb]; [lia|unfold page_size in Hph; lia..|].
  change (2 ^ 12) with page_size in *. fold a in Hq, Hb.
  set (d := size - (a - addr)).
  exists (q - 2 ^ 34), (Z.max 0 (d / page_size)).
  assert (0 ≤ d → align_down d page_size = d / page_size * page_size) as Hdn.
  { intros Hd. change page_size with (2 ^ 12). rewrite align_down_pow2 by (unfold u64, d; unfold page_size in *; lia).
    pose proof (Z.div_mod d (2 ^ 12)). lia. }
  unfold page_addr. unfold page_size in *.
  split_and!; try (intros; Z.to_euclidean_division_equations; lia).
Qed.

End Grow.

(** A region either has no whole page or its pages go to [initial_add]. *)
Lemma free_initial_cases (grow : Z → Z → Z → Z) m bs addr size :
  phys_mem ≤ addr → 0 ≤ size → addr + size ≤ phys_mem + 2 ^ 44 →
  (∀ y, y ∈ ranges (pra m) ++ blocks m bs → disj (addr, size) y) →
  (free_initial_memory_range grow m addr size = Some m ∧
   ∀ i, ¬ (addr ≤ page_addr i ∧ page_addr i + page_size ≤ addr + size)) ∨
  ∃ p k, 0 ≤ p ∧ 0 < k ∧ p + k ≤ 2 ^ 32 ∧ align_up addr page_size = page_addr p ∧
    align_down (size - (align_up addr page_size - addr)) page_size = k * page_size ∧
    (∀ i, p ≤ i < p + k ↔ addr ≤ page_addr i ∧ page_addr i + page_size ≤ addr + size) ∧
    (∀ y, y ∈ ranges (pra m) ++ blocks m bs → disj (page_addr p, k * page_size) y) ∧
    free_initial_memory_range grow m addr size =
      let n := k * page_size in
      initial_add grow (set_pra (on_free (on_new_memory m n) n) (set_hdr (pra m) (page_addr p) n))
        (page_addr p).
Proof.
  intros H1 H2 H3 Hd.
  destruct (region_pages addr size H1 H2 H3) as (p & k & Hp & Hpk & Hk & Ea & En & Ez & Hi).
  unfold free_initial_memory_range.
  destruct (Z.eqb_spec size 0) as [E0|E0].
  { left. split; [done|]. intros i. unfold page_size. lia. }
  destruct (Z.ltb_spec size (align_up addr page_size - addr)) as [Hlt|Hge].
  { left. split; [done|]. intros i. rewrite <- Hi. specialize (Ez Hlt). lia. }
  cbv zeta. rewrite En by done. rewrite Z.add_sub_assoc, Z.add_simpl_l, Ea in *.
  destruct (Z.eqb_spec (k * page_size) 0) as [Ek|Ek].
  { left. split; [done|]. intros i. rewrite <- Hi. unfold page_size in Ek. lia. }
  assert (0 < k) as Hk' by (unfold page_size in Ek; lia).
  right. exists p, k. split_and!; try done. intros y Hy. specialize (Hd y Hy).
  pose proof (proj1 (Hi p) ltac:(lia)) as [Hlo _].
  pose proof (proj1 (Hi (p + k - 1)) ltac:(lia)) as [_ Hhi].
  unfold disj, page_addr, page_size in *. cbn [fst snd] in *. lia.
Qed.

(** Memory found at boot, when it can be added. *)
Lemma free_initial_ok (grow : Z → Z → Z → Z) m bs addr size m' :
  (∀ s c n, n ≤ grow s c n) →
  (∀ s c n, 0 ≤ s ≤ n → n ≤ 2 ^ 26 → grow s c n ≤ 2 ^ 50) →
  mem_inv m bs → phys_mem ≤ addr → 0 ≤ size → addr + size ≤ phys_mem + 2 ^ 44 →
  (∀ y, y ∈ ranges (pra m) ++ blocks m bs → disj (addr, size) y) →
  free_initial_memory_range grow m addr size = Some m' →
  mem_inv m' bs ∧
  ∀ i, covered (ranges (pra m') ++ blocks m' bs) i ↔
    (addr ≤ page_addr i ∧ page_addr i + page_size ≤ addr + size) ∨
    covered (ranges (pra m) ++ blocks m bs) i.
Proof.
  intros Hg1 Hg2 Hm H1 H2 H3 Hd E.
  destruct (free_initial_cases grow _ _ _ _ H1 H2 H3 Hd) as [[E1 Hi]|(p & k & K)].
  - rewrite E1 in E. injection E as <-. split; [done|]. intros i. specialize (Hi i). tauto.
  - destruct K as (K1 & K2 & K3 & K4 & K5 & K6 & K7 & K8). rewrite K8 in E.
    eapply initial_add_ok in E as [? Hc]; try done. split; [done|]. intros i. by rewrite Hc, K6.
Qed.

(** ** Properties *)

(** memory found at boot joins the free memory.  When the region is outside
    what the allocator already knows, its whole pages, and only they, are added
    to the pages that are free or in use (the bitmap's new storage among them),
    the invariant and the two counters are kept, and the storage of the bitmap
    that was replaced is free again.  The addition fails only when no room of
    the region's size is enough for the new bitmap. *)
Theorem free_initial_memory_range_correct (grow : Z → Z → Z → Z) m bs addr size r :
  (∀ s c n, n ≤ grow s c n) →
  (∀ s c n, 0 ≤ s ≤ n → n ≤ 2 ^ 26 → grow s c n ≤ 2 ^ 50) →
  mem_inv m bs →
  phys_mem ≤ addr → 0 ≤ size → addr + size ≤ phys_mem + 2 ^ 44 →
  (∀ y, y ∈ ranges (pra m) ++ blocks m bs → disj (addr, size) y) →
  free_initial_memory_range grow m addr size = r →
  match r with
  | Some m' =>
      mem_inv m' bs ∧
      ∀ i, covered (ranges (pra m') ++ blocks m' bs) i ↔
        (addr ≤ page_addr i ∧ page_addr i + page_size ≤ addr + size) ∨
        covered (ranges (pra m) ++ blocks m bs) i
  | None =>
      let a := align_up addr page_size in
      let n := align_down (size - (a - addr)) page_size in
      n < get_size (grow (num_blocks (Z.of_nat (length (bitmap (pra m))))) (bm_cap m)
                     (num_blocks (page_no (a + n))))
  end.
Proof.
  intros Hg1 Hg2 Hm H1 H2 H3 Hd E. destruct r as [m'|]; [by eapply free_initial_ok|].
  destruct (free_initial_cases grow _ _ _ _ H1 H2 H3 Hd) as [[E1 _]|(p & k & K)]; [congruence|].
  destruct K as (K1 & K2 & K3 & K4 & K5 & K6 & K7 & K8). rewrite K8 in E. cbv zeta.
  rewrite K5, K4, page_no_end. by eapply initial_add_none in E.
Qed.

Definition vector_growth (s c n : Z) : Z := s + Z.max s (n - s).

Lemma mem_inv_initial : mem_inv initial [].
Proof. split; try done. apply wf_empty. Qed.

Lemma free_initial_memory_range_correct_witness :
  mem_inv (default initial (free_initial_memory_range vector_growth initial
             (phys_mem + 100) (10 * page_size))) [].
Proof.
  apply (free_initial_memory_range_correct vector_growth initial [] (phys_mem + 100)
    (10 * page_size) (Some (default initial (free_initial_memory_range vector_growth initial
             (phys_mem + 100) (10 * page_size))))).
  - unfold vector_growth. lia.
  - unfold vector_growth. lia.
  - apply mem_inv_initial.
  - lia.
  - done.
  - done.
  - intros y Hy. by apply not_elem_of_nil in Hy.
  - vm_compute. reflexivity.
Defined.
