(* ===== verification/Reclaim.v ===== *)
(** * Waiting for memory, shrinkers and the reclaimer

    [reclaimer], [reclaimer_waiters] and [shrinker] of [core/mempool.cc] and
    [include/osv/mempool.hh].  Threads that cannot allocate queue up with the
    number of bytes they need; the reclaimer thread asks the shrinkers for
    memory, then lets the waiters go whose requests the free ranges can serve
    together. *)
From S2P Require Import Prelude Bits MemArea PageRange PageRangeSpec Memory.
Import PageRanges Memory.

Definition min_emergency_pool_size : Z := Z.shiftl 4 20.

Module Reclaim.

(** [wait_node]: the thread and the bytes it waits for. *)
Record wait_node := mkNode { owner : Z; wbytes : Z }.

#[export] Instance wait_node_eq_dec : EqDecision wait_node.
Proof. solve_decision. Defined.

Record shrinker := mkShrinker { enabled : bool }.

(** The reclaimer: the waiters in [_oom_blocked] in queue order, the shrinkers
    by registration order with the counter [_active_shrinkers], the threads
    that were woken, latest first, and the reclaimer's own thread. *)
Record t := mk {
  mm : mem;
  waiters : list wait_node;
  shrinkers : list shrinker;
  active_shrinkers : Z;
  woken : list Z;
  reclaimer_id : Z;
}.

Definition set_mm (r : t) (m : mem) : t :=
  mk m (waiters r) (shrinkers r) (active_shrinkers r) (woken r) (reclaimer_id r).
Definition set_waiters (r : t) (l : list wait_node) (w : list Z) : t :=
  mk (mm r) l (shrinkers r) (active_shrinkers r) w (reclaimer_id r).
Definition set_shrinkers (r : t) (l : list shrinker) (n : Z) : t :=
  mk (mm r) (waiters r) l n (woken r) (reclaimer_id r).

(** ** Shrinkers *)

Definition make_shrinker (r : t) : t :=
  set_shrinkers r (shrinkers r ++ [mkShrinker true]) (wrap32 (active_shrinkers r + 1)).

Definition deactivate_shrinker (r : t) (i : nat) : t :=
  match shrinkers r !! i with
  | None => r
  | Some s =>
      set_shrinkers r (<[i := mkShrinker false]> (shrinkers r))
        (wrap32 (active_shrinkers r - b2z (enabled s)))
  end.

Definition activate_shrinker (r : t) (i : nat) : t :=
  match shrinkers r !! i with
  | None => r
  | Some s =>
      set_shrinkers r (<[i := mkShrinker true]> (shrinkers r))
        (wrap32 (active_shrinkers r + b2z (negb (enabled s))))
  end.

Definition should_shrink (s : shrinker) (target : Z) : bool := enabled s && (0 <? target).

Definition can_shrink (r : t) : bool :=
  match pressure_level (mm r) with
  | PRESSURE => negb (active_shrinkers r =? 0)
  | _ => false
  end.

(** ** Waiting *)

(** What a thread does that may have to wait: go on, sleep in the queue, or end
    the machine ([oom] and [abort]). *)
Inductive outcome := Continue | Sleep | Abort.

Definition wait (r : t) (curr bytes : Z) : outcome * t :=
  if curr =? reclaimer_id r then (Abort, r)
  else
    let r := set_waiters r (waiters r ++ [mkNode curr bytes]) (woken r) in
    (Sleep, set_mm r (wake (mm r))).

Definition wait_for_memory (r : t) (curr n : Z) : outcome * t :=
  if total_memory (mm r) <? n then (Abort, r) else wait r curr n.

Definition wait_for_minimum_memory (r : t) (curr emergency_alloc_level : Z) : outcome * t :=
  if negb (emergency_alloc_level =? 0) then (Continue, r)
  else if free_memory (mm r) <? min_emergency_pool_size then
    if active_shrinkers r =? 0 then (Continue, r)
    else wait_for_memory r curr (min_emergency_pool_size - free_memory (mm r))
  else (Continue, r).

(** ** Waking *)

(** The pass over the waiters for one range with [room] bytes left. *)
Fixpoint wake_in_range (room : Z) (ws : list wait_node) : list wait_node * list Z :=
  match ws with
  | [] => ([], [])
  | w :: ws =>
      if wbytes w <=? room then
        let '(rest, gone) := wake_in_range (room - wbytes w) ws in (rest, owner w :: gone)
      else
        let '(rest, gone) := wake_in_range room ws in (w :: rest, gone)
  end.

(** The walk over the ranges; the flag is [woken] of the source. *)
Fixpoint wake_ranges (sizes : list Z) (flag : bool) (ws : list wait_node)
    : bool * list wait_node * list Z :=
  match sizes with
  | [] => (flag, ws, [])
  | room :: sizes =>
      if bool_decide (ws = []) then (true, ws, [])
      else
        let '(rest, gone) := wake_in_range room ws in
        let '(flag, rest, gone') :=
          wake_ranges sizes (flag || negb (bool_decide (gone = []))) rest in
        (flag, rest, gone ++ gone')
  end.

Definition wake_waiters (r : t) : bool * t :=
  let s := pra (mm r) in
  let '(flag, rest, gone) := wake_ranges (pr_size s <$> for_each_list s 0) false (waiters r) in
  let r := set_waiters r rest (reverse gone ++ woken r) in
  let r := if bool_decide (rest = []) then r else set_mm r (wake (mm r)) in
  (flag, r).

Definition has_waiters (r : t) : bool := negb (bool_decide (waiters r = [])).

(** ** The reclaimer's pass

    [request_memory] is the virtual method of each shrinker: it may free memory,
    that is change the state, and answers how much it freed. *)
Section Pass.
Variable request_memory : nat → Z → bool → t → Z * t.

Definition shrinker_loop (r : t) (target : Z) : t :=
  fold_left (λ r i, (request_memory i target (has_waiters r) r).2)
    (seq 0 (length (shrinkers r))) r.

Definition do_reclaim (r : t) : outcome * t :=
  let target := bytes_until_normal (mm r) (pressure_level (mm r)) in
  let r := shrinker_loop r target in
  if 0 <=? target then
    let '(ok, r) := wake_waiters r in
    (if ok then Continue else Abort, r)
  else (Continue, r).
End Pass.

(** ** Counting the active shrinkers *)

Definition count_enabled (l : list shrinker) : Z :=
  foldr (λ s n, b2z (enabled s) + n) 0 l.

Definition shrinkers_ok (r : t) : Prop :=
  active_shrinkers r = count_enabled (shrinkers r) ∧
  Z.of_nat (length (shrinkers r)) < 2 ^ 32 - 1.

Lemma count_enabled_app l l' : count_enabled (l ++ l') = count_enabled l + count_enabled l'.
Proof. induction l; simpl; lia. Qed.

Lemma count_enabled_bound l : 0 ≤ count_enabled l ≤ Z.of_nat (length l).
Proof. induction l as [|[[]] l IH]; simpl; unfold b2z; lia. Qed.

Lemma count_enabled_insert l i s b :
  l !! i = Some s →
  count_enabled (<[i := mkShrinker b]> l) = count_enabled l - b2z (enabled s) + b2z b.
Proof.
  revert i. induction l as [|s' l IH]; intros [|i] Hi; simplify_eq/=; [lia|].
  rewrite (IH i Hi). lia.
Qed.

(** ** The waiters *)

(** The ranges of the simulation, each with the waiters it serves. *)
Definition served (sizes : list Z) (gs : list (list wait_node)) : Prop :=
  Forall2 (λ room g, foldr (λ w n, wbytes w + n) 0 g ≤ room) sizes gs.

Lemma wake_in_range_spec room ws :
  Forall (λ w, 0 ≤ wbytes w) ws →
  let '(rest, gone) := wake_in_range room ws in
  ∃ g, gone = owner <$> g ∧ ws ≡ₚ g ++ rest ∧ sublist rest ws ∧
    (0 ≤ room → foldr (λ w n, wbytes w + n) 0 g ≤ room) ∧
    (g = [] → Forall (λ w, room < wbytes w) ws).
Proof.
  revert room. induction ws as [|w ws IH]; intros room Hpos; cbn [wake_in_range].
  { exists []. done. }
  apply Forall_cons in Hpos as [Hw Hpos].
  destruct (Z.leb_spec (wbytes w) room) as [Hle|Hgt].
  - specialize (IH (room - wbytes w) Hpos).
    destruct (wake_in_range (room - wbytes w) ws) as [rest gone].
    destruct IH as (g & -> & Hp & Hs & Hr & _). exists (w :: g). split_and!; try done.
    + simpl. by rewrite Hp.
    + by constructor.
    + intros. simpl. specialize (Hr ltac:(lia)). lia.
  - specialize (IH room Hpos). destruct (wake_in_range room ws) as [rest gone].
    destruct IH as (g & -> & Hp & Hs & Hr & He). exists g. split_and!; try done.
    + rewrite Hp. by rewrite Permutation_middle.
    + by constructor.
    + intros ->. constructor; [lia|auto].
Qed.

Lemma wake_ranges_spec sizes flag ws :
  Forall (λ w, 0 ≤ wbytes w) ws → Forall (λ n, 0 ≤ n) sizes →
  let '(f, rest, gone) := wake_ranges sizes flag ws in
  ∃ gs, gone = owner <$> concat gs ∧ ws ≡ₚ concat gs ++ rest ∧ sublist rest ws ∧
    served sizes gs ∧
    (f = true ↔ flag = true ∨ (ws = [] ∧ sizes ≠ []) ∨ concat gs ≠ []) ∧
    (concat gs = [] → ∀ w n, w ∈ ws → n ∈ sizes → n < wbytes w).
Proof.
  revert flag ws. induction sizes as [|room sizes IH]; intros flag ws Hpos Hsz; cbn [wake_ranges].
  { exists []. split_and!; try done; [constructor|tauto|].
    intros _ w n _ Hn. by apply not_elem_of_nil in Hn. }
  apply Forall_cons in Hsz as [Hroom Hsz].
  case_bool_decide as Hws.
  { subst. exists ((λ _, []) <$> (room :: sizes)).
    assert (∀ l : list Z, concat ((λ _, []) <$> l : list (list wait_node)) = []) as Hc
      by (induction l; done).
    rewrite Hc. split_and!; try done.
    - unfold served. apply Forall2_fmap_r, Forall_Forall2_diag. constructor; [done|].
      eapply Forall_impl; [exact Hsz|]. done.
    - split; [|done]. intros _. right. by left.
    - intros _ w n Hw. by apply not_elem_of_nil in Hw. }
  pose proof (wake_in_range_spec room ws Hpos) as Hin.
  destruct (wake_in_range room ws) as [rest gone]. destruct Hin as (g & -> & Hp & Hs & Hr & He).
  assert (Forall (λ w, 0 ≤ wbytes w) rest) as Hpos'.
  { rewrite Hp in Hpos. apply Forall_app in Hpos. tauto. }
  specialize (IH (flag || negb (bool_decide (owner <$> g = []))) rest Hpos' Hsz).
  destruct (wake_ranges sizes _ rest) as [[f rest'] gone'].
  destruct IH as (gs & -> & Hp' & Hs' & Hsv & Hf & Hno).
  exists (g :: gs). cbn [concat]. split_and!.
  - by rewrite fmap_app.
  - by rewrite Hp, Hp', app_assoc.
  - by etrans.
  - constructor; [by apply Hr|done].
  - rewrite Hf. rewrite orb_true_iff, negb_true_iff, bool_decide_eq_false.
    assert (owner <$> g = [] ↔ g = []) as -> by (by destruct g).
    destruct g as [|w g]; [|split; intros _; [|left]; right; by right + by auto].
    assert (rest ≠ []) by (intros ->; by apply Hws, Permutation_nil_r).
    cbn [app]. tauto.
  - intros [-> Hgs]%app_nil w n Hw [->|Hn]%elem_of_cons.
    + specialize (He eq_refl). rewrite Forall_forall in He. by apply He.
    + apply Hno; [done| |done]. by rewrite Hp in Hw.
Qed.

End Reclaim.
Import Reclaim.

Lemma wake_waiters_spec r f r' :
  Forall (λ w, 0 ≤ wbytes w) (waiters r) →
  Forall (λ a, 0 ≤ pr_size (pra (mm r)) a) (for_each_list (pra (mm r)) 0) →
  wake_waiters r = (f, r') →
  ∃ gs, woken r' = reverse (owner <$> concat gs) ++ woken r ∧
    waiters r ≡ₚ concat gs ++ waiters r' ∧ sublist (waiters r') (waiters r) ∧
    served (pr_size (pra (mm r)) <$> for_each_list (pra (mm r)) 0) gs ∧
    (f = true ↔ (waiters r = [] ∧ for_each_list (pra (mm r)) 0 ≠ []) ∨ concat gs ≠ []) ∧
    (concat gs = [] → ∀ w a, w ∈ waiters r → a ∈ for_each_list (pra (mm r)) 0 →
       pr_size (pra (mm r)) a < wbytes w) ∧
    wakes (mm r') = wakes (mm r) + b2z (has_waiters r') ∧
    pra (mm r') = pra (mm r).
Proof.
  intros Hw Hs. unfold wake_waiters. set (l := for_each_list _ _) in *.
  pose proof (wake_ranges_spec (pr_size (pra (mm r)) <$> l) false (waiters r) Hw
    ltac:(by apply Forall_fmap)) as Hsp.
  destruct (wake_ranges _ _ _) as [[f' rest] gone]. destruct Hsp as (gs & -> & H1 & H2 & H3 & H4 & H5).
  intros [<- <-]%pair_equal_spec. exists gs.
  assert (∀ m, (if bool_decide (rest = []) then m else set_mm m (wake (mm m)))
    = set_mm m (if bool_decide (rest = []) then mm m else wake (mm m))) as ->.
  { intros []. by case_bool_decide. }
  cbn [woken waiters mm set_mm set_waiters]. split_and!; try done.
  - rewrite H4. destruct l; simpl; naive_solver.
  - intros Hn w a Hin Ha. apply H5; [done..|]. by apply list_elem_of_fmap_2.
  - unfold has_waiters. cbn [waiters set_mm set_waiters]. by case_bool_decide; simpl; unfold b2z; lia.
  - by case_bool_decide.
Qed.

(** The walk reaches every free range. *)
Lemma for_each_sizes s bs : wf s bs → Forall (λ a, 0 ≤ pr_size s a) (for_each_list s 0).
Proof.
  intros Hwf. apply Forall_forall. intros a Ha.
  apply (for_each_list_all_free s bs Hwf) in Ha; [|done].
  destruct (inv_sized _ _ _ Hwf a Ha) as (k & -> & Hk). unfold page_size. lia.
Qed.

Lemma for_each_ranges s bs x : wf s bs →
  x ∈ ranges s ↔ x.1 ∈ for_each_list s 0 ∧ x.2 = pr_size s x.1.
Proof.
  intros Hwf. rewrite elem_of_ranges. split; intros [H1 H2]; (split; [|done]).
  - eapply for_each_list_complete; try done. apply pr_order_nonneg.
  - by eapply for_each_list_all_free.
Qed.

(** ** Properties *)

(** [wake_waiters] splits the queue in two.  The waiters it wakes can be
    grouped by free range so that each group fits in its range, all at once; the
    others keep their order in the queue, and the reclaimer is woken again for
    them.  If it wakes nobody, no waiter's request fits in any free range. *)
Theorem wake_waiters_correct r bs f r' :
  mem_inv (mm r) bs → Forall (λ w, 0 ≤ wbytes w) (waiters r) →
  wake_waiters r = (f, r') →
  ∃ gs, woken r' = reverse (owner <$> concat gs) ++ woken r ∧
    waiters r ≡ₚ concat gs ++ waiters r' ∧ sublist (waiters r') (waiters r) ∧
    served (pr_size (pra (mm r)) <$> for_each_list (pra (mm r)) 0) gs ∧
    wakes (mm r') = wakes (mm r) + b2z (has_waiters r') ∧
    (concat gs = [] → ∀ w x, w ∈ waiters r → x ∈ ranges (pra (mm r)) → x.2 < wbytes w).
Proof.
  intros Hm Hw Hr. pose proof (mi_wf _ _ Hm) as Hwf.
  destruct (wake_waiters_spec r f r' Hw (for_each_sizes _ _ Hwf) Hr)
    as (gs & H1 & H2 & H3 & H4 & _ & H5 & H6 & _).
  exists gs. split_and!; try done. intros Hn w x Hin [Hx ->]%(for_each_ranges _ _ _ Hwf). by apply H5.
Qed.

Definition ex_mem : mem :=
  default initial (free_initial_memory_range vector_growth initial (phys_mem + page_size) (10 * page_size)).

Lemma ex_mem_inv : mem_inv ex_mem [].
Proof.
  set (n := 10 * page_size).
  assert (initial_add vector_growth
    (set_pra (on_free (on_new_memory initial n) n) (set_hdr (pra initial) (page_addr 1) n))
    (page_addr 1) = Some ex_mem) as E by (vm_compute; reflexivity).
  refine (proj1 (initial_add_ok vector_growth _ _ initial [] 1 10 ex_mem _ _ _ _ _ E));
    try (unfold vector_growth; lia); [apply mem_inv_initial|].
  intros y Hy. change (y ∈ []) in Hy. exfalso. by apply not_elem_of_nil in Hy.
Qed.

Definition ex_reclaim : t :=
  mk ex_mem [mkNode 1 (4 * page_size); mkNode 2 (8 * page_size); mkNode 3 (5 * page_size)]
    [mkShrinker true] 1 [] 9.

Lemma wake_waiters_correct_witness :
  wake_waiters ex_reclaim
    = (true, mk (wake ex_mem) [mkNode 2 (8 * page_size)] [mkShrinker true] 1 [3; 1] 9) ∧
  ∃ gs, [3; 1] = reverse (owner <$> concat gs) ++ woken ex_reclaim ∧
    waiters ex_reclaim ≡ₚ concat gs ++ [mkNode 2 (8 * page_size)].
Proof.
  assert (wake_waiters ex_reclaim
    = (true, mk (wake ex_mem) [mkNode 2 (8 * page_size)] [mkShrinker true] 1 [3; 1] 9)) as E
    by (vm_compute; reflexivity).
  split; [exact E|].
  assert (Forall (λ w, 0 ≤ wbytes w) (waiters ex_reclaim)) as Hw
    by (repeat constructor; unfold page_size; simpl; lia).
  destruct (wake_waiters_correct ex_reclaim [] _ _ ex_mem_inv Hw E) as (gs & H1 & H2 & _).
  exists gs. split; [exact H1|exact H2].
Defined.

(** the reclaimer gives up ([oom]) exactly when, after the shrinkers have
    run, it wakes nobody and there are waiters or no free range is left at all;
    its test of the target never skips the waiters. *)
Theorem do_reclaim_oom (request_memory : nat → Z → bool → t → Z * t) r bs :
  let target := bytes_until_normal (mm r) (pressure_level (mm r)) in
  let r1 := shrinker_loop request_memory r target in
  mem_inv (mm r) bs → mem_inv (mm r1) bs → Forall (λ w, 0 ≤ wbytes w) (waiters r1) →
  (do_reclaim request_memory r).1 = Abort ↔
  woken (wake_waiters r1).2 = woken r1 ∧
  (waiters r1 ≠ [] ∨ ranges (pra (mm r1)) = []).
Proof.
  intros target r1 Hm Hm1 Hw. unfold do_reclaim. fold target r1.
  assert (0 ≤ target) as Ht.
  { unfold target, pressure_level, bytes_until_normal.
    destruct (free_memory (mm r) <? watermark_lo (mm r)) eqn:E; [|done].
    rewrite Z.ltb_lt in E. pose proof (mi_mark _ _ Hm) as Hk. pose proof (mi_total _ _ Hm) as Htot.
    pose proof (mi_free _ _ Hm) as Hf. destruct (wf_bytes _ _ (mi_wf _ _ Hm)) as (B1 & B2 & _).
    rewrite wrap64_small, signed64_small by (unfold u64; Z.to_euclidean_division_equations; lia).
    lia. }
  rewrite (proj2 (Z.leb_le _ _) Ht). pose proof (mi_wf _ _ Hm1) as Hwf.
  destruct (wake_waiters r1) as [f r2] eqn:E. cbn [snd].
  destruct (wake_waiters_spec r1 f r2 Hw (for_each_sizes _ _ Hwf) E)
    as (gs & H1 & _ & _ & _ & H4 & _).
  assert (ranges (pra (mm r1)) = [] ↔ for_each_list (pra (mm r1)) 0 = []) as ->.
  { split; intros Hn.
    - apply elem_of_nil_inv. intros a Ha.
      assert ((a, pr_size (pra (mm r1)) a) ∈ ranges (pra (mm r1))) as Hx by by apply (for_each_ranges _ _ _ Hwf).
      rewrite Hn in Hx. by apply not_elem_of_nil in Hx.
    - apply elem_of_nil_inv. intros x [Hx _]%(for_each_ranges _ _ _ Hwf). rewrite Hn in Hx.
      by apply not_elem_of_nil in Hx. }
  assert (woken r2 = woken r1 ↔ concat gs = []) as ->.
  { rewrite H1. split; [|intros ->; done]. intros Hl%(f_equal length).
    rewrite length_app, length_reverse, length_fmap in Hl. apply nil_length_inv. lia. }
  destruct f; simpl.
  - split; [done|]. intros [Hg Hor]. destruct (proj1 H4 eq_refl) as [[??]|?]; tauto.
  - split; [|done]. intros _. destruct (decide (concat gs = [])); [|naive_solver].
    split; [done|]. destruct (decide (waiters r1 = [])); [right|by left].
    destruct (decide (for_each_list (pra (mm r1)) 0 = [])); naive_solver.
Qed.

Lemma do_reclaim_oom_witness :
  (do_reclaim (λ _ _ _ r, (0, r)) (mk ex_mem [mkNode 1 (16 * page_size)] [] 0 [] 9)).1 = Abort.
Proof.
  apply (do_reclaim_oom (λ _ _ _ r, (0, r)) (mk ex_mem [mkNode 1 (16 * page_size)] [] 0 [] 9) []);
    [apply ex_mem_inv|apply ex_mem_inv|repeat constructor; unfold page_size; simpl; lia|].
  split; [vm_compute; reflexivity|left; done].
Defined.

(** [_active_shrinkers] counts the enabled shrinkers through registration,
    activation and deactivation, repeated ones included, so that memory is
    waited for only while some shrinker can give some back. *)
Theorem shrinkers_count r i :
  shrinkers_ok r → Z.of_nat (length (shrinkers r)) < 2 ^ 32 - 2 →
  shrinkers_ok (make_shrinker r) ∧ shrinkers_ok (activate_shrinker r i) ∧
  shrinkers_ok (deactivate_shrinker r i) ∧
  (active_shrinkers r = 0 ↔ Forall (λ s, enabled s = false) (shrinkers r)).
Proof.
  intros [Ha Hl] Hlt. unfold shrinkers_ok, make_shrinker, activate_shrinker, deactivate_shrinker.
  pose proof (count_enabled_bound (shrinkers r)) as Hb.
  cbn [active_shrinkers shrinkers set_shrinkers]. split; [|split; [|split]].
  - rewrite count_enabled_app, length_app, Ha. simpl. split; [|lia]. apply wrap_small. unfold b2z. lia.
  - destruct (shrinkers r !! i) as [s|] eqn:E; [|done].
    pose proof (count_enabled_bound (<[i:=mkShrinker true]> (shrinkers r))) as Hb'.
    pose proof (count_enabled_insert _ _ _ true E) as Hc. rewrite length_insert in Hb'.
    cbn [active_shrinkers shrinkers set_shrinkers].
    rewrite length_insert, Hc, Ha. split; [|done]. rewrite Hc in Hb'.
    replace (count_enabled (shrinkers r) + b2z (negb (enabled s)))
      with (count_enabled (shrinkers r) - b2z (enabled s) + b2z true)
      by (destruct (enabled s); simpl; lia).
    apply wrap_small. lia.
  - destruct (shrinkers r !! i) as [s|] eqn:E; [|done].
    pose proof (count_enabled_bound (<[i:=mkShrinker false]> (shrinkers r))) as Hb'.
    pose proof (count_enabled_insert _ _ _ false E) as Hc. rewrite length_insert in Hb'.
    cbn [active_shrinkers shrinkers set_shrinkers].
    rewrite length_insert, Hc, Ha. split; [|done]. rewrite Hc in Hb'. simpl in Hb'.
    rewrite Z.add_0_r in *. apply wrap_small. lia.
  - rewrite Ha. clear. induction (shrinkers r) as [|s l IH]; [done|].
    rewrite Forall_cons, <- IH. simpl. pose proof (count_enabled_bound l).
    destruct (enabled s); simpl; intuition lia.
Qed.

Lemma shrinkers_count_witness : shrinkers_ok (deactivate_shrinker ex_reclaim 0).
Proof.
  apply (shrinkers_count ex_reclaim 0); [|vm_compute; reflexivity].
  split; [reflexivity|vm_compute; reflexivity].
Defined.
