(* ===== verification/Large.v ===== *)
(** * Large objects, huge pages and single pages

    The users of the page range allocator in [core/mempool.cc]: [malloc_large]
    and [free_large], [alloc_huge_page] and [free_huge_page], and the single
    pages of the time before the page pools exist.  Each critical section under
    [free_page_ranges_lock] is one function. *)
From S2P Require Import Prelude Bits MemArea PageRange PageRangeSpec Memory Reclaim.
Import PageRanges Memory Reclaim.

(** ** Operations *)

Module Large.

(** [size], a tree hook of three pointers and a color, a list hook of two. *)
Definition sizeof_page_range : Z := 56.

(** What a call of [malloc_large] comes to: an object, the null pointer, a
    request to map [size] bytes and put the object at [offset], or waiting.
    The waits are told apart by where the thread resumes: [LSleepMin] in front
    of the allocation, [LSleep] at the top of the loop. *)
Inductive large_result :=
  | LObj (obj : Z)
  | LNull
  | LMap (size offset : Z)
  | LSleepMin
  | LSleep
  | LAbort.

Definition large_offset (alignment : Z) : Z :=
  if alignment <? page_size then align_up sizeof_page_range alignment else page_size.

Definition large_size (size alignment : Z) : Z :=
  align_up (wrap64 (size + large_offset alignment)) page_size.

(** The allocation in the body of the loop; [size] and [offset] are the rounded
    size and the distance of the object from its header. *)
Definition malloc_large_alloc (r : Reclaim.t) (curr size offset alignment : Z)
    (block contiguous : bool) : large_result * Reclaim.t :=
  let m := mm r in
  let '(ret_header, s) :=
    if page_size <? alignment then alloc_aligned (pra m) size page_size alignment false
    else alloc true (pra m) size contiguous in
  match ret_header with
  | Some h => (LObj (h + offset), set_mm r (on_alloc (set_pra m s) size))
  | None =>
      let r := set_mm r (set_pra m s) in
      if negb contiguous then (LMap size offset, r)
      else if block then
        let '(o, r) := wait_for_memory r curr size in
        (match o with Abort => LAbort | _ => LSleep end, r)
      else (LNull, r)
  end.

(** One turn of the loop. *)
Definition malloc_large_iter (r : Reclaim.t) (curr level size offset alignment : Z)
    (block contiguous : bool) : large_result * Reclaim.t :=
  match wait_for_minimum_memory r curr level with
  | (Continue, r) => malloc_large_alloc r curr size offset alignment block contiguous
  | (Sleep, r) => (LSleepMin, r)
  | (Abort, r) => (LAbort, r)
  end.

Definition malloc_large (r : Reclaim.t) (curr level size alignment : Z)
    (block contiguous : bool) : large_result * Reclaim.t :=
  let offset := large_offset alignment in
  let size := large_size size alignment in
  if (huge_page_size <=? size) && negb contiguous then (LMap size offset, r)
  else malloc_large_iter r curr level size offset alignment block contiguous.

(** [free_page_range_locked], and [free_page_range] on an address. *)
Definition free_page_range (m : mem) (range : Z) : mem :=
  let m := on_free m (pr_size (pra m) range) in
  set_pra m (free (pra m) range).

Definition free_page_range_at (m : mem) (addr size : Z) : mem :=
  free_page_range (set_pra m (set_hdr (pra m) addr size)) addr.

(** The header of a large object, and the distance to it. *)
Definition large_object_header (obj : Z) : Z := align_down (obj - 1) page_size.
Definition large_object_offset (obj : Z) : Z := wrap64 (obj - large_object_header obj).

Definition free_large (m : mem) (obj : Z) : mem := free_page_range m (large_object_header obj).

Definition large_object_size (m : mem) (obj : Z) : Z :=
  wrap64 (pr_size (pra m) (large_object_header obj) - large_object_offset obj).

Definition alloc_huge_page (m : mem) (N : Z) : option Z * mem :=
  match alloc_aligned (pra m) N 0 N true with
  | (Some pr, s) => (Some pr, on_alloc (set_pra m s) N)
  | (None, s) => (None, wake (set_pra m s))
  end.

Definition free_huge_page (m : mem) (v N : Z) : mem := free_page_range_at m v N.

(** The pages of the time before the page pools; the counter changes first. *)
Definition early_alloc_page (m : mem) : option Z * mem :=
  let m := on_alloc m page_size in
  let '(pr, s) := alloc true (pra m) page_size true in
  (pr, set_pra m s).

Definition early_free_page (m : mem) (v : Z) : mem := free_page_range_at m v page_size.

End Large.
Import Large.

(** ** The invariant through allocation and release *)

Lemma alloc_aligned_length s n o a f s' r :
  alloc_aligned s n o a f = (r, s') → length (bitmap s') = length (bitmap s).
Proof.
  unfold alloc_aligned. destruct (list_find _ _) as [[? h]|]; [|by intros [= _ <-]].
  set (shift := alignment_shift _ _ _ _ _). set (s1 := remove s h).
  assert (length (bitmap s1) = length (bitmap s)) as <- by (unfold s1; by rewrite remove_bitmap).
  generalize s1. clear s1. intros s1.
  match goal with |- context [if shift =? 0 then ?x else ?y] =>
    assert (length (bitmap (if shift =? 0 then x else y)) = length (bitmap s1)) as <- end.
  { destruct (shift =? 0); [done|]. cbn [bitmap set_hdr]. by rewrite insert_length. }
  match goal with |- context [if shift =? 0 then ?x else ?y] =>
    generalize (if shift =? 0 then x else y) end.
  intros s2. destruct (pr_size s2 h =? n); intros [_ <-]%pair_equal_spec;
    rewrite set_bits_length; [done|]. cbn [bitmap set_hdr]. by rewrite insert_length.
Qed.

(** The blocks [bs] become [bs'] and the free ranges follow. *)
Lemma mem_inv_update m m' bs bs' :
  mem_inv m bs → bm_buf m' = bm_buf m → bm_cap m' = bm_cap m →
  deferred_free m' = deferred_free m → total_memory m' = total_memory m →
  watermark_lo m' = watermark_lo m →
  free_memory m' = wrap64 (free_memory m + bytes bs - bytes bs') →
  length (bitmap (pra m')) = length (bitmap (pra m)) →
  wf (pra m') (blocks m bs') →
  (∀ i, covered (ranges (pra m') ++ bs') i ↔ covered (ranges (pra m) ++ bs) i) →
  mem_inv m' bs'.
Proof.
  intros Hm E1 E2 E3 E4 E5 E6 El Hwf Hc.
  assert (∀ l, blocks m' l = blocks m l) as Eb.
  { intros l. unfold blocks. by rewrite E1, E2. }
  assert (∃ n, ∀ l, bytes (blocks m l) = n + bytes l) as [b0 Hbb].
  { eexists. intros l. unfold blocks. apply bytes_app. }
  pose proof (mi_wf _ _ Hm) as Hwf0.
  destruct (wf_bytes _ _ Hwf0) as (B1 & B2 & B3). destruct (wf_bytes _ _ Hwf) as (C1 & C2 & C3).
  assert (bytes (ranges (pra m') ++ blocks m bs') = 0 + bytes (ranges (pra m) ++ blocks m bs)) as Et.
  { apply (wf_bytes_eq _ _ _ _ []); try done.
    - intros i. rewrite covered_nil. unfold blocks. specialize (Hc i).
      rewrite !covered_app in *. tauto.
    - intros x Hx. by apply not_elem_of_nil in Hx.
    - intros x y Hx. by apply not_elem_of_nil in Hx. }
  pose proof (mi_free _ _ Hm) as Hf. rewrite !bytes_app, !Hbb in *.
  split; rewrite ?Eb; try done.
  - rewrite E6, Hf. rewrite wrap64_small; [lia|]. unfold u64. lia.
  - rewrite E4, (mi_total _ _ Hm), !bytes_app, !Hbb. lia.
  - rewrite E5, E4. apply Hm.
  - rewrite E3. apply Hm.
  - rewrite E2, El. apply Hm.
Qed.

(** What leaves the free memory is in use. *)
Lemma mem_inv_free m m' bs bs' :
  mem_inv m bs → mem_inv m' bs' → bm_buf m' = bm_buf m → bm_cap m' = bm_cap m →
  total_memory m' = total_memory m →
  free_memory m' + bytes bs' = free_memory m + bytes bs.
Proof.
  intros H1 H2 E1 E2 E3. rewrite (mi_total _ _ H1), (mi_total _ _ H2) in E3.
  rewrite (mi_free _ _ H1), (mi_free _ _ H2). unfold blocks in E3. rewrite E1, E2 in E3.
  rewrite !bytes_app in E3. lia.
Qed.

Lemma blocks_cons m x bs : blocks m (x :: bs) ≡ₚ x :: blocks m bs.
Proof. unfold blocks. by rewrite Permutation_middle. Qed.

(** A block taken from the free ranges. *)
Lemma mem_taken m m' bs a n :
  mem_inv m bs → taken (pra m) (pra m') (blocks m bs) a n →
  bm_buf m' = bm_buf m → bm_cap m' = bm_cap m → deferred_free m' = deferred_free m →
  total_memory m' = total_memory m → watermark_lo m' = watermark_lo m →
  free_memory m' = wrap64 (free_memory m - n) →
  length (bitmap (pra m')) = length (bitmap (pra m)) →
  mem_inv m' ((a, n) :: bs).
Proof.
  intros Hm [T1 T2 T3 T4] E1 E2 E3 E4 E5 E6 E7. eapply mem_inv_update; try done.
  - rewrite E6, bytes_cons. f_equal. cbn [snd]. lia.
  - eapply inv_blocks_perm; [|exact T1]. by rewrite blocks_cons.
  - intros i. rewrite !covered_app, covered_cons, T4. tauto.
Qed.

Lemma frame_app s s' l l' : frame s s' (l ++ l') → frame s s' l'.
Proof. intros H x Hx. apply H. elem. Qed.

(** A block given back. *)
Lemma block_released m bs a n :
  mem_inv m ((a, n) :: bs) → pr_size (pra m) a = n →
  let m' := free_page_range m a in
  mem_inv m' bs ∧ free_memory m' = free_memory m + n ∧ frame (pra m) (pra m') bs ∧
  ∀ i, covered (ranges (pra m')) i ↔ covers (a, n) i ∨ covered (ranges (pra m)) i.
Proof.
  intros Hm Hsz. pose proof (mi_wf _ _ Hm) as Hwf.
  apply (inv_blocks_perm _ _ _ _ (blocks_cons m (a, n) bs)) in Hwf.
  destruct (i_fits _ _ _ Hwf (a, n)) as (p & k & [= -> ->] & _ & Hk & _); [elem|].
  destruct (free_released _ _ _ _ Hwf Hsz) as (F1 & F2 & F3).
  unfold free_page_range. rewrite Hsz.
  destruct (wf_bytes _ _ Hwf) as (B1 & B2 & B3). rewrite bytes_cons in B3. cbn [snd] in B3.
  rewrite bytes_app, bytes_cons in B2. cbn [snd] in B2.
  destruct (wf_bytes _ _ F1) as (_ & _ & B4).
  split_and!.
  - eapply mem_inv_update; try done.
    + cbn [free_memory set_pra on_free set_free_memory]. rewrite bytes_cons. f_equal. cbn [snd]. lia.
    + cbn [pra set_pra on_free set_free_memory]. apply free_length.
    + intros i. cbn [pra set_pra on_free set_free_memory].
      rewrite !covered_app, covered_cons, F3. tauto.
  - cbn [free_memory set_pra on_free set_free_memory]. rewrite (mi_free _ _ Hm).
    apply wrap64_small. unfold u64, page_size in *. lia.
  - by eapply frame_app.
  - done.
Qed.

(** Writing the header of a block. *)
Lemma mem_set_hdr m bs a n k :
  mem_inv m ((a, n) :: bs) → mem_inv (set_pra m (set_hdr (pra m) a k)) ((a, n) :: bs).
Proof.
  intros Hm. pose proof (mi_wf _ _ Hm) as Hwf.
  assert (a ∉ all_free (pra m)) as Hnf.
  { eapply (block_not_free _ _ _ _ n); [exact Hwf|]. rewrite blocks_cons. elem. }
  eapply mem_inv_update; try done.
  - cbn [free_memory set_pra]. rewrite Z.add_simpl_r, wrap64_small; [done|].
    rewrite (mi_free _ _ Hm). destruct (wf_bytes _ _ Hwf). unfold u64. lia.
  - by apply inv_set_hdr.
  - intros i. cbn [pra set_pra]. by rewrite ranges_set_hdr.
Qed.

Lemma mem_freed_at m bs a n :
  mem_inv m ((a, n) :: bs) → mem_inv (free_page_range_at m a n) bs.
Proof.
  intros Hm. apply (block_released _ _ _ n); [by apply mem_set_hdr|].
  cbn [pra set_pra]. rewrite pr_size_set_hdr. by rewrite decide_True.
Qed.

(** ** Sizes and addresses of large objects *)

Lemma page_size_lt_pow j : 0 ≤ j → page_size < 2 ^ j ↔ 12 < j.
Proof. intros. change page_size with (2 ^ 12). symmetry. apply Z.pow_lt_mono_r_iff; lia. Qed.

Lemma pow_lt_page_size j : 0 ≤ j → 2 ^ j < page_size ↔ j < 12.
Proof. intros. change page_size with (2 ^ 12). symmetry. apply Z.pow_lt_mono_r_iff; lia. Qed.

Lemma large_offset_spec j :
  0 ≤ j < 62 →
  sizeof_page_range ≤ large_offset (2 ^ j) ≤ page_size ∧ (j ≤ 12 → (2 ^ j | large_offset (2 ^ j))).
Proof.
  intros Hj. unfold large_offset. destruct (Z.ltb_spec (2 ^ j) page_size) as [Hlt|Hge].
  - assert (j < 12) by (apply pow_lt_page_size in Hlt; lia).
    destruct (align_up_bounds sizeof_page_range j) as [[q Hq] Hb];
      [lia|done|unfold sizeof_page_range, page_size in *; lia|].
    split; [|intros _; by exists q]. rewrite Hq in *. split; [lia|].
    assert (2 ^ 12 = 2 ^ (12 - j) * 2 ^ j) as E by (rewrite <- Z.pow_add_r by lia; f_equal; lia).
    unfold sizeof_page_range, page_size in *. change (2 ^ 12) with 4096 in E.
    assert (0 < 2 ^ j) by lia. nia.
  - split; [unfold sizeof_page_range, page_size; lia|]. intros Hle.
    assert (j = 12) as ->; [|by exists 1]. pose proof (pow_lt_page_size j). lia.
Qed.

Lemma large_size_spec size j :
  0 ≤ size < 2 ^ 62 → 0 ≤ j < 62 →
  ∃ k, large_size size (2 ^ j) = k * page_size ∧ 0 < k < 2 ^ 52 ∧
       size + large_offset (2 ^ j) ≤ large_size size (2 ^ j).
Proof.
  intros Hs Hj. destruct (large_offset_spec j Hj) as [Ho _].
  unfold large_size. unfold sizeof_page_range, page_size in *.
  rewrite wrap64_small by (unfold u64; lia).
  destruct (align_up_bounds (size + large_offset (2 ^ j)) 12) as [[q Hq] Hb]; [lia..|].
  exists q. change (2 ^ 12) with 4096 in *. lia.
Qed.

Lemma page_addr_divide p : (page_size | page_addr p).
Proof. exists (2 ^ 34 + p). unfold page_addr. change phys_mem with (2 ^ 34 * page_size). lia. Qed.

(** The header of an object [offset] bytes behind the start of a block. *)
Lemma large_object_header_spec b offset :
  (page_size | b) → 0 ≤ b < 2 ^ 62 → 0 < offset ≤ page_size →
  large_object_header (b + offset) = b ∧ large_object_offset (b + offset) = offset.
Proof.
  intros [q ->] Hb Ho.
  assert (large_object_header (q * page_size + offset) = q * page_size) as E.
  { unfold large_object_header. change page_size with (2 ^ 12) in *.
    rewrite align_down_div by (unfold u64; lia).
    replace (q * 2 ^ 12 + offset - 1) with (offset - 1 + q * 2 ^ 12) by lia.
    rewrite Z.div_add, Z.div_small by lia. lia. }
  split; [done|]. unfold large_object_offset. rewrite E. unfold page_size in *.
  rewrite wrap64_small by (unfold u64; lia). lia.
Qed.

(** What a passage through the critical section of [malloc_large] may do, for a
    request of [size] bytes aligned to [2^j]. *)
Definition large_post (r : Reclaim.t) (bs : list (Z * Z)) (curr size j : Z)
    (block contiguous : bool) (res : large_result) (r' : Reclaim.t) : Prop :=
  let n := large_size size (2 ^ j) in
  match res with
  | LObj obj =>
      let b := large_object_header obj in
      mem_inv (mm r') ((b, n) :: bs) ∧ pr_size (pra (mm r')) b = n ∧
      frame (pra (mm r)) (pra (mm r')) bs ∧ waiters r' = waiters r ∧
      free_memory (mm r') = free_memory (mm r) - n ∧
      (∀ i, covered (ranges (pra (mm r))) i ↔ covers (b, n) i ∨ covered (ranges (pra (mm r'))) i) ∧
      (2 ^ j | obj) ∧ b + sizeof_page_range ≤ obj ∧ obj + size ≤ b + n
  | LMap n' o => contiguous = false ∧ r' = r ∧ n' = n ∧ o = large_offset (2 ^ j)
  | LNull => block = false ∧ contiguous = true ∧ r' = r
  | LSleep =>
      waiters r' = waiters r ++ [mkNode curr n] ∧ mem_inv (mm r') bs ∧
      pra (mm r') = pra (mm r) ∧ (j ≤ 12 → ∀ x, x ∈ ranges (pra (mm r)) → x.2 < n)
  | LSleepMin =>
      free_memory (mm r) < min_emergency_pool_size ∧ active_shrinkers r ≠ 0 ∧
      waiters r' = waiters r ++ [mkNode curr (min_emergency_pool_size - free_memory (mm r))] ∧
      mem_inv (mm r') bs ∧ pra (mm r') = pra (mm r)
  | LAbort => r' = r ∧
      (curr = reclaimer_id r ∨ total_memory (mm r) < Z.max n min_emergency_pool_size)
  end.

Lemma mem_inv_wake m bs : mem_inv m bs → mem_inv (wake m) bs.
Proof. intros []. by split. Qed.

Lemma wait_for_memory_spec r bs curr n o r' :
  mem_inv (mm r) bs → wait_for_memory r curr n = (o, r') →
  match o with
  | Continue => False
  | Sleep => waiters r' = waiters r ++ [mkNode curr n] ∧ mem_inv (mm r') bs ∧
             pra (mm r') = pra (mm r)
  | Abort => r' = r ∧ (curr = reclaimer_id r ∨ total_memory (mm r) < n)
  end.
Proof.
  intros Hm. unfold wait_for_memory, wait.
  destruct (Z.ltb_spec (total_memory (mm r)) n); [intros [= <- <-]; by auto|].
  destruct (Z.eqb_spec curr (reclaimer_id r)); intros [= <- <-]; [by auto|].
  split_and!; try done. by apply mem_inv_wake.
Qed.

(** The block behind an object. *)
Lemma large_block_spec s bs lm b n j size :
  inv s ((b, n) :: bs) lm → 0 ≤ size < 2 ^ 62 → 0 ≤ j < 62 → n = large_size size (2 ^ j) →
  let obj := b + large_offset (2 ^ j) in
  large_object_header obj = b ∧ large_object_offset obj = large_offset (2 ^ j) ∧
  (j ≤ 12 → (2 ^ j | obj)) ∧ b + sizeof_page_range ≤ obj ∧ obj + size ≤ b + n.
Proof.
  intros Hi Hs Hj -> obj. pose proof (i_lim _ _ _ Hi).
  destruct (large_offset_spec j Hj) as [Ho Hdiv].
  destruct (large_size_spec size j Hs Hj) as (k & _ & _ & Hfit).
  destruct (i_fits _ _ _ Hi (b, large_size size (2 ^ j))) as (p & l & [= -> _] & Hp & Hl & Hlim); [elem|].
  pose proof (page_addr_divide p) as Hpg.
  destruct (large_object_header_spec (page_addr p) (large_offset (2 ^ j))) as [E1 E2];
    [done| |unfold sizeof_page_range in Ho; lia|].
  { unfold page_addr. change phys_mem with (2 ^ 46). unfold page_size. lia. }
  split_and!; [done|done| |unfold obj; lia|unfold obj; lia].
  intros Hj12. apply Z.divide_add_r; [|by apply Hdiv]. etrans; [|exact Hpg].
  exists (2 ^ (12 - j)). change page_size with (2 ^ 12). rewrite <- Z.pow_add_r by lia. f_equal. lia.
Qed.

Lemma malloc_large_alloc_spec r bs curr size j block contiguous res r' :
  mem_inv (mm r) bs → 0 ≤ size < 2 ^ 62 → 0 ≤ j < 62 →
  malloc_large_alloc r curr (large_size size (2 ^ j)) (large_offset (2 ^ j)) (2 ^ j)
    block contiguous = (res, r') →
  large_post r bs curr size j block contiguous res r'.
Proof.
  intros Hm Hs Hj. destruct (large_size_spec size j Hs Hj) as (k & Ek & Hk & Hfit).
  pose proof (mi_wf _ _ Hm) as Hwf. unfold malloc_large_alloc.
  set (n := large_size size (2 ^ j)) in *.
  destruct (if page_size <? 2 ^ j then _ else _) as [h s] eqn:Ea.
  assert (length (bitmap s) = length (bitmap (pra (mm r)))) as El.
  { destruct (page_size <? 2 ^ j); [by eapply alloc_aligned_length|].
    pose proof (alloc_length true (pra (mm r)) n contiguous) as E. by rewrite Ea in E. }
  destruct h as [b|].
  - intros [<- <-]%pair_equal_spec.
    assert (taken (pra (mm r)) s (blocks (mm r) bs) b n ∧ (12 < j → (2 ^ j | b + page_size)))
      as [Ht Hal].
    { rewrite Ek in *. destruct (Z.ltb_spec page_size (2 ^ j)) as [Hlt|Hge].
      - apply page_size_lt_pow in Hlt; [|lia].
        rewrite <- (Z.mul_1_l page_size) in Ea at 2.
        destruct (alloc_aligned_taken _ _ k 1 j false b s Hwf Hk) as [H1 H2]; [lia..|done|].
        rewrite Z.mul_1_l in H2. done.
      - split; [by eapply alloc_taken|]. intros Hlt. apply page_size_lt_pow in Hlt; lia. }
    destruct (on_alloc_fields (set_pra (mm r) s) n) as (F1 & F2 & F3 & F4 & F5 & F6 & F7).
    destruct (large_block_spec s _ _ b n j size (tk_wf _ _ _ _ _ Ht) Hs Hj eq_refl)
      as (H1 & H2 & H3 & H4 & H5).
    assert (mem_inv (on_alloc (set_pra (mm r) s) n) ((b, n) :: bs)) as Hm'.
    { eapply mem_taken; try done; rewrite F1; done. }
    pose proof (mem_inv_free _ _ _ _ Hm Hm' F2 F3 F5) as Hfree.
    rewrite bytes_cons in Hfree. cbn [snd] in Hfree.
    unfold large_post. cbn [mm set_mm waiters]. fold n. rewrite H1, F1. cbn [pra set_pra].
    split_and!; try done; try lia.
    + apply Ht.
    + eapply frame_app. apply Ht.
    + apply Ht.
    + destruct (Z_le_dec j 12); [by apply H3|]. unfold large_offset.
      rewrite (proj2 (Z.ltb_ge _ _)); [apply Hal; lia|]. pose proof (pow_lt_page_size j). lia.
  - assert (s = pra (mm r) ∧ (contiguous = true → j ≤ 12 → ∀ x, x ∈ ranges (pra (mm r)) → x.2 < n))
      as [-> Hno].
    { rewrite Ek in *. destruct (Z.ltb_spec page_size (2 ^ j)) as [Hlt|Hge].
      - apply page_size_lt_pow in Hlt; [|lia].
        rewrite <- (Z.mul_1_l page_size) in Ea at 2.
        destruct (alloc_aligned_complete _ _ k 1 j false s Hwf Hk) as [H1 H2]; [lia..|done|].
        split; [done|lia].
      - destruct (alloc_none _ _ _ _ _ Hwf Hk Ea) as [H1 H2]. auto. }
    assert (set_mm r (set_pra (mm r) (pra (mm r))) = r) as -> by by destruct r as [[]].
    destruct contiguous; cbn [negb]; [|by intros [= <- <-]].
    destruct block; [|by intros [= <- <-]].
    destruct (wait_for_memory r curr n) as [o r1] eqn:Ew.
    pose proof (wait_for_memory_spec _ _ _ _ _ _ Hm Ew) as Hw.
    destruct o; intros [= <- <-]; [done| |].
    + destruct Hw as (H1 & H2 & H3). unfold large_post. fold n. split_and!; auto.
    + destruct Hw as (H1 & H2). unfold large_post. fold n. split; [done|]. lia.
Qed.

Lemma malloc_large_iter_spec r bs curr level size j block contiguous res r' :
  mem_inv (mm r) bs → 0 ≤ size < 2 ^ 62 → 0 ≤ j < 62 →
  malloc_large_iter r curr level (large_size size (2 ^ j)) (large_offset (2 ^ j)) (2 ^ j)
    block contiguous = (res, r') →
  large_post r bs curr size j block contiguous res r'.
Proof.
  intros Hm Hs Hj. unfold malloc_large_iter, wait_for_minimum_memory.
  destruct (negb (level =? 0)); [by apply malloc_large_alloc_spec|].
  destruct (Z.ltb_spec (free_memory (mm r)) min_emergency_pool_size) as [Hlt|];
    [|by apply malloc_large_alloc_spec].
  destruct (Z.eqb_spec (active_shrinkers r) 0) as [|Hz]; [by apply malloc_large_alloc_spec|].
  destruct (wait_for_memory r curr _) as [o r1] eqn:Ew.
  pose proof (wait_for_memory_spec _ _ _ _ _ _ Hm Ew) as Hw.
  pose proof (mi_free _ _ Hm) as Hf. destruct (wf_bytes _ _ (mi_wf _ _ Hm)) as [B1 _].
  destruct o; [done|intros [= <- <-]..].
  - destruct Hw as (H1 & H2 & H3). by split_and!.
  - destruct Hw as (H1 & H2). split; [done|]. lia.
Qed.

Lemma malloc_large_spec r bs curr level size j block contiguous res r' :
  mem_inv (mm r) bs → 0 ≤ size < 2 ^ 62 → 0 ≤ j < 62 →
  malloc_large r curr level size (2 ^ j) block contiguous = (res, r') →
  large_post r bs curr size j block contiguous res r'.
Proof.
  intros Hm Hs Hj. unfold malloc_large. destruct ((huge_page_size <=? _) && negb contiguous) eqn:Eb.
  - apply andb_true_iff in Eb as [_ Eb%negb_true_iff]. by intros [= <- <-].
  - by apply malloc_large_iter_spec.
Qed.

Lemma blocks_ext m m' l : bm_buf m = bm_buf m' → bm_cap m = bm_cap m' → blocks m l = blocks m' l.
Proof. unfold blocks. by intros -> ->. Qed.

(** The same memory in use, cut into other blocks. *)
Lemma mem_inv_blocks m bs bs' :
  mem_inv m bs → wf (pra m) (blocks m bs') → (∀ i, covered bs' i ↔ covered bs i) → mem_inv m bs'.
Proof.
  intros Hm Hwf Hc. pose proof (mi_wf _ _ Hm) as Hwf0.
  assert (bytes bs' = bytes bs) as Eb.
  { pose proof (i_disj _ _ _ Hwf) as D1. pose proof (i_disj _ _ _ Hwf0) as D2.
    unfold blocks in D1, D2. rewrite !pairwise_app in D1, D2.
    apply (bytes_covered (Z.of_nat (length (bitmap (pra m))))); try tauto.
    - intros x Hx. apply (i_fits _ _ _ Hwf). unfold blocks. elem.
    - intros x Hx. apply (i_fits _ _ _ Hwf0). unfold blocks. elem. }
  eapply mem_inv_update; try done.
  - rewrite Eb, Z.add_simpl_r, wrap64_small; [done|]. rewrite (mi_free _ _ Hm).
    destruct (wf_bytes _ _ Hwf). unfold u64. lia.
  - intros i. rewrite !covered_app, Hc. done.
Qed.

Lemma page_blocks_covered p n i :
  covered (page_blocks (page_addr p) n) i ↔ p ≤ i < p + Z.of_nat n.
Proof.
  unfold covered. setoid_rewrite page_blocks_elem. split.
  - intros (x & (l & -> & Hl) & Hc). replace page_size with (1 * page_size) in Hc by done.
    rewrite covers_page in Hc. lia.
  - intros Hi. exists (page_addr i, page_size). split; [by exists i|].
    pose proof (covers_page i 1 i) as E. rewrite Z.mul_1_l in E. apply E. lia.
Qed.

(** A single huge page. *)
Lemma alloc_huge_page_spec m bs j r m' :
  mem_inv m bs → 12 ≤ j < 62 → alloc_huge_page m (2 ^ j) = (r, m') →
  match r with
  | Some a => mem_inv m' ((a, 2 ^ j) :: bs) ∧ (2 ^ j | a) ∧ frame (pra m) (pra m') bs ∧
      mem_inv m' (page_blocks a (Z.to_nat (2 ^ (j - 12))) ++ bs)
  | None => m' = wake m ∧ ∀ x b, x ∈ ranges (pra m) → x.1 ≤ b → b + 2 ^ j ≤ x.1 + x.2 →
      ¬ (2 ^ j | b)
  end.
Proof.
  intros Hm Hj. unfold alloc_huge_page. pose proof (mi_wf _ _ Hm) as Hwf.
  destruct (alloc_aligned _ _ _ _ _) as [[a|] s] eqn:Ea; intros [<- <-]%pair_equal_spec.
  all: assert (2 ^ j = 2 ^ (j - 12) * page_size) as En
    by (change page_size with (2 ^ 12); rewrite <- Z.pow_add_r by lia; f_equal; lia).
  all: assert (0 < 2 ^ (j - 12) < 2 ^ 52) as Hk
    by (split; [lia|apply Z.pow_lt_mono_r; lia]).
  all: pose proof (alloc_aligned_length _ _ _ _ _ _ _ Ea) as El.
  all: rewrite <- (Z.mul_0_l page_size) in Ea; rewrite En in Ea at 1.
  - destruct (alloc_aligned_taken _ _ _ 0 j true a s Hwf Hk ltac:(lia) Hj Ea) as [Ht Hal].
    pose proof (alloc_aligned_bits _ _ _ 0 j a s Hwf Hk ltac:(lia) Hj Ea) as Hb.
    rewrite <- En in Ht, Hb. rewrite Z.mul_0_l, Z.add_0_r in Hal.
    destruct (on_alloc_fields (set_pra m s) (2 ^ j)) as (F1 & F2 & F3 & F4 & F5 & F6 & F7).
    assert (mem_inv (on_alloc (set_pra m s) (2 ^ j)) ((a, 2 ^ j) :: bs)) as Hm'.
    { eapply mem_taken; try done; rewrite F1; done. }
    rewrite F1. split_and!; [done|done|eapply frame_app; apply Ht|].
    pose proof (tk_wf _ _ _ _ _ Ht) as Hwf'.
    destruct (i_fits _ _ _ Hwf' (a, 2 ^ j)) as (p & k & [= -> Ek] & _); [elem|].
    assert (k = Z.of_nat (Z.to_nat (2 ^ (j - 12)))) as ->.
    { rewrite Z2Nat.id by lia. unfold page_size in *. lia. }
    set (np := Z.to_nat (2 ^ (j - 12))) in *. rewrite Ek in *.
    apply wf_split_block in Hwf' as Hsp.
    2:{ intros i Hi. apply Hb. by rewrite covers_page. }
    apply (mem_inv_blocks _ _ _ Hm').
    + rewrite F1. eapply inv_blocks_perm; [|exact Hsp].
      rewrite (blocks_ext (on_alloc (set_pra m s) _) m) by done.
      unfold blocks. rewrite !(assoc_L (++)). f_equiv. by rewrite (comm (++)).
    + intros i. rewrite !covered_app, covered_cons, covers_page, page_blocks_covered. done.
  - destruct (alloc_aligned_complete _ _ _ 0 j true s Hwf Hk ltac:(lia) Hj Ea) as [-> Hno].
    split; [by destruct m|]. intros x b Hx H1 H2. rewrite En in H2 at 1.
    specialize (Hno x b Hx H1 H2). by rewrite Z.mul_0_l, Z.add_0_r in Hno.
Qed.

(** ** The memory as a transition system

    The critical sections of boot, of large objects, of huge pages and of single
    pages, with the blocks in use and the number of times [early_alloc_page] has
    returned null, which leaves its page taken off the counter.  Whoever frees a
    large object has left its header alone; every other byte of a block may have
    been written, the header of a huge page among them. *)
Inductive mstep (grow : Z → Z → Z → Z) : mem * list (Z * Z) * Z → mem * list (Z * Z) * Z → Prop :=
  | step_boot m bs z addr size m' :
      phys_mem ≤ addr → 0 ≤ size → addr + size ≤ phys_mem + 2 ^ 44 →
      (∀ y, y ∈ ranges (pra m) ++ blocks m bs → disj (addr, size) y) →
      free_initial_memory_range grow m addr size = Some m' →
      mstep grow (m, bs, z) (m', bs, z)
  | step_large r bs z curr size j block contiguous res r' :
      0 ≤ size < 2 ^ 62 → 0 ≤ j < 62 →
      malloc_large_alloc r curr (large_size size (2 ^ j)) (large_offset (2 ^ j)) (2 ^ j)
        block contiguous = (res, r') →
      mstep grow (mm r, bs, z)
        (mm r', match res with LObj obj => [(large_object_header obj, large_size size (2 ^ j))] | _ => [] end ++ bs, z)
  | step_free_large m bs z obj n :
      pr_size (pra m) (large_object_header obj) = n →
      mstep grow (m, (large_object_header obj, n) :: bs, z) (free_large m obj, bs, z)
  | step_huge m bs z j o m' :
      12 ≤ j < 62 → alloc_huge_page m (2 ^ j) = (o, m') →
      mstep grow (m, bs, z)
        (m', match o with Some a => page_blocks a (Z.to_nat (2 ^ (j - 12))) | None => [] end ++ bs, z)
  | step_free_at m bs z a n :
      mstep grow (m, (a, n) :: bs, z) (free_page_range_at m a n, bs, z)
  | step_page m bs z a m' :
      early_alloc_page m = (Some a, m') → mstep grow (m, bs, z) (m', (a, page_size) :: bs, z)
  | step_page_null m bs z m' :
      early_alloc_page m = (None, m') → mstep grow (m, bs, z) (m', bs, z + 1)
  | step_write m bs z a n k :
      mstep grow (m, (a, n) :: bs, z) (set_pra m (set_hdr (pra m) a k), (a, n) :: bs, z)
  | step_wake m bs z : mstep grow (m, bs, z) (wake m, bs, z)
  | step_perm m bs bs' z : bs ≡ₚ bs' → mstep grow (m, bs, z) (m, bs', z).

Lemma early_alloc_page_spec m bs a m' :
  mem_inv m bs → early_alloc_page m = (Some a, m') →
  mem_inv m' ((a, page_size) :: bs) ∧ frame (pra m) (pra m') bs.
Proof.
  intros Hm. unfold early_alloc_page.
  destruct (on_alloc_fields m page_size) as (F1 & F2 & F3 & F4 & F5 & F6 & F7).
  rewrite F1. destruct (alloc true (pra m) page_size true) as [r s] eqn:Ea.
  intros [-> <-]%pair_equal_spec.
  pose proof (alloc_length true (pra m) page_size true) as El. rewrite Ea in El.
  assert (taken (pra m) s (blocks m bs) a page_size) as Ht.
  { eapply (alloc_taken _ _ 1 true); [apply Hm|lia|done]. }
  split; [by eapply mem_taken|]. eapply frame_app. apply Ht.
Qed.

Lemma early_page_none m bs m' :
  mem_inv m bs → early_alloc_page m = (None, m') → pra m' = pra m ∧ ranges (pra m) = [].
Proof.
  intros Hm. unfold early_alloc_page. destruct (on_alloc_fields m page_size) as (F1 & _).
  rewrite F1. destruct (alloc true (pra m) page_size true) as [r s] eqn:Ea. intros [-> <-]%pair_equal_spec.
  destruct (alloc_none _ _ 1 true s (mi_wf _ _ Hm) ltac:(lia) Ea) as [-> Hno]. cbn [pra set_pra].
  split; [done|]. apply elem_of_nil_inv. intros x Hx.
  destruct (i_fits _ _ _ (mi_wf _ _ Hm) x) as (p & k & -> & _ & ? & _); [elem|].
  specialize (Hno eq_refl _ Hx). cbn in Hno. unfold page_size in Hno. lia.
Qed.

Lemma mem_inv_perm m bs bs' : bs ≡ₚ bs' → mem_inv m bs → mem_inv m bs'.
Proof.
  intros Hp Hm. apply (mem_inv_blocks _ _ _ Hm).
  - eapply inv_blocks_perm; [|apply Hm]. unfold blocks. by rewrite Hp.
  - intros i. by apply covered_perm.
Qed.

(** *** A counter that is off

    No critical section looks at [free_memory] but to wake the reclaimer, so a
    memory whose counter is off by [k] behaves as one whose counter is right. *)

Record like (k : Z) (m m0 : mem) : Prop := {
  lk_pra : pra m = pra m0;
  lk_buf : bm_buf m = bm_buf m0;
  lk_cap : bm_cap m = bm_cap m0;
  lk_deferred : deferred_free m = deferred_free m0;
  lk_total : total_memory m = total_memory m0;
  lk_mark : watermark_lo m = watermark_lo m0;
  lk_free : free_memory m = wrap64 (free_memory m0 - k);
}.

Lemma like_set_pra k m m0 s : like k m m0 → like k (set_pra m s) (set_pra m0 s).
Proof. by intros []. Qed.
Lemma like_set_buf k m m0 b c : like k m m0 → like k (set_buf m b c) (set_buf m0 b c).
Proof. by intros []. Qed.
Lemma like_set_deferred k m m0 d : like k m m0 → like k (set_deferred m d) (set_deferred m0 d).
Proof. by intros []. Qed.
Lemma like_wake k m m0 : like k m m0 → like k (wake m) (wake m0).
Proof. by intros []. Qed.

Lemma like_on_free k m m0 n : like k m m0 → like k (on_free m n) (on_free m0 n).
Proof.
  intros []. split; try done. cbn [on_free free_memory set_free_memory]. rewrite lk_free0. unfold wrap64, wrap.
  rewrite Zplus_mod_idemp_l, Zminus_mod_idemp_l. f_equal. lia.
Qed.

Lemma like_on_alloc k m m0 n : like k m m0 → like k (on_alloc m n) (on_alloc m0 n).
Proof.
  intros []. destruct (on_alloc_fields m n) as (F1 & F2 & F3 & F4 & F5 & F6 & F7).
  destruct (on_alloc_fields m0 n) as (G1 & G2 & G3 & G4 & G5 & G6 & G7). split; try congruence.
  rewrite F6, G6, lk_free0. unfold wrap64, wrap. rewrite !Zminus_mod_idemp_l. f_equal. lia.
Qed.

Lemma like_on_new k m m0 n : like k m m0 → like k (on_new_memory m n) (on_new_memory m0 n).
Proof. intros []. split; try done; cbn; by rewrite lk_total0. Qed.

Lemma like_free k m m0 a n : like k m m0 → like k (free_page_range_at m a n) (free_page_range_at m0 a n).
Proof.
  intros H. unfold free_page_range_at, free_page_range. cbn [pra set_pra on_free set_free_memory]. rewrite (lk_pra _ _ _ H).
  by apply like_set_pra, like_on_free, like_set_pra.
Qed.

Lemma like_free_large k m m0 obj : like k m m0 → like k (free_large m obj) (free_large m0 obj).
Proof.
  intros H. unfold free_large, free_page_range. cbn [pra on_free set_free_memory]. rewrite (lk_pra _ _ _ H).
  by apply like_set_pra, like_on_free.
Qed.

Lemma like_early k m m0 o m' :
  like k m m0 → early_alloc_page m = (o, m') → ∃ m0', early_alloc_page m0 = (o, m0') ∧ like k m' m0'.
Proof.
  intros H%(like_on_alloc k m m0 page_size). unfold early_alloc_page. rewrite (lk_pra _ _ _ H).
  destruct (alloc true _ page_size true) as [r s]. intros [= <- <-]. eexists. split; [done|by apply like_set_pra].
Qed.

Lemma like_huge k m m0 n o m' :
  like k m m0 → alloc_huge_page m n = (o, m') → ∃ m0', alloc_huge_page m0 n = (o, m0') ∧ like k m' m0'.
Proof.
  intros H. unfold alloc_huge_page. rewrite (lk_pra _ _ _ H). destruct (alloc_aligned _ n 0 n true) as [[a|] s];
    intros [= <- <-]; eexists; (split; [done|]); [by apply like_on_alloc, like_set_pra|by apply like_wake, like_set_pra].
Qed.

Lemma like_large k r m0 curr size offset alignment block contiguous res r' :
  like k (mm r) m0 → malloc_large_alloc r curr size offset alignment block contiguous = (res, r') →
  ∃ r0', malloc_large_alloc (set_mm r m0) curr size offset alignment block contiguous = (res, r0') ∧ like k (mm r') (mm r0').
Proof.
  intros H. unfold malloc_large_alloc. cbn [mm set_mm]. rewrite (lk_pra _ _ _ H).
  destruct (if page_size <? alignment then _ else _) as [[h|] s].
  { intros [= <- <-]. eexists. split; [done|]. by apply like_on_alloc, like_set_pra. }
  pose proof (like_set_pra k _ _ s H) as H'.
  destruct contiguous; cbn [negb]; [|intros [= <- <-]; by eexists].
  destruct block; [|intros [= <- <-]; by eexists].
  unfold wait_for_memory, wait. cbn [mm set_mm total_memory set_pra reclaimer_id]. rewrite (lk_total _ _ _ H).
  destruct (_ <? _); [intros [= <- <-]; by eexists|].
  destruct (_ =? _); intros [= <- <-]; eexists; (split; [done|]); [done|by apply like_wake].
Qed.

Lemma like_resize grow k m m0 idx m' :
  like k m m0 → bitmap_resize grow m idx = Some m' → ∃ m0', bitmap_resize grow m0 idx = Some m0' ∧ like k m' m0'.
Proof.
  intros H. unfold bitmap_resize, bitmap_allocate. rewrite (lk_cap _ _ _ H).
  case_match; [|intros [= <-]; eexists; (split; [done|]); rewrite (lk_pra _ _ _ H); by apply like_set_pra].
  rewrite (lk_pra _ _ _ H). set (n := grow _ _ _). pose proof (like_on_alloc k _ _ (get_size n) H) as H1.
  rewrite (lk_pra _ _ _ H1). destruct (alloc false _ _ true) as [[p|] s]; [|done].
  pose proof (like_set_pra k _ _ s H1) as H2. rewrite (lk_cap _ _ _ H2), (lk_buf _ _ _ H2).
  destruct (_ =? 0).
  - intros [= <-]. eexists. split; [done|]. cbn [pra set_buf set_pra]. by apply like_set_pra, like_set_buf.
  - unfold bitmap_deallocate. set (sz := get_size (bm_cap _)). pose proof (like_on_free k _ _ sz H2) as H3.
    cbn [deferred_free set_pra]. rewrite (lk_deferred _ _ _ H3). destruct (_ =? 0); [|done]. intros [= <-]. eexists.
    split; [done|]. cbn [pra set_buf set_pra set_deferred on_free set_free_memory].
    by apply like_set_pra, like_set_buf, like_set_deferred, like_set_pra.
Qed.

Lemma like_initial_add grow k m m0 pr m' :
  like k m m0 → initial_add grow m pr = Some m' → ∃ m0', initial_add grow m0 pr = Some m0' ∧ like k m' m0'.
Proof.
  intros H. unfold initial_add. rewrite (lk_pra _ _ _ H).
  destruct (_ <? _); [|intros [= <-]; eexists; (split; [done|by apply like_set_pra])].
  destruct (initial_merge (pra m0) pr) as [q s]. pose proof (like_set_pra k _ _ (insert false s q) H) as H1.
  destruct (bitmap_resize grow (set_pra m _) _) as [m1|] eqn:E; [|done]. cbn [mbind option_bind].
  destruct (like_resize grow k _ _ _ _ H1 E) as (m2 & -> & H2). cbn [mbind option_bind]. intros [= <-]. eexists. split; [done|].
  rewrite (lk_pra _ _ _ H2). pose proof (like_set_pra k _ _ (set_all_bits (pra m2)) H2) as H3.
  cbn [deferred_free set_pra]. rewrite (lk_deferred _ _ _ H2). case_match; [done|]. by apply like_set_deferred, like_set_pra.
Qed.

Lemma like_initial grow k m m0 addr size m' :
  like k m m0 → free_initial_memory_range grow m addr size = Some m' →
  ∃ m0', free_initial_memory_range grow m0 addr size = Some m0' ∧ like k m' m0'.
Proof.
  intros H. unfold free_initial_memory_range. repeat (case_match; [intros [= <-]; by eexists|]).
  apply like_initial_add. cbn [pra on_free set_free_memory on_new_memory set_total]. rewrite (lk_pra _ _ _ H).
  by apply like_set_pra, like_on_free, like_on_new.
Qed.

(** All of the invariant but the counter. *)
Lemma like_exact k m m0 bs : like k m m0 → mem_inv m0 bs → mem_inv (set_free_memory m (bytes (ranges (pra m)))) bs.
Proof.
  intros [E1 E2 E3 E4 E5 E6 _] []. assert (blocks (set_free_memory m (bytes (ranges (pra m)))) bs = blocks m0 bs) as Eb.
  { unfold blocks. cbn. by rewrite E2, E3. }
  split; rewrite ?Eb; cbn; by rewrite ?E1, ?E3, ?E4, ?E5, ?E6.
Qed.

Lemma early_null_like k m m0 bs m' :
  like k m m0 → mem_inv m0 bs → early_alloc_page m = (None, m') → like (k + page_size) m' m0 ∧ ranges (pra m') = [].
Proof.
  intros H Hm E. destruct (like_early k m m0 _ _ H E) as (m1 & E1 & H1). destruct (early_page_none _ _ _ Hm E1) as [Hp Hr].
  unfold early_alloc_page in E1. destruct (on_alloc_fields m0 page_size) as (F1 & F2 & F3 & F4 & F5 & F6 & F7).
  destruct (alloc true _ page_size true) as [r s]. injection E1 as -> <-. destruct H1 as [L1 L2 L3 L4 L5 L6 L7]. cbn in *.
  split; [|by rewrite L1, Hp]. split; try congruence.
  rewrite L7, F6. unfold wrap64, wrap. rewrite Zminus_mod_idemp_l. f_equal. lia.
Qed.

Definition mem_ok (m : mem) (bs : list (Z * Z)) : Prop := ∃ k m0, like k m m0 ∧ mem_inv m0 bs.

Lemma mem_inv_ok m bs : mem_inv m bs → mem_ok m bs.
Proof.
  intros Hm. exists 0, m. split; [|done]. split; try done. rewrite Z.sub_0_r, wrap64_small; [done|].
  rewrite (mi_free _ _ Hm). destruct (wf_bytes _ _ (mi_wf _ _ Hm)). unfold u64. lia.
Qed.

Lemma mem_ok_wf m bs : mem_ok m bs → wf (pra m) (blocks m bs).
Proof. intros (k & m0 & HL & Hm). rewrite (lk_pra _ _ _ HL), (blocks_ext m m0) by apply HL. apply Hm. Qed.

Lemma mem_ok_perm m bs bs' : bs ≡ₚ bs' → mem_ok m bs → mem_ok m bs'.
Proof. intros Hp (k & m0 & HL & Hm). exists k, m0. split; [done|by eapply mem_inv_perm]. Qed.

Lemma mem_ok_blocks m bs bs' :
  mem_ok m bs → wf (pra m) (blocks m bs') → (∀ i, covered bs' i ↔ covered bs i) → mem_ok m bs'.
Proof.
  intros (k & m0 & HL & Hm) Hw Hc. exists k, m0. split; [done|]. eapply mem_inv_blocks; [done| |done].
  by rewrite <- (lk_pra _ _ _ HL), <- (blocks_ext m m0) by apply HL.
Qed.

Lemma mem_ok_early m bs a m' :
  mem_ok m bs → early_alloc_page m = (Some a, m') → mem_ok m' ((a, page_size) :: bs).
Proof.
  intros (k & m0 & HL & Hm) E. destruct (like_early _ _ _ _ _ HL E) as (m1 & E1 & HL1). exists k, m1. split; [done|].
  by eapply early_alloc_page_spec in E1 as [? _].
Qed.

Lemma mem_ok_early_null m bs m' :
  mem_ok m bs → early_alloc_page m = (None, m') → mem_ok m' bs ∧ pra m' = pra m ∧ ranges (pra m) = [].
Proof.
  intros (k & m0 & HL & Hm) E. destruct (early_null_like _ _ _ _ _ HL Hm E) as [HL1 Hr]. split; [by exists (k + page_size), m0|].
  assert (pra m' = pra m) as Ep by (by rewrite (lk_pra _ _ _ HL1), (lk_pra _ _ _ HL)). by rewrite <- Ep.
Qed.

Lemma mem_ok_huge m bs j o m' :
  mem_ok m bs → 12 ≤ j < 62 → alloc_huge_page m (2 ^ j) = (o, m') →
  match o with
  | Some a => (2 ^ j | a) ∧ mem_ok m' (page_blocks a (Z.to_nat (2 ^ (j - 12))) ++ bs)
  | None => mem_ok m' bs ∧ pra m' = pra m
  end.
Proof.
  intros (k & m0 & HL & Hm) Hj E. destruct (like_huge _ _ _ _ _ _ HL E) as (m1 & E1 & HL1).
  pose proof (alloc_huge_page_spec _ _ _ _ _ Hm Hj E1) as Hp. destruct o as [a|].
  - destruct Hp as (_ & ? & _ & ?). split; [done|by exists k, m1].
  - destruct Hp as [-> _]. split; [exists k, (wake m0); split; [done|by apply mem_inv_wake]|].
    by rewrite (lk_pra _ _ _ HL1), (lk_pra _ _ _ HL).
Qed.

Lemma mem_ok_freed m bs a n : mem_ok m ((a, n) :: bs) → mem_ok (free_page_range_at m a n) bs.
Proof. intros (k & m0 & HL & Hm). exists k, (free_page_range_at m0 a n). split; [by apply like_free|by apply mem_freed_at]. Qed.

(** ** Properties *)

(** every path through [malloc_large], from its start or resumed after
    either of its waits, returns an object that is aligned, lies inside its block
    behind the header and leaves the other blocks alone, or does nothing but the
    bookkeeping of the wait, the mapping or the failure; a contiguous request
    waits for memory only if no free range is large enough. *)
Theorem malloc_large_correct r bs curr level size j block contiguous res r' :
  mem_inv (mm r) bs → 0 ≤ size < 2 ^ 62 → 0 ≤ j < 62 →
  let n := large_size size (2 ^ j) in
  let o := large_offset (2 ^ j) in
  malloc_large r curr level size (2 ^ j) block contiguous = (res, r') ∨
  malloc_large_iter r curr level n o (2 ^ j) block contiguous = (res, r') ∨
  malloc_large_alloc r curr n o (2 ^ j) block contiguous = (res, r') →
  large_post r bs curr size j block contiguous res r'.
Proof.
  intros Hm Hs Hj n o [E|[E|E]].
  - by eapply malloc_large_spec.
  - by eapply malloc_large_iter_spec.
  - by eapply malloc_large_alloc_spec.
Qed.

Definition ex_large : Reclaim.t := mk ex_mem [] [] 0 [] 9.

Lemma malloc_large_correct_witness :
  large_post ex_large [] 1 5000 4 true true
    (LObj (page_addr 2 + 64)) (malloc_large ex_large 1 0 5000 16 true true).2.
Proof.
  apply (malloc_large_correct ex_large [] 1 0 5000 4 true true); [apply ex_mem_inv|lia|lia|].
  left. vm_compute. reflexivity.
Defined.

(** C26: [free_large] undoes [malloc_large]: from the object alone it finds the
    block and gives exactly it back; until then the usable size reported for the
    object is what lies between it and the end of its block, at least the size
    asked for. *)
Theorem malloc_free_large_roundtrip r bs curr level size j block contiguous obj r' :
  mem_inv (mm r) bs → 0 ≤ size < 2 ^ 62 → 0 ≤ j < 62 →
  malloc_large r curr level size (2 ^ j) block contiguous = (LObj obj, r') →
  let m := free_large (mm r') obj in
  mem_inv m bs ∧ free_memory m = free_memory (mm r) ∧ frame (pra (mm r)) (pra m) bs ∧
  (∀ i, covered (ranges (pra m)) i ↔ covered (ranges (pra (mm r))) i) ∧
  size ≤ large_object_size (mm r') obj.
Proof.
  intros Hm Hs Hj E m. revert E. unfold malloc_large.
  destruct ((huge_page_size <=? _) && negb contiguous); [done|]. intros E.
  pose proof (malloc_large_iter_spec _ _ _ _ _ _ _ _ _ _ Hm Hs Hj E) as Hp.
  unfold large_post in Hp.
  set (b := large_object_header obj) in Hp. set (n := large_size size (2 ^ j)) in Hp.
  destruct Hp as (Hm' & Hsz & Hfr & _ & Hfm & Hpg & _ & Hlo & Hhi).
  destruct (block_released (mm r') bs b n Hm' Hsz) as (H1 & H2 & H3 & H4).
  split_and!; [done|unfold m, free_large; fold b; lia|by eapply frame_trans| |].
  - intros i. rewrite Hpg. apply H4.
  - unfold large_object_size, large_object_offset. fold b. rewrite Hsz.
    destruct (large_size_spec size j Hs Hj) as (k & Ek & Hk & _). fold n in Ek.
    unfold sizeof_page_range, page_size in *.
    rewrite (wrap64_small (obj - b)), wrap64_small by (unfold u64; lia). lia.
Qed.

Definition ex_large' : Reclaim.t := (malloc_large ex_large 1 0 5000 (2 ^ 13) true true).2.

Lemma malloc_free_large_roundtrip_witness :
  free_memory (free_large (mm ex_large') (page_addr 8)) = free_memory (mm ex_large).
Proof.
  assert (malloc_large ex_large 1 0 5000 (2 ^ 13) true true = (LObj (page_addr 8), ex_large')) as E
    by (vm_compute; reflexivity).
  destruct (malloc_free_large_roundtrip ex_large [] 1 0 5000 13 true true (page_addr 8) ex_large'
    ex_mem_inv ltac:(lia) ltac:(lia) E) as (_ & H & _).
  exact H.
Defined.

(** a huge page is aligned to its size, is freed as a whole or page by page,
    and is refused only when no aligned block of its size is free, in which case
    the reclaimer is woken. *)
Theorem alloc_huge_page_correct m bs j r m' :
  mem_inv m bs → 12 ≤ j < 62 → alloc_huge_page m (2 ^ j) = (r, m') →
  match r with
  | Some a =>
      (2 ^ j | a) ∧ frame (pra m) (pra m') bs ∧
      mem_inv m' (page_blocks a (Z.to_nat (2 ^ (j - 12))) ++ bs) ∧
      mem_inv (free_huge_page m' a (2 ^ j)) bs
  | None =>
      m' = wake m ∧ ∀ x b, x ∈ ranges (pra m) → x.1 ≤ b → b + 2 ^ j ≤ x.1 + x.2 → ¬ (2 ^ j | b)
  end.
Proof.
  intros Hm Hj E. pose proof (alloc_huge_page_spec _ _ _ _ _ Hm Hj E) as H.
  destruct r; [|done]. destruct H as (H1 & H2 & H3 & H4). split_and!; try done. by apply mem_freed_at.
Qed.

Lemma alloc_huge_page_correct_witness :
  mem_inv (free_huge_page (alloc_huge_page ex_mem (2 ^ 13)).2 (page_addr 8) (2 ^ 13)) [].
Proof.
  apply (alloc_huge_page_correct ex_mem [] 13 (Some (page_addr 8))); [apply ex_mem_inv|lia|].
  vm_compute. reflexivity.
Defined.

Lemma mstep_like grow m0 x y :
  (∀ s c n, n ≤ grow s c n) → (∀ s c n, 0 ≤ s ≤ n → n ≤ 2 ^ 26 → grow s c n ≤ 2 ^ 50) →
  mstep grow x y → mem_inv m0 x.1.2 → like (x.2 * page_size) x.1.1 m0 →
  ∃ m0', mem_inv m0' y.1.2 ∧ like (y.2 * page_size) y.1.1 m0'.
Proof.
  intros Hg1 Hg2 Hs. destruct Hs; cbn [fst snd]; intros Hm HL.
  - destruct (like_initial _ _ _ _ _ _ _ HL H3) as (m1 & E & HL1). exists m1. split; [|done].
    rewrite (lk_pra _ _ _ HL), (blocks_ext m m0) in H2 by apply HL. by eapply free_initial_ok.
  - destruct (like_large _ _ _ _ _ _ _ _ _ _ _ HL H1) as (r0' & E & HL1). exists (mm r0'). split; [|done].
    pose proof (malloc_large_alloc_spec _ _ _ _ _ _ _ _ _ (Hm : mem_inv (mm (set_mm r m0)) bs) H H0 E) as Hp.
    destruct res; cbn [app large_post] in *; [by destruct Hp|by destruct Hp as (_ & _ & ->)|by destruct Hp as (_ & -> & _)|
      by destruct Hp as (_ & _ & _ & ? & _)|by destruct Hp as (_ & ? & _)|by destruct Hp as (-> & _)].
  - exists (free_large m0 obj). split; [|by apply like_free_large]. eapply block_released; [done|]. by rewrite <- (lk_pra _ _ _ HL).
  - destruct (like_huge _ _ _ _ _ _ HL H0) as (m1 & E & HL1). exists m1. split; [|done].
    pose proof (alloc_huge_page_spec _ _ _ _ _ Hm H E) as Hp. destruct o as [a|]; [by destruct Hp as (_ & _ & _ & ?)|].
    destruct Hp as [-> _]. by apply mem_inv_wake.
  - exists (free_page_range_at m0 a n). split; [by apply mem_freed_at|by apply like_free].
  - destruct (like_early _ _ _ _ _ HL H) as (m1 & E & HL1). exists m1. split; [|done]. by eapply early_alloc_page_spec in E as [? _].
  - exists m0. split; [done|]. rewrite Z.mul_add_distr_r, Z.mul_1_l. by eapply early_null_like in H as [? _].
  - exists (set_pra m0 (set_hdr (pra m0) a k)). split; [by apply mem_set_hdr|]. rewrite (lk_pra _ _ _ HL). by apply like_set_pra.
  - exists (wake m0). split; [by apply mem_inv_wake|by apply like_wake].
  - exists m0. split; [by eapply mem_inv_perm|done].
Qed.

(** C6: in every state the critical sections of boot, large objects, huge pages and
    single pages can reach from the empty allocator, in any order and with any writes
    of the owners into their blocks, the invariant holds: blocks in use and free
    ranges are disjoint, the bitmap fits, and [total_memory] is what was added at
    boot.  [free_memory] is the number of free bytes, less one page (modulo 2^64)
    for each time [early_alloc_page] returned null, since it counts the page before
    it looks for one. *)
Theorem mem_reachable (grow : Z → Z → Z → Z) m bs z :
  (∀ s c n, n ≤ grow s c n) →
  (∀ s c n, 0 ≤ s ≤ n → n ≤ 2 ^ 26 → grow s c n ≤ 2 ^ 50) →
  rtc (mstep grow) (initial, [], 0) (m, bs, z) →
  mem_inv (set_free_memory m (bytes (ranges (pra m)))) bs ∧
  free_memory m = wrap64 (bytes (ranges (pra m)) - z * page_size) ∧
  pairwise disj (ranges (pra m) ++ blocks m bs).
Proof.
  intros Hg1 Hg2 Hr.
  assert (∃ m0, mem_inv m0 bs ∧ like (z * page_size) m m0) as (m0 & Hm & HL).
  { refine (rtc_invariant (mstep grow) (λ p, ∃ m0, mem_inv m0 p.1.2 ∧ like (p.2 * page_size) p.1.1 m0) _ _ _ Hr _).
    - intros x y Hs (m0 & ? & ?). by eapply mstep_like.
    - exists initial. split; [exact mem_inv_initial|done]. }
  pose proof (like_exact _ _ _ _ HL Hm) as Ho. split; [exact Ho|]. split.
  - rewrite (lk_free _ _ _ HL), (mi_free _ _ Hm). by rewrite (lk_pra _ _ _ HL).
  - pose proof (i_disj _ _ _ (mi_wf _ _ Ho)) as Hd. by rewrite app_nil_r in Hd.
Qed.

(** The machine with ten pages, all of which a large object takes, so that an early
    page is refused; then the object is freed. *)
Definition ex_all : Reclaim.t := (malloc_large ex_large 1 0 36000 16 true true).2.
Definition ex_refused : mem := (early_alloc_page (mm ex_all)).2.

Lemma mem_reachable_witness :
  let m := free_large ex_refused (page_addr 2 + 64) in
  free_memory m = wrap64 (bytes (ranges (pra m)) - 1 * page_size) ∧ free_memory m = 8 * page_size.
Proof.
  split; [|vm_compute; reflexivity].
  apply (mem_reachable vector_growth _ [] 1).
  - unfold vector_growth. lia.
  - unfold vector_growth. lia.
  - apply rtc_l with (ex_mem, [], 0).
    { eapply (step_boot _ _ _ _ (phys_mem + page_size) (10 * page_size)); [done..| |].
      - intros y Hy. change (y ∈ []) in Hy. exfalso. by apply not_elem_of_nil in Hy.
      - vm_compute. reflexivity. }
    apply rtc_l with (mm ex_all, [(page_addr 2, large_size 36000 (2 ^ 4))], 0).
    { apply (step_large vector_growth ex_large [] 0 1 36000 4 true true (LObj (page_addr 2 + 64)) ex_all);
        [lia|lia|]. vm_compute. reflexivity. }
    apply rtc_l with (ex_refused, [(page_addr 2, large_size 36000 (2 ^ 4))], 0 + 1).
    { apply step_page_null. vm_compute. reflexivity. }
    apply rtc_once.
    apply (step_free_large vector_growth ex_refused [] 1 (page_addr 2 + 64)). vm_compute. reflexivity.
Defined.
