(* ===== verification/PageSource.v ===== *)
(** * Where pages come from

    The interface between the allocators of small objects and the allocators of
    pages ([untracked_alloc_page] and [untracked_free_page] of
    [core/mempool.cc]): the clients of pages are proved against this class; the
    early page allocator and the page pools are its instances. *)
From S2P Require Import Prelude Bits MemArea.

(** [ps_inv p held] is the invariant of the allocator while its clients hold the
    pages [held]; [ps_cpu p cpu] says that the CPU exists. *)
Class PageSource (P : Type) := {
  ps_alloc : nat → prog P Z;
  ps_free : nat → Z → prog P unit;
  ps_inv : P → list Z → Prop;
  ps_cpu : P → nat → Prop;
  ps_pages p held : ps_inv p held →
    NoDup held ∧ ∀ v, v ∈ held → v ≠ 0 ∧ (page_size | v) ∧ in_area main v;
  ps_perm p held held' : held ≡ₚ held' → ps_inv p held → ps_inv p held';
  ps_alloc_spec p held cpu : ps_inv p held → ps_cpu p cpu →
    wp (ps_alloc cpu) p
      (λ v p', ps_inv p' (v :: held) ∧ ∀ c, ps_cpu p c → ps_cpu p' c)
      (λ p', ps_inv p' held ∧ ∀ c, ps_cpu p c → ps_cpu p' c) True;
  ps_free_spec p held cpu v : ps_inv p (v :: held) → ps_cpu p cpu →
    wp (ps_free cpu v) p
      (λ _ p', ps_inv p' held ∧ ∀ c, ps_cpu p c → ps_cpu p' c)
      (λ _, False) False;
}.
