(* ===== verification/PagePool.v ===== *)
(** * The page pools

    [page_pool::l1] and [page_pool::l2] of [core/mempool.cc]: a stack of single
    pages per CPU in front of a global stack of batches of pages, which is filled
    from and emptied into the free page ranges.  A batch lives in one of its own
    pages. *)
From S2P Require Import Prelude Bits MemArea PageRange PageRangeSpec Memory Reclaim Large PageSource.
Import PageRanges Memory Reclaim Large.

(** [CONF_memory_l1_pool_size] and [CONF_memory_page_batch_size]. *)
Definition l1_max : Z := 512.
Definition nr_pages : Z := 32.
Definition l1_watermark_lo : Z := l1_max * 1 / 4.
Definition l1_watermark_hi : Z := l1_max * 3 / 4.

Module PagePool.
Local Open Scope prog_scope.

(** [_pages], the last page pushed first, and the entry in [l1_pool_stats]. *)
Record l1 := mkL1 { l1_pages : list Z; stat_nr : Z }.

Definition nr (b : l1) : Z := Z.of_nat (length (l1_pages b)).

(** The pools: [rc] is the memory below them, [l1s] the pool of each CPU;
    [l2_stack] and [l2_nr] are [_stack] and [_nr], [batches] the [page_batch] in
    the memory of a page.  [l1_wakes] and [l2_wakes] record the wake-ups of the
    filling threads. *)
Record t := mk {
  rc : Reclaim.t;
  l1s : list l1;
  l2_stack : list Z;
  l2_nr : Z;
  batches : gmap Z (list Z);
  l1_wakes : list nat;
  l2_wakes : Z;
}.

Definition set_rc (p : t) (r : Reclaim.t) : t :=
  mk r (l1s p) (l2_stack p) (l2_nr p) (batches p) (l1_wakes p) (l2_wakes p).
Definition set_l1s (p : t) (l : list l1) : t :=
  mk (rc p) l (l2_stack p) (l2_nr p) (batches p) (l1_wakes p) (l2_wakes p).
Definition set_l2 (p : t) (st : list Z) (n : Z) : t :=
  mk (rc p) (l1s p) st n (batches p) (l1_wakes p) (l2_wakes p).
Definition set_batch (p : t) (pb : Z) (b : list Z) : t :=
  mk (rc p) (l1s p) (l2_stack p) (l2_nr p) (<[pb := b]> (batches p)) (l1_wakes p) (l2_wakes p).
Definition wake_l1 (cpu : nat) (p : t) : t :=
  mk (rc p) (l1s p) (l2_stack p) (l2_nr p) (batches p) (cpu :: l1_wakes p) (l2_wakes p).
Definition wake_l2 (p : t) : t :=
  mk (rc p) (l1s p) (l2_stack p) (l2_nr p) (batches p) (l1_wakes p) (l2_wakes p + 1).

Definition batch_of (p : t) (pb : Z) : list Z := default [] (batches p !! pb).

(** ** The pool of a CPU *)

Definition get_l1 (cpu : nat) : prog t l1 := λ p,
  match l1s p !! cpu with Some b => Ret b p | None => Fault end.

Definition put_l1 (cpu : nat) (b : l1) : prog t unit :=
  modify (λ p, set_l1s p (<[cpu := b]> (l1s p))).

Definition pop (cpu : nat) : prog t Z :=
  b ⟵ get_l1 cpu;
  match l1_pages b with
  | [] => fault
  | v :: l => put_l1 cpu (mkL1 l (nr b - 1)) ;;; ret v
  end.

Definition push (cpu : nat) (page : Z) : prog t unit :=
  b ⟵ get_l1 cpu;
  check (nr b <? l1_max) ;;;
  put_l1 cpu (mkL1 (page :: l1_pages b) (nr b + 1)).

(** ** The global pool *)

Definition l2_max (p : t) : Z := Z.of_nat (length (l1s p)) * (l1_max / nr_pages).
Definition l2_watermark_lo (p : t) : Z := l2_max p * 1 / 4.
Definition l2_watermark_hi (p : t) : Z := l2_max p * 3 / 4.

(** The lock-free stack has room for [l2_max] batches. *)
Definition stack_push (pb : Z) : prog t bool := λ p,
  if Z.of_nat (length (l2_stack p)) <? l2_max p
  then Ret true (set_l2 p (pb :: l2_stack p) (l2_nr p)) else Ret false p.

Definition stack_pop : prog t (option Z) := λ p,
  match l2_stack p with
  | [] => Ret None p
  | pb :: st => Ret (Some pb) (set_l2 p st (l2_nr p))
  end.

Definition inc_nr : prog t unit := modify (λ p, set_l2 p (l2_stack p) (l2_nr p + 1)).
Definition dec_nr : prog t unit := modify (λ p, set_l2 p (l2_stack p) (l2_nr p - 1)).

Definition try_alloc_page_batch : prog t (option Z) :=
  p ⟵ get;
  (if l2_nr p <? l2_watermark_lo p then modify wake_l2 else ret tt) ;;;
  o ⟵ stack_pop;
  match o with
  | None => ret None
  | Some pb => dec_nr ;;; ret (Some pb)
  end.

Definition try_free_page_batch (pb : Z) : prog t bool :=
  p ⟵ get;
  (if l2_watermark_hi p <? l2_nr p then modify wake_l2 else ret tt) ;;;
  ok ⟵ stack_push pb;
  if (ok : bool) then inc_nr ;;; ret true else ret false.

(** The pages go back to the free page ranges one by one. *)
Definition on_mem (f : mem → mem) : prog t unit :=
  modify (λ p, set_rc p (set_mm (rc p) (f (mm (rc p))))).

Fixpoint free_batch (l : list Z) : prog t unit :=
  match l with
  | [] => ret tt
  | v :: l =>
      check (negb (v =? 0)) ;;;
      on_mem (λ m, free_page_range_at m v page_size) ;;;
      free_batch l
  end.

(** [n] times [free_page_ranges.alloc(page_size)]; null pages are 0. *)
Fixpoint alloc_pages (n : nat) (s : PageRanges.t) : list Z * PageRanges.t :=
  match n with
  | O => ([], s)
  | S n =>
      let '(v, s) := alloc true s page_size true in
      let '(l, s) := alloc_pages n s in
      (default 0 v :: l, s)
  end.

(** The turn of the loop of [l2::refill] once its thread need not wait: writing
    the batch through a null pointer is the fault. *)
Definition l2_refill_batch : prog t unit := λ p,
  let m := mm (rc p) in
  let '(l, s) := alloc_pages (Z.to_nat nr_pages) (pra m) in
  let m := on_alloc (set_pra m s) (nr_pages * page_size) in
  let p := set_rc p (set_mm (rc p) m) in
  match last l with
  | None => Fault
  | Some pb =>
      (check (negb (pb =? 0)) ;;;
       modify (λ p, set_batch p pb l) ;;;
       ok ⟵ stack_push pb;
       if (ok : bool) then inc_nr else free_batch l) p
  end.

(** The waits in front of it; a thread that wakes up goes on with
    [l2_refill_batch], or after the first wait with the second test. *)
Definition l2_wait_min (curr level : Z) : prog t unit := λ p,
  match wait_for_minimum_memory (rc p) curr level with
  | (Continue, r) => Ret tt (set_rc p r)
  | (Sleep, r) => Blocked (set_rc p r)
  | (Abort, _) => Fault
  end.

Definition l2_wait_empty (curr : Z) : prog t unit := λ p,
  if is_empty (pra (mm (rc p))) then
    match wait_for_memory (rc p) curr page_size with
    | (Continue, r) => Ret tt (set_rc p r)
    | (Sleep, r) => Blocked (set_rc p r)
    | (Abort, _) => Fault
    end
  else Ret tt p.

(** The loops run while the counter is on the wrong side of the middle; [fuel]
    bounds their turns. *)
Fixpoint l2_refill (fuel : nat) (curr level : Z) : prog t unit :=
  match fuel with
  | O => ret tt
  | S fuel =>
      p ⟵ get;
      if l2_nr p <? l2_max p / 2 then
        l2_wait_min curr level ;;; l2_wait_empty curr ;;; l2_refill_batch ;;;
        l2_refill fuel curr level
      else ret tt
  end.

Fixpoint l2_unfill (fuel : nat) : prog t unit :=
  match fuel with
  | O => ret tt
  | S fuel =>
      p ⟵ get;
      if l2_max p / 2 <? l2_nr p then
        o ⟵ stack_pop;
        match o with
        | Some pb => dec_nr ;;; p ⟵ get; free_batch (batch_of p pb) ;;; l2_unfill fuel
        | None => l2_unfill fuel
        end
      else ret tt
  end.

(** Fuel for either loop: the counter moves by one a turn. *)
Definition l2_fuel (p : t) : nat := Z.to_nat (l2_max p).

Fixpoint alloc_page_batch (fuel : nat) (curr level : Z) : prog t Z :=
  match fuel with
  | O => fault
  | S fuel =>
      o ⟵ try_alloc_page_batch;
      match o with
      | Some pb => ret pb
      | None =>
          p ⟵ get; l2_refill (l2_fuel p) curr level ;;; alloc_page_batch fuel curr level
      end
  end.

Fixpoint free_page_batch (fuel : nat) (pb : Z) : prog t unit :=
  match fuel with
  | O => fault
  | S fuel =>
      ok ⟵ try_free_page_batch pb;
      if (ok : bool) then ret tt
      else p ⟵ get; l2_unfill (l2_fuel p) ;;; free_page_batch fuel pb
  end.

(** ** Filling and emptying the pool of a CPU *)

Fixpoint push_all (cpu : nat) (l : list Z) : prog t unit :=
  match l with
  | [] => ret tt
  | v :: l => push cpu v ;;; push_all cpu l
  end.

Fixpoint pop_n (cpu : nat) (n : nat) : prog t (list Z) :=
  match n with
  | O => ret []
  | S n => v ⟵ pop cpu; l ⟵ pop_n cpu n; ret (v :: l)
  end.

Definition l1_refill (cpu : nat) (curr level : Z) : prog t unit :=
  b ⟵ get_l1 cpu;
  if nr b + nr_pages <? l1_max / 2 then
    pb ⟵ alloc_page_batch 2 curr level;
    b ⟵ get_l1 cpu;
    if nr b + nr_pages <=? l1_max then
      p ⟵ get; push_all cpu (batch_of p pb)
    else free_page_batch 2 pb
  else ret tt.

Definition l1_unfill (cpu : nat) : prog t unit :=
  b ⟵ get_l1 cpu;
  if nr_pages + l1_max / 2 <? nr b then
    match l1_pages b with
    | [] => fault
    | pb :: _ =>
        l ⟵ pop_n cpu (Z.to_nat nr_pages);
        modify (λ p, set_batch p pb l) ;;;
        free_page_batch 2 pb
    end
  else ret tt.

Definition alloc_page_local (cpu : nat) : prog t (option Z) :=
  b ⟵ get_l1 cpu;
  (if nr b <? l1_watermark_lo then modify (wake_l1 cpu) else ret tt) ;;;
  if nr b =? 0 then ret None
  else v ⟵ pop cpu; ret (Some v).

Definition free_page_local (cpu : nat) (v : Z) : prog t bool :=
  b ⟵ get_l1 cpu;
  (if l1_watermark_hi <? nr b then modify (wake_l1 cpu) else ret tt) ;;;
  if nr b =? l1_max then ret false
  else push cpu v ;;; ret true.

Fixpoint alloc_page_loop (fuel : nat) (cpu : nat) (curr level : Z) : prog t Z :=
  match fuel with
  | O => fault
  | S fuel =>
      o ⟵ alloc_page_local cpu;
      match o with
      | Some v => ret v
      | None => l1_refill cpu curr level ;;; alloc_page_loop fuel cpu curr level
      end
  end.

Fixpoint free_page_loop (fuel : nat) (cpu : nat) (v : Z) : prog t unit :=
  match fuel with
  | O => fault
  | S fuel =>
      ok ⟵ free_page_local cpu v;
      if (ok : bool) then ret tt
      else l1_unfill cpu ;;; free_page_loop fuel cpu v
  end.

(** One turn suffices: a refill or an unfill makes the next attempt succeed. *)
Definition alloc_page (cpu : nat) (curr level : Z) : prog t Z := alloc_page_loop 2 cpu curr level.
Definition free_page (cpu : nat) (v : Z) : prog t unit := free_page_loop 2 cpu v.

(** The body of the loop of the filling threads. *)
Fixpoint l1_fill_up (fuel : nat) (cpu : nat) (curr level : Z) : prog t unit :=
  match fuel with
  | O => ret tt
  | S fuel =>
      b ⟵ get_l1 cpu;
      if nr b + nr_pages <? l1_max / 2 then
        l1_refill cpu curr level ;;; l1_fill_up fuel cpu curr level
      else ret tt
  end.

Fixpoint l1_drain (fuel : nat) (cpu : nat) : prog t unit :=
  match fuel with
  | O => ret tt
  | S fuel =>
      b ⟵ get_l1 cpu;
      if nr_pages + l1_max / 2 <? nr b then l1_unfill cpu ;;; l1_drain fuel cpu
      else ret tt
  end.

Definition l1_fill_pass (cpu : nat) (curr level : Z) : prog t unit :=
  b ⟵ get_l1 cpu;
  (if nr b <? l1_watermark_lo then l1_fill_up (Z.to_nat l1_max) cpu curr level else ret tt) ;;;
  b ⟵ get_l1 cpu;
  if l1_watermark_hi <? nr b then l1_drain (Z.to_nat l1_max) cpu else ret tt.

Definition l2_fill_pass (curr level : Z) : prog t unit :=
  p ⟵ get;
  (if l2_nr p <? l2_watermark_lo p then l2_refill (l2_fuel p) curr level else ret tt) ;;;
  p ⟵ get;
  if l2_watermark_hi p <? l2_nr p then l2_unfill (l2_fuel p) else ret tt.

End PagePool.
Import PagePool.

(** ** The invariant *)

Definition pg (v : Z) : Z * Z := (v, page_size).

(** The pages in the pools. *)
Definition pool_pages (p : t) : list Z :=
  concat (l1_pages <$> l1s p) ++ concat (batch_of p <$> l2_stack p).

(** The header of a large block holds its size. *)
Definition headed (s : PageRanges.t) (bs : list (Z * Z)) : Prop :=
  ∀ x, x ∈ bs → pr_size s x.1 = x.2.

Lemma headed_nil s : headed s [].
Proof. intros x Hx. by apply not_elem_of_nil in Hx. Qed.

Lemma headed_frame s s' bs : headed s bs → frame s s' bs → headed s' bs.
Proof. intros Hh Hf x Hx. rewrite Hf by done. by apply Hh. Qed.

Lemma mem_freed_frame m bs a n :
  mem_inv m ((a, n) :: bs) → frame (pra m) (pra (free_page_range_at m a n)) bs.
Proof.
  intros Hm. pose proof (mem_set_hdr _ _ _ _ n Hm) as Hm'.
  destruct (block_released _ _ a n Hm') as (_ & _ & Hf & _).
  { cbn [pra set_pra]. rewrite pr_size_set_hdr. by rewrite decide_True. }
  eapply frame_trans; [|exact Hf]. intros [b k] Hb. cbn [pra set_pra fst].
  rewrite pr_size_set_hdr, decide_False; [done|]. intros <-.
  pose proof (mi_wf _ _ Hm) as Hwf. apply (inv_blocks_perm _ _ _ _ (blocks_cons m (a, n) bs)) in Hwf.
  pose proof (i_disj _ _ _ Hwf) as Hd. rewrite !pairwise_app in Hd.
  destruct Hd as (_ & ((Hd & _) & _) & _). rewrite Forall_forall in Hd.
  assert (disj (a, n) (a, k)) as Hx by (apply Hd; unfold blocks; elem).
  destruct (i_fits _ _ _ Hwf (a, n)) as (p & i & [= -> ->] & _ & Hi & _); [elem|].
  destruct (i_fits _ _ _ Hwf (page_addr p, k)) as (p' & i' & [= _ ->] & _ & Hi' & _); [unfold blocks; elem|].
  unfold disj, page_size in Hx. simpl in Hx. lia.
Qed.

Lemma headed_freed m bs bs' a n :
  mem_inv m ((a, n) :: bs) → bs' ⊆ bs → headed (pra m) bs' →
  headed (pra (free_page_range_at m a n)) bs'.
Proof.
  intros Hm Hs Hh. eapply headed_frame; [done|]. intros x Hx. by apply (mem_freed_frame _ _ _ _ Hm), Hs.
Qed.

(** The pools with the pages [held] by the clients or on the way between pools,
    and the other blocks [bs] in use. *)
Record pool_inv (p : t) (held : list Z) (bs : list (Z * Z)) : Prop := {
  pi_mem : mem_inv (mm (rc p)) ((pg <$> held ++ pool_pages p) ++ bs);
  pi_nr : l2_nr p = Z.of_nat (length (l2_stack p));
  pi_cap : Z.of_nat (length (l2_stack p)) ≤ l2_max p;
  pi_l1 : ∀ b, b ∈ l1s p → nr b ≤ l1_max;
  pi_batch : ∀ pb, pb ∈ l2_stack p →
    length (batch_of p pb) = Z.to_nat nr_pages ∧ pb ∈ batch_of p pb;
  pi_hdr : headed (pra (mm (rc p))) bs;
}.

Lemma pool_inv_held p held held' bs : held ≡ₚ held' → pool_inv p held bs → pool_inv p held' bs.
Proof. intros Hp []. split; try done. eapply mem_inv_perm; [|done]. by rewrite Hp. Qed.

(** Pages are whole pages of the main area, and each is in one place. *)
Lemma mem_inv_pages m l bs :
  mem_inv m ((pg <$> l) ++ bs) → NoDup l ∧ ∀ v, v ∈ l → v ≠ 0 ∧ (page_size | v) ∧ in_area main v.
Proof.
  intros Hm. pose proof (mi_wf _ _ Hm) as Hwf. pose proof (i_lim _ _ _ Hwf) as Hlim.
  assert (∀ v, v ∈ l → fits (Z.of_nat (length (bitmap (pra m)))) (pg v)) as Hf.
  { intros v Hv. apply (i_fits _ _ _ Hwf). unfold blocks. rewrite !elem_of_app. right. left. right. left.
    by apply list_elem_of_fmap_2. }
  split.
  - pose proof (i_disj _ _ _ Hwf) as Hd. unfold blocks in Hd. rewrite !pairwise_app in Hd.
    destruct Hd as (_ & ((_ & (Hd & _) & _) & _) & _). clear -Hd.
    induction l as [|v l IH]; [constructor|]. cbn [fmap list_fmap pairwise] in Hd.
    destruct Hd as [H1 H2]. constructor; [|by apply IH]. intros Hv.
    rewrite Forall_forall in H1. specialize (H1 (pg v) (list_elem_of_fmap_2 _ _ _ Hv)).
    unfold disj, pg, page_size in H1. simpl in H1. lia.
  - intros v Hv. destruct (Hf v Hv) as (p & k & [= -> _] & Hp & Hk & Hl).
    split_and!.
    + unfold page_addr. change phys_mem with (2 ^ 46). unfold page_size. lia.
    + apply page_addr_divide.
    + unfold in_area, page_addr. rewrite get_mem_area_base_eq, mem_area_size_eq.
      change phys_mem with (2 ^ 46). unfold page_size. simpl. lia.
Qed.

Lemma pool_inv_pages p held bs :
  pool_inv p held bs →
  NoDup (held ++ pool_pages p) ∧ ∀ v, v ∈ held ++ pool_pages p → v ≠ 0 ∧ (page_size | v) ∧ in_area main v.
Proof. intros []. by eapply mem_inv_pages. Qed.

(** ** The pool of a CPU *)

Lemma pool_pages_l1 p cpu b b' :
  l1s p !! cpu = Some b →
  ∃ rest, pool_pages p ≡ₚ l1_pages b ++ rest ∧
    pool_pages (set_l1s p (<[cpu := b']> (l1s p))) ≡ₚ l1_pages b' ++ rest.
Proof.
  intros Hb. unfold pool_pages. cbn [l1s l2_stack set_l1s].
  change (batch_of (set_l1s p _)) with (batch_of p).
  assert ((l1_pages <$> l1s p) !! cpu = Some (l1_pages b)) as Hc by (rewrite list_lookup_fmap, Hb; done).
  destruct (concat_insert_perm _ _ _ (l1_pages b') Hc) as [H1 H2].
  rewrite list_fmap_insert. eexists. rewrite H1, H2, <- !(assoc_L (++)). done.
Qed.

(** The stack of a CPU changes while pages move in or out of [held]. *)
Lemma pool_inv_l1 p held held' bs cpu b b' :
  pool_inv p held bs → l1s p !! cpu = Some b → nr b' ≤ l1_max →
  held' ++ l1_pages b' ≡ₚ held ++ l1_pages b →
  pool_inv (set_l1s p (<[cpu := b']> (l1s p))) held' bs.
Proof.
  intros [H1 H2 H3 H4 H5 Hhd] Hb Hn Hp. destruct (pool_pages_l1 p cpu b b' Hb) as (rest & P1 & P2).
  split; try done.
  - eapply mem_inv_perm; [|exact H1]. rewrite P1, P2, !(assoc_L (++)). by rewrite Hp.
  - cbn [l2_stack set_l1s]. unfold l2_max. cbn [l1s set_l1s]. by rewrite length_insert.
  - cbn [l1s set_l1s]. intros b0 [i Hi]%list_elem_of_lookup.
    apply list_lookup_insert_Some in Hi as [(_ & <- & _)|[_ Hi]]; [done|].
    by eapply H4, list_elem_of_lookup_2.
Qed.

Lemma pop_eq p cpu b v l :
  l1s p !! cpu = Some b → l1_pages b = v :: l →
  pop cpu p = Ret v (set_l1s p (<[cpu := mkL1 l (nr b - 1)]> (l1s p))).
Proof. intros Hb Hl. unfold pop, bind, get_l1. rewrite Hb, Hl. done. Qed.

Lemma push_eq p cpu b v :
  l1s p !! cpu = Some b → nr b < l1_max →
  push cpu v p = Ret tt (set_l1s p (<[cpu := mkL1 (v :: l1_pages b) (nr b + 1)]> (l1s p))).
Proof.
  intros Hb Hn. unfold push, bind, get_l1. rewrite Hb. unfold check.
  by rewrite (proj2 (Z.ltb_lt _ _) Hn).
Qed.

(** What an operation on the pool of a CPU leaves alone. *)
Definition same_but_l1 (p p' : t) (cpu : nat) : Prop :=
  rc p' = rc p ∧ l2_stack p' = l2_stack p ∧ l2_nr p' = l2_nr p ∧ batches p' = batches p ∧
  length (l1s p') = length (l1s p) ∧ ∀ i, i ≠ cpu → l1s p' !! i = l1s p !! i.

Lemma same_but_l1_trans p1 p2 p3 cpu :
  same_but_l1 p1 p2 cpu → same_but_l1 p2 p3 cpu → same_but_l1 p1 p3 cpu.
Proof.
  intros (A1 & A2 & A3 & A4 & A5 & A6) (B1 & B2 & B3 & B4 & B5 & B6). unfold same_but_l1.
  split_and!; try congruence. intros i Hi. by rewrite B6, A6.
Qed.

Lemma same_but_l1_set p cpu b : same_but_l1 p (set_l1s p (<[cpu := b]> (l1s p))) cpu.
Proof.
  unfold same_but_l1. cbn. split_and!; try done; [by rewrite length_insert|].
  intros i Hi. by rewrite list_lookup_insert_ne.
Qed.

Lemma push_all_spec cpu l p held bs b :
  pool_inv p (l ++ held) bs → l1s p !! cpu = Some b →
  nr b + Z.of_nat (length l) ≤ l1_max →
  ∃ p' b', push_all cpu l p = Ret tt p' ∧ pool_inv p' held bs ∧ same_but_l1 p p' cpu ∧
    l1s p' !! cpu = Some b' ∧ nr b' = nr b + Z.of_nat (length l).
Proof.
  revert p b. induction l as [|v l IH]; intros p b Hp Hb Hn; cbn [push_all].
  { exists p, b. split_and!; try done. simpl. lia. }
  simpl in Hn. unfold bind. rewrite (push_eq p cpu b v Hb) by lia.
  set (b1 := mkL1 (v :: l1_pages b) (nr b + 1)).
  assert (nr b1 = nr b + 1) as En by (unfold nr, b1; simpl; lia).
  destruct (IH (set_l1s p (<[cpu := b1]> (l1s p))) b1) as (p' & b' & H1 & H2 & H3 & H4 & H5).
  - eapply pool_inv_l1; [exact Hp|exact Hb|lia|]. unfold b1. cbn [l1_pages app].
    by rewrite <- Permutation_middle.
  - cbn [l1s set_l1s]. apply list_lookup_insert_eq. by eapply lookup_lt_Some.
  - lia.
  - exists p', b'. split_and!; try done.
    + eapply same_but_l1_trans; [apply same_but_l1_set|exact H3].
    + simpl. lia.
Qed.

Lemma pop_n_spec cpu n p held bs b :
  pool_inv p held bs → l1s p !! cpu = Some b → Z.of_nat n ≤ nr b →
  ∃ p' b' l, pop_n cpu n p = Ret l p' ∧ pool_inv p' (l ++ held) bs ∧ same_but_l1 p p' cpu ∧
    l1s p' !! cpu = Some b' ∧ nr b' = nr b - Z.of_nat n ∧ l1_pages b = l ++ l1_pages b' ∧
    length l = n.
Proof.
  revert p b held. induction n as [|n IH]; intros p b held Hp Hb Hn; cbn [pop_n].
  { exists p, b, []. split_and!; try done. lia. }
  destruct (l1_pages b) as [|v l0] eqn:El; [unfold nr in Hn; rewrite El in Hn; simpl in Hn; lia|].
  unfold bind. rewrite (pop_eq p cpu b v l0 Hb El).
  set (b1 := mkL1 l0 (nr b - 1)).
  assert (nr b1 = nr b - 1) as En by (unfold nr, b1; rewrite El; simpl; lia).
  destruct (IH (set_l1s p (<[cpu := b1]> (l1s p))) b1 (v :: held))
    as (p' & b' & l & H1 & H2 & H3 & H4 & H5 & H6 & H7).
  - pose proof (pi_l1 _ _ _ Hp b (list_elem_of_lookup_2 _ _ _ Hb)).
    eapply pool_inv_l1; [exact Hp|exact Hb|lia|]. rewrite El. unfold b1. cbn [l1_pages app].
    by rewrite Permutation_middle.
  - cbn [l1s set_l1s]. apply list_lookup_insert_eq. by eapply lookup_lt_Some.
  - lia.
  - rewrite H1. exists p', b', (v :: l). split_and!; try done.
    + eapply pool_inv_held; [|exact H2]. cbn [app]. by rewrite Permutation_middle.
    + eapply same_but_l1_trans; [apply same_but_l1_set|exact H3].
    + lia.
    + cbn [app]. f_equal. exact H6.
    + simpl. by rewrite H7.
Qed.


(** ** The global pool *)

(** What an operation on the memory below leaves alone. *)
Definition same_but_rc (p p' : t) : Prop :=
  l1s p' = l1s p ∧ l2_stack p' = l2_stack p ∧ l2_nr p' = l2_nr p ∧ batches p' = batches p.

Lemma pool_inv_rc p p' held bs :
  pool_inv p held bs → same_but_rc p p' →
  (∀ l, mem_inv (mm (rc p)) l → mem_inv (mm (rc p')) l) →
  pra (mm (rc p')) = pra (mm (rc p)) → pool_inv p' held bs.
Proof.
  intros [H1 H2 H3 H4 H5 Hhd] (E1 & E2 & E3 & E4) Hm Epra.
  assert (batch_of p' = batch_of p) as Eb by (unfold batch_of; by rewrite E4).
  split; unfold pool_pages, l2_max; rewrite ?Eb, ?E1, ?E2, ?E3, ?Epra; auto.
Qed.

Lemma free_batch_spec l p held bs :
  pool_inv p (l ++ held) bs →
  ∃ p', free_batch l p = Ret tt p' ∧ pool_inv p' held bs ∧ same_but_rc p p'.
Proof.
  revert p. induction l as [|v l IH]; intros p Hp; cbn [free_batch].
  { by exists p. }
  destruct (pool_inv_pages _ _ _ Hp) as [_ Hv]. destruct (Hv v) as [Hv0 _]; [elem|].
  unfold bind, check. rewrite (proj2 (Z.eqb_neq v 0) Hv0). cbn [negb].
  unfold on_mem, modify.
  set (p1 := set_rc p _). destruct (IH p1) as (p' & H1 & H2 & H3).
  - destruct Hp as [H1 H2 H3 H4 H5 Hhd]. split; try done; [by apply mem_freed_at|].
    by eapply (headed_freed _ _ _ _ _ H1); [intros x Hx; elem|].
  - by exists p'.
Qed.

(** A page of the free ranges, one at a time. *)
Lemma alloc_one_page s bs :
  wf s bs → page_size ≤ bytes (ranges s) →
  ∃ a s', alloc true s page_size true = (Some a, s') ∧ taken s s' bs a page_size ∧
    bytes (ranges s') = bytes (ranges s) - page_size ∧ length (bitmap s') = length (bitmap s).
Proof.
  intros Hwf Hb. destruct (alloc true s page_size true) as [[a|] s'] eqn:Ea.
  - exists a, s'. pose proof (alloc_length true s page_size true) as El. rewrite Ea in El.
    assert (taken s s' bs a page_size) as Ht by (by apply (alloc_taken _ _ 1 true); [|lia|]).
    split_and!; try done. destruct Ht as [T1 T2 T3 T4].
    assert (bytes (ranges s' ++ (a, page_size) :: bs) = 0 + bytes (ranges s ++ bs)) as E.
    { apply (wf_bytes_eq _ _ _ _ []); try done.
      - intros i. rewrite !covered_app, covered_cons, covered_nil, T4. tauto.
      - intros x Hx. by apply not_elem_of_nil in Hx.
      - intros x y Hx. by apply not_elem_of_nil in Hx. }
    rewrite !bytes_app, bytes_cons in E. cbn [snd] in E. lia.
  - exfalso. destruct (alloc_none s bs 1 true s' Hwf ltac:(lia) Ea) as [_ Hno].
    assert (ranges s = []) as Er.
    { apply elem_of_nil_inv. intros x Hx. specialize (Hno eq_refl x Hx).
      destruct (i_fits _ _ _ Hwf x) as (p & k & -> & _ & Hk & _); [elem|].
      unfold page_size in Hno. simpl in Hno. lia. }
    rewrite Er in Hb. unfold page_size in Hb. simpl in Hb. lia.
Qed.

Lemma alloc_pages_wf n s bs :
  wf s bs → Z.of_nat n * page_size ≤ bytes (ranges s) →
  ∃ l s', alloc_pages n s = (l, s') ∧ length l = n ∧ wf s' ((pg <$> l) ++ bs) ∧
    length (bitmap s') = length (bitmap s) ∧ frame s s' bs ∧
    ∀ i, covered (ranges s) i ↔ covered (pg <$> l) i ∨ covered (ranges s') i.
Proof.
  revert s bs. induction n as [|n IH]; intros s bs Hwf Hb; cbn [alloc_pages].
  { exists [], s. split_and!; try done. intros i. rewrite covered_nil. tauto. }
  destruct (alloc_one_page s bs Hwf) as (a & s1 & Ea & [T1 T2 T3 T4] & Eb & El).
  { unfold page_size in *. lia. }
  rewrite Ea. destruct (IH s1 _ T1) as (l & s2 & H1 & H2 & H3 & H4 & Hfr & H5).
  { unfold page_size in *. lia. }
  rewrite H1. exists (a :: l), s2. split_and!; [done|simpl; lia| |congruence| |].
  - eapply inv_blocks_perm; [|exact H3]. rewrite fmap_cons. cbn [app].
    by rewrite <- Permutation_middle.
  - eapply frame_trans; [exact T3|]. intros x Hx. apply Hfr. elem.
  - intros i. rewrite fmap_cons, covered_cons, T4, H5. unfold pg at 2. tauto.
Qed.

Lemma bytes_pg l : bytes (pg <$> l) = Z.of_nat (length l) * page_size.
Proof.
  induction l as [|v l IH]; [done|]. rewrite fmap_cons, bytes_cons, IH.
  cbn [length pg snd]. unfold page_size. lia.
Qed.

Lemma alloc_pages_spec n m bs :
  mem_inv m bs → Z.of_nat n * page_size ≤ free_memory m →
  ∃ l s', alloc_pages n (pra m) = (l, s') ∧ length l = n ∧ frame (pra m) s' bs ∧
    mem_inv (on_alloc (set_pra m s') (Z.of_nat n * page_size)) ((pg <$> l) ++ bs).
Proof.
  intros Hm Hf. rewrite (mi_free _ _ Hm) in Hf.
  destruct (alloc_pages_wf n (pra m) (blocks m bs) (mi_wf _ _ Hm) Hf)
    as (l & s' & H1 & H2 & H3 & H4 & Hfr & H5).
  exists l, s'. split_and!; [done..|intros x Hx; apply Hfr; unfold blocks; elem|].
  destruct (on_alloc_fields (set_pra m s') (Z.of_nat n * page_size))
    as (F1 & F2 & F3 & F4 & F5 & F6 & F7).
  eapply mem_inv_update; try done; rewrite ?F1; try done.
  - rewrite F6. cbn [free_memory set_pra]. rewrite bytes_app.
    assert (bytes (pg <$> l) = Z.of_nat n * page_size) as ->; [|f_equal; lia].
    rewrite <- H2. apply bytes_pg.
  - eapply inv_blocks_perm; [|exact H3]. unfold blocks. rewrite !(assoc_L (++)). f_equiv.
    by rewrite (comm (++)).
  - intros i. cbn [pra set_pra]. rewrite !covered_app, H5. tauto.
Qed.

(** Writing a batch into a page that is not the head of a batch on the stack. *)
Lemma pool_inv_set_batch p held bs pb l :
  pool_inv p held bs → pb ∉ l2_stack p → pool_inv (set_batch p pb l) held bs.
Proof.
  intros [H1 H2 H3 H4 H5 Hhd] Hns. set (p' := set_batch p pb l).
  assert (∀ x, x ∈ l2_stack p → batch_of p' x = batch_of p x) as Eb'.
  { intros x Hx. unfold batch_of, p'. cbn. rewrite lookup_insert_ne; [done|]. by intros ->. }
  split; try done.
  - unfold pool_pages. change (l1s p') with (l1s p). change (l2_stack p') with (l2_stack p).
    rewrite (list_fmap_ext (batch_of p') (batch_of p) (l2_stack p)); [done|].
    intros i x Hx. apply Eb'. by eapply list_elem_of_lookup_2.
  - intros x Hx. rewrite Eb' by done. by apply H5.
Qed.

(** The turn of the loop of [l2::refill], when the memory suffices. *)
Lemma l2_refill_batch_spec p held bs :
  pool_inv p held bs → nr_pages * page_size ≤ free_memory (mm (rc p)) → l2_nr p < l2_max p →
  ∃ p', l2_refill_batch p = Ret tt p' ∧ pool_inv p' held bs ∧ l1s p' = l1s p ∧
    l2_nr p' = l2_nr p + 1 ∧
    free_memory (mm (rc p')) = free_memory (mm (rc p)) - nr_pages * page_size ∧
    total_memory (mm (rc p')) = total_memory (mm (rc p)) ∧
    active_shrinkers (rc p') = active_shrinkers (rc p) ∧ reclaimer_id (rc p') = reclaimer_id (rc p).
Proof.
  intros Hp Hf Hn. pose proof (pi_mem _ _ _ Hp) as Hm. unfold l2_refill_batch.
  destruct (alloc_pages_spec (Z.to_nat nr_pages) (mm (rc p)) _ Hm Hf) as (l & s' & E1 & E2 & Hfr & E3).
  rewrite E1. change (Z.of_nat (Z.to_nat nr_pages)) with nr_pages in E3.
  set (m1 := on_alloc _ _) in *.
  destruct (on_alloc_fields (set_pra (mm (rc p)) s') (nr_pages * page_size))
    as (F1 & F2 & F3 & F4 & F5 & F6 & F7). fold m1 in F1, F2, F3, F4, F5, F6, F7.
  pose proof (mem_inv_free _ _ _ _ Hm E3 F2 F3 F5) as Hfree. rewrite bytes_app, bytes_pg, E2 in Hfree.
  change (Z.of_nat (Z.to_nat nr_pages)) with nr_pages in Hfree.
  destruct (last l) as [pb|] eqn:El; [|apply last_None in El; by subst].
  assert (pb ∈ l) as Hpb by (by apply last_Some_elem_of).
  rewrite (assoc_L (++)), <- fmap_app in E3.
  destruct (mem_inv_pages _ _ _ E3) as [Hnd Hz]. destruct (Hz pb) as [Hpb0 _]; [elem|].
  unfold bind, check, modify. rewrite (proj2 (Z.eqb_neq pb 0) Hpb0). cbn [negb].
  unfold stack_push. cbn [l2_stack set_batch set_rc].
  change (l2_max (set_batch (set_rc p _) pb l)) with (l2_max p).
  rewrite <- (pi_nr _ _ _ Hp), (proj2 (Z.ltb_lt _ _) Hn).
  assert (pb ∉ l2_stack p) as Hns.
  { intros Hin. apply NoDup_app in Hnd as (_ & Hnd & _). apply (Hnd pb Hpb).
    apply elem_of_app. right. unfold pool_pages. apply elem_of_app. right.
    apply list_elem_of_In, in_concat. exists (batch_of p pb).
    rewrite <- !list_elem_of_In. split; [by apply list_elem_of_fmap_2|by apply Hp]. }
  unfold inc_nr, modify. eexists. split; [done|].
  cbn [rc mm l1s l2_nr l2_stack set_l2 set_batch set_rc set_mm active_shrinkers reclaimer_id].
  split_and!; try done; [|lia].
  set (p' := set_l2 _ _ _). assert (batch_of p' pb = l) as Eb.
  { unfold batch_of, p'. cbn. by rewrite lookup_insert_eq. }
  assert (∀ x, x ∈ l2_stack p → batch_of p' x = batch_of p x) as Eb'.
  { intros x Hx. unfold batch_of, p'. cbn. rewrite lookup_insert_ne; [done|]. by intros ->. }
  destruct Hp as [H1 H2 H3 H4 H5 Hhd]. split; try done.
  - eapply mem_inv_perm; [|exact E3]. f_equiv. apply fmap_Permutation.
    unfold pool_pages. change (l2_stack p') with (pb :: l2_stack p). rewrite fmap_cons, Eb.
    change (l1s p') with (l1s p). cbn [concat].
    rewrite (list_fmap_ext (batch_of p') (batch_of p) (l2_stack p)).
    { solve_Permutation. }
    intros i x Hx. apply Eb'. by eapply list_elem_of_lookup_2.
  - change (l2_nr p') with (l2_nr p + 1). change (l2_stack p') with (pb :: l2_stack p). simpl. lia.
  - change (l2_stack p') with (pb :: l2_stack p). change (l2_max p') with (l2_max p). simpl. lia.
  - change (l2_stack p') with (pb :: l2_stack p).
    intros x [->|Hx]%elem_of_cons; [by rewrite Eb|]. rewrite Eb' by done. by apply H5.
  - change (headed (pra m1) bs). rewrite F1.
    eapply headed_frame; [exact Hhd|]. intros x Hx. apply Hfr. elem.
Qed.

(** With fewer pages than a batch, the last one is the null pointer. *)
Lemma alloc_pages_short n s bs :
  wf s bs → bytes (ranges s) < Z.of_nat n * page_size → last (alloc_pages n s).1 = Some 0.
Proof.
  revert s bs. induction n as [|n IH]; intros s bs Hwf Hb.
  { destruct (wf_bytes _ _ Hwf) as [B _]. lia. }
  cbn [alloc_pages]. destruct (Z_le_dec page_size (bytes (ranges s))) as [Hle|Hlt].
  - destruct (alloc_one_page s bs Hwf Hle) as (a & s1 & -> & [T1 _ _ _] & Eb & _).
    specialize (IH s1 _ T1 ltac:(unfold page_size in *; lia)).
    destruct (alloc_pages n s1) as [l s2]. cbn [fst] in *.
    destruct l; [done|]. by rewrite last_cons_cons.
  - assert (ranges s = []) as Er.
    { destruct (ranges s) as [|x l] eqn:E; [done|]. exfalso.
      destruct (i_fits _ _ _ Hwf x) as (p & k & -> & _ & Hk & _); [rewrite E; elem|].
      rewrite bytes_cons in Hlt. cbn [snd] in Hlt.
      pose proof (bytes_nonneg l) as Hn. unfold page_size in *.
      assert (0 ≤ bytes l); [|lia]. apply Hn. intros y Hy.
      destruct (i_fits _ _ _ Hwf y) as (q & j & -> & _ & Hj & _); [rewrite E; elem|].
      unfold page_size. simpl. lia. }
    destruct (alloc true s page_size true) as [[a|] s1] eqn:Ea.
    { exfalso. destruct (alloc_taken s bs 1 true a s1 Hwf ltac:(lia) Ea) as [T1 _ _ T4].
      destruct (i_fits _ _ _ T1 (a, 1 * page_size)) as (q & j & [= -> _] & _); [elem|].
      destruct (proj2 (T4 q)) as (x & Hx & _); [left; rewrite covers_page; lia|].
      rewrite Er in Hx. by apply not_elem_of_nil in Hx. }
    destruct (alloc_none s bs 1 true s1 Hwf ltac:(lia) Ea) as [-> _].
    destruct n as [|n]; [done|].
    specialize (IH s bs Hwf ltac:(rewrite Er; unfold page_size; simpl; lia)).
    destruct (alloc_pages (S n) s) as [l s2]. cbn [fst] in *.
    destruct l; [done|]. by rewrite last_cons_cons.
Qed.

Lemma l2_refill_batch_short p held bs :
  pool_inv p held bs → free_memory (mm (rc p)) < nr_pages * page_size → l2_refill_batch p = Fault.
Proof.
  intros Hp Hf. pose proof (pi_mem _ _ _ Hp) as Hm. rewrite (mi_free _ _ Hm) in Hf.
  pose proof (alloc_pages_short (Z.to_nat nr_pages) _ _ (mi_wf _ _ Hm) Hf) as Hl.
  unfold l2_refill_batch. destruct (alloc_pages _ _) as [l s]. cbn [fst] in Hl. by rewrite Hl.
Qed.

Lemma l2_max_eq p : l2_max p = Z.of_nat (length (l1s p)) * 16.
Proof. done. Qed.

(** The bytes a refill of the global pool takes. *)
Definition refill_need (p : t) : Z := (l2_max p / 2 - l2_nr p) * (nr_pages * page_size).

(** Why a refill may end the machine. *)
Definition refill_bad (p : t) (curr : Z) : Prop :=
  curr = reclaimer_id (rc p) ∨ total_memory (mm (rc p)) < min_emergency_pool_size ∨
  free_memory (mm (rc p)) < refill_need p.

Lemma wait_state r r' curr n bs :
  mem_inv (mm r) bs → wait_for_memory r curr n = (Sleep, r') → mem_inv (mm r') bs.
Proof. intros Hm E. by destruct (wait_for_memory_spec _ _ _ _ _ _ Hm E) as (_ & ? & _). Qed.

Lemma l2_wait_min_spec p held bs curr level :
  pool_inv p held bs →
  wp (l2_wait_min curr level) p (λ _ p', p' = p)
    (λ p', pool_inv p' held bs ∧ l1s p' = l1s p) (refill_bad p curr).
Proof.
  intros Hp. unfold wp, l2_wait_min, wait_for_minimum_memory.
  assert (set_rc p (rc p) = p) as Es by by destruct p.
  destruct (negb (level =? 0)); [done|].
  destruct (Z.ltb_spec (free_memory (mm (rc p))) min_emergency_pool_size); [|done].
  destruct (active_shrinkers (rc p) =? 0); [done|].
  destruct (wait_for_memory _ _ _) as [o r] eqn:E.
  pose proof (wait_for_memory_spec _ _ _ _ _ _ (pi_mem _ _ _ Hp) E) as Hw.
  destruct o; [done| |].
  - split; [|done]. eapply pool_inv_rc; [done|done| |by destruct Hw as (_ & _ & ?)]. cbn [rc set_rc]. intros l Hl. by eapply wait_state.
  - destruct Hw as [-> [Hc|Ht]]; [by left|right; left].
    pose proof (mi_free _ _ (pi_mem _ _ _ Hp)). destruct (wf_bytes _ _ (mi_wf _ _ (pi_mem _ _ _ Hp))). lia.
Qed.

Lemma l2_wait_empty_spec p held bs curr :
  pool_inv p held bs →
  wp (l2_wait_empty curr) p (λ _ p', p' = p)
    (λ p', pool_inv p' held bs ∧ l1s p' = l1s p) (refill_bad p curr).
Proof.
  intros Hp. unfold wp, l2_wait_empty. destruct (is_empty _); [|done].
  destruct (wait_for_memory _ _ _) as [o r] eqn:E.
  pose proof (wait_for_memory_spec _ _ _ _ _ _ (pi_mem _ _ _ Hp) E) as Hw.
  destruct o; [done| |].
  - split; [|done]. eapply pool_inv_rc; [done|done| |by destruct Hw as (_ & _ & ?)]. cbn [rc set_rc]. intros l Hl. by eapply wait_state.
  - destruct Hw as [-> [Hc|Ht]]; [by left|right; left].
    unfold min_emergency_pool_size, page_size in *. change (Z.shiftl 4 20) with 4194304. lia.
Qed.

Lemma l2_refill_spec fuel p held bs curr level :
  pool_inv p held bs →
  wp (l2_refill fuel curr level) p
    (λ _ p', pool_inv p' held bs ∧ l1s p' = l1s p ∧
       (l2_max p / 2 - l2_nr p ≤ Z.of_nat fuel → l2_max p / 2 ≤ l2_nr p'))
    (λ p', pool_inv p' held bs ∧ l1s p' = l1s p) (refill_bad p curr).
Proof.
  revert p. induction fuel as [|fuel IH]; intros p Hp; cbn [l2_refill].
  { unfold wp, ret. split_and!; [done..|]. lia. }
  apply wp_bind. unfold wp at 1, get.
  destruct (Z.ltb_spec (l2_nr p) (l2_max p / 2)) as [Hlt|Hge].
  2:{ unfold wp, ret. by split_and!. }
  apply wp_bind. eapply wp_mono; [by apply l2_wait_min_spec| |done|done].
  intros _ p1 ->. apply wp_bind. eapply wp_mono; [by apply l2_wait_empty_spec| |done|done].
  intros _ p1 ->. apply wp_bind.
  assert (l2_nr p < l2_max p) as Hlt'.
  { rewrite (l2_max_eq p) in *. Z.to_euclidean_division_equations; lia. }
  destruct (Z_lt_dec (free_memory (mm (rc p))) (nr_pages * page_size)) as [Hf|Hf].
  { unfold wp at 1. rewrite (l2_refill_batch_short p held bs Hp Hf). right; right.
    unfold refill_need, nr_pages, page_size in *. lia. }
  destruct (l2_refill_batch_spec p held bs Hp ltac:(lia) Hlt')
    as (p1 & E & H1 & H2 & H3 & H4 & H5 & H6 & H7).
  unfold wp at 1. rewrite E.
  assert (l2_max p1 = l2_max p) as Emax by (unfold l2_max; by rewrite H2).
  eapply wp_mono; [by apply IH| | |].
  - intros _ p2 (I1 & I2 & I3). rewrite Emax, H3 in I3. split_and!; [done|congruence|].
    intros. apply I3. lia.
  - intros p2 (I1 & I2). split; [done|congruence].
  - unfold refill_bad, refill_need. rewrite Emax, H3, H4, H5, H7.
    unfold nr_pages, page_size. intros [?|[?|?]]; [by left|by right; left|right; right; lia].
Qed.

(** A batch taken off the stack. *)
Lemma pool_inv_pop_batch p held bs pb st :
  pool_inv p held bs → l2_stack p = pb :: st →
  let p' := set_l2 p st (l2_nr p - 1) in
  pool_inv p' (batch_of p pb ++ held) bs ∧ length (batch_of p pb) = Z.to_nat nr_pages ∧
  pb ∈ batch_of p pb.
Proof.
  intros [H1 H2 H3 H4 H5 Hhd] Est p'. destruct (H5 pb) as [H6 H7]; [rewrite Est; elem|].
  split; [|done]. rewrite Est in H2, H3. simpl in H2, H3. split; try done.
  - eapply mem_inv_perm; [|exact H1]. f_equiv. apply fmap_Permutation.
    unfold pool_pages. rewrite Est, fmap_cons. cbn [concat].
    change (l1s p') with (l1s p). change (l2_stack p') with st. change (batch_of p') with (batch_of p).
    solve_Permutation.
  - change (l2_nr p') with (l2_nr p - 1). change (l2_stack p') with st. lia.
  - change (l2_max p') with (l2_max p). change (l2_stack p') with st. lia.
  - change (l2_stack p') with st. change (batch_of p') with (batch_of p).
    intros x Hx. apply H5. rewrite Est. elem.
Qed.

(** A batch put on the stack. *)
Lemma pool_inv_push_batch p held bs pb :
  pool_inv p (batch_of p pb ++ held) bs → length (batch_of p pb) = Z.to_nat nr_pages →
  pb ∈ batch_of p pb → l2_nr p < l2_max p →
  pool_inv (set_l2 p (pb :: l2_stack p) (l2_nr p + 1)) held bs.
Proof.
  intros [H1 H2 H3 H4 H5 Hhd] Hl Hin Hn. set (p' := set_l2 _ _ _). split; try done.
  - eapply mem_inv_perm; [|exact H1]. f_equiv. apply fmap_Permutation.
    unfold pool_pages. change (l1s p') with (l1s p). change (l2_stack p') with (pb :: l2_stack p).
    change (batch_of p') with (batch_of p). rewrite fmap_cons. cbn [concat]. solve_Permutation.
  - change (l2_nr p') with (l2_nr p + 1). change (l2_stack p') with (pb :: l2_stack p). simpl. lia.
  - change (l2_max p') with (l2_max p). change (l2_stack p') with (pb :: l2_stack p). simpl. lia.
  - change (l2_stack p') with (pb :: l2_stack p). change (batch_of p') with (batch_of p).
    intros x [->|Hx]%elem_of_cons; [done|by apply H5].
Qed.

Lemma pool_inv_wake_l2 p held bs : pool_inv p held bs → pool_inv (wake_l2 p) held bs.
Proof. intros []. by split. Qed.

Lemma pool_inv_wake_l1 p held bs cpu : pool_inv p held bs → pool_inv (wake_l1 cpu p) held bs.
Proof. intros []. by split. Qed.

Lemma l2_unfill_spec fuel p held bs :
  pool_inv p held bs →
  ∃ p', l2_unfill fuel p = Ret tt p' ∧ pool_inv p' held bs ∧ l1s p' = l1s p ∧
    batches p' = batches p ∧
    Z.min (l2_nr p) (l2_max p / 2) ≤ l2_nr p' ∧
    (l2_nr p - l2_max p / 2 ≤ Z.of_nat fuel → l2_nr p' ≤ Z.max 0 (l2_max p / 2)).
Proof.
  revert p. induction fuel as [|fuel IH]; intros p Hp; cbn [l2_unfill].
  { exists p. split_and!; [done..|lia|lia]. }
  unfold bind at 1, get. destruct (Z.ltb_spec (l2_max p / 2) (l2_nr p)) as [Hlt|Hge].
  2:{ exists p. split_and!; [done..|lia|lia]. }
  unfold bind, stack_pop, dec_nr, modify, get.
  pose proof (pi_nr _ _ _ Hp) as Hn. pose proof (l2_max_eq p) as Emax.
  destruct (l2_stack p) as [|pb st] eqn:Est.
  { simpl in Hn. Z.to_euclidean_division_equations; lia. }
  destruct (pool_inv_pop_batch _ _ _ _ _ Hp Est) as (Hp1 & _ & _).
  set (p1 := set_l2 p st (l2_nr p - 1)) in *.
  change (set_l2 (set_l2 p st (l2_nr p)) _ _) with p1.
  change (batch_of p1 pb) with (batch_of p pb).
  destruct (free_batch_spec _ _ _ _ Hp1) as (p2 & E2 & Hp2 & (S1 & S2 & S3 & S4)).
  rewrite E2. destruct (IH p2 Hp2) as (p3 & E3 & Hp3 & L3 & B3 & M3 & N3).
  assert (l2_max p2 = l2_max p) as Em by (unfold l2_max; by rewrite S1).
  assert (l2_nr p2 = l2_nr p - 1) as En by by rewrite S3.
  rewrite Em, En in N3, M3. exists p3.
  split_and!; [done|done|by rewrite L3, S1|by rewrite B3, S4|lia|]. intros. apply N3. lia.
Qed.

Lemma try_free_page_batch_spec p held bs pb :
  pool_inv p (batch_of p pb ++ held) bs → length (batch_of p pb) = Z.to_nat nr_pages →
  pb ∈ batch_of p pb →
  ∃ p', l1s p' = l1s p ∧ batches p' = batches p ∧
    if l2_nr p <? l2_max p
    then try_free_page_batch pb p = Ret true p' ∧ pool_inv p' held bs
    else try_free_page_batch pb p = Ret false p' ∧ pool_inv p' (batch_of p pb ++ held) bs ∧
         l2_nr p' = l2_nr p.
Proof.
  intros Hp Hl Hin.
  set (w := if l2_watermark_hi p <? l2_nr p then wake_l2 p else p).
  assert (pool_inv w (batch_of w pb ++ held) bs ∧ l1s w = l1s p ∧ batches w = batches p ∧
    l2_nr w = l2_nr p ∧ l2_stack w = l2_stack p) as (W1 & W2 & W3 & W4 & W5).
  { unfold w. destruct (_ <? _); [|done]. split_and!; try done. by apply pool_inv_wake_l2. }
  assert (l2_max w = l2_max p) as Em by (unfold l2_max; by rewrite W2).
  assert (batch_of w pb = batch_of p pb) as Eb by (unfold batch_of; by rewrite W3).
  assert (try_free_page_batch pb p = if l2_nr p <? l2_max p
    then Ret true (set_l2 w (pb :: l2_stack w) (l2_nr w + 1)) else Ret false w) as ->.
  { unfold try_free_page_batch, bind, get.
    assert ((if l2_watermark_hi p <? l2_nr p then modify wake_l2 else ret tt) p = Ret tt w) as ->
      by (unfold w; by destruct (_ <? _)).
    unfold stack_push. rewrite Em, W5, <- (pi_nr _ _ _ Hp). by destruct (l2_nr p <? l2_max p). }
  destruct (Z.ltb_spec (l2_nr p) (l2_max p)) as [Hlt|Hge].
  - eexists. split_and!; [..|done|]; [done|done|].
    apply (pool_inv_push_batch w held bs pb);
      [done|by rewrite Eb|by rewrite Eb|by rewrite W4, Em].
  - exists w. rewrite Eb in W1. by split_and!.
Qed.

(** Two attempts suffice: emptying the pool to the middle makes room. *)
Lemma free_page_batch_spec p held bs pb :
  pool_inv p (batch_of p pb ++ held) bs → length (batch_of p pb) = Z.to_nat nr_pages →
  pb ∈ batch_of p pb → l1s p ≠ [] →
  ∃ p', free_page_batch 2 pb p = Ret tt p' ∧ pool_inv p' held bs ∧ l1s p' = l1s p.
Proof.
  intros Hp Hl Hin Hne.
  destruct (try_free_page_batch_spec p held bs pb Hp Hl Hin) as (p1 & L1 & B1 & H1).
  unfold free_page_batch at 1, bind. destruct (l2_nr p <? l2_max p) eqn:E1.
  { destruct H1 as [-> H1]. by exists p1. }
  destruct H1 as (-> & H1 & N1). unfold get, free_page_batch, bind.
  destruct (l2_unfill_spec (l2_fuel p1) p1 _ bs H1) as (p2 & -> & H2 & L2 & B2 & _ & N2).
  assert (batch_of p2 pb = batch_of p pb) as Eb by (unfold batch_of; by rewrite B2, B1).
  rewrite <- Eb in H2, Hl, Hin.
  destruct (try_free_page_batch_spec p2 held bs pb H2 Hl Hin) as (p3 & L3 & B3 & H3).
  assert (l1s p2 = l1s p) as L12 by congruence.
  pose proof (pi_cap _ _ _ H1) as Hc1. rewrite <- (pi_nr _ _ _ H1) in Hc1.
  assert (l2_nr p2 < l2_max p2) as Hlt.
  { rewrite !l2_max_eq, L12, L1 in *. unfold l2_fuel in N2. rewrite !l2_max_eq, L1 in N2.
    destruct (l1s p) as [|b l]; [done|]. simpl length in *.
    rewrite Z2Nat.id in N2 by lia.
    assert (l2_nr p2 ≤ Z.max 0 (Z.of_nat (S (length l)) * 16 / 2)).
    { apply N2. Z.to_euclidean_division_equations; lia. }
    Z.to_euclidean_division_equations; lia. }
  rewrite (proj2 (Z.ltb_lt _ _) Hlt) in H3. destruct H3 as [-> H3].
  exists p3. split_and!; [done|done|congruence].
Qed.

(** Taking a batch: after a refill there is one. *)
Lemma alloc_page_batch_spec p held bs curr level :
  pool_inv p held bs → l1s p ≠ [] →
  wp (alloc_page_batch 2 curr level) p
    (λ pb p', pool_inv p' (batch_of p' pb ++ held) bs ∧ l1s p' = l1s p ∧
       length (batch_of p' pb) = Z.to_nat nr_pages ∧ pb ∈ batch_of p' pb)
    (λ p', pool_inv p' held bs ∧ l1s p' = l1s p ∧ l2_stack p = [])
    (refill_bad p curr ∧ l2_stack p = []).
Proof.
  intros Hp Hne.
  assert (∀ p, pool_inv p held bs → ∃ w, l1s w = l1s p ∧ rc w = rc p ∧ l2_nr w = l2_nr p ∧
    match l2_stack p with
    | [] => try_alloc_page_batch p = Ret None w ∧ pool_inv w held bs
    | pb :: st => try_alloc_page_batch p = Ret (Some pb) (set_l2 w st (l2_nr w - 1)) ∧
        pool_inv w held bs ∧ l2_stack w = pb :: st
    end) as Htry.
  { intros q Hq. set (w := if l2_nr q <? l2_watermark_lo q then wake_l2 q else q).
    exists w. assert (l1s w = l1s q ∧ rc w = rc q ∧ l2_nr w = l2_nr q ∧ l2_stack w = l2_stack q ∧
      pool_inv w held bs) as (W1 & W2 & W3 & W4 & W5).
    { unfold w. destruct (_ <? _); [|done]. split_and!; try done. by apply pool_inv_wake_l2. }
    split_and!; try done.
    assert ((if l2_nr q <? l2_watermark_lo q then modify wake_l2 else ret tt) q = Ret tt w) as E
      by (unfold w; by destruct (_ <? _)).
    unfold try_alloc_page_batch, bind, get, stack_pop. rewrite E, W4.
    by destruct (l2_stack q). }
  cbn [alloc_page_batch]. apply wp_bind. destruct (Htry p Hp) as (w & W1 & W2 & W3 & W4).
  destruct (l2_stack p) as [|pb st] eqn:Est.
  - destruct W4 as [E Hw]. unfold wp at 1. rewrite E. apply wp_bind. unfold wp at 1, get.
    apply wp_bind. eapply wp_mono; [by apply l2_refill_spec| | |].
    + intros _ p1 (H1 & H2 & H3). apply wp_bind.
      destruct (Htry p1 H1) as (w1 & V1 & V2 & V3 & V4).
      assert (0 < l2_nr p1) as Hpos.
      { pose proof (pi_nr _ _ _ Hw). rewrite !l2_max_eq, W1 in H3. unfold l2_fuel in H3.
        rewrite l2_max_eq, W1 in H3. destruct (l1s p) as [|b l]; [done|]. simpl length in H3.
        assert (Z.of_nat (S (length l)) * 16 / 2 ≤ l2_nr p1); [|Z.to_euclidean_division_equations; lia].
        apply H3. Z.to_euclidean_division_equations; lia. }
      rewrite (pi_nr _ _ _ H1) in Hpos. destruct (l2_stack p1) as [|pb st]; [simpl in Hpos; lia|].
      destruct V4 as (E1 & V4 & V5). unfold wp at 1. rewrite E1. unfold wp, ret.
      destruct (pool_inv_pop_batch _ _ _ _ _ V4 V5) as (? & ? & ?).
      split_and!; try done. cbn [l1s set_l2]. congruence.
    + intros p1 [H1 H2]. split_and!; [done|congruence|done].
    + intros Hbad. split; [|done]. unfold refill_bad, refill_need, l2_max in *.
      by rewrite W1, W2, W3 in Hbad.
  - destruct W4 as (E & Hw & Hst). unfold wp at 1. rewrite E. unfold wp, ret.
    destruct (pool_inv_pop_batch _ _ _ _ _ Hw Hst) as (? & ? & ?). by split_and!.
Qed.

(** Filling the pool of a CPU that is low. *)
Lemma l1_refill_spec p held bs cpu b curr level :
  pool_inv p held bs → l1s p !! cpu = Some b →
  wp (l1_refill cpu curr level) p
    (λ _ p', pool_inv p' held bs ∧ length (l1s p') = length (l1s p) ∧
       ∃ b', l1s p' !! cpu = Some b' ∧
         nr b' = if nr b + nr_pages <? l1_max / 2 then nr b + nr_pages else nr b)
    (λ p', pool_inv p' held bs ∧ l1s p' = l1s p ∧ l2_stack p = [])
    (refill_bad p curr ∧ l2_stack p = []).
Proof.
  intros Hp Hb. unfold l1_refill. apply wp_bind. unfold wp at 1, get_l1. rewrite Hb.
  destruct (Z.ltb_spec (nr b + nr_pages) (l1_max / 2)) as [Hlt|Hge].
  2:{ unfold wp, ret. split_and!; try done. by exists b. }
  apply wp_bind. eapply wp_mono;
    [apply alloc_page_batch_spec; [done|by intros E; rewrite E in Hb]| |done|done].
  intros pb p1 (H1 & H2 & H3 & H4). apply wp_bind. unfold wp at 1, get_l1. rewrite H2, Hb.
  rewrite (proj2 (Z.leb_le _ _))
    by (unfold nr_pages, l1_max in *; Z.to_euclidean_division_equations; lia).
  apply wp_bind. unfold wp at 1, get. rewrite <- H2 in Hb.
  destruct (push_all_spec cpu _ p1 held bs b H1 Hb) as (p2 & b' & E & P1 & P2 & P3 & P4).
  { rewrite H3. unfold nr_pages, l1_max in *. Z.to_euclidean_division_equations; lia. }
  unfold wp. rewrite E. destruct P2 as (_ & _ & _ & _ & P2 & _).
  split_and!; [done|congruence|]. exists b'. split; [done|]. rewrite P4, H3. done.
Qed.

(** Emptying the pool of a CPU that is full: never blocked, never a fault. *)
Lemma l1_unfill_spec p held bs cpu b :
  pool_inv p held bs → l1s p !! cpu = Some b →
  ∃ p', l1_unfill cpu p = Ret tt p' ∧ pool_inv p' held bs ∧ length (l1s p') = length (l1s p) ∧
    ∃ b', l1s p' !! cpu = Some b' ∧
      nr b' = if nr_pages + l1_max / 2 <? nr b then nr b - nr_pages else nr b.
Proof.
  intros Hp Hb. unfold l1_unfill, bind at 1, get_l1. rewrite Hb.
  destruct (Z.ltb_spec (nr_pages + l1_max / 2) (nr b)) as [Hlt|Hge].
  2:{ exists p. split_and!; try done. by exists b. }
  destruct (l1_pages b) as [|pb l0] eqn:El.
  { unfold nr in Hlt. rewrite El in Hlt. by unfold nr_pages, l1_max in Hlt. }
  unfold bind, modify.
  destruct (pop_n_spec cpu (Z.to_nat nr_pages) p held bs b Hp Hb)
    as (p1 & b' & l & E1 & P1 & (S1 & S2 & S3 & S4 & S5 & S6) & P3 & P4 & P5 & P6).
  { unfold nr_pages, l1_max in *. Z.to_euclidean_division_equations; lia. }
  rewrite E1. set (p2 := set_batch p1 pb l).
  assert (pb ∈ l) as Hpb.
  { rewrite El in P5. destruct l as [|v l]; [by unfold nr_pages in P6|]. injection P5 as -> _. elem. }
  assert (batch_of p2 pb = l) as Eb by (unfold batch_of, p2; cbn; by rewrite lookup_insert_eq).
  assert (pb ∉ l2_stack p1) as Hns.
  { intros Hin. destruct (pool_inv_pages _ _ _ P1) as [Hnd _].
    rewrite <- (assoc_L (++)) in Hnd. apply NoDup_app in Hnd as (_ & Hnd & _). apply (Hnd pb Hpb).
    apply elem_of_app. right. unfold pool_pages. apply elem_of_app. right.
    apply list_elem_of_In, in_concat. exists (batch_of p1 pb).
    rewrite <- !list_elem_of_In. split; [by apply list_elem_of_fmap_2|by apply P1]. }
  assert (pool_inv p2 (batch_of p2 pb ++ held) bs) as Hp2.
  { rewrite Eb. apply pool_inv_set_batch; done. }
  destruct (free_page_batch_spec p2 held bs pb Hp2) as (p3 & E3 & Hp3 & L3);
    [by rewrite Eb|by rewrite Eb| |].
  { intros E. change (l1s p2) with (l1s p1) in E. by rewrite E in P3. }
  exists p3. split_and!; [done|done|rewrite L3; exact S5|]. exists b'. rewrite L3. split; [done|].
  rewrite P4. done.
Qed.

Lemma alloc_page_local_eq p cpu b :
  l1s p !! cpu = Some b →
  let w := if nr b <? l1_watermark_lo then wake_l1 cpu p else p in
  alloc_page_local cpu p =
    match l1_pages b with
    | [] => Ret None w
    | v :: l => Ret (Some v) (set_l1s w (<[cpu := mkL1 l (nr b - 1)]> (l1s w)))
    end.
Proof.
  intros Hb w. unfold alloc_page_local, bind, get_l1. rewrite Hb.
  assert ((if nr b <? l1_watermark_lo then modify (wake_l1 cpu) else ret tt) p = Ret tt w) as ->
    by (unfold w; by destruct (_ <? _)).
  assert (l1s w = l1s p) as Ew by (unfold w; by destruct (_ <? _)).
  destruct (l1_pages b) as [|v l] eqn:El.
  - assert (nr b = 0) as -> by (unfold nr; by rewrite El). done.
  - rewrite (proj2 (Z.eqb_neq _ _)) by (unfold nr; rewrite El; simpl; lia).
    rewrite (pop_eq w cpu b v l); [done|by rewrite Ew|done].
Qed.

(** A page from the pool of a CPU. *)
Lemma alloc_page_local_spec p held bs cpu b :
  pool_inv p held bs → l1s p !! cpu = Some b →
  ∃ p', pool_inv p' (take 1 (l1_pages b) ++ held) bs ∧
    alloc_page_local cpu p = Ret (head (l1_pages b)) p' ∧ length (l1s p') = length (l1s p) ∧
    (l1_pages b = [] → l1s p' = l1s p ∧ rc p' = rc p ∧ l2_nr p' = l2_nr p ∧ l2_stack p' = l2_stack p).
Proof.
  intros Hp Hb. rewrite (alloc_page_local_eq p cpu b Hb). cbv zeta.
  set (w := if nr b <? l1_watermark_lo then wake_l1 cpu p else p).
  assert (pool_inv w held bs ∧ l1s w = l1s p ∧ rc w = rc p ∧ l2_nr w = l2_nr p ∧ l2_stack w = l2_stack p)
    as (W1 & W2 & W3 & W4 & W5).
  { unfold w. destruct (_ <? _); [|done]. split_and!; try done. by apply pool_inv_wake_l1. }
  destruct (l1_pages b) as [|v l] eqn:El; [exists w; rewrite W2; by split_and!|].
  eexists. split_and!; [|done| |done].
  - eapply pool_inv_l1; [exact W1|by rewrite W2| |].
    + pose proof (pi_l1 _ _ _ Hp b (list_elem_of_lookup_2 _ _ _ Hb)) as Hn.
      unfold nr in *. rewrite El in Hn. simpl in *. lia.
    + rewrite El. cbn [take app l1_pages]. by rewrite Permutation_middle.
  - cbn [l1s set_l1s]. by rewrite length_insert, W2.
Qed.

Lemma alloc_page_spec p held bs cpu b curr level :
  pool_inv p held bs → l1s p !! cpu = Some b →
  wp (alloc_page cpu curr level) p
    (λ v p', pool_inv p' (v :: held) bs ∧ length (l1s p') = length (l1s p))
    (λ p', pool_inv p' held bs ∧ length (l1s p') = length (l1s p) ∧
       l2_stack p = [] ∧ l1_pages b = [])
    (refill_bad p curr ∧ l2_stack p = [] ∧ l1_pages b = []).
Proof.
  intros Hp Hb. unfold alloc_page. cbn [alloc_page_loop]. apply wp_bind.
  destruct (alloc_page_local_spec p held bs cpu b Hp Hb) as (p1 & H1 & E1 & L1 & N1).
  unfold wp at 1. rewrite E1. destruct (l1_pages b) as [|v l] eqn:El; cbn [head take app] in *.
  2:{ unfold wp, ret. done. }
  destruct N1 as (N1 & N2 & N3 & N4); [done|]. apply wp_bind.
  eapply wp_mono; [apply (l1_refill_spec p1 held bs cpu b); [done|by rewrite N1]| | |].
  - intros _ p2 (H2 & L2 & b2 & Hb2 & Hn2). apply wp_bind.
    destruct (alloc_page_local_spec p2 held bs cpu b2 H2 Hb2) as (p3 & H3 & E3 & L3 & _).
    unfold wp at 1. rewrite E3.
    assert (nr b = 0) as Hz by (unfold nr; by rewrite El). rewrite Hz in Hn2.
    change (0 + nr_pages <? l1_max / 2) with true in Hn2.
    destruct (l1_pages b2) as [|v l] eqn:El2; [unfold nr in Hn2; rewrite El2 in Hn2; done|].
    cbn [head take app] in *. unfold wp, ret. split; [done|congruence].
  - intros p2 (H2 & L2 & N5). split_and!; [done|congruence|congruence|done].
  - intros [Hbad Hst]. unfold refill_bad, refill_need, l2_max in *. rewrite N1, N2, N3 in Hbad.
    rewrite N4 in Hst. done.
Qed.

Lemma free_page_local_eq p cpu b v :
  l1s p !! cpu = Some b →
  let w := if l1_watermark_hi <? nr b then wake_l1 cpu p else p in
  free_page_local cpu v p =
    if nr b =? l1_max then Ret false w
    else if nr b <? l1_max then
      Ret true (set_l1s w (<[cpu := mkL1 (v :: l1_pages b) (nr b + 1)]> (l1s w)))
    else Fault.
Proof.
  intros Hb w. unfold free_page_local, bind, get_l1. rewrite Hb.
  assert ((if l1_watermark_hi <? nr b then modify (wake_l1 cpu) else ret tt) p = Ret tt w) as ->
    by (unfold w; by destruct (_ <? _)).
  assert (l1s w = l1s p) as Ew by (unfold w; by destruct (_ <? _)).
  destruct (nr b =? l1_max); [done|]. destruct (Z.ltb_spec (nr b) l1_max).
  - rewrite (push_eq w cpu b v); [done|by rewrite Ew|done].
  - unfold push, bind, get_l1. rewrite Ew, Hb. unfold check.
    by rewrite (proj2 (Z.ltb_ge _ _)).
Qed.

Lemma free_page_local_spec p held bs cpu b v :
  pool_inv p (v :: held) bs → l1s p !! cpu = Some b →
  ∃ p', length (l1s p') = length (l1s p) ∧
    if nr b =? l1_max
    then free_page_local cpu v p = Ret false p' ∧ pool_inv p' (v :: held) bs ∧ l1s p' = l1s p
    else free_page_local cpu v p = Ret true p' ∧ pool_inv p' held bs.
Proof.
  intros Hp Hb. rewrite (free_page_local_eq p cpu b v Hb). cbv zeta.
  set (w := if l1_watermark_hi <? nr b then wake_l1 cpu p else p).
  assert (pool_inv w (v :: held) bs ∧ l1s w = l1s p) as (W1 & W2).
  { unfold w. destruct (_ <? _); [|done]. split_and!; try done. by apply pool_inv_wake_l1. }
  pose proof (pi_l1 _ _ _ Hp b (list_elem_of_lookup_2 _ _ _ Hb)) as Hn.
  destruct (Z.eqb_spec (nr b) l1_max) as [He|Hne].
  - exists w. rewrite W2. by split_and!.
  - rewrite (proj2 (Z.ltb_lt _ _)) by lia. eexists. split; [|split; [done|]].
    + cbn [l1s set_l1s]. by rewrite length_insert, W2.
    + eapply pool_inv_l1; [exact W1|by rewrite W2| |].
      * unfold nr in *. simpl. lia.
      * cbn [l1_pages app]. by rewrite Permutation_middle.
Qed.

Lemma free_page_spec p held bs cpu b v :
  pool_inv p (v :: held) bs → l1s p !! cpu = Some b →
  ∃ p', free_page cpu v p = Ret tt p' ∧ pool_inv p' held bs ∧ length (l1s p') = length (l1s p).
Proof.
  intros Hp Hb. unfold free_page. cbn [free_page_loop]. unfold bind.
  destruct (free_page_local_spec p held bs cpu b v Hp Hb) as (p1 & L1 & H1).
  destruct (Z.eqb_spec (nr b) l1_max) as [He|Hne].
  2:{ destruct H1 as [-> H1]. by exists p1. }
  destruct H1 as (-> & H1 & N1). rewrite <- N1 in Hb.
  destruct (l1_unfill_spec p1 (v :: held) bs cpu b H1 Hb) as (p2 & -> & H2 & L2 & b2 & Hb2 & Hn2).
  rewrite He in Hn2. change (nr_pages + l1_max / 2 <? l1_max) with true in Hn2.
  destruct (free_page_local_spec p2 held bs cpu b2 v H2 Hb2) as (p3 & L3 & H3).
  rewrite (proj2 (Z.eqb_neq _ _)) in H3 by (unfold nr_pages in Hn2; lia).
  destruct H3 as [-> H3]. exists p3. split_and!; [done|done|congruence].
Qed.

(** ** The filling threads *)

Definition fill_bad (curr : Z) : Prop := ∃ p, refill_bad p curr ∧ l2_stack p = [].

Lemma l1_fill_up_spec fuel p held bs cpu b curr level :
  pool_inv p held bs → l1s p !! cpu = Some b → l1_max / 2 - nr_pages - nr b ≤ Z.of_nat fuel →
  wp (l1_fill_up fuel cpu curr level) p
    (λ _ p', pool_inv p' held bs ∧ length (l1s p') = length (l1s p) ∧
       ∃ b', l1s p' !! cpu = Some b' ∧ l1_max / 2 - nr_pages ≤ nr b' ≤ Z.max (nr b) (l1_max / 2))
    (λ p', pool_inv p' held bs) (fill_bad curr).
Proof.
  revert p b. induction fuel as [|fuel IH]; intros p b Hp Hb Hf; cbn [l1_fill_up].
  { unfold wp, ret. split_and!; try done. exists b. split; [done|lia]. }
  apply wp_bind. unfold wp at 1, get_l1. rewrite Hb.
  destruct (Z.ltb_spec (nr b + nr_pages) (l1_max / 2)) as [Hlt|Hge].
  2:{ unfold wp, ret. split_and!; try done. exists b. split; [done|lia]. }
  apply wp_bind. eapply wp_mono; [by eapply l1_refill_spec| | |].
  - intros _ p1 (H1 & L1 & b1 & Hb1 & Hn1). rewrite (proj2 (Z.ltb_lt _ _) Hlt) in Hn1.
    eapply wp_mono; [apply (IH p1 b1 H1 Hb1)| |done|done].
    + unfold nr_pages in *. lia.
    + intros _ p2 (H2 & L2 & b2 & Hb2 & Hn2). split_and!; [done|congruence|].
      exists b2. split; [done|]. lia.
  - by intros p1 [? _].
  - intros ?. by exists p.
Qed.

Lemma l1_drain_spec fuel p held bs cpu b :
  pool_inv p held bs → l1s p !! cpu = Some b → nr b - (nr_pages + l1_max / 2) ≤ Z.of_nat fuel →
  ∃ p' b', l1_drain fuel cpu p = Ret tt p' ∧ pool_inv p' held bs ∧
    length (l1s p') = length (l1s p) ∧ l1s p' !! cpu = Some b' ∧
    Z.min (nr b) (l1_max / 2) ≤ nr b' ≤ nr_pages + l1_max / 2.
Proof.
  revert p b. induction fuel as [|fuel IH]; intros p b Hp Hb Hf; cbn [l1_drain].
  { exists p, b. split_and!; try done; lia. }
  unfold bind at 1, get_l1. rewrite Hb.
  destruct (Z.ltb_spec (nr_pages + l1_max / 2) (nr b)) as [Hlt|Hge].
  2:{ exists p, b. split_and!; try done; lia. }
  unfold bind. destruct (l1_unfill_spec p held bs cpu b Hp Hb) as (p1 & -> & H1 & L1 & b1 & Hb1 & Hn1).
  rewrite (proj2 (Z.ltb_lt _ _) Hlt) in Hn1.
  destruct (IH p1 b1 H1 Hb1) as (p2 & b2 & E & H2 & L2 & Hb2 & Hn2).
  { unfold nr_pages in *. lia. }
  exists p2, b2. split_and!; try done; [congruence|lia|lia].
Qed.

Lemma l1_fill_pass_spec p held bs cpu b curr level :
  pool_inv p held bs → l1s p !! cpu = Some b →
  wp (l1_fill_pass cpu curr level) p
    (λ _ p', pool_inv p' held bs ∧
       ∃ b', l1s p' !! cpu = Some b' ∧ l1_watermark_lo ≤ nr b' ≤ l1_watermark_hi)
    (λ p', pool_inv p' held bs) (fill_bad curr).
Proof.
  intros Hp Hb. unfold l1_fill_pass. apply wp_bind. unfold wp at 1, get_l1. rewrite Hb.
  pose proof (pi_l1 _ _ _ Hp b (list_elem_of_lookup_2 _ _ _ Hb)) as Hmax.
  assert (0 ≤ nr b) as Hpos by (unfold nr; lia).
  assert (l1_watermark_lo = 128 ∧ l1_watermark_hi = 384 ∧ l1_max / 2 = 256) as (Elo & Ehi & Em) by done.
  apply wp_bind. eapply wp_mono with
    (Q := λ _ p', pool_inv p' held bs ∧ ∃ b', l1s p' !! cpu = Some b' ∧ l1_watermark_lo ≤ nr b' ≤ l1_max).
  - destruct (Z.ltb_spec (nr b) l1_watermark_lo) as [Hlt|Hge].
    + eapply wp_mono; [eapply (l1_fill_up_spec _ _ _ _ _ b); try done| |done|done].
      * rewrite Em. unfold l1_max, nr_pages. lia.
      * intros _ p1 (H1 & L1 & b1 & Hb1 & Hn1). split; [done|]. exists b1. split; [done|].
        unfold nr_pages, l1_max in *. lia.
    + unfold wp, ret. split; [done|]. exists b. by split_and!.
  - intros _ p1 (H1 & b1 & Hb1 & Hn1). apply wp_bind. unfold wp at 1, get_l1. rewrite Hb1.
    destruct (Z.ltb_spec l1_watermark_hi (nr b1)) as [Hlt|Hge].
    + destruct (l1_drain_spec (Z.to_nat l1_max) p1 held bs cpu b1 H1 Hb1)
        as (p2 & b2 & E & H2 & L2 & Hb2 & Hn2).
      { unfold l1_max, nr_pages in *. lia. }
      unfold wp. rewrite E. split; [done|]. exists b2. split; [done|].
      unfold nr_pages, l1_max in *. lia.
    + unfold wp, ret. split; [done|]. exists b1. split; [done|lia].
  - done.
  - done.
Qed.

Lemma l2_fill_pass_spec p held bs curr level :
  pool_inv p held bs →
  wp (l2_fill_pass curr level) p
    (λ _ p', pool_inv p' held bs ∧ l2_watermark_lo p' ≤ l2_nr p' ≤ l2_watermark_hi p')
    (λ p', pool_inv p' held bs) (refill_bad p curr).
Proof.
  intros Hp. unfold l2_fill_pass. apply wp_bind. unfold wp at 1, get.
  pose proof (pi_cap _ _ _ Hp) as Hc. rewrite <- (pi_nr _ _ _ Hp) in Hc.
  assert (0 ≤ l2_nr p) as Hpos by (rewrite (pi_nr _ _ _ Hp); lia).
  assert (∀ q, 0 ≤ l2_max q) as Hm by (intros q; rewrite l2_max_eq; lia).
  apply wp_bind. eapply wp_mono with
    (Q := λ _ p', pool_inv p' held bs ∧ l1s p' = l1s p ∧ l2_watermark_lo p' ≤ l2_nr p')
    (W := λ p', pool_inv p' held bs) (F := refill_bad p curr).
  - destruct (Z.ltb_spec (l2_nr p) (l2_watermark_lo p)) as [Hlt|Hge];
      [|unfold wp, ret; by split_and!].
    eapply wp_mono; [by apply l2_refill_spec| |by intros q [? _]|done].
    intros _ p1 (H1 & L1 & N1). split_and!; [done..|].
    assert (l2_max p1 = l2_max p) as Em by (unfold l2_max; by rewrite L1).
    unfold l2_watermark_lo, l2_fuel in *. rewrite Em. specialize (Hm p).
    rewrite Z2Nat.id in N1 by done.
    assert (l2_max p / 2 ≤ l2_nr p1); [apply N1|]; Z.to_euclidean_division_equations; lia.
  - intros _ p1 (H1 & L1 & N1). apply wp_bind. unfold wp at 1, get.
    pose proof (pi_cap _ _ _ H1) as Hc1. rewrite <- (pi_nr _ _ _ H1) in Hc1. specialize (Hm p1).
    destruct (Z.ltb_spec (l2_watermark_hi p1) (l2_nr p1)) as [Hlt|Hge].
    + destruct (l2_unfill_spec (l2_fuel p1) p1 held bs H1) as (p2 & E & H2 & L2 & _ & M2 & N2).
      unfold wp. rewrite E. split; [done|].
      assert (l2_max p2 = l2_max p1) as Em by (unfold l2_max; by rewrite L2).
      unfold l2_watermark_lo, l2_watermark_hi, l2_fuel in *. rewrite Em.
      rewrite Z2Nat.id in N2 by done.
      assert (l2_nr p2 ≤ Z.max 0 (l2_max p1 / 2))
        by (apply N2; Z.to_euclidean_division_equations; lia).
      Z.to_euclidean_division_equations; lia.
    + unfold wp, ret. split; [done|lia].
  - done.
  - done.
Qed.

(** ** Instances of the page interface *)

(** The pools of [ncpu] CPUs, for a thread [curr] with its emergency level. *)
Section Source.
Context (curr level : Z) (bs : list (Z * Z)).

#[global, refine] Instance page_pool_source : PageSource t := {
  ps_alloc cpu := alloc_page cpu curr level;
  ps_free := free_page;
  ps_inv p held := pool_inv p held bs;
  ps_cpu p cpu := (cpu < length (l1s p))%nat;
}.
Proof.
  - intros p held Hp. destruct (pool_inv_pages _ _ _ Hp) as [Hnd Hv].
    apply NoDup_app in Hnd as (Hnd & _). split; [done|]. intros v Hin. apply Hv. elem.
  - intros p held held'. apply pool_inv_held.
  - intros p held cpu Hp [b Hb]%lookup_lt_is_Some.
    eapply wp_mono; [by apply (alloc_page_spec p held bs cpu b)|..].
    + intros v p' [? ->]. done.
    + intros p' (? & -> & _). done.
    + done.
  - intros p held cpu v Hp [b Hb]%lookup_lt_is_Some.
    destruct (free_page_spec p held bs cpu b v Hp Hb) as (p' & E & H1 & L1).
    unfold wp. rewrite E, L1. done.
Defined.

(** The page ranges themselves, before the pools exist: the null pointer, which
    [early_alloc_page] does not check for, is the fault. *)
#[global, refine] Instance early_source : PageSource mem := {
  ps_alloc _ m := match early_alloc_page m with
                  | (Some v, m') => Ret v m'
                  | (None, _) => Fault
                  end;
  ps_free _ v m := Ret tt (early_free_page m v);
  ps_inv m held := mem_inv m ((pg <$> held) ++ bs) ∧ headed (pra m) bs;
  ps_cpu _ _ := True;
}.
Proof.
  - intros m held [Hm _]. by eapply mem_inv_pages.
  - intros m held held' Hp [Hm Hh]. split; [|done]. eapply mem_inv_perm; [|exact Hm]. by rewrite Hp.
  - intros m held _ [Hm Hh] _. unfold wp. destruct (early_alloc_page m) as [[v|] m'] eqn:E; [|done].
    destruct (early_alloc_page_spec _ _ _ _ Hm E) as [? Hf]. split_and!; [done| |done].
    eapply headed_frame; [exact Hh|]. intros x Hx. apply Hf. elem.
  - intros m held _ v [Hm Hh] _. split_and!; [by apply mem_freed_at| |done].
    by eapply (headed_freed _ _ _ _ _ Hm); [intros x Hx; elem|].
Defined.
End Source.

(** ** Properties *)

(** a page taken from the pools is a page nobody else holds, whatever pool it
    comes from and whatever had to be refilled on the way; a thread goes to sleep
    or ends the machine only when both pools are empty, the latter only for want
    of memory (or if it is the reclaimer itself). *)
Theorem alloc_page_correct p held bs cpu b curr level r :
  pool_inv p held bs → l1s p !! cpu = Some b →
  alloc_page cpu curr level p = r →
  match r with
  | Ret v p' =>
      pool_inv p' (v :: held) bs ∧ v ∉ held ∧ v ≠ 0 ∧ (page_size | v) ∧ in_area main v
  | Blocked p' => pool_inv p' held bs ∧ l1_pages b = [] ∧ l2_stack p = []
  | Fault => refill_bad p curr ∧ l1_pages b = [] ∧ l2_stack p = []
  end.
Proof.
  intros Hp Hb <-. pose proof (alloc_page_spec p held bs cpu b curr level Hp Hb) as H.
  unfold wp in H. destruct (alloc_page cpu curr level p) as [v p'|p'|].
  - destruct H as [H _]. destruct (pool_inv_pages _ _ _ H) as [Hnd Hv].
    apply NoDup_app in Hnd as ([Hnd _]%NoDup_cons & _). split_and!; try done; apply Hv; elem.
  - by destruct H as (H1 & _ & H2 & H3).
  - by destruct H as (H1 & H2 & H3).
Qed.

Definition ex_pool_mem : mem :=
  default initial (free_initial_memory_range vector_growth initial (phys_mem + page_size) (600 * page_size)).

Lemma ex_pool_mem_inv : mem_inv ex_pool_mem [].
Proof.
  assert (free_initial_memory_range vector_growth initial (phys_mem + page_size) (600 * page_size)
    = Some ex_pool_mem) as E by (vm_compute; reflexivity).
  refine (proj1 (free_initial_ok vector_growth initial [] _ _ ex_pool_mem _ _ mem_inv_initial _ _ _ _ E));
    try (unfold vector_growth; lia); [done..|].
  intros y Hy. change (y ∈ []) in Hy. exfalso. by apply not_elem_of_nil in Hy.
Qed.

(** One CPU with empty pools. *)
Definition ex_pool : t := mk (Reclaim.mk ex_pool_mem [] [] 0 [] 9) [mkL1 [] 0] [] 0 ∅ [] 0.

(** Pools without pages on memory whose blocks are other ones. *)
Lemma pool_inv_empty r ncpu bs :
  mem_inv (mm r) bs → headed (pra (mm r)) bs → pool_inv (mk r (replicate ncpu (mkL1 [] 0)) [] 0 ∅ [] 0) [] bs.
Proof.
  intros Hm Hh. split.
  - unfold pool_pages. cbn [rc l1s l2_stack fmap list_fmap concat app]. rewrite app_nil_r.
    assert (concat (l1_pages <$> replicate ncpu (mkL1 [] 0)) = []) as -> by (by induction ncpu).
    done.
  - done.
  - unfold l2_max. cbn [l2_stack length]. apply Z.mul_nonneg_nonneg; [lia|done].
  - intros b Hb. cbn [l1s] in Hb. by apply elem_of_replicate in Hb as [-> _].
  - intros pb Hpb. by apply not_elem_of_nil in Hpb.
  - done.
Qed.

Lemma ex_pool_inv : pool_inv ex_pool [] [].
Proof. exact (pool_inv_empty (Reclaim.mk ex_pool_mem [] [] 0 [] 9) 1 [] ex_pool_mem_inv (headed_nil _)). Qed.

Definition ex_pool1 : t :=
  match alloc_page 0 1 0 ex_pool with Ret _ p => p | _ => ex_pool end.

Lemma ex_pool1_eq : alloc_page 0 1 0 ex_pool = Ret (page_addr 257) ex_pool1.
Proof. vm_compute. reflexivity. Qed.

Lemma ex_pool1_inv : pool_inv ex_pool1 [page_addr 257] [].
Proof.
  pose proof (alloc_page_spec ex_pool [] [] 0 (mkL1 [] 0) 1 0 ex_pool_inv eq_refl) as H.
  unfold wp in H. rewrite ex_pool1_eq in H. exact (proj1 H).
Qed.

Lemma alloc_page_correct_witness : page_addr 257 ∉ [] ∧ in_area main (page_addr 257).
Proof.
  destruct (alloc_page_correct ex_pool [] [] 0 (mkL1 [] 0) 1 0 _ ex_pool_inv eq_refl ex_pool1_eq)
    as (_ & H1 & _ & _ & H2).
  exact (conj H1 H2).
Defined.

(** giving a page back always succeeds, without waiting, whichever of the two
    pools is full. *)
Theorem free_page_correct p held bs cpu b v :
  pool_inv p (v :: held) bs → l1s p !! cpu = Some b →
  ∃ p', free_page cpu v p = Ret tt p' ∧ pool_inv p' held bs.
Proof.
  intros Hp Hb. destruct (free_page_spec p held bs cpu b v Hp Hb) as (p' & ? & ? & _). eauto.
Qed.

Lemma free_page_correct_witness :
  ∃ p', free_page 0 (page_addr 257) ex_pool1 = Ret tt p' ∧ pool_inv p' [] [].
Proof.
  destruct (l1s ex_pool1 !! 0%nat) as [b|] eqn:E; [|by vm_compute in E].
  exact (free_page_correct ex_pool1 [] [] 0 b (page_addr 257) ex_pool1_inv E).
Defined.

(** a turn of a filling thread, when it comes to its end, leaves its pool
    between the watermarks: the loops terminate, neither overshoots, and every
    page stays accounted for. *)
Theorem fill_passes p held bs cpu b curr level :
  pool_inv p held bs → l1s p !! cpu = Some b →
  (∀ p', l1_fill_pass cpu curr level p = Ret tt p' →
     pool_inv p' held bs ∧
     ∃ b', l1s p' !! cpu = Some b' ∧ l1_watermark_lo ≤ nr b' ≤ l1_watermark_hi) ∧
  (∀ p', l2_fill_pass curr level p = Ret tt p' →
     pool_inv p' held bs ∧ l2_watermark_lo p' ≤ l2_nr p' ≤ l2_watermark_hi p').
Proof.
  intros Hp Hb. pose proof (l1_fill_pass_spec p held bs cpu b curr level Hp Hb) as H1.
  pose proof (l2_fill_pass_spec p held bs curr level Hp) as H2. unfold wp in H1, H2.
  split; intros p' E; rewrite E in *; done.
Qed.

Definition ex_fill : t :=
  match l2_fill_pass 1 0 ex_pool with Ret _ p => p | _ => ex_pool end.

Lemma ex_fill_eq : l2_fill_pass 1 0 ex_pool = Ret tt ex_fill.
Proof. vm_compute. reflexivity. Qed.

Lemma fill_passes_witness :
  pool_inv ex_fill [] [] ∧ l2_watermark_lo ex_fill ≤ l2_nr ex_fill ≤ l2_watermark_hi ex_fill.
Proof.
  destruct (fill_passes ex_pool [] [] 0 (mkL1 [] 0) 1 0 ex_pool_inv eq_refl) as [_ H].
  exact (H ex_fill ex_fill_eq).
Defined.

(** the refill of the global pool takes its pages without looking at them:
    when less than a batch of pages is free it writes through a null pointer, and
    with at least a batch it never does. *)
Theorem l2_refill_batch_fault p held bs :
  pool_inv p held bs → l2_nr p < l2_max p →
  l2_refill_batch p = Fault ↔ free_memory (mm (rc p)) < nr_pages * page_size.
Proof.
  intros Hp Hn. split; [|by apply (l2_refill_batch_short p held bs)]. intros E.
  destruct (Z_lt_dec (free_memory (mm (rc p))) (nr_pages * page_size)) as [?|Hge]; [done|].
  destruct (l2_refill_batch_spec p held bs Hp) as (p' & E' & _); [lia|done|]. congruence.
Qed.

Definition ex_pool_small : t := mk (Reclaim.mk ex_mem [] [] 0 [] 9) [mkL1 [] 0] [] 0 ∅ [] 0.

Lemma l2_refill_batch_fault_witness : l2_refill_batch ex_pool_small = Fault.
Proof.
  apply (l2_refill_batch_fault ex_pool_small [] []); [|done|vm_compute; reflexivity].
  exact (pool_inv_empty (Reclaim.mk ex_mem [] [] 0 [] 9) 1 [] ex_mem_inv (headed_nil _)).
Defined.
