(* ===== verification/Pool.v ===== *)
(** * Pools of small objects

    [memory::pool], [malloc_pool] and [garbage_sink] of [core/mempool.cc]: a pool
    hands out objects of one size from pages with a header; each CPU has its own
    list of pages with free objects.  An object that is freed on another CPU goes
    into a queue between the two CPUs, which the owner empties later.  The pages
    come from any implementation of [PageSource]. *)
From S2P Require Import Prelude Bits MemArea Queues PageSource.

(** [owner], [cpu_id], [nalloc], a list hook of two pointers, [local_free]. *)
Definition sizeof_page_header : Z := 40.
Definition sizeof_free_object : Z := 8.
Definition signal_threshold : Z := 256.
Definition max_object_size : Z := page_size / 4.
Definition min_object_size : Z := sizeof_free_object.

Module Pool.
Local Open Scope prog_scope.

(** [malloc_pool::compute_object_size]; the shift is on [int]. *)
Definition compute_object_size (pos : nat) : Z :=
  let size := Z.shiftl 1 (Z.of_nat pos) in
  if max_object_size <? size then max_object_size else size.

Record header := mkHeader { owner : nat; cpu_id : nat; nalloc : Z; local_free : Z }.

(** A [garbage_sink]: its queue and [pushed_since_last_signal]. *)
Record sink := mkSink { queue : Unordered.t; pushed : Z }.

(** [src] is the source of pages, [hdrs] the header of each page of the pools,
    [links] the [next] field of the objects, [free_pages] the list [_free] of a
    pool and a CPU, [sinks] the queue to a CPU from another one
    ([pcpu_free_list]); [signals] records the wake-ups of the collectors. *)
Record t (P : Type) := mk {
  src : P;
  hdrs : gmap Z header;
  links : memory;
  free_pages : gmap (nat * nat) (list Z);
  sinks : gmap (nat * nat) sink;
  signals : list nat;
}.
Arguments mk {P}.
Arguments src {P}.
Arguments hdrs {P}.
Arguments links {P}.
Arguments free_pages {P}.
Arguments sinks {P}.
Arguments signals {P}.

Section Ops.
Context {P : Type} `{PageSource P}.
Context (osize : nat → Z).

Definition set_src (s : t P) (p : P) : t P :=
  mk p (hdrs s) (links s) (free_pages s) (sinks s) (signals s).
Definition set_hdr (s : t P) (pg : Z) (h : header) : t P :=
  mk (src s) (<[pg := h]> (hdrs s)) (links s) (free_pages s) (sinks s) (signals s).
Definition del_hdr (s : t P) (pg : Z) : t P :=
  mk (src s) (delete pg (hdrs s)) (links s) (free_pages s) (sinks s) (signals s).
Definition set_links (s : t P) (m : memory) : t P :=
  mk (src s) (hdrs s) m (free_pages s) (sinks s) (signals s).
Definition set_free (s : t P) (i c : nat) (l : list Z) : t P :=
  mk (src s) (hdrs s) (links s) (<[(i, c) := l]> (free_pages s)) (sinks s) (signals s).
Definition set_sink (s : t P) (c i : nat) (k : sink) : t P :=
  mk (src s) (hdrs s) (links s) (free_pages s) (<[(c, i) := k]> (sinks s)) (signals s).
Definition signal (c : nat) (s : t P) : t P :=
  mk (src s) (hdrs s) (links s) (free_pages s) (sinks s) (c :: signals s).

Definition free_list (s : t P) (i c : nat) : list Z := default [] (free_pages s !! (i, c)).
Definition get_sink (s : t P) (c i : nat) : sink :=
  default (mkSink Unordered.empty 0) (sinks s !! (c, i)).

Definition to_header (object : Z) : Z := Z.land object (not64 (page_size - 1)).

Definition get_hdr (pg : Z) : prog (t P) header := λ s,
  match hdrs s !! pg with Some h => Ret h s | None => Fault end.

(** A computation of the page source. *)
Definition lift {A} (m : prog P A) : prog (t P) A := λ s,
  match m (src s) with
  | Ret a p => Ret a (set_src s p)
  | Blocked p => Blocked (set_src s p)
  | Fault => Fault
  end.

(** ** Allocation *)

(** The loop that threads the objects of a new page on its list, from the end of
    the page down to its header. *)
Fixpoint carve (fuel : nat) (m : memory) (p lo size lf : Z) : memory * Z :=
  match fuel with
  | O => (m, lf)
  | S fuel => if lo <=? p then carve fuel (<[p := lf]> m) (p - size) lo size p else (m, lf)
  end.

(** The header of a new page, and the page at the end of the list. *)
Definition init_page (i c : nat) (pg : Z) (s : t P) : t P :=
  let '(m, lf) := carve (Z.to_nat page_size) (links s) (pg + page_size - osize i)
                    (pg + sizeof_page_header) (osize i) 0 in
  let s := set_hdr (set_links s m) pg (mkHeader i c 0 lf) in
  set_free s i c (free_list s i c ++ [pg]).

Definition add_page (i c : nat) : prog (t P) unit :=
  pg ⟵ lift (ps_alloc c); modify (init_page i c pg).

(** The first object of the first page. *)
Definition take_object (i c : nat) : prog (t P) Z := λ s,
  match free_list s i c with
  | [] => Fault
  | pg :: rest =>
      match hdrs s !! pg with
      | None => Fault
      | Some h =>
          let obj := local_free h in
          let lf := nx (links s) obj in
          let s := set_hdr s pg (mkHeader (owner h) (cpu_id h) (wrap32 (nalloc h + 1)) lf) in
          Ret obj (if lf =? 0 then set_free s i c rest else s)
      end
  end.

Fixpoint alloc_loop (fuel : nat) (i c : nat) : prog (t P) Z :=
  s ⟵ get;
  match free_list s i c, fuel with
  | [], S fuel => add_page i c ;;; alloc_loop fuel i c
  | _, _ => take_object i c
  end.

(** A page that was added has objects: one turn of the loop suffices. *)
Definition alloc (i c : nat) : prog (t P) Z := alloc_loop 1 i c.

(** ** Freeing *)

Definition have_full_pages (s : t P) (i c : nat) : bool :=
  match last (free_list s i c) with
  | None => false
  | Some pg => match hdrs s !! pg with Some h => nalloc h =? 0 | None => false end
  end.

Definition free_same_cpu (i : nat) (obj : Z) (c : nat) : prog (t P) unit :=
  let pg := to_header obj in
  h ⟵ get_hdr pg;
  let n := wrap32 (nalloc h - 1) in
  modify (λ s, set_hdr s pg (mkHeader (owner h) (cpu_id h) n (local_free h))) ;;;
  s ⟵ get;
  if (n =? 0) && have_full_pages s i c then
    (if negb (local_free h =? 0)
     then modify (λ s, set_free s i c (erase pg (free_list s i c))) else ret tt) ;;;
    modify (λ s, del_hdr s pg) ;;;
    lift (ps_free c pg)
  else
    (if local_free h =? 0 then
       modify (λ s, set_free s i c
         (if negb (n =? 0) then pg :: free_list s i c else free_list s i c ++ [pg]))
     else ret tt) ;;;
    modify (λ s,
      set_hdr (set_links s (<[obj := local_free h]> (links s))) pg
        (mkHeader (owner h) (cpu_id h) n obj)).

Definition free_different_cpu (obj : Z) (obj_cpu cur_cpu : nat) : prog (t P) unit :=
  modify (λ s,
    let k := get_sink s obj_cpu cur_cpu in
    let '(m, q) := Unordered.push (links s) (queue k) obj in
    let n := pushed k + 1 in
    let s := set_links s m in
    if signal_threshold <? n then signal obj_cpu (set_sink s obj_cpu cur_cpu (mkSink q 0))
    else set_sink s obj_cpu cur_cpu (mkSink q n)).

Definition free (i : nat) (object : Z) (cur_cpu : nat) : prog (t P) unit :=
  h ⟵ get_hdr (to_header object);
  if bool_decide (cpu_id h = cur_cpu) then free_same_cpu i object (cpu_id h)
  else free_different_cpu object (cpu_id h) cur_cpu.

Definition from_object (object : Z) : prog (t P) nat :=
  h ⟵ get_hdr (to_header object); ret (owner h).

(** The loop over one queue, and [collect_garbage]. *)
Fixpoint drain (fuel : nat) (cpu i : nat) : prog (t P) unit :=
  s ⟵ get;
  let k := get_sink s cpu i in
  let '(obj, q) := Unordered.pop (links s) (queue k) in
  modify (λ s, set_sink s cpu i (mkSink q (pushed k))) ;;;
  if obj =? 0 then ret tt
  else
    match fuel with
    | O => fault
    | S fuel =>
        o ⟵ from_object obj; free_same_cpu o obj cpu ;;; drain fuel cpu i
    end.

Fixpoint collect_garbage_loop (fuel : nat) (cpu : nat) (l : list nat) : prog (t P) unit :=
  match l with
  | [] => ret tt
  | i :: l => drain fuel cpu i ;;; collect_garbage_loop fuel cpu l
  end.

Definition collect_garbage (fuel ncpus : nat) (cpu : nat) : prog (t P) unit :=
  collect_garbage_loop fuel cpu (seq 0 ncpus).

End Ops.
End Pool.
Import Pool.

(** ** The objects of a page *)

(** The addresses [carve] visits, the last one first. *)
Fixpoint carved (fuel : nat) (p lo size : Z) (acc : list Z) : list Z :=
  match fuel with
  | O => acc
  | S fuel => if lo <=? p then carved fuel (p - size) lo size (p :: acc) else acc
  end.

Definition slots (size pg : Z) : list Z :=
  carved (Z.to_nat page_size) (pg + page_size - size) (pg + sizeof_page_header) size [].

Definition size_ok (size : Z) : Prop :=
  sizeof_free_object ≤ size ∧ size + sizeof_page_header ≤ page_size.

Lemma carved_app fuel p lo size acc :
  carved fuel p lo size acc = carved fuel p lo size [] ++ acc.
Proof.
  revert p acc. induction fuel as [|fuel IH]; intros p acc; cbn [carved]; [done|].
  destruct (lo <=? p); [|done]. rewrite IH, (IH _ [p]). by rewrite <- (assoc_L (++)).
Qed.

Lemma elem_of_carved fuel p lo size x :
  0 < size → p - lo < Z.of_nat fuel →
  x ∈ carved fuel p lo size [] ↔ ∃ k, 0 ≤ k ∧ x = p - k * size ∧ lo ≤ x.
Proof.
  intros Hs. revert p. induction fuel as [|fuel IH]; intros p Hf; cbn [carved].
  - split; [intros Hx; by apply not_elem_of_nil in Hx|]. intros (k & Hk & -> & Hlo). nia.
  - destruct (Z.leb_spec lo p) as [Hle|Hgt].
    + rewrite carved_app, elem_of_app, list_elem_of_singleton, IH by lia. split.
      * intros [(k & Hk & -> & Hlo)| ->]; [exists (k + 1)|exists 0]; lia.
      * intros (k & Hk & -> & Hlo). destruct (Z.eq_dec k 0) as [->|]; [right; lia|].
        left. exists (k - 1). lia.
    + split; [intros Hx; by apply not_elem_of_nil in Hx|]. intros (k & Hk & -> & Hlo). nia.
Qed.

Lemma carved_nodup fuel p lo size : 0 < size → NoDup (carved fuel p lo size []).
Proof.
  intros Hs. assert (∀ fuel p x, x ∈ carved fuel p lo size [] → x ≤ p) as Hle.
  { clear -Hs. induction fuel as [|fuel IH]; intros p x; cbn [carved].
    - intros Hx. by apply not_elem_of_nil in Hx.
    - destruct (lo <=? p); [|intros Hx; by apply not_elem_of_nil in Hx].
      rewrite carved_app, elem_of_app, list_elem_of_singleton. intros [Hx| ->]; [|lia].
      apply IH in Hx. lia. }
  revert p. induction fuel as [|fuel IH]; intros p; cbn [carved]; [constructor|].
  destruct (lo <=? p); [|constructor]. rewrite carved_app. apply NoDup_app. split_and!; [done| |].
  - intros x Hx ->%list_elem_of_singleton. apply Hle in Hx. lia.
  - repeat constructor. apply not_elem_of_nil.
Qed.

Lemma elem_of_slots size pg x :
  size_ok size → x ∈ slots size pg ↔
  ∃ k, 1 ≤ k ∧ x = pg + page_size - k * size ∧ pg + sizeof_page_header ≤ x.
Proof.
  intros [H1 H2]. unfold slots. unfold sizeof_free_object, sizeof_page_header, page_size in *.
  rewrite elem_of_carved by lia. split; intros (k & Hk & -> & Hlo).
  - exists (k + 1). lia.
  - exists (k - 1). lia.
Qed.

Lemma slots_nodup size pg : size_ok size → NoDup (slots size pg).
Proof. intros [H _]. apply carved_nodup. unfold sizeof_free_object in H. lia. Qed.

Lemma slots_bound size pg : (length (slots size pg) ≤ Z.to_nat page_size)%nat.
Proof.
  unfold slots. generalize (Z.to_nat page_size) (pg + page_size - size) (pg + sizeof_page_header).
  induction n as [|n IH]; intros p lo; cbn [carved]; [done|].
  destruct (lo <=? p); [|simpl; lia]. rewrite carved_app, length_app. specialize (IH (p - size) lo).
  simpl. lia.
Qed.

(** Every page has an object. *)
Lemma slots_last size pg : size_ok size → pg + page_size - size ∈ slots size pg.
Proof.
  intros Hs. apply elem_of_slots; [done|]. exists 1. destruct Hs. lia.
Qed.

Lemma slots_length size pg pg' : length (slots size pg) = length (slots size pg').
Proof.
  unfold slots. assert (∀ fuel p lo d, length (carved fuel (p + d) (lo + d) size [])
    = length (carved fuel p lo size [])) as Hd.
  { induction fuel as [|fuel IH]; intros p lo d; cbn [carved]; [done|].
    replace (lo + d <=? p + d) with (lo <=? p) by lia. destruct (lo <=? p); [|done].
    rewrite (carved_app _ _ _ _ [p + d]), (carved_app _ _ _ _ [p]), !length_app.
    replace (p + d - size) with (p - size + d) by lia. by rewrite IH. }
  rewrite <- (Hd _ (pg' + page_size - size) _ (pg - pg')). f_equal. f_equal; lia.
Qed.

(** The links [carve] writes. *)
Lemma carve_spec fuel m p lo size lf l :
  0 < size → 0 < lo → chain m lf l → (∀ x, x ∈ l → p < x) →
  let '(m', lf') := carve fuel m p lo size lf in
  chain m' lf' (carved fuel p lo size [] ++ l) ∧
  ∀ x, x ∉ carved fuel p lo size [] → nx m' x = nx m x.
Proof.
  intros Hs Hlo. revert m p lf l. induction fuel as [|fuel IH]; intros m p lf l Hc Hl;
    cbn [carve carved]; [done|].
  destruct (Z.leb_spec lo p) as [Hle|Hgt]; [|done].
  specialize (IH (<[p := lf]> m) (p - size) p (p :: l)).
  destruct (carve fuel (<[p:=lf]> m) (p - size) lo size p) as [m' lf'].
  destruct IH as [I1 I2].
  - split_and!; [done|lia|]. rewrite nx_insert_eq. apply chain_insert; [|done].
    intros Hp%Hl. lia.
  - intros x [->|Hx%Hl]%elem_of_cons; lia.
  - rewrite carved_app, <- (assoc_L (++)). split; [done|]. intros x Hx.
    rewrite not_elem_of_app, not_elem_of_cons in Hx. rewrite I2 by tauto.
    apply nx_insert_ne. naive_solver.
Qed.

Lemma carve_page m pg size :
  0 < size → 0 < pg + sizeof_page_header →
  let '(m', lf) := carve (Z.to_nat page_size) m (pg + page_size - size)
                     (pg + sizeof_page_header) size 0 in
  chain m' lf (slots size pg) ∧ ∀ x, x ∉ slots size pg → nx m' x = nx m x.
Proof.
  intros Hs Hlo. unfold slots. generalize (Z.to_nat page_size). intros fuel.
  pose proof (carve_spec fuel m (pg + page_size - size) (pg + sizeof_page_header) size 0 []) as Hc.
  destruct (carve _ _ _ _ _ _) as [m' lf]. rewrite app_nil_r in Hc. apply Hc; [done..|].
  intros x Hx. by apply not_elem_of_nil in Hx.
Qed.

Lemma to_header_eq pg o :
  (page_size | pg) → 0 ≤ pg < 2 ^ 62 → pg ≤ o < pg + page_size → to_header o = pg.
Proof.
  intros [q ->] Hb Ho.
  assert (to_header o = align_down o page_size) as -> by done.
  change page_size with (2 ^ 12) in *. rewrite align_down_div by (unfold u64; lia).
  replace o with ((o - q * 2 ^ 12) + q * 2 ^ 12) by lia.
  rewrite Z.div_add, Z.div_small by lia. lia.
Qed.

(** ** The invariant *)

Section Inv.
Context {P : Type} `{PageSource P}.
Context (osize : nat → Z).

Definition pages_of (s : t P) : list Z := (map_to_list (hdrs s)).*1.

Definition obj_size (h : header) : Z := osize (owner h).

(** The object [o] is in use: the page that holds it has no free slot there. *)
Definition in_use (s : t P) (fl : Z → list Z) (o : Z) : Prop :=
  ∃ h, hdrs s !! to_header o = Some h ∧ o ∈ slots (obj_size h) (to_header o) ∧
    o ∉ fl (to_header o).

(** One page: its free objects are [l]; it is on the list of its pool and CPU
    while it has one. *)
Definition page_inv (s : t P) (l : list Z) (pg : Z) (h : header) : Prop :=
  size_ok (obj_size h) ∧
  chain (links s) (local_free h) l ∧
  (∀ o, o ∈ l → o ∈ slots (obj_size h) pg) ∧
  nalloc h = Z.of_nat (length (slots (obj_size h) pg)) - Z.of_nat (length l) ∧
  (pg ∈ free_list s (owner h) (cpu_id h) ↔ l ≠ []).

(** [fl] is the list of free objects of each page, [sq] the contents of the
    queues; [live] are the objects in the hands of the clients and [held] the
    pages that the source gave to others. *)
Record pinv (s : t P) (fl : Z → list Z) (sq : nat → nat → list Z) (live held : list Z) : Prop := {
  p_src : ps_inv (src s) (held ++ pages_of s);
  p_page pg h : hdrs s !! pg = Some h → page_inv s (fl pg) pg h;
  p_list i c : NoDup (free_list s i c);
  p_listed i c pg : pg ∈ free_list s i c →
    ∃ h, hdrs s !! pg = Some h ∧ owner h = i ∧ cpu_id h = c;
  p_sink c i : Unordered.holds (links s) (queue (get_sink s c i)) (sq c i);
  p_sent c i o : o ∈ sq c i → ∃ h, hdrs s !! to_header o = Some h ∧ cpu_id h = c;
  p_out o : (o ∈ live ∨ ∃ c i, o ∈ sq c i) ↔ in_use s fl o;
  p_live : NoDup live;
  p_sep o c i : o ∈ sq c i → o ∉ live;
  p_sq o c i c' i' : o ∈ sq c i → o ∈ sq c' i' → c = c' ∧ i = i';
}.

Arguments p_src {s fl sq live held}.
Arguments p_page {s fl sq live held}.
Arguments p_list {s fl sq live held}.
Arguments p_listed {s fl sq live held}.
Arguments p_sink {s fl sq live held}.
Arguments p_sent {s fl sq live held}.
Arguments p_out {s fl sq live held}.
Arguments p_live {s fl sq live held}.
Arguments p_sep {s fl sq live held}.
Arguments p_sq {s fl sq live held}.

Definition upd {A} (f : Z → A) (k : Z) (v : A) (x : Z) : A := if decide (x = k) then v else f x.

Lemma upd_eq {A} (f : Z → A) k v : upd f k v k = v.
Proof. unfold upd. by rewrite decide_True. Qed.
Lemma upd_ne {A} (f : Z → A) k v x : x ≠ k → upd f k v x = f x.
Proof. intros. unfold upd. by rewrite decide_False. Qed.

Lemma pages_of_elem s pg : pg ∈ pages_of s ↔ is_Some (hdrs s !! pg).
Proof.
  unfold pages_of. rewrite list_elem_of_fmap. split.
  - intros ([k h] & -> & Hk). apply elem_of_map_to_list in Hk. by exists h.
  - intros [h Hh]. exists (pg, h). by rewrite elem_of_map_to_list.
Qed.

(** A page of the pools is aligned and in the main area. *)
Lemma pool_page s fl sq live held pg h :
  pinv s fl sq live held → hdrs s !! pg = Some h → (page_size | pg) ∧ in_area main pg.
Proof.
  intros Hi Hh. destruct (ps_pages _ _ (p_src Hi)) as [_ Hp].
  destruct (Hp pg) as (_ & ? & ?); [|done]. rewrite elem_of_app, pages_of_elem. right. by exists h.
Qed.

Lemma main_bounds v : in_area main v → 2 ^ 44 ≤ v < 2 ^ 62.
Proof. unfold in_area. rewrite get_mem_area_base_eq, mem_area_size_eq. cbn. lia. Qed.

Lemma slot_in_page size pg o :
  size_ok size → (page_size | pg) → in_area main pg → o ∈ slots size pg →
  to_header o = pg ∧ pg + sizeof_page_header ≤ o ∧ o + size ≤ pg + page_size ∧ o ≠ 0.
Proof.
  intros Hs Ha Hm%main_bounds Ho. apply elem_of_slots in Ho as (k & Hk & -> & Hlo); [|done].
  destruct Hs. unfold sizeof_free_object, sizeof_page_header, page_size in *.
  split_and!; [apply to_header_eq; [done|lia|unfold page_size; nia]|lia|nia|lia].
Qed.

Lemma slot_header s fl sq live held pg h o :
  pinv s fl sq live held → hdrs s !! pg = Some h → o ∈ slots (obj_size h) pg →
  to_header o = pg ∧ pg + sizeof_page_header ≤ o ∧ o + obj_size h ≤ pg + page_size ∧ o ≠ 0.
Proof.
  intros Hi Hh. destruct (pool_page _ _ _ _ _ _ _ Hi Hh) as [Ha Hm].
  destruct (p_page Hi _ _ Hh) as (Hs & _). by apply slot_in_page.
Qed.

Lemma holds_ext m m' q l :
  Unordered.holds m q l → (∀ x, x ∈ l → nx m' x = nx m x) → Unordered.holds m' q l.
Proof.
  intros (l1 & l2 & H1 & H2 & -> & Hnd) Hx. exists l1, l2. split_and!; try done.
  - apply (chain_ext m); [done|]. intros x Hin. apply Hx, elem_of_app. by left.
  - apply (chain_ext m); [done|]. intros x Hin. apply Hx, elem_of_app. by right.
Qed.

Lemma free_list_set (s : t P) i c l i' c' :
  free_list (set_free s i c l) i' c' =
  if decide ((i', c') = (i, c)) then l else free_list s i' c'.
Proof.
  unfold free_list, set_free. cbn. destruct (decide _) as [[= -> ->]|Hne].
  - by rewrite lookup_insert_eq.
  - by rewrite lookup_insert_ne.
Qed.

(** The free objects of a page are some of its slots. *)
Lemma page_free_length (s : t P) l pg h o :
  page_inv s l pg h → o ∈ slots (obj_size h) pg → o ∉ l →
  (S (length l) ≤ length (slots (obj_size h) pg))%nat.
Proof.
  intros (_ & Hc & Hin & _) Ho Hnl. change (S (length l)) with (length (o :: l)).
  apply submseteq_length, NoDup_submseteq.
  - constructor; [done|by apply chain_nodup in Hc].
  - intros x [->|Hx]%elem_of_cons; auto.
Qed.

Lemma free_le (s : t P) l pg h :
  page_inv s l pg h → (length l ≤ length (slots (obj_size h) pg))%nat.
Proof.
  intros (_ & Hc & Hin & _). apply submseteq_length, NoDup_submseteq; [|done].
  by apply chain_nodup in Hc.
Qed.

Lemma pages_of_insert (s s' : t P) pg h h' :
  hdrs s !! pg = Some h → hdrs s' = <[pg := h']> (hdrs s) → pages_of s' ≡ₚ pages_of s.
Proof.
  intros Hh Hhd. apply NoDup_Permutation; [apply NoDup_fst_map_to_list..|].
  intros x. rewrite !pages_of_elem, Hhd. destruct (decide (x = pg)) as [->|Hne].
  - rewrite lookup_insert_eq, Hh. split; by eexists.
  - by rewrite lookup_insert_ne.
Qed.

(** A step that changes one page, its place in the list of its pool, and its free
    objects. *)
Lemma pinv_page (s s' : t P) fl sq live live' held pg h h' l' :
  pinv s fl sq live held →
  hdrs s !! pg = Some h →
  src s' = src s → hdrs s' = <[pg := h']> (hdrs s) → sinks s' = sinks s →
  owner h' = owner h → cpu_id h' = cpu_id h →
  (∀ i c, (i, c) ≠ (owner h, cpu_id h) → free_list s' i c = free_list s i c) →
  NoDup (free_list s' (owner h) (cpu_id h)) →
  (∀ x, x ≠ pg → x ∈ free_list s' (owner h) (cpu_id h) ↔ x ∈ free_list s (owner h) (cpu_id h)) →
  page_inv s' l' pg h' →
  (∀ x, x ∉ l' → nx (links s') x = nx (links s) x) →
  NoDup live' → (∀ o c i, o ∈ sq c i → o ∉ live') →
  (∀ o, to_header o ≠ pg → o ∈ live' ↔ o ∈ live) →
  (∀ o, to_header o = pg →
     (o ∈ live' ∨ ∃ c i, o ∈ sq c i) ↔ o ∈ slots (obj_size h) pg ∧ o ∉ l') →
  pinv s' (upd fl pg l') sq live' held.
Proof.
  intros Hi Hh Hsrc Hhd Hsk Ho Hcp Hfl Hnd Hin Hpg Hnx Hlv Hsep Hlo Hpo.
  assert (obj_size h' = obj_size h) as Hsz by (unfold obj_size; by rewrite Ho).
  assert (∀ x, x ∈ l' → to_header x = pg) as Hl'.
  { intros x Hx. destruct Hpg as (_ & _ & Hs & _). apply Hs in Hx. rewrite Hsz in Hx.
    by apply (slot_header _ _ _ _ _ _ _ _ Hi Hh) in Hx as [? _]. }
  assert (∀ x, x ≠ pg → ∀ i c, x ∈ free_list s' i c ↔ x ∈ free_list s i c) as Hmem.
  { intros x Hx i c. destruct (decide ((i, c) = (owner h, cpu_id h))) as [[= -> ->]|Hne];
      [by apply Hin|by rewrite Hfl]. }
  assert (∀ o c i, o ∈ sq c i → o ∉ l') as Hsql.
  { intros o c i Hsq Hl. pose proof (Hl' _ Hl) as Hto. apply Hpo in Hto as [Hto _].
    destruct Hto as [_ Hto]; [right; by exists c, i|done]. }
  split.
  - rewrite Hsrc. apply (ps_perm _ (held ++ pages_of s)); [|exact (p_src Hi)].
    f_equiv. symmetry. by apply (pages_of_insert _ _ pg h h').
  - intros x k Hk. rewrite Hhd, lookup_insert_Some in Hk. destruct Hk as [[<- <-]|[Hne Hk]].
    + by rewrite upd_eq.
    + rewrite upd_ne by done. destruct (p_page Hi _ _ Hk) as (K1 & K2 & K3 & K4 & K5).
      split_and!; [done| |done|done|by rewrite Hmem].
      apply (chain_ext (links s)); [done|]. intros o Hox. apply Hnx. intros Hl. apply Hl' in Hl.
      apply K3, (slot_header _ _ _ _ _ _ _ _ Hi Hk) in Hox as [Hto _]. congruence.
  - intros i c. destruct (decide ((i, c) = (owner h, cpu_id h))) as [[= -> ->]|Hne]; [done|].
    rewrite Hfl by done. apply (p_list Hi).
  - intros i c x Hx. rewrite Hhd. destruct (decide (x = pg)) as [->|Hne].
    + exists h'. rewrite lookup_insert_eq, Ho, Hcp. split; [done|].
      destruct (decide ((i, c) = (owner h, cpu_id h))) as [[= -> ->]|Hne]; [done|].
      rewrite Hfl in Hx by done. destruct (p_listed Hi _ _ _ Hx) as (k & Hk & <- & <-). by simplify_eq.
    + rewrite lookup_insert_ne by done. apply (p_listed Hi). by rewrite <- Hmem.
  - intros c i. unfold get_sink. rewrite Hsk. apply (holds_ext (links s)); [apply (p_sink Hi)|].
    intros o Hox. by apply Hnx, (Hsql _ c i).
  - intros c i o Hox. destruct (p_sent Hi _ _ _ Hox) as (k & Hk & <-). rewrite Hhd.
    destruct (decide (to_header o = pg)) as [Heq|Hne].
    + exists h'. rewrite Heq in *. rewrite lookup_insert_eq. assert (k = h) as -> by congruence. done.
    + exists k. by rewrite lookup_insert_ne.
  - intros o. unfold in_use. rewrite Hhd. destruct (decide (to_header o = pg)) as [Heq|Hne].
    + rewrite (Hpo o Heq), Heq, upd_eq, lookup_insert_eq. split.
      * intros [? ?]. exists h'. by rewrite Hsz.
      * intros (? & [= <-] & ? & ?). by rewrite <- Hsz.
    + rewrite Hlo by done. rewrite (p_out Hi). unfold in_use.
      by rewrite upd_ne, lookup_insert_ne by done.
  - done.
  - done.
  - apply (p_sq Hi).
Qed.

(** ** Allocation *)

Lemma take_object_spec (s : t P) fl sq live held i c :
  pinv s fl sq live held → free_list s i c ≠ [] →
  ∃ o s' fl', take_object i c s = Ret o s' ∧ pinv s' fl' sq (o :: live) held ∧
    src s' = src s ∧ ∃ h, hdrs s' !! to_header o = Some h ∧ owner h = i ∧ cpu_id h = c.
Proof.
  intros Hi Hne. unfold take_object. destruct (free_list s i c) as [|pg rest] eqn:Hl; [done|].
  destruct (p_listed Hi i c pg) as (h & Hh & <- & <-); [rewrite Hl; elem|]. rewrite Hh.
  pose proof (free_le _ _ _ _ (p_page Hi _ _ Hh)) as Hle.
  destruct (p_page Hi _ _ Hh) as (Hs & Hc & Hin & Hn & Hlist).
  destruct (fl pg) as [|o l'] eqn:Hf.
  { exfalso. apply Hlist; [rewrite Hl; elem|done]. }
  destruct Hc as (Hlf & Ho0 & Hc). rewrite Hlf in *.
  assert (o ∈ slots (obj_size h) pg) as Hos by (apply Hin; elem).
  pose proof (chain_nodup (links s) o (o :: l')) as Hnd. rewrite NoDup_cons in Hnd.
  destruct Hnd as [Hol Hnd]; [by split_and!|].
  destruct (slot_header _ _ _ _ _ _ _ _ Hi Hh Hos) as (Hto & _).
  assert (¬ in_use s fl o) as Hfree.
  { intros (k & _ & _ & Hk). rewrite Hto, Hf in Hk. apply Hk. elem. }
  assert (nx (links s) o = 0 ↔ l' = []) as Hlast.
  { split; [intros Hz; rewrite Hz in Hc; by apply chain_nil in Hc|intros ->; done]. }
  pose proof (p_list Hi (owner h) (cpu_id h)) as Hndl. rewrite Hl, NoDup_cons in Hndl.
  set (h' := mkHeader (owner h) (cpu_id h) (wrap32 (nalloc h + 1)) (nx (links s) o)).
  set (s1 := if nx (links s) o =? 0 then set_free (set_hdr s pg h') (owner h) (cpu_id h) rest
             else set_hdr s pg h').
  assert (src s1 = src s ∧ hdrs s1 = <[pg := h']> (hdrs s) ∧ sinks s1 = sinks s ∧
    links s1 = links s ∧ ∀ i c, free_list s1 i c =
      if decide ((i, c) = (owner h, cpu_id h))
      then (if nx (links s) o =? 0 then rest else pg :: rest) else free_list s i c)
    as (E1 & E2 & E3 & E4 & E5).
  { unfold s1. destruct (_ =? 0).
    - split_and!; try reflexivity. intros. by rewrite free_list_set.
    - split_and!; try reflexivity. intros. destruct (decide _) as [[= -> ->]|]; [|reflexivity].
      rewrite <- Hl. reflexivity. }
  exists o, s1, (upd fl pg l'). split; [reflexivity|]. clearbody s1. split; [|split; [done|]].
  - apply (pinv_page s _ fl sq live _ held pg h h'); [done..| | | | | | | | |].
    + intros i c Hic. rewrite E5. by rewrite decide_False.
    + rewrite E5, decide_True by done. destruct (_ =? 0); [tauto|]. by apply NoDup_cons.
    + intros x Hx. rewrite E5, decide_True, Hl by done.
      destruct (_ =? 0); rewrite ?elem_of_cons; naive_solver.
    + split_and!.
      * done.
      * by rewrite E4.
      * intros x Hx. apply Hin. elem.
      * cbn [nalloc h']. rewrite Hn. pose proof (slots_bound (obj_size h) pg) as Hb.
        unfold page_size in Hb. change (obj_size h') with (obj_size h). cbn [length] in *.
        rewrite wrap32_small; lia.
      * cbn [owner cpu_id h']. rewrite E5, decide_True by done.
        destruct (Z.eqb_spec (nx (links s) o) 0) as [Hz|Hz]; [naive_solver|].
        split; [naive_solver|]. intros _. elem.
    + intros x Hx. by rewrite E4.
    + constructor; [|apply (p_live Hi)]. intros Hx. apply Hfree, (p_out Hi). by left.
    + intros x k j Hx [->|Hlv]%elem_of_cons; [|by eapply (p_sep Hi)].
      apply Hfree, (p_out Hi). right. by exists k, j.
    + intros x Hx. rewrite elem_of_cons. naive_solver.
    + intros x Hx. rewrite elem_of_cons.
      pose proof (p_out Hi x) as Hu. unfold in_use in Hu. rewrite Hx, Hh, Hf in Hu. split.
      * intros [[->|Hlv]|Hq]; [done| |].
        -- destruct Hu as [Hu _]. destruct Hu as (k & [= <-] & ? & Hk); [by left|].
           split; [done|]. intros ?. apply Hk. elem.
        -- destruct Hu as [Hu _]. destruct Hu as (k & [= <-] & ? & Hk); [by right|].
           split; [done|]. intros ?. apply Hk. elem.
      * intros [Hxs Hxl]. destruct (decide (x = o)) as [->|Hxo]; [by left; left|].
        assert (∃ k, Some h = Some k ∧ x ∈ slots (obj_size k) pg ∧ x ∉ o :: l') as Hk.
        { exists h. split_and!; [done..|]. rewrite not_elem_of_cons. done. }
        apply Hu in Hk. tauto.
  - exists h'. by rewrite Hto, E2, lookup_insert_eq.
Qed.

Lemma pinv_src (s : t P) p' fl sq live held held' :
  pinv s fl sq live held → ps_inv p' (held' ++ pages_of s) →
  pinv (set_src s p') fl sq live held'.
Proof. intros [] Hp. split; done. Qed.

(** The new page: all its objects are free. *)
Lemma init_page_spec (s : t P) fl sq live held i c pg :
  pinv s fl sq live (pg :: held) → size_ok (osize i) →
  let s' := init_page osize i c pg s in
  pinv s' (upd fl pg (slots (osize i) pg)) sq live held ∧ src s' = src s ∧
  free_list s' i c = free_list s i c ++ [pg].
Proof.
  intros Hi Hs. destruct (ps_pages _ _ (p_src Hi)) as [Hnd Hp].
  destruct (Hp pg) as (_ & Ha & Hm); [cbn; elem|]. cbn in Hnd. rewrite NoDup_cons in Hnd.
  destruct Hnd as [Hnew Hnd]. rewrite elem_of_app, pages_of_elem in Hnew.
  assert (hdrs s !! pg = None) as Hpg by (destruct (hdrs s !! pg) eqn:?; [exfalso; naive_solver|done]).
  pose proof (λ o, slot_in_page (osize i) pg o Hs Ha Hm) as Hslot. cbn zeta. unfold init_page.
  assert (0 < osize i ∧ 0 < pg + sizeof_page_header) as [Hs0 Hlo].
  { apply main_bounds in Hm. destruct Hs. unfold sizeof_free_object, sizeof_page_header in *. lia. }
  pose proof (carve_page (links s) pg (osize i) Hs0 Hlo) as Hc.
  destruct (carve _ _ _ _ _ _) as [m lf]. destruct Hc as [Hc Hnx].
  set (h' := mkHeader i c 0 lf). change (free_list (set_hdr _ _ _) i c) with (free_list s i c).
  set (s' := set_free _ i c _).
  assert (hdrs s' = <[pg := h']> (hdrs s) ∧ sinks s' = sinks s ∧ links s' = m ∧
    ∀ i' c', free_list s' i' c' = if decide ((i', c') = (i, c)) then free_list s i c ++ [pg]
      else free_list s i' c') as (E2 & E3 & E4 & E5).
  { split_and!; try reflexivity. intros. unfold s'. by rewrite free_list_set. }
  assert (src s' = src s) as E1 by reflexivity. clearbody s'.
  assert (∀ x k, hdrs s !! x = Some k → x ≠ pg) as Hold by (intros ? ? ? ->; congruence).
  assert (∀ x i' c', x ≠ pg → x ∈ free_list s' i' c' ↔ x ∈ free_list s i' c') as Hmem.
  { intros x i' c' Hx. rewrite E5. destruct (decide _) as [[= -> ->]|]; [|done].
    rewrite elem_of_app, list_elem_of_singleton. naive_solver. }
  assert (∀ i' c', pg ∉ free_list s i' c') as Hnl.
  { intros i' c' Hx. destruct (p_listed Hi _ _ _ Hx) as (k & Hk & _). congruence. }
  split; [|split; [done|by rewrite E5, decide_True]]. split.
  - rewrite E1. apply (ps_perm _ ((pg :: held) ++ pages_of s)); [|exact (p_src Hi)].
    unfold pages_of. rewrite E2, map_to_list_insert by done. cbn. solve_Permutation.
  - intros x k Hk. rewrite E2, lookup_insert_Some in Hk. destruct Hk as [[<- <-]|[Hne Hk]].
    + rewrite upd_eq. split_and!; [done|by rewrite E4|done|change (obj_size h') with (osize i); cbn [nalloc h']; lia|]. cbn [owner cpu_id h'].
      rewrite E5, decide_True by done. split; [|intros _; elem].
      intros _ Hnil. pose proof (slots_last _ pg Hs) as Hl. rewrite Hnil in Hl.
      by apply not_elem_of_nil in Hl.
    + rewrite upd_ne by done. destruct (p_page Hi _ _ Hk) as (K1 & K2 & K3 & K4 & K5).
      split_and!; [done| |done|done|by rewrite Hmem]. rewrite E4.
      apply (chain_ext (links s)); [done|]. intros o Ho. apply Hnx. intros Hl%Hslot.
      apply K3, (slot_header _ _ _ _ _ _ _ _ Hi Hk) in Ho. naive_solver.
  - intros i' c'. rewrite E5. destruct (decide _); [|apply (p_list Hi)].
    apply NoDup_app. split_and!; [apply (p_list Hi)| |repeat constructor; apply not_elem_of_nil].
    intros x Hx ->%list_elem_of_singleton. by apply Hnl in Hx.
  - intros i' c' x Hx. rewrite E2. destruct (decide (x = pg)) as [->|Hne].
    + exists h'. rewrite lookup_insert_eq. split; [done|]. rewrite E5 in Hx.
      destruct (decide _) as [[= -> ->]|]; [done|by apply Hnl in Hx].
    + rewrite lookup_insert_ne by done. apply (p_listed Hi). by rewrite <- Hmem.
  - intros c' j. unfold get_sink. rewrite E3, E4. apply (holds_ext (links s)); [apply (p_sink Hi)|].
    intros o Ho. apply Hnx. intros Hl%Hslot. destruct (p_sent Hi _ _ _ Ho) as (k & Hk & _).
    apply Hold in Hk. tauto.
  - intros c' j o Ho. destruct (p_sent Hi _ _ _ Ho) as (k & Hk & <-). exists k. rewrite E2.
    split; [|done]. rewrite lookup_insert_ne; [done|]. intros Heq. by apply Hold in Hk.
  - intros o. rewrite (p_out Hi). unfold in_use. rewrite E2.
    destruct (decide (to_header o = pg)) as [Heq|Hne].
    + rewrite Heq, upd_eq, lookup_insert_eq. rewrite Hpg. split; [naive_solver|].
      intros (k & [= <-] & ? & ?). done.
    + by rewrite upd_ne, lookup_insert_ne by done.
  - apply (p_live Hi).
  - apply (p_sep Hi).
  - apply (p_sq Hi).
Qed.

Lemma wp_lift {A} (m : prog P A) (s : t P) (Q : A → t P → Prop) (W : t P → Prop) (F : Prop) :
  wp m (src s) (λ a p, Q a (set_src s p)) (λ p, W (set_src s p)) F → wp (lift m) s Q W F.
Proof. unfold wp, lift. by destruct (m (src s)). Qed.

Lemma set_src_cpus (s : t P) p' : (∀ c, ps_cpu (src s) c → ps_cpu p' c) →
  ∀ c, ps_cpu (src s) c → ps_cpu (src (set_src s p')) c.
Proof. done. Qed.

Lemma add_page_spec (s : t P) fl sq live held i c :
  pinv s fl sq live held → size_ok (osize i) → ps_cpu (src s) c →
  wp (add_page osize i c) s
    (λ _ s', ∃ fl', pinv s' fl' sq live held ∧ free_list s' i c ≠ [] ∧
      ∀ c, ps_cpu (src s) c → ps_cpu (src s') c)
    (λ s', pinv s' fl sq live held ∧ ∀ c, ps_cpu (src s) c → ps_cpu (src s') c)
    (ps_alloc c (src s) = Fault).
Proof.
  intros Hi Hs Hcpu. unfold add_page. apply wp_bind, wp_lift.
  eapply wp_mono; [exact (wp_fault _ _ _ _ _ (ps_alloc_spec _ _ c (p_src Hi) Hcpu))|..]; [| |done].
  - intros pg p' [Hp Hc]. pose proof (pinv_src s p' fl sq live held (pg :: held) Hi Hp) as Hi'.
    destruct (init_page_spec _ _ _ _ _ i c pg Hi' Hs) as (H1 & H2 & H3). cbv [wp modify].
    eexists. split; [exact H1|]. rewrite H2, H3. split; [|done]. by intros []%symmetry%app_cons_not_nil.
  - intros p' [Hp Hc]. split; [by apply (pinv_src s p' fl sq live held)|done].
Qed.

(** Objects in use do not overlap. *)
Lemma in_use_disjoint s fl sq live held o o' h h' :
  pinv s fl sq live held → in_use s fl o → in_use s fl o' → o ≠ o' →
  hdrs s !! to_header o = Some h → hdrs s !! to_header o' = Some h' →
  o + obj_size h ≤ o' ∨ o' + obj_size h' ≤ o.
Proof.
  intros Hi (k & Hk & Ho & _) (k' & Hk' & Ho' & _) Hne Hh Hh'.
  assert (k = h ∧ k' = h') as [-> ->] by (split; congruence).
  destruct (slot_header _ _ _ _ _ _ _ _ Hi Hh Ho) as (_ & B1 & B2 & _).
  destruct (slot_header _ _ _ _ _ _ _ _ Hi Hh' Ho') as (_ & B1' & B2' & _).
  destruct (pool_page _ _ _ _ _ _ _ Hi Hh) as [[q Hq] _].
  destruct (pool_page _ _ _ _ _ _ _ Hi Hh') as [[q' Hq'] _].
  unfold sizeof_page_header, page_size in *.
  destruct (Z.lt_trichotomy q q') as [Hlt|[Heq|Hlt]]; [left; lia| |right; lia].
  rewrite <- Heq in Hq'. rewrite Hq' in *. rewrite Hq in *. assert (h' = h) as -> by congruence.
  destruct (p_page Hi _ _ Hh) as (Hs & _).
  apply elem_of_slots in Ho as (a & _ & -> & _); [|done].
  apply elem_of_slots in Ho' as (b & _ & -> & _); [|done].
  destruct Hs. unfold sizeof_free_object, page_size in *.
  destruct (Z.lt_trichotomy a b) as [Hlt|[->|Hlt]]; [right; nia|done|left; nia].
Qed.

(** What a client gets for an object of the pool [i]. *)
Definition alloc_post (s : t P) sq live held (i c : nat) (o : Z) (s' : t P) : Prop :=
  (∃ fl', pinv s' fl' sq (o :: live) held) ∧
  (∃ h, hdrs s' !! to_header o = Some h ∧ owner h = i ∧ cpu_id h = c) ∧
  (∀ c, ps_cpu (src s) c → ps_cpu (src s') c) ∧
  to_header o + sizeof_page_header ≤ o ∧ o + osize i ≤ to_header o + page_size ∧
  ((osize i | page_size) → (osize i | o)) ∧
  ∀ o' h', o' ∈ live → hdrs s' !! to_header o' = Some h' →
    o' ≠ o ∧ (o + osize i ≤ o' ∨ o' + obj_size h' ≤ o).

Lemma take_post (s0 s : t P) fl sq live held i c :
  pinv s fl sq live held → free_list s i c ≠ [] →
  (∀ c, ps_cpu (src s0) c → ps_cpu (src s) c) →
  wp (take_object i c) s (alloc_post s0 sq live held i c) (λ _, False) False.
Proof.
  intros Hi Hl Hc. destruct (take_object_spec _ _ _ _ _ _ _ Hi Hl)
    as (o & s' & fl' & Heq & Hi' & Hsrc & h & Hh & Ho & Hcp).
  unfold wp. rewrite Heq. assert (in_use s' fl' o) as Hu by (apply (p_out Hi'); left; elem).
  pose proof (p_live Hi') as Hnd. rewrite NoDup_cons in Hnd.
  pose proof Hu as (k & Hk & Hsl & _). assert (k = h) as -> by congruence.
  assert (obj_size h = osize i) as Hsz by (unfold obj_size; by rewrite Ho).
  destruct (slot_header _ _ _ _ _ _ _ _ Hi' Hh Hsl) as (_ & B1 & B2 & _).
  destruct (pool_page _ _ _ _ _ _ _ Hi' Hh) as [Hal _].
  destruct (p_page Hi' _ _ Hh) as (Hs & _). unfold alloc_post. rewrite <- Hsz in *.
  split_and!; [by exists fl'|by exists h|by rewrite Hsrc|done|done| |].
  - intros Hdiv. apply elem_of_slots in Hsl as (q & _ & Hq & _); [|done]. rewrite Hq.
    apply Z.divide_sub_r; [|apply Z.divide_factor_r].
    apply Z.divide_add_r; [|done]. by transitivity page_size.
  - intros o' h' Hlv Hh'. assert (o' ≠ o) as Hne by naive_solver. split; [done|].
    apply (in_use_disjoint s' fl' sq (o :: live) held); try done. apply (p_out Hi'). left. elem.
Qed.

Lemma alloc_spec (s : t P) fl sq live held i c :
  pinv s fl sq live held → size_ok (osize i) → ps_cpu (src s) c →
  wp (alloc osize i c) s (alloc_post s sq live held i c)
    (λ s', free_list s i c = [] ∧ pinv s' fl sq live held ∧
       ∀ c, ps_cpu (src s) c → ps_cpu (src s') c)
    (free_list s i c = [] ∧ ps_alloc c (src s) = Fault).
Proof.
  intros Hi Hs Hc. unfold alloc. cbn [alloc_loop]. apply wp_bind. cbn.
  destruct (free_list s i c) as [|pg rest] eqn:Hl.
  - apply wp_bind. eapply wp_mono; [exact (add_page_spec s fl sq live held i c Hi Hs Hc)|..].
    + intros _ s' (fl' & Hi' & Hl' & Hc'). apply wp_bind. cbn.
      destruct (free_list s' i c) eqn:Hl2; [done|]. rewrite <- Hl2 in Hl'.
      eapply wp_mono; [by eapply take_post|done..].
    + intros s' [Hi' Hc']. done.
    + done.
  - eapply wp_mono; [apply (take_post s s fl); [done| |done]|done..]. by rewrite Hl.
Qed.

(** ** Freeing *)

(** The last object of a page goes: the page leaves the pool. *)
Lemma pinv_drop (s s' : t P) fl sq live held pg h o :
  pinv s fl sq (o :: live) held → hdrs s !! pg = Some h → to_header o = pg → nalloc h = 1 →
  src s' = src s → hdrs s' = delete pg (hdrs s) → sinks s' = sinks s → links s' = links s →
  (∀ i c, NoDup (free_list s' i c)) →
  (∀ i c x, x ∈ free_list s' i c ↔ x ≠ pg ∧ x ∈ free_list s i c) →
  pinv s' fl sq live (pg :: held).
Proof.
  intros Hi Hh Hto Hn E1 E2 E3 E4 Hnd Hfl.
  pose proof (p_live Hi) as Hlv. rewrite NoDup_cons in Hlv.
  destruct (p_page Hi _ _ Hh) as (Hs & Hc & Hin & Hnal & _).
  assert (in_use s fl o) as (k & Hk & Hos & Hof) by (apply (p_out Hi); left; elem).
  rewrite Hto in *. assert (k = h) as -> by congruence.
  assert (slots (obj_size h) pg ≡ₚ o :: fl pg) as Hperm.
  { symmetry. apply submseteq_length_Permutation; [|cbn; lia]. apply NoDup_submseteq.
    - constructor; [done|]. by apply chain_nodup in Hc.
    - intros x [->|Hx]%elem_of_cons; auto. }
  assert (∀ x, in_use s fl x → to_header x = pg → x = o) as Honly.
  { intros x (k & Hkx & Hx & Hxf) Heq. rewrite Heq in *. assert (k = h) as -> by congruence.
    rewrite Hperm, elem_of_cons in Hx. tauto. }
  assert (∀ x c i, x ∈ sq c i → to_header x ≠ pg) as Hsq.
  { intros x c i Hx Heq. assert (x = o) as -> by (apply Honly; [apply (p_out Hi); eauto|done]).
    apply (p_sep Hi) in Hx. apply Hx. elem. }
  split.
  - rewrite E1. apply (ps_perm _ (held ++ pages_of s)); [|exact (p_src Hi)].
    unfold pages_of. rewrite <- (insert_delete_id (hdrs s) pg h) by done.
    rewrite map_to_list_insert, E2 by apply lookup_delete_eq. cbn. solve_Permutation.
  - intros x k Hkx. rewrite E2, lookup_delete_Some in Hkx. destruct Hkx as [Hne Hkx].
    destruct (p_page Hi _ _ Hkx) as (K1 & K2 & K3 & K4 & K5).
    split_and!; [done|by rewrite E4|done|done|]. rewrite Hfl. naive_solver.
  - done.
  - intros i c x [Hne Hx]%Hfl. rewrite E2, lookup_delete_ne by done. by apply (p_listed Hi).
  - intros c i. unfold get_sink. rewrite E3, E4. apply (p_sink Hi).
  - intros c i x Hx. rewrite E2, lookup_delete_ne by (symmetry; by eapply Hsq).
    by apply (p_sent Hi c i).
  - intros x. destruct (decide (x = o)) as [->|Hxo].
    + split; [intros [?|(c & i & Hx)]; [tauto|by apply Hsq in Hx]|].
      intros (k & Hkx & _). by rewrite E2, Hto, lookup_delete_eq in Hkx.
    + transitivity (in_use s fl x).
      * rewrite <- (p_out Hi), elem_of_cons. naive_solver.
      * unfold in_use. rewrite E2. destruct (decide (to_header x = pg)) as [Heq|Hne].
        -- split; [intros Hu; by apply Honly in Hu|].
           intros (k & Hkx & _). by rewrite Heq, lookup_delete_eq in Hkx.
        -- by rewrite lookup_delete_ne.
  - tauto.
  - intros x c i Hx Hl. apply (p_sep Hi) in Hx. apply Hx. elem.
  - apply (p_sq Hi).
Qed.

(** An object goes back to the list of its page. *)
Lemma pinv_put (s s' : t P) fl sq live held pg h o :
  pinv s fl sq (o :: live) held → hdrs s !! pg = Some h → to_header o = pg →
  src s' = src s →
  hdrs s' = <[pg := mkHeader (owner h) (cpu_id h) (nalloc h - 1) o]> (hdrs s) →
  sinks s' = sinks s → links s' = <[o := local_free h]> (links s) →
  (∀ i c, (i, c) ≠ (owner h, cpu_id h) → free_list s' i c = free_list s i c) →
  free_list s' (owner h) (cpu_id h) ≡ₚ
    (if local_free h =? 0 then [pg] else []) ++ free_list s (owner h) (cpu_id h) →
  pinv s' (upd fl pg (o :: fl pg)) sq live held.
Proof.
  intros Hi Hh Hto E1 E2 E3 E4 Hfl Hperm.
  pose proof (p_live Hi) as Hlv. rewrite NoDup_cons in Hlv.
  destruct (p_page Hi _ _ Hh) as (Hs & Hc & Hin & Hnal & Hli).
  assert (in_use s fl o) as (k & Hk & Hos & Hof) by (apply (p_out Hi); left; elem).
  rewrite Hto in *. assert (k = h) as -> by congruence.
  destruct (slot_header _ _ _ _ _ _ _ _ Hi Hh Hos) as (_ & _ & _ & Ho0).
  assert (local_free h = 0 ↔ fl pg = []) as Hz.
  { split; [intros Hz; rewrite Hz in Hc; by apply chain_nil in Hc|]. intros Hz. by rewrite Hz in Hc. }
  eapply (pinv_page s s' fl sq (o :: live) live held pg h);
    [exact Hi|exact Hh|exact E1|exact E2|exact E3|reflexivity|reflexivity|exact Hfl|..].
  - rewrite Hperm. pose proof (p_list Hi (owner h) (cpu_id h)).
    destruct (Z.eqb_spec (local_free h) 0); cbn; [|done]. constructor; [|done]. tauto.
  - intros x Hx. rewrite Hperm. destruct (local_free h =? 0); cbn; [|done].
    rewrite elem_of_cons. naive_solver.
  - split_and!; [done| | | |].
    + cbn [local_free]. rewrite E4. split_and!; [done..|]. rewrite nx_insert_eq.
      by apply chain_insert.
    + intros x [->|Hx]%elem_of_cons; [done|by apply Hin].
    + change (obj_size (mkHeader _ _ _ _)) with (obj_size h). cbn [nalloc length]. lia.
    + cbn [owner cpu_id]. split; [done|]. intros _. rewrite Hperm.
      destruct (Z.eqb_spec (local_free h) 0); cbn; [elem|]. apply Hli. tauto.
  - intros x Hx. rewrite E4. apply nx_insert_ne. intros <-. apply Hx. elem.
  - tauto.
  - intros x c i Hx Hl. apply (p_sep Hi) in Hx. apply Hx. elem.
  - intros x Hx. rewrite elem_of_cons. naive_solver.
  - intros x Hx. pose proof (p_out Hi x) as Hu. unfold in_use in Hu. rewrite Hx, Hh in Hu.
    rewrite elem_of_cons in Hu. rewrite not_elem_of_cons. split.
    + intros Hox. assert (x ≠ o) as Hne.
      { intros ->. destruct Hox as [?|(c & i & Hsq)]; [tauto|]. apply (p_sep Hi) in Hsq.
        apply Hsq. elem. }
      destruct Hu as [Hu _]. destruct Hu as (k & [= <-] & ? & ?); [tauto|done].
    + intros (Hxs & Hxo & Hxf). destruct Hu as [_ Hu]. destruct Hu as [[?|?]|?]; [|done|by left|by right].
      by exists h.
Qed.

Lemma live_nalloc s fl sq live held o :
  pinv s fl sq (o :: live) held →
  ∃ h, hdrs s !! to_header o = Some h ∧ 1 ≤ nalloc h < 2 ^ 32 ∧
    (local_free h = 0 ↔ fl (to_header o) = []).
Proof.
  intros Hi. assert (in_use s fl o) as (h & Hh & Hos & Hof) by (apply (p_out Hi); left; elem).
  exists h. split; [done|]. pose proof (page_free_length _ _ _ _ _ (p_page Hi _ _ Hh) Hos Hof) as Hl.
  pose proof (slots_bound (obj_size h) (to_header o)) as Hb. unfold page_size in Hb.
  destruct (p_page Hi _ _ Hh) as (_ & Hc & _ & Hn & _). split; [lia|].
  split; [intros Hz; rewrite Hz in Hc; by apply chain_nil in Hc|]. intros Hz. by rewrite Hz in Hc.
Qed.

(** The page goes back to the source. *)
Lemma drop_page_spec (s s2 : t P) fl sq live held o h :
  pinv s fl sq (o :: live) held → hdrs s !! to_header o = Some h → nalloc h = 1 →
  ps_cpu (src s) (cpu_id h) →
  let pg := to_header o in
  src s2 = src s → hdrs s2 = delete pg (hdrs s) → sinks s2 = sinks s → links s2 = links s →
  (∀ i c, free_list s2 i c = if decide ((i, c) = (owner h, cpu_id h))
     then erase pg (free_list s (owner h) (cpu_id h)) else free_list s i c) →
  wp (lift (ps_free (cpu_id h) pg)) s2
    (λ _ s', (∃ fl', pinv s' fl' sq live held) ∧ sinks s' = sinks s ∧
       ∀ c, ps_cpu (src s) c → ps_cpu (src s') c) (λ _, False) False.
Proof.
  intros Hi Hh Hn Hcpu pg E1 E2 E3 E4 E5.
  assert (pinv s2 fl sq live (pg :: held)) as Hi2.
  { apply (pinv_drop s s2 fl sq live held pg h o); [done..| |].
    - intros i c. rewrite E5. destruct (decide _); [|apply (p_list Hi)].
      eapply sublist_NoDup; [apply (p_list Hi (owner h) (cpu_id h))|apply erase_sublist].
    - intros i c x. rewrite E5. destruct (decide _) as [[= -> ->]|Hne].
      + apply erase_elem, (p_list Hi).
      + split; [|tauto]. intros Hx. split; [|done]. intros ->.
        destruct (p_listed Hi _ _ _ Hx) as (k & Hkx & <- & <-). unfold pg in Hkx. congruence. }
  apply wp_lift.
  eapply wp_mono; [apply (ps_free_spec (src s2) (held ++ pages_of s2) (cpu_id h) pg);
    [exact (p_src Hi2)|by rewrite E1]|..]; [|done..].
  intros _ p' [Hp Hc]. split; [exists fl; by eapply pinv_src|]. split; [done|]. intros c. rewrite <- E1. apply Hc.
Qed.

Lemma free_same_cpu_spec (s : t P) fl sq live held o h :
  pinv s fl sq (o :: live) held → hdrs s !! to_header o = Some h →
  ps_cpu (src s) (cpu_id h) →
  wp (free_same_cpu (owner h) o (cpu_id h)) s
    (λ _ s', (∃ fl', pinv s' fl' sq live held) ∧ sinks s' = sinks s ∧
       ∀ c, ps_cpu (src s) c → ps_cpu (src s') c) (λ _, False) False.
Proof.
  intros Hi Hh Hcpu. destruct (live_nalloc _ _ _ _ _ _ Hi) as (k & Hk & Hn & Hz).
  assert (k = h) as -> by congruence. unfold free_same_cpu.
  apply wp_bind. unfold wp at 1, get_hdr. rewrite Hh. rewrite wrap32_small by lia.
  apply wp_bind. cbn. apply wp_bind. cbn.
  set (h1 := mkHeader _ _ _ _). set (s1 := set_hdr s _ _).
  destruct ((_ =? 0) && have_full_pages s1 _ _) eqn:Hf.
  - apply andb_true_iff in Hf as [Hn0 _]. apply Z.eqb_eq in Hn0.
    apply wp_bind. destruct (p_page Hi _ _ Hh) as (_ & _ & _ & _ & Hli).
    destruct (Z.eqb_spec (local_free h) 0) as [Hlf|Hlf]; cbn [negb];
      (apply (drop_page_spec s _ fl sq live held o h);
        [done|done|lia|done|reflexivity|apply delete_insert_eq|reflexivity|reflexivity|]).
    + intros i c. destruct (decide _) as [[= -> ->]|]; [|reflexivity].
      rewrite erase_notin; [reflexivity|]. tauto.
    + intros i c. etrans; [apply free_list_set|]. destruct (decide _); reflexivity.
  - apply wp_bind. destruct (Z.eqb_spec (local_free h) 0) as [Hlf|Hlf]; cbn; (split; [|done]);
      exists (upd fl (to_header o) (o :: fl (to_header o)));
      (apply (pinv_put s _ fl sq live held (to_header o) h o);
        [done|done|done|reflexivity|apply insert_insert_eq|reflexivity|reflexivity|..]).
    + intros i c Hne. etrans; [apply free_list_set|]. by rewrite decide_False.
    + match goal with |- ?l ≡ₚ _ => assert (l = if negb (nalloc h - 1 =? 0)
        then to_header o :: free_list s (owner h) (cpu_id h)
        else free_list s (owner h) (cpu_id h) ++ [to_header o]) as -> end.
      { etrans; [apply free_list_set|]. by rewrite decide_True. }
      rewrite Hlf. cbn.
      destruct (negb _); [reflexivity|]. rewrite (comm (++)). reflexivity.
    + reflexivity.
    + rewrite (proj2 (Z.eqb_neq _ _)) by done. reflexivity.
Qed.

(** ** The queues between the CPUs *)

Definition upd2 (f : nat → nat → list Z) (a b : nat) (l : list Z) (c i : nat) : list Z :=
  if decide ((c, i) = (a, b)) then l else f c i.

Lemma upd2_eq f a b l : upd2 f a b l a b = l.
Proof. unfold upd2. by rewrite decide_True. Qed.

Lemma get_sink_set (s : t P) a b k c i :
  get_sink (set_sink s a b k) c i = if decide ((c, i) = (a, b)) then k else get_sink s c i.
Proof.
  unfold get_sink, set_sink. cbn. destruct (decide _) as [[= -> ->]|Hne].
  - by rewrite lookup_insert_eq.
  - by rewrite lookup_insert_ne.
Qed.

Lemma in_use_nonzero s fl sq live held o : pinv s fl sq live held → in_use s fl o → o ≠ 0.
Proof.
  intros Hi (h & Hh & Ho & _). by apply (slot_header _ _ _ _ _ _ _ _ Hi Hh) in Ho as (_ & _ & _ & ?).
Qed.

(** A step that moves objects between the clients and one queue. *)
Lemma pinv_queue (s s' : t P) fl sq live live' held a b l :
  pinv s fl sq live held →
  src s' = src s → hdrs s' = hdrs s → (∀ i c, free_list s' i c = free_list s i c) →
  (∀ c i, (c, i) ≠ (a, b) → get_sink s' c i = get_sink s c i) →
  Unordered.holds (links s') (queue (get_sink s' a b)) l →
  (∀ x, x ∉ live → nx (links s') x = nx (links s) x) →
  (∀ o, o ∈ l → ∃ h, hdrs s !! to_header o = Some h ∧ cpu_id h = a) →
  live' ++ l ≡ₚ live ++ sq a b →
  pinv s' fl (upd2 sq a b l) live' held.
Proof.
  intros Hi E1 E2 E5 Hsk Hh Hnx Hsent Hperm.
  assert (NoDup (live' ++ l)) as Hnd.
  { rewrite Hperm. destruct (p_sink Hi a b) as (? & ? & _ & _ & _ & Hq).
    apply NoDup_app. split_and!; [apply (p_live Hi)| |done]. intros o Ho Hq'. by apply (p_sep Hi) in Hq'. }
  apply NoDup_app in Hnd as (Hnl & Hsep & _).
  assert (∀ o, o ∈ live' ∨ o ∈ l ↔ o ∈ live ∨ o ∈ sq a b) as Hmem.
  { intros o. by rewrite <- !elem_of_app, Hperm. }
  assert (∀ o c i, (c, i) ≠ (a, b) → o ∈ sq c i → o ∉ live ∧ o ∉ sq a b) as Hother.
  { intros o c i Hne Ho. split; [by apply (p_sep Hi) in Ho|]. intros Ho'.
    destruct (p_sq Hi _ _ _ _ _ Ho Ho') as [-> ->]. done. }
  split.
  - rewrite E1. unfold pages_of. rewrite E2. exact (p_src Hi).
  - intros pg h Hpg. rewrite E2 in Hpg. destruct (p_page Hi _ _ Hpg) as (K1 & K2 & K3 & K4 & K5).
    split_and!; [done| |done|done|by rewrite E5].
    apply (chain_ext (links s)); [done|]. intros x Hx. apply Hnx. intros Hl.
    destruct (slot_header _ _ _ _ _ _ _ _ Hi Hpg (K3 _ Hx)) as (Hto & _).
    assert (in_use s fl x) as (k & _ & _ & Hn) by (apply (p_out Hi); by left). by rewrite Hto in Hn.
  - intros i c. rewrite E5. apply (p_list Hi).
  - intros i c pg. rewrite E5, E2. apply (p_listed Hi).
  - intros c i. unfold upd2. destruct (decide _) as [[= -> ->]|Hne]; [done|].
    rewrite Hsk by done. apply (holds_ext (links s)); [apply (p_sink Hi)|].
    intros x Hx. apply Hnx. by apply (Hother x c i).
  - intros c i o. unfold upd2. rewrite E2. destruct (decide _) as [[= -> ->]|Hne]; [by apply Hsent|].
    apply (p_sent Hi).
  - intros o. unfold in_use. rewrite E2. fold (in_use s fl o). rewrite <- (p_out Hi). split.
    + intros [Ho|(c & i & Ho)].
      * destruct (proj1 (Hmem o)) as [?|?]; [by left|by left|right; by exists a, b].
      * unfold upd2 in Ho. destruct (decide _) as [[= -> ->]|Hne]; [|right; by exists c, i].
        destruct (proj1 (Hmem o)) as [?|?]; [by right|by left|right; by exists a, b].
    + intros [Ho|(c & i & Ho)].
      * destruct (proj2 (Hmem o)) as [?|?]; [by left|by left|]. right. exists a, b. by rewrite upd2_eq.
      * destruct (decide ((c, i) = (a, b))) as [[= -> ->]|Hne].
        -- destruct (proj2 (Hmem o)) as [?|?]; [by right|by left|]. right. exists a, b. by rewrite upd2_eq.
        -- right. exists c, i. unfold upd2. by rewrite decide_False.
  - done.
  - intros o c i Ho Hl'. unfold upd2 in Ho. destruct (decide _) as [[= -> ->]|Hne]; [by apply (Hsep o)|].
    destruct (Hother _ _ _ Hne Ho). destruct (proj1 (Hmem o)); tauto.
  - intros o c i c' i'. unfold upd2.
    destruct (decide _) as [[= -> ->]|Hne]; destruct (decide _) as [[= -> ->]|Hne']; [done| | |apply (p_sq Hi)].
    + intros Ho Ho'. destruct (Hother _ _ _ Hne' Ho'). destruct (proj1 (Hmem o)); tauto.
    + intros Ho Ho'. destruct (Hother _ _ _ Hne Ho). destruct (proj1 (Hmem o)); tauto.
Qed.

Lemma free_different_cpu_spec (s : t P) fl sq live held o h cur :
  pinv s fl sq (o :: live) held → hdrs s !! to_header o = Some h →
  ∃ s' l, free_different_cpu o (cpu_id h) cur s = Ret tt s' ∧ src s' = src s ∧
    l ≡ₚ o :: sq (cpu_id h) cur ∧ pinv s' fl (upd2 sq (cpu_id h) cur l) live held.
Proof.
  intros Hi Hh. unfold free_different_cpu, modify.
  assert (o ∉ sq (cpu_id h) cur) as Hns.
  { intros Ho. apply (p_sep Hi) in Ho. apply Ho. elem. }
  assert (o ≠ 0) as Ho0.
  { eapply (in_use_nonzero _ _ _ _ _ _ Hi), (p_out Hi). left. elem. }
  pose proof (Unordered.unordered_push _ _ _ o (p_sink Hi (cpu_id h) cur) Ho0 Hns) as Hp.
  cbn in Hp. destruct Hp as (l & Hl & Hperm). cbn [Unordered.push].
  set (q := Unordered.mk _ _) in *. set (m := <[o:=_]> (links s)) in *.
  set (n := pushed _ + 1).
  eexists _, l. split; [reflexivity|]. set (s' := if _ <? n then _ else _).
  assert (src s' = src s ∧ hdrs s' = hdrs s ∧ links s' = m ∧ (∀ i c, free_list s' i c = free_list s i c) ∧
    queue (get_sink s' (cpu_id h) cur) = q ∧
    ∀ c i, (c, i) ≠ (cpu_id h, cur) → get_sink s' c i = get_sink s c i) as (E1 & E2 & E3 & E4 & E5 & E6).
  { unfold s'. destruct (_ <? n); (split_and!; [reflexivity..| |]).
    - unfold get_sink. cbn. by rewrite lookup_insert_eq.
    - intros c i Hne. unfold get_sink. cbn. by rewrite lookup_insert_ne.
    - by rewrite get_sink_set, decide_True.
    - intros c i Hne. by rewrite get_sink_set, decide_False. }
  clearbody s'. split_and!; [done|done|].
  apply (pinv_queue s s' fl sq (o :: live)); [done..| | | |].
  - by rewrite E3, E5.
  - intros x Hx. rewrite E3. apply nx_insert_ne. intros ->. apply Hx. elem.
  - intros x. rewrite Hperm, elem_of_cons. intros [->|Hx]; [by exists h|by apply (p_sent Hi _ cur)].
  - rewrite Hperm. solve_Permutation.
Qed.

(** One object from a queue. *)
Lemma pop_sink_spec (s : t P) fl sq live held a b :
  pinv s fl sq live held →
  let '(o, q) := Unordered.pop (links s) (queue (get_sink s a b)) in
  let s' := set_sink s a b (mkSink q (pushed (get_sink s a b))) in
  match sq a b with
  | [] => o = 0 ∧ pinv s' fl (upd2 sq a b []) live held
  | x :: l => o = x ∧ o ≠ 0 ∧ pinv s' fl (upd2 sq a b l) (o :: live) held ∧
      ∃ h, hdrs s' !! to_header o = Some h ∧ cpu_id h = a
  end.
Proof.
  intros Hi. pose proof (Unordered.unordered_pop _ _ _ (p_sink Hi a b)) as [Ho Hq].
  destruct (Unordered.pop _ _) as [o q]. cbn in Ho, Hq. set (s' := set_sink _ _ _ _). cbn zeta.
  assert (queue (get_sink s' a b) = q ∧
    ∀ c i, (c, i) ≠ (a, b) → get_sink s' c i = get_sink s c i) as [E5 E6].
  { split; [by unfold s'; rewrite get_sink_set, decide_True|].
    intros. unfold s'. by rewrite get_sink_set, decide_False. }
  assert (∀ x, x ∈ sq a b → ∃ h, hdrs s !! to_header x = Some h ∧ cpu_id h = a) as Hs.
  { intros x. apply (p_sent Hi). }
  destruct (sq a b) as [|x l] eqn:Hsq; cbn in Ho, Hq; subst o.
  - split; [done|]. apply (pinv_queue s s' fl sq live); [done|reflexivity..|exact E6| |reflexivity|done|by rewrite Hsq].
    by rewrite E5.
  - split; [done|]. split; [|split].
    + eapply (in_use_nonzero _ _ _ _ _ _ Hi), (p_out Hi). right. exists a, b. rewrite Hsq. elem.
    + apply (pinv_queue s s' fl sq live); [done|reflexivity..|exact E6| |reflexivity| |].
      * by rewrite E5.
      * intros y Hy. apply Hs. elem.
      * rewrite Hsq. solve_Permutation.
    + apply Hs. elem.
Qed.

(** The effect of emptying queues of the CPU [a]: the objects become free. *)
Definition drained (s : t P) (sq : nat → nat → list Z) live held (a : nat) (bs : list nat)
    (s' : t P) : Prop :=
  ∃ fl' sq', pinv s' fl' sq' live held ∧
    (∀ b, b ∈ bs → sq' a b = []) ∧
    (∀ c i, ¬ (c = a ∧ i ∈ bs) → sq' c i = sq c i) ∧
    ∀ c, ps_cpu (src s) c → ps_cpu (src s') c.

Lemma drain_spec fuel (s : t P) fl sq live held a b :
  pinv s fl sq live held → ps_cpu (src s) a → (length (sq a b) ≤ fuel)%nat →
  wp (drain fuel a b) s (λ _, drained s sq live held a [b]) (λ _, False) False.
Proof.
  revert s fl sq. induction fuel as [|fuel IH]; intros s fl sq Hi Hc Hf;
    cbn [drain]; apply wp_bind; cbn; pose proof (pop_sink_spec s fl sq live held a b Hi) as Hp;
    destruct (Unordered.pop _ _) as [o q]; set (s1 := set_sink _ _ _ _) in Hp;
    apply wp_bind; unfold wp at 1, modify; fold s1;
    destruct (sq a b) as [|x l] eqn:Hsq; cbn [length] in Hf; try lia; cbn zeta in Hp.
  1,2: destruct Hp as [-> Hi1]; cbn; exists fl, (upd2 sq a b []); split_and!;
    [done|intros ? ->%list_elem_of_singleton; apply upd2_eq| |done];
    intros c i Hne; unfold upd2; destruct (decide _) as [[= -> ->]|]; [elem|done].
  destruct Hp as (_ & Ho0 & Hi1 & h & Hh & Hcp).
  rewrite (proj2 (Z.eqb_neq o 0)) by done.
  apply wp_bind. unfold from_object, wp at 1, bind, get_hdr. rewrite Hh. cbn.
  apply wp_bind. rewrite <- Hcp at 1.
  eapply wp_mono; [apply (free_same_cpu_spec s1 _ _ live held o h Hi1 Hh); by rewrite Hcp|..]; [|done..].
  intros _ s2 ([fl2 Hi2] & _ & Hc2). cbn.
  eapply wp_mono; [apply (IH s2 fl2 (upd2 sq a b l) Hi2 (Hc2 _ Hc)); rewrite upd2_eq; lia|..]; [|done..].
  intros _ s3 (fl3 & sq3 & Hi3 & He & Hr & Hc3). exists fl3, sq3. split_and!; [done..| |auto].
  intros c i Hne. rewrite Hr by done. unfold upd2. rewrite decide_False; [done|].
  intros [= -> ->]. apply Hne. elem.
Qed.

Lemma collect_loop_spec fuel (s : t P) fl sq live held a bs :
  pinv s fl sq live held → ps_cpu (src s) a → NoDup bs →
  (∀ b, b ∈ bs → length (sq a b) ≤ fuel)%nat →
  wp (collect_garbage_loop fuel a bs) s (λ _, drained s sq live held a bs) (λ _, False) False.
Proof.
  revert s fl sq. induction bs as [|b bs IH]; intros s fl sq Hi Hc Hnd Hf; cbn [collect_garbage_loop].
  - exists fl, sq. split_and!; [done|intros b Hb; by apply not_elem_of_nil in Hb|done|done].
  - apply NoDup_cons in Hnd as [Hb Hnd]. apply wp_bind.
    eapply wp_mono; [apply (drain_spec fuel s fl sq live held a b Hi Hc), Hf; elem|..]; [|done..].
    intros _ s1 (fl1 & sq1 & Hi1 & He1 & Hr1 & Hc1).
    eapply wp_mono; [apply (IH s1 fl1 sq1 Hi1 (Hc1 _ Hc) Hnd)|..]; [|clear Hf|done..].
    + intros x Hx. rewrite Hr1; [apply Hf; elem|].
      intros [_ ->%list_elem_of_singleton]. done.
    + intros _ s2 (fl2 & sq2 & Hi2 & He2 & Hr2 & Hc2). exists fl2, sq2. split_and!; [done| | |auto].
      * intros x [->|Hx]%elem_of_cons; [|by apply He2]. rewrite Hr2 by tauto. apply He1. elem.
      * intros c i Hne. rewrite Hr2, Hr1; [done|..].
        -- intros [-> ->%list_elem_of_singleton]. apply Hne. split; [done|elem].
        -- intros [-> Hx]. apply Hne. split; [done|elem].
Qed.

Lemma pinv_live_perm s fl sq live live' held :
  live ≡ₚ live' → pinv s fl sq live held → pinv s fl sq live' held.
Proof.
  intros Hp Hi. split; try apply Hi.
  - intros o. rewrite <- Hp. apply (p_out Hi).
  - rewrite <- Hp. apply (p_live Hi).
  - intros o c i. rewrite <- Hp. apply (p_sep Hi).
Qed.

(** Pools without pages. *)
Lemma pinv_initial p held : ps_inv p held →
  pinv (mk p ∅ ∅ ∅ ∅ []) (λ _, []) (λ _ _, []) [] held.
Proof.
  intros Hp. split; try done.
  - cbn. unfold pages_of. cbn [hdrs]. rewrite map_to_list_empty. cbn. by rewrite app_nil_r.
  - intros i c. constructor.
  - intros i c pg Hx. by apply not_elem_of_nil in Hx.
  - intros. apply Unordered.holds_empty.
  - intros c i o Hx. by apply not_elem_of_nil in Hx.
  - intros o. split; [|intros (h & Hh & _); done].
    intros [Hx|(? & ? & Hx)]; by apply not_elem_of_nil in Hx.
  - constructor.
  - intros o c i Hx. by apply not_elem_of_nil in Hx.
  - intros o c i c' i' Hx. by apply not_elem_of_nil in Hx.
Qed.
End Inv.

(** ** The headers of the pages *)

Section Headers.
Context {P : Type} `{PageSource P}.
Context (osize : nat → Z).

(** A page keeps its owner and its CPU; those of other pages are [new]. *)
Definition keeps (s s' : t P) (new : nat → nat → Prop) : Prop :=
  ∀ pg h', hdrs s' !! pg = Some h' →
    match hdrs s !! pg with
    | Some h => owner h' = owner h ∧ cpu_id h' = cpu_id h
    | None => new (owner h') (cpu_id h')
    end.

Lemma keeps_same (s s' : t P) new : hdrs s' = hdrs s → keeps s s' new.
Proof using Type. intros E pg h Hh. rewrite E in Hh. by rewrite Hh. Qed.

Lemma keeps_insert (s s' : t P) pg h new :
  hdrs s' = <[pg := h]> (hdrs s) →
  match hdrs s !! pg with
  | Some h0 => owner h = owner h0 ∧ cpu_id h = cpu_id h0
  | None => new (owner h) (cpu_id h)
  end → keeps s s' new.
Proof using Type.
  intros E Hh pg' h' Hl. rewrite E, lookup_insert_Some in Hl. destruct Hl as [[<- <-]|[_ Hl]]; [done|by rewrite Hl].
Qed.

Lemma keeps_trans (s s1 s2 : t P) new new' :
  keeps s s1 new → keeps s1 s2 (λ _ _, False) → (∀ i c, new i c → new' i c) → keeps s s2 new'.
Proof using Type.
  intros H1 H2 Hn pg h' Hl. specialize (H2 _ _ Hl). destruct (hdrs s1 !! pg) as [h1|] eqn:E1; [|done].
  specialize (H1 _ _ E1). destruct H2 as [-> ->]. destruct (hdrs s !! pg); auto.
Qed.

Lemma take_keeps (s : t P) i c new :
  wp (take_object i c) s (λ _ s', keeps s s' new) (λ _, False) True.
Proof using Type.
  unfold wp, take_object. destruct (free_list s i c) as [|pg rest]; [done|]. destruct (hdrs s !! pg) as [h|] eqn:Hh; [|done].
  apply (keeps_insert _ _ pg (mkHeader (owner h) (cpu_id h) (wrap32 (nalloc h + 1)) (nx (links s) (local_free h))));
    [by destruct (_ =? 0)|by rewrite Hh].
Qed.

Lemma alloc_keeps (s : t P) fl sq live held i c :
  pinv osize s fl sq live held → ps_cpu (src s) c →
  wp (alloc osize i c) s (λ _ s', keeps s s' (λ i' c', i' = i ∧ c' = c)) (λ s', hdrs s' = hdrs s) True.
Proof using Type.
  intros Hi Hc. unfold alloc. cbn [alloc_loop]. apply wp_bind. cbn. destruct (free_list s i c) as [|pg rest].
  - apply wp_bind. unfold add_page. apply wp_bind, wp_lift.
    eapply wp_mono; [exact (ps_alloc_spec _ _ c (p_src osize _ _ _ _ _ Hi) Hc)|..]; [|done..].
    intros pg p' [Hp _]. destruct (ps_pages _ _ Hp) as [Hnd _].
    assert (hdrs s !! pg = None) as Hnew.
    { destruct (hdrs s !! pg) eqn:E; [|done]. exfalso. cbn in Hnd. apply NoDup_cons in Hnd as [Hn _]. apply Hn.
      rewrite elem_of_app, pages_of_elem. right. by eexists. }
    apply wp_bind. cbn. set (s1 := init_page osize i c pg (set_src s p')).
    assert (keeps s s1 (λ i' c', i' = i ∧ c' = c)) as Hk.
    { unfold s1, init_page. destruct (carve _ _ _ _ _ _) as [m lf].
      eapply (keeps_insert _ _ pg (mkHeader i c 0 lf)); [done|by rewrite Hnew]. }
    clearbody s1. destruct (free_list s1 i c); (eapply wp_mono; [apply (take_keeps s1 i c (λ _ _, False))| |done|done]);
      intros o s2 Hk2; by eapply keeps_trans.
  - eapply wp_mono; [apply (take_keeps s i c (λ i' c', i' = i ∧ c' = c))|done|done|done].
Qed.

Lemma free_keeps (s : t P) i o cur new :
  wp (free i o cur) s (λ _ s', keeps s s' new) (λ _, True) True.
Proof using Type.
  unfold free. apply wp_bind. unfold wp at 1, get_hdr. destruct (hdrs s !! to_header o) as [h|] eqn:Hh; [|done].
  destruct (bool_decide _).
  - unfold free_same_cpu. apply wp_bind. unfold wp at 1, get_hdr. rewrite Hh. apply wp_bind. cbn. apply wp_bind. cbn.
    set (n := wrap32 _). set (s1 := set_hdr s _ _).
    destruct (_ && _).
    + assert (∀ s2, hdrs s2 = hdrs s1 → wp (modify (λ s, del_hdr s (to_header o)) ;;; lift (ps_free (cpu_id h) (to_header o)))%prog
        s2 (λ _ s', keeps s s' new) (λ _, True) True) as Hd.
      { intros s2 E. apply wp_bind. cbn. unfold wp, lift. destruct (ps_free _ _ _); [|done|done].
        intros pg h' Hl. cbn in Hl. apply lookup_delete_Some in Hl as [Hne Hl]. rewrite E in Hl. cbn in Hl.
        rewrite lookup_insert_ne in Hl by done. by rewrite Hl. }
      apply wp_bind. destruct (negb _); cbn; by apply Hd.
    + apply wp_bind. assert (∀ s2, hdrs s2 = hdrs s1 → keeps s
        (set_hdr (set_links s2 (<[o := local_free h]> (links s2))) (to_header o) (mkHeader (owner h) (cpu_id h) n o)) new) as Hk.
      { intros s2 E. apply (keeps_insert _ _ (to_header o) (mkHeader (owner h) (cpu_id h) n o)); [|by rewrite Hh]. cbn. rewrite E. cbn. by rewrite insert_insert_eq. }
      destruct (local_free h =? 0); cbn [wp modify ret].
      * by apply (Hk (set_free s1 i (cpu_id h) _)).
      * by apply (Hk s1).
  - unfold free_different_cpu, wp, modify. destruct (Unordered.push _ _ _) as [m q].
    apply keeps_same. by destruct (_ <? _).
Qed.
End Headers.
