(* ===== verification/PoolSpec.v ===== *)
(** * The properties of the pools of small objects

    What [pool::alloc], [pool::free] and [pool::collect_garbage] guarantee over any
    source of pages, and the witnesses over the two sources of the kernel. *)
From S2P Require Import Prelude Bits MemArea PageRange PageRangeSpec Memory Reclaim Large Queues PageSource PagePool Pool.
Import Memory Reclaim Large.
Import Pool.

Section Props.
Context {P : Type} `{PageSource P}.
Context (osize : nat → Z).

(** C23: an object of a pool lies inside one page behind its header, is aligned to
    its size where that divides the page, and overlaps no object in use, on
    whatever CPU and of whatever pool; the allocator waits or faults only when
    the pool has no free object and the source of pages does. *)
Theorem pool_alloc_correct (s : t P) fl sq live held i c :
  pinv osize s fl sq live held → size_ok (osize i) → ps_cpu (src s) c →
  wp (Pool.alloc osize i c) s (alloc_post osize s sq live held i c)
    (λ s', free_list s i c = [] ∧ pinv osize s' fl sq live held ∧
       ∀ c, ps_cpu (src s) c → ps_cpu (src s') c)
    (free_list s i c = [] ∧ ps_alloc c (src s) = Fault).
Proof. apply alloc_spec. Qed.

Lemma pool_free_spec (s : t P) fl sq live held o h cur :
  pinv osize s fl sq (o :: live) held → hdrs s !! to_header o = Some h →
  ps_cpu (src s) (cpu_id h) →
  wp (Pool.free (owner h) o cur) s
    (λ _ s', ∃ fl' sq', pinv osize s' fl' sq' live held ∧
       (∀ c, ps_cpu (src s) c → ps_cpu (src s') c) ∧
       (∀ c i, (c, i) ≠ (cpu_id h, cur) → sq' c i = sq c i) ∧
       sq' (cpu_id h) cur ≡ₚ
         (if bool_decide (cpu_id h = cur) then [] else [o]) ++ sq (cpu_id h) cur)
    (λ _, False) False.
Proof.
  intros Hi Hh Hc. unfold Pool.free. apply wp_bind. unfold wp at 1, get_hdr. rewrite Hh.
  destruct (bool_decide_reflect (cpu_id h = cur)) as [Heq|Hne].
  - eapply wp_mono; [by apply (free_same_cpu_spec osize s fl sq live held o h)|..]; [|done..].
    intros _ s' ([fl' Hi'] & _ & Hc'). exists fl', sq. by split_and!.
  - destruct (free_different_cpu_spec osize s fl sq live held o h cur Hi Hh)
      as (s' & l & E & Hsrc & Hl & Hi').
    unfold wp. rewrite E. exists fl, (upd2 sq (cpu_id h) cur l). split_and!; [done|by rewrite Hsrc| |].
    + intros c i Hci. unfold upd2. by rewrite decide_False.
    + by rewrite upd2_eq.
Qed.

(** C24: freeing an object always succeeds.  On the CPU of its page the object is
    free at once; on another one it waits in the queue between the two CPUs, and
    nothing else changes hands. *)
Theorem pool_free_correct (s : t P) fl sq live held o h cur :
  pinv osize s fl sq (o :: live) held → hdrs s !! to_header o = Some h →
  ps_cpu (src s) (cpu_id h) →
  wp (Pool.free (owner h) o cur) s
    (λ _ s', ∃ fl' sq', pinv osize s' fl' sq' live held ∧
       (∀ c, ps_cpu (src s) c → ps_cpu (src s') c) ∧
       (∀ c i, (c, i) ≠ (cpu_id h, cur) → sq' c i = sq c i) ∧
       sq' (cpu_id h) cur ≡ₚ
         (if bool_decide (cpu_id h = cur) then [] else [o]) ++ sq (cpu_id h) cur)
    (λ _, False) False.
Proof. apply pool_free_spec. Qed.

(** C25: the garbage collector of a CPU empties every queue to that CPU, with a
    bounded number of steps, and makes each object of them free; the queues of
    the other CPUs are untouched. *)
Theorem collect_garbage_correct fuel ncpus (s : t P) fl sq live held a :
  pinv osize s fl sq live held → ps_cpu (src s) a →
  (∀ b, (b < ncpus)%nat → (length (sq a b) ≤ fuel)%nat) →
  wp (collect_garbage fuel ncpus a) s
    (λ _ s', ∃ fl' sq', pinv osize s' fl' sq' live held ∧
       (∀ b, (b < ncpus)%nat → sq' a b = []) ∧
       (∀ c i, ¬ (c = a ∧ (i < ncpus)%nat) → sq' c i = sq c i))
    (λ _, False) False.
Proof.
  intros Hi Hc Hf. unfold collect_garbage.
  eapply wp_mono; [apply (collect_loop_spec osize fuel s fl sq live held a); [done..| |]|..]; [..|done|done].
  - apply NoDup_seq.
  - intros b Hb%elem_of_seq. apply Hf. lia.
  - intros _ s' (fl' & sq' & Hi' & He & Hr & _). exists fl', sq'. split_and!; [done| |].
    + intros b Hb. apply He, elem_of_seq. lia.
    + intros c i Hci. apply Hr. rewrite elem_of_seq. intros [-> Hx]. apply Hci. split; [done|lia].
Qed.

Lemma two_slots size pg :
  size_ok size → 2 * size + sizeof_page_header ≤ page_size → (2 ≤ length (slots size pg))%nat.
Proof.
  intros Hs H2. change 2%nat with (length [pg + page_size - 2 * size; pg + page_size - 1 * size]).
  destruct Hs as [Hs1 Hs2]. unfold sizeof_free_object in Hs1.
  apply submseteq_length, NoDup_submseteq.
  - apply NoDup_cons. split; [rewrite list_elem_of_singleton; lia|]. apply NoDup_singleton.
  - intros x Hx. apply elem_of_slots; [done|]. rewrite elem_of_cons, list_elem_of_singleton in Hx.
    destruct Hx as [->| ->]; [exists 2|exists 1]; lia.
Qed.

(** a page that becomes wholly free and is kept stays where it is in the list of
    its pool: when a page holds two objects or more, the branch that would move
    it to the back is never taken. *)
Theorem full_page_place (s s' : t P) fl sq live held o h h' :
  pinv osize s fl sq (o :: live) held → hdrs s !! to_header o = Some h →
  2 * obj_size osize h + sizeof_page_header ≤ page_size →
  free_same_cpu (owner h) o (cpu_id h) s = Ret tt s' →
  hdrs s' !! to_header o = Some h' → nalloc h' = 0 →
  free_list s' (owner h) (cpu_id h) = free_list s (owner h) (cpu_id h).
Proof.
  intros Hi Hh H2 E Hh' Hn'. destruct (live_nalloc osize _ _ _ _ _ _ Hi) as (k & Hk & Hn & Hz).
  assert (k = h) as -> by congruence. destruct (p_page osize _ _ _ _ _ Hi _ _ Hh) as (Hs & _ & _ & Hna & _).
  pose proof (two_slots _ (to_header o) Hs H2) as Hl.
  unfold free_same_cpu, bind, get_hdr in E. rewrite Hh in E. rewrite wrap32_small in E by lia.
  cbn in E. destruct (andb _ _) eqn:Hf in E.
  - destruct (negb _) in E; cbn in E; unfold lift in E; destruct (ps_free _ _ _) in E;
      simplify_eq; cbn in Hh'; by rewrite lookup_delete_eq in Hh'.
  - destruct (Z.eqb_spec (local_free h) 0) as [Hlf|Hlf] in E; [|by injection E as <-].
    exfalso. apply Hz in Hlf. rewrite Hlf in Hna. cbn in Hna.
    injection E as <-. cbn in Hh'. rewrite lookup_insert_eq in Hh'. injection Hh' as <-.
    cbn in Hn'. lia.
Qed.
End Props.

(** ** Witnesses

    The pools over the early page allocator, on a memory of nine pages. *)

Lemma malloc_pool_size_ok i : (3 ≤ i)%nat → size_ok (compute_object_size i).
Proof.
  intros Hi. unfold size_ok, compute_object_size, sizeof_free_object, sizeof_page_header.
  change max_object_size with 1024. change page_size with 4096.
  rewrite Z.shiftl_1_l. pose proof (Z.pow_le_mono_r 2 3 (Z.of_nat i) ltac:(lia) ltac:(lia)).
  case_match; lia.
Qed.

Definition ex_src : PageSource mem := early_source [].
Definition ex_alloc (s : Pool.t mem) : res (Pool.t mem) Z :=
  @Pool.alloc mem ex_src compute_object_size 10 0 s.
Definition ex_free (o : Z) (cur : nat) (s : Pool.t mem) : res (Pool.t mem) unit :=
  @Pool.free mem ex_src 10 o cur s.

Definition state {A} (s : Pool.t mem) (r : res (Pool.t mem) A) : Pool.t mem :=
  match r with Ret _ s' => s' | _ => s end.

Definition ex_pools : Pool.t mem := Pool.mk ex_mem ∅ ∅ ∅ ∅ [].
Definition ex_s1 := state ex_pools (ex_alloc ex_pools).
Definition ex_s2 := state ex_s1 (ex_alloc ex_s1).
Definition ex_s3 := state ex_s2 (ex_alloc ex_s2).
Definition ex_s4 := state ex_s3 (ex_alloc ex_s3).
Definition ex_o1 : Z := page_addr 2 + 1024.
Definition ex_o2 : Z := page_addr 2 + 2048.
Definition ex_o3 : Z := page_addr 2 + 3072.
Definition ex_o4 : Z := page_addr 3 + 1024.
Definition ex_s5 := state ex_s4 (ex_free ex_o1 0 ex_s4).
Definition ex_s6 := state ex_s5 (ex_free ex_o2 0 ex_s5).
Definition ex_s7 := state ex_s6 (ex_free ex_o3 0 ex_s6).

Lemma ex_eqs :
  ex_alloc ex_pools = Ret ex_o1 ex_s1 ∧ ex_alloc ex_s1 = Ret ex_o2 ex_s2 ∧
  ex_alloc ex_s2 = Ret ex_o3 ex_s3 ∧ ex_alloc ex_s3 = Ret ex_o4 ex_s4 ∧
  ex_free ex_o1 0 ex_s4 = Ret tt ex_s5 ∧ ex_free ex_o2 0 ex_s5 = Ret tt ex_s6.
Proof. split_and!; vm_compute; reflexivity. Qed.

(** The states with the objects [live] in use and empty queues. *)
Definition ex_inv (s : Pool.t mem) (live : list Z) : Prop :=
  ∃ fl, @pinv mem ex_src compute_object_size s fl (λ _ _, []) live [].

Lemma ex_alloc_inv s o s' live :
  ex_inv s live → ex_alloc s = Ret o s' → ex_inv s' (o :: live).
Proof.
  intros [fl Hi] E. pose proof (@alloc_spec mem ex_src compute_object_size s fl (λ _ _, []) live []
    10 0 Hi (malloc_pool_size_ok 10 ltac:(lia)) I) as Hw.
  unfold wp in Hw. unfold ex_alloc in E. rewrite E in Hw. by destruct Hw as [? _].
Qed.

Lemma ex_free_inv s o s' live live' :
  ex_inv s live → live ≡ₚ o :: live' →
  (∃ h, hdrs s !! to_header o = Some h ∧ owner h = 10%nat ∧ cpu_id h = 0%nat) →
  ex_free o 0 s = Ret tt s' → ex_inv s' live'.
Proof.
  intros [fl Hi] Hp (h & Hh & Ho & Hc) E.
  apply (@pinv_live_perm mem ex_src _ s fl _ _ _ [] Hp) in Hi.
  pose proof (@free_same_cpu_spec mem ex_src compute_object_size s fl (λ _ _, []) live' [] o h Hi Hh I) as Hw.
  unfold ex_free, Pool.free, bind, get_hdr in E. rewrite Hh, Hc in E.
  rewrite bool_decide_true in E by done.
  unfold wp in Hw. rewrite Hc, Ho, E in Hw. by destruct Hw as [? _].
Qed.

Lemma ex_initial_inv : ex_inv ex_pools [].
Proof. eexists. apply (@pinv_initial mem ex_src). exact (conj ex_mem_inv (headed_nil _)). Qed.

Lemma ex_s4_inv : ex_inv ex_s4 [ex_o4; ex_o3; ex_o2; ex_o1].
Proof.
  destruct ex_eqs as (E1 & E2 & E3 & E4 & _).
  refine (ex_alloc_inv ex_s3 ex_o4 ex_s4 _ _ E4). refine (ex_alloc_inv ex_s2 ex_o3 ex_s3 _ _ E3).
  refine (ex_alloc_inv ex_s1 ex_o2 ex_s2 _ _ E2). exact (ex_alloc_inv _ ex_o1 ex_s1 _ ex_initial_inv E1).
Qed.

Lemma ex_s6_inv : ex_inv ex_s6 [ex_o3; ex_o4].
Proof.
  destruct ex_eqs as (_ & _ & _ & _ & E5 & E6).
  refine (ex_free_inv ex_s5 ex_o2 ex_s6 _ _ (ex_free_inv ex_s4 ex_o1 ex_s5 _ [ex_o2; ex_o3; ex_o4]
    ex_s4_inv _ _ E5) _ _ E6); [solve_Permutation| |reflexivity|];
    (eexists; split_and!; [vm_compute; reflexivity|reflexivity..]).
Qed.

Lemma ex_pools_header : hdrs ex_s6 !! to_header ex_o3 = Some (mkHeader 10 0 1 ex_o2).
Proof. vm_compute. reflexivity. Qed.

Lemma pool_alloc_correct_witness : ∃ s', ex_alloc ex_pools = Ret ex_o1 s' ∧ (1024 | ex_o1).
Proof.
  destruct ex_initial_inv as [fl Hi]. pose proof (@pool_alloc_correct mem ex_src compute_object_size
    ex_pools fl (λ _ _, []) [] [] 10 0 Hi (malloc_pool_size_ok 10 ltac:(lia)) I) as Hw.
  destruct ex_eqs as (E & _). unfold wp in Hw. unfold ex_alloc in E. rewrite E in Hw.
  exists ex_s1. split; [exact E|]. destruct Hw as (_ & _ & _ & _ & _ & Hd & _).
  apply Hd. exists 4. reflexivity.
Defined.

Lemma pool_free_correct_witness :
  wp (λ s, ex_free ex_o3 1 s) ex_s6 (λ _ s', ∃ fl' sq',
    @pinv mem ex_src compute_object_size s' fl' sq' [ex_o4] [] ∧ sq' 0%nat 1%nat ≡ₚ [ex_o3])
    (λ _, False) False.
Proof.
  destruct ex_s6_inv as [fl Hi].
  eapply wp_mono; [exact (@pool_free_correct mem ex_src compute_object_size ex_s6 fl (λ _ _, [])
    [ex_o4] [] ex_o3 _ 1 Hi ex_pools_header I)|..]; [|done..].
  intros _ s' (fl' & sq' & Hi' & _ & _ & Hq). exists fl', sq'. split; [exact Hi'|exact Hq].
Defined.

(** An object freed on the CPU 1 waits for the CPU 0. *)
Definition ex_queued := state ex_s6 (ex_free ex_o3 1 ex_s6).

Lemma ex_queued_inv : ∃ fl l,
  @pinv mem ex_src compute_object_size ex_queued fl (upd2 (λ _ _, []) 0 1 l) [ex_o4] [] ∧
  l = [ex_o3].
Proof.
  destruct ex_s6_inv as [fl Hi].
  destruct (@free_different_cpu_spec mem ex_src compute_object_size ex_s6 fl (λ _ _, []) [ex_o4] []
    ex_o3 _ 1 Hi ex_pools_header) as (s' & l & E & _ & Hl & Hi').
  exists fl, l. split; [|by apply Permutation_singleton_r in Hl].
  assert (ex_free ex_o3 1 ex_s6 = Ret tt s') as E'.
  { etrans; [|exact E]. vm_compute. reflexivity. }
  unfold ex_queued. rewrite E'. exact Hi'.
Qed.

Lemma collect_garbage_correct_witness :
  wp (@collect_garbage mem ex_src 1 2 0) ex_queued (λ _ s', ∃ fl' sq',
    @pinv mem ex_src compute_object_size s' fl' sq' [ex_o4] [] ∧ sq' 0%nat 1%nat = [])
    (λ _, False) False.
Proof.
  destruct ex_queued_inv as (fl & l & Hi & Hl).
  eapply wp_mono; [refine (@collect_garbage_correct mem ex_src compute_object_size 1 2 ex_queued fl
    _ _ [] 0 Hi I _)|..]; [|..|done|done].
  - intros b _. rewrite Hl. unfold upd2. destruct (decide _); simpl; lia.
  - intros _ s' (fl' & sq' & Hi' & He & _). exists fl', sq'. split; [exact Hi'|]. apply He. lia.
Defined.

Lemma full_page_place_witness : free_list ex_s7 10 0 = free_list ex_s6 10 0.
Proof.
  destruct ex_s6_inv as [fl Hi].
  refine (@full_page_place mem ex_src compute_object_size ex_s6 ex_s7 fl (λ _ _, []) [ex_o4] []
    ex_o3 _ (mkHeader 10 0 0 ex_o3) Hi ex_pools_header _ _ _ _).
  - vm_compute. discriminate.
  - vm_compute. reflexivity.
  - vm_compute. reflexivity.
  - reflexivity.
Defined.
