(* ===== verification/Early.v ===== *)
(** * Objects of the time before the CPUs are up

    The early (pre-SMP) object allocator of [core/mempool.cc]: objects are placed
    one behind the other in the current page, each behind the two bytes that
    hold its size; a page goes back when its last object is freed. *)
From S2P Require Import Prelude Bits MemArea PageSource Pool.

Module Early.
Local Open Scope prog_scope.

(** [owner] and [allocations_count], padded to the alignment of a pointer. *)
Definition sizeof_early_page_header : Z := 16.
Definition sizeof_short : Z := 2.

(** [allocations_count] of each early page, the size in front of each object, and
    the variables [early_object_page], [early_alloc_next_offset] and
    [early_alloc_previous_offset]. *)
Record est := mk {
  counts : gmap Z Z;
  sizes : gmap Z Z;
  object_page : Z;
  next_offset : Z;
  previous_offset : Z;
}.

Definition start : est := mk ∅ ∅ 0 0 0.

Definition to_early_page_header (object : Z) : Z := Z.land object (not64 (page_size - 1)).

Definition will_fit_in_early_alloc_page (size alignment : Z) : bool :=
  let lowest_offset := align_up (sizeof_early_page_header + sizeof_short) alignment in
  wrap64 (lowest_offset + size) <=? page_size.

Section Ops.
Context {P : Type} `{PageSource P}.

(** A computation of the source of pages. *)
Definition lift_src {A} (m : prog P A) : prog (P * est) A := λ s,
  match m s.1 with
  | Ret a p => Ret a (p, s.2)
  | Blocked p => Blocked (p, s.2)
  | Fault => Fault
  end.

Definition modify_est (f : est → est) : prog (P * est) unit := modify (λ s, (s.1, f s.2)).

Definition setup_early_alloc_page : prog (P * est) unit :=
  pg ⟵ lift_src (ps_alloc 0);
  modify_est (λ e, mk (<[to_early_page_header pg := 0]> (counts e)) (sizes e) pg
                      sizeof_early_page_header (previous_offset e)).

Definition next_aligned (e : est) (alignment : Z) : Z :=
  align_up (wrap64 (next_offset e + sizeof_short)) alignment.

(** The offset of the object, in a new page if it does not fit in this one. *)
Definition room_for (size alignment offset : Z) : prog (P * est) Z :=
  if page_size <? wrap64 (offset + size) then
    setup_early_alloc_page ;;; s ⟵ get; ret (next_aligned s.2 alignment)
  else ret offset.

Definition early_alloc_object (size alignment : Z) : prog (P * est) Z :=
  s ⟵ get;
  (if object_page s.2 =? 0 then setup_early_alloc_page else ret tt) ;;;
  s ⟵ get;
  offset ⟵ room_for size alignment (next_aligned s.2 alignment);
  check (wrap64 (offset + size) <=? page_size) ;;;
  s ⟵ get;
  let e := s.2 in
  let obj := object_page e + offset in
  let h := to_early_page_header (object_page e) in
  modify_est (λ e, mk (<[h := wrap 16 (default 0 (counts e !! h) + 1)]> (counts e))
                      (<[obj := wrap 16 size]> (sizes e)) (object_page e)
                      (wrap64 (offset + size)) (next_offset e)) ;;;
  ret obj.

Definition early_free_object (object : Z) : prog (P * est) unit :=
  s ⟵ get;
  let e := s.2 in
  let h := to_early_page_header object in
  match counts e !! h, sizes e !! object with
  | Some count, Some size =>
      if size =? 0 then ret tt
      else
        let c := wrap 16 (count - 1) in
        modify_est (λ e, mk (<[h := c]> (counts e)) (<[object := 0]> (sizes e)) (object_page e)
                            (next_offset e) (previous_offset e)) ;;;
        if c <=? 0 then
          modify_est (λ e, mk (delete h (counts e)) (sizes e) (object_page e)
                              (next_offset e) (previous_offset e)) ;;;
          lift_src (ps_free 0 h) ;;;
          modify_est (λ e, if object_page e =? h
                           then mk (counts e) (sizes e) 0 (next_offset e) (previous_offset e) else e)
        else
          modify_est (λ e, if (object_page e =? h) && (h + wrap64 (next_offset e - size) =? object)
                           then mk (counts e) (sizes e) (object_page e) (previous_offset e)
                                   (previous_offset e) else e)
  | _, _ => fault
  end.

Definition early_object_size (v : Z) : prog (P * est) Z := λ s,
  match sizes s.2 !! v with Some n => Ret n s | None => Fault end.

End Ops.
End Early.
Import Early.

(** ** The invariant *)

(** An object in use, with the page it was placed in. *)
Record obj := mkObj { o_page : Z; o_addr : Z; o_size : Z }.

Definition o_end (x : obj) : Z := o_addr x + o_size x.

(** Objects are two bytes apart at least. *)
Definition gap (x y : obj) : Prop :=
  o_end x + sizeof_short ≤ o_addr y ∨ o_end y + sizeof_short ≤ o_addr x.

#[export] Instance gap_sym : Symmetric gap.
Proof. intros x y. unfold gap. tauto. Qed.

Definition on_page (pg : Z) (x : obj) : Prop := o_page x = pg.
#[export] Instance on_page_dec pg x : Decision (on_page pg x).
Proof. unfold on_page. apply _. Defined.

(** The objects [objs] are in use; those of no bytes stay so for ever. *)
Record einv (e : est) (objs : list obj) : Prop := {
  ei_current : object_page e ≠ 0 → is_Some (counts e !! object_page e) ∧
    sizeof_early_page_header ≤ next_offset e ≤ page_size;
  ei_obj x : x ∈ objs → is_Some (counts e !! o_page x) ∧
    o_page x + sizeof_early_page_header + sizeof_short ≤ o_addr x ∧ 0 ≤ o_size x ∧
    o_end x ≤ o_page x + page_size ∧ sizes e !! o_addr x = Some (o_size x);
  ei_count pg c : counts e !! pg = Some c → c = Z.of_nat (length (filter (on_page pg) objs));
  ei_gap : pairwise gap objs;
  ei_last x : object_page e ≠ 0 → x ∈ objs → on_page (object_page e) x →
    o_end x ≤ object_page e + next_offset e;
  ei_prev x : object_page e ≠ 0 → x ∈ objs → on_page (object_page e) x →
    o_end x = object_page e + next_offset e →
    sizeof_early_page_header ≤ previous_offset e ≤ next_offset e ∧
    ∀ y, y ∈ objs → on_page (object_page e) y → y ≠ x →
      o_end y ≤ object_page e + previous_offset e;
}.

Lemma einv_start : einv start [].
Proof.
  split; try done.
  intros x Hx. by apply not_elem_of_nil in Hx.
Qed.

Lemma einv_perm e l l' : l ≡ₚ l' → einv e l → einv e l'.
Proof.
  intros Hp [H1 H2 H3 H4 H5 H6]. split.
  - done.
  - intros x. rewrite <- Hp. apply H2.
  - intros pg c Hc. rewrite (H3 pg c Hc). f_equal. by rewrite Hp.
  - exact (pairwise_perm gap l l' _ Hp H4).
  - intros x. rewrite <- Hp. apply H5.
  - intros x Hz Hx Hpg He. rewrite <- Hp in Hx. destruct (H6 x Hz Hx Hpg He) as [? Hy].
    split; [done|]. intros y. rewrite <- Hp. apply Hy.
Qed.

Lemma gap_nodup l : (∀ x, x ∈ l → 0 ≤ o_size x) → pairwise gap l → NoDup (o_addr <$> l).
Proof.
  induction l as [|x l IH]; intros Hl Hg; cbn; [constructor|]. destruct Hg as [Hx Hg].
  constructor; [|apply IH; [intros y Hy; apply Hl; elem|done]].
  intros (y & Hy & Hin)%list_elem_of_fmap. rewrite Forall_forall in Hx. specialize (Hx y Hin).
  pose proof (Hl x ltac:(elem)). pose proof (Hl y ltac:(elem)).
  unfold gap, o_end, sizeof_short in Hx. lia.
Qed.

(** There are no more objects on a page than bytes. *)
Lemma page_objs_bound e objs pg :
  einv e objs → Z.of_nat (length (filter (on_page pg) objs)) ≤ page_size.
Proof.
  intros He. set (l := filter (on_page pg) objs).
  assert (length l ≤ Z.to_nat page_size)%nat; [|unfold page_size in *; lia].
  rewrite <- (length_fmap o_addr), <- (length_seqZ (pg + 1) page_size).
  apply submseteq_length, NoDup_submseteq.
  - apply gap_nodup; [|apply pairwise_filter, He].
    intros x [_ Hx]%list_elem_of_filter. by apply (ei_obj _ _ He).
  - intros o (x & -> & [Hp Hx]%list_elem_of_filter)%list_elem_of_fmap. unfold on_page in Hp.
    destruct (ei_obj _ _ He _ Hx) as (_ & H1 & H2 & H3 & _). rewrite Hp in *.
    apply elem_of_seqZ. unfold o_end, sizeof_early_page_header, sizeof_short in *. lia.
Qed.

(** The pages are aligned. *)
Definition aligned_pages (e : est) : Prop := ∀ pg, is_Some (counts e !! pg) → (page_size | pg).

Lemma gap_other_page e objs x y :
  einv e objs → aligned_pages e → x ∈ objs →
  is_Some (counts e !! o_page y) → o_page x ≠ o_page y →
  o_page y + sizeof_early_page_header + sizeof_short ≤ o_addr y → o_end y ≤ o_page y + page_size →
  gap x y.
Proof.
  intros He Ha Hx Hy Hne H1 H2. destruct (ei_obj _ _ He _ Hx) as (Hs & B1 & B2 & B3 & _).
  destruct (Ha _ Hs) as [q Hq]. destruct (Ha _ Hy) as [q' Hq']. rewrite Hq, Hq' in *.
  unfold gap, o_end, sizeof_early_page_header, sizeof_short, page_size in *.
  destruct (Z.lt_trichotomy q q') as [?|[->|?]]; [left; lia|done|right; lia].
Qed.

Lemma filter_cons_page pg x objs :
  Z.of_nat (length (filter (on_page pg) (x :: objs))) =
  (if decide (o_page x = pg) then 1 else 0) + Z.of_nat (length (filter (on_page pg) objs)).
Proof.
  rewrite filter_cons. unfold on_page at 1. destruct (decide (o_page x = pg)); cbn [length]; lia.
Qed.

(** An object placed behind the last one of the current page. *)
Lemma einv_place e objs offset size :
  einv e objs → aligned_pages e → object_page e ≠ 0 → 0 ≤ size →
  next_offset e + sizeof_short ≤ offset → offset + size ≤ page_size →
  let pg := object_page e in
  einv (mk (<[pg := wrap 16 (default 0 (counts e !! pg) + 1)]> (counts e))
           (<[pg + offset := wrap 16 size]> (sizes e)) pg (wrap64 (offset + size)) (next_offset e))
       (mkObj pg (pg + offset) size :: objs).
Proof.
  intros He Ha H0 Hs Hlo Hhi pg. destruct (ei_current _ _ He H0) as [[c Hc] Hn].
  set (x := mkObj pg (pg + offset) size).
  assert (∀ y, y ∈ objs → gap y x) as Hgap.
  { intros y Hy. destruct (decide (o_page y = pg)) as [Heq|Hne].
    - left. pose proof (ei_last _ _ He y H0 Hy Heq). cbn [o_addr x]. unfold sizeof_short in *. lia.
    - apply (gap_other_page e objs); [done|done|done|by exists c|done|..]; unfold o_end; cbn [o_page o_addr x o_size];
        unfold sizeof_early_page_header, sizeof_short, page_size in *; lia. }
  pose proof (page_objs_bound _ _ pg He) as Hb. pose proof (ei_count _ _ He _ _ Hc) as Hcc.
  unfold sizeof_early_page_header, sizeof_short, page_size in *.
  rewrite (wrap64_small (offset + size)) by (unfold u64; lia).
  fold pg in Hc, Hcc. rewrite Hc. change (default 0 (Some c)) with c.
  rewrite !wrap_small by lia.
  split; cbn [counts sizes object_page next_offset previous_offset].
  - intros _. rewrite lookup_insert_eq. split; [by eexists|]. unfold sizeof_early_page_header, page_size. lia.
  - intros y [->|Hy]%elem_of_cons; unfold sizeof_early_page_header, sizeof_short, page_size.
    + unfold o_end. cbn [o_page o_addr o_size x]. rewrite !lookup_insert_eq.
      split_and!; [by eexists|lia..|done].
    + destruct (ei_obj _ _ He _ Hy) as (K1 & K2 & K3 & K4 & K5). split_and!; try done.
      * destruct (decide (o_page y = pg)) as [->|]; [rewrite lookup_insert_eq; by eexists|].
        by rewrite lookup_insert_ne.
      * rewrite lookup_insert_ne; [done|]. specialize (Hgap _ Hy). unfold gap, sizeof_short in Hgap.
        unfold o_end in *. cbn [o_addr o_size x] in Hgap. lia.
  - intros p k Hk. rewrite filter_cons_page. cbn [o_page x]. destruct (decide (pg = p)) as [<-|Hne].
    + rewrite lookup_insert_eq in Hk. injection Hk as <-. lia.
    + rewrite lookup_insert_ne in Hk by done. rewrite (ei_count _ _ He _ _ Hk). lia.
  - split; [|apply He]. rewrite Forall_forall. intros y Hy. symmetry. by apply Hgap.
  - intros y _ [->|Hy]%elem_of_cons Hp; [unfold o_end; cbn [o_addr o_size x]; lia|].
    pose proof (ei_last _ _ He y H0 Hy Hp). fold pg in H. lia.
  - intros y _ Hy Hp Hend. unfold sizeof_early_page_header. split; [lia|].
    intros z [->|Hz]%elem_of_cons Hzp Hne; [|by apply (ei_last _ _ He)].
    apply elem_of_cons in Hy as [->|Hy]; [done|].
    pose proof (ei_last _ _ He y H0 Hy Hp). fold pg in H. lia.
Qed.

(** A new current page. *)
Lemma einv_new_page e objs pg :
  einv e objs → pg ≠ 0 → counts e !! pg = None →
  einv (mk (<[pg := 0]> (counts e)) (sizes e) pg sizeof_early_page_header (previous_offset e)) objs.
Proof.
  intros He H0 Hpg. assert (∀ y, y ∈ objs → o_page y ≠ pg) as Hno.
  { intros y Hy Heq. destruct (ei_obj _ _ He _ Hy) as [[c Hc] _]. congruence. }
  split; cbn [counts sizes object_page next_offset previous_offset].
  - intros _. rewrite lookup_insert_eq. split; [by eexists|done].
  - intros y Hy. destruct (ei_obj _ _ He _ Hy) as (K1 & K2 & K3 & K4 & K5). split_and!; try done.
    rewrite lookup_insert_ne; [done|]. symmetry. by apply Hno.
  - intros p k Hk. destruct (decide (p = pg)) as [->|Hne].
    + rewrite lookup_insert_eq in Hk. injection Hk as <-.
      assert (filter (on_page pg) objs = []) as ->; [|done].
      apply elem_of_nil_inv. intros y [Hy Hin]%list_elem_of_filter. by apply Hno in Hin.
    + rewrite lookup_insert_ne in Hk by done. by apply (ei_count _ _ He).
  - apply He.
  - intros y _ Hy Hp. by apply Hno in Hy.
  - intros y _ Hy Hp. by apply Hno in Hy.
Qed.

Lemma einv_others e x objs y :
  einv e (x :: objs) → y ∈ objs → y ≠ x ∧ o_addr y ≠ o_addr x.
Proof.
  intros He Hy. destruct (ei_gap _ _ He) as [Hg _]. rewrite Forall_forall in Hg.
  specialize (Hg _ Hy). destruct (ei_obj _ _ He x) as (_ & _ & H1 & _); [elem|].
  destruct (ei_obj _ _ He y) as (_ & _ & H2 & _); [elem|].
  unfold gap, o_end, sizeof_short in Hg. split; [intros ->|]; lia.
Qed.

Lemma einv_size e x objs y :
  einv e (x :: objs) → y ∈ objs → <[o_addr x := 0]> (sizes e) !! o_addr y = Some (o_size y).
Proof.
  intros He Hy. destruct (einv_others _ _ _ _ He Hy) as [_ Hne].
  rewrite lookup_insert_ne by done. apply (ei_obj _ _ He). elem.
Qed.

(** The last object of a page is freed. *)
Lemma einv_drop e x objs :
  einv e (x :: objs) → counts e !! o_page x = Some 1 →
  einv (mk (delete (o_page x) (counts e)) (<[o_addr x := 0]> (sizes e))
           (if object_page e =? o_page x then 0 else object_page e)
           (next_offset e) (previous_offset e)) objs.
Proof.
  intros He Hc. pose proof (ei_count _ _ He _ _ Hc) as Hn. rewrite filter_cons_page in Hn.
  rewrite decide_True in Hn by done.
  assert (∀ y, y ∈ objs → o_page y ≠ o_page x) as Hno.
  { intros y Hy Heq. assert (y ∈ filter (on_page (o_page x)) objs) as Hf
      by (by apply list_elem_of_filter).
    destruct (filter _ objs); [by apply not_elem_of_nil in Hf|]. cbn in Hn. lia. }
  split; cbn [counts sizes object_page next_offset previous_offset].
  - destruct (Z.eqb_spec (object_page e) (o_page x)) as [|Hne]; [done|]. intros H0.
    rewrite lookup_delete_ne by done. by apply (ei_current _ _ He).
  - intros y Hy. destruct (ei_obj _ _ He y) as (K1 & K2 & K3 & K4 & K5); [elem|].
    split_and!; try done; [|by apply einv_size with objs].
    rewrite lookup_delete_ne; [done|]. symmetry. by apply Hno.
  - intros p k [Hne Hk]%lookup_delete_Some. rewrite (ei_count _ _ He _ _ Hk), filter_cons_page.
    by rewrite decide_False.
  - apply He.
  - destruct (object_page e =? o_page x); [done|]. intros y H0 Hy Hp. apply (ei_last _ _ He); [done|elem|done].
  - destruct (object_page e =? o_page x); [done|]. intros y H0 Hy Hp Hend.
    destruct (ei_prev _ _ He y H0 ltac:(elem) Hp Hend) as [? Hz]. split; [done|].
    intros z Hzin. apply Hz. elem.
Qed.

(** Another object of a page is freed; the offset moves back behind the last but
    one if it was the last one placed. *)
Lemma einv_keep e x objs c (moved : bool) :
  einv e (x :: objs) → counts e !! o_page x = Some c →
  (moved = true → object_page e = o_page x ∧ o_end x = o_page x + next_offset e) →
  einv (mk (<[o_page x := c - 1]> (counts e)) (<[o_addr x := 0]> (sizes e)) (object_page e)
           (if moved then previous_offset e else next_offset e) (previous_offset e)) objs.
Proof.
  intros He Hc Hmv. destruct (ei_obj _ _ He x) as ([c0 Hc0] & Hx1 & _); [elem|].
  assert (moved = true → object_page e ≠ 0 →
    sizeof_early_page_header ≤ previous_offset e ≤ next_offset e ∧
    ∀ y, y ∈ objs → on_page (object_page e) y → o_end y ≤ object_page e + previous_offset e) as Hm.
  { intros Ht H0. destruct (Hmv Ht) as [Heq Hend]. rewrite <- Heq in Hend.
    destruct (ei_prev _ _ He x H0 ltac:(elem) (eq_sym Heq) Hend) as [? Hy]. split; [done|].
    intros y Hyin Hp. apply Hy; [elem|done|]. by apply (einv_others _ _ _ _ He). }
  split; cbn [counts sizes object_page next_offset previous_offset].
  - intros H0. destruct (ei_current _ _ He H0) as [Hs Hb]. split.
    + destruct (decide (object_page e = o_page x)) as [->|]; [rewrite lookup_insert_eq; by eexists|].
      by rewrite lookup_insert_ne.
    + destruct moved; [|done]. destruct (Hm eq_refl H0). lia.
  - intros y Hy. destruct (ei_obj _ _ He y) as (K1 & K2 & K3 & K4 & K5); [elem|].
    split_and!; try done; [|by apply einv_size with objs].
    destruct (decide (o_page y = o_page x)) as [->|]; [rewrite lookup_insert_eq; by eexists|].
    by rewrite lookup_insert_ne.
  - intros p k Hk. destruct (decide (o_page x = p)) as [<-|Hne].
    + rewrite lookup_insert_eq in Hk. injection Hk as <-. pose proof (ei_count _ _ He _ _ Hc) as Hn.
      rewrite filter_cons_page, decide_True in Hn by done. lia.
    + rewrite lookup_insert_ne in Hk by done. rewrite (ei_count _ _ He _ _ Hk), filter_cons_page.
      by rewrite decide_False.
  - apply He.
  - intros y H0 Hy Hp. destruct moved; [by apply (Hm eq_refl H0)|].
    apply (ei_last _ _ He); [done|elem|done].
  - intros y H0 Hy Hp Hend. destruct moved.
    + destruct (Hm eq_refl H0) as [? Hz]. split; [lia|]. intros z Hzin Hzp _. by apply Hz.
    + destruct (ei_prev _ _ He y H0 ltac:(elem) Hp Hend) as [? Hz]. split; [done|].
      intros z Hzin. apply Hz. elem.
Qed.

(** ** The allocator over a source of pages *)

Section Inv.
Context {P : Type} `{PageSource P}.

Definition early_pages (e : est) : list Z := (map_to_list (counts e)).*1.

Definition early_inv (s : P * est) (objs : list obj) (held : list Z) : Prop :=
  ps_inv s.1 (held ++ early_pages s.2) ∧ einv s.2 objs.

Lemma early_pages_elem e pg : pg ∈ early_pages e ↔ is_Some (counts e !! pg).
Proof.
  unfold early_pages. rewrite list_elem_of_fmap. split.
  - intros ([k h] & -> & Hk). apply elem_of_map_to_list in Hk. by exists h.
  - intros [h Hh]. exists (pg, h). by rewrite elem_of_map_to_list.
Qed.

Lemma early_page s objs held pg :
  early_inv s objs held → is_Some (counts s.2 !! pg) →
  (page_size | pg) ∧ in_area main pg ∧ to_early_page_header pg = pg ∧
  ∀ o, pg ≤ o < pg + page_size → to_early_page_header o = pg.
Proof.
  intros [Hp _] Hs. destruct (ps_pages _ _ Hp) as [_ Hv]. destruct (Hv pg) as (_ & Ha & Hm).
  { rewrite elem_of_app, early_pages_elem. by right. }
  split_and!; [done|done|..]; [|intros o Ho]; change to_early_page_header with Pool.to_header;
    apply main_bounds in Hm; apply to_header_eq; unfold page_size in *; try done; lia.
Qed.

Lemma early_aligned s objs held : early_inv s objs held → aligned_pages s.2.
Proof. intros Hi pg Hs. by apply (early_page _ _ _ _ Hi). Qed.

(** A source that runs out is the only fault. *)
Lemma setup_spec (s : P * est) objs held :
  early_inv s objs held → ps_cpu s.1 0 →
  wp setup_early_alloc_page s
    (λ _ s', early_inv s' objs held ∧ (∀ c, ps_cpu s.1 c → ps_cpu s'.1 c) ∧
       object_page s'.2 ≠ 0 ∧ next_offset s'.2 = sizeof_early_page_header)
    (λ s', early_inv s' objs held ∧ ∀ c, ps_cpu s.1 c → ps_cpu s'.1 c)
    (ps_alloc 0 s.1 = Fault).
Proof.
  destruct s as [p e]. intros [Hp He] Hc. cbn [fst snd] in *. unfold setup_early_alloc_page.
  apply wp_bind. pose proof (ps_alloc_spec _ _ 0 Hp Hc) as Ha. unfold wp in Ha |- *.
  unfold lift_src. cbn [fst snd]. destruct (ps_alloc 0 p) as [pg p'|p'|]; [|by destruct Ha; split_and!|done].
  destruct Ha as [Hp' Hc']. cbn.
  destruct (ps_pages _ _ Hp') as [Hnd Hv]. destruct (Hv pg) as (H0 & Hal & Hm); [elem|].
  assert (to_early_page_header pg = pg) as ->.
  { change to_early_page_header with Pool.to_header. apply main_bounds in Hm.
    apply to_header_eq; unfold page_size in *; try done; lia. }
  rewrite NoDup_cons, elem_of_app, early_pages_elem in Hnd.
  assert (counts e !! pg = None) as Hnew.
  { destruct (counts e !! pg) eqn:Hk; [|done]. exfalso. apply Hnd. right. by eexists. }
  split_and!; [|done|done|done]. split; cbn [fst snd].
  - eapply ps_perm; [|exact Hp']. unfold early_pages. cbn [counts].
    rewrite map_to_list_insert by done. cbn. solve_Permutation.
  - by apply einv_new_page.
Qed.

Lemma next_aligned_spec e j :
  0 ≤ j < 62 → 0 ≤ next_offset e ≤ page_size →
  next_offset e + sizeof_short ≤ next_aligned e (2 ^ j) ∧ (2 ^ j | next_aligned e (2 ^ j)).
Proof.
  intros Hj Hn. unfold next_aligned, sizeof_short, page_size in *.
  rewrite wrap64_small by (unfold u64; lia).
  pose proof (Z.pow_lt_mono_r 2 j 62 ltac:(lia) ltac:(lia) ltac:(lia)).
  destruct (align_up_bounds (next_offset e + 2) j) as [Hd Hb]; [lia|lia|lia|]. split; [lia|done].
Qed.

(** The rest of [early_alloc_object], with enough room in the current page. *)
Lemma early_place_spec (s : P * est) objs held size offset :
  early_inv s objs held → object_page s.2 ≠ 0 → 0 ≤ size →
  next_offset s.2 + sizeof_short ≤ offset → offset + size ≤ page_size →
  let pg := object_page s.2 in
  let e' := mk (<[to_early_page_header pg := wrap 16 (default 0 (counts s.2 !! to_early_page_header pg) + 1)]>
                  (counts s.2)) (<[pg + offset := wrap 16 size]> (sizes s.2)) pg
               (wrap64 (offset + size)) (next_offset s.2) in
  early_inv (s.1, e') (mkObj pg (pg + offset) size :: objs) held.
Proof.
  intros Hi H0 Hs Hlo Hhi pg. destruct (ei_current _ _ (proj2 Hi) H0) as [Hsm _].
  destruct (early_page _ _ _ _ Hi Hsm) as (_ & _ & Hh & _). fold pg in Hh. rewrite Hh. cbn zeta.
  split; cbn [fst snd].
  - eapply ps_perm; [|exact (proj1 Hi)]. f_equiv. apply NoDup_Permutation.
    + apply NoDup_fst_map_to_list.
    + apply NoDup_fst_map_to_list.
    + intros x. fold (early_pages s.2). rewrite early_pages_elem.
      change (x ∈ (map_to_list (counts ?e)).*1) with (x ∈ early_pages e).
      rewrite early_pages_elem. cbn [counts]. destruct (decide (x = pg)) as [->|].
      * rewrite lookup_insert_eq. split; [intros _; by eexists|done].
      * by rewrite lookup_insert_ne.
  - apply (einv_place s.2); try done; [apply Hi|by eapply early_aligned].
Qed.

Lemma fits_fresh e size j :
  0 ≤ size < 2 ^ 62 → 0 ≤ j < 62 → will_fit_in_early_alloc_page size (2 ^ j) = true →
  next_offset e = sizeof_early_page_header → next_aligned e (2 ^ j) + size ≤ page_size.
Proof.
  intros Hs Hj Hf Hn. unfold will_fit_in_early_alloc_page in Hf. unfold next_aligned. rewrite Hn.
  apply Z.leb_le in Hf. unfold sizeof_early_page_header, sizeof_short, page_size in *.
  change (wrap64 (16 + 2)) with (16 + 2).
  pose proof (Z.pow_lt_mono_r 2 j 62 ltac:(lia) ltac:(lia) ltac:(lia)).
  destruct (align_up_bounds (16 + 2) j) as [_ Hb]; [lia|lia|lia|].
  rewrite wrap64_small in Hf by (unfold u64; lia). lia.
Qed.

(** The current page after the first part of [early_alloc_object]. *)
Lemma early_current_spec (s : P * est) objs held :
  early_inv s objs held → ps_cpu s.1 0 →
  wp (if object_page s.2 =? 0 then setup_early_alloc_page else ret tt) s
    (λ _ s', early_inv s' objs held ∧ (∀ c, ps_cpu s.1 c → ps_cpu s'.1 c) ∧ object_page s'.2 ≠ 0 ∧
       (s' = s ∨ next_offset s'.2 = sizeof_early_page_header))
    (λ s', early_inv s' objs held ∧ ∀ c, ps_cpu s.1 c → ps_cpu s'.1 c)
    (ps_alloc 0 s.1 = Fault).
Proof.
  intros Hi Hc. destruct (Z.eqb_spec (object_page s.2) 0) as [Hz|Hz].
  - eapply wp_mono; [by apply (setup_spec s objs held)| |done|done].
    intros _ s' (H1 & H2 & H3 & H4). split_and!; auto.
  - split_and!; auto.
Qed.

Lemma room_for_spec (s : P * est) objs held size j :
  early_inv s objs held → ps_cpu s.1 0 → 0 ≤ size < 2 ^ 62 → 0 ≤ j < 62 →
  will_fit_in_early_alloc_page size (2 ^ j) = true → object_page s.2 ≠ 0 →
  wp (room_for size (2 ^ j) (next_aligned s.2 (2 ^ j))) s
    (λ offset s', early_inv s' objs held ∧ (∀ c, ps_cpu s.1 c → ps_cpu s'.1 c) ∧
       object_page s'.2 ≠ 0 ∧ offset = next_aligned s'.2 (2 ^ j) ∧ offset + size ≤ page_size)
    (λ s', early_inv s' objs held ∧ ∀ c, ps_cpu s.1 c → ps_cpu s'.1 c)
    (ps_alloc 0 s.1 = Fault ∧ next_offset s.2 ≠ sizeof_early_page_header).
Proof.
  intros Hi Hc Hs Hj Hf H0. unfold room_for.
  destruct (ei_current _ _ (proj2 Hi) H0) as [_ Hn].
  pose proof (Z.pow_lt_mono_r 2 j 62 ltac:(lia) ltac:(lia) ltac:(lia)) as Hpow.
  assert (0 ≤ next_aligned s.2 (2 ^ j) < 2 ^ 63) as Hb.
  { unfold next_aligned, sizeof_early_page_header, sizeof_short, page_size in *.
    rewrite wrap64_small by (unfold u64; lia).
    destruct (align_up_bounds (next_offset s.2 + 2) j) as [_ Hb]; lia. }
  rewrite wrap64_small by (unfold u64; lia).
  destruct (Z.ltb_spec page_size (next_aligned s.2 (2 ^ j) + size)) as [Hlt|Hge]; [|done].
  apply wp_bind. eapply wp_mono; [by apply (setup_spec s objs held)| |done|].
  - intros _ s' (H1 & H2 & H3 & H4). cbn. split_and!; try done. by eapply fits_fresh.
  - intros Hfault. split; [done|]. intros Hfresh.
    pose proof (fits_fresh s.2 size j Hs Hj Hf Hfresh). lia.
Qed.

Lemma fits_alignment size j :
  0 ≤ size < 2 ^ 62 → 0 ≤ j < 62 → will_fit_in_early_alloc_page size (2 ^ j) = true → j ≤ 12.
Proof.
  intros Hs Hj Hf. pose proof (fits_fresh (mk ∅ ∅ 0 16 0) size j Hs Hj Hf eq_refl) as Hle.
  destruct (next_aligned_spec (mk ∅ ∅ 0 16 0) j Hj) as [Hlo [q Hq]]; [cbn; unfold page_size; lia|].
  cbn [next_offset] in Hlo. unfold sizeof_short in Hlo. rewrite Hq in *.
  assert (0 < 2 ^ j) by (apply Z.pow_pos_nonneg; lia). assert (1 ≤ q) by nia.
  assert (2 ^ j ≤ 2 ^ 12) as Hp by (change (2 ^ 12) with page_size; nia).
  apply Z.pow_le_mono_r_iff in Hp; lia.
Qed.

Lemma early_alloc_object_spec (s : P * est) objs held size j :
  early_inv s objs held → ps_cpu s.1 0 → 0 ≤ size < 2 ^ 62 → 0 ≤ j < 62 →
  will_fit_in_early_alloc_page size (2 ^ j) = true →
  wp (early_alloc_object size (2 ^ j)) s
    (λ o s', ∃ pg, early_inv s' (mkObj pg o size :: objs) held ∧ (2 ^ j | o) ∧
       (∀ c, ps_cpu s.1 c → ps_cpu s'.1 c))
    (λ s', early_inv s' objs held ∧ ∀ c, ps_cpu s.1 c → ps_cpu s'.1 c)
    (ps_alloc 0 s.1 = Fault).
Proof.
  intros Hi Hc Hs Hj Hf. unfold early_alloc_object. apply wp_bind. cbn. apply wp_bind.
  eapply wp_mono; [by apply (early_current_spec s objs held)| |done|done].
  intros _ s1 (Hi1 & Hc1 & H1 & Hd). apply wp_bind. cbn. apply wp_bind.
  eapply wp_mono; [apply (room_for_spec s1 objs held size j); auto|..].
  - intros offset s2 (Hi2 & Hc2 & H2 & -> & Hfit). apply wp_bind.
    destruct (ei_current _ _ (proj2 Hi2) H2) as [Hsm Hn].
    destruct (next_aligned_spec s2.2 j Hj) as [Hlo Hdv]; [unfold sizeof_early_page_header in Hn; lia|].
    unfold sizeof_early_page_header, sizeof_short, page_size in Hn, Hlo, Hfit.
    pose proof (early_place_spec s2 objs held size _ Hi2 H2 ltac:(lia) Hlo Hfit) as Hpl.
    cbn zeta in Hpl. unfold wp, check, bind, get, modify_est, modify, ret.
    rewrite wrap64_small in Hpl |- * by (unfold u64; lia). rewrite (proj2 (Z.leb_le _ _)) by done.
    exists (object_page s2.2). split_and!; [exact Hpl| |by auto].
    + apply Z.divide_add_r; [|done]. destruct (early_page _ _ _ _ Hi2 Hsm) as [Hpg _].
      pose proof (fits_alignment size j Hs Hj Hf). etrans; [|exact Hpg].
      exists (2 ^ (12 - j)). change page_size with (2 ^ 12). rewrite <- Z.pow_add_r by lia. f_equal. lia.
  - intros s2 [Hi2 Hc2]. split; auto.
  - intros [Hfault Hne]. destruct Hd as [->|Hd]; [done|done].
Qed.

Lemma early_pages_insert e pg c : is_Some (counts e !! pg) →
  ∀ e', counts e' = <[pg := c]> (counts e) → early_pages e' ≡ₚ early_pages e.
Proof.
  intros Hs e' Hc. apply NoDup_Permutation; [apply NoDup_fst_map_to_list..|].
  intros x. rewrite !early_pages_elem, Hc. destruct (decide (x = pg)) as [->|].
  - rewrite lookup_insert_eq. split; [done|intros _; by eexists].
  - by rewrite lookup_insert_ne.
Qed.

Lemma early_header s objs held x :
  early_inv s objs held → x ∈ objs → o_addr x < o_page x + page_size →
  to_early_page_header (o_addr x) = o_page x.
Proof.
  intros Hi Hx Hlt. destruct (ei_obj _ _ (proj2 Hi) _ Hx) as (Hsm & Hlo & _).
  destruct (early_page _ _ _ _ Hi Hsm) as (_ & _ & _ & Hh). apply Hh.
  unfold sizeof_early_page_header, sizeof_short in Hlo. lia.
Qed.

(** An object of no bytes that lies inside its page is never freed. *)
Lemma early_free_zero (s : P * est) objs held x :
  early_inv s objs held → x ∈ objs → o_size x = 0 → o_addr x < o_page x + page_size →
  early_free_object (o_addr x) s = Ret tt s.
Proof.
  intros Hi Hx Hz Hlt. unfold early_free_object, bind, get. rewrite (early_header _ _ _ _ Hi Hx Hlt).
  destruct (ei_obj _ _ (proj2 Hi) _ Hx) as ([c Hc] & _ & _ & _ & Hsz). by rewrite Hc, Hsz, Hz.
Qed.

Lemma early_free_object_spec (s : P * est) objs held x :
  early_inv s (x :: objs) held → 0 < o_size x → ps_cpu s.1 0 →
  wp (early_free_object (o_addr x)) s
    (λ _ s', early_inv s' objs held ∧ ∀ c, ps_cpu s.1 c → ps_cpu s'.1 c) (λ _, False) False.
Proof.
  intros Hi Hsz Hcpu. assert (x ∈ x :: objs) as Hx by elem.
  destruct (ei_obj _ _ (proj2 Hi) _ Hx) as ([c Hc] & Hlo & _ & Hhi & Hst).
  pose proof (early_header _ _ _ _ Hi Hx ltac:(unfold o_end in Hhi; lia)) as Hh.
  pose proof (ei_count _ _ (proj2 Hi) _ _ Hc) as Hcc. rewrite filter_cons_page, decide_True in Hcc by done.
  pose proof (page_objs_bound _ _ (o_page x) (proj2 Hi)) as Hb.
  rewrite filter_cons_page, decide_True in Hb by done. unfold page_size in Hb.
  unfold early_free_object. apply wp_bind. unfold wp at 1, get. cbv beta zeta. rewrite Hh, Hc, Hst.
  rewrite (proj2 (Z.eqb_neq _ _)) by lia. rewrite wrap_small by lia. apply wp_bind. unfold wp at 1, modify_est, modify.
  destruct s as [p e]. cbn [fst snd] in *. destruct (Z.leb_spec (c - 1) 0) as [Hle|Hgt].
  - assert (c = 1) as -> by lia. apply wp_bind. unfold wp at 1, modify_est, modify.
    cbn [fst snd counts sizes object_page next_offset previous_offset]. apply wp_bind.
    rewrite delete_insert_eq. pose proof (einv_drop _ _ _ (proj2 Hi) Hc) as He.
    set (e' := mk (delete _ _) _ _ _ _). unfold lift_src, wp at 1. cbn [fst snd].
    assert (ps_inv p (o_page x :: held ++ early_pages e')) as Hp.
    { eapply ps_perm; [|exact (proj1 Hi)]. unfold early_pages. cbn [fst snd counts e'].
      rewrite <- (insert_delete_id (counts e) (o_page x) 1) at 1 by done.
      rewrite map_to_list_insert by apply lookup_delete_eq. cbn. solve_Permutation. }
    pose proof (ps_free_spec _ _ 0 _ Hp Hcpu) as Hw. unfold wp in Hw |- *.
    destruct (ps_free 0 (o_page x) p) as [u p'|p'|]; [|done|done]. destruct Hw as [Hp' Hc'].
    cbn. split; [|done]. split; cbn [fst snd].
    + destruct (object_page e =? o_page x); exact Hp'.
    + cbn [snd] in He. destruct (object_page e =? o_page x); exact He.
  - unfold wp, modify_est, modify. cbn [fst snd counts sizes object_page next_offset previous_offset].
    split; [|done].
    assert (∀ b : bool, (b = true → object_page e = o_page x ∧ o_end x = o_page x + next_offset e) →
      early_inv (p, mk (<[o_page x := c - 1]> (counts e)) (<[o_addr x := 0]> (sizes e)) (object_page e)
        (if b then previous_offset e else next_offset e) (previous_offset e)) objs held) as Hk.
    { intros b Hbt. split; cbn [fst snd].
      - eapply ps_perm; [|exact (proj1 Hi)]. f_equiv. symmetry.
        eapply early_pages_insert; [by exists c|reflexivity].
      - apply einv_keep; [exact (proj2 Hi)|exact Hc|exact Hbt]. }
    destruct (andb _ _) eqn:Hm; [|by apply (Hk false)]. apply (Hk true). intros _.
    apply andb_true_iff in Hm as [H1%Z.eqb_eq H2%Z.eqb_eq]. split; [done|].
    destruct (decide (object_page e = 0)) as [Hz|H0].
    { exfalso. destruct (early_page _ _ _ _ Hi ltac:(by exists c)) as (_ & Hm & _).
      apply main_bounds in Hm. cbn [snd] in Hm. lia. }
    destruct (ei_current _ _ (proj2 Hi) H0) as [_ Hn]. cbn [snd] in Hn.
    unfold o_end in *. unfold sizeof_early_page_header, sizeof_short, page_size in *.
    rewrite wrap64_small in H2; [lia|].
    pose proof (ei_last _ _ (proj2 Hi) x H0 Hx (eq_sym H1)) as Hl. cbn [snd] in Hl.
    unfold o_end in Hl. unfold u64. lia.
Qed.
End Inv.
