(* ===== verification/Pte.v ===== *)
(** * Page table elements

    [pt_element] of [include/osv/mmu-defs.hh] and [arch/x64/arch-mmu.hh] as a
    64-bit word, the helpers on it of [include/osv/mmu.hh] and [core/mmu.cc], and
    the translation between physical addresses and the linear map.  The template
    parameter [N] is the level of the table the element is in. *)
From S2P Require Import Prelude Bits MemArea.

Module Pte.

Definition rsvd_bits_used : Z := 1.
Definition max_phys_bits : Z := 52 - rsvd_bits_used.

Definition leaf_capable (N : nat) : bool := (N =? 0)%nat || (N =? 1)%nat.
Definition large_capable (N : nat) : bool := (N =? 1)%nat.

Definition pte_addr_mask (large : bool) : Z :=
  Z.land (Z.land (Z.shiftl 1 max_phys_bits - 1) (not64 0xfff))
    (not64 (Z.shiftl (Z.b2z large) page_size_shift)).

(** [set_bit]: clear the bit, then put the value. *)
Definition set_bit (nr : Z) (v : bool) (x : Z) : Z :=
  Z.lor (Z.land x (not64 (Z.shiftl 1 nr))) (Z.shiftl (Z.b2z v) nr).

Definition empty (x : Z) : bool := x =? 0.
Definition valid (x : Z) : bool := negb (Z.land x 1 =? 0).
Definition writable (x : Z) : bool := negb (Z.land x 2 =? 0).
Definition executable (x : Z) : bool := Z.shiftr x 63 =? 0.
Definition large (N : nat) (x : Z) : bool := large_capable N && negb (Z.land x 0x80 =? 0).
(** The assertion on the level holds where it is called: leaves only. *)
Definition dirty (x : Z) : bool := negb (Z.land x 0x40 =? 0).
Definition user (x : Z) : bool := negb (Z.land x 4 =? 0).
Definition accessed (x : Z) : bool := negb (Z.land x 0x20 =? 0).
Definition sw_bit (off : Z) (x : Z) : bool := negb (Z.land (Z.shiftr x (53 + off)) 1 =? 0).
Definition rsvd_bit (off : Z) (x : Z) : bool := negb (Z.land (Z.shiftr x (51 - off)) 1 =? 0).
Definition addr (N : nat) (x : Z) : Z := Z.land x (pte_addr_mask (large N x)).
Definition pfn (N : nat) (x : Z) : Z := Z.shiftr (addr N x) page_size_shift.
(** [None] is the failed assertion. *)
Definition next_pt_addr (N : nat) (x : Z) : option Z := if large N x then None else Some (addr N x).

Definition set_valid (v : bool) (x : Z) : Z := set_bit 0 v x.
Definition set_writable (v : bool) (x : Z) : Z := set_bit 1 v x.
Definition set_executable (v : bool) (x : Z) : Z := set_bit 63 (negb v) x.
Definition set_dirty (v : bool) (x : Z) : Z := set_bit 6 v x.
Definition set_large (v : bool) (x : Z) : Z := set_bit 7 v x.
Definition set_user (v : bool) (x : Z) : Z := set_bit 2 v x.
Definition set_accessed (v : bool) (x : Z) : Z := set_bit 5 v x.
Definition set_sw_bit (off : Z) (v : bool) (x : Z) : Z := set_bit (53 + off) v x.
Definition set_rsvd_bit (off : Z) (v : bool) (x : Z) : Z := set_bit (51 - off) v x.
Definition set_addr (a : Z) (large : bool) (x : Z) : Z := Z.lor (Z.land x (not64 (pte_addr_mask large))) a.
Definition set_pfn (p : Z) (large : bool) (x : Z) : Z := set_addr (wrap64 (Z.shiftl p page_size_shift)) large x.
Definition mod_addr (N : nat) (a : Z) (x : Z) : Z := set_addr a (large N x) x.

Definition perm_rwx : Z := 7.

(** A permission bit. *)
Definition has (perm bit : Z) : bool := negb (Z.land perm bit =? 0).

Definition make_pte (N : nat) (a : Z) (leaf : bool) (perm : Z) : Z :=
  let large := large_capable N && leaf in
  let pte := set_valid (negb (perm =? 0)) 0 in
  let pte := set_writable (has perm 2) pte in
  let pte := set_executable (has perm 4) pte in
  let pte := set_dirty true pte in
  let pte := set_large large pte in
  let pte := set_addr a large pte in
  let pte := set_user true pte in
  set_accessed true pte.

Definition make_intermediate_pte (N : nat) (a : Z) : Z := make_pte N a false perm_rwx.
Definition make_leaf_pte (N : nat) (a perm : Z) : Z := make_pte N a true perm.

(** ** Copy on write, permissions, splitting *)

Definition pte_cow : Z := 0.
Definition pte_is_cow (N : nat) (x : Z) : bool := match N with O => sw_bit pte_cow x | _ => false end.

Definition pte_mark_cow (x : Z) (cow : bool) : Z :=
  let x := if cow then set_writable false x else x in
  set_sw_bit pte_cow cow x.

(** [change_perm] on x64: the new element and whether the TLB must be flushed. *)
Definition change_perm (N : nat) (x perm : Z) : Z * bool :=
  let old := Z.lor (Z.lor (if valid x then 1 else 0) (if writable x then 2 else 0))
               (if executable x then 4 else 0) in
  let perm := if pte_is_cow N x then Z.land perm (not64 2) else perm in
  let x := set_valid true x in
  let x := set_writable (has perm 2) x in
  let x := set_executable (has perm 4) x in
  let x := set_rsvd_bit 0 (perm =? 0) x in
  (x, negb (Z.land old (not64 perm) =? 0)).

(** The elements of the table that replaces a large page. *)
Definition split_pte (org : Z) (i : Z) : Z :=
  set_addr (Z.lor (addr 1 org) (Z.shiftl i page_size_shift)) false org.

(** [clear_accessed] and [clear_dirty]: nobody else changes the element between
    the read and the compare-and-exchange. *)
Definition clear_accessed (x : Z) : bool * Z := (accessed x, if accessed x then set_accessed false x else x).
Definition clear_dirty (x : Z) : bool * Z := (dirty x, if dirty x then set_dirty false x else x).

(** ** Physical addresses *)

(** Where the kernel image is: [elf_start], [elf_phys_start], [elf_size] and
    [kernel_vm_shift]. *)
Record image := mkImage { elf_start : Z; elf_phys_start : Z; elf_size : Z; kernel_vm_shift : Z }.

Definition phys_to_virt (im : image) (pa : Z) : Z :=
  if (elf_phys_start im <=? pa) && (pa <? elf_phys_start im + elf_size im)
  then wrap64 (pa + kernel_vm_shift im)
  else wrap64 (phys_mem + pa).

(** [None] is the failed assertion. *)
Definition virt_to_phys (im : image) (virt : Z) : option Z :=
  if (elf_start im <=? virt) && (virt <? elf_start im + elf_size im)
  then Some (wrap64 (virt - kernel_vm_shift im))
  else if phys_mem <=? virt then Some (Z.land virt (mem_area_size - 1)) else None.

Definition pte_level_mask (level : Z) : Z :=
  let shift := level * ilog2_roundup_constexpr pte_per_page + ilog2_roundup_constexpr page_size in
  not64 (Z.shiftl 1 shift - 1).

Definition pt_index (virt level : Z) : Z :=
  Z.land (Z.shiftr virt (page_size_shift + level * pte_per_page_shift)) (pte_per_page - 1).
End Pte.
Import Pte.

(** ** Bits *)

Lemma word_ext x y : u64 x → u64 y → (∀ i, 0 ≤ i < 64 → Z.testbit x i = Z.testbit y i) → x = y.
Proof.
  intros Hx Hy He. apply Z.bits_inj'. intros i Hi. destruct (decide (i < 64)); [by apply He|].
  by rewrite !u64_testbit_high by (done || lia).
Qed.

Lemma flag_bit x k : 0 ≤ k → negb (Z.land x (2 ^ k) =? 0) = Z.testbit x k.
Proof.
  intros Hk. destruct (Z.testbit x k) eqn:E.
  - apply negb_true_iff, Z.eqb_neq. intros Hz. apply (f_equal (λ z, Z.testbit z k)) in Hz.
    rewrite Z.land_spec, E, Z.pow2_bits_true, Z.bits_0 in Hz by done. done.
  - apply negb_false_iff, Z.eqb_eq, Z.bits_inj'. intros i Hi. rewrite Z.land_spec, Z.bits_0.
    destruct (Z.eq_dec k i) as [<-|Hne]; [by rewrite E|]. by rewrite Z.pow2_bits_false, andb_false_r.
Qed.

Lemma u64_bits x : 0 ≤ x → (∀ i, 64 ≤ i → Z.testbit x i = false) → u64 x.
Proof.
  intros Hx Hb. split; [done|]. destruct (Z.eq_dec x 0) as [->|Hne]; [lia|].
  apply Z.log2_lt_pow2; [lia|]. apply Z.nle_gt. intros Hl.
  specialize (Hb _ Hl). by rewrite Z.bit_log2 in Hb by lia.
Qed.

Lemma set_bit_spec nr v x i :
  u64 x → 0 ≤ nr < 64 → 0 ≤ i → Z.testbit (set_bit nr v x) i = if i =? nr then v else Z.testbit x i.
Proof.
  intros Hx Hnr Hi. unfold set_bit. rewrite Z.lor_spec, Z.land_spec, Z.shiftl_spec by lia.
  destruct (decide (i < 64)).
  - rewrite not64_spec, Z.shiftl_spec by lia. destruct (Z.eqb_spec i nr) as [->|Hne].
    + rewrite Z.sub_diag. change (Z.testbit 1 0) with true. cbn [negb]. rewrite andb_false_r. by destruct v.
    + replace (Z.testbit 1 (i - nr)) with false; [|symmetry; change 1 with (2 ^ 0)].
      2:{ destruct (decide (i - nr < 0)); [by rewrite Z.testbit_neg_r by lia|]. apply Z.pow2_bits_false. lia. }
      replace (Z.testbit (Z.b2z v) (i - nr)) with false; [cbn; by rewrite andb_true_r, orb_false_r|].
      symmetry. destruct (decide (i - nr < 0)); [by rewrite Z.testbit_neg_r by lia|].
      destruct v; [|by rewrite Z.bits_0]. change (Z.b2z true) with (2 ^ 0). apply Z.pow2_bits_false. lia.
  - rewrite u64_testbit_high, (proj2 (Z.eqb_neq _ _)) by (done || lia). cbn.
    destruct v; [|by rewrite Z.bits_0]. change (Z.b2z true) with (2 ^ 0). apply Z.pow2_bits_false. lia.
Qed.

Lemma set_bit_u64 nr v x : u64 x → 0 ≤ nr < 64 → u64 (set_bit nr v x).
Proof.
  intros Hx Hnr. apply u64_bits.
  - unfold set_bit. apply Z.lor_nonneg. split; [apply Z.land_nonneg; left; apply Hx|].
    apply Z.shiftl_nonneg. destruct v; done.
  - intros i Hi. rewrite set_bit_spec, (proj2 (Z.eqb_neq _ _)) by (done || lia).
    apply u64_testbit_high; [done|lia].
Qed.

Definition in_mask (l : bool) (i : Z) : bool := (12 <=? i) && (i <? 51) && negb (l && (i =? 12)).

Lemma mask_spec l i : 0 ≤ i → Z.testbit (pte_addr_mask l) i = in_mask l i.
Proof.
  intros Hi. unfold pte_addr_mask, in_mask.
  change (Z.shiftl 1 max_phys_bits - 1) with (Z.ones 51). change 0xfff with (Z.ones 12).
  rewrite !Z.land_spec. destruct (decide (i < 64)).
  - rewrite !not64_spec by lia. rewrite !Z.testbit_ones by lia. rewrite (proj2 (Z.leb_le 0 i)) by lia. cbn [andb].
    assert (negb (Z.testbit (Z.shiftl (Z.b2z l) page_size_shift) i) = negb (l && (i =? 12))) as ->.
    { rewrite Z.shiftl_spec by lia. unfold page_size_shift. f_equal. destruct l; cbn [andb Z.b2z]; [|by rewrite Z.bits_0].
      destruct (Z.eqb_spec i 12) as [->|]; [done|]. change 1 with (2 ^ 0).
      destruct (decide (i - 12 < 0)); [by rewrite Z.testbit_neg_r by lia|]. apply Z.pow2_bits_false. lia. }
    f_equal. destruct (Z.ltb_spec i 51), (Z.ltb_spec i 12), (Z.leb_spec 12 i); cbn; (done || lia).
  - rewrite Z.testbit_ones by lia. rewrite (proj2 (Z.ltb_ge i 51)) by lia. by rewrite !andb_false_r.
Qed.

Lemma mask_u64 l : u64 (pte_addr_mask l).
Proof. by destruct l. Qed.

(** An address that can be put into an element. *)
Definition fits (l : bool) (a : Z) : Prop :=
  u64 a ∧ ∀ i, 0 ≤ i → in_mask l i = false → Z.testbit a i = false.

Lemma addr_spec N x i : 0 ≤ i → Z.testbit (addr N x) i = Z.testbit x i && in_mask (large N x) i.
Proof. intros Hi. unfold addr. by rewrite Z.land_spec, mask_spec. Qed.

Lemma land_u64 x y : u64 x → u64 (Z.land x y).
Proof.
  intros Hx. apply u64_bits; [apply Z.land_nonneg; left; apply Hx|].
  intros i Hi. by rewrite Z.land_spec, (u64_testbit_high x) by (done || lia).
Qed.

Lemma lor_u64 x y : u64 x → u64 y → u64 (Z.lor x y).
Proof.
  intros Hx Hy. apply u64_bits; [apply Z.lor_nonneg; split; [apply Hx|apply Hy]|].
  intros i Hi. rewrite Z.lor_spec, !u64_testbit_high by (done || lia). done.
Qed.

Lemma set_addr_u64 a l x : u64 x → u64 a → u64 (set_addr a l x).
Proof. intros Hx Ha. apply lor_u64; [by apply land_u64|done]. Qed.

Lemma set_addr_spec a l x i :
  u64 x → fits l a → 0 ≤ i →
  Z.testbit (set_addr a l x) i = if in_mask l i then Z.testbit a i else Z.testbit x i.
Proof.
  intros Hx [Ha Hf] Hi. unfold set_addr. rewrite Z.lor_spec, Z.land_spec.
  destruct (decide (i < 64)).
  - rewrite not64_spec, mask_spec by lia. destruct (in_mask l i) eqn:E; cbn [negb].
    + by rewrite andb_false_r.
    + by rewrite andb_true_r, (Hf i Hi E), orb_false_r.
  - rewrite (u64_testbit_high x), (u64_testbit_high a) by (done || lia). by destruct (in_mask l i).
Qed.

Lemma fits_addr N x : u64 x → fits (large N x) (addr N x).
Proof.
  intros Hx. split; [by apply land_u64|]. intros i Hi E. by rewrite addr_spec, E, andb_false_r.
Qed.

Lemma valid_bit x : valid x = Z.testbit x 0.
Proof. apply (flag_bit x 0). done. Qed.
Lemma writable_bit x : writable x = Z.testbit x 1.
Proof. apply (flag_bit x 1). done. Qed.
Lemma large_bit N x : large N x = large_capable N && Z.testbit x 7.
Proof. unfold large. f_equal. by apply (flag_bit x 7). Qed.
Lemma dirty_bit x : dirty x = Z.testbit x 6.
Proof. by apply (flag_bit x 6). Qed.
Lemma executable_bit x : u64 x → executable x = negb (Z.testbit x 63).
Proof.
  intros Hx. unfold executable. destruct (Z.testbit x 63) eqn:E; cbn [negb].
  - apply Z.eqb_neq. intros Hz. apply (f_equal (λ z, Z.testbit z 0)) in Hz.
    rewrite Z.shiftr_spec in Hz by lia. change (Z.testbit x 63 = false) in Hz. congruence.
  - apply Z.eqb_eq, Z.bits_inj'. intros i Hi. rewrite Z.shiftr_spec, Z.bits_0 by lia.
    destruct (Z.eq_dec i 0) as [->|]; [done|]. apply u64_testbit_high; [done|lia].
Qed.
Lemma sw_bit_spec x : sw_bit 0 x = Z.testbit x 53.
Proof. unfold sw_bit. rewrite (flag_bit _ 0) by lia. by rewrite Z.shiftr_spec by lia. Qed.

#[global] Hint Rewrite valid_bit writable_bit large_bit dirty_bit sw_bit_spec : pte.
#[global] Hint Resolve set_bit_u64 set_addr_u64 mask_u64 land_u64 lor_u64 : pte.

(** The bits of an element made of an address and permissions. *)
Definition flag_bits (large : bool) (perm i : Z) : option bool :=
  if i =? 0 then Some (negb (perm =? 0)) else if i =? 1 then Some (has perm 2)
  else if i =? 2 then Some true else if i =? 5 then Some true else if i =? 6 then Some true
  else if i =? 7 then Some large else if i =? 63 then Some (negb (has perm 4)) else None.

Lemma make_pte_u64 N a leaf perm : u64 a → u64 (make_pte N a leaf perm).
Proof.
  intros Ha. unfold make_pte, set_accessed, set_user, set_large, set_dirty, set_executable, set_writable, set_valid.
  repeat first [apply set_bit_u64; [|lia]|apply set_addr_u64; [|done]]. by unfold u64.
Qed.

Lemma make_leaf_u64 N a perm : u64 a → u64 (make_leaf_pte N a perm).
Proof. exact (make_pte_u64 N a true perm). Qed.

Lemma make_pte_spec N a leaf perm i :
  fits (large_capable N && leaf) a → 0 ≤ i →
  Z.testbit (make_pte N a leaf perm) i = default (Z.testbit a i) (flag_bits (large_capable N && leaf) perm i).
Proof.
  intros Hf Hi. unfold make_pte, set_accessed, set_user, set_large, set_dirty, set_executable, set_writable, set_valid.
  assert (u64 0) as H0 by (by unfold u64).
  repeat first [rewrite set_bit_spec by (repeat first [done|lia|apply set_bit_u64; [|lia]|apply set_addr_u64; [|apply Hf]])
               |rewrite set_addr_spec by (repeat first [done|lia|apply set_bit_u64; [|lia]])].
  rewrite Z.bits_0. unfold flag_bits.
  destruct (in_mask (large_capable N && leaf) i) eqn:Em.
  - assert (12 ≤ i < 51) by (unfold in_mask in Em; lia).
    by rewrite !(proj2 (Z.eqb_neq i _)) by lia.
  - rewrite (proj2 Hf i Hi Em).
    destruct (Z.eqb_spec i 5), (Z.eqb_spec i 2), (Z.eqb_spec i 7), (Z.eqb_spec i 6), (Z.eqb_spec i 63), (Z.eqb_spec i 1),
      (Z.eqb_spec i 0); subst; (done || lia).
Qed.

(** ** Large pages as small ones *)

(** The element of the small page [j] of a large one. *)
Definition small_of (x j : Z) : Z := split_pte (set_large false x) j.

(** The element of a mapped large page. *)
Record large_ok (x : Z) : Prop := {
  lo_u64 : u64 x;
  lo_valid : Z.testbit x 0 = true;
  lo_large : Z.testbit x 7 = true;
  lo_low i : 12 ≤ i < 21 → Z.testbit x i = false;
  lo_cow : Z.testbit x 53 = false;
}.

Lemma testbit_small j i : 0 ≤ j < 2 ^ 9 → 9 ≤ i → Z.testbit j i = false.
Proof.
  intros Hj Hi. destruct (Z.eq_dec j 0) as [->|]; [apply Z.bits_0|]. apply Z.bits_above_log2; [lia|].
  assert (Z.log2 j < 9) by (apply Z.log2_lt_pow2; lia). lia.
Qed.

Lemma index_fits j : 0 ≤ j < 512 → fits false (Z.shiftl j 12).
Proof.
  intros Hj. split.
  - rewrite Z.shiftl_mul_pow2 by lia. unfold u64. lia.
  - intros i Hi Hm. rewrite Z.shiftl_spec by lia. destruct (decide (i < 12)); [by rewrite Z.testbit_neg_r by lia|].
    apply testbit_small; [lia|]. unfold in_mask in Hm. lia.
Qed.

Lemma fits_lor l a b : fits l a → fits l b → fits l (Z.lor a b).
Proof.
  intros [Ha Hfa] [Hb Hfb]. split; [by apply lor_u64|]. intros i Hi Hm. by rewrite Z.lor_spec, Hfa, Hfb.
Qed.

Lemma small_of_spec x j i :
  large_ok x → 0 ≤ j < 512 → 0 ≤ i →
  Z.testbit (small_of x j) i =
    if i =? 7 then false else if (12 <=? i) && (i <? 21) then Z.testbit j (i - 12) else Z.testbit x i.
Proof.
  intros Hx Hj Hi. unfold small_of, split_pte, set_large. set (x' := set_bit 7 false x).
  assert (u64 x') as Hx' by (apply set_bit_u64; [apply Hx|lia]).
  assert (∀ k, 0 ≤ k → Z.testbit x' k = if k =? 7 then false else Z.testbit x k) as Hb.
  { intros k Hk. apply set_bit_spec; [apply Hx|lia|lia]. }
  assert (large 1 x' = false) as Hl by (by rewrite large_bit, Hb by lia).
  assert (fits false (addr 1 x')) as Hfa by (rewrite <- Hl; by apply fits_addr).
  rewrite set_addr_spec; [|done|apply fits_lor; [done|by apply index_fits]|done].
  rewrite Z.lor_spec, Z.shiftl_spec, addr_spec, Hl, Hb by lia. unfold page_size_shift.
  destruct (in_mask false i) eqn:Em.
  - assert (12 ≤ i < 51) by (unfold in_mask in Em; lia). rewrite (proj2 (Z.eqb_neq i 7)) by lia.
    rewrite andb_true_r. destruct (decide (i < 21)).
    + rewrite (lo_low _ Hx) by lia. rewrite (proj2 (Z.leb_le 12 i)), (proj2 (Z.ltb_lt i 21)) by lia. done.
    + rewrite (proj2 (Z.ltb_ge i 21)) by lia. rewrite (testbit_small j (i - 12)) by lia.
      by rewrite orb_false_r, andb_false_r.
  - destruct (Z.eqb_spec i 7); [done|]. unfold in_mask in Em.
    by replace ((12 <=? i) && (i <? 21)) with false by lia.
Qed.

Lemma small_of_u64 x j : large_ok x → 0 ≤ j < 512 → u64 (small_of x j).
Proof.
  intros Hx Hj. unfold small_of, split_pte, set_large. assert (u64 (set_bit 7 false x)) by (apply set_bit_u64; [apply Hx|lia]).
  apply set_addr_u64; [done|]. apply lor_u64; [by apply land_u64|]. by apply index_fits.
Qed.

Lemma small_of_nonempty x j : large_ok x → 0 ≤ j < 512 → empty (small_of x j) = false.
Proof.
  intros Hx Hj. apply Z.eqb_neq. intros Hz. assert (Z.testbit (small_of x j) 0 = true) as Hb.
  - rewrite small_of_spec by (done || lia). exact (lo_valid _ Hx).
  - by rewrite Hz in Hb.
Qed.

Lemma pt_index_bound v l : 0 ≤ l → 0 ≤ pt_index v l < 512.
Proof.
  intros Hl. unfold pt_index. change (pte_per_page - 1) with (Z.ones 9). rewrite Z.land_ones by lia.
  apply Z.mod_pos_bound. lia.
Qed.

Lemma addr_lor_add a j : 0 ≤ a → (∀ i, 12 ≤ i < 21 → Z.testbit a i = false) → 0 ≤ j < 512 →
  Z.lor a (Z.shiftl j 12) = a + j * 4096.
Proof.
  intros Ha Hl Hj. rewrite <- Z.lxor_lor.
  - rewrite <- Z.add_nocarry_lxor; [by rewrite Z.shiftl_mul_pow2 by lia|].
    apply Z.bits_inj'. intros i Hi. rewrite Z.land_spec, Z.bits_0, Z.shiftl_spec by lia.
    destruct (decide (i < 12)); [by rewrite (Z.testbit_neg_r j), andb_false_r by lia|].
    destruct (decide (i < 21)); [by rewrite Hl by lia|]. by rewrite (testbit_small j), andb_false_r by lia.
  - apply Z.bits_inj'. intros i Hi. rewrite Z.land_spec, Z.bits_0, Z.shiftl_spec by lia.
    destruct (decide (i < 12)); [by rewrite (Z.testbit_neg_r j), andb_false_r by lia|].
    destruct (decide (i < 21)); [by rewrite Hl by lia|]. by rewrite (testbit_small j), andb_false_r by lia.
Qed.

Lemma small_of_addr x j :
  large_ok x → 0 ≤ j < 512 → addr 0 (small_of x j) = addr 1 x + j * 4096.
Proof.
  intros Hx Hj. pose proof (lo_u64 _ Hx) as Hu. assert (large 1 x = true) as Hl by (by rewrite large_bit, (lo_large _ Hx)).
  rewrite <- addr_lor_add; [|apply land_u64; done| |done].
  - apply Z.bits_inj'. intros i Hi. rewrite Z.lor_spec, !addr_spec, small_of_spec, Z.shiftl_spec, Hl by (done || lia).
    assert (large 0 (small_of x j) = false) as -> by done. unfold in_mask. cbn [andb].
    destruct (Z.eqb_spec i 7) as [->|Hi7].
    { rewrite (Z.testbit_neg_r j) by lia. change ((12 <=? 7)) with false. by rewrite !andb_false_r. }
    destruct (decide (i < 12)).
    { rewrite (Z.testbit_neg_r j) by lia. replace (12 <=? i) with false by lia. by rewrite !andb_false_r. }
    destruct (decide (i < 21)).
    { replace ((12 <=? i) && (i <? 21)) with true by lia. rewrite (lo_low _ Hx) by lia. cbn.
      replace ((12 <=? i) && (i <? 51)) with true by lia. by rewrite andb_true_r. }
    replace ((12 <=? i) && (i <? 21)) with false by lia. rewrite (testbit_small j (i - 12)) by lia.
    rewrite orb_false_r. f_equal. replace (i =? 12) with false by lia. done.
  - intros i Hi. rewrite addr_spec, (lo_low _ Hx) by lia. done.
Qed.

Lemma aligned_low a n i : 0 ≤ n → (2 ^ n | a) → i < n → Z.testbit a i = false.
Proof. intros Hn [k ->] Hi. by apply Z.mul_pow2_bits_low. Qed.

Lemma fits_aligned (l : bool) a : 0 ≤ a < 2 ^ 51 → (2 ^ (if l then 21 else 12) | a) → fits l a.
Proof.
  intros Ha Hd. split; [unfold u64; lia|]. intros i Hi Hm. destruct (decide (i < 51)).
  - apply (aligned_low _ (if l then 21 else 12)); [by destruct l|done|]. unfold in_mask in Hm. destruct l; lia.
  - destruct (Z.eq_dec a 0) as [->|]; [apply Z.bits_0|]. apply Z.bits_above_log2; [lia|].
    assert (Z.log2 a < 51) by (apply Z.log2_lt_pow2; lia). lia.
Qed.

Lemma make_leaf_large_ok a perm :
  0 ≤ a < 2 ^ 51 → (2 ^ 21 | a) → perm ≠ 0 → large_ok (make_leaf_pte 1 a perm).
Proof.
  intros Ha Hd Hp. assert (fits true a) as Hf by (by apply fits_aligned). unfold make_leaf_pte. split.
  - apply make_pte_u64, Hf.
  - rewrite make_pte_spec by (done || lia). cbn. by apply negb_true_iff, Z.eqb_neq.
  - by rewrite make_pte_spec by (done || lia).
  - intros i Hi. rewrite make_pte_spec by (done || lia). unfold flag_bits.
    rewrite !(proj2 (Z.eqb_neq i _)) by lia. cbn. apply (aligned_low _ 21); [lia|done|lia].
  - rewrite make_pte_spec by (done || lia). exact (proj2 Hf 53 ltac:(lia) eq_refl).
Qed.

Lemma make_leaf_small a perm j :
  0 ≤ a → a + 2 ^ 21 ≤ 2 ^ 51 → (2 ^ 21 | a) → perm ≠ 0 → 0 ≤ j < 512 →
  small_of (make_leaf_pte 1 a perm) j = make_leaf_pte 0 (a + j * 4096) perm.
Proof.
  intros Ha Hb Hd Hp Hj. assert (large_ok (make_leaf_pte 1 a perm)) as Hlo by (apply make_leaf_large_ok; (done || lia)).
  assert (fits true a) as Hf by (apply fits_aligned; [lia|done]).
  assert (∀ i, 12 ≤ i < 21 → Z.testbit a i = false) as Hlow by (intros i Hi; apply (aligned_low _ 21); [lia|done|lia]).
  assert (fits false (a + j * 4096)) as Hf'.
  { rewrite <- addr_lor_add by done. apply fits_lor; [|by apply index_fits].
    split; [apply Hf|]. intros i Hi Hm. apply Hf; [done|]. unfold in_mask in *. lia. }
  apply word_ext; [exact (small_of_u64 _ _ Hlo Hj)|exact (make_leaf_u64 _ _ _ (proj1 Hf'))|]. intros i Hi.
  rewrite small_of_spec by (done || lia). unfold make_leaf_pte. rewrite !make_pte_spec by (done || lia).
  cbn [large_capable Nat.eqb andb].
  destruct (Z.eqb_spec i 7) as [->|Hi7]; [done|]. unfold flag_bits. rewrite (proj2 (Z.eqb_neq i 7)) by done.
  rewrite <- addr_lor_add, Z.lor_spec, Z.shiftl_spec by (done || lia).
  destruct ((12 <=? i) && (i <? 21)) eqn:Em.
  - rewrite !(proj2 (Z.eqb_neq i _)) by lia. cbn. by rewrite Hlow by lia.
  - assert (Z.testbit j (i - 12) = false) as ->; [|by rewrite orb_false_r].
    destruct (decide (i < 12)); [by rewrite Z.testbit_neg_r by lia|]. apply testbit_small; lia.
Qed.

Definition adj_perm (N : nat) (x perm : Z) : Z := if pte_is_cow N x then Z.land perm (not64 2) else perm.

Lemma change_perm_bits N x perm i :
  u64 x → 0 ≤ i →
  Z.testbit (change_perm N x perm).1 i =
    if i =? 51 then adj_perm N x perm =? 0 else if i =? 63 then negb (has (adj_perm N x perm) 4)
    else if i =? 1 then has (adj_perm N x perm) 2 else if i =? 0 then true else Z.testbit x i.
Proof.
  intros Hx Hi. unfold change_perm. fold (adj_perm N x perm). cbn [fst].
  unfold set_rsvd_bit, set_executable, set_writable, set_valid. change (51 - 0) with 51.
  repeat rewrite set_bit_spec by (repeat first [done|lia|apply set_bit_u64; [|lia]]). done.
Qed.

Lemma change_perm_u64 N x perm : u64 x → u64 (change_perm N x perm).1.
Proof.
  intros Hx. unfold change_perm. cbn [fst]. unfold set_rsvd_bit, set_executable, set_writable, set_valid.
  repeat (apply set_bit_u64; [|lia]). done.
Qed.

Lemma change_perm_large x perm : large_ok x → large_ok (change_perm 1 x perm).1.
Proof.
  intros Hx. pose proof (lo_u64 _ Hx). split.
  - by apply change_perm_u64.
  - by rewrite change_perm_bits by (done || lia).
  - rewrite change_perm_bits by (done || lia). exact (lo_large _ Hx).
  - intros i Hi. rewrite change_perm_bits by (done || lia). rewrite !(proj2 (Z.eqb_neq i _)) by lia.
    exact (lo_low _ Hx i Hi).
  - rewrite change_perm_bits by (done || lia). exact (lo_cow _ Hx).
Qed.

Lemma change_perm_frame N M x perm :
  u64 x → let y := (change_perm N x perm).1 in
  addr M y = addr M x ∧ large M y = large M x ∧ empty y = false ∧ valid y = true.
Proof.
  intros Hx y. assert (large M y = large M x) as Hl by (by rewrite !large_bit; unfold y; rewrite change_perm_bits by (done || lia)).
  assert (valid y = true) as Hv by (by rewrite valid_bit; unfold y; rewrite change_perm_bits by (done || lia)).
  split_and!; [|done| |done].
  - apply Z.bits_inj'. intros i Hi. rewrite !addr_spec, Hl by done. destruct (in_mask (large M x) i) eqn:Em; [|by rewrite !andb_false_r].
    rewrite !andb_true_r. unfold y. rewrite change_perm_bits by done. unfold in_mask in Em.
    by rewrite !(proj2 (Z.eqb_neq i _)) by lia.
  - apply Z.eqb_neq. intros Hz. by rewrite Hz in Hv.
Qed.

(** Splitting a large page and changing permissions commute. *)
Lemma change_perm_small x perm j :
  large_ok x → 0 ≤ j < 512 →
  small_of (change_perm 1 x perm).1 j = (change_perm 0 (small_of x j) perm).1.
Proof.
  intros Hx Hj. pose proof (change_perm_large x perm Hx) as Hx'. pose proof (lo_u64 _ Hx) as Hu.
  pose proof (small_of_u64 x j Hx Hj) as Hs.
  assert (adj_perm 0 (small_of x j) perm = perm) as Ea.
  { unfold adj_perm, pte_is_cow. rewrite sw_bit_spec, small_of_spec by (done || lia). by rewrite (lo_cow _ Hx). }
  apply word_ext; [by apply small_of_u64|by apply change_perm_u64|]. intros i Hi.
  rewrite small_of_spec, !change_perm_bits, Ea, small_of_spec by (done || lia). unfold adj_perm. cbn [pte_is_cow].
  destruct (Z.eqb_spec i 7) as [->|]; [done|].
  destruct ((12 <=? i) && (i <? 21)) eqn:Em; [|done].
  by rewrite !(proj2 (Z.eqb_neq i _)) by lia.
Qed.

(** The element of a small page. *)
Lemma make_leaf_facts a perm :
  0 ≤ a < 2 ^ 51 → (2 ^ 12 | a) →
  let x := make_leaf_pte 0 a perm in
  u64 x ∧ valid x = negb (perm =? 0) ∧ writable x = has perm 2 ∧ executable x = has perm 4 ∧ addr 0 x = a.
Proof.
  intros Ha Hd. assert (fits false a) as Hf by (by apply (fits_aligned false)). cbn zeta.
  assert (∀ i, 0 ≤ i → Z.testbit (make_leaf_pte 0 a perm) i = default (Z.testbit a i) (flag_bits false perm i)) as Hb.
  { intros i Hi. unfold make_leaf_pte. by rewrite make_pte_spec. }
  assert (u64 (make_leaf_pte 0 a perm)) as Hu by (apply make_leaf_u64, Hf).
  split_and!; [done| | | |].
  - by rewrite valid_bit, Hb by lia.
  - by rewrite writable_bit, Hb by lia.
  - rewrite executable_bit, Hb by (done || lia). apply negb_involutive.
  - apply Z.bits_inj'. intros i Hi. rewrite addr_spec, Hb by done. change (large 0 _) with false.
    destruct (in_mask false i) eqn:Em; [rewrite andb_true_r|by rewrite andb_false_r, (proj2 Hf)].
    unfold flag_bits. unfold in_mask in Em. by rewrite !(proj2 (Z.eqb_neq i _)) by lia.
Qed.

(** The element [populate] writes. *)
Definition new_leaf (N : nat) (d : bool) (pa perm : Z) : Z := set_dirty d (make_leaf_pte N pa perm).

Lemma new_leaf_bits N d pa perm i :
  fits (large_capable N) pa → 0 ≤ i →
  Z.testbit (new_leaf N d pa perm) i =
    if i =? 6 then d else default (Z.testbit pa i) (flag_bits (large_capable N) perm i).
Proof.
  intros Hf Hi. unfold new_leaf, set_dirty. rewrite set_bit_spec; [|apply make_leaf_u64, Hf|lia|done].
  unfold make_leaf_pte. rewrite make_pte_spec by (rewrite ?andb_true_r; done). by rewrite andb_true_r.
Qed.

Lemma new_leaf_u64 N d pa perm : u64 pa → u64 (new_leaf N d pa perm).
Proof. intros Hp. apply set_bit_u64; [by apply make_leaf_u64|lia]. Qed.

Lemma fits_zero l : fits l 0.
Proof. split; [by unfold u64|]. intros. apply Z.bits_0. Qed.

Lemma new_leaf_large N d pa perm : fits (large_capable N) pa → large N (new_leaf N d pa perm) = large_capable N.
Proof. intros Hf. rewrite large_bit, new_leaf_bits by (done || lia). cbn. by rewrite andb_diag. Qed.

(** Writing the address of the page into the prepared element. *)
Lemma new_leaf_mod_addr N d pa perm :
  fits (large_capable N) pa → mod_addr N pa (new_leaf N d 0 perm) = new_leaf N d pa perm.
Proof.
  intros Hf. pose proof (fits_zero (large_capable N)) as H0. unfold mod_addr. rewrite new_leaf_large by done.
  assert (u64 (new_leaf N d 0 perm)) as Hu by (apply new_leaf_u64, H0).
  apply word_ext; [apply set_addr_u64; [done|apply Hf]|apply new_leaf_u64, Hf|].
  intros i Hi. rewrite set_addr_spec, !new_leaf_bits by (done || lia). rewrite Z.bits_0.
  destruct (in_mask (large_capable N) i) eqn:Em.
  - assert (12 ≤ i < 51) by (unfold in_mask in Em; lia). unfold flag_bits.
    by rewrite !(proj2 (Z.eqb_neq i _)) by lia.
  - by rewrite (proj2 Hf i) by (done || lia).
Qed.

Lemma new_leaf_addr N d pa perm :
  fits (large_capable N) pa → addr N (new_leaf N d pa perm) = pa.
Proof.
  intros Hf. apply Z.bits_inj'. intros i Hi. rewrite addr_spec, new_leaf_large, new_leaf_bits by done.
  destruct (in_mask (large_capable N) i) eqn:Em; [rewrite andb_true_r|by rewrite andb_false_r, (proj2 Hf)].
  assert (12 ≤ i < 51) by (unfold in_mask in Em; lia). unfold flag_bits. by rewrite !(proj2 (Z.eqb_neq i _)) by lia.
Qed.

Lemma new_leaf_valid N d pa perm :
  fits (large_capable N) pa → perm ≠ 0 → valid (new_leaf N d pa perm) = true.
Proof.
  intros Hf Hp. rewrite valid_bit, new_leaf_bits by (done || lia). cbn. by apply negb_true_iff, Z.eqb_neq.
Qed.

Lemma new_leaf_large_ok d pa perm :
  0 ≤ pa < 2 ^ 51 → (2 ^ 21 | pa) → perm ≠ 0 → large_ok (new_leaf 1 d pa perm).
Proof.
  intros Ha Hd Hp. pose proof (make_leaf_large_ok pa perm Ha Hd Hp) as Hx. pose proof (lo_u64 _ Hx) as Hu.
  unfold new_leaf, set_dirty. split.
  - apply set_bit_u64; [done|lia].
  - rewrite set_bit_spec by (done || lia). exact (lo_valid _ Hx).
  - rewrite set_bit_spec by (done || lia). exact (lo_large _ Hx).
  - intros i Hi. rewrite set_bit_spec by (done || lia). rewrite (proj2 (Z.eqb_neq i _)) by lia. by apply (lo_low _ Hx).
  - rewrite set_bit_spec by (done || lia). exact (lo_cow _ Hx).
Qed.

Lemma new_leaf_small d pa perm j :
  0 ≤ pa → pa + 2 ^ 21 ≤ 2 ^ 51 → (2 ^ 21 | pa) → perm ≠ 0 → 0 ≤ j < 512 →
  small_of (new_leaf 1 d pa perm) j = new_leaf 0 d (pa + j * 4096) perm.
Proof.
  intros Ha Hb Hd Hp Hj. pose proof (new_leaf_large_ok d pa perm ltac:(lia) Hd Hp) as Hx.
  pose proof (make_leaf_large_ok pa perm ltac:(lia) Hd Hp) as Hx'.
  unfold new_leaf at 2. rewrite <- make_leaf_small by done.
  pose proof (small_of_u64 _ j Hx Hj) as Hu. pose proof (small_of_u64 _ j Hx' Hj) as Hu'.
  apply word_ext; [done|apply set_bit_u64; [done|lia]|]. intros i Hi. unfold set_dirty.
  rewrite set_bit_spec, !small_of_spec by (done || lia). unfold new_leaf, set_dirty.
  rewrite set_bit_spec; [|exact (lo_u64 _ Hx')|lia|lia].
  destruct (Z.eqb_spec i 6) as [->|]; [done|]. done.
Qed.

(** The element of a table. *)
Lemma make_intermediate_ok N pa :
  0 ≤ pa < 2 ^ 51 → (2 ^ 12 | pa) →
  let x := make_intermediate_pte N pa in
  u64 x ∧ valid x = true ∧ large N x = false ∧ addr N x = pa.
Proof.
  intros Hp Hd. assert (fits false pa) as Hf by (by apply (fits_aligned false)). cbn zeta.
  assert (∀ i, 0 ≤ i → Z.testbit (make_intermediate_pte N pa) i = default (Z.testbit pa i) (flag_bits false 7 i)) as Hb.
  { intros i Hi. unfold make_intermediate_pte. rewrite make_pte_spec; rewrite ?andb_false_r; done. }
  assert (u64 (make_intermediate_pte N pa)) as Hu by (exact (make_pte_u64 N pa false perm_rwx (proj1 Hf))).
  assert (large N (make_intermediate_pte N pa) = false) as Hl.
  { rewrite large_bit, Hb by lia. by rewrite andb_false_r. }
  split_and!; [done| |done|].
  - by rewrite valid_bit, Hb by lia.
  - apply Z.bits_inj'. intros i Hi. rewrite addr_spec, Hl, Hb by done.
    destruct (in_mask false i) eqn:Em; [rewrite andb_true_r|by rewrite andb_false_r, (proj2 Hf)].
    unfold flag_bits. unfold in_mask in Em. by rewrite !(proj2 (Z.eqb_neq i _)) by lia.
Qed.

(** ** The linear map *)

(** A physical address outside of the kernel image. *)
Definition plain (im : image) (pa : Z) : Prop :=
  0 ≤ pa < mem_area_size ∧ (pa < elf_phys_start im ∨ elf_phys_start im + elf_size im ≤ pa).

(** The image lies below the linear map. *)
Definition image_ok (im : image) : Prop := elf_start im + elf_size im ≤ phys_mem.

Lemma phys_to_virt_plain im pa : plain im pa → phys_to_virt im pa = phys_mem + pa.
Proof.
  intros [Hp He]. unfold phys_to_virt.
  replace ((elf_phys_start im <=? pa) && (pa <? elf_phys_start im + elf_size im)) with false by lia.
  apply wrap64_small. unfold u64. rewrite mem_area_size_eq in Hp. change phys_mem with (4 * 2 ^ 44). lia.
Qed.

Lemma virt_to_phys_main im v :
  image_ok im → in_area main v → virt_to_phys im v = Some (v - phys_mem).
Proof.
  intros Hi Hv. unfold virt_to_phys, image_ok, in_area in *. change (get_mem_area_base main) with phys_mem in Hv.
  replace ((elf_start im <=? v) && (v <? elf_start im + elf_size im)) with false by lia.
  rewrite (proj2 (Z.leb_le _ _)) by lia. f_equal. change (mem_area_size - 1) with (Z.ones 44).
  rewrite Z.land_ones by lia. rewrite mem_area_size_eq in Hv. change phys_mem with (4 * 2 ^ 44) in *.
  symmetry. apply (Z.mod_unique _ _ 4); lia.
Qed.
