(* ===== verification/PageTable.v ===== *)
(** * Page tables

    The page table walker and the page table operations of [core/mmu.cc].  A page
    table is the tree of its elements: a node is the word in a slot and, if the
    word points to a table, the 512 slots of that table.  An [hw_ptep] is a node
    of the tree; a function that writes through it returns the new node. *)
From S2P Require Import Prelude Bits MemArea Pte.
Import Pte.

(** ** Where the frames come from

    [memory::alloc_page], [memory::alloc_huge_page] (null is 0) and their
    counterparts.  [fr_inv im f held] is the invariant of the allocator while the
    physical frames [held], pairs of an address and a size, are in use.  A single
    page is null, or waited for, only if no page is free, which is [fr_out]; then
    there is no page and no huge page until something is freed. *)
Definition small_pieces (pa : Z) : list (Z * Z) := (λ i, (pa + i * page_size, page_size)) <$> seqZ 0 512.

Definition frame_ok (im : image) (r : Z * Z) : Prop :=
  (r.2 | r.1) ∧ (r.2 = page_size ∨ r.2 = huge_page_size) ∧ 0 ≤ r.1 ∧ r.1 + r.2 ≤ mem_area_size ∧ plain im r.1.

Definition apart (r r' : Z * Z) : Prop := r.1 + r.2 ≤ r'.1 ∨ r'.1 + r'.2 ≤ r.1.

Class Frames (im : image) (F : Type) := {
  fr_alloc_page : prog F Z;
  fr_free_page : Z → prog F unit;
  fr_alloc_huge : prog F Z;
  fr_free_huge : Z → prog F unit;
  fr_inv : F → list (Z * Z) → Prop;
  fr_out : F → Prop;
  fr_perm f h h' : h ≡ₚ h' → fr_inv f h → fr_inv f h';
  fr_ok f h : fr_inv f h → Forall (frame_ok im) h ∧ pairwise apart h;
  fr_alloc_page_spec f h : fr_inv f h →
    wp fr_alloc_page f
      (λ v f', v = 0 ∧ fr_inv f' h ∧ fr_out f' ∨ v ≠ 0 ∧ in_area main v ∧ fr_inv f' ((v - phys_mem, page_size) :: h))
      fr_out False;
  fr_out_page f h : fr_inv f h → fr_out f → wp fr_alloc_page f (λ v f', v = 0 ∧ fr_out f') fr_out False;
  fr_free_page_spec f h pa : fr_inv f ((pa, page_size) :: h) →
    wp (fr_free_page (phys_mem + pa)) f (λ _ f', fr_inv f' h) (λ _, False) False;
  fr_alloc_huge_spec f h : fr_inv f h →
    wp fr_alloc_huge f
      (λ v f', v = 0 ∧ fr_inv f' h ∨ v ≠ 0 ∧ in_area main v ∧ fr_inv f' ((v - phys_mem, huge_page_size) :: h))
      (λ _, False) False;
  fr_out_huge f h : fr_inv f h → fr_out f → wp fr_alloc_huge f (λ v f', v = 0 ∧ fr_out f') (λ _, False) False;
  fr_free_huge_spec f h pa : fr_inv f ((pa, huge_page_size) :: h) →
    wp (fr_free_huge (phys_mem + pa)) f (λ _ f', fr_inv f' h) (λ _, False) False;
  fr_split f h pa : fr_inv f ((pa, huge_page_size) :: h) → fr_inv f (small_pieces pa ++ h);
}.

Module PageTable.

Inductive node := Node (x : Z) (kids : list node).

Definition word (n : node) : Z := let 'Node x _ := n in x.
Definition table (n : node) : list node := let 'Node _ kids := n in kids.
Definition empty_node : node := Node 0 [].

Section Walker.
Context (im : image) {F : Type} `{!Frames im F}.

(** The allocator and the fields of the operation that walks: the pages gathered
    for a TLB flush, [do_flush], the number of flushes, the pages freed after a
    grace period, [_total_operated], [result], [live_ptes] and the elements the
    visitor has seen. *)
Record wst := mkWst {
  fr : F;
  gather : list (Z * Z);
  do_flush : bool;
  flushes : nat;
  deferred : list Z;
  total : Z;
  result : option Z;
  live_ptes : Z;
  seen : list (nat * Z);
}.

Definition start_wst (f : F) : wst := mkWst f [] false 0 [] 0 None 0 [].

Definition set_fr (f : F) (s : wst) : wst :=
  mkWst f (gather s) (do_flush s) (flushes s) (deferred s) (total s) (result s) (live_ptes s) (seen s).
Definition set_gather (g : list (Z * Z)) (s : wst) : wst :=
  mkWst (fr s) g (do_flush s) (flushes s) (deferred s) (total s) (result s) (live_ptes s) (seen s).
Definition set_do_flush (b : bool) (s : wst) : wst :=
  mkWst (fr s) (gather s) b (flushes s) (deferred s) (total s) (result s) (live_ptes s) (seen s).
Definition flush_tlb_all (s : wst) : wst :=
  mkWst (fr s) (gather s) (do_flush s) (S (flushes s)) (deferred s) (total s) (result s) (live_ptes s) (seen s).
Definition rcu_defer (v : Z) (s : wst) : wst :=
  mkWst (fr s) (gather s) (do_flush s) (flushes s) (deferred s ++ [v]) (total s) (result s) (live_ptes s) (seen s).
Definition set_total (n : Z) (s : wst) : wst :=
  mkWst (fr s) (gather s) (do_flush s) (flushes s) (deferred s) n (result s) (live_ptes s) (seen s).
Definition set_result (r : Z) (s : wst) : wst :=
  mkWst (fr s) (gather s) (do_flush s) (flushes s) (deferred s) (total s) (Some r) (live_ptes s) (seen s).
Definition set_live (n : Z) (s : wst) : wst :=
  mkWst (fr s) (gather s) (do_flush s) (flushes s) (deferred s) (total s) (result s) n (seen s).
Definition set_seen (l : list (nat * Z)) (s : wst) : wst :=
  mkWst (fr s) (gather s) (do_flush s) (flushes s) (deferred s) (total s) (result s) (live_ptes s) l.

(** A call of the allocator. *)
Definition lift {A} (m : prog F A) : prog wst A := λ s,
  match m (fr s) with
  | Ret a f => Ret a (set_fr f s)
  | Blocked f => Blocked (set_fr f s)
  | Fault => Fault
  end.

Definition to_phys (v : Z) : prog wst Z :=
  match virt_to_phys im v with Some pa => ret pa | None => fault end.

Open Scope prog_scope.

(** ** Intermediate tables *)

(** [allocate_intermediate_level] with the elements of the new table: its
    physical address.  The assertion of [virt_to_phys] ends the machine if there is
    no page for the table.  That is the end of the walk, told apart from the other
    assertions, as a wait is, by the state it leaves. *)
Definition allocate_table : prog wst Z :=
  v ⟵ lift fr_alloc_page;
  if v =? 0 then Blocked else to_phys v.

(** The table that replaces the large page [org]. *)
Definition allocate_intermediate_split (N : nat) (org : Z) : prog wst node :=
  pt_page ⟵ allocate_table;
  ret (Node (make_intermediate_pte N pt_page) ((λ i, Node (split_pte org i) []) <$> seqZ 0 512)).

(** An empty table, unless somebody was faster. *)
Definition allocate_intermediate_level (N : nat) (ptep : node) : prog wst node :=
  pt_page ⟵ allocate_table;
  if empty (word ptep) then ret (Node (make_intermediate_pte N pt_page) (replicate 512 empty_node))
  else lift (fr_free_page (phys_to_virt im pt_page)) ;;; ret ptep.

Definition split_large_page (N : nat) (ptep : node) : prog wst node :=
  match N with
  | 1%nat => allocate_intermediate_split 1 (set_large false (word ptep))
  | _ => ret ptep
  end.

(** [clamp] *)
Definition clamp (vstart1 vend1 min max slop : Z) : Z * Z :=
  let vstart1 := Z.land vstart1 (not64 (slop - 1)) in
  let vend1 := Z.lor vend1 (slop - 1) in
  (Z.max vstart1 min, Z.min vend1 max).

(** ** Operations and the walk *)

(** [page_table_operation]: the template parameters, the number of page sizes,
    [page] (whether it handled the page, and the new node), [intermediate_page_pre],
    [intermediate_page_post] and [sub_page]. *)
Record page_op := mkOp {
  allocate_intermediate : bool;
  skip_empty : bool;
  descend : bool;
  once : bool;
  split_large : bool;
  nr_page_sizes : nat;
  op_page : nat → node → Z → prog wst (bool * node);
  op_pre : prog wst unit;
  op_post : node → prog wst node;
  op_sub : node → prog wst unit;
}.

(** The 47th bit of an address, extended. *)
Definition extend47 (v : Z) : Z :=
  let w := v mod 2 ^ 48 in
  if w <? 2 ^ 47 then w else wrap64 (w - 2 ^ 48).

Section Map.
Context (op : page_op) (vma_start slop : Z).

(** The operation's functions, at the levels that have them. *)
Definition sub_page (N : nat) (ptep : node) : prog wst unit :=
  if large_capable N then op_sub op ptep else ret tt.
Definition page_at (N : nat) (ptep : node) (offset : Z) : prog wst (bool * node) :=
  if leaf_capable N then op_page op N ptep offset else fault.
Definition intermediate_page_pre (N : nat) : prog wst unit :=
  if large_capable N then op_pre op else ret tt.
Definition intermediate_page_post (N : nat) (ptep : node) : prog wst node :=
  if large_capable N then op_post op ptep else ret ptep.

(** The parent element before its table is followed, and whether the walk goes
    on. *)
Definition enter (level : nat) (parent : node) : prog wst (node * bool) :=
  if negb (valid (word parent)) then
    if negb (allocate_intermediate op) then ret (parent, false)
    else n ⟵ allocate_intermediate_level (S level) parent; ret (n, true)
  else if large (S level) (word parent) then
    if split_large op then n ⟵ split_large_page (S level) parent; ret (n, true)
    else sub_page (S level) parent ;;; ret (parent, false)
  else ret (parent, true).

(** One slot of the table: [below] is the walk of the next level. *)
Definition visit (below : node → Z → Z → Z → prog wst node) (level : nat)
    (vcur vend : Z) (ptep : node) (base_virt : Z) : prog wst node :=
  let step := page_size_level (Z.of_nat level) in
  let '(vstart1, vend1) := clamp vcur vend base_virt (wrap64 (base_virt + step - 1)) slop in
  let down (p : node) : prog wst node := below p base_virt vstart1 (wrap64 (vend1 - vstart1 + 1)) in
  if (level <? nr_page_sizes op)%nat && (vstart1 =? base_virt) && (vend1 =? wrap64 (base_virt + step - 1)) then
    let offset := wrap64 (base_virt - vma_start) in
    if skip_empty op && empty (word ptep) then ret ptep
    else if (level =? 0)%nat then r ⟵ page_at level ptep offset; ret r.2
    else
      let intermediate (p : node) : prog wst node :=
        intermediate_page_pre level ;;; p ⟵ down p; intermediate_page_post level p in
      if descend op && negb (empty (word ptep)) && negb (large level (word ptep)) then intermediate ptep
      else
        r ⟵ page_at level ptep offset;
        if r.1 : bool then ret r.2 else intermediate r.2
  else down ptep.

(** The loop over the slots of a table. *)
Fixpoint slots_loop (below : node → Z → Z → Z → prog wst node) (level fuel : nat)
    (vcur vend : Z) (idx eidx base_virt : Z) (kids : list node) : prog wst (list node) :=
  match fuel with
  | O => ret kids
  | S fuel =>
      match kids !! Z.to_nat idx with
      | None => fault
      | Some ptep =>
          n ⟵ visit below level vcur vend ptep base_virt;
          let kids := <[Z.to_nat idx := n]> kids in
          let base_virt := wrap64 (base_virt + page_size_level (Z.of_nat level)) in
          let idx := idx + 1 in
          if negb (once op) && (idx <=? eidx)
          then slots_loop below level fuel vcur vend idx eidx base_virt kids
          else ret kids
      end
  end.

(** [map_level<PageOp, level + 1>]: the constructor's arguments, then those of the
    call; [level] is the level of the elements in the table of [parent]. *)
Fixpoint map_level (level : nat) (parent : node) (base_virt vcur size : Z) : prog wst node :=
  let vend := wrap64 (vcur + size - 1) in
  e ⟵ enter level parent;
  let '(parent, go) := e in
  if go : bool then
    match next_pt_addr (S level) (word parent) with
    | None => fault
    | Some _ =>
        let step := page_size_level (Z.of_nat level) in
        let idx := pt_index vcur (Z.of_nat level) in
        let eidx := pt_index vend (Z.of_nat level) in
        let base_virt := extend47 (wrap64 (base_virt + idx * step)) in
        let below := match level with O => λ p _ _ _, ret p | S l => map_level l end in
        kids ⟵ slots_loop below level 512 vcur vend idx eidx base_virt (table parent);
        ret (Node (word parent) kids)
    end
  else ret parent.

Definition map_range (root : node) (vstart size : Z) : prog wst node := map_level 3 root 0 vstart size.
End Map.

(** ** The operations *)

Definition no_pre : prog wst unit := ret tt.
Definition no_post (n : node) : prog wst node := ret n.
Definition no_sub (n : node) : prog wst unit := ret tt.

(** [linear_page_mapper] *)
Definition linear_page (start end_ : Z) (N : nat) (ptep : node) (offset : Z) : prog wst (bool * node) :=
  let addr := wrap64 (start + offset) in
  check (addr <? end_) ;;;
  ret (true, Node (make_leaf_pte N addr perm_rwx) []).

Definition linear_page_mapper (nr : nat) (start size : Z) : page_op :=
  mkOp true false false false true nr (linear_page start (wrap64 (start + size))) no_pre no_post no_sub.

Definition account (n : Z) : prog wst unit := modify (λ s, set_total (wrap64 (total s + n)) s).

(** The page providers: [None] is the exception, otherwise whether the element
    was written.  What [fill] writes is not part of the page table. *)
Definition set_pte (N : nat) (v : Z) (ptep : node) (pte : Z) : prog wst (option (bool * node)) :=
  if v =? 0 then ret None
  else
    pa ⟵ to_phys v;
    if empty (word ptep) then ret (Some (true, Node (mod_addr N pa pte) (table ptep)))
    else
      (if large_capable N then lift (fr_free_huge v) else lift (fr_free_page v)) ;;;
      ret (Some (false, ptep)).

Definition provider_map (N : nat) (ptep : node) (pte : Z) : prog wst (option (bool * node)) :=
  v ⟵ (match N with O => lift fr_alloc_page | _ => lift fr_alloc_huge end);
  set_pte N v ptep pte.

(** [clear_pte] *)
Definition provider_unmap (ptep : node) : node := Node 0 [].

(** [populate] *)
Definition populate_skip (write : bool) (x : Z) : bool :=
  if empty x then false else negb write || writable x.

Definition populate_page (acc : bool) (perm : Z) (write map_dirty : bool) (N : nat) (ptep : node) (offset : Z)
    : prog wst (bool * node) :=
  if populate_skip write (word ptep) then ret (true, ptep)
  else
    let pte := set_dirty (map_dirty || write) (make_leaf_pte N 0 perm) in
    r ⟵ provider_map N ptep pte;
    match r with
    | None => ret (false, ptep)
    | Some (written, n) =>
        (if written && acc then account (page_size_level (Z.of_nat N)) else ret tt) ;;;
        ret (true, n)
    end.

Definition populate (nr : nat) (acc : bool) (perm : Z) (write map_dirty : bool) : page_op :=
  mkOp true false true false true nr (populate_page acc perm write map_dirty) no_pre no_post no_sub.

Definition populate_small (acc : bool) (perm : Z) (write map_dirty : bool) : page_op :=
  mkOp true false true false true 1
    (λ N ptep offset, check (negb (large_capable N)) ;;; populate_page acc perm write map_dirty N ptep offset)
    no_pre no_post no_sub.

(** [splithugepages] *)
Definition splithugepages : page_op :=
  mkOp false true true false true 1
    (λ N ptep _, check (negb (large_capable N)) ;;; ret (true, ptep)) no_pre no_post no_sub.

(** [tlb_gather] *)
Definition max_pages : nat := 20.

Fixpoint free_gathered (l : list (Z * Z)) : prog wst unit :=
  match l with
  | [] => ret tt
  | (v, size) :: l =>
      (if size =? page_size then lift (fr_free_page v) else lift (fr_free_huge v)) ;;; free_gathered l
  end.

Definition gather_flush : prog wst bool :=
  s ⟵ get;
  if decide (gather s = []) then ret false
  else
    modify flush_tlb_all ;;; free_gathered (gather s) ;;; modify (set_gather []) ;;; ret true.

Definition gather_push (v size : Z) : prog wst bool :=
  s ⟵ get;
  flushed ⟵ (if (length (gather s) =? max_pages)%nat then gather_flush ;;; ret true else ret false);
  modify (λ s, set_gather (gather s ++ [(v, size)]) s) ;;;
  ret flushed.

(** [unpopulate] *)
Definition unpopulate_page (acc : bool) (N : nat) (ptep : node) (offset : Z) : prog wst (bool * node) :=
  let v := phys_to_virt im (addr N (word ptep)) in
  let size := page_size_level (Z.of_nat N) in
  flushed ⟵ gather_push v size;
  modify (set_do_flush (negb flushed)) ;;;
  (if acc then account size else ret tt) ;;;
  ret (true, provider_unmap ptep).

Definition unpopulate_post (ptep : node) : prog wst node :=
  modify (rcu_defer (phys_to_virt im (addr 1 (word ptep)))) ;;;
  ret empty_node.

Definition unpopulate (nr : nat) (acc : bool) : page_op :=
  mkOp false true true false true nr (unpopulate_page acc) no_pre unpopulate_post no_sub.

(** [protection] *)
Definition protection_page (perm : Z) (N : nat) (ptep : node) (offset : Z) : prog wst (bool * node) :=
  let '(x, flush) := change_perm N (word ptep) perm in
  modify (λ s, set_do_flush (do_flush s || flush) s) ;;;
  ret (true, Node x (table ptep)).

Definition protection (nr : nat) (perm : Z) : page_op :=
  mkOp false true true false true nr (protection_page perm) no_pre no_post no_sub.

(** [dirty_cleaner], with the handler's effect on the state. *)
Definition dirty_page (handler : Z → Z → Z → wst → wst) (N : nat) (ptep : node) (offset : Z)
    : prog wst (bool * node) :=
  let pte := word ptep in
  if negb (dirty pte) then ret (true, ptep)
  else
    modify (set_do_flush true) ;;;
    let x := set_dirty false pte in
    modify (handler (addr N x) offset (page_size_level (Z.of_nat N))) ;;;
    ret (true, Node x (table ptep)).

Definition dirty_cleaner (nr : nat) (handler : Z → Z → Z → wst → wst) : page_op :=
  mkOp false true true false true nr (dirty_page handler) no_pre no_post no_sub.

(** [virt_to_phys_map] *)
Definition v2p_page (v : Z) (N : nat) (ptep : node) : prog wst unit :=
  s ⟵ get;
  check (match result s with None => true | Some _ => false end) ;;;
  modify (set_result (Z.lor (addr N (word ptep)) (Z.land v (not64 (pte_level_mask (Z.of_nat N)))))).

Definition virt_to_phys_map (nr : nat) (v : Z) : page_op :=
  mkOp false true true true false nr
    (λ N ptep _, v2p_page v N ptep ;;; ret (true, ptep)) no_pre no_post
    (λ ptep, check (large 1 (word ptep)) ;;; v2p_page v 1 ptep).

(** [cleanup_intermediate_pages] *)
Definition cleanup_post (ptep : node) : prog wst node :=
  s ⟵ get;
  if live_ptes s =? 0 then
    check (forallb (λ k, word k =? 0) (table ptep)) ;;;
    modify (rcu_defer (phys_to_virt im (addr 1 (word ptep)))) ;;;
    modify (set_do_flush true) ;;;
    ret empty_node
  else ret ptep.

Definition cleanup_intermediate_pages (nr : nat) : page_op :=
  mkOp false true true false false nr
    (λ N ptep _, (if large_capable N then ret tt else modify (λ s, set_live (live_ptes s + 1) s)) ;;; ret (true, ptep))
    (modify (set_live 0)) cleanup_post no_sub.

(** [virt_to_pte_map_rcu]; the visitor's calls are recorded. *)
Definition visit_page (N : nat) (ptep : node) : prog wst unit :=
  modify (λ s, set_seen (seen s ++ [(N, word ptep)]) s) ;;;
  check (Bool.eqb (large_capable N) (large N (word ptep))).

Definition virt_to_pte_map_rcu (nr : nat) : page_op :=
  mkOp false true true true false nr
    (λ N ptep _, visit_page N ptep ;;; ret (true, ptep)) no_pre no_post (visit_page 1).

(** ** Ranges *)

(** [tlb_flush_needed] of [vma_operation], of [protection], [dirty_cleaner] and
    [cleanup_intermediate_pages], and of [unpopulate]. *)
Definition no_flush : prog wst bool := ret false.
Definition flag_flush : prog wst bool := s ⟵ get; ret (do_flush s).
Definition unpopulate_flush : prog wst bool :=
  b ⟵ gather_flush; s ⟵ get; ret (negb b && do_flush s).

(** [operate_range]: the new tree and the result of [account_results]. *)
Definition operate_range (op : page_op) (tlb_flush_needed : prog wst bool) (root : node)
    (vma_start start size : Z) : prog wst (node * Z) :=
  let start := align_down start page_size in
  let size := Z.max (align_up size page_size) page_size in
  root ⟵ map_range op vma_start page_size root start size;
  b ⟵ tlb_flush_needed;
  (if b : bool then modify flush_tlb_all else ret tt) ;;;
  s ⟵ get;
  ret (root, total s).

Definition virt_to_phys_pt (nr : nat) (root : node) (virt : Z) : prog wst Z :=
  let vbase := align_down virt page_size in
  map_range (virt_to_phys_map nr virt) vbase page_size root vbase page_size ;;;
  s ⟵ get;
  match result s with Some r => ret r | None => fault end.

Definition virt_visit_pte_rcu (nr : nat) (root : node) (virt : Z) : prog wst (list (nat * Z)) :=
  let vbase := align_down virt page_size in
  map_range (virt_to_pte_map_rcu nr) vbase page_size root vbase page_size ;;;
  s ⟵ get; ret (seen s).

(** The page tables' part of [linear_map]. *)
Definition linear_map (nr : nat) (root : node) (virt pa size slop : Z) : prog wst node :=
  let slop := Z.min slop (page_size_level (Z.of_nat nr - 1)) in
  check (Z.land virt (slop - 1) =? Z.land pa (slop - 1)) ;;;
  map_range (linear_page_mapper nr pa size) virt slop root virt size.

(** [in_vma_range] and the operations on the memory of the debug allocator. *)
Definition in_vma_range (addr : Z) : bool := addr <? 2 ^ 63.

Definition vpopulate (nr : nat) (root : node) (addr size : Z) : prog wst (node * Z) :=
  check (negb (in_vma_range addr)) ;;;
  operate_range (populate nr false 7 false true) no_flush root addr addr size.

Definition vdepopulate (nr : nat) (root : node) (addr size : Z) : prog wst (node * Z) :=
  check (negb (in_vma_range addr)) ;;;
  operate_range (unpopulate nr false) unpopulate_flush root addr addr size.

Definition vcleanup (nr : nat) (root : node) (addr size : Z) : prog wst (node * Z) :=
  check (negb (in_vma_range addr)) ;;;
  operate_range (cleanup_intermediate_pages nr) flag_flush root addr addr size.
End Walker.
End PageTable.
