(* ===== verification/PageTableSpec.v ===== *)
(** * The page table walker

    A page table seen as the map from addresses to the elements of their small
    pages, and the theorem that a walk over a range relates the old and the new
    element of every page in the range as the operation does, and changes no
    other: splitting large pages and allocating tables are invisible. *)
From S2P Require Import Prelude Bits MemArea Pte PageTable.
Import Pte PageTable.

(** ** Levels *)

Definition sz (l : nat) : Z := page_size_level (Z.of_nat l).

Lemma sz_eq l : sz l = 4096 * 512 ^ Z.of_nat l.
Proof.
  unfold sz, page_size_level, page_size_shift, pte_per_page_shift.
  rewrite Z.shiftl_mul_pow2, Z.pow_add_r, Z.pow_mul_r by lia. change (2 ^ 9) with 512. lia.
Qed.

Lemma sz_S l : sz (S l) = 512 * sz l.
Proof. rewrite !sz_eq, Nat2Z.inj_succ, Z.pow_succ_r by lia. lia. Qed.

Lemma sz_pos l : 0 < sz l.
Proof. rewrite sz_eq. lia. Qed.

Lemma sz_page l : (page_size | sz l).
Proof. rewrite sz_eq. apply Z.divide_factor_l. Qed.

Lemma sz_le l : (l ≤ 3)%nat → sz l ≤ 2 ^ 39.
Proof. intros Hl. destruct l as [|[|[|[|l]]]]; [vm_compute; discriminate..|lia]. Qed.

Lemma pt_index_eq v l : 0 ≤ v → pt_index v (Z.of_nat l) = v / sz l mod 512.
Proof.
  intros Hv. unfold pt_index. change (pte_per_page - 1) with (Z.ones 9).
  rewrite Z.land_ones, Z.shiftr_div_pow2 by (unfold page_size_shift, pte_per_page_shift; lia). f_equal. f_equal.
  rewrite sz_eq. unfold page_size_shift, pte_per_page_shift. rewrite Z.pow_add_r, (Z.mul_comm (Z.of_nat l) 9), Z.pow_mul_r by lia. done.
Qed.

(** The slot of an address in the table that covers [base]. *)
Lemma slot_of v l base i :
  0 ≤ base → (sz (S l) | base) → 0 ≤ i < 512 → base + i * sz l ≤ v < base + (i + 1) * sz l →
  pt_index v (Z.of_nat l) = i.
Proof.
  intros Hb [k ->] Hi Hv. pose proof (sz_pos l). rewrite sz_S in *. rewrite pt_index_eq by nia.
  replace (v / sz l) with (i + k * 512).
  - rewrite Z.mod_add by lia. by apply Z.mod_small.
  - apply (Z.div_unique _ _ _ (v - (i + k * 512) * sz l)); [left; nia|nia].
Qed.

Lemma slot_range v l base :
  0 ≤ base → (sz (S l) | base) → base ≤ v < base + sz (S l) →
  let i := pt_index v (Z.of_nat l) in 0 ≤ i < 512 ∧ base + i * sz l ≤ v < base + (i + 1) * sz l.
Proof.
  intros Hb Hd Hv. pose proof (sz_pos l) as Hp. rewrite sz_S in Hv. cbn zeta.
  assert (0 ≤ (v - base) / sz l < 512) as Hi.
  { split; [apply Z.div_pos; lia|]. apply Z.div_lt_upper_bound; lia. }
  rewrite (slot_of v l base ((v - base) / sz l)); [|done|done|done|].
  - split; [done|]. pose proof (Z.div_mod (v - base) (sz l) ltac:(lia)).
    pose proof (Z.mod_pos_bound (v - base) (sz l) Hp). nia.
  - pose proof (Z.div_mod (v - base) (sz l) ltac:(lia)).
    pose proof (Z.mod_pos_bound (v - base) (sz l) Hp). nia.
Qed.

(** ** Trees *)

(** The element of the small page of an address: that of the leaf, or the one the
    large page would be split into. *)
Fixpoint eff (lvl : nat) (n : node) (v : Z) : Z :=
  match lvl with
  | O => word n
  | S l =>
      if empty (word n) then 0
      else if large lvl (word n) then small_of (word n) (pt_index v (Z.of_nat l))
      else match table n !! Z.to_nat (pt_index v (Z.of_nat l)) with Some k => eff l k v | None => 0 end
  end.

Record inter (lvl : nat) (n : node) : Prop := {
  in_u64 : u64 (word n);
  in_valid : valid (word n) = true;
  in_large : large lvl (word n) = false;
  in_len : length (table n) = 512%nat;
}.

Fixpoint wfn (lvl : nat) (n : node) : Prop :=
  match lvl with
  | O => u64 (word n) ∧ table n = []
  | S l =>
      word n = 0 ∧ table n = [] ∨
      l = 0%nat ∧ large_ok (word n) ∧ table n = [] ∨
      inter lvl n ∧ Forall (wfn l) (table n)
  end.

(** The frames of a tree: the pages of its leaves and its tables. *)
Fixpoint frames (lvl : nat) (n : node) : list (Z * Z) :=
  if empty (word n) then []
  else
    match lvl with
    | O => [(addr 0 (word n), page_size)]
    | S l =>
        if large lvl (word n) then [(addr lvl (word n), huge_page_size)]
        else (addr lvl (word n), page_size) :: (table n ≫= frames l)
    end.

Lemma inter_nonempty lvl n : inter lvl n → empty (word n) = false.
Proof.
  intros Hn. apply Z.eqb_neq. intros Hz. pose proof (in_valid _ _ Hn) as Hv. by rewrite Hz in Hv.
Qed.

Lemma large_ok_facts x : large_ok x → empty x = false ∧ large 1 x = true ∧ valid x = true.
Proof.
  intros Hx. split_and!.
  - apply Z.eqb_neq. intros ->. by pose proof (lo_valid _ Hx).
  - by rewrite large_bit, (lo_large _ Hx).
  - by rewrite valid_bit, (lo_valid _ Hx).
Qed.

Lemma eff_inter l n v k :
  inter (S l) n → table n !! Z.to_nat (pt_index v (Z.of_nat l)) = Some k → eff (S l) n v = eff l k v.
Proof.
  intros Hn Hk. cbn [eff]. rewrite (inter_nonempty _ _ Hn), (in_large _ _ Hn). by rewrite Hk.
Qed.

Lemma frames_inter l n : inter (S l) n → frames (S l) n = (addr (S l) (word n), page_size) :: (table n ≫= frames l).
Proof. intros Hn. cbn [frames]. by rewrite (inter_nonempty _ _ Hn), (in_large _ _ Hn). Qed.

Lemma bind_slot {A B} (f : A → list B) (l : list A) i x :
  l !! i = Some x → l ≫= f ≡ₚ f x ++ ((take i l ++ drop (S i) l) ≫= f).
Proof.
  intros Hi. rewrite <- (take_drop_middle l i x Hi) at 1. rewrite !bind_app, bind_cons.
  rewrite !(assoc_L (++)). apply Permutation_app_tail, Permutation_app_comm.
Qed.

Lemma bind_slot_insert {A B} (f : A → list B) (l : list A) i x y :
  l !! i = Some x → <[i := y]> l ≫= f ≡ₚ f y ++ ((take i l ++ drop (S i) l) ≫= f).
Proof.
  intros Hi. assert (i < length l)%nat by (by eapply lookup_lt_Some).
  rewrite (bind_slot f _ i y) by (by apply list_lookup_insert_eq).
  by rewrite take_insert_ge, drop_insert_lt by lia.
Qed.

(** ** The walk *)

Lemma clamp_page v w a b :
  (page_size | v) → (page_size | w) → 0 ≤ v < 2 ^ 48 → 0 < w < 2 ^ 48 →
  clamp v (w - 1) a b page_size = (Z.max v a, Z.min (w - 1) b).
Proof.
  intros Hv [k Hk] Bv Bw. unfold clamp.
  assert (Z.land v (not64 (page_size - 1)) = v) as ->.
  { change (align_down v page_size = v). change page_size with (2 ^ 12) in *.
    apply align_down_id; [unfold u64; lia|lia|done]. }
  assert (Z.lor (w - 1) (page_size - 1) = w - 1) as ->; [|done].
  assert (w - 1 = Z.lor (Z.shiftl (k - 1) 12) (Z.ones 12)) as ->.
  { rewrite <- Z.lxor_lor, <- Z.add_nocarry_lxor.
    - rewrite Z.shiftl_mul_pow2 by lia. change (Z.ones 12) with 4095. change page_size with 4096 in Hk. lia.
    - rewrite Z.land_ones, Z.shiftl_mul_pow2 by lia. apply Z.mod_mul. lia.
    - rewrite Z.land_ones, Z.shiftl_mul_pow2 by lia. apply Z.mod_mul. lia. }
  change (page_size - 1) with (Z.ones 12). by rewrite <- Z.lor_assoc, Z.lor_diag.
Qed.

Section Walk.
Context (im : image) {F : Type} `{!Frames im F}.
Context (op : page_op (F := F)) (vma_start lo hi : Z).

(** What the operation does to the element of a page, which may depend on the state
    it leaves as long as later states agree; the invariant of its state while it
    walks, and what may be said if it waits or ends the machine. *)
Context (Rel : wst (F := F) → Z → Z → Z → Prop) (later : wst (F := F) → wst (F := F) → Prop).
Context (I : list (Z * Z) → wst (F := F) → Prop) (W : wst (F := F) → Prop) (X : Prop).

Definition handled (s : wst (F := F)) (lvl : nat) (n n' : node) (base a b : Z) : Prop :=
  ∀ v, base ≤ v < base + sz lvl →
    if decide (a ≤ v < b) then Rel s v (eff lvl n v) (eff lvl n' v) else eff lvl n' v = eff lvl n v.

Record op_ok : Prop := {
  ok_sizes : (1 ≤ nr_page_sizes op ≤ 2)%nat;
  ok_once : once op = false;
  ok_split : split_large op = true;
  ok_refl s : later s s;
  ok_trans s s' s'' : later s s' → later s' s'' → later s s'';
  ok_later s s' v x y : later s s' → Rel s v x y → Rel s' v x y;
  ok_perm fs fs' s : fs ≡ₚ fs' → I fs s → I fs' s;
  ok_alloc fs s : I fs s →
    wp (allocate_table im) s
      (λ pa s', 0 ≤ pa < 2 ^ 44 ∧ (page_size | pa) ∧ I ((pa, page_size) :: fs) s' ∧ later s s') W X;
  ok_pieces fs s a : I ((a, huge_page_size) :: fs) s → I (small_pieces a ++ fs) s;
  ok_empty : allocate_intermediate op = false ∨ skip_empty op = true → ∀ s v, Rel s v 0 0;
  ok_page N n base fs s : (N < nr_page_sizes op)%nat → wfn N n →
    (N = 1%nat → inter 1 n → descend op = false) → (skip_empty op = true → empty (word n) = false) →
    (sz N | base) → lo ≤ base → base + sz N ≤ hi → I (frames N n ++ fs) s →
    wp (op_page op N n (wrap64 (base - vma_start))) s
      (λ r s', wfn N r.2 ∧ I (frames N r.2 ++ fs) s' ∧ later s s' ∧
         if r.1 || (N =? 0)%nat then ∀ v, base ≤ v < base + sz N → Rel s' v (eff N n v) (eff N r.2 v)
         else r.2 = n ∧ allocate_intermediate op = true) W X;
  ok_pre fs s : I fs s → wp (op_pre op) s (λ _ s', I fs s' ∧ later s s') W X;
  ok_post n old base fs s : inter 1 n → wfn 1 n → lo ≤ base → base + sz 1 ≤ hi → (sz 1 | base) →
    (∀ v, base ≤ v < base + sz 1 → Rel s v (old v) (eff 1 n v)) → I (frames 1 n ++ fs) s →
    wp (op_post op n) s
      (λ n' s', wfn 1 n' ∧ I (frames 1 n' ++ fs) s' ∧ later s s' ∧
         ∀ v, base ≤ v < base + sz 1 → Rel s' v (old v) (eff 1 n' v)) W X;
}.
Context (Hop : op_ok).
Context (Hlohi : 0 ≤ lo ∧ lo < hi ∧ hi ≤ 2 ^ 47) (Plo : (page_size | lo)) (Phi : (page_size | hi)).

(** The parts of the range the walk is in. *)
Record part_of (lvl : nat) (base a b : Z) : Prop := {
  po_base : 0 ≤ base;
  po_div : (sz lvl | base);
  po_a : base ≤ a;
  po_b : b ≤ base + sz lvl;
  po_lt : a < b;
  po_lo : lo ≤ a;
  po_hi : b ≤ hi;
  po_pa : (page_size | a);
  po_pb : (page_size | b);
}.

Definition walk_spec (lvl : nat) (m : node → Z → Z → Z → prog (wst (F := F)) node) : Prop :=
  ∀ n base a b fs s, part_of lvl base a b → wfn lvl n →
    (lvl = 0%nat → False) → I (frames lvl n ++ fs) s →
    wp (m n base a (b - a)) s
      (λ n' s', wfn lvl n' ∧ I (frames lvl n' ++ fs) s' ∧ later s s' ∧ handled s' lvl n n' base a b ∧
         (inter lvl n' ∨ n' = n ∧ allocate_intermediate op = false)) W X.

Lemma eff_empty lvl n v : word n = 0 → eff lvl n v = 0.
Proof using Type. intros Hn. destruct lvl; cbn [eff]; by rewrite Hn. Qed.

Lemma handled_later s s' l n n' base a b : later s s' → handled s l n n' base a b → handled s' l n n' base a b.
Proof using Hop.
  intros Hl H v Hv. specialize (H v Hv). case_decide; [|done]. by eapply (ok_later Hop).
Qed.

Lemma handled_clip s l n n' base a b :
  handled s l n n' base (Z.max a base) (Z.min b (base + sz l)) → handled s l n n' base a b.
Proof using Type.
  intros H v Hv. specialize (H v Hv). destruct (decide (a ≤ v < b)).
  - by rewrite decide_True in H by lia.
  - by rewrite decide_False in H by lia.
Qed.

Lemma handled_all s l n n' base a b :
  a ≤ base → base + sz l ≤ b → (∀ v, base ≤ v < base + sz l → Rel s v (eff l n v) (eff l n' v)) →
  handled s l n n' base a b.
Proof using Type. intros Ha Hb H v Hv. rewrite decide_True by lia. by apply H. Qed.

Lemma wfn_inter l n :
  wfn (S l) n → empty (word n) = false → large (S l) (word n) = false → inter (S l) n.
Proof using Type.
  intros [[Hz _]|[(-> & Hl & _)|[Hi _]]] He Hla; [by rewrite Hz in He| |done].
  destruct (large_ok_facts _ Hl) as (_ & H & _). congruence.
Qed.

(** A huge page that is covered by small ones. *)
Lemma intermediate_spec below n base fs s :
  walk_spec 1 below → 0 ≤ base → (sz 1 | base) → lo ≤ base → base + sz 1 ≤ hi → wfn 1 n →
  inter 1 n ∨ allocate_intermediate op = true → I (frames 1 n ++ fs) s →
  wp (bind (op_pre op) (λ _, bind (below n base base (sz 1)) (λ p, op_post op p))) s
    (λ n' s', wfn 1 n' ∧ I (frames 1 n' ++ fs) s' ∧ later s s' ∧
       ∀ v, base ≤ v < base + sz 1 → Rel s' v (eff 1 n v) (eff 1 n' v)) W X.
Proof using All.
  intros Hb H0 Hd Hlo Hhi Hn Hc HI. apply wp_bind.
  eapply wp_mono; [by apply (ok_pre Hop)| |done|done]. cbn. intros _ s1 [HI1 L1]. apply wp_bind.
  pose proof (sz_pos 1) as Hp.
  replace (sz 1) with (base + sz 1 - base) at 1 by lia.
  assert ((page_size | sz 1)) as Hps by (by exists 512).
  assert ((page_size | base)) as Hpb by (etrans; [exact Hps|done]).
  eapply wp_mono; [apply (Hb n base base (base + sz 1) fs); [|done|lia|done]| |done|done].
  - split; try done; try lia. by apply Z.divide_add_r.
  - cbn. intros n1 s2 (Hn1 & HI2 & L2 & Hh & Hi).
    assert (∀ v, base ≤ v < base + sz 1 → Rel s2 v (eff 1 n v) (eff 1 n1 v)) as Hr.
    { intros v Hv. specialize (Hh v Hv). by rewrite decide_True in Hh by lia. }
    assert (inter 1 n1) as Hi1.
    { destruct Hi as [Hi|[-> Ha]]; [done|]. destruct Hc as [Hc|Hc]; [done|congruence]. }
    eapply wp_mono; [by apply (ok_post Hop n1 (eff 1 n) base fs)| |done|done]. cbn beta. intros n2 s3 (? & ? & L3 & ?).
    split_and!; [done|done| |done]. eapply (ok_trans Hop); [exact L1|]. by eapply (ok_trans Hop).
Qed.

(** A slot that lies in the range. *)
Lemma visit_full below l n base fs s Q :
  (l < nr_page_sizes op)%nat → (∀ l', l = S l' → walk_spec l below) → 0 ≤ base → (sz l | base) →
  lo ≤ base → base + sz l ≤ hi → wfn l n → I (frames l n ++ fs) s →
  (∀ n' s', wfn l n' ∧ I (frames l n' ++ fs) s' ∧ later s s' ∧
     (∀ v, base ≤ v < base + sz l → Rel s' v (eff l n v) (eff l n' v)) → Q n' s') →
  wp (if skip_empty op && empty (word n) then ret n
      else if (l =? 0)%nat then bind (if leaf_capable l then op_page op l n (wrap64 (base - vma_start)) else fault) (λ r, ret r.2)
      else
        if descend op && negb (empty (word n)) && negb (large l (word n))
        then bind (if large_capable l then op_pre op else ret tt)
               (λ _, bind (below n base base (sz l)) (λ p, if large_capable l then op_post op p else ret p))
        else bind (if leaf_capable l then op_page op l n (wrap64 (base - vma_start)) else fault)
               (λ r, if r.1 : bool then ret r.2
                     else bind (if large_capable l then op_pre op else ret tt)
                            (λ _, bind (below r.2 base base (sz l)) (λ p, if large_capable l then op_post op p else ret p)))) s
    Q W X.
Proof using All.
  intros Hnr Hbelow H0 Hd Hlo Hhi Hn HI HQ. destruct (ok_sizes Hop) as [_ Hs2].
  destruct (skip_empty op && empty (word n)) eqn:Hskip.
  { apply andb_true_iff in Hskip as [Hsk He%Z.eqb_eq]. unfold wp, ret. apply HQ. split_and!; [done|done|by apply (ok_refl Hop)|].
    intros v _. rewrite (eff_empty l n v He). apply (ok_empty Hop). by right. }
  assert (skip_empty op = true → empty (word n) = false) as Hne.
  { intros Hsk. by rewrite Hsk in Hskip. }
  assert ((l = 1%nat → inter 1 n → descend op = false) →
    wp (op_page op l n (wrap64 (base - vma_start))) s
      (λ r s', wfn l r.2 ∧ I (frames l r.2 ++ fs) s' ∧ later s s' ∧
         if r.1 || (l =? 0)%nat then ∀ v, base ≤ v < base + sz l → Rel s' v (eff l n v) (eff l r.2 v)
         else r.2 = n ∧ allocate_intermediate op = true) W X) as Hpage.
  { intros Hnd. by apply (ok_page Hop). }
  destruct l as [|[|l]]; [| |lia]; cbn [Nat.eqb leaf_capable large_capable orb].
  - apply wp_bind. eapply wp_mono; [apply Hpage; lia| |done|done]. cbn. intros [b n'] s' (Hn' & HI' & L' & Hr). rewrite orb_true_r in Hr. by apply HQ.
  - specialize (Hbelow 0%nat eq_refl).
    destruct (descend op && negb (empty (word n)) && negb (large 1 (word n))) eqn:Hdesc.
    + apply andb_true_iff in Hdesc as [[_ He%negb_true_iff]%andb_true_iff Hl%negb_true_iff].
      eapply wp_mono; [apply intermediate_spec; [done|done|done|done|done|done| |done]|exact HQ|done|done].
      left. by apply wfn_inter.
    + apply wp_bind. eapply wp_mono; [apply Hpage| |done|done].
      * intros _ Hi. rewrite (inter_nonempty _ _ Hi), (in_large _ _ Hi) in Hdesc. by destruct (descend op).
      * cbn. intros [[] n'] s' (Hn' & HI' & L' & Hr); cbn in *.
        { by apply HQ. }
        destruct Hr as (-> & Hal).
        eapply wp_mono; [apply intermediate_spec; [done|done|done|done|done|done|by right|done]| |done|done].
        intros n2 s2 (? & ? & ? & ?). apply HQ. split_and!; [done|done|by eapply (ok_trans Hop)|done].
Qed.

Lemma visit_spec below l n base a b fs s :
  (l ≤ 3)%nat → (∀ l', l = S l' → walk_spec l below) →
  0 ≤ base → (sz l | base) → lo ≤ a < b → b ≤ hi → (page_size | a) → (page_size | b) →
  a < base + sz l → base < b → wfn l n → I (frames l n ++ fs) s →
  wp (visit op vma_start page_size below l a (b - 1) n base) s
    (λ n' s', wfn l n' ∧ I (frames l n' ++ fs) s' ∧ later s s' ∧ handled s' l n n' base a b) W X.
Proof using All.
  intros Hl Hbelow H0 Hd Ha Hb Pa Pb Hov1 Hov2 Hn HI.
  pose proof (sz_le l Hl) as Hsz.
  pose proof (sz_pos l) as Hp. unfold visit, page_at, intermediate_page_pre, intermediate_page_post. fold (sz l).
  rewrite (wrap64_small (base + sz l - 1)) by (unfold u64; lia).
  rewrite clamp_page by (done || lia).
  replace (Z.min (b - 1) (base + sz l - 1)) with (Z.min b (base + sz l) - 1) by lia.
  replace (Z.min b (base + sz l) - 1 - Z.max a base + 1) with (Z.min b (base + sz l) - Z.max a base) by lia.
  rewrite (wrap64_small (Z.min b (base + sz l) - Z.max a base)) by (unfold u64; lia).
  destruct ((l <? nr_page_sizes op)%nat && (Z.max a base =? base) && (Z.min b (base + sz l) - 1 =? base + sz l - 1)) eqn:Hfull.
  - (* the whole slot *)
    apply andb_true_iff in Hfull as [[Hnr%Nat.ltb_lt Hf1%Z.eqb_eq]%andb_true_iff Hf2%Z.eqb_eq].
    rewrite Hf1. replace (Z.min b (base + sz l) - base) with (sz l) by lia.
    apply (visit_full below l n base fs); [done|done|done|done|lia|lia|done|done|].
    intros n' s' (? & ? & ? & ?). split_and!; [done|done|done|]. apply handled_all; (done || lia).
  - (* a part of it *)
    destruct l as [|l].
    { exfalso. destruct (ok_sizes Hop) as [Hs _]. rewrite (proj2 (Nat.ltb_lt 0 _)) in Hfull by lia.
      destruct Pa as [pa Hpa], Pb as [pb Hpb], Hd as [pd Hpd]. change (sz 0) with 4096 in *.
      change page_size with 4096 in *. cbn [andb] in Hfull. lia. }
    eapply wp_mono; [apply (Hbelow l eq_refl n base (Z.max a base) (Z.min b (base + sz (S l))) fs)| |done|done]; try done.
    + assert ((page_size | base)) as Hpb by (etrans; [|exact Hd]; apply sz_page).
      assert ((page_size | base + sz (S l))) as Hpe by (apply Z.divide_add_r; [done|apply sz_page]).
      split; try done; try lia.
      * destruct (Z.max_spec a base) as [[_ ->]|[_ ->]]; done.
      * destruct (Z.min_spec b (base + sz (S l))) as [[_ ->]|[_ ->]]; done.
    + cbn. intros n' s' (? & ? & ? & ? & _). split_and!; [done|done|done|]. by apply handled_clip.
Qed.

Lemma handled_outside s l n base a b :
  base + sz l ≤ a ∨ b ≤ base → handled s l n n base a b.
Proof using Type. intros H v Hv. by rewrite decide_False by lia. Qed.

(** The slots from [idx] on are handled, the others are left alone. *)
Definition slots_done (s : wst (F := F)) (l : nat) (pb a b : Z) (idx : nat) (kids kids' : list node) : Prop :=
  length kids' = 512%nat ∧ Forall (wfn l) kids' ∧ (∀ j, (j < idx)%nat → kids' !! j = kids !! j) ∧
  ∀ j k k', (idx ≤ j)%nat → kids !! j = Some k → kids' !! j = Some k' →
    handled s l k k' (pb + Z.of_nat j * sz l) a b.

Lemma slots_loop_spec below l pb a b eidx :
  (l ≤ 3)%nat → (∀ l', l = S l' → walk_spec l below) →
  0 ≤ pb → (sz (S l) | pb) → lo ≤ a < b → b ≤ hi → (page_size | a) → (page_size | b) →
  0 ≤ eidx < 512 → pb + eidx * sz l < b ≤ pb + (eidx + 1) * sz l →
  ∀ fuel idx kids fs s,
  (Z.to_nat (eidx - idx) < fuel)%nat → 0 ≤ idx ≤ eidx → a < pb + (idx + 1) * sz l →
  length kids = 512%nat → Forall (wfn l) kids → I ((kids ≫= frames l) ++ fs) s →
  wp (slots_loop op vma_start page_size below l fuel a (b - 1) idx eidx (pb + idx * sz l) kids) s
    (λ kids' s', slots_done s' l pb a b (Z.to_nat idx) kids kids' ∧ later s s' ∧ I ((kids' ≫= frames l) ++ fs) s') W X.
Proof using All.
  intros Hl Hbelow H0 Hd Ha Hb Pa Pb He Heb. pose proof (sz_pos l) as Hp. pose proof (sz_le l Hl) as Hle.
  assert (∀ i, (sz l | pb + i * sz l)) as Hdiv.
  { intros i. apply Z.divide_add_r; [|apply Z.divide_factor_r]. etrans; [|exact Hd]. rewrite sz_S. apply Z.divide_factor_r. }
  induction fuel as [|fuel IH]; intros idx kids fs s Hf Hi Hai Hlen Hwf HI; [lia|]. cbn [slots_loop].
  destruct (lookup_lt_is_Some_2 kids (Z.to_nat idx)) as [k Hk]; [lia|]. rewrite Hk. apply wp_bind.
  pose proof (Forall_lookup_1 _ _ _ _ Hwf Hk) as Hkw.
  assert (I (frames l k ++ (((take (Z.to_nat idx) kids ++ drop (S (Z.to_nat idx)) kids) ≫= frames l) ++ fs)) s) as HI0.
  { eapply (ok_perm Hop); [|exact HI]. rewrite (bind_slot _ _ _ _ Hk). by rewrite (assoc_L (++)). }
  pose proof (Z.mul_le_mono_nonneg_r 0 idx (sz l) ltac:(lia) ltac:(lia)) as Hm0.
  pose proof (Z.mul_le_mono_nonneg_r idx eidx (sz l) ltac:(lia) ltac:(lia)) as Hm1.
  assert (0 ≤ pb + idx * sz l) as Hb0 by lia.
  assert (a < pb + idx * sz l + sz l) as Hb1 by lia.
  assert (pb + idx * sz l < b) as Hb2 by lia.
  eapply wp_mono; [exact (visit_spec below l k (pb + idx * sz l) a b _ s Hl Hbelow Hb0 (Hdiv idx) Ha Hb Pa Pb Hb1 Hb2 Hkw HI0)| |
    intros ? H; exact H|intros H; exact H].
  cbn beta. intros n' s' (Hn' & HI' & L' & Hh).
  set (kids1 := <[Z.to_nat idx := n']> kids).
  assert (I ((kids1 ≫= frames l) ++ fs) s') as HI1.
  { eapply (ok_perm Hop); [|exact HI']. unfold kids1. rewrite (bind_slot_insert _ _ _ _ _ Hk). by rewrite (assoc_L (++)). }
  assert (length kids1 = 512%nat) as Hlen1 by (unfold kids1; by rewrite length_insert).
  assert (Forall (wfn l) kids1) as Hwf1 by (by apply Forall_insert).
  assert (kids1 !! Z.to_nat idx = Some n') as Hk1 by (apply list_lookup_insert_eq; lia).
  assert (∀ j, j ≠ Z.to_nat idx → kids1 !! j = kids !! j) as Hne by (intros; by apply list_lookup_insert_ne).
  assert (Z.of_nat (Z.to_nat idx) = idx) as Eidx by lia.
  fold (sz l). rewrite (ok_once Hop). cbn [negb andb].
  destruct (Z.leb_spec (idx + 1) eidx).
  - rewrite wrap64_small by (unfold u64; lia).
    replace (pb + idx * sz l + sz l) with (pb + (idx + 1) * sz l) by lia.
    eapply wp_mono; [apply (IH (idx + 1) kids1 fs s'); [lia|lia|lia|exact Hlen1|exact Hwf1|exact HI1]| |
      intros ? H'; exact H'|intros H'; exact H'].
    cbn beta. intros kids2 s2 [(L2 & W2 & Hlow & Hhigh) [L3 HI2]]. split; [|split; [by eapply (ok_trans Hop)|done]]. split_and!; [done|done| |].
    + intros j Hj. rewrite Hlow by lia. apply Hne. lia.
    + intros j k0 k' Hj Hk0 Hk'. destruct (decide (j = Z.to_nat idx)) as [->|Hji].
      * rewrite Hlow, Hk1 in Hk' by lia. rewrite Hk in Hk0. simplify_eq. rewrite Eidx. by eapply handled_later.
      * apply Hhigh; [lia| |done]. by rewrite Hne.
  - unfold wp, ret. split; [|done]. split_and!; [done|done| |].
    + intros j Hj. apply Hne. lia.
    + intros j k0 k' Hj Hk0 Hk'. destruct (decide (j = Z.to_nat idx)) as [->|Hji].
      * rewrite Hk1 in Hk'. rewrite Hk in Hk0. simplify_eq. by rewrite Eidx.
      * rewrite Hne in Hk' by done. simplify_eq. apply handled_outside. right.
        pose proof (Z.mul_le_mono_nonneg_r (eidx + 1) (Z.of_nat j) (sz l) ltac:(lia) ltac:(lia)). lia.
Qed.

Lemma new_table_ok l pa :
  0 ≤ pa < 2 ^ 44 → (page_size | pa) →
  let n := Node (make_intermediate_pte (S l) pa) (replicate 512 empty_node) in
  inter (S l) n ∧ wfn (S l) n ∧ frames (S l) n = [(pa, page_size)] ∧ ∀ v, eff (S l) n v = 0.
Proof using Type.
  intros Hp Hd. change page_size with (2 ^ 12) in *.
  destruct (make_intermediate_ok (S l) pa) as (Hu & Hv & Hl & Ha); [lia|done|].
  set (n := Node _ _).
  assert (inter (S l) n) as Hi by (split; try done; apply length_replicate). cbn zeta. split_and!; [done| | |].
  - right. right. split; [done|]. apply Forall_replicate. destruct l; [by split; [unfold u64|]|by left].
  - rewrite frames_inter by done. cbn [word n table]. rewrite Ha. f_equal.
    generalize 512%nat. intros m. induction m as [|m IH]; [done|]. cbn [replicate]. rewrite bind_cons, IH.
    by destruct l.
  - intros v. cbn [eff]. rewrite (inter_nonempty _ _ Hi), (in_large _ _ Hi). cbn [table n].
    destruct (_ !! _) as [k|] eqn:Ek; [|done]. apply lookup_replicate in Ek as [-> _]. by apply eff_empty.
Qed.

Lemma split_table_ok x pa :
  large_ok x → 0 ≤ pa < 2 ^ 44 → (page_size | pa) →
  let n := Node (make_intermediate_pte 1 pa) ((λ i, Node (split_pte (set_large false x) i) []) <$> seqZ 0 512) in
  inter 1 n ∧ wfn 1 n ∧ frames 1 n = (pa, page_size) :: small_pieces (addr 1 x) ∧
  ∀ v, 0 ≤ v → eff 1 n v = small_of x (pt_index v 0).
Proof using Type.
  intros Hx Hp Hd. change page_size with (2 ^ 12) in *.
  destruct (make_intermediate_ok 1 pa) as (Hu & Hv & Hl & Ha); [lia|done|].
  set (n := Node _ _).
  assert (inter 1 n) as Hi by (split; try done; cbn [table n]; by rewrite length_fmap, length_seqZ).
  pose proof (small_of_nonempty x) as Hne.
  cbn zeta. split_and!; [done| | |].
  - right. right. split; [done|]. cbn [table n]. apply Forall_fmap, Forall_forall. intros i Hi'%elem_of_seqZ.
    split; [|done]. apply small_of_u64; [done|lia].
  - rewrite frames_inter by done. cbn [word n table]. rewrite Ha. f_equal. unfold small_pieces.
    assert (∀ l : list Z, (∀ i, i ∈ l → 0 ≤ i < 512) →
      ((λ i, Node (split_pte (set_large false x) i) []) <$> l) ≫= frames 0
      = ((λ i, (addr 1 x + i * page_size, page_size)) <$> l)) as Hmap.
    { intros l. induction l as [|i l IH]; intros Hin; [done|]. rewrite !fmap_cons, bind_cons, IH by (intros; apply Hin; elem).
      cbn [frames word]. fold (small_of x i). specialize (Hin i ltac:(elem)).
      rewrite Hne, small_of_addr by done. done. }
    apply Hmap. intros i Hi'%elem_of_seqZ. lia.
  - intros v Hv'. cbn [eff]. rewrite (inter_nonempty _ _ Hi), (in_large _ _ Hi). cbn [table n].
    pose proof (pt_index_bound v 0 ltac:(lia)) as Hidx.
    change (Z.of_nat 0) with 0. rewrite list_lookup_fmap, lookup_seqZ_lt by lia. cbn. by rewrite Z2Nat.id by lia.
Qed.

Lemma enter_spec l n fs s :
  wfn (S l) n → I (frames (S l) n ++ fs) s →
  wp (enter im op l n) s
    (λ r s', I (frames (S l) r.1 ++ fs) s' ∧ later s s' ∧ wfn (S l) r.1 ∧ (∀ v, 0 ≤ v → eff (S l) r.1 v = eff (S l) n v) ∧
       if r.2 then inter (S l) r.1 else r.1 = n ∧ word n = 0 ∧ allocate_intermediate op = false) W X.
Proof using Hop.
  intros Hn HI. unfold enter, sub_page. destruct Hn as [[Hz Ht]|[(-> & Hx & Ht)|[Hi Hk]]].
  - rewrite Hz. change (valid 0) with false. cbn [negb].
    destruct (allocate_intermediate op) eqn:Ha; cbn [negb].
    2:{ unfold wp, ret. cbn. split_and!; try done; [by apply (ok_refl Hop)|by left]. }
    apply wp_bind, wp_bind. eapply wp_mono; [apply (ok_alloc Hop), HI| |done|done].
    cbn beta. intros pa s1 (Hp & Hd & HI1 & L1). rewrite Hz. cbn [empty Z.eqb].
    destruct (new_table_ok l pa Hp Hd) as (Hi & Hw & Hf & He). unfold wp, ret, bind.
    cbn [fst snd]. split_and!; [|done|done| |done].
    + rewrite Hf. assert (frames (S l) n = []) as En by (cbn [frames]; by rewrite Hz). by rewrite En in HI1.
    + intros v _. rewrite He. symmetry. by apply eff_empty.
  - destruct (large_ok_facts _ Hx) as (Hne & Hla & Hva). rewrite Hva, Hla, (ok_split Hop). cbn [negb].
    apply wp_bind. unfold split_large_page, allocate_intermediate_split. apply wp_bind.
    assert (frames 1 n = [(addr 1 (word n), huge_page_size)]) as En by (cbn [frames]; by rewrite Hne, Hla).
    rewrite En in HI. cbn [app] in HI. apply (ok_pieces Hop) in HI.
    eapply wp_mono; [apply (ok_alloc Hop), HI| |done|done].
    cbn beta. intros pa s1 (Hp & Hd & HI1 & L1).
    destruct (split_table_ok (word n) pa Hx Hp Hd) as (Hi & Hw & Hf & He). unfold wp, ret, bind.
    cbn [fst snd]. split_and!; [|done|done| |done].
    + by rewrite Hf.
    + intros v Hv. rewrite He by done. cbn [eff]. by rewrite Hne, Hla.
  - rewrite (in_valid _ _ Hi), (in_large _ _ Hi). cbn [negb]. unfold wp, ret. cbn [fst snd].
    split_and!; try done; [by apply (ok_refl Hop)|right; by right].
Qed.

Lemma extend47_small v : 0 ≤ v < 2 ^ 47 → extend47 v = v.
Proof using Type.
  intros Hv. unfold extend47. rewrite Z.mod_small by lia. by rewrite (proj2 (Z.ltb_lt _ _)) by lia.
Qed.

(** The table of an element after its slots were handled. *)
Lemma table_handled s l n base a b kids :
  0 ≤ base → (sz (S l) | base) → base ≤ a → inter (S l) n → Forall (wfn l) (table n) →
  slots_done s l base a b (Z.to_nat (pt_index a (Z.of_nat l))) (table n) kids → a < base + sz (S l) →
  let n' := Node (word n) kids in
  inter (S l) n' ∧ wfn (S l) n' ∧ handled s (S l) n n' base a b.
Proof using Type.
  intros H0 Hd Ha Hi Hk (Hlen & Hwf & Hlow & Hhigh) Hab n'.
  assert (inter (S l) n') as Hi' by (destruct Hi; by split).
  split_and!; [done|right; by right|]. intros v Hv. pose proof (sz_pos l) as Hp.
  destruct (slot_range v l base H0 Hd Hv) as [Hj Hjv]. set (j := pt_index v (Z.of_nat l)) in *.
  destruct (slot_range a l base H0 Hd ltac:(lia)) as [Hja Hjav]. set (ja := pt_index a (Z.of_nat l)) in *.
  destruct (lookup_lt_is_Some_2 (table n) (Z.to_nat j)) as [k Ek]; [rewrite (in_len _ _ Hi); lia|].
  destruct (lookup_lt_is_Some_2 kids (Z.to_nat j)) as [k' Ek']; [lia|].
  rewrite (eff_inter l n v k Hi Ek), (eff_inter l n' v k' Hi' Ek').
  destruct (decide (Z.to_nat j < Z.to_nat ja)%nat) as [Hlt|Hge].
  - rewrite Hlow, Ek in Ek' by done. injection Ek' as <-. rewrite decide_False; [done|].
    pose proof (Z.mul_le_mono_nonneg_r (j + 1) ja (sz l) ltac:(lia) ltac:(lia)). lia.
  - specialize (Hhigh (Z.to_nat j) k k' ltac:(lia) Ek Ek' v). rewrite Z2Nat.id in Hhigh by lia. apply Hhigh. lia.
Qed.

Lemma level_spec l below n base a b fs s :
  (l ≤ 3)%nat → (∀ l', l = S l' → walk_spec l below) →
  part_of (S l) base a b → wfn (S l) n → I (frames (S l) n ++ fs) s →
  wp (bind (enter im op l n) (λ e,
        let '(parent, go) := e in
        if go : bool then
          match next_pt_addr (S l) (word parent) with
          | None => fault
          | Some _ =>
              bind (slots_loop op vma_start page_size below l 512 a (wrap64 (a + (b - a) - 1))
                      (pt_index a (Z.of_nat l)) (pt_index (wrap64 (a + (b - a) - 1)) (Z.of_nat l))
                      (extend47 (wrap64 (base + pt_index a (Z.of_nat l) * page_size_level (Z.of_nat l)))) (table parent))
                (λ kids, ret (Node (word parent) kids))
          end
        else ret parent)) s
    (λ n' s', wfn (S l) n' ∧ I (frames (S l) n' ++ fs) s' ∧ later s s' ∧ handled s' (S l) n n' base a b ∧
       (inter (S l) n' ∨ n' = n ∧ allocate_intermediate op = false)) W X.
Proof using All.
  intros Hl Hbelow Hpo Hn HI. destruct Hpo as [H0 Hd Ha Hb Hab Hlo Hhi Pa Pb].
  replace (a + (b - a) - 1) with (b - 1) by lia. rewrite (wrap64_small (b - 1)) by (unfold u64; lia).
  apply wp_bind. eapply wp_mono; [exact (enter_spec l n fs s Hn HI)| |intros ? Hx; exact Hx|intros Hx; exact Hx].
  cbn beta. intros [n1 go] s1 (HI1 & L1 & Hn1 & He1 & Hgo). cbn [fst snd] in *. destruct go.
  2:{ destruct Hgo as (-> & Hz & Hal). unfold wp, ret. split_and!; [done|done|done| |by right].
      intros v Hv. rewrite !(eff_empty _ n v Hz). case_decide; [apply (ok_empty Hop); by left|done]. }
  unfold next_pt_addr. rewrite (in_large _ _ Hgo).
  destruct (slot_range a l base H0 Hd ltac:(lia)) as [Hia Hiav].
  destruct (slot_range (b - 1) l base H0 Hd ltac:(lia)) as [Hib Hibv].
  set (idx := pt_index a (Z.of_nat l)) in *. set (eidx := pt_index (b - 1) (Z.of_nat l)) in *. fold (sz l).
  pose proof (sz_pos l) as Hp. pose proof (Z.mul_le_mono_nonneg_r 0 idx (sz l) ltac:(lia) ltac:(lia)) as Hm0.
  rewrite wrap64_small, extend47_small by (unfold u64; lia).
  assert (idx ≤ eidx) as Hie.
  { destruct (Z_lt_le_dec eidx idx); [|done].
    pose proof (Z.mul_le_mono_nonneg_r (eidx + 1) idx (sz l) ltac:(lia) ltac:(lia)). lia. }
  assert (Forall (wfn l) (table n1)) as Hwt.
  { destruct Hn1 as [[Hz _]|[(-> & Hx & _)|[_ Hk]]]; [..|done].
    - pose proof (inter_nonempty _ _ Hgo) as He. by rewrite Hz in He.
    - destruct (large_ok_facts _ Hx) as (_ & Hla & _). by rewrite (in_large _ _ Hgo) in Hla. }
  rewrite (frames_inter _ _ Hgo) in HI1.
  apply wp_bind. eapply wp_mono; [apply (slots_loop_spec below l base a b eidx Hl Hbelow H0 Hd) with
    (fs := (addr (S l) (word n1), page_size) :: fs)| |intros ? Hx; exact Hx|intros Hx; exact Hx].
  1-13: try done; try lia.
  - apply (in_len _ _ Hgo).
  - eapply (ok_perm Hop); [|exact HI1]. cbn [app]. apply Permutation_middle.
  - cbn beta. intros kids s2 [Hsd [L2 HI2]]. unfold wp, ret.
    destruct (table_handled s2 l n1 base a b kids H0 Hd Ha Hgo Hwt Hsd ltac:(lia)) as (Hi' & Hw' & Hh').
    split_and!; [done| |by eapply (ok_trans Hop)| |by left].
    + rewrite (frames_inter _ _ Hi'). cbn [word table]. eapply (ok_perm Hop); [|exact HI2].
      symmetry. apply Permutation_middle.
    + intros v Hv. specialize (Hh' v Hv). rewrite (He1 v) in Hh' by lia. done.
Qed.

Lemma map_level_spec l : (l ≤ 3)%nat → walk_spec (S l) (map_level im op vma_start page_size l).
Proof using All.
  induction l as [|l IH]; intros Hl n base a b fs s Hpo Hn _ HI.
  - exact (level_spec 0 (λ p _ _ _, ret p) n base a b fs s Hl ltac:(intros; lia) Hpo Hn HI).
  - refine (level_spec (S l) (map_level im op vma_start page_size l) n base a b fs s Hl _ Hpo Hn HI).
    intros l' [= <-]. apply IH. lia.
Qed.

(** The walk of a range: exactly the pages of the range are handled. *)
Lemma map_range_spec n fs s :
  wfn 4 n → I (frames 4 n ++ fs) s →
  wp (map_range im op vma_start page_size n lo (hi - lo)) s
    (λ n' s', wfn 4 n' ∧ I (frames 4 n' ++ fs) s' ∧
       ∀ v, 0 ≤ v < 2 ^ 48 →
         if decide (lo ≤ v < hi) then Rel s' v (eff 4 n v) (eff 4 n' v) else eff 4 n' v = eff 4 n v) W X.
Proof using All.
  intros Hn HI. eapply wp_mono; [apply (map_level_spec 3); [lia| |exact Hn|lia|exact HI]| |intros ? Hx; exact Hx|intros Hx; exact Hx].
  - split; try done; try lia; [apply Z.divide_0_r|]. change (sz 4) with (2 ^ 48). lia.
  - cbn beta. intros n' s' (? & ? & _ & Hh & _). split_and!; done.
Qed.
End Walk.
