(* ===== verification/PageOps.v ===== *)
(** * Page table operations

    What mapping, protecting, populating and unpopulating a range do to the
    translation of every address, and that the frames of the page table, those
    waiting for a TLB flush and those waiting for a grace period are exactly the
    ones taken from the allocator. *)
From S2P Require Import Prelude Bits MemArea Pte PageTable PageTableSpec.
Import Pte PageTable.

(** The translation the hardware makes. *)
Definition translate (root : node) (v : Z) : option Z :=
  let x := eff 4 root v in
  if valid x then Some (addr 0 x + v mod page_size) else None.

Lemma page_of v base : (page_size | base) → base ≤ v < base + page_size → v - v mod page_size = base.
Proof.
  intros [k ->] Hb. change page_size with 4096 in *. rewrite (Z.mod_eq v) by lia.
  assert (v / 4096 = k) as ->; [|lia]. symmetry. apply (Z.div_unique _ _ _ (v - k * 4096)); lia.
Qed.

Section Ops.
Context (im : image) (Him : image_ok im) {F : Type} `{!Frames im F}.
Local Notation wst := (wst (F := F)).

(** The frames an operation holds outside of the page table. *)
Definition pending (s : wst) : list (Z * Z) :=
  ((λ p, (p.1 - phys_mem, p.2)) <$> gather s) ++ ((λ v, (v - phys_mem, page_size)) <$> deferred s).

Definition owned (fs : list (Z * Z)) (s : wst) : Prop := fr_inv (fr s) (fs ++ pending s).

(** The allocator has no page. *)
Definition out_of_pages (s : wst) : Prop := fr_out (fr s).

Lemma owned_perm fs fs' s : fs ≡ₚ fs' → owned fs s → owned fs' s.
Proof using Type. intros Hp. unfold owned. apply fr_perm. by rewrite Hp. Qed.

Lemma owned_frame fs s pa size : owned ((pa, size) :: fs) s → frame_ok im (pa, size).
Proof using Type. intros H. destruct (fr_ok _ _ H) as [Hf _]. by apply Forall_cons in Hf as [Hf _]. Qed.

(** Once there is no page, there is none until the end. *)
Definition out_stays (s s' : wst) : Prop := out_of_pages s → out_of_pages s'.

(** A page from the allocator. *)
Lemma frame_page_spec s h :
  fr_inv (fr s) h →
  wp (lift fr_alloc_page) s
    (λ v s', pending s' = pending s ∧
       (v = 0 ∧ fr_inv (fr s') h ∧ out_of_pages s' ∨
        v ≠ 0 ∧ in_area main v ∧ fr_inv (fr s') ((v - phys_mem, page_size) :: h) ∧ ¬ out_of_pages s))
    out_of_pages False.
Proof using Type.
  intros H. pose proof (fr_alloc_page_spec _ _ H) as Hs. pose proof (fr_out_page _ _ H) as Ho. unfold wp, lift, out_of_pages in *.
  destruct (fr_alloc_page (fr s)) as [v f'|f'|]; [|done|done]. split; [done|].
  destruct Hs as [?|(Hv & ? & ?)]; [by left|right]. split_and!; [done..|]. intros Hout. by destruct (Ho Hout).
Qed.

Lemma to_phys_main v s : in_area main v → to_phys (F := F) im v s = Ret (v - phys_mem) s.
Proof using Him. intros Hv. unfold to_phys. by rewrite virt_to_phys_main. Qed.

Lemma allocate_table_spec s h :
  fr_inv (fr s) h →
  wp (allocate_table im) s
    (λ pa s', 0 ≤ pa < 2 ^ 44 ∧ (page_size | pa) ∧ fr_inv (fr s') ((pa, page_size) :: h) ∧ pending s' = pending s ∧ ¬ out_of_pages s)
    out_of_pages False.
Proof using Him.
  intros H. apply wp_bind. eapply wp_mono; [by apply frame_page_spec| |done|done].
  cbn beta. intros v s' (Hp & [(-> & _ & Hout)|(Hv0 & Hv & Ho & Hno)]); [done|].
  rewrite (proj2 (Z.eqb_neq _ _)) by done. unfold wp. rewrite to_phys_main by done.
  destruct (fr_ok _ _ Ho) as [Hf _]. apply Forall_cons in Hf as [(Hd & _ & H0 & H1 & _) _]. cbn in *.
  rewrite mem_area_size_eq in H1. change page_size with 4096 in *. split_and!; (done || lia).
Qed.

Lemma owned_table fs s :
  owned fs s →
  wp (allocate_table im) s
    (λ pa s', 0 ≤ pa < 2 ^ 44 ∧ (page_size | pa) ∧ owned ((pa, page_size) :: fs) s' ∧ out_stays s s') out_of_pages False.
Proof using Him.
  intros H. eapply wp_mono; [by apply allocate_table_spec| |done|done].
  cbn beta. intros pa s' (? & ? & Hi & Hp & Hno). split_and!; [lia..|done| |by intros ?]. unfold owned. by rewrite Hp.
Qed.

Lemma owned_pieces fs s a : owned ((a, huge_page_size) :: fs) s → owned (small_pieces a ++ fs) s.
Proof using Type.
  intros H. unfold owned in *. rewrite <- (assoc_L (++)). by apply fr_split.
Qed.

(** A leaf of a well-formed tree. *)
Lemma wfn_leaf N n :
  (N < 2)%nat → wfn N n → empty (word n) = false → ¬ (N = 1%nat ∧ inter 1 n) →
  table n = [] ∧ u64 (word n) ∧ (N = 1%nat → large_ok (word n)).
Proof using Type.
  intros HN Hn He Hi. destruct N as [|[|N]]; [| |lia].
  - destruct Hn as [? ?]. done.
  - destruct Hn as [[Hz _]|[(_ & Hl & Ht)|[Hi' _]]].
    + by rewrite Hz in He.
    + split_and!; [done|apply Hl|done].
    + exfalso. by apply Hi.
Qed.

Lemma frames_leaf N n :
  (N < 2)%nat → wfn N n → empty (word n) = false → ¬ (N = 1%nat ∧ inter 1 n) →
  frames N n = [(addr N (word n), sz N)].
Proof using Type.
  intros HN Hn He Hi. destruct (wfn_leaf N n HN Hn He Hi) as (Ht & Hu & Hl).
  destruct N as [|[|N]]; [| |lia]; cbn [frames]; rewrite He; [done|].
  destruct (large_ok_facts _ (Hl eq_refl)) as (_ & -> & _). done.
Qed.

Lemma eff_leaf_nonempty N n v :
  (N < 2)%nat → wfn N n → ¬ (N = 1%nat ∧ inter 1 n) → empty (word n) = false → empty (eff N n v) = false.
Proof using Type.
  intros HN Hn Hi He. destruct (wfn_leaf N n HN Hn He Hi) as (_ & _ & Hl).
  destruct N as [|[|N]]; [| |lia]; cbn [eff]; rewrite ?He; [done|].
  specialize (Hl eq_refl). destruct (large_ok_facts _ Hl) as (_ & -> & _).
  apply small_of_nonempty; [done|]. apply pt_index_bound. lia.
Qed.

(** The walk of [operate_range] and what follows it. *)
Definition after_walk (tlb_flush_needed : prog wst bool) (root : node) : prog wst (node * Z) :=
  bind tlb_flush_needed (λ b, bind (if b : bool then modify (flush_tlb_all (F := F)) else ret tt)
    (λ _, bind get (λ s, ret (root, total s)))).

Lemma operate_range_spec op tlb vma_start lo size Rel later I W X root s fs Q :
  op_ok im op vma_start lo (lo + size) Rel later I W X →
  0 ≤ lo → 0 < size → lo + size ≤ 2 ^ 47 → (page_size | lo) → (page_size | size) →
  wfn 4 root → I (frames 4 root ++ fs) s →
  (∀ root' s', wfn 4 root' → I (frames 4 root' ++ fs) s' →
     (∀ v, 0 ≤ v < 2 ^ 48 →
        if decide (lo ≤ v < lo + size) then Rel s' v (eff 4 root v) (eff 4 root' v) else eff 4 root' v = eff 4 root v) →
     wp (after_walk tlb root') s' Q W X) →
  wp (operate_range im op tlb root vma_start lo size) s Q W X.
Proof using Type.
  intros Hop Hlo Hsz Hhi Pl Ps Hw HI HQ. unfold operate_range.
  assert (align_down lo page_size = lo) as ->.
  { change page_size with (2 ^ 12) in *. apply align_down_id; [unfold u64; lia|lia|done]. }
  assert (Z.max (align_up size page_size) page_size = size) as ->.
  { change page_size with (2 ^ 12) in *. rewrite align_up_id by (done || lia). destruct Ps as [k ->]. lia. }
  apply wp_bind. replace size with (lo + size - lo) by lia.
  eapply wp_mono; [apply (map_range_spec im op vma_start lo (lo + size) Rel later I W X Hop) with (fs := fs);
    [lia|done|by apply Z.divide_add_r|done|done]| |done|done].
  cbn beta. intros root' s' (? & ? & ?). by apply HQ.
Qed.

Lemma after_walk_flush tlb root (s : wst) Q W X :
  (∃ b, tlb s = Ret b s) →
  (∀ n, Q (root, total s) (mkWst (fr s) (gather s) (do_flush s) n (deferred s) (total s) (result s) (live_ptes s) (seen s))) →
  wp (after_walk tlb root) s Q W X.
Proof using Type.
  intros [b Hb] HQ. unfold after_walk, wp, bind. rewrite Hb. destruct b; cbn.
  - exact (HQ (S (flushes s))).
  - specialize (HQ (flushes s)). by destruct s.
Qed.

(** ** Linear mappings *)

Section Linear.
Context (nr : nat) (virt pa size : Z).
Context (Hnr : (1 ≤ nr ≤ 2)%nat) (Hcong : nr = 1%nat ∨ (huge_page_size | pa - virt)).
Context (Hv : 0 ≤ virt) (Hsize : 0 < size) (Hend : virt + size ≤ 2 ^ 47).
Context (Hpa : 0 ≤ pa) (Hpend : pa + size ≤ 2 ^ 51).
Context (Pv : (page_size | virt)) (Pp : (page_size | pa)) (Ps : (page_size | size)).

Definition linear_rel (v old new : Z) : Prop := new = make_leaf_pte 0 (pa + (v - v mod page_size - virt)) perm_rwx.

Lemma linear_leaf N base :
  (N < nr)%nat → (sz N | base) → virt ≤ base → base + sz N ≤ virt + size →
  let n := Node (make_leaf_pte N (pa + (base - virt)) perm_rwx) [] in
  wfn N n ∧ ∀ v, base ≤ v < base + sz N → linear_rel v 0 (eff N n v).
Proof using All.
  intros HN Hd Hlo Hhi. cbn zeta. destruct N as [|[|N]]; [| |lia]; cbn [wfn eff word table].
  - split.
    + split; [|done]. apply make_leaf_u64. change (sz 0) with 4096 in *. unfold u64. lia.
    + intros v Hv'. unfold linear_rel. by rewrite (page_of v base).
  - change (sz 1) with (2 ^ 21) in *. change huge_page_size with (2 ^ 21) in Hcong.
    assert ((2 ^ 21 | pa + (base - virt))) as Hda.
    { replace (pa + (base - virt)) with (pa - virt + base) by lia. destruct Hcong as [->|Hc]; [lia|]. by apply Z.divide_add_r. }
    assert (large_ok (make_leaf_pte 1 (pa + (base - virt)) perm_rwx)) as Hlo'.
    { apply make_leaf_large_ok; [lia|done|done]. }
    split; [right; left; done|]. intros v Hv'. destruct (large_ok_facts _ Hlo') as (-> & -> & _).
    unfold linear_rel. destruct (slot_range v 0 base ltac:(lia) Hd Hv') as [Hj Hjv].
    set (j := pt_index v (Z.of_nat 0)) in *. change (sz 0) with page_size in Hjv.
    rewrite make_leaf_small by (done || lia). f_equal.
    assert ((page_size | base)) as Pb by (etrans; [|exact Hd]; by exists 512).
    rewrite (page_of v (base + j * page_size)); [change page_size with 4096; lia| |lia].
    apply Z.divide_add_r; [done|apply Z.divide_factor_r].
Qed.

Lemma linear_ok :
  op_ok im (linear_page_mapper (F := F) nr pa size) virt virt (virt + size) (λ _, linear_rel) (λ _ _, True)
    (λ _ s, ∃ h, fr_inv (fr s) h) out_of_pages False.
Proof using All.
  split; try done.
  - intros _ s [h Hh]. eapply wp_mono; [by apply allocate_table_spec| |done|done].
    cbn beta. intros a s' (? & ? & ? & _). split_and!; [lia..|done|by eexists|done].
  - by intros [?|?].
  - intros N n base fs s HN Hn _ _ Hd Hlo Hhi Hh. cbn [op_page linear_page_mapper].
    assert (N ≤ 1)%nat as HN1 by (cbn in HN; lia). pose proof (sz_le N ltac:(lia)). pose proof (sz_pos N).
    unfold linear_page. rewrite (wrap64_small (base - virt)), !wrap64_small by (unfold u64; lia).
    unfold wp, bind, check. rewrite (proj2 (Z.ltb_lt _ _)) by lia. unfold ret. cbn [fst snd].
    destruct (linear_leaf N base) as [Hw He]; [done|done|lia|lia|]. split_and!; [done|done|done|exact He].
Qed.

(** [linear_map] with the default slop maps every address of the range to the
    physical address at the same offset and leaves the translation of every other
    address as it was, whatever tables, small and large pages were there; it never
    fails an assertion, and stops only if the allocator of pages does. *)
Theorem linear_map_correct root s :
  wfn 4 root → (∃ h, fr_inv (fr s) h) →
  wp (linear_map im nr root virt pa size page_size) s
    (λ root' s', wfn 4 root' ∧ (∃ h, fr_inv (fr s') h) ∧
       ∀ v, 0 ≤ v < 2 ^ 48 →
         translate root' v = if decide (virt ≤ v < virt + size) then Some (pa + (v - virt)) else translate root v)
    out_of_pages False.
Proof using All.
  intros Hw Hh. unfold linear_map.
  assert (Z.min page_size (page_size_level (Z.of_nat nr - 1)) = page_size) as ->.
  { assert (nr = 1%nat ∨ nr = 2%nat) as [->| ->] by lia; done. }
  assert (∀ x, (page_size | x) → 0 ≤ x → Z.land x (page_size - 1) = 0) as Hlow.
  { intros x [k ->] _. change (page_size - 1) with (Z.ones 12). rewrite Z.land_ones by lia.
    change (2 ^ 12) with page_size. apply Z.mod_mul. done. }
  rewrite !Hlow by done. apply wp_bind. unfold wp at 1, check. change (0 =? 0) with true. cbn iota.
  replace size with (virt + size - virt) at 2 by lia.
  eapply wp_mono; [apply (map_range_spec im (linear_page_mapper nr pa size) virt virt (virt + size) (λ _, linear_rel) (λ _ _, True)
    (λ _ s, ∃ h, fr_inv (fr s) h) out_of_pages False linear_ok) with (fs := [])| |done|done]; try done; try lia.
  - by apply Z.divide_add_r.
  - cbn beta. intros root' s' (Hw' & Hh' & He). split_and!; [done|done|]. intros v Hv'. specialize (He v Hv').
    unfold translate. destruct (decide (virt ≤ v < virt + size)) as [Hin|Hout]; [|by rewrite He].
    rewrite He. pose proof (Z.mod_pos_bound v page_size ltac:(done)) as Hm. pose proof (Z.div_mod v page_size ltac:(done)) as Hdm.
    assert (virt ≤ v - v mod page_size) as Hge.
    { destruct Pv as [k Hk]. change page_size with 4096 in *. lia. }
    destruct (make_leaf_facts (pa + (v - v mod page_size - virt)) perm_rwx) as (_ & -> & _ & _ & ->).
    + change page_size with 4096 in *. lia.
    + change (2 ^ 12) with page_size. apply Z.divide_add_r; [done|]. apply Z.divide_sub_r; [|done].
      exists (v / page_size). lia.
    + cbn. f_equal. lia.
Qed.
End Linear.

(** ** Permissions *)

Section Protection.
Context (nr : nat) (vma_start perm : Z) (Hnr : (1 ≤ nr ≤ 2)%nat).

Definition prot_rel (v old new : Z) : Prop := new = if empty old then 0 else (change_perm 0 old perm).1.

Lemma protection_ok lo hi :
  op_ok im (protection (F := F) nr perm) vma_start lo hi (λ _, prot_rel) (λ _ _, True) owned out_of_pages False.
Proof using Him Hnr.
  split; try done.
  - intros fs fs' s. apply owned_perm.
  - intros fs s Ho. eapply wp_mono; [by apply owned_table| |done|done]. cbn beta. by intros ? ? (? & ? & ? & _).
  - intros fs s a. apply owned_pieces.
  - intros N n base fs s HN Hn Hdesc Hne Hd _ _ Ho. cbn [op_page protection] in *. cbn in HN.
    specialize (Hne eq_refl). assert (¬ (N = 1%nat ∧ inter 1 n)) as Hi by (intros [HN1 Hi]; discriminate (Hdesc HN1 Hi)).
    destruct (wfn_leaf N n ltac:(lia) Hn Hne Hi) as (Ht & Hu & Hl).
    rewrite (frames_leaf N n ltac:(lia) Hn Hne Hi) in Ho.
    destruct (change_perm_frame N N (word n) perm Hu) as (Ea & El & Ee & _).
    unfold protection_page. destruct (change_perm N (word n) perm) as [x fl] eqn:Ex. cbn [fst] in *.
    unfold wp, bind, modify, ret. cbn [fst snd]. rewrite Ht.
    assert (wfn N (Node x [])) as Hw'.
    { replace x with (change_perm N (word n) perm).1 by (by rewrite Ex).
      destruct N as [|[|N]]; [split; [by apply change_perm_u64|done]| |lia].
      right. left. split_and!; [done|by apply change_perm_large, Hl|done]. }
    split_and!; [done| |done|].
    + rewrite (frames_leaf N (Node x [])); [|lia|done|done|].
      * cbn [word]. rewrite Ea. exact Ho.
      * intros [-> Hi']. pose proof (in_len _ _ Hi'). done.
    + intros v Hv. unfold prot_rel. destruct N as [|[|N]]; [| |lia]; cbn [eff word].
      * by rewrite Hne, Ex.
      * rewrite Ee, El, Hne. destruct (large_ok_facts _ (Hl eq_refl)) as (_ & Hla & _). rewrite Hla.
        pose proof (pt_index_bound v (Z.of_nat 0) ltac:(lia)) as Hj. specialize (Hl eq_refl).
        replace x with (change_perm 1 (word n) perm).1 by (by rewrite Ex).
        by rewrite change_perm_small, small_of_nonempty by done.
Qed.

(** C35: Protecting a range of pages gives every page that is mapped in it the new
    permissions, splitting large pages at the ends, and changes the element of no
    other page; the frames in use stay the same ones. *)
Theorem protection_correct root lo size s fs :
  wfn 4 root → owned (frames 4 root ++ fs) s →
  0 ≤ lo → 0 < size → lo + size ≤ 2 ^ 47 → (page_size | lo) → (page_size | size) →
  wp (operate_range im (protection nr perm) flag_flush root vma_start lo size) s
    (λ r s', wfn 4 r.1 ∧ owned (frames 4 r.1 ++ fs) s' ∧
       ∀ v, 0 ≤ v < 2 ^ 48 →
         eff 4 r.1 v = if decide (lo ≤ v < lo + size)
                       then (if empty (eff 4 root v) then 0 else (change_perm 0 (eff 4 root v) perm).1)
                       else eff 4 root v)
    out_of_pages False.
Proof using Him Hnr.
  intros Hw Ho Hlo Hsz Hhi Pl Ps. eapply operate_range_spec; [apply protection_ok|done..|].
  intros root' s' Hw' Ho' He. apply after_walk_flush; [by eexists|]. intros n. cbn [fst].
  split_and!; [done|exact Ho'|]. intros v Hv. specialize (He v Hv). by case_decide.
Qed.
End Protection.

(** ** Unpopulating *)

Definition gathered (l : list (Z * Z)) : list (Z * Z) := (λ p, (p.1 - phys_mem, p.2)) <$> l.

Lemma pending_eq (s : wst) : pending s = gathered (gather s) ++ ((λ v, (v - phys_mem, page_size)) <$> deferred s).
Proof using Type. done. Qed.

(** The pages of a flush are freed, the rest of the state is kept. *)
Lemma free_gathered_spec l : ∀ (s : wst) h,
  fr_inv (fr s) (gathered l ++ h) →
  ∃ f, free_gathered im l s = Ret tt (set_fr f s) ∧ fr_inv f h.
Proof using Type.
  induction l as [|[v size] l IH]; intros s h Hi.
  { exists (fr s). split; [by destruct s|done]. }
  unfold gathered in Hi. rewrite fmap_cons in Hi. cbn [fst snd app] in Hi.
  destruct (fr_ok _ _ Hi) as [Hf _]. apply Forall_cons in Hf as [(_ & Hs & _) _]. cbn in Hs.
  assert (∃ f, (if size =? page_size then lift (fr_free_page v) else lift (fr_free_huge v)) s = Ret tt (set_fr f s)
               ∧ fr_inv f (gathered l ++ h)) as (f & E & Hf).
  { replace v with (phys_mem + (v - phys_mem)) by lia.
    destruct Hs as [->| ->].
    - change (page_size =? page_size) with true. pose proof (fr_free_page_spec _ _ _ Hi) as Hw. unfold wp, lift in *.
      destruct (fr_free_page _ (fr s)) as [[] f|f|]; [|done|done]. by exists f.
    - change (huge_page_size =? page_size) with false. pose proof (fr_free_huge_spec _ _ _ Hi) as Hw. unfold wp, lift in *.
      destruct (fr_free_huge _ (fr s)) as [[] f|f|]; [|done|done]. by exists f. }
  destruct (IH (set_fr f s) h Hf) as (f' & E' & Hf'). exists f'. split; [|done].
  cbn [free_gathered]. unfold bind. rewrite E, E'. done.
Qed.

Lemma gather_flush_spec (s : wst) fs :
  owned fs s →
  ∃ s', gather_flush im s = Ret (negb (bool_decide (gather s = []))) s' ∧ owned fs s' ∧ gather s' = [] ∧
    deferred s' = deferred s ∧ do_flush s' = do_flush s ∧ total s' = total s.
Proof using Type.
  intros Ho. unfold gather_flush, bind, get. destruct (decide (gather s = [])) as [E|Hne].
  { exists s. rewrite bool_decide_true by done. done. }
  rewrite bool_decide_false by done. unfold modify.
  destruct (free_gathered_spec (gather s) (flush_tlb_all s) (fs ++ ((λ v, (v - phys_mem, page_size)) <$> deferred s)))
    as (f & E & Hf).
  { cbn [fr flush_tlb_all]. unfold owned in Ho. rewrite pending_eq in Ho. eapply fr_perm; [|exact Ho].
    rewrite !(assoc_L (++)). apply Permutation_app_tail, Permutation_app_comm. }
  rewrite E. eexists. split; [reflexivity|]. split_and!; try done.
Qed.

Lemma owned_eq fs (s s' : wst) :
  fr s' = fr s → gather s' = gather s → deferred s' = deferred s → owned fs s → owned fs s'.
Proof using Type. unfold owned, pending. by intros -> -> ->. Qed.

Lemma gather_push_spec (s : wst) fs pa size :
  owned ((pa, size) :: fs) s →
  ∃ b s', gather_push im (phys_mem + pa) size s = Ret b s' ∧ owned fs s' ∧ deferred s' = deferred s ∧ total s' = total s.
Proof using Type.
  intros Ho. unfold gather_push, bind, get.
  assert (∃ b s1, (if (length (gather s) =? max_pages)%nat then bind (gather_flush im) (λ _, ret true) else ret false) s = Ret b s1
    ∧ owned ((pa, size) :: fs) s1 ∧ deferred s1 = deferred s ∧ total s1 = total s) as (b & s1 & E & Ho1 & Hd & Ht).
  { destruct (length (gather s) =? max_pages)%nat; [|by exists false, s].
    destruct (gather_flush_spec s _ Ho) as (s1 & E & Ho1 & _ & Hd & _ & Ht). exists true, s1. unfold bind. by rewrite E. }
  unfold bind in E. rewrite E. unfold modify, ret. eexists b, _. split; [reflexivity|]. split_and!; [|done|done].
  unfold owned in *. rewrite pending_eq in *. cbn [fr gather deferred set_gather]. unfold gathered in *.
  rewrite fmap_app. cbn [fmap list_fmap fst snd]. replace (phys_mem + pa - phys_mem) with pa by lia.
  eapply fr_perm; [|exact Ho1]. cbn [app]. rewrite <- !(assoc_L (++)). cbn [app].
  rewrite !(assoc_L (++)). apply Permutation_middle.
Qed.

(** The frame of a leaf and its address in the linear map. *)
Lemma owned_leaf N n fs s :
  (N < 2)%nat → wfn N n → empty (word n) = false → ¬ (N = 1%nat ∧ inter 1 n) → owned (frames N n ++ fs) s →
  owned ((addr N (word n), sz N) :: fs) s ∧ phys_to_virt im (addr N (word n)) = phys_mem + addr N (word n).
Proof using Type.
  intros HN Hn He Hi Ho. rewrite (frames_leaf N n HN Hn He Hi) in Ho. split; [done|].
  destruct (owned_frame _ _ _ _ Ho) as (_ & _ & _ & _ & Hp). by apply phys_to_virt_plain.
Qed.

(** Nothing is left of a table whose pages are all empty. *)
Lemma frames_cleared n base :
  inter 1 n → wfn 1 n → 0 ≤ base → (sz 1 | base) → (∀ v, base ≤ v < base + sz 1 → eff 1 n v = 0) →
  frames 1 n = [(addr 1 (word n), page_size)].
Proof using Type.
  intros Hi Hn H0 Hd He. rewrite (frames_inter 0 n Hi). f_equal.
  assert (∀ j k, table n !! j = Some k → word k = 0) as Hk.
  { intros j k Hj. pose proof (lookup_lt_Some _ _ _ Hj) as Hlt. rewrite (in_len _ _ Hi) in Hlt.
    assert (base + Z.of_nat j * sz 0 < base + sz 1) as Hb by (rewrite (sz_S 0); change (sz 0) with 4096; lia).
    pose proof (sz_pos 0) as Hp0.
    assert (pt_index (base + Z.of_nat j * sz 0) (Z.of_nat 0) = Z.of_nat j) as Ej.
    { apply (slot_of _ 0 base); [done|done|lia|lia]. }
    specialize (He (base + Z.of_nat j * sz 0) ltac:(lia)).
    rewrite (eff_inter 0 n _ k Hi) in He; [done|]. by rewrite Ej, Nat2Z.id. }
  clear -Hk. induction (table n) as [|k l IH]; [done|]. rewrite bind_cons, IH by (intros j; apply (Hk (S j))).
  cbn [frames]. by rewrite (Hk 0%nat k).
Qed.

Section Unpopulate.
Context (nr : nat) (vma_start : Z) (acc : bool) (Hnr : (1 ≤ nr ≤ 2)%nat).

Definition unpop_rel (v old new : Z) : Prop := new = 0.

Lemma unpopulate_ok lo hi :
  0 ≤ lo → op_ok im (unpopulate (F := F) im nr acc) vma_start lo hi (λ _, unpop_rel) (λ _ _, True) owned out_of_pages False.
Proof using Him Hnr.
  intros Hlo0. split; try done.
  - intros fs fs' s. apply owned_perm.
  - intros fs s Ho. eapply wp_mono; [by apply owned_table| |done|done]. cbn beta. by intros ? ? (? & ? & ? & _).
  - intros fs s a. apply owned_pieces.
  - intros N n base fs s HN Hn Hdesc Hne Hd _ _ Ho. cbn [op_page unpopulate] in *. cbn in HN.
    specialize (Hne eq_refl). assert (¬ (N = 1%nat ∧ inter 1 n)) as Hi by (intros [HN1 Hi]; discriminate (Hdesc HN1 Hi)).
    destruct (owned_leaf N n fs s ltac:(lia) Hn Hne Hi Ho) as [Ho1 Ev].
    unfold unpopulate_page. rewrite Ev. fold (sz N).
    destruct (gather_push_spec s fs _ _ Ho1) as (b & s' & E & Ho' & _). unfold wp, bind. rewrite E. unfold modify.
    assert (∀ s'' : wst, (if acc then account (F := F) (sz N) else ret tt) s'' = Ret tt s'' ∨
      (if acc then account (F := F) (sz N) else ret tt) s'' = Ret tt (set_total (wrap64 (total s'' + sz N)) s'')) as Hacc.
    { intros s''. destruct acc; [by right|by left]. }
    destruct (Hacc (set_do_flush (negb b) s')) as [->| ->]; unfold ret; cbn [fst snd];
      (split_and!; [destruct N as [|[|N]]; [by split|by left|lia]
                   |destruct N; exact (owned_eq _ s' _ eq_refl eq_refl eq_refl Ho')
                   |done
                   |intros v _; by apply eff_empty]).
  - intros n old base fs s Hi Hn Hlo _ Hd Hr Ho. cbn [op_post unpopulate]. unfold unpopulate_post.
    rewrite (frames_cleared n base Hi Hn) in Ho; [|lia|done|exact Hr].
    destruct (owned_frame _ _ _ _ Ho) as (_ & _ & _ & _ & Hp). rewrite (phys_to_virt_plain im (addr 1 (word n)) Hp).
    unfold wp, bind, modify, ret. split_and!; [by left| |done|].
    + cbn [frames word empty_node app]. change (empty 0) with true. cbn [app].
      unfold owned in *. rewrite pending_eq in *. cbn [fr gather deferred rcu_defer].
      rewrite fmap_app. cbn [fmap list_fmap]. replace (phys_mem + addr 1 (word n) - phys_mem) with (addr 1 (word n)) by lia.
      eapply fr_perm; [|exact Ho]. cbn [app]. rewrite !(assoc_L (++)). apply Permutation_cons_append.
    + intros v _. by apply eff_empty.
Qed.

(** C34: Unpopulating a range of pages leaves no page mapped in it and every other
    page as it was; the pages that were mapped in it are given back to the
    allocator, and the tables that became empty wait for the end of a grace
    period: every frame is held exactly once. *)
Theorem unpopulate_correct root lo size s fs :
  wfn 4 root → owned (frames 4 root ++ fs) s →
  0 ≤ lo → 0 < size → lo + size ≤ 2 ^ 47 → (page_size | lo) → (page_size | size) →
  wp (operate_range im (unpopulate im nr acc) (unpopulate_flush im) root vma_start lo size) s
    (λ r s', wfn 4 r.1 ∧ gather s' = [] ∧ owned (frames 4 r.1 ++ fs) s' ∧
       ∀ v, 0 ≤ v < 2 ^ 48 →
         eff 4 r.1 v = if decide (lo ≤ v < lo + size) then 0 else eff 4 root v)
    out_of_pages False.
Proof using Him Hnr.
  intros Hw Ho Hlo Hsz Hhi Pl Ps. eapply operate_range_spec; [by apply unpopulate_ok|done..|].
  intros root' s' Hw' Ho' He. unfold after_walk, unpopulate_flush, wp, bind.
  destruct (gather_flush_spec s' _ Ho') as (s1 & E1 & Ho1 & Hg1 & Hd1 & _). rewrite E1. cbn.
  assert (∀ v, 0 ≤ v < 2 ^ 48 → eff 4 root' v = if decide (lo ≤ v < lo + size) then 0 else eff 4 root v) as He'.
  { intros v Hv. specialize (He v Hv). by case_decide. }
  destruct (_ && _); cbn; split_and!; try done. 
Qed.
End Unpopulate.

(** ** Populating *)

Section Populate.
Context (nr : nat) (vma_start perm : Z) (acc write map_dirty : bool).
Context (Hnr : (1 ≤ nr ≤ 2)%nat) (Hperm : perm ≠ 0).
Local Notation d := (map_dirty || write).

(** A page that was not mapped gets a frame with the permissions, unless there is
    none. *)
Definition pop_rel (s : wst) (v old new : Z) : Prop :=
  if empty old
  then (∃ pa, 0 ≤ pa < 2 ^ 44 ∧ (page_size | pa) ∧ new = new_leaf 0 d pa perm) ∨ new = 0 ∧ out_of_pages s
  else new = old.

Lemma pop_rel_later s s' v x y : out_stays s s' → pop_rel s v x y → pop_rel s' v x y.
Proof using Type. unfold pop_rel. intros Hs. case_match; [|done]. intros [?|[? ?]]; [by left|right]. auto. Qed.

(** The new leaf of a frame. *)
Lemma new_leaf_node N pa :
  (N < 2)%nat → 0 ≤ pa → pa + sz N ≤ 2 ^ 44 → (sz N | pa) →
  let n := Node (new_leaf N d pa perm) [] in
  fits (large_capable N) pa ∧ wfn N n ∧ frames N n = [(pa, sz N)] ∧
  ∀ v, ∃ pa', 0 ≤ pa' < 2 ^ 44 ∧ (page_size | pa') ∧ eff N n v = new_leaf 0 d pa' perm.
Proof using Hnr Hperm.
  intros HN Ha Hb Hd n.
  assert (fits (large_capable N) pa) as Hf.
  { apply fits_aligned; destruct N as [|[|N]]; [..|lia| | |lia]; change (sz 0) with (2 ^ 12) in *; change (sz 1) with (2 ^ 21) in *; (done || lia). }
  assert (empty (word n) = false) as Hne.
  { apply Z.eqb_neq. intros Hz. pose proof (new_leaf_valid N d pa perm Hf Hperm) as Hv. cbn in Hz. by rewrite Hz in Hv. }
  assert (wfn N n) as Hw.
  { destruct N as [|[|N]]; [split; [apply new_leaf_u64, Hf|done]| |lia]. right. left. split_and!; [done| |done].
    change (sz 1) with (2 ^ 21) in *. apply new_leaf_large_ok; (done || lia). }
  split_and!; [done|done| |].
  - rewrite frames_leaf; [|done|done|done|intros [-> Hi]; by pose proof (in_len _ _ Hi)].
    cbn [word n]. by rewrite new_leaf_addr.
  - intros v. destruct N as [|[|N]]; [| |lia]; cbn [eff word n] in *.
    + change (sz 0) with page_size in *. exists pa. change page_size with 4096 in *. split_and!; (done || lia).
    + rewrite Hne, (new_leaf_large 1 d pa perm Hf). cbn [large_capable Nat.eqb].
      pose proof (pt_index_bound v (Z.of_nat 0) ltac:(lia)) as Hj. set (j := pt_index v (Z.of_nat 0)) in *.
      change (sz 1) with (2 ^ 21) in *. exists (pa + j * 4096). split_and!; [lia|lia| |].
      * change page_size with 4096. apply Z.divide_add_r; [|apply Z.divide_factor_r]. etrans; [|exact Hd]. by exists 512.
      * apply new_leaf_small; (done || lia).
Qed.

(** A page from the allocator, and back if the element is taken. *)
Lemma provider_map_spec N n fs s :
  (N < 2)%nat → wfn N n → ¬ (N = 1%nat ∧ inter 1 n) → owned (frames N n ++ fs) s →
  wp (provider_map im N n (new_leaf N d 0 perm)) s
    (λ r s', out_stays s s' ∧
       match r with
       | None => owned (frames N n ++ fs) s' ∧ (N = 0%nat → out_of_pages s')
       | Some (w, n') => wfn N n' ∧ owned (frames N n' ++ fs) s' ∧ ∀ v, pop_rel s' v (eff N n v) (eff N n' v)
       end) out_of_pages False.
Proof using Him Hnr Hperm.
  intros HN Hn Hi Ho. unfold provider_map. apply wp_bind.
  assert (wp (match N with O => lift fr_alloc_page | _ => lift fr_alloc_huge end) s
    (λ v s', v = 0 ∧ owned (frames N n ++ fs) s' ∧ out_stays s s' ∧ (N = 0%nat → out_of_pages s') ∨
       v ≠ 0 ∧ in_area main v ∧ owned ((v - phys_mem, sz N) :: frames N n ++ fs) s' ∧ ¬ out_of_pages s)
    out_of_pages False) as Halloc.
  { destruct N as [|[|N]]; [| |lia].
    - eapply wp_mono; [by apply frame_page_spec| |done|done]. cbn beta.
      intros v s' (Hp & [(-> & Hf & Hout)|(Hv0 & Hv & Hf & Hno)]); [left|right]; unfold owned; rewrite Hp; split_and!; try done; by intros ?.
    - pose proof (fr_alloc_huge_spec _ _ Ho) as Hs. pose proof (fr_out_huge _ _ Ho) as Hx. unfold wp, lift in *.
      destruct (fr_alloc_huge (fr s)) as [v f'|f'|]; [|done|done]. destruct Hs as [[-> Hf]|(Hv0 & ? & Hf)]; [left|right].
      + split_and!; [done|done| |done]. intros Hout. apply (Hx Hout).
      + split_and!; [done..|]. intros Hout. by destruct (Hx Hout). }
  eapply wp_mono; [exact Halloc| |done|done]. cbn beta. intros v s' [(-> & Ho' & Hst & Hout)|(Hv0 & Hv & Ho' & Hno)]; unfold set_pte.
  { by unfold wp, ret. }
  rewrite (proj2 (Z.eqb_neq _ _)) by done. apply wp_bind. unfold wp at 1. rewrite to_phys_main by done.
  destruct (owned_frame _ _ _ _ Ho') as (Hd & _ & H0 & H1 & _). cbn in Hd, H0, H1. rewrite mem_area_size_eq in H1.
  destruct (new_leaf_node N (v - phys_mem) HN H0 H1 Hd) as (Hf & Hw & Hfr & Heff).
  destruct (empty (word n)) eqn:He.
  - apply Z.eqb_eq in He. unfold wp, ret.
    assert (frames N n = []) as En by (destruct N; cbn [frames]; by rewrite He).
    assert (table n = []) as Et.
    { destruct N as [|N]; [apply Hn|]. destruct Hn as [[_ ?]|[(_ & Hl & _)|[Hi' _]]]; [done| |].
      - pose proof (lo_valid _ Hl) as Hl'. by rewrite He in Hl'.
      - pose proof (inter_nonempty _ _ Hi') as Hi''. by rewrite He in Hi''. }
    rewrite Et, new_leaf_mod_addr by done. split_and!; [by intros ?|done| |].
    + rewrite Hfr. rewrite En in Ho'. exact Ho'.
    + intros w. unfold pop_rel. rewrite (eff_empty N n w He). change (empty 0) with true. cbn iota. left. apply Heff.
  - apply wp_bind.
    assert (wp (if large_capable N then lift (fr_free_huge v) else lift (fr_free_page v)) s'
      (λ _ s'', owned (frames N n ++ fs) s'') out_of_pages False) as Hfree.
    { replace v with (phys_mem + (v - phys_mem)) by lia. destruct N as [|[|N]]; [| |lia]; cbn [large_capable Nat.eqb].
      - pose proof (fr_free_page_spec _ _ _ Ho') as Hs. unfold wp, lift in *. by destruct (fr_free_page _ (fr s')).
      - pose proof (fr_free_huge_spec _ _ _ Ho') as Hs. unfold wp, lift in *. by destruct (fr_free_huge _ (fr s')). }
    eapply wp_mono; [exact Hfree| |done|done]. cbn beta. intros _ s'' Ho''. unfold wp, ret. split_and!; [by intros ?|done|done|].
    intros w. unfold pop_rel. by rewrite eff_leaf_nonempty.
Qed.

Lemma populate_page_spec N n off fs s :
  (N < 2)%nat → wfn N n → ¬ (N = 1%nat ∧ inter 1 n) → owned (frames N n ++ fs) s →
  wp (populate_page im acc perm write map_dirty N n off) s
    (λ r s', wfn N r.2 ∧ owned (frames N r.2 ++ fs) s' ∧ out_stays s s' ∧
       if r.1 || (N =? 0)%nat then ∀ v, pop_rel s' v (eff N n v) (eff N r.2 v) else r.2 = n)
    out_of_pages False.
Proof using Him Hnr Hperm.
  intros HN Hn Hi Ho. unfold populate_page. destruct (populate_skip write (word n)) eqn:Hs.
  { unfold wp, ret. cbn [fst snd]. split_and!; [done|done|by intros ?|]. cbn [orb]. intros v. unfold pop_rel.
    rewrite eff_leaf_nonempty; try done. unfold populate_skip in Hs. by destruct (empty (word n)). }
  fold (new_leaf N d 0 perm). apply wp_bind.
  eapply wp_mono; [by apply provider_map_spec| |done|done]. cbn beta. intros [[w n']|] s'.
  - intros (Hst & Hn' & Ho' & Hr). unfold wp, bind, account, modify, ret.
    destruct (w && acc); cbn [fst snd]; (split_and!; [done| |exact Hst|exact Hr]); [|done].
    exact (owned_eq _ s' _ eq_refl eq_refl eq_refl Ho').
  - intros (Hst & Ho' & Hout). unfold wp, ret. cbn [fst snd orb]. split_and!; [done..|].
    destruct (Nat.eqb_spec N 0) as [->|]; [|done]. intros v. unfold pop_rel. cbn [eff].
    case_match; [|done]. right. split; [by apply Z.eqb_eq|by apply Hout].
Qed.

Lemma populate_ok lo hi :
  op_ok im (populate (F := F) im nr acc perm write map_dirty) vma_start lo hi pop_rel out_stays owned out_of_pages False.
Proof using Him Hnr Hperm.
  split; try done.
  - by intros s Ho.
  - intros s s' s'' H1 H2 Ho. by apply H2, H1.
  - intros s s' v x y. apply pop_rel_later.
  - intros fs fs' s. apply owned_perm.
  - intros fs s. apply owned_table.
  - intros fs s a. apply owned_pieces.
  - by intros [?|?].
  - intros N n base fs s HN Hn Hdesc _ _ _ _ Ho. cbn [op_page populate] in *. cbn in HN.
    assert (¬ (N = 1%nat ∧ inter 1 n)) as Hi by (intros [HN1 Hi]; discriminate (Hdesc HN1 Hi)).
    eapply wp_mono; [apply populate_page_spec; [lia|done|done|done]| |done|done]. cbn beta.
    intros [b n'] s' (Hw' & Ho' & Hst & Hr). cbn [fst snd] in *. split_and!; [exact Hw'|exact Ho'|exact Hst|].
    destruct (b || (N =? 0)%nat); [intros v _; apply Hr|done].
  - intros fs s Ho. split; [exact Ho|by intros ?].
  - intros n old base fs s Hi Hn _ _ _ Hr Ho. unfold wp. cbn [op_post populate populate_small no_post ret]. split_and!; [done|done|by intros ?|done].
Qed.

Lemma populate_small_ok lo hi :
  op_ok im (populate_small (F := F) im acc perm write map_dirty) vma_start lo hi pop_rel out_stays owned out_of_pages False.
Proof using Him Hnr Hperm.
  split; try done.
  - cbn. lia.
  - by intros s Ho.
  - intros s s' s'' H1 H2 Ho. by apply H2, H1.
  - intros s s' v x y. apply pop_rel_later.
  - intros fs fs' s. apply owned_perm.
  - intros fs s. apply owned_table.
  - intros fs s a. apply owned_pieces.
  - by intros [?|?].
  - intros N n base fs s HN Hn Hdesc _ _ _ _ Ho. cbn [op_page populate_small] in *. cbn in HN.
    assert (N = 0%nat) as -> by lia. cbn [large_capable Nat.eqb negb]. unfold check at 1. apply wp_bind. unfold wp at 1.
    eapply wp_mono; [apply populate_page_spec; [lia|done|lia|done]| |done|done]. cbn beta.
    intros [b n'] s' (Hw' & Ho' & Hst & Hr). cbn [fst snd] in *. rewrite orb_true_r in *.
    split_and!; [exact Hw'|exact Ho'|exact Hst|intros v _; apply Hr].
  - intros fs s Ho. split; [exact Ho|by intros ?].
  - intros n old base fs s Hi Hn _ _ _ Hr Ho. unfold wp. cbn [op_post populate populate_small no_post ret]. split_and!; [done|done|by intros ?|done].
Qed.

(** C33: Populating a range of pages maps every page of it as long as there are
    frames: a page that was mapped is left alone, one that was not gets a frame
    nobody else holds with the permissions of the area, small or as part of a huge
    page; it stays unmapped only if the allocator is out of pages when the operation
    returns, which reports nothing of that.  Pages outside of the range are untouched.
    The operation does not return only if there is no page for a table. *)
Theorem populate_correct (small : bool) root lo size s fs :
  wfn 4 root → owned (frames 4 root ++ fs) s →
  0 ≤ lo → 0 < size → lo + size ≤ 2 ^ 47 → (page_size | lo) → (page_size | size) →
  wp (operate_range im (if small then populate_small im acc perm write map_dirty
                        else populate im nr acc perm write map_dirty) no_flush root vma_start lo size) s
    (λ r s', wfn 4 r.1 ∧ owned (frames 4 r.1 ++ fs) s' ∧
       ∀ v, 0 ≤ v < 2 ^ 48 →
         if decide (lo ≤ v < lo + size)
         then if empty (eff 4 root v)
              then (∃ pa, 0 ≤ pa < 2 ^ 44 ∧ (page_size | pa) ∧ eff 4 r.1 v = new_leaf 0 (map_dirty || write) pa perm) ∨
                   eff 4 r.1 v = 0 ∧ out_of_pages s'
              else eff 4 r.1 v = eff 4 root v
         else eff 4 r.1 v = eff 4 root v)
    out_of_pages False.
Proof using Him Hnr Hperm.
  intros Hw Ho Hlo Hsz Hhi Pl Ps.
  eapply (operate_range_spec _ _ _ _ _ pop_rel out_stays); [destruct small; [apply populate_small_ok|apply populate_ok]|done..|].
  intros root' s' Hw' Ho' He. apply after_walk_flush; [by eexists|]. intros n. cbn [fst].
  split_and!; [done|exact Ho'|exact He].
Qed.
End Populate.

(** ** Huge pages without permissions *)

Definition no_access (d : bool) (pa : Z) : node := Node (new_leaf 1 d pa 0) [].

Lemma no_access_facts d pa :
  fits true pa →
  empty (word (no_access d pa)) = false ∧ valid (word (no_access d pa)) = false ∧ large 1 (word (no_access d pa)) = true.
Proof using Type.
  intros Hf. unfold no_access. cbn [word]. assert (large 1 (new_leaf 1 d pa 0) = true) as Hl by (by rewrite new_leaf_large).
  split_and!; [|by rewrite valid_bit, new_leaf_bits by (done || lia)|done].
  apply Z.eqb_neq. intros Hz. by rewrite Hz in Hl.
Qed.

(** What [populate] writes for a huge page, if there is one. *)
Lemma no_access_populated acc write map_dirty off s h :
  fr_inv (fr s) h →
  wp (populate_page im acc 0 write map_dirty 1 empty_node off) s
    (λ r s', r = (false, empty_node) ∨ ∃ pa, fits true pa ∧ r = (true, no_access (map_dirty || write) pa)) (λ _, False) False.
Proof using Him.
  intros Hi. unfold populate_page. cbn [populate_skip word empty_node]. change (populate_skip write 0) with false. cbn iota.
  apply wp_bind. unfold provider_map. apply wp_bind. pose proof (fr_alloc_huge_spec _ _ Hi) as Hs. unfold wp, lift in *.
  destruct (fr_alloc_huge (fr s)) as [v f'|f'|]; [|done|done]. unfold set_pte. destruct Hs as [[-> _]|(Hv0 & Hv & Hf)].
  { by left. }
  rewrite (proj2 (Z.eqb_neq _ _)) by done. unfold bind. rewrite to_phys_main by done. change (empty (word empty_node)) with true. cbn iota.
  destruct (fr_ok _ _ Hf) as [Hok _]. apply Forall_cons in Hok as [(Hd & _ & H0 & H1 & _) _]. cbn in Hd, H0, H1.
  rewrite mem_area_size_eq in H1. change huge_page_size with (2 ^ 21) in *.
  assert (fits true (v - phys_mem)) as Hft by (apply fits_aligned; (done || lia)).
  unfold ret. cbn [table empty_node]. fold (new_leaf 1 (map_dirty || write) 0 0). rewrite new_leaf_mod_addr by done.
  unfold no_access. destruct (true && acc); cbn; right; exists (v - phys_mem); done.
Qed.

(** A walk that comes to the element with a part of the huge page. *)
Lemma no_access_left op vma_start d pa base v size (s : wst) :
  fits true pa → allocate_intermediate op = false →
  map_level im op vma_start page_size 0 (no_access d pa) base v size s = Ret (no_access d pa) s.
Proof using Type.
  intros Hf Ha. destruct (no_access_facts d pa Hf) as (_ & Hva & _). cbn [map_level]. unfold bind at 1, enter.
  by rewrite Hva, Ha.
Qed.

Lemma no_access_stuck op vma_start d pa base v size s h :
  fr_inv (fr s) h → fits true pa → allocate_intermediate op = true →
  wp (map_level im op vma_start page_size 0 (no_access d pa) base v size) s (λ _ _, False) out_of_pages True.
Proof using Him.
  intros Hi Hf Ha. destruct (no_access_facts d pa Hf) as (He & Hva & Hla). cbn [map_level]. apply wp_bind. unfold enter.
  rewrite Hva, Ha. cbn [negb]. apply wp_bind. unfold allocate_intermediate_level. apply wp_bind.
  eapply wp_mono; [by apply allocate_table_spec| |done|done]. cbn beta. intros pt s' (H0 & Hd & Hi' & _). rewrite He. apply wp_bind.
  destruct (fr_ok _ _ Hi') as [Hok _]. apply Forall_cons in Hok as [(_ & _ & _ & _ & Hp) _]. rewrite (phys_to_virt_plain im pt Hp).
  pose proof (fr_free_page_spec _ _ _ Hi') as Hs. unfold wp, lift in *.
  destruct (fr_free_page (phys_mem + pt) (fr s')) as [[] f|f|]; [|done|done]. unfold ret, next_pt_addr. by rewrite Hla.
Qed.

(** C37: [populate] gives a huge page of an area without permissions an element that is
    neither empty nor valid, and the walker goes no further than that: a walk that
    comes to such an element with a part of the huge page changes nothing if it is to
    unpopulate that part or to change its permissions, and does not return if it is to
    populate it, since an assertion fails unless memory is out already. *)
Theorem prot_none_huge_page s h :
  fr_inv (fr s) h →
  (∀ acc write map_dirty off,
     wp (populate_page im acc 0 write map_dirty 1 empty_node off) s
       (λ r s', r = (false, empty_node) ∨ ∃ pa, fits true pa ∧ r = (true, no_access (map_dirty || write) pa)) (λ _, False) False) ∧
  ∀ d pa, fits true pa →
    let n := no_access d pa in
    empty (word n) = false ∧ valid (word n) = false ∧
    ∀ nr acc vma_start base v size,
      map_level im (unpopulate im nr acc) vma_start page_size 0 n base v size s = Ret n s ∧
      ∀ perm,
        map_level im (protection nr perm) vma_start page_size 0 n base v size s = Ret n s ∧
        ∀ write map_dirty,
          wp (map_level im (populate im nr acc perm write map_dirty) vma_start page_size 0 n base v size) s
            (λ _ _, False) out_of_pages True.
Proof using Him.
  intros Hi. split; [intros; by eapply no_access_populated|]. intros d pa Hf n.
  destruct (no_access_facts d pa Hf) as (He & Hva & _). split; [done|]. split; [done|]. intros nr acc vma_start base v size.
  split; [by apply no_access_left|]. intros perm. split; [by apply no_access_left|]. intros. by eapply no_access_stuck.
Qed.

(** ** Looking up an address *)

Lemma lor_low a v n : 0 ≤ n → (2 ^ n | a) → 0 ≤ v → Z.lor a (v mod 2 ^ n) = a + v mod 2 ^ n.
Proof using Type.
  intros Hn Hd Hv. assert (Z.land a (v mod 2 ^ n) = 0) as Hz.
  { apply Z.bits_inj'. intros i Hi. rewrite Z.land_spec, Z.bits_0. destruct (decide (i < n)).
    - by rewrite (aligned_low a n i).
    - by rewrite (Z.mod_pow2_bits_high v n i), andb_false_r by lia. }
  by rewrite <- Z.lxor_lor, <- Z.add_nocarry_lxor.
Qed.

Lemma level_offset N v : (N < 2)%nat → u64 v → Z.land v (not64 (pte_level_mask (Z.of_nat N))) = v mod sz N.
Proof using Type.
  intros HN Hv. assert (not64 (pte_level_mask (Z.of_nat N)) = Z.ones (12 + 9 * Z.of_nat N)) as ->.
  { destruct N as [|[|N]]; [done|done|lia]. }
  rewrite Z.land_ones by lia. f_equal. destruct N as [|[|N]]; [done|done|lia].
Qed.

Lemma addr_page N x : (page_size | addr N x).
Proof using Type.
  change page_size with (2 ^ 12). exists (Z.shiftr (addr N x) 12). rewrite Z.shiftr_div_pow2 by lia.
  assert (addr N x mod 2 ^ 12 = 0) as Hm; [|pose proof (Z.div_mod (addr N x) (2 ^ 12) ltac:(lia)); lia].
  apply Z.bits_inj'. intros i Hi. rewrite Z.bits_0. destruct (decide (i < 12)).
  - rewrite Z.mod_pow2_bits_low by lia. rewrite addr_spec by done. unfold in_mask.
    replace (12 <=? i) with false by lia. by rewrite andb_false_r.
  - by rewrite Z.mod_pow2_bits_high by lia.
Qed.

Lemma addr_huge x : large_ok x → (2 ^ 21 | addr 1 x).
Proof using Type.
  intros Hx. exists (Z.shiftr (addr 1 x) 21). rewrite Z.shiftr_div_pow2 by lia.
  assert (addr 1 x mod 2 ^ 21 = 0) as Hm; [|pose proof (Z.div_mod (addr 1 x) (2 ^ 21) ltac:(lia)); lia].
  apply Z.bits_inj'. intros i Hi. rewrite Z.bits_0. destruct (decide (i < 21)).
  - rewrite Z.mod_pow2_bits_low by lia. rewrite addr_spec by done. unfold in_mask.
    destruct (decide (i < 12)); [replace (12 <=? i) with false by lia; by rewrite andb_false_r|].
    by rewrite (lo_low _ Hx) by lia.
  - by rewrite Z.mod_pow2_bits_high by lia.
Qed.

Section Lookup.
Context (nr : nat) (v : Z) (Hnr : (1 ≤ nr ≤ 2)%nat) (Hv : 0 ≤ v < 2 ^ 47).
Local Notation vb := (v - v mod page_size).

(** What the walk finds below an element. *)
Definition found (lvl : nat) (n : node) (s : wst) : wst :=
  if empty (eff lvl n v) then s else set_result (addr 0 (eff lvl n v) + v mod page_size) s.

Lemma v2p_leaf n (s : wst) :
  u64 (word n) → result s = None →
  v2p_page (F := F) v 0 n s = Ret tt (set_result (addr 0 (word n) + v mod page_size) s).
Proof using Hnr Hv.
  intros Hu Hr. unfold v2p_page, bind, get, check, modify. rewrite Hr.
  rewrite (level_offset 0) by (lia || unfold u64; lia). change (sz 0) with (2 ^ 12).
  rewrite lor_low; [done|lia|apply (addr_page 0)|lia].
Qed.

Lemma v2p_huge n (s : wst) :
  large_ok (word n) → result s = None →
  v2p_page (F := F) v 1 n s = Ret tt (set_result (addr 0 (small_of (word n) (pt_index v 0)) + v mod page_size) s).
Proof using Hnr Hv.
  intros Hl Hr. unfold v2p_page, bind, get, check, modify. rewrite Hr.
  rewrite (level_offset 1) by (lia || unfold u64; lia). change (sz 1) with (2 ^ 21).
  rewrite lor_low; [|lia|by apply addr_huge|lia].
  pose proof (pt_index_bound v 0 ltac:(lia)) as Hj. rewrite small_of_addr by done.
  do 2 f_equal. change 0 with (Z.of_nat 0) in *. rewrite pt_index_eq in * by lia. change (sz 0) with 4096 in *.
  change page_size with 4096. change (2 ^ 21) with (4096 * 512). rewrite Z.rem_mul_r by lia. lia.
Qed.

Lemma vb_facts : (page_size | vb) ∧ vb ≤ v < vb + page_size ∧ 0 ≤ vb.
Proof using Hnr Hv.
  pose proof (Z.mod_pos_bound v page_size ltac:(done)) as Hm. pose proof (Z.div_mod v page_size ltac:(done)) as Hd.
  split_and!; [exists (v / page_size); lia|lia|lia|]. assert (0 ≤ v / page_size) by (apply Z.div_pos; [lia|done]).
  change page_size with 4096 in *. lia.
Qed.

(** The page of the address lies in the same slot. *)
Lemma vb_slot base i l : (sz l | base) → base + i * sz l ≤ v < base + (i + 1) * sz l →
  base + i * sz l ≤ vb ∧ vb + page_size ≤ base + (i + 1) * sz l.
Proof using Hnr Hv.
  intros Hd Hi. destruct vb_facts as ([k Hk] & Hb & _).
  destruct (sz_page l) as [q Hq]. destruct Hd as [p ->]. rewrite Hq in *. change page_size with 4096 in *. 
  assert (p * (q * 4096) + i * (q * 4096) = (p * q + i * q) * 4096) as E1 by ring.
  assert (p * (q * 4096) + (i + 1) * (q * 4096) = (p * q + (i + 1) * q) * 4096) as E2 by ring.
  rewrite E1, E2 in *. lia.
Qed.

Lemma v2p_visit below l k base (s : wst) :
  (l ≤ 3)%nat → 0 ≤ base → (sz l | base) → base ≤ vb → vb + page_size ≤ base + sz l → wfn l k → result s = None →
  (∀ l', l = S l' → below k base vb page_size s = Ret k (found l k s)) →
  visit (virt_to_phys_map nr v) vb page_size below l vb (vb + page_size - 1) k base s = Ret k (found l k s).
Proof using Hnr Hv.
  intros Hl H0 Hd Hlo Hhi Hw Hr Hbelow. pose proof (sz_le l Hl). destruct vb_facts as (Pv & Hb & Hv0).
  set (w := v - v mod page_size) in *. clearbody w. assert (0 < page_size < 8192) as Hps by done.
  unfold visit, page_at, intermediate_page_pre, intermediate_page_post. fold (sz l). assert ((page_size | w + page_size)) as Pv' by (apply Z.divide_add_r; [done|by exists 1]).
  rewrite (wrap64_small (base + sz l - 1)) by (unfold u64; lia). rewrite clamp_page by (done || lia).
  replace (Z.max w base) with w by lia.
  replace (Z.min (w + page_size - 1) (base + sz l - 1)) with (w + page_size - 1) by lia.
  replace (w + page_size - 1 - w + 1) with page_size by lia. rewrite (wrap64_small page_size) by (unfold u64; lia).
  destruct l as [|l].
  - change (sz 0) with page_size in *. assert (w = base) as -> by lia.
    rewrite !Z.eqb_refl. cbn [nr_page_sizes virt_to_phys_map]. rewrite (proj2 (Nat.ltb_lt 0 nr)) by lia.
    cbn [andb skip_empty Nat.eqb leaf_capable orb op_page virt_to_phys_map]. unfold found. cbn [eff].
    destruct (empty (word k)); [done|]. unfold bind, ret. destruct Hw as [Hu _]. by rewrite v2p_leaf.
  - assert ((w + page_size - 1 =? base + sz (S l) - 1) && (w =? base) = false) as Hne.
    { rewrite sz_S in *. pose proof (sz_pos l) as Hp. destruct (sz_page l) as [q Hq]. change page_size with 4096 in *. lia. }
    rewrite <- andb_assoc, (andb_comm (w =? base)), Hne, andb_false_r. by apply (Hbelow l).
Qed.

Lemma slots_loop_once (op : page_op (F := F)) vma_start slop below l fuel a b idx eidx base kids k :
  once op = true → kids !! Z.to_nat idx = Some k →
  slots_loop op vma_start slop below l (S fuel) a b idx eidx base kids =
    bind (visit op vma_start slop below l a b k base) (λ n, ret (<[Z.to_nat idx := n]> kids)).
Proof using Type. intros Ho Hk. cbn [slots_loop]. by rewrite Hk, Ho. Qed.

Lemma v2p_level l below n base (s : wst) :
  (l ≤ 3)%nat → wfn (S l) n → 0 ≤ base → (sz (S l) | base) → base ≤ v < base + sz (S l) → result s = None →
  (∀ l' k b, l = S l' → wfn l k → 0 ≤ b → (sz l | b) → b ≤ v < b + sz l →
     below k b vb page_size s = Ret k (found l k s)) →
  bind (enter im (virt_to_phys_map nr v) l n) (λ e,
    let '(parent, go) := e in
    if go : bool then
      match next_pt_addr (S l) (word parent) with
      | None => fault
      | Some _ =>
          bind (slots_loop (virt_to_phys_map nr v) vb page_size below l 512 vb (wrap64 (vb + page_size - 1))
                  (pt_index vb (Z.of_nat l)) (pt_index (wrap64 (vb + page_size - 1)) (Z.of_nat l))
                  (extend47 (wrap64 (base + pt_index vb (Z.of_nat l) * page_size_level (Z.of_nat l)))) (table parent))
            (λ kids, ret (Node (word parent) kids))
      end
    else ret parent) s = Ret n (found (S l) n s).
Proof using Hnr Hv.
  intros Hl Hn H0 Hd Hb Hr Hbelow. destruct vb_facts as (Pv & Hvb & Hv0). assert (0 < page_size < 8192) as Hps by done.
  unfold bind at 1, enter, sub_page. destruct Hn as [[Hz Ht]|[(-> & Hx & Ht)|[Hi Hk]]].
  - rewrite Hz. change (valid 0) with false. cbn [negb allocate_intermediate virt_to_phys_map]. unfold ret, found.
    by rewrite (eff_empty _ n v Hz).
  - destruct (large_ok_facts _ Hx) as (Hne & Hla & Hva). rewrite Hva, Hla. cbn [negb split_large virt_to_phys_map large_capable Nat.eqb op_sub].
    unfold bind, check. rewrite Hla, v2p_huge by done. unfold ret, found. cbn [eff]. rewrite Hne, Hla. change (Z.of_nat 0) with 0.
    rewrite small_of_nonempty; [done|done|]. apply pt_index_bound. lia.
  - rewrite (in_valid _ _ Hi), (in_large _ _ Hi). cbn [negb]. unfold ret at 1. unfold next_pt_addr. rewrite (in_large _ _ Hi).
    pose proof (sz_pos l) as Hp. pose proof (sz_le l Hl) as Hle.
    destruct (slot_range v l base H0 Hd Hb) as [Hj Hjv]. 
    assert ((sz l | base)) as Hdl by (etrans; [|exact Hd]; rewrite sz_S; apply Z.divide_factor_r).
    destruct (vb_slot base (pt_index v (Z.of_nat l)) l Hdl Hjv) as [Hs1 Hs2].
    assert (pt_index vb (Z.of_nat l) = pt_index v (Z.of_nat l)) as Ej by (apply (slot_of _ l base); [done|done|done|lia]).
    rewrite Ej. set (j := pt_index v (Z.of_nat l)) in *. fold (sz l).
    pose proof (Z.mul_le_mono_nonneg_r 0 j (sz l) ltac:(lia) ltac:(lia)) as Hm0.
    rewrite (wrap64_small (base + j * sz l)), extend47_small by (unfold u64; lia).
    rewrite (wrap64_small (vb + page_size - 1)) by (unfold u64; lia).
    destruct (lookup_lt_is_Some_2 (table n) (Z.to_nat j)) as [k Ek]; [rewrite (in_len _ _ Hi); lia|].
    pose proof (Forall_lookup_1 _ _ _ _ Hk Ek) as Hkw.
    assert ((sz l | base + j * sz l)) as Hdj by (apply Z.divide_add_r; [done|apply Z.divide_factor_r]).
    unfold bind at 1. rewrite (slots_loop_once (virt_to_phys_map nr v) _ _ _ _ 511 _ _ _ _ _ _ k eq_refl Ek). unfold bind at 1.
    rewrite v2p_visit; [|done|lia|done|lia|lia|done|done|intros l' ->; eapply Hbelow; [done|done|lia|done|lia]].
    unfold ret. rewrite list_insert_id by done.
    assert (Node (word n) (table n) = n) as -> by (by destruct n).
    unfold found. by rewrite (eff_inter l n v k Hi Ek).
Qed.

Lemma v2p_walk l : (l ≤ 3)%nat → ∀ n base (s : wst),
  wfn (S l) n → 0 ≤ base → (sz (S l) | base) → base ≤ v < base + sz (S l) → result s = None →
  map_level im (virt_to_phys_map nr v) vb page_size l n base vb page_size s = Ret n (found (S l) n s).
Proof using Hnr Hv.
  induction l as [|l IH]; intros Hl n base s Hn H0 Hd Hb Hr.
  - apply (v2p_level 0 (λ p _ _ _, ret p)); try done.
  - apply (v2p_level (S l) (map_level im (virt_to_phys_map nr v) vb page_size l)); try done.
    intros l' k b [= <-] Hk Hb0 Hdb Hbv. apply IH; (done || lia).
Qed.

(** C36: [virt_to_phys_pt] walks to the page of the address and returns the physical
    address the page table gives it, through small and large pages; it fails its
    assertion exactly if the page is not mapped, and changes nothing. *)
Theorem virt_to_phys_pt_correct root s :
  wfn 4 root → result s = None →
  virt_to_phys_pt im nr root v s =
    if empty (eff 4 root v) then Fault
    else Ret (addr 0 (eff 4 root v) + v mod page_size) (set_result (addr 0 (eff 4 root v) + v mod page_size) s).
Proof using Hnr Hv.
  intros Hw Hr. unfold virt_to_phys_pt, map_range.
  assert (align_down v page_size = vb) as ->.
  { change page_size with (2 ^ 12). apply align_down_pow2; [unfold u64; lia|lia]. }
  unfold bind. rewrite (v2p_walk 3); [|lia|done|lia|apply Z.divide_0_r|change (sz 4) with (2 ^ 48); lia|done].
  unfold get, found. destruct (empty (eff 4 root v)); [by rewrite Hr|done].
Qed.
End Lookup.
End Ops.
