(* ===== verification/BootFrames.v ===== *)
(** * Frames before the page pools

    [memory::alloc_page] and [memory::alloc_huge_page] before the allocator is
    told that the CPUs are up take their pages from the page ranges directly:
    they are an instance of what the page tables need, so the theorems on page
    tables hold with the allocator of this development. *)
From S2P Require Import Prelude Bits MemArea PageRange PageRangeSpec Memory Reclaim Large PagePool Pte PageTable PageTableSpec PageOps.
Import PageRanges.
Import Pte.
Import Memory.
Import Large.

(** ** Pages of a block, joined *)

Lemma inv_unblocks s l : ∀ bs lm, inv s (l ++ bs) lm → inv s bs (l ++ lm).
Proof.
  induction l as [|x l IH]; intros bs lm Hi; [done|]. cbn [app] in Hi. apply inv_unblock, IH in Hi.
  eapply inv_limbo_perm; [|exact Hi]. cbn. symmetry. apply Permutation_middle.
Qed.

Lemma inv_reblock s bs lm x :
  inv s bs (x :: lm) → get_bit s (page_no x.1) = false → get_bit s (page_no (x.1 + x.2) - 1) = false →
  inv s (x :: bs) lm.
Proof.
  intros Hi H1 H2. assert (ranges s ++ (x :: bs) ++ lm ≡ₚ ranges s ++ bs ++ x :: lm) as Hall.
  { by rewrite <- Permutation_middle. }
  split; try apply Hi.
  - intros y. rewrite Hall. apply Hi.
  - eapply (pairwise_perm _ _ _ disj_sym); [symmetry; exact Hall|apply Hi].
  - intros y [->|Hy]%elem_of_cons; [done|by apply Hi].
  - intros i Hpos Hb. eapply covered_mono; [|by apply (i_bits_covered _ _ _ Hi)]. intros y. by rewrite Hall.
Qed.

Lemma wf_join_block s p n bs :
  (0 < n)%nat → wf s (page_blocks (page_addr p) n ++ bs) → wf s ((page_addr p, Z.of_nat n * page_size) :: bs).
Proof.
  intros Hn Hwf. pose proof (inv_unblocks _ _ _ _ Hwf) as Hi. rewrite app_nil_r in Hi.
  assert (∀ i, p ≤ i < p + Z.of_nat n → (page_addr i, page_size) ∈ page_blocks (page_addr p) n) as Hin.
  { intros i Hi'. apply page_blocks_elem. eauto. }
  assert (∀ i, p ≤ i < p + Z.of_nat n → get_bit s i = false ∧ 0 ≤ i ∧ i < Z.of_nat (length (bitmap s))) as Hbit.
  { intros i Hi'. specialize (Hin i Hi').
    destruct (i_bits_block _ _ _ Hwf (page_addr i, page_size)) as [Hb _]; [elem|]. cbn in Hb. rewrite page_no_addr in Hb.
    destruct (i_fits _ _ _ Hwf (page_addr i, page_size)) as (q & k & [= E1 E2] & ? & ? & ?); [elem|].
    assert (q = i ∧ k = 1) as [-> ->] by (unfold page_addr, page_size in *; lia). split_and!; [done|lia|lia]. }
  apply inv_reblock.
  - eapply inv_limbo; [exact Hi|..].
    + intros x ->%list_elem_of_singleton. exists p, (Z.of_nat n).
      destruct (Hbit p) as (_ & ? & _); [lia|]. destruct (Hbit (p + Z.of_nat n - 1)) as (_ & _ & ?); [lia|].
      split_and!; [done|lia..].
    + intros i. rewrite covered_cons, covered_nil, covers_page, page_blocks_covered. tauto.
    + by split; [apply Forall_nil|].
  - cbn. rewrite page_no_addr. apply Hbit. lia.
  - cbn. rewrite page_no_end. apply Hbit. lia.
Qed.

(** ** The pages that are free *)

Lemma early_page_pages m bs a m' :
  mem_ok m bs → early_alloc_page m = (Some a, m') →
  ∀ i, covered (ranges (pra m)) i ↔ covers (a, page_size) i ∨ covered (ranges (pra m')) i.
Proof.
  intros Hm. unfold early_alloc_page. destruct (on_alloc_fields m page_size) as (F1 & _).
  rewrite F1. destruct (alloc true (pra m) page_size true) as [r s] eqn:Ea. intros [-> <-]%pair_equal_spec.
  assert (taken (pra m) s (blocks m bs) a page_size) as Ht.
  { eapply (alloc_taken _ _ 1 true); [by apply mem_ok_wf|lia|done]. }
  apply Ht.
Qed.

Lemma huge_page_pages m bs a m' :
  mem_ok m bs → alloc_huge_page m (2 ^ 21) = (Some a, m') →
  ∀ i, covered (ranges (pra m)) i ↔ covers (a, 2 ^ 21) i ∨ covered (ranges (pra m')) i.
Proof.
  intros Hm. unfold alloc_huge_page.
  destruct (alloc_aligned (pra m) (2 ^ 21) 0 (2 ^ 21) true) as [[a'|] s] eqn:Ea; intros [= -> <-].
  destruct (on_alloc_fields (set_pra m s) (2 ^ 21)) as (F1 & _). rewrite F1. cbn [pra set_pra].
  destruct (alloc_aligned_taken (pra m) (blocks m bs) 512 0 21 true a s) as [Ht _]; [by apply mem_ok_wf|lia|lia|lia|exact Ea|].
  exact (tk_pages _ _ _ _ _ Ht).
Qed.

Lemma freed_pages m bs a n :
  mem_ok m ((a, n) :: bs) →
  ∀ i, covered (ranges (pra (free_page_range_at m a n))) i ↔ covers (a, n) i ∨ covered (ranges (pra m)) i.
Proof.
  intros (k & m0 & HL & Hm). rewrite (lk_pra _ _ _ (like_free k m m0 a n HL)), (lk_pra _ _ _ HL). clear m HL. rename m0 into m. pose proof (mem_set_hdr _ _ _ _ n Hm) as Hm'.
  destruct (block_released _ _ a n Hm') as (_ & _ & _ & Hc).
  { cbn [pra set_pra]. rewrite pr_size_set_hdr. by rewrite decide_True. }
  intros i. rewrite Hc. cbn [pra set_pra]. rewrite ranges_set_hdr; [done|].
  eapply (block_not_free _ _ _ _ n); [apply Hm|]. rewrite blocks_cons. elem.
Qed.

Lemma page_blocks_first v n : 0 < Z.of_nat n → (v, page_size) ∈ page_blocks v n.
Proof.
  intros Hn. apply list_elem_of_fmap. exists 0. rewrite Z.mul_0_l, Z.add_0_r. split; [done|]. apply elem_of_seqZ. lia.
Qed.

(** ** The instance *)

Section Boot.
Context (im : image) (bs : list (Z * Z)).

Definition boot_alloc_page : prog mem Z := λ m,
  match early_alloc_page m with
  | (Some v, m) => Ret v m
  | (None, m) => Ret 0 m
  end.
Definition boot_out (m : mem) : Prop := ranges (pra m) = [].
Definition boot_free_page (v : Z) : prog mem unit := λ m, Ret tt (early_free_page m v).
Definition boot_alloc_huge : prog mem Z := λ m,
  match alloc_huge_page m huge_page_size with
  | (Some v, m) => Ret v m
  | (None, m) => Ret 0 m
  end.
Definition boot_free_huge (v : Z) : prog mem unit := λ m, Ret tt (free_huge_page m v huge_page_size).

(** The frame of a page, and of a huge page; its pages, one block each. *)
Definition shape (r : Z * Z) : Prop := (r.2 | r.1) ∧ (r.2 = page_size ∨ r.2 = huge_page_size).
Definition pages_of (r : Z * Z) : list (Z * Z) := page_blocks (phys_mem + r.1) (Z.to_nat (r.2 / page_size)).
Definition held_blocks (h : list (Z * Z)) : list (Z * Z) := h ≫= pages_of.

(** The frames [h] are in use, and so are the blocks [bs] that are not frames; no
    page of the allocator is part of the kernel's image.  The counter of free memory
    is off once a page was refused. *)
Record boot_inv (m : mem) (h : list (Z * Z)) : Prop := {
  bi_mem : mem_ok m (held_blocks h ++ bs);
  bi_shape : Forall shape h;
  bi_plain i : covered (ranges (pra m)) i ∨ covered (held_blocks h) i → plain im (i * page_size);
}.

Lemma pages_of_shape r :
  shape r → ∃ p n, 0 < n ∧ r = (p * page_size, n * page_size) ∧ pages_of r = page_blocks (page_addr p) (Z.to_nat n).
Proof.
  intros [Hd Hs]. assert (∃ n, 0 < n ∧ r.2 = n * page_size) as (n & Hn & En).
  { destruct Hs as [->| ->]; [by exists 1|by exists 512]. }
  destruct Hd as [q Hq]. exists (q * n), n. split_and!; [done| |].
  - destruct r as [a b]. cbn in *. subst b. f_equal. lia.
  - unfold pages_of, page_addr. rewrite En. rewrite Z.div_mul by done. f_equal. rewrite Hq, En. lia.
Qed.

Lemma pages_of_frame r x :
  shape r → x ∈ pages_of r ↔ ∃ i, x = (page_addr i, page_size) ∧ r.1 ≤ i * page_size < r.1 + r.2.
Proof.
  intros (p & n & Hn & -> & ->)%pages_of_shape. rewrite page_blocks_elem. cbn [fst snd].
  split; intros (i & -> & Hi); exists i; (split; [done|]); unfold page_size in *; lia.
Qed.

Lemma pages_of_covered r i : shape r → covered (pages_of r) i ↔ r.1 ≤ i * page_size < r.1 + r.2.
Proof.
  intros (p & n & Hn & -> & ->)%pages_of_shape. rewrite page_blocks_covered. cbn [fst snd].
  unfold page_size. lia.
Qed.

Lemma frame_covers pa n i : covers (phys_mem + pa, n) i ↔ pa ≤ i * page_size < pa + n.
Proof. unfold covers, page_addr. cbn [fst snd]. lia. Qed.

Lemma boot_perm m h h' : h ≡ₚ h' → boot_inv m h → boot_inv m h'.
Proof using Type.
  intros Hp []. assert (held_blocks h ≡ₚ held_blocks h') as Hb by (unfold held_blocks; by rewrite Hp).
  split.
  - eapply mem_ok_perm; [|done]. by rewrite Hb.
  - by rewrite <- Hp.
  - intros i. rewrite <- (covered_perm _ _ _ Hb). auto.
Qed.

Lemma boot_frame_ok m h r : boot_inv m h → r ∈ h → frame_ok im r.
Proof using Type.
  intros [Hm Hs Hp] Hr. pose proof (proj1 (Forall_forall _ _) Hs _ Hr) as Hsh.
  assert (∀ i, r.1 ≤ i * page_size < r.1 + r.2 → 0 ≤ i < 2 ^ 32 ∧ plain im (i * page_size)) as Hall.
  { intros i Hi. assert ((page_addr i, page_size) ∈ held_blocks h) as Hin.
    { apply list_elem_of_bind. exists r. split; [|done]. apply pages_of_frame; eauto. }
    split; [|apply Hp; right; exists (page_addr i, page_size); split; [done|apply (covers_page i 1); lia]].
    pose proof (i_lim _ _ _ (mem_ok_wf _ _ Hm)).
    destruct (i_fits _ _ _ (mem_ok_wf _ _ Hm) (page_addr i, page_size)) as (q & k & [= E1 E2] & ? & ? & ?);
      [unfold blocks; elem|]. unfold page_addr, page_size in *. lia. }
  destruct (pages_of_shape r Hsh) as (p & n & Hn & -> & _). cbn [fst snd] in Hall.
  destruct (Hall p) as [H1 H2]; [unfold page_size; lia|].
  destruct (Hall (p + n - 1)) as [H3 _]; [unfold page_size; lia|].
  destruct Hsh as [Hd Hz]. split_and!; cbn [fst snd] in *; try done; rewrite ?mem_area_size_eq; unfold page_size in *; lia.
Qed.

Lemma shape_apart r r' :
  shape r → shape r' → (∀ x y, x ∈ pages_of r → y ∈ pages_of r' → disj x y) → apart r r'.
Proof using Type.
  intros Hr Hr' Hd.
  assert (∀ i, r.1 ≤ i * page_size < r.1 + r.2 → r'.1 ≤ i * page_size < r'.1 + r'.2 → False) as Hno.
  { intros i Hi Hi'. assert (disj (page_addr i, page_size) (page_addr i, page_size)) as [|].
    { apply Hd; apply pages_of_frame; eauto. }
    all: cbn in *; unfold page_size in *; lia. }
  destruct (pages_of_shape r Hr) as (p & n & Hn & -> & _).
  destruct (pages_of_shape r' Hr') as (q & k & Hk & -> & _). cbn [fst snd] in *. unfold apart. cbn [fst snd].
  pose proof (Hno p). pose proof (Hno q). unfold page_size in *. lia.
Qed.

Lemma boot_apart m h : boot_inv m h → pairwise apart h.
Proof using Type.
  intros [Hm Hs _]. pose proof (i_disj _ _ _ (mem_ok_wf _ _ Hm)) as Hd. unfold blocks in Hd.
  rewrite !pairwise_app in Hd. assert (pairwise disj (held_blocks h)) as Hp by tauto. clear Hd Hm.
  induction h as [|r h IH]; [done|]. unfold held_blocks in Hp. cbn [mbind list_bind] in Hp.
  rewrite pairwise_app in Hp. destruct Hp as (_ & H2 & H3). inversion Hs as [|? ? Hr Hh]; subst.
  split; [|by apply IH]. apply Forall_forall. intros r' Hr'.
  apply shape_apart; [done|by apply (proj1 (Forall_forall _ _) Hh)|].
  intros x y Hx Hy. apply H3; [done|]. apply list_elem_of_bind. eauto.
Qed.

Lemma boot_split m h pa : boot_inv m ((pa, huge_page_size) :: h) → boot_inv m (small_pieces pa ++ h).
Proof using Type.
  intros [Hm Hs Hp]. inversion Hs as [|? ? Hr Hh]; subst.
  assert (held_blocks (small_pieces pa) = pages_of (pa, huge_page_size)) as E.
  { unfold held_blocks, small_pieces, pages_of, page_blocks. cbn [fst snd].
    change (Z.of_nat (Z.to_nat (huge_page_size / page_size))) with 512. generalize (seqZ 0 512). intros l.
    induction l as [|i l IH]; [done|]. cbn [fmap list_fmap mbind list_bind fst snd]. rewrite IH.
    change (seqZ 0 (Z.of_nat (Z.to_nat (page_size / page_size)))) with [0].
    cbn [fmap list_fmap app]. f_equal. f_equal. lia. }
  assert (held_blocks (small_pieces pa ++ h) = held_blocks ((pa, huge_page_size) :: h)) as Eh.
  { unfold held_blocks in *. by rewrite bind_app, E. }
  split; [by rewrite Eh| |by rewrite Eh].
  apply Forall_app. split; [|done]. apply Forall_fmap, Forall_forall. intros i _.
  split; [|by left]. cbn. destruct Hr as [[q Hq] _]. cbn in Hq. rewrite Hq.
  exists (q * 512 + i). change huge_page_size with (512 * page_size). lia.
Qed.

Lemma boot_taken m m' h v n :
  boot_inv m h → n = page_size ∨ n = huge_page_size → (n | v) →
  mem_ok m' (page_blocks v (Z.to_nat (n / page_size)) ++ held_blocks h ++ bs) →
  (∀ i, covered (ranges (pra m)) i ↔ covers (v, n) i ∨ covered (ranges (pra m')) i) →
  in_area main v ∧ boot_inv m' ((v - phys_mem, n) :: h).
Proof using Type.
  intros [Hm Hs Hp] Hn Hd Hm' Hc.
  assert ((v, page_size) ∈ page_blocks v (Z.to_nat (n / page_size))) as Hv.
  { apply page_blocks_first. by destruct Hn as [->| ->]. }
  destruct (i_fits _ _ _ (mem_ok_wf _ _ Hm') (v, page_size)) as (p & k & [= -> Ek] & Hp0 & ? & Hk); [unfold blocks; elem|].
  pose proof (i_lim _ _ _ (mem_ok_wf _ _ Hm')) as Hlim.
  assert (shape (page_addr p - phys_mem, n)) as Hsh.
  { split; [|done]. apply Z.divide_sub_r; [done|]. by destruct Hn as [->| ->]; apply Z.mod_divide. }
  assert (phys_mem + (page_addr p - phys_mem) = page_addr p) as E by lia.
  split; [|split].
  - unfold in_area. change (get_mem_area_base main) with phys_mem. rewrite mem_area_size_eq.
    unfold page_addr, page_size in *. lia.
  - unfold held_blocks, pages_of at 1. cbn [mbind list_bind fst snd]. by rewrite E, <- app_assoc.
  - by constructor.
  - intros i. unfold held_blocks. cbn [mbind list_bind]. rewrite covered_app, pages_of_covered by done.
    cbn [fst snd]. rewrite <- frame_covers, E. specialize (Hc i). specialize (Hp i). unfold held_blocks in Hp. tauto.
Qed.

Lemma boot_released m h pa n :
  boot_inv m ((pa, n) :: h) → boot_inv (free_page_range_at m (phys_mem + pa) n) h.
Proof using Type.
  intros [Hm Hs Hp]. inversion Hs as [|? ? Hr Hh]; subst.
  destruct (pages_of_shape _ Hr) as (p & k & Hk & [= -> ->] & E).
  change (phys_mem + p * page_size) with (page_addr p).
  assert (mem_ok m ((page_addr p, k * page_size) :: held_blocks h ++ bs)) as Hm1.
  { unfold held_blocks in Hm. cbn [mbind list_bind] in Hm. fold (held_blocks h) in Hm.
    rewrite E, <- app_assoc in Hm. apply (mem_ok_blocks _ _ _ Hm).
    - eapply inv_blocks_perm; [symmetry; apply blocks_cons|]. rewrite <- (Z2Nat.id k) by lia.
      apply wf_join_block; [lia|]. eapply inv_blocks_perm; [|apply mem_ok_wf, Hm]. unfold blocks.
      rewrite !(assoc_L (++)). do 2 f_equiv. by rewrite (comm (++)).
    - intros i. rewrite covered_cons, (covered_app (page_blocks _ _)), covers_page, page_blocks_covered. by rewrite Z2Nat.id by lia. }
  split; [by apply mem_ok_freed|done|].
  intros i. rewrite (freed_pages _ _ _ _ Hm1). intros Hi. apply Hp.
  unfold held_blocks. cbn [mbind list_bind]. rewrite covered_app, E, page_blocks_covered, Z2Nat.id by lia.
  rewrite covers_page in Hi. unfold held_blocks in Hi. tauto.
Qed.

Lemma boot_alloc_page_spec m h :
  boot_inv m h →
  wp boot_alloc_page m
    (λ v m', v = 0 ∧ boot_inv m' h ∧ boot_out m' ∨
       v ≠ 0 ∧ in_area main v ∧ boot_inv m' ((v - phys_mem, page_size) :: h)) boot_out False.
Proof using Type.
  intros Hb. pose proof Hb as [Hm Hs Hp]. unfold wp, boot_alloc_page.
  destruct (early_alloc_page m) as [[v|] m'] eqn:E.
  2: { destruct (mem_ok_early_null _ _ _ Hm E) as (Hm' & Er & He). left. unfold boot_out.
       split_and!; [done|split; [done|done|by rewrite Er]|by rewrite Er]. }
  right. pose proof (mem_ok_early _ _ _ _ Hm E) as Hm'.
  assert (in_area main v ∧ boot_inv m' ((v - phys_mem, page_size) :: h)) as [Ha Hi]; [|split_and!; [by intros ->; destruct Ha|done..]].
  apply (boot_taken m); [done|by left| | |by eapply early_page_pages].
  - destruct (i_fits _ _ _ (mem_ok_wf _ _ Hm') (v, page_size)) as (p & k & [= -> _] & _); [unfold blocks; elem|].
    apply Z.divide_add_r; [by apply Z.mod_divide|by exists p].
  - change (page_blocks v (Z.to_nat (page_size / page_size))) with [(v + 0 * page_size, page_size)].
    by rewrite Z.mul_0_l, Z.add_0_r.
Qed.

Lemma boot_alloc_huge_spec m h :
  boot_inv m h →
  wp boot_alloc_huge m
    (λ v m', v = 0 ∧ boot_inv m' h ∨ v ≠ 0 ∧ in_area main v ∧ boot_inv m' ((v - phys_mem, huge_page_size) :: h))
    (λ _, False) False.
Proof using Type.
  intros Hb. pose proof Hb as [Hm Hs Hp]. unfold wp, boot_alloc_huge. change huge_page_size with (2 ^ 21).
  destruct (alloc_huge_page m (2 ^ 21)) as [r m'] eqn:E.
  pose proof (mem_ok_huge _ _ 21 _ _ Hm ltac:(lia) E) as H. destruct r as [v|].
  - right. destruct H as (Hd & Hm').
    destruct (boot_taken m m' h v (2 ^ 21)) as [Ha Hb']; [done|by right|done|done|by eapply huge_page_pages|].
    split_and!; [|done..]. intros ->. by destruct Ha.
  - left. destruct H as [Hm' Er]. split; [done|]. split; [done|done|by rewrite Er].
Qed.

Lemma boot_out_page m h : boot_inv m h → boot_out m → wp boot_alloc_page m (λ v m', v = 0 ∧ boot_out m') boot_out False.
Proof using Type.
  intros [Hm _ _] Ho. unfold wp, boot_alloc_page, boot_out in *. destruct (early_alloc_page m) as [[v|] m'] eqn:E.
  - exfalso. pose proof (early_page_pages _ _ _ _ Hm E) as Hc. pose proof (mem_ok_wf _ _ (mem_ok_early _ _ _ _ Hm E)) as Hw.
    destruct (i_fits _ _ _ Hw (v, page_size)) as (p & k & [= -> _] & _); [unfold blocks; elem|].
    destruct (proj2 (Hc p)) as (x & Hx & _); [left; apply (covers_page p 1); lia|]. rewrite Ho in Hx. by apply elem_of_nil in Hx.
  - destruct (mem_ok_early_null _ _ _ Hm E) as (_ & Er & He). by rewrite Er.
Qed.

Lemma boot_out_huge m h :
  boot_inv m h → boot_out m → wp boot_alloc_huge m (λ v m', v = 0 ∧ boot_out m') (λ _, False) False.
Proof using Type.
  intros [Hm _ _] Ho. unfold wp, boot_alloc_huge, boot_out in *. change huge_page_size with (2 ^ 21).
  destruct (alloc_huge_page m (2 ^ 21)) as [r m'] eqn:E. pose proof (mem_ok_huge _ _ 21 _ _ Hm ltac:(lia) E) as H. destruct r as [v|].
  - exfalso. destruct H as (_ & Hm'). pose proof (huge_page_pages _ _ _ _ Hm E) as Hc.
    destruct (i_fits _ _ _ (mem_ok_wf _ _ Hm') (v, page_size)) as (p & k & [= -> _] & _).
    { unfold blocks. apply elem_of_app. right. apply elem_of_app. left. apply elem_of_app. right. apply elem_of_app. left.
      by apply page_blocks_first. }
    destruct (proj2 (Hc p)) as (x & Hx & _); [left; apply (covers_page p 512); lia|]. rewrite Ho in Hx. by apply elem_of_nil in Hx.
  - destruct H as [_ ->]. done.
Qed.
End Boot.

#[global] Program Instance boot_frames (im : image) (bs : list (Z * Z)) : Frames im mem := {|
  fr_alloc_page := boot_alloc_page;
  fr_free_page := boot_free_page;
  fr_alloc_huge := boot_alloc_huge;
  fr_free_huge := boot_free_huge;
  fr_inv := boot_inv im bs;
  fr_out := boot_out;
  fr_perm := boot_perm im bs;
  fr_alloc_page_spec := boot_alloc_page_spec im bs;
  fr_out_page := boot_out_page im bs;
  fr_alloc_huge_spec := boot_alloc_huge_spec im bs;
  fr_out_huge := boot_out_huge im bs;
  fr_split := boot_split im bs;
|}.
Next Obligation.
  intros im bs m h Hb. split; [|by eapply boot_apart]. apply Forall_forall. intros r. by eapply boot_frame_ok.
Qed.
Next Obligation. intros im bs m h pa Hb. by apply boot_released. Qed.
Next Obligation. intros im bs m h pa Hb. by apply boot_released. Qed.

(** ** An example: a machine with ten pages *)

Import PageTable.

Definition ex_image : image := mkImage 0x40200000 0x200000 0x800000 0x40000000.
#[global] Instance ex_frames : Frames ex_image mem := boot_frames ex_image [].

Definition ex_start : wst := start_wst ex_mem.

Lemma ex_image_ok : image_ok ex_image.
Proof. done. Qed.

Lemma ex_owned : owned ex_image (frames 4 empty_node ++ []) ex_start.
Proof.
  split; [exact (mem_inv_ok _ _ ex_mem_inv)|by constructor|].
  intros i [Hi|(x & Hx & _)]; [|by apply not_elem_of_nil in Hx].
  assert (ranges (pra ex_mem) = [(page_addr 2, 9 * page_size)]) as E by (vm_compute; reflexivity).
  change (fr ex_start) with ex_mem in Hi. rewrite E, covered_cons, covered_nil, covers_page in Hi. unfold plain. rewrite mem_area_size_eq.
  cbn [elf_phys_start elf_size ex_image]. unfold page_size. lia.
Qed.

(** Two pages at 2^32, populated. *)
Definition ex_populate : prog wst (node * Z) :=
  operate_range ex_image (populate ex_image 2 true perm_rwx true false) no_flush empty_node (2 ^ 32) (2 ^ 32)
    (2 * page_size).
Definition ex_root : node := (match ex_populate ex_start with Ret r _ => r | _ => (empty_node, 0) end).1.
Definition ex_after : wst := match ex_populate ex_start with Ret _ s => s | _ => ex_start end.

Lemma ex_finished : finished (ex_populate ex_start) = true.
Proof. vm_compute. reflexivity. Qed.

Lemma ex_populated : wfn 4 ex_root ∧ owned ex_image (frames 4 ex_root ++ []) ex_after.
Proof.
  refine (wp_finished ex_populate ex_start (empty_node, 0) ex_start
    (λ r s, wfn 4 r.1 ∧ owned ex_image (frames 4 r.1 ++ []) s) (out_of_pages ex_image) _ ex_finished).
  - unfold ex_populate. eapply (operate_range_spec ex_image); [by apply (populate_ok ex_image ex_image_ok); [lia|]|..].
    + done.
    + done.
    + done.
    + by exists (2 ^ 20).
    + by exists 2.
    + by left.
    + exact ex_owned.
    + intros root' s' Hw Ho _. apply after_walk_flush; [by eexists|]. intros n. exact (conj Hw Ho).
Qed.

Lemma linear_map_witness :
  let go := linear_map ex_image 2 empty_node (2 ^ 32) 0x10000000 huge_page_size page_size in
  finished (go ex_start) = true ∧
  wp go ex_start
    (λ root' s', wfn 4 root' ∧ (∃ h, fr_inv (fr s') h) ∧
       ∀ v, 0 ≤ v < 2 ^ 48 →
         translate root' v = if decide (2 ^ 32 ≤ v < 2 ^ 32 + huge_page_size)
                             then Some (0x10000000 + (v - 2 ^ 32)) else translate empty_node v)
    (out_of_pages ex_image) False.
Proof.
  split; [vm_compute; reflexivity|].
  apply (linear_map_correct ex_image ex_image_ok 2 (2 ^ 32) 0x10000000 huge_page_size).
  - lia.
  - right. by exists (0x80 - 2 ^ 11).
  - done.
  - done.
  - done.
  - done.
  - done.
  - by exists (2 ^ 20).
  - by exists 0x10000.
  - by exists 512.
  - by left.
  - eexists. exact ex_owned.
Defined.

Lemma protection_witness :
  let go := operate_range ex_image (protection 2 1) flag_flush ex_root (2 ^ 32) (2 ^ 32) page_size in
  finished (go ex_after) = true ∧
  wp go ex_after
    (λ r s', wfn 4 r.1 ∧ owned ex_image (frames 4 r.1 ++ []) s' ∧
       ∀ v, 0 ≤ v < 2 ^ 48 →
         eff 4 r.1 v = if decide (2 ^ 32 ≤ v < 2 ^ 32 + page_size)
                       then (if empty (eff 4 ex_root v) then 0 else (change_perm 0 (eff 4 ex_root v) 1).1)
                       else eff 4 ex_root v)
    (out_of_pages ex_image) False.
Proof.
  split; [vm_compute; reflexivity|].
  apply (protection_correct ex_image ex_image_ok 2 (2 ^ 32) 1).
  - lia.
  - exact (proj1 ex_populated).
  - exact (proj2 ex_populated).
  - unfold page_size. lia.
  - unfold page_size. lia.
  - unfold page_size. lia.
  - by exists (2 ^ 20).
  - by exists 1.
Defined.

Lemma unpopulate_witness :
  let go := operate_range ex_image (unpopulate ex_image 2 true) (unpopulate_flush ex_image) ex_root (2 ^ 32)
              (2 ^ 32 + page_size) page_size in
  finished (go ex_after) = true ∧
  wp go ex_after
    (λ r s', wfn 4 r.1 ∧ gather s' = [] ∧ owned ex_image (frames 4 r.1 ++ []) s' ∧
       ∀ v, 0 ≤ v < 2 ^ 48 →
         eff 4 r.1 v = if decide (2 ^ 32 + page_size ≤ v < 2 ^ 32 + page_size + page_size) then 0 else eff 4 ex_root v)
    (out_of_pages ex_image) False.
Proof.
  split; [vm_compute; reflexivity|].
  apply (unpopulate_correct ex_image ex_image_ok 2 (2 ^ 32) true).
  - lia.
  - exact (proj1 ex_populated).
  - exact (proj2 ex_populated).
  - unfold page_size. lia.
  - unfold page_size. lia.
  - unfold page_size. lia.
  - by exists (2 ^ 20 + 1).
  - by exists 1.
Defined.

Lemma populate_witness :
  let go := operate_range ex_image (populate ex_image 2 true 3 true false) no_flush ex_root (2 ^ 32)
              (2 ^ 32 + page_size) (2 * page_size) in
  finished (go ex_after) = true ∧
  wp go ex_after
    (λ r s', wfn 4 r.1 ∧ owned ex_image (frames 4 r.1 ++ []) s' ∧
       ∀ v, 0 ≤ v < 2 ^ 48 →
         if decide (2 ^ 32 + page_size ≤ v < 2 ^ 32 + page_size + 2 * page_size)
         then if empty (eff 4 ex_root v)
              then (∃ pa, 0 ≤ pa < 2 ^ 44 ∧ (page_size | pa) ∧ eff 4 r.1 v = new_leaf 0 true pa 3) ∨
                   eff 4 r.1 v = 0 ∧ out_of_pages ex_image s'
              else eff 4 r.1 v = eff 4 ex_root v
         else eff 4 r.1 v = eff 4 ex_root v)
    (out_of_pages ex_image) False.
Proof.
  split; [vm_compute; reflexivity|].
  apply (populate_correct ex_image ex_image_ok 2 (2 ^ 32) 3 true true false ltac:(lia) ltac:(lia) false).
  - exact (proj1 ex_populated).
  - exact (proj2 ex_populated).
  - unfold page_size. lia.
  - unfold page_size. lia.
  - unfold page_size. lia.
  - by exists (2 ^ 20 + 1).
  - by exists 2.
Defined.

(** Twenty pages, of which the machine has five after the tables: the others stay
    unmapped, and the operation returns all the same. *)
Lemma populate_runs_dry :
  match operate_range ex_image (populate ex_image 2 true 3 true false) no_flush empty_node (2 ^ 32) (2 ^ 32) (20 * page_size) ex_start with
  | Ret (root, n) s =>
      n = 5 * page_size ∧ empty (eff 4 root (2 ^ 32 + 4 * page_size)) = false ∧ eff 4 root (2 ^ 32 + 5 * page_size) = 0 ∧
      ranges (pra (fr s)) = []
  | _ => False
  end.
Proof. vm_compute. split_and!; reflexivity. Qed.

Lemma virt_to_phys_pt_witness :
  ∃ pa, virt_to_phys_pt ex_image 2 ex_root (2 ^ 32 + 5) ex_after = Ret pa (set_result pa ex_after) ∧
        pa mod page_size = 5.
Proof.
  eexists. split.
  - rewrite (virt_to_phys_pt_correct ex_image 2 (2 ^ 32 + 5) ltac:(lia) ltac:(lia) ex_root ex_after).
    + assert (empty (eff 4 ex_root (2 ^ 32 + 5)) = false) as -> by (vm_compute; reflexivity). reflexivity.
    + exact (proj1 ex_populated).
    + vm_compute. reflexivity.
  - vm_compute. reflexivity.
Defined.

(** ** Pages without permissions *)

Definition ex_big : wst :=
  start_wst (default initial (free_initial_memory_range vector_growth initial (phys_mem + page_size) (1200 * page_size))).

(** A huge page of an area without permissions, populated. *)
Definition ex_none : prog wst (node * Z) :=
  operate_range ex_image (populate ex_image 2 true 0 true false) no_flush empty_node (2 ^ 32) (2 ^ 32) huge_page_size.

Definition run {S A} (m : prog S A) (s : S) (d : A) : A * S :=
  match m s with Ret a s => (a, s) | Blocked s => (d, s) | Fault => (d, s) end.

(** The whole operations: unpopulating one page of the huge page changes nothing in
    the table, giving the page permissions changes nothing, and populating the page
    afterwards fails an assertion. *)
Lemma prot_none_run :
  let '((root, n), s) := run ex_none ex_big (empty_node, 0) in
  let s := start_wst (fr s) in
  let page op flush := operate_range ex_image op flush root (2 ^ 32) (2 ^ 32) page_size s in
  n = huge_page_size ∧ empty (eff 4 root (2 ^ 32)) = false ∧ valid (eff 4 root (2 ^ 32)) = false ∧
  page (unpopulate ex_image 2 true) (unpopulate_flush ex_image) = Ret (root, 0) s ∧
  page (protection 2 perm_rwx) flag_flush = Ret (root, 0) s ∧
  page (populate ex_image 2 true perm_rwx true false) no_flush = Fault.
Proof. vm_compute. split_and!; reflexivity. Qed.

Lemma prot_none_huge_page_witness :
  let n := no_access true huge_page_size in
  empty (word n) = false ∧ valid (word n) = false ∧
  map_level ex_image (unpopulate ex_image 2 true) (2 ^ 32) page_size 0 n (2 ^ 32) (2 ^ 32) page_size ex_start = Ret n ex_start ∧
  wp (map_level ex_image (populate ex_image 2 true perm_rwx true false) (2 ^ 32) page_size 0 n (2 ^ 32) (2 ^ 32) page_size) ex_start
    (λ _ _, False) (out_of_pages ex_image) True.
Proof.
  destruct (prot_none_huge_page ex_image ex_image_ok ex_start (frames 4 empty_node ++ pending ex_start) ex_owned) as [_ H].
  assert (fits true huge_page_size) as Hf by (apply (fits_aligned true); [done|by exists 1]).
  destruct (H true huge_page_size Hf) as (H1 & H2 & H3). destruct (H3 2%nat true (2 ^ 32) (2 ^ 32) (2 ^ 32) page_size) as [H4 H5].
  split; [exact H1|]. split; [exact H2|]. split; [exact H4|]. exact (proj2 (H5 perm_rwx) true false).
Defined.
