(* ===== verification/Vma.v ===== *)
(** * Virtual memory areas

    The list of areas and the set of ranges of [core/mmu.cc] ([vma], [anon_vma],
    [vma_list], [vma_range_set]) and the system calls on them.  Both containers
    are ordered by the start of the area, which identifies it: an iterator is a
    start address, [None] the past-the-end one.  Dereferencing the past-the-end
    iterator or stepping in front of the first element is [None] of the result.
    What the operations ask of the page tables is logged in [ptops]. *)
From S2P Require Import Prelude Bits MemArea.

Module Vma.

Definition perm_read : Z := 1.
Definition perm_write : Z := 2.
Definition perm_exec : Z := 4.
Definition mmap_fixed : Z := 1.
Definition mmap_populate : Z := 2.
Definition mmap_small : Z := 32.
Definition mmap_uninitialized : Z := 8.
Definition advise_dontneed : Z := 1.
Definition advise_nohugepage : Z := 2.

Definition lower_vma_limit : Z := 0.
Definition upper_vma_limit : Z := 0x400000000000.

Record vma := mkVma { v_start : Z; v_end : Z; v_perm : Z; v_flags : Z }.

(** The constructor aligns the range. *)
Definition make_vma (start end_ perm flags : Z) : vma :=
  mkVma (align_down start page_size) (align_up end_ page_size) perm flags.
Definition vma_set (v : vma) (start end_ : Z) : vma :=
  mkVma (align_down start page_size) (align_up end_ page_size) (v_perm v) (v_flags v).
Definition vma_protect (v : vma) (perm : Z) : vma := mkVma (v_start v) (v_end v) perm (v_flags v).
Definition vma_size (v : vma) : Z := wrap64 (v_end v - v_start v).
Definition update_flags (v : vma) (flag : Z) : vma :=
  mkVma (v_start v) (v_end v) (v_perm v) (Z.lor (v_flags v) flag).
Definition has_flags (v : vma) (flag : Z) : bool := negb (Z.land (v_flags v) flag =? 0).

(** A call of [operate_range] with the start of the area, the address and the
    size. *)
Inductive ptop :=
  | Unpopulate (vma_start addr size : Z)
  | Protection (perm vma_start addr size : Z)
  | Populate (small : bool) (perm : Z) (write : bool) (vma_start addr size : Z)
  | Splithugepages (vma_start addr size : Z).

(** An element of [vma_range_set] points to an area, whose end is looked up, or
    is the range of a linear mapping. *)
Record vs := mk {
  vmas : list vma;
  ranges : list (Z * option Z);
  ptops : list ptop;
}.

Definition set_vmas (s : vs) (l : list vma) : vs := mk l (ranges s) (ptops s).
Definition set_ranges (s : vs) (l : list (Z * option Z)) : vs := mk (vmas s) l (ptops s).
Definition operate (s : vs) (o : ptop) : vs := mk (vmas s) (ranges s) (ptops s ++ [o]).

(** ** The containers *)

(** Insertion does nothing if the key is there. *)
Fixpoint vma_insert (v : vma) (l : list vma) : list vma :=
  match l with
  | [] => [v]
  | w :: l =>
      if v_start v <? v_start w then v :: w :: l
      else if v_start v =? v_start w then w :: l
      else w :: vma_insert v l
  end.

Fixpoint range_insert (r : Z * option Z) (l : list (Z * option Z)) : list (Z * option Z) :=
  match l with
  | [] => [r]
  | w :: l =>
      if r.1 <? w.1 then r :: w :: l
      else if r.1 =? w.1 then w :: l
      else w :: range_insert r l
  end.

Definition vma_erase (k : Z) (l : list vma) : list vma := filter (λ v, v_start v ≠ k) l.
Definition range_erase (k : Z) (l : list (Z * option Z)) : list (Z * option Z) :=
  filter (λ r, r.1 ≠ k) l.
Definition vma_update (k : Z) (f : vma → vma) (l : list vma) : list vma :=
  (λ v, if v_start v =? k then f v else v) <$> l.

Definition vma_find (k : Z) (l : list vma) : option vma := head (filter (λ v, v_start v = k) l).
Definition lower_bound (a : Z) (l : list vma) : option vma := head (filter (λ v, a ≤ v_start v) l).
Definition prev (k : Z) (l : list vma) : option vma := last (filter (λ v, v_start v < k) l).
Definition next_key (k : Z) (l : list vma) : option Z :=
  v_start <$> head (filter (λ v, k < v_start v) l).

(** The edges of the area that can be mapped. *)
Definition lower_edge : vma := make_vma lower_vma_limit lower_vma_limit 0 0.
Definition upper_edge : vma := make_vma upper_vma_limit upper_vma_limit 0 0.
Definition initial : vs :=
  let s := mk (vma_insert upper_edge (vma_insert lower_edge [])) [] [] in
  set_ranges s (range_insert (v_start upper_edge, None) (range_insert (v_start lower_edge, None) [])).

(** ** Searches *)

Definition contains (start end_ : Z) (y : vma) : bool :=
  (start <=? v_start y) && (v_end y <=? end_).

(** [Some None] is [vma_list.end()]. *)
Definition find_intersecting_vma (s : vs) (addr : Z) : option (option vma) :=
  v ← lower_bound addr (vmas s);
  if v_start v =? addr then Some (Some v)
  else
    w ← prev (v_start v) (vmas s);
    if (v_start w <=? addr) && (addr <? v_end w) then Some (Some w) else Some None.

Definition find_intersecting_vmas (s : vs) (rstart rend : Z) : option (option Z * option Z) :=
  if rend <=? rstart then Some (None, None)
  else
    v ← lower_bound rstart (vmas s);
    first ← (if rstart <? v_start v then
               p ← prev (v_start v) (vmas s);
               Some (if rstart <? v_end p then p else v)
             else Some v);
    if rend <=? v_start first then Some (None, None)
    else Some (Some (v_start first), v_start <$> lower_bound rend (vmas s)).

(** ** Changing the list *)

(** [anon_vma::split] of the area at [k]. *)
Definition split (k edge : Z) (s : vs) : vs :=
  match vma_find k (vmas s) with
  | None => s
  | Some v =>
      if (edge <=? v_start v) || (v_end v <=? edge) then s
      else
        let n := make_vma edge (v_end v) (v_perm v) (v_flags v) in
        let l := vma_update k (λ v, vma_set v (v_start v) edge) (vmas s) in
        set_ranges (set_vmas s (vma_insert n l)) (range_insert (v_start n, None) (ranges s))
  end.

Fixpoint evacuate_loop (fuel : nat) (start end_ : Z) (i stop : option Z) (s : vs) : option vs :=
  if decide (i = stop) then Some s
  else
    match fuel, i with
    | S fuel, Some k =>
        let s := split k start (split k end_ s) in
        v ← vma_find k (vmas s);
        if contains start end_ v then
          p ← prev k (vmas s);
          let s := operate s (Unpopulate (v_start v) (v_start v) (vma_size v)) in
          let s := set_vmas s (vma_erase k (vmas s)) in
          let s := set_ranges s (range_erase k (ranges s)) in
          evacuate_loop fuel start end_ (next_key (v_start p) (vmas s)) stop s
        else evacuate_loop fuel start end_ (next_key k (vmas s)) stop s
    | _, _ => None
    end.

(** Each area gives at most three pieces. *)
Definition loop_fuel (s : vs) : nat := 3 * length (vmas s).

Definition evacuate (start end_ : Z) (s : vs) : option vs :=
  '(i, stop) ← find_intersecting_vmas s start end_;
  evacuate_loop (loop_fuel s) start end_ i stop s.

Definition unmap (addr size : Z) (s : vs) : option vs :=
  let size := align_up size page_size in
  evacuate addr (wrap64 (addr + size)) s.

Fixpoint protect_loop (fuel : nat) (start end_ perm : Z) (i stop : option Z) (s : vs) : option vs :=
  if decide (i = stop) then Some s
  else
    match fuel, i with
    | S fuel, Some k =>
        v ← vma_find k (vmas s);
        if v_perm v =? perm then protect_loop fuel start end_ perm (next_key k (vmas s)) stop s
        else
          let s := split k start (split k end_ s) in
          v ← vma_find k (vmas s);
          let s :=
            if contains start end_ v then
              operate (set_vmas s (vma_update k (λ v, vma_protect v perm) (vmas s)))
                (Protection perm (v_start v) (v_start v) (vma_size v))
            else s in
          protect_loop fuel start end_ perm (next_key k (vmas s)) stop s
    | _, _ => None
    end.

Definition protect (addr size perm : Z) (s : vs) : option vs :=
  let end_ := wrap64 (addr + size) in
  '(i, stop) ← find_intersecting_vmas s addr end_;
  protect_loop (loop_fuel s) addr end_ perm i stop s.

(** ** Holes *)

Definition range_end (s : vs) (r : Z * option Z) : Z :=
  match r.2 with
  | Some e => e
  | None => default 0 (v_end <$> vma_find r.1 (vmas s))
  end.

(** [p] and the elements behind it; [Some None] is the exception [ENOMEM]. *)
Fixpoint hole_loop (s : vs) (p : Z * option Z) (rest : list (Z * option Z))
    (start size good_enough : Z) : option (option Z) :=
  match rest with
  | [] => None
  | n :: rest =>
      if n.1 <=? upper_vma_limit then
        let pend := range_end s p in
        if (pend <=? start) && (wrap64 (start + size) <=? n.1) then Some (Some start)
        else if (start <=? pend) && (size <=? wrap64 (n.1 - pend)) then
          if size <? huge_page_size then Some (Some pend)
          else if size <=? wrap64 (n.1 - align_up pend huge_page_size)
               then Some (Some (align_up pend huge_page_size))
               else hole_loop s n rest start size pend
        else hole_loop s n rest start size good_enough
      else if negb (good_enough =? 0) then Some (Some good_enough) else Some None
  end.

Definition find_hole (start size : Z) (s : vs) : option (option Z) :=
  let below := filter (λ r, r.1 < start) (ranges s) in
  let above := filter (λ r, start ≤ r.1) (ranges s) in
  match last below with
  | Some p => hole_loop s p above start size 0
  | None => match above with
            | p :: rest => hole_loop s p rest start size 0
            | [] => None
            end
  end.

Inductive errno := ENOMEM | EINVAL.

(** The start of the new area, or the exception of [find_hole]. *)
Definition allocate (v : vma) (start size : Z) (search : bool) (s : vs) : option ((Z + errno) * vs) :=
  let place start s :=
    let v := vma_set v start (wrap64 (start + size)) in
    let s := set_vmas s (vma_insert v (vmas s)) in
    Some (inl start, set_ranges s (range_insert (v_start v, None) (ranges s))) in
  if search then
    let start := if start =? 0 then 0x200000000000 else start in
    r ← find_hole start size s;
    match r with
    | Some start => place start s
    | None => Some (inr ENOMEM, s)
    end
  else
    s ← evacuate start (wrap64 (start + size)) s;
    place start s.

(** The area at the start [k]; the flags decide the size of the pages. *)
Definition populate_vma (k addr size : Z) (write : bool) (s : vs) : vs :=
  match vma_find k (vmas s) with
  | Some v => operate s (Populate (has_flags v mmap_small) (v_perm v) write (v_start v) addr size)
  | None => s
  end.

Definition map_anon (addr size flags perm : Z) (s : vs) : option ((Z + errno) * vs) :=
  let search := Z.land flags mmap_fixed =? 0 in
  let size := align_up size page_size in
  let v := make_vma addr (wrap64 (addr + size)) perm flags in
  '(r, s) ← allocate v addr size search s;
  match r with
  | inl start =>
      let s := if Z.land flags mmap_populate =? 0 then s
               else populate_vma (align_down start page_size) start size false s in
      Some (inl start, s)
  | inr e => Some (inr e, s)
  end.

(** ** Queries and system calls *)

Fixpoint ismapped_loop (fuel : nat) (start end_ : Z) (i stop : option Z) (s : vs) : option bool :=
  if decide (i = stop) then Some false
  else
    match fuel, i with
    | S fuel, Some k =>
        v ← vma_find k (vmas s);
        if start <? v_start v then Some false
        else if end_ <=? v_end v then Some true
        else ismapped_loop fuel (v_end v) end_ (next_key k (vmas s)) stop s
    | _, _ => None
    end.

Definition ismapped (addr size : Z) (s : vs) : option bool :=
  let end_ := wrap64 (addr + size) in
  '(i, stop) ← find_intersecting_vmas s addr end_;
  ismapped_loop (loop_fuel s) addr end_ i stop s.

(** [anon_vma::sync] succeeds, so the result is the error only if no area
    intersects. *)
Definition sync (addr length : Z) (s : vs) : option (option errno) :=
  let length := align_up length page_size in
  '(i, stop) ← find_intersecting_vmas s addr (wrap64 (addr + length));
  Some (if decide (i = stop) then Some ENOMEM else None).

Definition munmap (addr length : Z) (s : vs) : option (option errno * vs) :=
  let length := align_up length page_size in
  b ← ismapped addr length s;
  if b : bool then
    _ ← sync addr length s;
    s ← unmap addr length s;
    Some (None, s)
  else Some (Some EINVAL, s).

Definition mprotect (addr len perm : Z) (s : vs) : option (option errno * vs) :=
  b ← ismapped addr len s;
  if b : bool then s ← protect addr len perm s; Some (None, s) else Some (Some ENOMEM, s).

Definition msync (addr length : Z) (s : vs) : option (option errno) :=
  b ← ismapped addr length s;
  if b : bool then sync addr length s else Some (Some ENOMEM).

Fixpoint depopulate_loop (fuel : nat) (start length : Z) (i stop : option Z) (s : vs) : option vs :=
  if decide (i = stop) then Some s
  else
    match fuel, i with
    | S fuel, Some k =>
        v ← vma_find k (vmas s);
        let s := operate s (Unpopulate (v_start v) start (Z.min length (vma_size v))) in
        depopulate_loop fuel (wrap64 (start + vma_size v)) (wrap64 (length - vma_size v))
          (next_key k (vmas s)) stop s
    | _, _ => None
    end.

Definition depopulate (addr length : Z) (s : vs) : option vs :=
  let length := align_up length page_size in
  '(i, stop) ← find_intersecting_vmas s addr (wrap64 (addr + length));
  depopulate_loop (loop_fuel s) addr length i stop s.

Fixpoint nohugepage_loop (fuel : nat) (start length : Z) (i stop : option Z) (s : vs) : option vs :=
  if decide (i = stop) then Some s
  else
    match fuel, i with
    | S fuel, Some k =>
        v ← vma_find k (vmas s);
        let s :=
          if has_flags v mmap_small then s
          else operate (set_vmas s (vma_update k (λ v, update_flags v mmap_small) (vmas s)))
                 (Splithugepages (v_start v) start (Z.min length (vma_size v))) in
        nohugepage_loop fuel (wrap64 (start + vma_size v)) (wrap64 (length - vma_size v))
          (next_key k (vmas s)) stop s
    | _, _ => None
    end.

Definition nohugepage (addr length : Z) (s : vs) : option vs :=
  let length := align_up length page_size in
  '(i, stop) ← find_intersecting_vmas s addr (wrap64 (addr + length));
  nohugepage_loop (loop_fuel s) addr length i stop s.

Definition advise (addr size advice : Z) (s : vs) : option (option errno * vs) :=
  b ← ismapped addr size s;
  if b : bool then
    if advice =? advise_dontneed then s ← depopulate addr size s; Some (None, s)
    else if advice =? advise_nohugepage then s ← nohugepage addr size s; Some (None, s)
    else Some (Some EINVAL, s)
  else Some (Some ENOMEM, s).

Definition all_vmas_size (s : vs) : Z := foldl (λ n v, wrap64 (n + vma_size v)) 0 (vmas s).

(** The ELF image and everything from the linear map on. *)
Definition is_linear_mapped (elf_start elf_size addr size : Z) : bool :=
  ((elf_start <=? addr) && (wrap64 (addr + size) <=? wrap64 (elf_start + elf_size)))
  || (phys_mem <=? addr).

(** The range of a linear mapping joins the set; the page tables are the other
    part of [linear_map]. *)
Definition linear_map_range (virt size : Z) (s : vs) : vs :=
  set_ranges s (range_insert (virt, Some (wrap64 (virt + size))) (ranges s)).

(** ** Page faults *)

Definition page_fault_prot : Z := 1.
Definition page_fault_write : Z := 2.
Definition page_fault_rsvd : Z := 8.
Definition page_fault_insn : Z := 16.
Definition is_page_fault_insn (error_code : Z) : bool := negb (Z.land error_code page_fault_insn =? 0).
Definition is_page_fault_write (error_code : Z) : bool := negb (Z.land error_code page_fault_write =? 0).
Definition is_page_fault_rsvd (error_code : Z) : bool := negb (Z.land error_code page_fault_rsvd =? 0).
Definition is_page_fault_prot_write (error_code : Z) : bool :=
  Z.land error_code (Z.lor page_fault_write page_fault_prot) =? Z.lor page_fault_write page_fault_prot.

Definition access_fault (v : vma) (error_code : Z) : bool :=
  if is_page_fault_insn error_code then Z.land (v_perm v) perm_exec =? 0
  else if is_page_fault_write error_code then Z.land (v_perm v) perm_write =? 0
  else Z.land (v_perm v) perm_read =? 0.

(** [vma::fault]: the page, huge if it lies inside the area, that is populated. *)
Definition fault_range (v : vma) (addr : Z) : Z * Z :=
  let hp_start := align_up (v_start v) huge_page_size in
  let hp_end := align_down (v_end v) huge_page_size in
  if negb (has_flags v mmap_small) && ((hp_start <=? addr) && (addr <? hp_end))
  then (align_down addr huge_page_size, huge_page_size)
  else (addr, page_size).

Definition vma_fault (v : vma) (addr error_code : Z) (s : vs) : vs :=
  let '(addr, size) := fault_range v addr in
  populate_vma (v_start v) addr size (is_page_fault_write error_code) s.

(** [fast_sigsegv_check]; [pte] is the small page table entry of the address as
    the pair of its copy-on-write and writable bits, if there is one. *)
Definition fast_sigsegv_check (pte : option (bool * bool)) (error_code : Z) : bool :=
  if is_page_fault_rsvd error_code then true
  else if is_page_fault_prot_write error_code then
    match pte with Some (cow, writable) => negb cow && negb writable | None => false end
  else false.

Inductive fault_result := Sigsegv | Populated.

Definition vm_fault (pte : option (bool * bool)) (addr error_code : Z) (s : vs)
    : option (fault_result * vs) :=
  if fast_sigsegv_check pte error_code then Some (Sigsegv, s)
  else
    let addr := align_down addr page_size in
    r ← find_intersecting_vma s addr;
    match r with
    | None => Some (Sigsegv, s)
    | Some v => if access_fault v error_code then Some (Sigsegv, s)
                else Some (Populated, vma_fault v addr error_code s)
    end.
End Vma.
Import Vma.

(** ** The containers as sorted lists *)

Definition ksorted (l : list vma) : Prop := pairwise (λ x y, v_start x < v_start y) l.

Lemma ksorted_mid A v B :
  ksorted (A ++ v :: B) →
  ksorted A ∧ ksorted B ∧ (∀ x, x ∈ A → v_start x < v_start v) ∧ (∀ x, x ∈ B → v_start v < v_start x).
Proof.
  intros H. apply pairwise_app in H as (HA & HB & HAB). cbn in HB. destruct HB as [Hv HB].
  rewrite Forall_forall in Hv. split_and!; [done|done| |done]. intros x Hx. apply HAB; [done|elem].
Qed.

Lemma ksorted_cut a l :
  ksorted l → l = filter (λ v, v_start v < a) l ++ filter (λ v, a ≤ v_start v) l.
Proof. apply sorted_cut. Qed.

Lemma vma_insert_mid v A B :
  (∀ x, x ∈ A → v_start x < v_start v) → (∀ x, x ∈ B → v_start v < v_start x) →
  vma_insert v (A ++ B) = A ++ v :: B.
Proof.
  intros HA HB. induction A as [|x A IH]; cbn [app vma_insert].
  - destruct B as [|y B]; [done|]. cbn. rewrite (proj2 (Z.ltb_lt _ _)); [done|]. apply HB. elem.
  - specialize (HA x ltac:(elem)) as Hx. rewrite (proj2 (Z.ltb_ge _ _)) by lia.
    rewrite (proj2 (Z.eqb_neq _ _)) by lia. f_equal. apply IH. intros y Hy. apply HA. elem.
Qed.

Section Mid.
Context (A B : list vma) (v : vma).
Context (HS : ksorted (A ++ v :: B)).

Lemma vma_find_mid : vma_find (v_start v) (A ++ v :: B) = Some v.
Proof using HS.
  destruct (ksorted_mid _ _ _ HS) as (_ & _ & HA & HB). unfold vma_find.
  rewrite filter_app, filter_none, filter_cons_True by (done || (intros x Hx; specialize (HA x Hx); lia)).
  done.
Qed.

Lemma prev_mid : prev (v_start v) (A ++ v :: B) = last A.
Proof using HS.
  destruct (ksorted_mid _ _ _ HS) as (_ & _ & HA & HB). unfold prev.
  rewrite filter_app, filter_all by done. rewrite filter_none; [by rewrite app_nil_r|].
  intros x [->|Hx]%elem_of_cons; [lia|]. specialize (HB x Hx). lia.
Qed.

Lemma next_key_mid : next_key (v_start v) (A ++ v :: B) = v_start <$> head B.
Proof using HS.
  destruct (ksorted_mid _ _ _ HS) as (_ & _ & HA & HB). unfold next_key.
  rewrite filter_app, filter_none, filter_cons_False
    by (lia || (intros x Hx; specialize (HA x Hx); lia)).
  cbn [app]. by rewrite filter_all.
Qed.

Lemma vma_erase_mid : vma_erase (v_start v) (A ++ v :: B) = A ++ B.
Proof using HS.
  destruct (ksorted_mid _ _ _ HS) as (_ & _ & HA & HB). unfold vma_erase.
  rewrite filter_app, filter_cons_False by naive_solver.
  rewrite !filter_all; [done|..]; intros x Hx; [specialize (HB x Hx)|specialize (HA x Hx)]; lia.
Qed.

Lemma vma_update_mid f : vma_update (v_start v) f (A ++ v :: B) = A ++ f v :: B.
Proof using HS.
  destruct (ksorted_mid _ _ _ HS) as (_ & _ & HA & HB). unfold vma_update.
  assert (∀ l : list vma, (∀ x, x ∈ l → v_start x ≠ v_start v) →
    ((λ w, if v_start w =? v_start v then f w else w) <$> l) = l) as Hid.
  { intros l Hl. rewrite <- (list_fmap_id l) at 2. apply list_fmap_ext. intros i x Hx.
    rewrite (proj2 (Z.eqb_neq _ _)); [done|]. apply Hl. by eapply list_elem_of_lookup_2. }
  rewrite fmap_app, fmap_cons, !Hid, Z.eqb_refl; [done|..];
    intros x Hx; [specialize (HB x Hx)|specialize (HA x Hx)]; lia.
Qed.
End Mid.

(** The first element of a list behind one whose keys are smaller. *)
Lemma next_key_last A x B :
  ksorted (A ++ B) → last A = Some x → next_key (v_start x) (A ++ B) = v_start <$> head B.
Proof.
  intros HS Hl. destruct A as [|y A' _] using rev_ind; [done|]. rewrite last_snoc in Hl. injection Hl as ->.
  rewrite <- (assoc_L (++)) in HS |- *. by apply next_key_mid.
Qed.

(** ** The set of ranges *)

(** The set [R] holds the areas [l] and the linear mappings [lin]. *)
Record rok (lin : list (Z * Z)) (l : list vma) (R : list (Z * option Z)) : Prop := {
  rok_sorted : pairwise (λ x y, x.1 < y.1) R;
  rok_anon k : (k, None) ∈ R ↔ ∃ v, v ∈ l ∧ v_start v = k;
  rok_lin k e : (k, Some e) ∈ R ↔ (k, e) ∈ lin;
}.

Lemma range_insert_elem r R x :
  (∀ y, y ∈ R → y.1 ≠ r.1) → x ∈ range_insert r R ↔ x = r ∨ x ∈ R.
Proof.
  induction R as [|w R IH]; intros Hk; cbn [range_insert]; [set_solver|].
  destruct (Z.ltb_spec r.1 w.1); [rewrite !elem_of_cons; tauto|].
  rewrite (proj2 (Z.eqb_neq _ _)) by (specialize (Hk w ltac:(elem)); lia).
  rewrite !elem_of_cons, IH; [tauto|]. intros y Hy. apply Hk. elem.
Qed.

Lemma range_insert_sorted r R :
  (∀ y, y ∈ R → y.1 ≠ r.1) → pairwise (λ x y, x.1 < y.1) R →
  pairwise (λ x y, x.1 < y.1) (range_insert r R).
Proof.
  induction R as [|w R IH]; intros Hk; cbn [range_insert]; [done|]. intros [Hw HR].
  destruct (Z.ltb_spec r.1 w.1).
  - split; [|done]. constructor; [done|]. eapply Forall_impl; [exact Hw|]. cbn. lia.
  - specialize (Hk w ltac:(elem)) as Hne. rewrite (proj2 (Z.eqb_neq _ _)) by lia. split.
    + rewrite Forall_forall in *. intros y. rewrite range_insert_elem by (intros; apply Hk; elem).
      intros [->|Hy]; [lia|by apply Hw].
    + apply IH; [|done]. intros y Hy. apply Hk. elem.
Qed.

Lemma rok_keys lin l R y : rok lin l R → y ∈ R →
  (∃ v, v ∈ l ∧ v_start v = y.1) ∨ ∃ e, (y.1, e) ∈ lin.
Proof.
  intros Hr Hy. destruct y as [k [e|]]; [right; exists e; by apply (rok_lin _ _ _ Hr)|].
  left. by apply (rok_anon _ _ _ Hr).
Qed.

Lemma rok_insert lin l l' R k :
  rok lin l R → (∀ v, v ∈ l → v_start v ≠ k) → (∀ e, (k, e) ∉ lin) →
  (∀ x, (∃ v, v ∈ l' ∧ v_start v = x) ↔ x = k ∨ ∃ v, v ∈ l ∧ v_start v = x) →
  rok lin l' (range_insert (k, None) R).
Proof.
  intros Hr Hl Hlin Hl'. assert (∀ y, y ∈ R → y.1 ≠ k) as Hk.
  { intros y Hy Heq. destruct (rok_keys _ _ _ _ Hr Hy) as [(v & Hv & Hs)|[e He]].
    - apply (Hl v Hv). congruence.
    - rewrite Heq in He. by apply Hlin in He. }
  split.
  - apply range_insert_sorted; [done|apply Hr].
  - intros x. rewrite range_insert_elem, Hl', (rok_anon _ _ _ Hr) by done. naive_solver.
  - intros x e. rewrite range_insert_elem, (rok_lin _ _ _ Hr) by done. naive_solver.
Qed.

Lemma rok_erase lin l l' R k :
  rok lin l R → (∀ e, (k, e) ∉ lin) →
  (∀ x, (∃ v, v ∈ l' ∧ v_start v = x) ↔ x ≠ k ∧ ∃ v, v ∈ l ∧ v_start v = x) →
  rok lin l' (range_erase k R).
Proof.
  intros Hr Hlin Hl'. split.
  - apply pairwise_filter, Hr.
  - intros x. unfold range_erase. rewrite list_elem_of_filter, Hl', (rok_anon _ _ _ Hr). done.
  - intros x e. unfold range_erase. rewrite list_elem_of_filter, (rok_lin _ _ _ Hr). cbn.
    split; [tauto|]. intros Hx. split; [|done]. intros ->. by apply Hlin in Hx.
Qed.

Lemma rok_same lin l l' R :
  rok lin l R → v_start <$> l = v_start <$> l' → rok lin l' R.
Proof.
  intros Hr Hl. split; [apply Hr| |apply Hr]. intros k. rewrite (rok_anon _ _ _ Hr).
  assert (∀ l : list vma, (∃ v, v ∈ l ∧ v_start v = k) ↔ k ∈ (v_start <$> l)) as He.
  { intros m. rewrite list_elem_of_fmap. naive_solver. }
  by rewrite !He, Hl.
Qed.

(** ** Well-formed states *)

Definition before (x y : vma) : Prop := v_start x < v_start y ∧ v_end x ≤ v_start y.

Definition good (v : vma) : Prop :=
  0 < v_start v < v_end v ∧ v_end v ≤ upper_vma_limit ∧
  (page_size | v_start v) ∧ (page_size | v_end v).

(** A linear mapping and an area. *)
Definition sep (r : Z * Z) (v : vma) : Prop :=
  r.1 ≠ v_start v ∧ (v_end v ≤ r.1 ∨ r.2 ≤ v_start v).

Record wf (lin : list (Z * Z)) (s : vs) : Prop := {
  wf_shape : ∃ mid, vmas s = lower_edge :: mid ++ [upper_edge] ∧ Forall good mid;
  wf_before : pairwise before (vmas s);
  wf_sep r v : r ∈ lin → v ∈ vmas s → sep r v;
  wf_lin r : r ∈ lin → 0 ≤ r.1 < r.2 ∧ r.2 < 2 ^ 63 ∧ (page_size | r.2);
  wf_disj r r' : r ∈ lin → r' ∈ lin → r.1 < r'.1 → r.2 ≤ r'.1;
  wf_rok : rok lin (vmas s) (ranges s);
}.

Lemma before_ksorted l : pairwise before l → ksorted l.
Proof.
  unfold ksorted. induction l as [|x l IH]; [done|]. intros [Hx Hl]. split; [|by apply IH].
  eapply Forall_impl; [exact Hx|]. intros y [? _]. done.
Qed.

Lemma wf_initial : wf [] initial.
Proof.
  split.
  - exists []. done.
  - repeat constructor; done.
  - intros r v Hr. by apply not_elem_of_nil in Hr.
  - intros r Hr. by apply not_elem_of_nil in Hr.
  - intros r r' Hr. by apply not_elem_of_nil in Hr.
  - assert (ranges initial = [(0, None); (upper_vma_limit, None)]) as -> by done.
    assert (vmas initial = [lower_edge; upper_edge]) as -> by done. split.
    + repeat constructor; done.
    + intros k. split.
      * intros Hk. rewrite !elem_of_cons in Hk.
        destruct Hk as [[= ->]|[[= ->]|Hk]]; [exists lower_edge|exists upper_edge|]; [split; [elem|done]..|].
        by apply not_elem_of_nil in Hk.
      * intros (v & Hv & <-). rewrite !elem_of_cons in Hv.
        destruct Hv as [->|[->|Hv]]; [elem|elem|by apply not_elem_of_nil in Hv].
    + intros k e. split; intros Hk; [|by apply not_elem_of_nil in Hk].
      rewrite !elem_of_cons in Hk. destruct Hk as [?|[?|Hk]]; [done|done|]. by apply not_elem_of_nil in Hk.
Qed.

Lemma page_aligned_id a : (page_size | a) → 0 ≤ a < 2 ^ 62 →
  align_down a page_size = a ∧ align_up a page_size = a.
Proof.
  intros Ha Hb. change page_size with (2 ^ 12) in *. split.
  - apply align_down_id; [unfold u64; lia|lia|done].
  - apply align_up_id; [lia|lia|lia|done].
Qed.

(** ** Cutting areas *)

Definition cut (edge : Z) (v : vma) : list vma :=
  if (edge <=? v_start v) || (v_end v <=? edge) then [v]
  else [mkVma (v_start v) edge (v_perm v) (v_flags v); mkVma edge (v_end v) (v_perm v) (v_flags v)].

(** The parts of an area outside of a range, and the part inside. *)
Definition clip (start end_ : Z) (v : vma) : list vma :=
  (if v_start v <? start then [mkVma (v_start v) (Z.min (v_end v) start) (v_perm v) (v_flags v)] else [])
  ++ (if end_ <? v_end v then [mkVma (Z.max (v_start v) end_) (v_end v) (v_perm v) (v_flags v)] else []).

Definition part (start end_ : Z) (v : vma) : list vma :=
  let a := Z.max (v_start v) start in
  let b := Z.min (v_end v) end_ in
  if a <? b then [mkVma a b (v_perm v) (v_flags v)] else [].

(** Every list of pieces of an area fits where the area was. *)
Definition pieces_of (v : vma) (l : list vma) : Prop :=
  pairwise before l ∧ Forall good l ∧ ∀ x, x ∈ l → v_start v ≤ v_start x ∧ v_end x ≤ v_end v.

Lemma before_replace A v B l :
  pairwise before (A ++ v :: B) → pieces_of v l → pairwise before (A ++ l ++ B).
Proof.
  intros HS (Hl & Hg & Hin). rewrite Forall_forall in Hg. apply pairwise_app in HS as (HA & HB & HAB).
  destruct HB as [Hv HB]. rewrite Forall_forall in Hv.
  rewrite !pairwise_app. split_and!; [done|done|done| |].
  - intros x y Hx Hy. specialize (Hv y Hy). specialize (Hin x Hx). specialize (Hg x Hx).
    destruct Hv, Hin, Hg as ([? ?] & _). split; lia.
  - intros x y Hx [Hy|Hy]%elem_of_app; [|apply HAB; [done|elem]].
    specialize (HAB x v Hx ltac:(elem)). specialize (Hin y Hy). destruct HAB, Hin. split; lia.
Qed.

Lemma pieces_self v : good v → pieces_of v [v].
Proof.
  intros Hg. split; [split; [by apply Forall_nil|done]|]. split; [by apply Forall_singleton|].
  intros x ->%list_elem_of_singleton. lia.
Qed.

Lemma cut_pieces edge v : good v → (page_size | edge) → pieces_of v (cut edge v).
Proof.
  intros Hg He. pose proof Hg as (H1 & H2 & H3 & H4). unfold cut.
  destruct (Z.leb_spec edge (v_start v)); cbn [orb]; [|destruct (Z.leb_spec (v_end v) edge)].
  1,2: by apply pieces_self.
  split; [|split].
  - split; [|split; [by apply Forall_nil|done]]. apply Forall_singleton. split; cbn; lia.
  - rewrite !Forall_cons, Forall_nil. unfold good. cbn. split_and!; (done || lia).
  - intros x. rewrite elem_of_cons, list_elem_of_singleton. intros [->| ->]; cbn; lia.
Qed.

Lemma split_mid (s : vs) A v B edge :
  vmas s = A ++ v :: B → pairwise before (vmas s) → good v → (page_size | edge) →
  let s' := split (v_start v) edge s in
  vmas s' = A ++ cut edge v ++ B ∧ ptops s' = ptops s ∧
  ∀ lin, (∀ r, r ∈ lin → sep r v ∧ r.1 < r.2) → rok lin (vmas s) (ranges s) → rok lin (vmas s') (ranges s').
Proof.
  intros Hl HS Hg He. pose proof Hg as (H1 & H2 & H3 & H4). rewrite Hl in HS.
  pose proof (before_ksorted _ HS) as HK. destruct (ksorted_mid _ _ _ HK) as (_ & _ & HA & HB).
  unfold split. rewrite Hl, vma_find_mid by done. unfold cut.
  destruct ((edge <=? v_start v) || (v_end v <=? edge)) eqn:Hc.
  { cbn. by rewrite Hl. }
  apply orb_false_iff in Hc as [Hc1%Z.leb_gt Hc2%Z.leb_gt].
  destruct (page_aligned_id edge He) as [E1 E2]; [unfold upper_vma_limit in H2; lia|].
  destruct (page_aligned_id (v_end v) H4) as [E3 E4]; [unfold upper_vma_limit in H2; lia|].
  destruct (page_aligned_id (v_start v) H3) as [E5 E6]; [unfold upper_vma_limit in H2; lia|].
  rewrite vma_update_mid by done. unfold make_vma, vma_set. rewrite E1, E2, E4, E5. cbn [v_start].
  set (n := mkVma edge _ _ _). set (v1 := mkVma (v_start v) edge _ _).
  assert (∀ x, x ∈ B → edge < v_start x) as HB'.
  { intros x Hx. apply pairwise_app in HS as (_ & [Hv _] & _). rewrite Forall_forall in Hv.
    destruct (Hv x Hx). lia. }
  assert (vma_insert n (A ++ v1 :: B) = A ++ v1 :: n :: B) as Hins.
  { change (A ++ v1 :: B) with (A ++ [v1] ++ B). rewrite (assoc_L (++)), vma_insert_mid.
    - by rewrite <- (assoc_L (++)).
    - intros x [Hx| ->%list_elem_of_singleton]%elem_of_app; cbn; [|lia]. specialize (HA x Hx). lia.
    - intros x Hx. by apply HB'. }
  rewrite Hins. split_and!; [done|done|]. intros lin Hlin Hr. cbn.
  eapply rok_insert; [exact Hr|..].
  - intros x Hx Heq. apply elem_of_app in Hx as [Hx|[->|Hx]%elem_of_cons]; [|lia|].
    + specialize (HA x Hx). lia.
    + specialize (HB' x Hx). lia.
  - intros e Hin. destruct (Hlin _ Hin) as [[? Hsep] Hlt]. cbn in *. lia.
  - intros x. split.
    + intros (w & Hw & <-). rewrite elem_of_app, !elem_of_cons in Hw.
      destruct Hw as [Hw|[->|[->|Hw]]]; [right; exists w; split; [elem|done]| |by left|].
      * right. exists v. split; [elem|done].
      * right. exists w. split; [elem|done].
    + intros [->|(w & Hw & <-)]; [exists n; split; [elem|done]|].
      rewrite elem_of_app, elem_of_cons in Hw.
      destruct Hw as [Hw|[->|Hw]]; [exists w|exists v1|exists w]; (split; [elem|done]).
Qed.

Definition cut2 (start end_ : Z) (v : vma) : list vma :=
  match cut end_ v with
  | x :: l => cut start x ++ l
  | [] => []
  end.

Definition weight (start end_ : Z) (v : vma) : nat :=
  1 + (if (v_start v <? end_) && (end_ <? v_end v) then 1 else 0)
    + (if (v_start v <? start) && (start <? v_end v) then 1 else 0).

Definition weights (start end_ : Z) (l : list vma) : nat := sum_list (weight start end_ <$> l).

Ltac cmp :=
  repeat (match goal with
    | |- context [?x <? ?y] => destruct (Z.ltb_spec x y); try lia
    | |- context [?x <=? ?y] => destruct (Z.leb_spec x y); try lia
    end; cbn).

(** What one turn of the loops does with the area it looks at: the first piece
    is handled, the others are left. *)
Lemma cut2_first start end_ v :
  start < end_ → v_start v < v_end v →
  ∃ x R, cut2 start end_ v = x :: R ∧ v_start x = v_start v ∧
    (1 + weights start end_ R ≤ weight start end_ v)%nat ∧
    if contains start end_ x
    then clip start end_ v = R ≫= clip start end_ ∧ part start end_ v = x :: (R ≫= part start end_)
    else clip start end_ v = x :: (R ≫= clip start end_) ∧ part start end_ v = R ≫= part start end_.
Proof.
  destruct v as [a b p f]. cbn. intros Hse Hab.
  unfold cut2, cut, contains, clip, part, weights, weight. cbn.
  destruct (Z.leb_spec end_ a), (Z.leb_spec b end_); cbn; try lia;
    destruct (Z.leb_spec start a); cbn; try lia; cmp;
    (eexists _, _; split; [reflexivity|]); cbn; cmp;
    split_and!; try done; try lia; try (repeat (f_equal; try lia)).
Qed.

Lemma cut_head edge v : ∃ x l, cut edge v = x :: l ∧ v_start x = v_start v.
Proof. unfold cut. destruct (_ || _); eauto. Qed.

Lemma sep_piece r v x l :
  sep r v → r.1 < r.2 → pieces_of v l → x ∈ l → sep r x.
Proof.
  intros [H1 H2] Hr (_ & Hg & Hl) Hx. rewrite Forall_forall in Hg. specialize (Hl x Hx).
  destruct (Hg x Hx) as [? _]. split; lia.
Qed.

Lemma pieces_trans v x l B :
  pieces_of v (x :: B) → pieces_of x l → pieces_of v (l ++ B).
Proof.
  intros (H1 & H2 & H3) Hp. pose proof Hp as (_ & H4 & H5). split; [|split].
  - by apply (before_replace [] x B l).
  - apply Forall_cons in H2 as [_ H2]. by apply Forall_app.
  - intros y [Hy|Hy]%elem_of_app; [|apply H3; elem]. specialize (H3 x ltac:(elem)).
    specialize (H5 y Hy). lia.
Qed.

Lemma cut2_pieces start end_ v :
  good v → (page_size | start) → (page_size | end_) → pieces_of v (cut2 start end_ v).
Proof.
  intros Hg Hs He. pose proof (cut_pieces end_ v Hg He) as Hp. unfold cut2.
  destruct (cut_head end_ v) as (x & l & E & _). rewrite E in Hp |- *.
  apply (pieces_trans _ x); [done|]. apply cut_pieces; [|done].
  destruct Hp as (_ & H & _). by apply Forall_cons in H as [H _].
Qed.

Section Areas.
Context (lin : list (Z * Z)) (Hlin : ∀ r, r ∈ lin → r.1 < r.2).

(** A part of the list made of proper areas, and the set of ranges. *)
Record span (s : vs) (A M B : list vma) : Prop := {
  sp_list : vmas s = A ++ M ++ B;
  sp_before : pairwise before (vmas s);
  sp_good : Forall good M;
  sp_sep r v : r ∈ lin → v ∈ M → sep r v;
  sp_rok : rok lin (vmas s) (ranges s);
}.

Lemma split_span s A v M B edge :
  span s A (v :: M) B → (page_size | edge) →
  let s' := split (v_start v) edge s in
  span s' A (cut edge v ++ M) B ∧ ptops s' = ptops s.
Proof using Hlin.
  intros [Hl HS Hg Hsep Hr] He s'. apply Forall_cons in Hg as [Hv Hg].
  destruct (split_mid s A v (M ++ B) edge) as (E1 & E2 & E3); try done.
  pose proof (cut_pieces edge v Hv He) as Hp. fold s' in E1, E2, E3. split; [|done]. split.
  - by rewrite E1, <- (assoc_L (++)).
  - rewrite E1. apply (before_replace _ v); [|done]. rewrite Hl in HS. exact HS.
  - apply Forall_app. split; [apply Hp|done].
  - intros r x Hr' [Hx|Hx]%elem_of_app; [|apply Hsep; [done|elem]].
    eapply (sep_piece r v); [apply Hsep; [done|elem]|by apply Hlin|done|done].
  - apply E3; [|done]. intros r Hr'. split; [apply Hsep; [done|elem]|by apply Hlin].
Qed.

Lemma split2_span s A v M B start end_ :
  span s A (v :: M) B → (page_size | start) → (page_size | end_) →
  let s' := split (v_start v) start (split (v_start v) end_ s) in
  span s' A (cut2 start end_ v ++ M) B ∧ ptops s' = ptops s.
Proof using Hlin.
  intros H Hs He. destruct (split_span _ _ _ _ _ _ H He) as [H1 E1].
  destruct (cut_head end_ v) as (x & l & E & Ex). unfold cut2. rewrite E in H1 |- *.
  rewrite <- (assoc_L (++)). cbn [app] in H1. rewrite <- Ex in *.
  destruct (split_span _ _ _ _ _ _ H1 Hs) as [H2 E2]. split; [done|]. by rewrite E2.
Qed.

Lemma span_ksorted s A v M B : span s A (v :: M) B → ksorted (A ++ v :: (M ++ B)).
Proof using Type. intros [Hl HS _ _ _]. rewrite Hl in HS. by apply before_ksorted. Qed.

Lemma span_find s A v M B : span s A (v :: M) B → vma_find (v_start v) (vmas s) = Some v.
Proof using Type.
  intros H. pose proof (span_ksorted _ _ _ _ _ H). rewrite (sp_list _ _ _ _ H). by apply vma_find_mid.
Qed.

Lemma span_skip s A v M B : span s (A ++ [v]) M B → good v → (∀ r, r ∈ lin → sep r v) → span s A (v :: M) B.
Proof using Type.
  intros [Hl HS Hg Hsep Hr] Hv Hsv. split; [|done|by constructor| |done].
  - by rewrite Hl, <- (assoc_L (++)).
  - intros r x Hx [->|Hv']%elem_of_cons; [by apply Hsv|by apply Hsep].
Qed.

Lemma span_next s A v M B : span s A (v :: M) B → span s (A ++ [v]) M B.
Proof using Type.
  intros [Hl HS Hg Hsep Hr]. split; [|done|by apply Forall_cons in Hg as [_ Hg]| |done].
  - by rewrite Hl, <- (assoc_L (++)).
  - intros r x Hx Hv'. apply Hsep; [done|elem].
Qed.

Lemma span_first s A v M B : span s A (v :: M) B → good v ∧ ∀ r, r ∈ lin → sep r v.
Proof using Type.
  intros [Hl HS Hg Hsep Hr]. apply Forall_cons in Hg as [Hg _]. split; [done|].
  intros r Hr'. apply Hsep; [done|elem].
Qed.

Lemma span_erase s A v M B o :
  span s A (v :: M) B →
  span (mk (vma_erase (v_start v) (vmas s)) (range_erase (v_start v) (ranges s)) o) A M B.
Proof using Type.
  intros H. pose proof (span_ksorted _ _ _ _ _ H) as HK. pose proof (span_first _ _ _ _ _ H) as [Hg Hsv].
  destruct H as [Hl HS HG Hsep Hr].
  assert (vma_erase (v_start v) (vmas s) = A ++ M ++ B) as E.
  { rewrite Hl. cbn [app]. by apply vma_erase_mid. }
  apply Forall_cons in HG as [_ HG].
  split; cbn [vmas ranges ptops]; rewrite ?E; [done| |done| |].
  - rewrite Hl in HS. apply (before_replace A v (M ++ B) []); [exact HS|].
    split; [done|]. split; [by apply Forall_nil|]. intros x Hx. by apply not_elem_of_nil in Hx.
  - intros r x Hx Hv. apply Hsep; [done|elem].
  - apply (rok_erase lin (vmas s)); [done|..].
    + intros e He. destruct (Hsv _ He) as [Hne _]. done.
    + intros x. rewrite <- E. unfold vma_erase. split.
      * intros (w & [? Hw]%list_elem_of_filter & <-). split; [done|]. by exists w.
      * intros [Hne (w & Hw & <-)]. exists w. split; [|done]. by apply list_elem_of_filter.
Qed.

Definition unpop (v : vma) : ptop := Unpopulate (v_start v) (v_start v) (vma_size v).

Lemma weights_app start end_ l1 l2 :
  weights start end_ (l1 ++ l2) = (weights start end_ l1 + weights start end_ l2)%nat.
Proof using Type. unfold weights. rewrite fmap_app. induction l1; cbn; lia. Qed.

Lemma evacuate_loop_spec start end_ b B :
  start < end_ → (page_size | start) → (page_size | end_) →
  ∀ fuel s A M, span s A M (b :: B) → A ≠ [] → (weights start end_ M ≤ fuel)%nat →
  ∃ s', evacuate_loop fuel start end_ (v_start <$> head (M ++ b :: B)) (Some (v_start b)) s = Some s' ∧
    span s' A (M ≫= clip start end_) (b :: B) ∧
    ptops s' = ptops s ++ (unpop <$> (M ≫= part start end_)).
Proof using Hlin.
  intros Hse Hs He. induction fuel as [|fuel IH]; intros s A M H HA Hf.
  - destruct M as [|v M]; [|unfold weights in Hf; cbn in Hf; lia].
    exists s. cbn. rewrite decide_True, app_nil_r by done. done.
  - destruct M as [|v M]; [exists s; cbn; rewrite decide_True, app_nil_r by done; done|].
    pose proof (span_ksorted _ _ _ _ _ H) as HK. destruct (span_first _ _ _ _ _ H) as [Hv Hsv].
    cbn [app head fmap option_fmap option_map evacuate_loop].
    rewrite decide_False.
    2:{ intros [= Heq]. destruct (ksorted_mid _ _ _ HK) as (_ & _ & _ & HB).
        specialize (HB b ltac:(elem)). lia. }
    destruct (split2_span _ _ _ _ _ start end_ H Hs He) as [H' Eo].
    set (s' := split _ _ _) in *. clearbody s'.
    destruct (cut2_first start end_ v Hse) as (x & R & Ec & Ex & Hw & Hcase); [apply Hv|].
    rewrite Ec in H'. cbn [app] in H'. rewrite <- Ex.
    pose proof (span_ksorted _ _ _ _ _ H') as HK'.
    rewrite (sp_list _ _ _ _ H'). cbn [app]. rewrite vma_find_mid by done. cbn [mbind option_bind].
    assert (weights start end_ (R ++ M) ≤ fuel)%nat as Hf'.
    { rewrite weights_app. change (weight start end_ v + weights start end_ M ≤ S fuel)%nat in Hf. lia. }
    rewrite !bind_cons. destruct (contains start end_ x) eqn:Hc; destruct Hcase as [-> ->].
    + rewrite prev_mid by done. destruct (last A) as [p|] eqn:Hp; [|by apply last_None in Hp].
      cbn [mbind option_bind].
      pose proof (span_erase s' A x (R ++ M) (b :: B) (ptops s' ++ [unpop x]) H') as H''.
      pose proof (sp_list _ _ _ _ H'') as E3. cbn [vmas] in E3. rewrite E3 in H''.
      cbn [operate set_vmas set_ranges vmas ranges ptops]. rewrite E3, (next_key_last A p).
      2:{ apply before_ksorted. apply (sp_before _ _ _ _ H''). }
      2:{ done. }
      destruct (IH _ _ _ H'' HA Hf') as (s2 & E2 & H2 & Ho).
      exists s2. split; [exact E2|]. rewrite bind_app in H2, Ho. split; [done|].
      rewrite Ho. cbn [ptops]. rewrite Eo, <- (assoc_L (++)). done.
    + rewrite next_key_mid by done.
      destruct (IH _ _ _ (span_next _ _ _ _ _ H')) as (s2 & E2 & H2 & Ho); [by destruct A|done|].
      exists s2. split; [exact E2|]. rewrite bind_app in H2, Ho. split.
      * cbn [app]. destruct (span_first _ _ _ _ _ H'). by apply span_skip.
      * by rewrite Ho, Eo.
Qed.

Lemma span_update s A v w M B o :
  span s A (v :: M) B → v_start w = v_start v → v_end w = v_end v →
  span (mk (vma_update (v_start v) (λ _, w) (vmas s)) (ranges s) o) A (w :: M) B.
Proof using Type.
  intros H Ws We. pose proof (span_ksorted _ _ _ _ _ H) as HK.
  pose proof (span_first _ _ _ _ _ H) as [Hg Hsv].
  destruct H as [Hl HS HG Hsep Hr].
  assert (vma_update (v_start v) (λ _, w) (vmas s) = A ++ w :: (M ++ B)) as E.
  { rewrite Hl. cbn [app]. by apply (vma_update_mid A (M ++ B) v). }
  apply Forall_cons in HG as [_ HG].
  assert (good w) as Hw by (unfold good; rewrite Ws, We; exact Hg).
  split; cbn [vmas ranges ptops]; rewrite ?E; [done| |by constructor| |].
  - rewrite Hl in HS. apply (before_replace A v (M ++ B) [w]); [exact HS|].
    destruct (pieces_self w Hw) as (? & ? & ?). split; [done|]. split; [done|].
    rewrite <- Ws, <- We. done.
  - intros r x Hx [->|Hv]%elem_of_cons; [|apply Hsep; [done|elem]].
    unfold sep. rewrite Ws, We. by apply Hsv.
  - apply (rok_same lin (vmas s)); [done|]. rewrite Hl, !fmap_app, !fmap_cons, !fmap_app, Ws. done.
Qed.

(** What [protect] does with an area. *)
Definition prot (start end_ perm : Z) (v : vma) : vma :=
  if contains start end_ v then vma_protect v perm else v.

Definition recolor (start end_ perm : Z) (v : vma) : list vma :=
  if v_perm v =? perm then [v] else prot start end_ perm <$> cut2 start end_ v.

Definition recolored (start end_ perm : Z) (v : vma) : list vma :=
  if v_perm v =? perm then [] else part start end_ v.

Definition protop (perm : Z) (v : vma) : ptop := Protection perm (v_start v) (v_start v) (vma_size v).

Lemma recolor_rest start end_ perm v x R :
  start < end_ → v_start v < v_end v → v_perm v ≠ perm → cut2 start end_ v = x :: R →
  (R ≫= recolor start end_ perm) = (prot start end_ perm <$> R) ∧
  (R ≫= recolored start end_ perm) = (R ≫= part start end_).
Proof using Type.
  destruct v as [a b p f]. cbn. intros Hse Hab Hp.
  assert ((p =? perm) = false) as Ep by lia. unfold cut2, cut. cbn.
  destruct (Z.leb_spec end_ a), (Z.leb_spec b end_); cbn; try lia;
    destruct (Z.leb_spec start a); cbn; try lia;
    cmp; intros HR; simplify_eq; cbn; try done;
    unfold recolor, recolored, cut2, cut; cbn; rewrite ?Ep; cmp; rewrite ?app_nil_r; done.
Qed.

Lemma protect_loop_spec start end_ perm b B :
  start < end_ → (page_size | start) → (page_size | end_) →
  ∀ fuel s A M, span s A M (b :: B) → (weights start end_ M ≤ fuel)%nat →
  ∃ s', protect_loop fuel start end_ perm (v_start <$> head (M ++ b :: B)) (Some (v_start b)) s = Some s' ∧
    span s' A (M ≫= recolor start end_ perm) (b :: B) ∧
    ptops s' = ptops s ++ (protop perm <$> (M ≫= recolored start end_ perm)).
Proof using Hlin.
  intros Hse Hs He. induction fuel as [|fuel IH]; intros s A M H Hf.
  - destruct M as [|v M]; [|unfold weights in Hf; cbn in Hf; lia].
    exists s. cbn. rewrite decide_True, app_nil_r by done. done.
  - destruct M as [|v M]; [exists s; cbn; rewrite decide_True, app_nil_r by done; done|].
    pose proof (span_ksorted _ _ _ _ _ H) as HK. destruct (span_first _ _ _ _ _ H) as [Hv Hsv].
    change (weight start end_ v + weights start end_ M ≤ S fuel)%nat in Hf.
    cbn [app head fmap option_fmap option_map protect_loop].
    rewrite decide_False.
    2:{ intros [= Heq]. destruct (ksorted_mid _ _ _ HK) as (_ & _ & _ & HB).
        specialize (HB b ltac:(elem)). lia. }
    rewrite (span_find _ _ _ _ _ H). cbn [mbind option_bind]. rewrite !bind_cons. unfold recolor at 1, recolored at 1.
    destruct (v_perm v =? perm) eqn:Hperm.
    { rewrite (sp_list _ _ _ _ H). cbn [app]. rewrite next_key_mid by done.
      destruct (IH _ _ _ (span_next _ _ _ _ _ H)) as (s2 & E2 & H2 & Ho); [unfold weight in Hf; lia|].
      exists s2. split; [exact E2|]. split; [by apply span_skip|done]. }
    destruct (split2_span _ _ _ _ _ start end_ H Hs He) as [H' Eo].
    set (s' := split _ _ _) in *. clearbody s'.
    destruct (cut2_first start end_ v Hse) as (x & R & Ec & Ex & Hw & Hcase); [apply Hv|].
    destruct (recolor_rest start end_ perm v x R) as [Er1 Er2]; [done|apply Hv|lia|done|].
    rewrite Ec in H' |- *. cbn [app] in H'. rewrite <- Ex.
    assert (weights start end_ (R ++ M) ≤ fuel)%nat as Hf' by (rewrite weights_app; lia).
    assert (∀ s1 w, v_start w = v_start x → span s1 A (w :: R ++ M) (b :: B) → 
      ∃ s2, protect_loop fuel start end_ perm (next_key (v_start x) (vmas s1)) (Some (v_start b)) s1 = Some s2 ∧
        span s2 A (w :: (prot start end_ perm <$> R) ++ (M ≫= recolor start end_ perm)) (b :: B) ∧
        ptops s2 = ptops s1 ++ (protop perm <$> (R ≫= part start end_) ++ (M ≫= recolored start end_ perm)))
      as Hnext.
    { intros s1 w Ew H1. rewrite <- Ew, (sp_list _ _ _ _ H1). cbn [app].
      rewrite next_key_mid by (by eapply span_ksorted).
      destruct (IH _ _ _ (span_next _ _ _ _ _ H1) Hf') as (s2 & E2 & H2 & Ho).
      rewrite bind_app, Er1 in H2. rewrite bind_app, Er2 in Ho. exists s2. split; [exact E2|]. split; [|done].
      destruct (span_first _ _ _ _ _ H1). by apply span_skip. }
    rewrite (span_find _ _ _ _ _ H'). cbn [mbind option_bind fmap list_fmap].
    unfold prot at 1. destruct (contains start end_ x) eqn:Hc; destruct Hcase as [_ ->].
    + destruct (Hnext _ (vma_protect x perm) eq_refl
        (span_update s' A x (vma_protect x perm) (R ++ M) (b :: B) (ptops s' ++ [protop perm x]) H' eq_refl eq_refl))
        as (s2 & E2 & H2 & Ho).
      exists s2. split; [|split; [done|by rewrite Ho; cbn [ptops]; rewrite Eo, <- (assoc_L (++))]].
      rewrite <- E2. cbn [vmas operate set_vmas ranges ptops].
      assert (vma_update (v_start x) (λ v, vma_protect v perm) (vmas s')
              = vma_update (v_start x) (λ _, vma_protect x perm) (vmas s')) as Eu.
      { pose proof (span_ksorted _ _ _ _ _ H'). rewrite (sp_list _ _ _ _ H'). cbn [app].
        by rewrite !vma_update_mid. }
      by rewrite Eu.
    + destruct (Hnext s' x eq_refl H') as (s2 & E2 & H2 & Ho). exists s2.
      split; [exact E2|]. split; [done|by rewrite Ho, Eo].
Qed.
End Areas.

(** ** The areas a range intersects *)

Definition meets (start end_ : Z) (v : vma) : Prop := v_start v < end_ ∧ start < v_end v.

Lemma wf_elem lin s v : wf lin s → v ∈ vmas s → v = lower_edge ∨ v = upper_edge ∨ good v.
Proof.
  intros Hw Hv. destruct (wf_shape _ _ Hw) as (mid & E & Hg). rewrite Forall_forall in Hg.
  rewrite E in Hv. apply elem_of_cons in Hv as [->|[Hv| ->%list_elem_of_singleton]%elem_of_app]; auto.
Qed.

Lemma wf_edges lin s : wf lin s → lower_edge ∈ vmas s ∧ upper_edge ∈ vmas s.
Proof.
  intros Hw. destruct (wf_shape _ _ Hw) as (mid & E & _). rewrite E. split; elem.
Qed.

Lemma wf_good lin s start end_ v :
  wf lin s → 0 < start → end_ ≤ upper_vma_limit → v ∈ vmas s → meets start end_ v → good v.
Proof.
  intros Hw Hs He Hv [H1 H2]. destruct (wf_elem _ _ _ Hw Hv) as [->|[->|?]]; [..|done].
  - change (v_end lower_edge) with 0 in H2. lia.
  - change (v_start upper_edge) with upper_vma_limit in H1. lia.
Qed.

(** The list cut around the areas that intersect a range. *)
Record around (lin : list (Z * Z)) (s : vs) (start end_ : Z) (A M : list vma) (b : vma) (B : list vma) : Prop := {
  ar_span : span lin s A M (b :: B);
  ar_left v : v ∈ A → v_end v ≤ start ∧ v_start v < start;
  ar_mid : Forall (meets start end_) M;
  ar_right v : v ∈ b :: B → end_ ≤ v_start v;
  ar_ne : A ≠ [];
}.

Lemma lower_bound_app a (L R : list vma) :
  (∀ x, x ∈ L → v_start x < a) → (∀ x, x ∈ R → a ≤ v_start x) → lower_bound a (L ++ R) = head R.
Proof.
  intros HL HR. unfold lower_bound. rewrite filter_app, filter_none, filter_all; [done|done|].
  intros x Hx. specialize (HL x Hx). lia.
Qed.

Lemma cut3 start end_ l :
  ksorted l → start ≤ end_ →
  ∃ L M R, l = L ++ M ++ R ∧ (∀ x, x ∈ L → v_start x < start) ∧
    (∀ x, x ∈ M → start ≤ v_start x < end_) ∧ (∀ x, x ∈ R → end_ ≤ v_start x).
Proof.
  intros HK Hse. pose proof (ksorted_cut start _ HK) as E1.
  assert (ksorted (filter (λ v, start ≤ v_start v) l)) as HK2 by (by apply pairwise_filter).
  pose proof (ksorted_cut end_ _ HK2) as E2. rewrite E2 in E1.
  eexists _, _, _. split; [exact E1|].
  split_and!; intros x Hx; rewrite ?list_elem_of_filter in Hx; tauto.
Qed.

Lemma wf_span lin s start end_ A M B :
  wf lin s → 0 < start → end_ ≤ upper_vma_limit → vmas s = A ++ M ++ B →
  Forall (meets start end_) M → span lin s A M B.
Proof.
  intros Hw Hs He E HM. rewrite Forall_forall in HM. split; [done|apply Hw| | |apply Hw].
  - apply Forall_forall. intros v Hv. eapply wf_good; [done|done|done| |by apply HM]. rewrite E. elem.
  - intros r v Hr Hv. eapply wf_sep; [done|done|]. rewrite E. elem.
Qed.

Lemma find_intersecting_vmas_spec lin s start end_ :
  wf lin s → 0 < start < end_ → end_ ≤ upper_vma_limit →
  ∃ A M b B, around lin s start end_ A M b B ∧
    find_intersecting_vmas s start end_ =
      Some (match M with [] => (None, None) | v :: _ => (Some (v_start v), Some (v_start b)) end).
Proof.
  intros Hw Hse He. pose proof (wf_before _ _ Hw) as HS. pose proof (before_ksorted _ HS) as HK.
  destruct (wf_edges _ _ Hw) as [Hlo Hup].
  destruct (cut3 start end_ _ HK) as (L & M & R & E & HL & HM & HR); [lia|].
  rewrite E in HS, Hlo, Hup.
  (* the first area behind the range and the last in front of it *)
  destruct R as [|b B].
  { exfalso. rewrite app_nil_r in Hup. apply elem_of_app in Hup as [Hup|Hup];
      [specialize (HL _ Hup)|specialize (HM _ Hup)]; change (v_start upper_edge) with upper_vma_limit in *; lia. }
  destruct L as [|p L _] using rev_ind.
  { exfalso. cbn [app] in Hlo. apply elem_of_app in Hlo as [Hlo|Hlo];
      [specialize (HM _ Hlo)|specialize (HR _ Hlo)]; change (v_start lower_edge) with 0 in *; lia. }
  assert (∀ v, v ∈ L ++ [p] → ∀ w, w ∈ M ++ b :: B → before v w) as HLM.
  { intros v Hv w Hw'. apply pairwise_app in HS as (_ & _ & H). by apply H. }
  assert (∀ v, v ∈ L → before v p) as HLp.
  { intros v Hv. apply pairwise_app in HS as (H & _ & _). apply pairwise_app in H as (_ & _ & H).
    apply H; [done|elem]. }
  assert (lower_bound end_ (vmas s) = Some b) as Eb.
  { rewrite E, (assoc_L (++)), lower_bound_app; [done| |done]. intros x [Hx|Hx]%elem_of_app.
    - specialize (HL x Hx). lia.
    - specialize (HM x Hx). lia. }
  assert (∃ v l, M ++ b :: B = v :: l) as (v & l & Ev) by (destruct M; eauto).
  assert (lower_bound start (vmas s) = Some v) as Ef.
  { rewrite E, lower_bound_app, Ev; [done|done|]. intros x [Hx|Hx]%elem_of_app;
      [specialize (HM x Hx)|specialize (HR x Hx)]; lia. }
  assert (prev (v_start v) (vmas s) = Some p) as Ep.
  { rewrite E, Ev in HK |- *. rewrite prev_mid by done. by rewrite last_snoc. }
  assert (before p v) as [Hpv1 Hpv2] by (apply HLM; [elem|rewrite Ev; elem]).
  assert (start ≤ v_start v) as Hv.
  { assert (v ∈ M ++ b :: B) as Hv by (rewrite Ev; elem).
    apply elem_of_app in Hv as [Hv|Hv]; [specialize (HM v Hv)|specialize (HR v Hv)]; lia. }
  specialize (HL p ltac:(elem)) as HLp'.
  assert (∀ x, x ∈ L → v_end x ≤ start ∧ v_start x < start) as HLL.
  { intros x Hx. destruct (HLp x Hx). lia. }
  assert (Forall (meets start end_) M) as HMM.
  { apply Forall_forall. intros x Hx. specialize (HM x Hx). split; [lia|].
    destruct (wf_elem _ _ x Hw) as [->|[->|[Hx' _]]]; [rewrite E; elem| | |lia].
    - change (v_start lower_edge) with 0 in HM. lia.
    - change (v_start upper_edge) with upper_vma_limit in HM. lia. }
  unfold find_intersecting_vmas. rewrite (proj2 (Z.leb_gt _ _)) by lia. rewrite Ef. cbn [mbind option_bind].
  destruct (decide (start < v_end p)) as [Hp|Hp].
  - (* the area in front reaches into the range *)
    exists L, (p :: M), b, B. rewrite (proj2 (Z.ltb_lt _ _)), Ep by lia. cbn [mbind option_bind].
    rewrite (proj2 (Z.ltb_lt start (v_end p))), (proj2 (Z.leb_gt _ _)), Eb by lia. split; [|done].
    rewrite <- (assoc_L (++)) in E. split; [|done| |done|].
    + eapply (wf_span lin s start end_); [done|lia|done|exact E|]. constructor; [|done]. split; lia.
    + constructor; [|done]. split; lia.
    + intros ->. cbn in E. destruct (wf_shape _ _ Hw) as (mid & E' & _). rewrite E' in E.
      injection E as <- _. change (v_end lower_edge) with 0 in Hp. lia.
  - exists (L ++ [p]), M, b, B.
    assert ((if start <? v_start v
             then p0 ← prev (v_start v) (vmas s); Some (if start <? v_end p0 then p0 else v)
             else Some v) = Some v) as ->.
    { destruct (start <? v_start v); [|done]. rewrite Ep. cbn [mbind option_bind].
      by rewrite (proj2 (Z.ltb_ge _ _)) by lia. }
    cbn [mbind option_bind]. split.
    + split; [|intros x [Hx| ->%list_elem_of_singleton]%elem_of_app; [by apply HLL|lia]|done|done|by destruct L].
      eapply (wf_span lin s start end_); [done|lia|done|exact E|done].
    + destruct M as [|w M]; injection Ev as <- _.
      * specialize (HR b ltac:(elem)). by rewrite (proj2 (Z.leb_le _ _)) by lia.
      * specialize (HM w ltac:(elem)). rewrite (proj2 (Z.leb_gt _ _)) by lia. by rewrite Eb.
Qed.

(** ** The address space as a map *)

(** The permissions and the flags of the area at an address. *)
Definition area_at (l : list vma) (a : Z) : option (Z * Z) :=
  (λ v, (v_perm v, v_flags v)) <$> head (filter (λ v, v_start v ≤ a < v_end v) l).

Lemma area_at_app l1 l2 a :
  area_at (l1 ++ l2) a = match area_at l1 a with Some x => Some x | None => area_at l2 a end.
Proof. unfold area_at. rewrite filter_app. by destruct (filter _ l1). Qed.

Lemma area_at_none l a : (∀ v, v ∈ l → ¬ (v_start v ≤ a < v_end v)) → area_at l a = None.
Proof. intros Hl. unfold area_at. by rewrite filter_none. Qed.

Lemma area_at_covered l a v : v ∈ l → v_start v ≤ a < v_end v → is_Some (area_at l a).
Proof.
  intros Hv Hc. unfold area_at. apply fmap_is_Some. destruct (filter _ l) as [|w l'] eqn:E; [|by eexists].
  assert (v ∈ filter (λ v, v_start v ≤ a < v_end v) l) as Hf by (by apply list_elem_of_filter).
  rewrite E in Hf. by apply not_elem_of_nil in Hf.
Qed.

Lemma area_at_some l a x : area_at l a = Some x → ∃ v, v ∈ l ∧ v_start v ≤ a < v_end v ∧ x = (v_perm v, v_flags v).
Proof.
  unfold area_at. destruct (filter _ l) as [|v l'] eqn:E; [done|]. intros [= <-]. exists v.
  assert (v ∈ filter (λ v, v_start v ≤ a < v_end v) l) as Hv by (rewrite E; elem).
  apply list_elem_of_filter in Hv as [? ?]. done.
Qed.

Lemma area_at_bind (f : vma → list vma) (g : option (Z * Z) → option (Z * Z)) l a :
  g None = None → (∀ v, v ∈ l → area_at (f v) a = g (area_at [v] a)) →
  (∀ x, area_at l a = Some x → g (Some x) ≠ None) ∨ (∀ x, g x = None) →
  area_at (l ≫= f) a = g (area_at l a).
Proof.
  intros H0 Hf Hg. induction l as [|v l IH]; [exact (eq_sym H0)|]. rewrite bind_cons, area_at_app.
  rewrite Hf by elem. change (v :: l) with ([v] ++ l) in Hg |- *. rewrite area_at_app in Hg |- *.
  destruct (area_at [v] a) as [x|] eqn:E.
  - destruct Hg as [Hg|Hg].
    + destruct (g (Some x)) eqn:Eg; [done|]. by destruct (Hg x eq_refl).
    + rewrite !Hg. rewrite IH; [by rewrite Hg|intros; apply Hf; elem|by right].
  - rewrite H0. apply IH; [|done]. intros w Hw. apply Hf. elem.
Qed.

(** A state made of the same surroundings is well-formed. *)
Lemma wf_around lin s s' start end_ A M b B X :
  wf lin s → 0 < start → end_ ≤ upper_vma_limit → around lin s start end_ A M b B →
  span lin s' A X (b :: B) → wf lin s'.
Proof.
  intros Hw Hs He [[E _ _ _ _] _ _ _ Hne] [E' HS' HG' Hsep' Hr'].
  destruct (wf_shape _ _ Hw) as (mid & Em & Hg). rewrite Em in E.
  destruct A as [|x A]; [done|]. injection E as <- E.
  destruct (exists_last (l := b :: B)) as (B' & u & EB); [done|]. rewrite EB in *.
  rewrite !(assoc_L (++)) in E. apply app_inj_tail in E as [-> <-]. split.
  - exists ((A ++ X) ++ B'). split; [rewrite E'; cbn; f_equal; by rewrite !(assoc_L (++))|].
    rewrite !Forall_app in *. tauto.
  - done.
  - intros r v Hr Hv. rewrite E' in Hv. apply elem_of_app in Hv as [Hv|[Hv|Hv]%elem_of_app].
    + apply (wf_sep _ _ Hw); [done|]. rewrite Em. apply elem_of_cons in Hv as [->|Hv]; elem.
    + by apply Hsep'.
    + apply (wf_sep _ _ Hw); [done|]. rewrite Em. apply elem_of_app in Hv as [Hv|Hv]; elem.
  - apply Hw.
  - apply Hw.
  - done.
Qed.

Lemma weights_fuel lin s start end_ A M b B :
  around lin s start end_ A M b B → (weights start end_ M ≤ loop_fuel s)%nat.
Proof.
  intros H. unfold loop_fuel. rewrite (sp_list _ _ _ _ _ (ar_span _ _ _ _ _ _ _ _ H)), !length_app.
  assert (weights start end_ M ≤ 3 * length M)%nat; [|lia]. clear.
  induction M as [|v M IH]; [done|].
  change (weight start end_ v + weights start end_ M ≤ 3 * S (length M))%nat.
  assert (weight start end_ v ≤ 3)%nat; [|lia]. unfold weight. destruct (_ && _), (_ && _); lia.
Qed.

(** An address in the range is not in the surroundings, one outside of it is not
    changed. *)
Lemma area_at_around lin s s' start end_ A M b B X g a :
  around lin s start end_ A M b B → vmas s' = A ++ X ++ b :: B →
  area_at X a = (if decide (start ≤ a < end_) then g (area_at M a) else area_at M a) →
  g None = None →
  area_at (vmas s') a = if decide (start ≤ a < end_) then g (area_at (vmas s) a) else area_at (vmas s) a.
Proof.
  intros [[E _ _ _ _] HA HM HB _] E' HX Hg. rewrite E, E', !area_at_app, HX.
  destruct (decide (start ≤ a < end_)); [|done].
  rewrite (area_at_none A), (area_at_none (b :: B)).
  - by destruct (area_at M a); [destruct (g _)|rewrite Hg].
  - intros v Hv. specialize (HB v Hv). lia.
  - intros v Hv. specialize (HA v Hv). lia.
Qed.

Lemma clip_at start end_ v a :
  start < end_ →
  area_at (clip start end_ v) a = if decide (start ≤ a < end_) then None else area_at [v] a.
Proof.
  intros Hse. unfold clip, area_at. destruct v as [x y p f]. cbn.
  destruct (Z.ltb_spec x start), (Z.ltb_spec end_ y); cbn; unfold filter; cbn;
    repeat case_decide; cbn; (done || lia).
Qed.

Lemma recolor_at start end_ perm v a :
  start < end_ → v_start v < v_end v →
  area_at (recolor start end_ perm v) a =
    if decide (start ≤ a < end_) then (λ x, (perm, x.2)) <$> area_at [v] a else area_at [v] a.
Proof.
  intros Hse. unfold recolor, cut2, cut, prot, contains, area_at. destruct v as [x y p f]. cbn. intros Hxy.
  destruct (Z.eqb_spec p perm) as [->|Hp].
  { unfold filter. cbn. by repeat case_decide. }
  destruct (Z.leb_spec end_ x), (Z.leb_spec y end_); cbn; try lia;
    destruct (Z.leb_spec start x); cbn; try lia; cmp; unfold filter; cbn;
    repeat case_decide; cbn; (done || lia).
Qed.

Lemma evacuate_loop_stop fuel start end_ i s : evacuate_loop fuel start end_ i i s = Some s.
Proof. destruct fuel; cbn [evacuate_loop]; by rewrite decide_True. Qed.

Lemma protect_loop_stop fuel start end_ perm i s : protect_loop fuel start end_ perm i i s = Some s.
Proof. destruct fuel; cbn [protect_loop]; by rewrite decide_True. Qed.

Section Range.
Context (lin : list (Z * Z)) (s : vs) (start end_ : Z).
Context (Hw : wf lin s) (Hse : 0 < start < end_) (He : end_ ≤ upper_vma_limit).
Context (Ps : (page_size | start)) (Pe : (page_size | end_)).

Lemma wf_lin_lt r : r ∈ lin → r.1 < r.2.
Proof using Hw. intros Hr. destruct (wf_lin _ _ Hw r Hr). lia. Qed.

Lemma bind_around (f : vma → list vma) A M b B :
  around lin s start end_ A M b B → (∀ v, ¬ meets start end_ v → f v = []) → vmas s ≫= f = M ≫= f.
Proof using Hse.
  intros [[E _ _ _ _] HA HM HB _] Hf. rewrite E, !bind_app.
  assert (∀ l : list vma, (∀ v, v ∈ l → ¬ meets start end_ v) → l ≫= f = []) as Hn.
  { clear -Hf. induction l as [|v l IH]; intros Hl; [done|]. rewrite bind_cons, Hf by (apply Hl; elem).
    apply IH. intros w Hw. apply Hl. elem. }
  rewrite (Hn A), (Hn (b :: B)), app_nil_r; [done| |]; intros v Hv [? ?];
    [specialize (HB v Hv)|specialize (HA v Hv)]; lia.
Qed.

Lemma evacuate_spec :
  ∃ s', evacuate start end_ s = Some s' ∧ wf lin s' ∧
    (∀ a, area_at (vmas s') a = if decide (start ≤ a < end_) then None else area_at (vmas s) a) ∧
    ptops s' = ptops s ++ (unpop <$> (vmas s ≫= part start end_)).
Proof using Hw Hse He Ps Pe.
  destruct (find_intersecting_vmas_spec lin s start end_) as (A & M & b & B & Ha & Ef); [done|done|done|].
  pose proof (ar_span _ _ _ _ _ _ _ _ Ha) as Hsp. pose proof (weights_fuel _ _ _ _ _ _ _ _ Ha) as Hfu.
  assert (evacuate start end_ s = evacuate_loop (loop_fuel s) start end_ (v_start <$> head (M ++ b :: B)) (Some (v_start b)) s) as E.
  { unfold evacuate. rewrite Ef. destruct M as [|v M]; [|done].
    cbn [mbind option_bind app head fmap option_fmap option_map]. by rewrite !evacuate_loop_stop. }
  destruct (evacuate_loop_spec lin wf_lin_lt start end_ b B) with (fuel := loop_fuel s) (s := s) (A := A) (M := M)
    as (s' & E' & H' & Ho); [lia|done|done|done|apply Ha|done|].
  exists s'. rewrite E. split; [done|]. split; [exact (wf_around _ _ _ _ _ _ _ _ _ _ Hw (proj1 Hse) He Ha H')|]. split.
  - intros a. apply (area_at_around lin s s' start end_ A M b B (M ≫= clip start end_) (λ _, None) a); [done|by apply H'| |done].
    rewrite (area_at_bind _ (λ x, if decide (start ≤ a < end_) then None else x)).
    + by case_decide.
    + by case_decide.
    + intros v _. apply clip_at. lia.
    + case_decide; [by right|by left].
  - rewrite Ho. f_equal. f_equal. symmetry. eapply bind_around; [exact Ha|].
    intros v Hm. unfold part, meets in *.
    destruct (Z.ltb_spec (Z.max (v_start v) start) (Z.min (v_end v) end_)); [lia|done].
Qed.

Lemma protect_spec size perm :
  end_ = start + size →
  ∃ s', protect start size perm s = Some s' ∧ wf lin s' ∧
    (∀ a, area_at (vmas s') a =
       if decide (start ≤ a < end_) then (λ x, (perm, x.2)) <$> area_at (vmas s) a else area_at (vmas s) a) ∧
    ptops s' = ptops s ++ (protop perm <$> (vmas s ≫= recolored start end_ perm)).
Proof using Hw Hse He Ps Pe.
  intros Hend. destruct (find_intersecting_vmas_spec lin s start end_) as (A & M & b & B & Ha & Ef); [done|done|done|].
  pose proof (ar_span _ _ _ _ _ _ _ _ Ha) as Hsp. pose proof (weights_fuel _ _ _ _ _ _ _ _ Ha) as Hfu.
  assert (protect start size perm s =
    protect_loop (loop_fuel s) start end_ perm (v_start <$> head (M ++ b :: B)) (Some (v_start b)) s) as E.
  { unfold protect. rewrite wrap64_small, <- Hend, Ef by (unfold u64, upper_vma_limit in *; lia).
    destruct M as [|v M]; [|done].
    cbn [mbind option_bind app head fmap option_fmap option_map]. by rewrite !protect_loop_stop. }
  destruct (protect_loop_spec lin wf_lin_lt start end_ perm b B) with (fuel := loop_fuel s) (s := s) (A := A) (M := M)
    as (s' & E' & H' & Ho); [lia|done|done|done|done|].
  exists s'. rewrite E. split; [done|]. split; [exact (wf_around _ _ _ _ _ _ _ _ _ _ Hw (proj1 Hse) He Ha H')|]. split.
  - intros a. apply (area_at_around lin s s' start end_ A M b B (M ≫= recolor start end_ perm)
      (fmap (λ x, (perm, x.2))) a); [done|by apply H'| |done].
    rewrite (area_at_bind _ (λ x, if decide (start ≤ a < end_) then (λ x, (perm, x.2)) <$> x else x)).
    + by case_decide.
    + by case_decide.
    + intros v Hv. pose proof (sp_good _ _ _ _ _ Hsp) as HG. rewrite Forall_forall in HG.
      destruct (HG v Hv) as [? _]. apply recolor_at; lia.
    + left. by case_decide.
  - rewrite Ho. f_equal. f_equal. symmetry. eapply bind_around; [exact Ha|].
    intros v Hm. unfold recolored, part, meets in *. destruct (_ =? _); [done|].
    destruct (Z.ltb_spec (Z.max (v_start v) start) (Z.min (v_end v) end_)); [lia|done].
Qed.

(** [ismapped] answers whether every address of the range is mapped. *)
Lemma ismapped_loop_spec b B fuel : ∀ a A M,
  span lin s A M (b :: B) → (length M ≤ fuel)%nat → start ≤ a < end_ →
  Forall (meets a end_) M → (∀ v, v ∈ b :: B → end_ ≤ v_start v) →
  (∀ v, v ∈ A → v_end v ≤ a) →
  ∃ r, ismapped_loop fuel a end_ (v_start <$> head (M ++ b :: B)) (Some (v_start b)) s = Some r ∧
    (r = true ↔ ∀ x, a ≤ x < end_ → is_Some (area_at (vmas s) x)).
Proof using Hw Hse.
  induction fuel as [|fuel IH]; intros a A M H Hf Ha HM HB HA; (destruct M as [|v M]; cbn in Hf; [|try lia]).
  1,2: (exists false; split; [cbn; by rewrite decide_True|]); split; [done|]; intros Hall; exfalso;
    destruct (Hall a) as [x (v & Hv & Hc & _)%area_at_some]; [lia|];
    rewrite (sp_list _ _ _ _ _ H) in Hv; apply elem_of_app in Hv as [Hv|Hv];
    [specialize (HA v Hv)|specialize (HB v Hv)]; lia.
  pose proof (span_ksorted _ _ _ _ _ _ H) as HK.
  destruct (span_first _ _ _ _ _ _ H) as [(Hv & _) _]. apply Forall_cons in HM as [[Hve Hav] HM].
  assert (∀ w, w ∈ M ++ b :: B → before v w) as Hvb.
  { pose proof (sp_before _ _ _ _ _ H) as HS. rewrite (sp_list _ _ _ _ _ H) in HS.
    apply pairwise_app in HS as (_ & [HS _] & _). rewrite Forall_forall in HS. exact HS. }
  cbn [app head fmap option_fmap option_map ismapped_loop]. rewrite decide_False.
  2:{ intros [= Heq]. destruct (ksorted_mid _ _ _ HK) as (_ & _ & _ & HB').
      specialize (HB' b ltac:(elem)). lia. }
  rewrite (span_find _ _ _ _ _ _ H). cbn [mbind option_bind].
  destruct (Z.ltb_spec a (v_start v)).
  { exists false. split; [done|]. split; [done|]. intros Hall. exfalso.
    destruct (Hall a) as [x (w & Hw' & Hc & _)%area_at_some]; [lia|].
    rewrite (sp_list _ _ _ _ _ H) in Hw'. cbn [app] in Hw'.
    apply elem_of_app in Hw' as [Hw'|[->|Hw']%elem_of_cons]; [specialize (HA w Hw')| |specialize (Hvb w Hw') as []]; lia. }
  assert (∀ x, v_start v ≤ x < v_end v → is_Some (area_at (vmas s) x)) as Hc.
  { intros x Hx. apply (area_at_covered _ _ v); [|done]. rewrite (sp_list _ _ _ _ _ H). elem. }
  destruct (Z.leb_spec end_ (v_end v)).
  { exists true. split; [done|]. split; [|done]. intros _ x Hx. apply Hc. lia. }
  assert (next_key (v_start v) (vmas s) = v_start <$> head (M ++ b :: B)) as ->.
  { rewrite (sp_list _ _ _ _ _ H). by apply next_key_mid. }
  destruct (IH (v_end v) (A ++ [v]) M) as (r & E & Hr).
  - by apply span_next.
  - lia.
  - lia.
  - rewrite Forall_forall in HM |- *. intros w Hw'. destruct (Hvb w) as [_ ?]; [elem|].
    destruct (HM w Hw'). pose proof (sp_good _ _ _ _ _ H) as HG. rewrite Forall_forall in HG.
    destruct (HG w) as [? _]; [elem|]. split; lia.
  - done.
  - intros w [Hw'| ->%list_elem_of_singleton]%elem_of_app; [specialize (HA w Hw')|]; lia.
  - exists r. split; [done|]. rewrite Hr. split; intros Hall x Hx; [|apply Hall; lia].
    destruct (decide (x < v_end v)); [apply Hc|apply Hall]; lia.
Qed.

Lemma ismapped_spec size :
  end_ = start + size →
  ∃ r, ismapped start size s = Some r ∧
    (r = true ↔ ∀ x, start ≤ x < end_ → is_Some (area_at (vmas s) x)).
Proof using Hw Hse He.
  intros Hend. destruct (find_intersecting_vmas_spec lin s start end_) as (A & M & b & B & Ha & Ef); [done|done|done|].
  pose proof (ar_span _ _ _ _ _ _ _ _ Ha) as Hsp.
  assert (ismapped start size s =
    ismapped_loop (loop_fuel s) start end_ (v_start <$> head (M ++ b :: B)) (Some (v_start b)) s) as ->.
  { unfold ismapped. rewrite wrap64_small, <- Hend, Ef by (unfold u64, upper_vma_limit in *; lia).
    destruct M as [|v M]; [|done]. cbn [mbind option_bind app head fmap option_fmap option_map].
    destruct (loop_fuel s); cbn [ismapped_loop]; by rewrite !decide_True. }
  apply (ismapped_loop_spec b B _ start A M); [done| |lia|apply Ha|apply Ha|apply Ha].
  unfold loop_fuel. rewrite (sp_list _ _ _ _ _ Hsp), !length_app. lia.
Qed.

Lemma sync_total size : end_ = start + align_up size page_size → ∃ r, sync start size s = Some r.
Proof using Hw Hse He.
  intros Hend. destruct (find_intersecting_vmas_spec lin s start end_) as (A & M & b & B & Ha & Ef); [done|done|done|].
  unfold sync. rewrite wrap64_small, <- Hend, Ef by (unfold u64, upper_vma_limit in *; lia).
  by destruct M; eexists.
Qed.
End Range.
