(* ===== verification/VmaSpec.v ===== *)
(** * The address space

    What the system calls of [core/mmu.cc] do to the map from addresses to the
    permissions and flags of the area at the address, and that the search for a
    hole finds one exactly if there is one. *)
From S2P Require Import Prelude Bits MemArea Vma.
Import Vma.

(** ** Unmapping and protecting *)

(** A range below the limit of the areas, in pages. *)
Definition user_range (addr len : Z) : Prop :=
  0 < addr ∧ 0 < len ∧ addr + len ≤ upper_vma_limit ∧ (page_size | addr) ∧ (page_size | len).

Definition mapped (s : vs) (addr len : Z) : Prop :=
  ∀ a, addr ≤ a < addr + len → is_Some (area_at (vmas s) a).

Lemma user_range_align addr len : user_range addr len → align_up len page_size = len.
Proof. intros (? & ? & ? & ? & ?). apply page_aligned_id; [done|]. unfold upper_vma_limit in *. lia. Qed.

Lemma munmap_spec lin s addr len :
  wf lin s → user_range addr len →
  ∃ r s', munmap addr len s = Some (r, s') ∧ wf lin s' ∧
    (r = None ∧ mapped s addr len ∧
       (∀ a, area_at (vmas s') a = if decide (addr ≤ a < addr + len) then None else area_at (vmas s) a) ∧
       ptops s' = ptops s ++ (unpop <$> (vmas s ≫= part addr (addr + len)))
     ∨ r = Some EINVAL ∧ ¬ mapped s addr len ∧ s' = s).
Proof.
  intros Hw Hr. pose proof Hr as (H1 & H2 & H3 & H4 & H5). pose proof (user_range_align _ _ Hr) as Ea.
  destruct (ismapped_spec lin s addr (addr + len) Hw ltac:(lia) H3 len eq_refl) as (b & Eb & Hb).
  unfold munmap. rewrite !Ea, Eb. cbn [mbind option_bind]. destruct b.
  - destruct (sync_total lin s addr (addr + len) Hw ltac:(lia) H3 len) as [r Er]; [by rewrite Ea|].
    rewrite Er. cbn [mbind option_bind]. unfold unmap.
    rewrite Ea, wrap64_small by (unfold u64, upper_vma_limit in *; lia).
    destruct (evacuate_spec lin s addr (addr + len)) as (s' & E & Hw' & Hat & Ho); [done|lia|done|done|..].
    { by apply Z.divide_add_r. }
    rewrite E. exists None, s'. split; [done|]. split; [done|]. left. split; [done|]. split; [exact (proj1 Hb eq_refl)|done].
  - exists (Some EINVAL), s. split; [done|]. split; [done|]. right. split; [done|]. split; [|done].
    intros Hm. discriminate (proj2 Hb Hm).
Qed.

(** C29: [munmap] of a page range below the limit of the areas succeeds exactly if
    every address of the range is mapped; then the addresses of the range are
    unmapped, all others keep their permissions and flags, exactly the mapped
    parts of the range are removed from the page tables, and the list of areas
    and the set of ranges stay well-formed.  Otherwise it returns [EINVAL] and
    changes nothing. *)
Theorem munmap_correct lin s addr len :
  wf lin s → user_range addr len →
  ∃ r s', munmap addr len s = Some (r, s') ∧ wf lin s' ∧
    (r = None ∧ mapped s addr len ∧
       (∀ a, area_at (vmas s') a = if decide (addr ≤ a < addr + len) then None else area_at (vmas s) a) ∧
       ptops s' = ptops s ++ (unpop <$> (vmas s ≫= part addr (addr + len)))
     ∨ r = Some EINVAL ∧ ¬ mapped s addr len ∧ s' = s).
Proof. apply munmap_spec. Qed.

(** C30: [mprotect] of a page range below the limit of the areas succeeds exactly
    if every address of the range is mapped; then exactly the addresses of the
    range get the new permissions, areas being split as needed, and the page
    tables are changed exactly for the parts whose permissions differ.  Otherwise
    it returns [ENOMEM] and changes nothing. *)
Theorem mprotect_correct lin s addr len perm :
  wf lin s → user_range addr len →
  ∃ r s', mprotect addr len perm s = Some (r, s') ∧ wf lin s' ∧
    (r = None ∧ mapped s addr len ∧
       (∀ a, area_at (vmas s') a =
          if decide (addr ≤ a < addr + len) then (λ x, (perm, x.2)) <$> area_at (vmas s) a
          else area_at (vmas s) a) ∧
       ptops s' = ptops s ++ (protop perm <$> (vmas s ≫= recolored addr (addr + len) perm))
     ∨ r = Some ENOMEM ∧ ¬ mapped s addr len ∧ s' = s).
Proof.
  intros Hw (H1 & H2 & H3 & H4 & H5).
  destruct (ismapped_spec lin s addr (addr + len) Hw ltac:(lia) H3 len eq_refl) as (b & Eb & Hb).
  unfold mprotect. rewrite Eb. cbn [mbind option_bind]. destruct b.
  - destruct (protect_spec lin s addr (addr + len)) with (size := len) (perm := perm)
      as (s' & E & Hw' & Hat & Ho); [done|lia|done|done| |done|].
    { by apply Z.divide_add_r. }
    rewrite E. exists None, s'. split; [done|]. split; [done|]. left. split; [done|]. split; [exact (proj1 Hb eq_refl)|done].
  - exists (Some ENOMEM), s. split; [done|]. split; [done|]. right. split; [done|]. split; [|done].
    intros Hm. discriminate (proj2 Hb Hm).
Qed.

(** ** Holes *)

Section Hole.
Context (s : vs) (start size : Z).
Context (Hstart : 0 < start) (Hsize : 0 < size) (Hwrap : start + size < 2 ^ 64).

(** The region does not touch the range [r]. *)
Definition avoids (x : Z) (r : Z * option Z) : Prop := range_end s r ≤ x ∨ x + size ≤ r.1.

Definition proper (r : Z * option Z) : Prop := 0 ≤ r.1 ≤ range_end s r ∧ range_end s r < 2 ^ 64.

Definition hole (p : Z * option Z) (rest : list (Z * option Z)) (x : Z) : Prop :=
  start ≤ x ∧ range_end s p ≤ x ∧ x + size ≤ upper_vma_limit ∧ ∀ r, r ∈ rest → x + size ≤ r.1 ∨ range_end s r ≤ x.

Lemma hole_loop_spec rest : ∀ p ge,
  pairwise (λ x y, range_end s x ≤ y.1) (p :: rest) → Forall proper (p :: rest) →
  (∃ r, r ∈ rest ∧ upper_vma_limit < r.1) → (∃ r, r ∈ p :: rest ∧ r.1 = upper_vma_limit) →
  (∀ r, r ∈ rest → start ≤ r.1) → 0 ≤ ge →
  ∃ o, hole_loop s p rest start size ge = Some o ∧
    match o with
    | Some x => x = ge ∧ 0 < ge ∨ hole p rest x
    | None => ge = 0 ∧ ∀ x, ¬ hole p rest x
    end.
Proof using Hstart Hsize Hwrap.
  induction rest as [|n rest IH]; intros p ge HS HP (r0 & Hr0 & Hup) (u & Hu & Eu) Hst Hge; [by apply not_elem_of_nil in Hr0|].
  destruct HS as [Hp HS]. apply Forall_cons in HP as [[Hp1 Hp2] HP]. pose proof HP as [[Hn1 Hn2] _]%Forall_cons.
  pose proof HS as [Hn _]. rewrite Forall_forall in Hp, Hn. pose proof (Hp n ltac:(elem)) as Hpn.
  specialize (Hst n ltac:(elem)) as Hstn. cbn [hole_loop].
  assert (∀ x, hole n rest x → hole p (n :: rest) x) as Hup1.
  { intros x (? & ? & ? & Ha). split_and!; [lia..|]. intros r [->|Hr]%elem_of_cons; [lia|by apply Ha]. }
  assert (∀ x, start ≤ x → range_end s p ≤ x → x + size ≤ n.1 → n.1 ≤ upper_vma_limit → hole p (n :: rest) x) as Hhere.
  { intros x ? ? ? ?. split_and!; [lia..|]. intros r [->|Hr]%elem_of_cons; [lia|]. specialize (Hn r Hr). lia. }
  destruct (Z.leb_spec n.1 upper_vma_limit) as [Hle|Hgt].
  2:{ destruct (Z.eqb_spec ge 0); cbn [negb]; eexists; (split; [done|]); cbn; [|left; lia].
      split; [done|]. intros x (? & ? & ? & Ha).
      apply elem_of_cons in Hu as [->|[->|Hu]%elem_of_cons]; [lia|lia|]. specialize (Hn u Hu). lia. }
  assert ((∃ r, r ∈ rest ∧ upper_vma_limit < r.1)) as Hr0'.
  { apply elem_of_cons in Hr0 as [->|Hr0]; [lia|]. by exists r0. }
  assert (∀ r, r ∈ rest → start ≤ r.1) as Hst' by (intros; apply Hst; elem).
  assert (∃ r, r ∈ n :: rest ∧ r.1 = upper_vma_limit) as Hu'.
  { apply elem_of_cons in Hu as [->|Hu]; [|by exists u]. exists n. split; [elem|lia]. }
  assert (∀ ge', 0 ≤ ge' → (ge' = ge ∨ hole p (n :: rest) ge' ∧ 0 < ge') →
    (ge' = 0 → ∀ x, hole p (n :: rest) x → range_end s n ≤ x) →
    ∃ o, hole_loop s n rest start size ge' = Some o ∧
      match o with
      | Some x => x = ge ∧ 0 < ge ∨ hole p (n :: rest) x
      | None => ge = 0 ∧ ∀ x, ¬ hole p (n :: rest) x
      end) as Hrec.
  { intros ge' Hge' Hok Hno. destruct (IH n ge') as ([x|] & E & Ho); try done.
    - exists (Some x). split; [done|]. destruct Ho as [[-> ?]|Ho]; [|right; by apply Hup1].
      destruct Hok as [->|[? _]]; [by left|by right].
    - exists None. split; [done|]. destruct Ho as [-> Ho]. destruct Hok as [<-|[_ ?]]; [|lia].
      split; [done|]. intros x Hx. apply (Ho x). specialize (Hno eq_refl x Hx).
      destruct Hx as (? & ? & ? & Ha). split_and!; [lia..|]. intros r Hr. apply Ha. elem. }
  rewrite !wrap64_small by (unfold u64; lia).
  destruct ((range_end s p <=? start) && (start + size <=? n.1)) eqn:E1.
  { apply andb_true_iff in E1 as [?%Z.leb_le ?%Z.leb_le]. eexists. split; [done|]. right. apply Hhere; lia. }
  destruct ((start <=? range_end s p) && (size <=? n.1 - range_end s p)) eqn:E2.
  2:{ apply Hrec; [done|by left|]. intros _ x (? & ? & ? & Ha). destruct (Ha n ltac:(elem)); [|done].
      apply andb_false_iff in E1, E2. rewrite !Z.leb_gt in E1, E2. lia. }
  apply andb_true_iff in E2 as [?%Z.leb_le ?%Z.leb_le].
  destruct (Z.ltb_spec size huge_page_size).
  { eexists. split; [done|]. right. apply Hhere; lia. }
  change huge_page_size with (2 ^ 21) in *.
  pose proof (align_up_bounds (range_end s p) 21) as [_ Hb]; [lia|lia|unfold upper_vma_limit in *; lia|].
  rewrite wrap64_small by (unfold u64; lia).
  destruct (Z.leb_spec size (n.1 - align_up (range_end s p) (2 ^ 21))).
  - eexists. split; [done|]. right. apply Hhere; lia.
  - apply Hrec; [lia| |lia]. right. split; [apply Hhere; lia|lia].
Qed.
End Hole.

Lemma hole_loop_aligned s start size rest : ∀ p ge x,
  (page_size | start) → (page_size | ge) → Forall (λ r, (page_size | range_end s r) ∧ 0 ≤ range_end s r < 2 ^ 63) (p :: rest) →
  hole_loop s p rest start size ge = Some (Some x) → (page_size | x).
Proof.
  induction rest as [|n rest IH]; intros p ge x Hs Hg HF; cbn [hole_loop]; [done|].
  apply Forall_cons in HF as [[Hp Hp'] HF]. repeat case_match; intros E; try by simplify_eq.
  all: try by (eapply IH; [..|exact E]).
  injection E as <-. change huge_page_size with (2 ^ 21).
  destruct (align_up_bounds (range_end s p) 21) as [Hd _]; [lia|lia|lia|].
  etrans; [|exact Hd]. by exists 512.
Qed.

Section Ranges.
Context (lin : list (Z * Z)) (s : vs) (Hw : wf lin s).

Lemma range_end_anon v : v ∈ vmas s → range_end s (v_start v, None) = v_end v.
Proof using Hw.
  intros Hv. pose proof (before_ksorted _ (wf_before _ _ Hw)) as HK.
  apply list_elem_of_split in Hv as (A & B & E). unfold range_end. cbn. rewrite E in HK |- *.
  by rewrite vma_find_mid.
Qed.

Lemma vma_bounds v : v ∈ vmas s → 0 ≤ v_start v ≤ v_end v ∧ v_end v ≤ upper_vma_limit ∧ (page_size | v_end v).
Proof using Hw.
  intros Hv. destruct (wf_elem _ _ _ Hw Hv) as [->|[->|(? & ? & ? & ?)]]; [| |split_and!; (done || lia)].
  - change (v_start lower_edge) with 0. change (v_end lower_edge) with 0. unfold upper_vma_limit.
    split_and!; try lia. by exists 0.
  - change (v_start upper_edge) with upper_vma_limit. change (v_end upper_edge) with upper_vma_limit.
    unfold upper_vma_limit. split_and!; try lia. by exists (0x400000000000 / 4096).
Qed.

Lemma ranges_elem r : r ∈ ranges s ↔
  (∃ v, v ∈ vmas s ∧ r = (v_start v, None)) ∨ (∃ k e, (k, e) ∈ lin ∧ r = (k, Some e)).
Proof using Hw.
  pose proof (wf_rok _ _ Hw) as Hr. destruct r as [k [e|]].
  - rewrite (rok_lin _ _ _ Hr). naive_solver.
  - rewrite (rok_anon _ _ _ Hr). naive_solver.
Qed.

Lemma ranges_proper r :
  r ∈ ranges s → proper s r ∧ (page_size | range_end s r) ∧ range_end s r < 2 ^ 63.
Proof using Hw.
  intros [(v & Hv & ->)|(k & e & Hk & ->)]%ranges_elem; unfold proper.
  - rewrite range_end_anon by done. destruct (vma_bounds v Hv) as (? & ? & ?). unfold upper_vma_limit in *.
    split_and!; cbn; (done || lia).
  - destruct (wf_lin _ _ Hw _ Hk) as (? & ? & ?). split_and!; cbn in *; (done || lia).
Qed.

Lemma ranges_disjoint r r' : r ∈ ranges s → r' ∈ ranges s → r.1 < r'.1 → range_end s r ≤ r'.1.
Proof using Hw.
  intros [(v & Hv & ->)|(k & e & Hk & ->)]%ranges_elem [(w & Hw' & ->)|(k' & e' & Hk' & ->)]%ranges_elem;
    rewrite ?range_end_anon by done; cbn; intros Hlt.
  - pose proof (wf_before _ _ Hw) as HS. apply list_elem_of_split in Hv as (A & B & E). rewrite E in HS, Hw'.
    apply pairwise_app in HS as (_ & [HB _] & HA). rewrite Forall_forall in HB.
    apply elem_of_app in Hw' as [Hw'|[->|Hw']%elem_of_cons]; [|lia|by apply HB].
    destruct (HA w v Hw' ltac:(elem)). lia.
  - destruct (wf_sep _ _ Hw _ _ Hk' Hv) as [? ?], (wf_lin _ _ Hw _ Hk') as [? _]. cbn in *. lia.
  - destruct (wf_sep _ _ Hw _ _ Hk Hw') as [? ?], (wf_lin _ _ Hw _ Hk) as [? _], (vma_bounds w Hw'). cbn in *. lia.
  - exact (wf_disj _ _ Hw _ _ Hk Hk' Hlt).
Qed.

(** No area and no linear mapping touches the region. *)
Definition vacant (x size : Z) : Prop :=
  (∀ v, v ∈ vmas s → v_end v ≤ x ∨ x + size ≤ v_start v) ∧ ∀ r, r ∈ lin → r.2 ≤ x ∨ x + size ≤ r.1.

Lemma vacant_avoids x size : vacant x size ↔ ∀ r, r ∈ ranges s → avoids s size x r.
Proof using Hw.
  split.
  - intros [Hv Hl] r [(v & Hv' & ->)|(k & e & Hk & ->)]%ranges_elem; unfold avoids.
    + rewrite range_end_anon by done. by apply Hv.
    + by apply (Hl (k, e)).
  - intros Ha. split.
    + intros v Hv. rewrite <- (range_end_anon v Hv). apply (Ha (v_start v, None)).
      apply ranges_elem. left. by exists v.
    + intros [k e] Hr. apply (Ha (k, Some e)). apply ranges_elem. right. by exists k, e.
Qed.

Lemma ranges_pairwise : pairwise (λ x y, range_end s x ≤ y.1) (ranges s).
Proof using Hw.
  pose proof (rok_sorted _ _ _ (wf_rok _ _ Hw)) as HS.
  assert (∀ r r', r ∈ ranges s → r' ∈ ranges s → r.1 < r'.1 → range_end s r ≤ r'.1) as Hd by apply ranges_disjoint.
  induction (ranges s) as [|r R IH]; [done|]. destruct HS as [Hr HS]. rewrite Forall_forall in Hr. split.
  - apply Forall_forall. intros r' Hr'. apply Hd; [elem|elem|by apply Hr].
  - apply IH; [done|]. intros; apply Hd; [elem|elem|done].
Qed.

(** The list of ranges around an address below the limit. *)
Lemma ranges_around start :
  0 < start ≤ upper_vma_limit →
  ∃ A p R, filter (λ r, r.1 < start) (ranges s) = A ++ [p] ∧
    filter (λ r, start ≤ r.1) (ranges s) = R ∧ ranges s = A ++ p :: R ∧
    ∃ u, u ∈ R ∧ u.1 = upper_vma_limit.
Proof using Hw.
  intros Hs. destruct (wf_edges _ _ Hw) as [Hlo Hup].
  pose proof (sorted_cut fst start _ (rok_sorted _ _ _ (wf_rok _ _ Hw))) as E.
  assert ((0, None) ∈ filter (λ r, r.1 < start) (ranges s)) as Hl.
  { apply list_elem_of_filter. split; [cbn; lia|]. apply ranges_elem. left. by exists lower_edge. }
  assert ((upper_vma_limit, None) ∈ filter (λ r, start ≤ r.1) (ranges s)) as Hu.
  { apply list_elem_of_filter. split; [cbn; lia|]. apply ranges_elem. left. by exists upper_edge. }
  destruct (exists_last (l := filter (λ r, r.1 < start) (ranges s))) as (A & p & EA).
  { intros EA. rewrite EA in Hl. by apply not_elem_of_nil in Hl. }
  exists A, p, (filter (λ r, start ≤ r.1) (ranges s)). split_and!; [done|done| |by eexists].
  rewrite E at 1. rewrite EA, <- (assoc_L (++)). done.
Qed.

Lemma find_hole_spec start size :
  0 < start ≤ upper_vma_limit → 0 < size < 2 ^ 63 → (page_size | start) →
  (∃ r, r ∈ lin ∧ upper_vma_limit < r.1) →
  ∃ o, find_hole start size s = Some o ∧
    match o with
    | Some x => start ≤ x ∧ x + size ≤ upper_vma_limit ∧ (page_size | x) ∧ vacant x size
    | None => ∀ x, start ≤ x → x + size ≤ upper_vma_limit → ¬ vacant x size
    end.
Proof using Hw.
  intros Hs Hz Hp (r0 & Hr0 & Hup). destruct (ranges_around start Hs) as (A & p & R & EA & ER & E & u & Hu & Eu).
  pose proof ranges_pairwise as HP. rewrite E in HP. apply pairwise_app in HP as (_ & HP & HA).
  assert (∀ r, r ∈ p :: R → r ∈ ranges s) as Hin by (intros r Hr; rewrite E; elem).
  assert (find_hole start size s = hole_loop s p R start size 0) as Ef.
  { unfold find_hole. by rewrite EA, ER, last_snoc. }
  assert (∀ r, r ∈ A → range_end s r ≤ range_end s p) as HAp.
  { intros r Hr. specialize (HA r p Hr ltac:(elem)). cbn in HA.
    destruct (ranges_proper p (Hin p ltac:(elem))) as [[? _] _]. lia. }
  assert (∀ r, r ∈ R → start ≤ r.1) as HR by (intros r; rewrite <- ER, list_elem_of_filter; tauto).
  destruct (hole_loop_spec s start size) with (rest := R) (p := p) (ge := 0) as (o & Eo & Ho); try done; try lia.
  - unfold upper_vma_limit in *. lia.
  - apply Forall_forall. intros r Hr. by apply ranges_proper, Hin.
  - exists (r0.1, Some r0.2). split; [|done]. rewrite <- ER. apply list_elem_of_filter. split; [cbn; lia|].
    apply ranges_elem. right. exists r0.1, r0.2. by destruct r0.
  - exists u. split; [elem|done].
  - rewrite Ef. exists o. split; [done|]. destruct o as [x|].
    + destruct Ho as [[_ ?]|(H1 & H2 & H3 & H4)]; [lia|]. split_and!; [done|done| |].
      * eapply hole_loop_aligned; [done|by exists 0| |exact Eo]. apply Forall_forall. intros r Hr.
        destruct (ranges_proper r (Hin r Hr)) as ([? _] & ? & ?). split; [done|lia].
      * apply vacant_avoids. intros r Hr. rewrite E in Hr. unfold avoids.
        apply elem_of_app in Hr as [Hr|[->|Hr]%elem_of_cons]; [specialize (HAp r Hr); lia|lia|].
        specialize (H4 r Hr). tauto.
    + intros x Hx1 Hx2 Hv. destruct Ho as [_ Ho]. apply (Ho x).
      pose proof (proj1 (vacant_avoids _ _) Hv) as Hav. unfold avoids in Hav. split_and!; [done| |done|].
      * destruct (Hav p); [apply Hin; elem|done|].
        assert (p.1 < start); [|lia]. assert (p ∈ filter (λ r, r.1 < start) (ranges s)) as Hp' by (rewrite EA; elem).
        apply list_elem_of_filter in Hp' as [? _]. done.
      * intros r Hr. destruct (Hav r); [apply Hin; elem|tauto..].
Qed.

(** ** A new area *)

Lemma ends_cut {A} (x y : A) (mid L R : list A) :
  x :: mid ++ [y] = L ++ R → L ≠ [] → R ≠ [] →
  ∃ L' R', L = x :: L' ∧ R = R' ++ [y] ∧ mid = L' ++ R'.
Proof using Type.
  intros E HL HR. destruct L as [|x' L]; [done|]. injection E as <- E.
  destruct (exists_last HR) as (R' & y' & ->). rewrite (assoc_L (++)) in E.
  apply app_inj_tail in E as [-> <-]. by exists L, R'.
Qed.

Lemma insert_spec x size perm flags o :
  0 < x → 0 < size → x + size ≤ upper_vma_limit → (page_size | x) → (page_size | size) → vacant x size →
  let s' := mk (vma_insert (mkVma x (x + size) perm flags) (vmas s)) (range_insert (x, None) (ranges s)) o in
  wf lin s' ∧ vma_find x (vmas s') = Some (mkVma x (x + size) perm flags) ∧
  ∀ a, area_at (vmas s') a = if decide (x ≤ a < x + size) then Some (perm, flags) else area_at (vmas s) a.
Proof using Hw.
  intros Hx Hz Hup Px Pz [Hv Hl] s'. set (n := mkVma x (x + size) perm flags).
  pose proof (wf_before _ _ Hw) as HS. pose proof (before_ksorted _ HS) as HK.
  destruct (wf_edges _ _ Hw) as [Hlo Hu].
  pose proof (ksorted_cut x _ HK) as E.
  set (A := filter (λ v, v_start v < x) (vmas s)) in *. set (B := filter (λ v, x ≤ v_start v) (vmas s)) in *.
  assert (∀ v, v ∈ A → v_start v < x ∧ v_end v ≤ x) as HA.
  { intros v [? Hv']%list_elem_of_filter. destruct (Hv v Hv'); lia. }
  assert (∀ v, v ∈ B → x + size ≤ v_start v) as HB.
  { intros v [? Hv']%list_elem_of_filter. destruct (Hv v Hv'); [|done].
    destruct (wf_elem _ _ _ Hw Hv') as [->|[->|[? _]]]; [| |lia].
    - change (v_start lower_edge) with 0 in *. lia.
    - change (v_start upper_edge) with upper_vma_limit. lia. }
  assert (vmas s' = A ++ n :: B) as E'.
  { cbn. rewrite E at 1. apply vma_insert_mid; [by intros; apply HA|].
    intros v Hb. specialize (HB v Hb). cbn. lia. }
  assert (good n) as Hn by (unfold good; cbn; split_and!; [lia..|done|by apply Z.divide_add_r]).
  assert (pairwise before (A ++ n :: B)) as HS'.
  { rewrite E in HS. apply pairwise_app in HS as (? & ? & ?). apply pairwise_app. split_and!; [done| |].
    - split; [|done]. apply Forall_forall. intros w Hw'. specialize (HB w Hw'). split; cbn; lia.
    - intros v w Hv' [->|Hw']%elem_of_cons; [|by auto]. destruct (HA v Hv'). split; cbn; lia. }
  split; [split|split].
  - destruct (wf_shape _ _ Hw) as (mid & Em & Hg). rewrite E in Em.
    destruct (ends_cut lower_edge upper_edge mid A B) as (A' & B' & EA & EB & ->); [done|..].
    + intros EA. assert (lower_edge ∈ A) as Hin; [|rewrite EA in Hin; by apply not_elem_of_nil in Hin].
      apply list_elem_of_filter. split; [|done]. by change (v_start lower_edge) with 0.
    + intros EB. assert (upper_edge ∈ B) as Hin; [|rewrite EB in Hin; by apply not_elem_of_nil in Hin].
      apply list_elem_of_filter. split; [|done]. change (v_start upper_edge) with upper_vma_limit. lia.
    + exists (A' ++ n :: B'). rewrite E', EA, EB. split; [cbn; by rewrite <- (assoc_L (++))|].
      rewrite !Forall_app, Forall_cons in *. tauto.
  - by rewrite E'.
  - intros r v Hr Hv'. rewrite E' in Hv'.
    assert (v = n ∨ v ∈ vmas s) as [->|Hv2].
    { rewrite E. apply elem_of_app in Hv' as [?|[->|?]%elem_of_cons]; [right; elem|by left|right; elem]. }
    + destruct (wf_lin _ _ Hw r Hr) as [? _]. specialize (Hl r Hr). split; cbn; lia.
    + by apply (wf_sep _ _ Hw).
  - apply Hw.
  - apply Hw.
  - rewrite E'. eapply rok_insert; [apply Hw|..].
    + intros v Hv'. rewrite E in Hv'. apply elem_of_app in Hv' as [Hv'|Hv'];
        [specialize (HA v Hv')|specialize (HB v Hv')]; lia.
    + intros e He. destruct (wf_lin _ _ Hw _ He) as [? _]. specialize (Hl _ He). cbn in *. lia.
    + intros k. rewrite E. setoid_rewrite elem_of_app. setoid_rewrite elem_of_cons. split.
      * intros (v & [Hv'|[->|Hv']] & <-); [right; eauto|by left|right; eauto].
      * intros [->|(v & [Hv'|Hv'] & <-)]; [exists n; auto|exists v; auto|exists v; auto].
  - rewrite E'. apply (vma_find_mid A B n). by apply before_ksorted.
  - intros a. rewrite E', E, !area_at_app. change (n :: B) with ([n] ++ B). rewrite area_at_app.
    destruct (decide (x ≤ a < x + size)) as [Ha|Ha].
    + rewrite (area_at_none A); [|intros v Hv'; specialize (HA v Hv'); lia].
      unfold area_at at 1. rewrite filter_cons_True by (cbn; lia). done.
    + rewrite (area_at_none [n]); [done|]. intros v ->%list_elem_of_singleton. cbn. lia.
Qed.
End Ranges.

(** What [map_anon] asks of the page tables for the new area. *)
Definition populated (flags perm x len : Z) : list ptop :=
  if Z.land flags mmap_populate =? 0 then []
  else [Populate (negb (Z.land flags mmap_small =? 0)) perm false x x len].

(** The address space [s'] is [s] with a new area. *)
Definition with_area (s s' : vs) (x len perm flags : Z) : Prop :=
  ∀ a, area_at (vmas s') a = if decide (x ≤ a < x + len) then Some (perm, flags) else area_at (vmas s) a.

(** The area goes where there is room. *)
Lemma place_spec lin s x len addr perm flags :
  wf lin s → user_range x len → vacant lin s x len →
  let v := vma_set (make_vma addr (wrap64 (addr + len)) perm flags) x (wrap64 (x + len)) in
  let s1 := mk (vma_insert v (vmas s)) (range_insert (v_start v, None) (ranges s)) (ptops s) in
  let s' := if Z.land flags mmap_populate =? 0 then s1 else populate_vma (align_down x page_size) x len false s1 in
  wf lin s' ∧ with_area s s' x len perm flags ∧ ptops s' = ptops s ++ populated flags perm x len.
Proof.
  intros Hw Hr Hv. pose proof Hr as (H1 & H2 & H3 & H4 & H5). cbn zeta.
  assert (0 ≤ x < 2 ^ 62 ∧ 0 ≤ x + len < 2 ^ 62) as [Hb1 Hb2] by (unfold upper_vma_limit in *; lia).
  destruct (page_aligned_id x H4 Hb1) as [E1 _].
  destruct (page_aligned_id (x + len) (Z.divide_add_r _ _ _ H4 H5) Hb2) as [_ E2].
  unfold vma_set, make_vma. cbn [v_perm v_flags]. rewrite wrap64_small by (unfold u64; lia). rewrite E1, E2.
  cbn [v_start]. destruct (insert_spec lin s Hw x len perm flags (ptops s)) as (Hw' & Hf & Hat); [done..|].
  unfold populated, populate_vma. destruct (Z.land flags mmap_populate =? 0).
  - split; [done|]. split; [done|]. cbn. by rewrite app_nil_r.
  - cbn [vmas] in Hf |- *. rewrite Hf. split; [|by split]. by destruct Hw'; split.
Qed.

Lemma map_anon_spec lin s addr size flags perm :
  wf lin s → (∃ r, r ∈ lin ∧ upper_vma_limit < r.1) →
  0 ≤ addr ≤ upper_vma_limit → (page_size | addr) → 0 < size < 2 ^ 62 → Z.land flags mmap_fixed = 0 →
  let len := align_up size page_size in
  let hint := if addr =? 0 then 0x200000000000 else addr in
  ∃ r s', map_anon addr size flags perm s = Some (r, s') ∧ wf lin s' ∧
    match r with
    | inl x => hint ≤ x ∧ user_range x len ∧ vacant lin s x len ∧ with_area s s' x len perm flags ∧
               ptops s' = ptops s ++ populated flags perm x len
    | inr e => e = ENOMEM ∧ s' = s ∧ ∀ x, hint ≤ x → x + len ≤ upper_vma_limit → ¬ vacant lin s x len
    end.
Proof.
  intros Hw Hab Ha Pa Hz Hf len hint.
  destruct (align_up_bounds size 12) as [Dl Bl]; [lia|lia|lia|].
  change (align_up size (2 ^ 12)) with len in Dl, Bl.
  assert (0 < hint ≤ upper_vma_limit ∧ (page_size | hint)) as [Hh Ph].
  { unfold hint. destruct (Z.eqb_spec addr 0); [|split; [lia|done]].
    unfold upper_vma_limit. split; [lia|by exists (0x200000000000 / 4096)]. }
  destruct (find_hole_spec lin s Hw hint len) as (o & Eo & Ho); [done|lia|done|done|].
  unfold map_anon, allocate. rewrite Hf, Z.eqb_refl. fold len hint. rewrite Eo.
  destruct o as [x|].
  - destruct Ho as (Hx & Hx' & Px & Hv).
    assert (user_range x len) as Hr by (split_and!; (done || lia)).
    destruct (place_spec lin s x len addr perm flags Hw Hr Hv) as (Hw' & Hat & Hp).
    eexists (inl x), _. split; [reflexivity|]. split; [exact Hw'|]. split_and!; (done || exact Hat || exact Hp).
  - exists (inr ENOMEM), s. split; [done|]. split; [done|]. done.
Qed.

(** C31: [map_anon] without [mmap_fixed] returns a page-aligned address not below
    the hint where no area and no linear mapping was, and the address space is the
    old one with exactly the new area; it fails with [ENOMEM], changing nothing,
    only if there is no such place between the hint and the limit of the areas. *)
Theorem map_anon_search lin s addr size flags perm :
  wf lin s → (∃ r, r ∈ lin ∧ upper_vma_limit < r.1) →
  0 ≤ addr ≤ upper_vma_limit → (page_size | addr) → 0 < size < 2 ^ 62 → Z.land flags mmap_fixed = 0 →
  let len := align_up size page_size in
  let hint := if addr =? 0 then 0x200000000000 else addr in
  ∃ r s', map_anon addr size flags perm s = Some (r, s') ∧ wf lin s' ∧
    match r with
    | inl x => hint ≤ x ∧ user_range x len ∧ vacant lin s x len ∧ with_area s s' x len perm flags ∧
               ptops s' = ptops s ++ populated flags perm x len
    | inr e => e = ENOMEM ∧ s' = s ∧ ∀ x, hint ≤ x → x + len ≤ upper_vma_limit → ¬ vacant lin s x len
    end.
Proof. apply map_anon_spec. Qed.

Lemma vacant_unmapped lin s x len :
  wf lin s → user_range x len → (∀ r, r ∈ lin → r.2 ≤ x ∨ x + len ≤ r.1) →
  (∀ a, x ≤ a < x + len → area_at (vmas s) a = None) → vacant lin s x len.
Proof.
  intros Hw (H1 & H2 & H3 & _) Hl Ha. split; [|done]. intros v Hv.
  destruct (wf_elem _ _ _ Hw Hv) as [->|[->|[Hg _]]].
  - left. change (v_end lower_edge) with 0. lia.
  - right. by change (v_start upper_edge) with upper_vma_limit.
  - destruct (decide (v_end v ≤ x ∨ x + len ≤ v_start v)) as [|Hm]; [done|].
    destruct (area_at_covered (vmas s) (Z.max x (v_start v)) v) as [y Ey]; [done|lia|].
    rewrite Ha in Ey by lia. done.
Qed.

(** [map_anon] with [mmap_fixed] returns the address it was given and replaces
    exactly the range by the new area: what was mapped there is removed from the
    page tables first, and the rest of the address space is unchanged. *)
Theorem map_anon_fixed lin s addr size flags perm :
  wf lin s → Z.land flags mmap_fixed ≠ 0 → 0 < size < 2 ^ 62 →
  let len := align_up size page_size in
  user_range addr len → (∀ r, r ∈ lin → r.2 ≤ addr ∨ addr + len ≤ r.1) →
  ∃ s', map_anon addr size flags perm s = Some (inl addr, s') ∧ wf lin s' ∧
    with_area s s' addr len perm flags ∧
    ptops s' = ptops s ++ (unpop <$> (vmas s ≫= part addr (addr + len))) ++ populated flags perm addr len.
Proof.
  intros Hw Hf Hz len Hr Hl. pose proof Hr as (H1 & H2 & H3 & H4 & H5).
  destruct (evacuate_spec lin s addr (addr + len)) as (s1 & E1 & Hw1 & Hat1 & Ho1); [done|lia|done|done|..].
  { by apply Z.divide_add_r. }
  assert (vacant lin s1 addr len) as Hv.
  { apply vacant_unmapped; [done|done|done|]. intros a Ha. rewrite Hat1. by rewrite decide_True. }
  destruct (place_spec lin s1 addr len addr perm flags Hw1 Hr Hv) as (Hw' & Hat & Hp).
  unfold map_anon, allocate. rewrite (proj2 (Z.eqb_neq (Z.land flags mmap_fixed) 0) Hf). fold len.
  replace (evacuate addr (wrap64 (addr + len)) s) with (Some s1)
    by (rewrite wrap64_small by (unfold u64, upper_vma_limit in *; lia); done).
  eexists. split; [reflexivity|]. split; [exact Hw'|]. split.
  - intros a. etrans; [exact (Hat a)|]. rewrite Hat1. by destruct (decide (addr ≤ a < addr + len)).
  - etrans; [exact Hp|]. by rewrite Ho1, <- (assoc_L (++)).
Qed.

(** ** Page faults *)

Lemma lower_bound_last lin s a :
  wf lin s → 0 < a < upper_vma_limit →
  ∃ L p v R, vmas s = (L ++ [p]) ++ v :: R ∧ (∀ x, x ∈ L ++ [p] → v_start x < a) ∧
    (∀ x, x ∈ v :: R → a ≤ v_start x).
Proof.
  intros Hw Ha. destruct (wf_edges _ _ Hw) as [Hlo Hup]. pose proof (before_ksorted _ (wf_before _ _ Hw)) as HK.
  destruct (cut3 a a _ HK) as (L & M & R & E & HL & HM & HR); [lia|].
  assert (M = []) as -> by (destruct M as [|x M]; [done|]; specialize (HM x ltac:(elem)); lia).
  cbn [app] in E. rewrite E in Hlo, Hup.
  destruct L as [|p L _] using rev_ind; [specialize (HR _ Hlo); change (v_start lower_edge) with 0 in HR; lia|].
  destruct R as [|v R].
  { rewrite app_nil_r in Hup. specialize (HL _ Hup). change (v_start upper_edge) with upper_vma_limit in HL. lia. }
  by exists L, p, v, R.
Qed.

Lemma find_intersecting_vma_spec lin s a :
  wf lin s → 0 < a < upper_vma_limit →
  ∃ o, find_intersecting_vma s a = Some o ∧
    match o with
    | Some v => v ∈ vmas s ∧ good v ∧ v_start v ≤ a < v_end v ∧ area_at (vmas s) a = Some (v_perm v, v_flags v)
    | None => area_at (vmas s) a = None
    end.
Proof.
  intros Hw Ha. destruct (lower_bound_last lin s a Hw Ha) as (L & p & v & R & E & HL & HR).
  pose proof (wf_before _ _ Hw) as HS. pose proof (before_ksorted _ HS) as HK. rewrite E in HS, HK.
  assert (∀ w, w ∈ vmas s → v_start w ≤ a < v_end w → good w) as Hgood.
  { intros w Hw' Hc. apply (wf_good lin s a (a + 1)); [done|lia|lia|done|]. split; lia. }
  assert (∀ A w B, vmas s = A ++ w :: B → v_start w ≤ a < v_end w →
    w ∈ vmas s ∧ good w ∧ v_start w ≤ a < v_end w ∧ area_at (vmas s) a = Some (v_perm w, v_flags w)) as Hfound.
  { intros A w B E' Hc. assert (w ∈ vmas s) as Hin by (rewrite E'; elem). split_and!; [done|by apply Hgood|lia|lia|].
    pose proof (wf_before _ _ Hw) as HS'. rewrite E' in HS' |- *. apply pairwise_app in HS' as (_ & _ & HA).
    rewrite area_at_app, area_at_none.
    - unfold area_at. by rewrite filter_cons_True.
    - intros x Hx. destruct (HA x w Hx ltac:(elem)). lia. }
  assert (lower_bound a (vmas s) = Some v) as Elb by (by rewrite E, lower_bound_app).
  assert (prev (v_start v) (vmas s) = Some p) as Epr by (by rewrite E, prev_mid, last_snoc).
  unfold find_intersecting_vma. rewrite Elb. cbn [mbind option_bind].
  destruct (Z.eqb_spec (v_start v) a) as [Hva|Hva].
  - exists (Some v). split; [done|]. eapply Hfound; [exact E|].
    destruct (wf_elem _ _ v Hw) as [->|[->|[Hg _]]]; [rewrite E; elem|..|lia].
    + change (v_start lower_edge) with 0 in Hva. lia.
    + change (v_start upper_edge) with upper_vma_limit in Hva. lia.
  - rewrite Epr. cbn [mbind option_bind].
    specialize (HL p ltac:(elem)) as Hp. rewrite (proj2 (Z.leb_le _ _)) by lia. cbn [andb].
    destruct (Z.ltb_spec a (v_end p)).
    + exists (Some p). split; [done|]. rewrite <- (assoc_L (++)) in E. eapply Hfound; [exact E|lia].
    + exists None. split; [done|]. apply area_at_none. intros x Hx Hc. rewrite E in Hx.
      apply elem_of_app in Hx as [Hx|Hx].
      * apply elem_of_app in Hx as [Hx| ->%list_elem_of_singleton]; [|lia].
        apply pairwise_app in HS as (HS & _ & _). apply pairwise_app in HS as (_ & _ & HS).
        destruct (HS x p Hx ltac:(elem)). lia.
      * specialize (HR x Hx) as Hx'. apply elem_of_cons in Hx as [->|Hx]; [lia|].
        apply pairwise_app in HS as (_ & [HS _] & _). rewrite Forall_forall in HS. destruct (HS x Hx).
        specialize (HR v ltac:(elem)). lia.
Qed.

(** The permissions allow the access that faulted. *)
Definition allowed (perm error_code : Z) : bool :=
  negb (Z.land perm (if is_page_fault_insn error_code then perm_exec
                     else if is_page_fault_write error_code then perm_write else perm_read) =? 0).

Lemma fault_range_spec v a :
  good v → v_start v ≤ a < v_end v → (page_size | a) →
  let '(p, n) := fault_range v a in
  p ≤ a < p + n ∧ v_start v ≤ p ∧ p + n ≤ v_end v ∧ (n | p) ∧
  (n = page_size ∨ n = huge_page_size ∧ has_flags v mmap_small = false).
Proof.
  intros (H1 & H2 & [i H3] & [j H4]) Ha [k Hk]. unfold fault_range, upper_vma_limit in *.
  change page_size with 4096 in *. change huge_page_size with (2 ^ 21) in *.
  destruct (align_up_bounds (v_start v) 21) as [[u Hu] Bu]; [lia|lia|lia|].
  destruct (align_down_bounds (v_end v) 21) as [[d Hd] Bd]; [unfold u64; lia|lia|].
  destruct (align_down_bounds a 21) as [[e He] Be]; [unfold u64; lia|lia|].
  destruct (has_flags v mmap_small) eqn:Hf; cbn [negb andb].
  { split_and!; try lia. by exists k. }
  destruct (_ && _) eqn:Hc.
  - apply andb_true_iff in Hc as [?%Z.leb_le ?%Z.ltb_lt]. split_and!; try lia. by exists e.
  - split_and!; try lia. by exists k.
Qed.

(** C32: A page fault below the limit of the areas either raises the signal, and
    then the fast check failed, the page is not mapped or its permissions do not
    allow the access, or populates one naturally aligned page, huge only if the
    area allows it, that contains the address and lies inside its area. *)
Theorem vm_fault_correct lin s pte addr code :
  wf lin s → page_size ≤ addr < upper_vma_limit →
  ∃ r s', vm_fault pte addr code s = Some (r, s') ∧ vmas s' = vmas s ∧
    let a := align_down addr page_size in
    (r = Sigsegv ∧ s' = s ∧
       (fast_sigsegv_check pte code = true ∨ area_at (vmas s) a = None ∨
        ∃ perm flags, area_at (vmas s) a = Some (perm, flags) ∧ allowed perm code = false)
     ∨ r = Populated ∧ fast_sigsegv_check pte code = false ∧
       ∃ v p n, v ∈ vmas s ∧ allowed (v_perm v) code = true ∧
         p ≤ a < p + n ∧ v_start v ≤ p ∧ p + n ≤ v_end v ∧ (n | p) ∧
         (n = page_size ∨ n = huge_page_size ∧ has_flags v mmap_small = false) ∧
         ptops s' = ptops s ++ [Populate (has_flags v mmap_small) (v_perm v) (is_page_fault_write code) (v_start v) p n]).
Proof.
  intros Hw Ha. unfold vm_fault. destruct (fast_sigsegv_check pte code) eqn:Hf.
  { exists Sigsegv, s. split; [done|]. split; [done|]. left. auto. }
  change page_size with (2 ^ 12) in *.
  destruct (align_down_bounds addr 12) as [Pa Ba]; [unfold u64, upper_vma_limit in *; cbn in Ha; lia|lia|].
  set (a := align_down addr (2 ^ 12)) in *. cbn zeta.
  assert (0 < a < upper_vma_limit) as Ha'.
  { destruct Pa as [k Hk]. change (2 ^ 12) with 4096 in *. lia. }
  destruct (find_intersecting_vma_spec lin s a Hw Ha') as (o & Eo & Ho). rewrite Eo. cbn [mbind option_bind].
  destruct o as [v|].
  2:{ exists Sigsegv, s. split; [done|]. split; [done|]. left. auto. }
  destruct Ho as (Hv & Hg & Hc & Hat).
  assert (access_fault v code = negb (allowed (v_perm v) code)) as ->.
  { unfold access_fault, allowed. rewrite negb_involutive. by repeat case_match. }
  destruct (allowed (v_perm v) code) eqn:Hal; cbn [negb].
  - pose proof (fault_range_spec v a Hg Hc Pa) as Hfr. unfold vma_fault.
    destruct (fault_range v a) as [p n]. destruct Hfr as (? & ? & ? & ? & ?).
    eexists Populated, _. split; [reflexivity|].
    assert (vma_find (v_start v) (vmas s) = Some v) as Ef.
    { pose proof (before_ksorted _ (wf_before _ _ Hw)) as HK. apply list_elem_of_split in Hv as (A & B & E).
      rewrite E in HK |- *. by apply vma_find_mid. }
    unfold populate_vma. rewrite Ef. split; [done|]. right. split_and!; [done|done|].
    by exists v, p, n.
  - exists Sigsegv, s. split; [done|]. split; [done|]. left. split_and!; [done|done|]. right. right. eauto.
Qed.

(** ** Linear mappings *)

Lemma linear_map_wf lin s virt size :
  wf lin s → 0 ≤ virt → 0 < size → virt + size < 2 ^ 63 → (page_size | virt + size) →
  (∀ v, v ∈ vmas s → sep (virt, virt + size) v) →
  (∀ r, r ∈ lin → r.1 ≠ virt ∧ (r.2 ≤ virt ∨ virt + size ≤ r.1)) →
  wf ((virt, virt + size) :: lin) (linear_map_range virt size s).
Proof.
  intros Hw Hv Hz Hb Hp Hsep Hdis. unfold linear_map_range. rewrite wrap64_small by (unfold u64; lia).
  assert (∀ y, y ∈ ranges s → y.1 ≠ virt) as Hk.
  { intros y [(v & Hv' & ->)|(k & e & Hr & ->)]%(ranges_elem lin s Hw).
    - destruct (Hsep v Hv') as [Hne _]. cbn in *. congruence.
    - by apply (Hdis (k, e)). }
  pose proof (wf_rok _ _ Hw) as Hr. split; cbn [vmas ranges set_ranges].
  - apply Hw.
  - apply Hw.
  - intros r v [->|Hr']%elem_of_cons Hv'; [by apply Hsep|by apply (wf_sep _ _ Hw)].
  - intros r [->|Hr']%elem_of_cons; [split_and!; (done || cbn; lia)|by apply (wf_lin _ _ Hw)].
  - intros r r' [->|H1]%elem_of_cons [->|H2]%elem_of_cons Hlt; cbn in *; try lia.
    + destruct (Hdis r' H2) as [? [?|?]]; [|done]. destruct (wf_lin _ _ Hw r' H2) as [? _]. lia.
    + destruct (Hdis r H1) as [? [?|?]]; [done|]. destruct (wf_lin _ _ Hw r H1) as [? _]. lia.
    + by apply (wf_disj _ _ Hw).
  - split.
    + apply range_insert_sorted; [done|apply Hr].
    + intros k. rewrite range_insert_elem by done. rewrite (rok_anon _ _ _ Hr). naive_solver.
    + intros k e. rewrite range_insert_elem, (rok_lin _ _ _ Hr), elem_of_cons by done. naive_solver.
Qed.

(** ** Examples *)

(** One area and a linear mapping above the limit. *)
Definition ex_lin : list (Z * Z) := [(0x500000000000, 0x500000100000)].
Definition ex_linear : vs := linear_map_range 0x500000000000 0x100000 initial.
Definition ex_area : vs :=
  mk (vma_insert (mkVma 0x10000 0x20000 3 0) (vmas ex_linear)) (range_insert (0x10000, None) (ranges ex_linear)) [].
Definition ex_areas : vs :=
  mk (vma_insert (mkVma 0x20000 0x30000 1 0) (vmas ex_area)) (range_insert (0x20000, None) (ranges ex_area)) [].

Lemma initial_elem v : v ∈ vmas initial → v = lower_edge ∨ v = upper_edge.
Proof.
  change (vmas initial) with [lower_edge; upper_edge]. rewrite !elem_of_cons.
  intros [->|[->|Hn]]; [by left|by right|by apply not_elem_of_nil in Hn].
Qed.

Lemma ex_linear_wf : wf ex_lin ex_linear.
Proof.
  apply (linear_map_wf [] initial 0x500000000000 0x100000); [apply wf_initial|lia|lia|lia|by exists (0x500000100000 / 4096)|..].
  - intros v [->| ->]%initial_elem; (split; [done|]); by left.
  - intros r Hr. by apply not_elem_of_nil in Hr.
Qed.

Lemma ex_vacant l x size :
  Forall (λ v, v_end v ≤ x ∨ x + size ≤ v_start v) (vmas l) → x + size ≤ 0x500000000000 →
  vacant ex_lin l x size.
Proof.
  rewrite Forall_forall. intros Hl Hx. split; [done|]. intros r ->%list_elem_of_singleton. by right.
Qed.

Lemma ex_area_wf : wf ex_lin ex_area.
Proof.
  apply (insert_spec ex_lin ex_linear ex_linear_wf 0x10000 0x10000 3 0 []); try lia;
    [by unfold upper_vma_limit|by exists 16|by exists 16|].
  apply ex_vacant; [|lia]. change (vmas ex_linear) with [lower_edge; upper_edge].
  rewrite !Forall_cons, Forall_nil. split_and!; [by left|by right|done].
Qed.

Lemma ex_areas_wf : wf ex_lin ex_areas.
Proof.
  apply (insert_spec ex_lin ex_area ex_area_wf 0x20000 0x10000 1 0 []); try lia;
    [by unfold upper_vma_limit|by exists 32|by exists 16|].
  apply ex_vacant; [|lia]. change (vmas ex_area) with [lower_edge; mkVma 0x10000 0x20000 3 0; upper_edge].
  rewrite !Forall_cons, Forall_nil. split_and!; [by left|by left|by right|done].
Qed.

(** [advise] with [advise_dontneed] on a range that begins inside an area and
    ends in the next one discards pages behind the range: of the two adjacent
    areas [0x10000, 0x20000) and [0x20000, 0x30000) the range [0x1f000, 0x21000)
    is to be discarded, and the page tables are told to drop
    [0x2f000, 0x3f000) as well. *)
Theorem advise_discards_more :
  wf ex_lin ex_areas ∧
  advise 0x1f000 0x2000 advise_dontneed ex_areas =
    Some (None, operate (operate ex_areas (Unpopulate 0x10000 0x1f000 0x2000)) (Unpopulate 0x20000 0x2f000 0x10000)).
Proof. split; [apply ex_areas_wf|reflexivity]. Qed.

Lemma munmap_witness :
  ∃ r s', munmap 0x11000 0x1000 ex_areas = Some (r, s') ∧ wf ex_lin s' ∧
    (r = None ∧ mapped ex_areas 0x11000 0x1000 ∧
       (∀ a, area_at (vmas s') a = if decide (0x11000 ≤ a < 0x11000 + 0x1000) then None else area_at (vmas ex_areas) a) ∧
       ptops s' = ptops ex_areas ++ (unpop <$> (vmas ex_areas ≫= part 0x11000 (0x11000 + 0x1000)))
     ∨ r = Some EINVAL ∧ ¬ mapped ex_areas 0x11000 0x1000 ∧ s' = ex_areas).
Proof.
  apply (munmap_correct ex_lin ex_areas 0x11000 0x1000); [apply ex_areas_wf|].
  unfold user_range, upper_vma_limit. split_and!; [lia..|by exists 17|by exists 1].
Defined.

Lemma mprotect_witness :
  ∃ r s', mprotect 0x1f000 0x2000 5 ex_areas = Some (r, s') ∧ wf ex_lin s' ∧
    (r = None ∧ mapped ex_areas 0x1f000 0x2000 ∧
       (∀ a, area_at (vmas s') a =
          if decide (0x1f000 ≤ a < 0x1f000 + 0x2000) then (λ x, (5, x.2)) <$> area_at (vmas ex_areas) a
          else area_at (vmas ex_areas) a) ∧
       ptops s' = ptops ex_areas ++ (protop 5 <$> (vmas ex_areas ≫= recolored 0x1f000 (0x1f000 + 0x2000) 5))
     ∨ r = Some ENOMEM ∧ ¬ mapped ex_areas 0x1f000 0x2000 ∧ s' = ex_areas).
Proof.
  apply (mprotect_correct ex_lin ex_areas 0x1f000 0x2000 5); [apply ex_areas_wf|].
  unfold user_range, upper_vma_limit. split_and!; [lia..|by exists 31|by exists 2].
Defined.

Lemma map_anon_search_witness :
  ∃ r s', map_anon 0x10000 5000 mmap_populate 3 ex_areas = Some (r, s') ∧ wf ex_lin s' ∧
    match r with
    | inl x => 0x10000 ≤ x ∧ user_range x 0x2000 ∧ vacant ex_lin ex_areas x 0x2000 ∧
               with_area ex_areas s' x 0x2000 3 mmap_populate ∧
               ptops s' = ptops ex_areas ++ populated mmap_populate 3 x 0x2000
    | inr e => e = ENOMEM ∧ s' = ex_areas ∧
               ∀ x, 0x10000 ≤ x → x + 0x2000 ≤ upper_vma_limit → ¬ vacant ex_lin ex_areas x 0x2000
    end.
Proof.
  apply (map_anon_search ex_lin ex_areas 0x10000 5000 mmap_populate 3);
    [apply ex_areas_wf| |unfold upper_vma_limit; lia|by exists 16|lia|done].
  exists (0x500000000000, 0x500000100000). split; [elem|done].
Defined.

Lemma map_anon_fixed_witness :
  ∃ s', map_anon 0x1f000 0x2000 mmap_fixed 7 ex_areas = Some (inl 0x1f000, s') ∧ wf ex_lin s' ∧
    with_area ex_areas s' 0x1f000 0x2000 7 mmap_fixed ∧
    ptops s' = ptops ex_areas ++ (unpop <$> (vmas ex_areas ≫= part 0x1f000 (0x1f000 + 0x2000)))
               ++ populated mmap_fixed 7 0x1f000 0x2000.
Proof.
  apply (map_anon_fixed ex_lin ex_areas 0x1f000 0x2000 mmap_fixed 7); [apply ex_areas_wf|done|lia|..].
  - change (align_up 0x2000 page_size) with 0x2000. unfold user_range, upper_vma_limit.
    split_and!; [lia..|by exists 31|by exists 2].
  - intros r ->%list_elem_of_singleton. by right.
Defined.

Lemma vm_fault_witness :
  ∃ r s', vm_fault None 0x1f123 page_fault_write ex_areas = Some (r, s') ∧ vmas s' = vmas ex_areas ∧
    (r = Sigsegv ∧ s' = ex_areas ∧
       (fast_sigsegv_check None page_fault_write = true ∨ area_at (vmas ex_areas) 0x1f000 = None ∨
        ∃ perm flags, area_at (vmas ex_areas) 0x1f000 = Some (perm, flags) ∧ allowed perm page_fault_write = false)
     ∨ r = Populated ∧ fast_sigsegv_check None page_fault_write = false ∧
       ∃ v p n, v ∈ vmas ex_areas ∧ allowed (v_perm v) page_fault_write = true ∧
         p ≤ 0x1f000 < p + n ∧ v_start v ≤ p ∧ p + n ≤ v_end v ∧ (n | p) ∧
         (n = page_size ∨ n = huge_page_size ∧ has_flags v mmap_small = false) ∧
         ptops s' = ptops ex_areas ++ [Populate (has_flags v mmap_small) (v_perm v) true (v_start v) p n]).
Proof.
  apply (vm_fault_correct ex_lin ex_areas None 0x1f123 page_fault_write); [apply ex_areas_wf|].
  unfold upper_vma_limit. change page_size with 4096. lia.
Defined.
