(* ===== verification/Malloc.v ===== *)
(** * The C allocator

    [malloc], [free] and their relatives at the end of [core/mempool.cc]: the
    choice between the pools of small objects, the early objects, single pages,
    large objects and mapped memory, and the way back from an address alone, with
    the bytes of the objects; the debug allocator is not built in this
    configuration. *)
From S2P Require Import Prelude Bits MemArea PageRange PageRangeSpec Memory Reclaim Large Queues PageSource.
From S2P Require Import PagePool Pool PoolSpec Early Vma.
Import PageRanges Memory Reclaim Large PagePool.

(** ** Memory from the address space

    [map_anon] and [munmap] as the large objects use them.  [am_inv v l] is the
    invariant while the areas [l], an address and a size each, are mapped for
    them; [am_full v size] says that there is no place for [size] bytes. *)
Definition map_base : Z := 0x200000000000.

Class AnonMaps (V : Type) := {
  am_map : Z → prog V Z;
  am_unmap : Z → Z → prog V unit;
  am_inv : V → list (Z * Z) → Prop;
  am_full : V → Z → Prop;
  am_perm v l l' : l ≡ₚ l' → am_inv v l → am_inv v l';
  am_areas v l : am_inv v l →
    pairwise disj l ∧
    Forall (λ x, map_base ≤ x.1 ∧ 0 < x.2 ∧ x.1 + x.2 ≤ phys_mem ∧ (page_size | x.1)) l;
  am_map_spec v l size : am_inv v l → 0 < size < 2 ^ 62 → (page_size | size) →
    wp (am_map size) v (λ a v', am_inv v' ((a, size) :: l)) (λ _, False) (am_full v size);
  am_unmap_spec v l a size : am_inv v ((a, size) :: l) → (page_size | size) →
    wp (am_unmap a size) v (λ _ v', am_inv v' l) (λ _, False) False;
}.

(** ** Single pages before the pools *)

Definition set_mem (p : PagePool.t) (m : mem) : PagePool.t := PagePool.set_rc p (set_mm (rc p) m).

(** [early_alloc_page]; null is 0.  The counter of free memory is wrong after
    that: it was changed first. *)
Definition boot_page : prog PagePool.t Z := λ p,
  match early_alloc_page (mm (rc p)) with
  | (Some v, m) => Ret v (set_mem p m)
  | (None, m) => Ret 0 (set_mem p m)
  end.
Definition boot_free (v : Z) : prog PagePool.t unit := λ p, Ret tt (set_mem p (early_free_page (mm (rc p)) v)).

(** The same pages for the early objects, which write through them at once. *)
Definition boot_alloc : prog PagePool.t Z := bind boot_page (λ v, if v =? 0 then fault else ret v).

Lemma pool_inv_set p r held held' bs bs' :
  pool_inv p held bs →
  mem_inv (mm r) ((pg <$> held' ++ pool_pages p) ++ bs') → headed (pra (mm r)) bs' →
  pool_inv (PagePool.set_rc p r) held' bs'.
Proof. intros [H1 H2 H3 H4 H5 H6] Hm Hh. by split. Qed.

Lemma boot_page_spec p held bs :
  pool_inv p held bs →
  wp boot_page p
    (λ v p', l1s p' = l1s p ∧
       (v = 0 ∧ ranges (pra (mm (rc p))) = [] ∨ v ≠ 0 ∧ pool_inv p' (v :: held) bs))
    (λ _, False) False.
Proof.
  intros Hp. unfold wp, boot_page. destruct (early_alloc_page (mm (rc p))) as [[v|] m] eqn:E; (split; [done|]).
  - right. destruct (early_alloc_page_spec _ _ _ _ (pi_mem _ _ _ Hp) E) as [Hm Hf].
    assert (pool_inv (set_mem p m) (v :: held) bs) as Hp'.
    { apply (pool_inv_set p (set_mm (rc p) m) held _ bs); [done|exact Hm|]. eapply headed_frame; [apply Hp|].
      intros x Hx. apply Hf. elem. }
    split; [|done]. destruct (pool_inv_pages _ _ _ Hp') as [_ Hv]. apply Hv. elem.
  - left. split; [done|]. destruct (early_page_none _ _ _ (pi_mem _ _ _ Hp) E) as [_ H]. exact H.
Qed.

Lemma boot_free_spec p v held bs :
  pool_inv p (v :: held) bs →
  wp (boot_free v) p (λ _ p', l1s p' = l1s p ∧ pool_inv p' held bs) (λ _, False) False.
Proof.
  intros Hp. pose proof (pi_mem _ _ _ Hp) as Hm. split; [done|]. apply (pool_inv_set p (set_mm (rc p) _) (v :: held) _ bs); [done|..].
  - by apply mem_freed_at.
  - eapply (headed_freed _ _ _ _ _ Hm); [intros x Hx; elem|apply Hp].
Qed.

#[global, refine] Instance boot_source (bs : list (Z * Z)) : PageSource PagePool.t := {
  ps_alloc _ := boot_alloc;
  ps_free _ := boot_free;
  ps_inv p held := pool_inv p held bs;
  ps_cpu p cpu := (cpu < length (l1s p))%nat;
}.
Proof.
  - intros p held Hp. destruct (pool_inv_pages _ _ _ Hp) as [Hnd Hv].
    apply NoDup_app in Hnd as (Hnd & _). split; [done|]. intros v Hin. apply Hv. elem.
  - intros p held held'. apply pool_inv_held.
  - intros p held _ Hp _. apply wp_bind. eapply wp_mono; [by eapply boot_page_spec| |done|done].
    intros v p' [E [[-> _]|[Hv Hp']]]; [done|]. unfold wp. rewrite (proj2 (Z.eqb_neq _ _)) by done. cbn. by rewrite E.
  - intros p held _ v Hp _. eapply wp_mono; [by eapply boot_free_spec| |done|done]. intros _ p' [-> ?]. done.
Defined.

Module Malloc.

(** The other allocators, the size in front of each mapped object and the bytes of
    the objects in use.  The areas of the linear map show the same memory, so a
    byte of it goes by its address in the main area; what the allocators write
    into memory that is not in use is in their own states. *)
Record t (V : Type) := mk {
  smp_allocator : bool;
  pools : Pool.t PagePool.t;
  early : Early.est;
  maps : V;
  headers : gmap Z Z;
  data : Z → Z;
}.
Arguments mk {V}.
Arguments smp_allocator {V}.
Arguments pools {V}.
Arguments early {V}.
Arguments maps {V}.
Arguments headers {V}.
Arguments data {V}.

Section Ops.
Context (elf_start elf_size curr level : Z) (cpu : nat).
Context {V : Type} `{AnonMaps V}.
Open Scope prog_scope.

(** The source of pages of the pools, and that of the early objects; the blocks
    in their invariants play no part in what they do. *)
Definition pool_pages_src : PageSource PagePool.t := page_pool_source curr level [].
Definition early_pages_src : PageSource PagePool.t := boot_source [].

Definition set_pools (s : t V) (p : Pool.t PagePool.t) : t V :=
  mk (smp_allocator s) p (early s) (maps s) (headers s) (data s).
Definition set_early (s : t V) (p : PagePool.t) (e : Early.est) : t V :=
  mk (smp_allocator s) (Pool.set_src (pools s) p) e (maps s) (headers s) (data s).
Definition set_maps (s : t V) (v : V) : t V := mk (smp_allocator s) (pools s) (early s) v (headers s) (data s).
Definition set_headers (s : t V) (h : gmap Z Z) : t V :=
  mk (smp_allocator s) (pools s) (early s) (maps s) h (data s).
Definition set_data (s : t V) (d : Z → Z) : t V :=
  mk (smp_allocator s) (pools s) (early s) (maps s) (headers s) d.

(** The byte at an address; [memset] and [memcpy] on ranges inside one area. *)
Definition byte_at (a : Z) : Z :=
  if phys_mem <=? a then translate_mem_area (get_mem_area a) main a else a.
Definition memset (p c n : Z) : prog (t V) unit :=
  modify (λ s, set_data s (λ b,
    let i := b - byte_at p in if (0 <=? i) && (i <? n) then c else data s b)).
Definition memcpy (dst src n : Z) : prog (t V) unit :=
  modify (λ s, set_data s (λ b,
    let i := b - byte_at dst in if (0 <=? i) && (i <? n) then data s (byte_at src + i) else data s b)).

(** Calls of the other allocators. *)
Definition in_pools {A} (m : prog (Pool.t PagePool.t) A) : prog (t V) A := λ s,
  match m (pools s) with
  | Ret a p => Ret a (set_pools s p)
  | Blocked p => Blocked (set_pools s p)
  | Fault => Fault
  end.
Definition in_early {A} (m : prog (PagePool.t * Early.est) A) : prog (t V) A := λ s,
  match m (Pool.src (pools s), early s) with
  | Ret a e => Ret a (set_early s e.1 e.2)
  | Blocked e => Blocked (set_early s e.1 e.2)
  | Fault => Fault
  end.
Definition in_pages {A} (m : prog PagePool.t A) : prog (t V) A := λ s,
  match m (Pool.src (pools s)) with
  | Ret a p => Ret a (set_early s p (early s))
  | Blocked p => Blocked (set_early s p (early s))
  | Fault => Fault
  end.
Definition in_maps {A} (m : prog V A) : prog (t V) A := λ s,
  match m (maps s) with
  | Ret a v => Ret a (set_maps s v)
  | Blocked v => Blocked (set_maps s v)
  | Fault => Fault
  end.

(** ** Pages *)

Definition untracked_alloc_page : prog (t V) Z :=
  s ⟵ get;
  in_pages (if smp_allocator s then PagePool.alloc_page cpu curr level else boot_page).
Definition alloc_page : prog (t V) Z := untracked_alloc_page.

Definition untracked_free_page (v : Z) : prog (t V) unit :=
  s ⟵ get;
  in_pages (if smp_allocator s then PagePool.free_page cpu v else boot_free v).
Definition free_page (v : Z) : prog (t V) unit := untracked_free_page v.

(** ** Large objects *)

Definition mapped_malloc_large (size offset : Z) : prog (t V) Z :=
  base ⟵ in_maps (am_map size);
  modify (λ s, set_headers s (<[base := size]> (headers s))) ;;;
  ret (base + offset).

Definition mapped_free_large (object : Z) : prog (t V) unit :=
  let base := large_object_header object in
  s ⟵ get;
  match headers s !! base with
  | None => fault
  | Some size => in_maps (am_unmap base size) ;;; modify (λ s, set_headers s (delete base (headers s)))
  end.

Definition malloc_large (size alignment : Z) (block contiguous : bool) : prog (t V) Z :=
  r ⟵ in_pages (λ p,
    let '(res, r) := Large.malloc_large (rc p) curr level size alignment block contiguous in
    match res with
    | LSleep | LSleepMin => Blocked (PagePool.set_rc p r)
    | LAbort => Fault
    | _ => Ret res (PagePool.set_rc p r)
    end);
  match r with
  | LObj obj => ret obj
  | LMap size offset => mapped_malloc_large size offset
  | _ => ret 0
  end.

Definition free_large (obj : Z) : prog (t V) unit :=
  in_pages (λ p, Ret tt (set_mem p (Large.free_large (mm (rc p)) obj))).

(** ** Objects *)

(** [pool::from_object]: the owner in the header of the object's page, null for
    an early page. *)
Definition from_object (object : Z) : prog (t V) (option nat) :=
  s ⟵ get;
  let pg := Pool.to_header object in
  match Pool.hdrs (pools s) !! pg, Early.counts (early s) !! pg with
  | Some h, _ => ret (Some (Pool.owner h))
  | None, Some _ => ret None
  | None, None => fault
  end.

Definition pool_alloc (n : nat) : prog (t V) Z :=
  in_pools (@Pool.alloc PagePool.t pool_pages_src Pool.compute_object_size n cpu).

Definition std_malloc (size alignment : Z) : prog (t V) Z :=
  if 2 ^ 63 <=? size then ret 0
  else
    s ⟵ get;
    let minimum_size := Z.max size Pool.min_object_size in
    if smp_allocator s && (size <=? Pool.max_object_size) && (alignment <=? minimum_size) then
      o ⟵ pool_alloc (Z.to_nat (ilog2_roundup minimum_size));
      ret (translate_mem_area main mempool o)
    else if smp_allocator s && (alignment <=? Pool.max_object_size) && (minimum_size <=? alignment) then
      o ⟵ pool_alloc (Z.to_nat (ilog2_roundup alignment));
      ret (translate_mem_area main mempool o)
    else if negb (smp_allocator s) && Early.will_fit_in_early_alloc_page size alignment then
      o ⟵ in_early (@Early.early_alloc_object PagePool.t early_pages_src size alignment);
      ret (translate_mem_area main mempool o)
    else if (minimum_size <=? page_size) && (alignment <=? page_size) then
      v ⟵ alloc_page; ret (translate_mem_area main page v)
    else malloc_large size alignment true false.

Definition object_size (object : Z) : prog (t V) Z :=
  if negb (Vma.is_linear_mapped elf_start elf_size object 0) then
    s ⟵ get;
    match headers s !! large_object_header object with
    | None => fault
    | Some n => ret (wrap64 (n - large_object_offset object))
    end
  else
    match get_mem_area object with
    | main => s ⟵ get; ret (large_object_size (mm (rc (Pool.src (pools s)))) object)
    | mempool =>
        let object := translate_mem_area mempool main object in
        pool ⟵ from_object object;
        match pool with
        | Some i => ret (Pool.compute_object_size i)
        | None => in_early (Early.early_object_size object)
        end
    | page => ret page_size
    | debug => fault
    end.

Definition free (object : Z) : prog (t V) unit :=
  if object =? 0 then ret tt
  else if negb (Vma.is_linear_mapped elf_start elf_size object 0) then mapped_free_large object
  else
    match get_mem_area object with
    | page => free_page (translate_mem_area page main object)
    | main => free_large object
    | mempool =>
        let object := translate_mem_area mempool main object in
        pool ⟵ from_object object;
        match pool with
        | Some i => in_pools (@Pool.free PagePool.t pool_pages_src i object cpu)
        | None => in_early (@Early.early_free_object PagePool.t early_pages_src object)
        end
    | debug => fault
    end.

(** ** The interface of C *)

Definition alignof_max_align_t : Z := 16.

Definition malloc (size : Z) : prog (t V) Z :=
  let alignment := if size <? alignof_max_align_t then Z.shiftl 1 (ilog2_roundup size) else alignof_max_align_t in
  std_malloc size alignment.

Definition calloc (nmemb size : Z) : prog (t V) Z :=
  if (nmemb =? 0) || (size =? 0) then malloc 0
  else if (2 ^ 64 - 1) / size <? nmemb then ret 0
  else
    let n := wrap64 (nmemb * size) in
    p ⟵ malloc n;
    if p =? 0 then ret 0 else memset p 0 n ;;; ret p.

Definition std_realloc (object size : Z) : prog (t V) Z :=
  if object =? 0 then malloc size
  else if size =? 0 then free object ;;; ret 0
  else
    old_size ⟵ object_size object;
    let copy_size := if old_size <? size then old_size else size in
    ptr ⟵ malloc size;
    (if ptr =? 0 then ret tt else memcpy ptr object copy_size ;;; free object) ;;;
    ret ptr.

Definition realloc (object size : Z) : prog (t V) Z := std_realloc object size.

Definition reallocarray (object nmemb elem_size : Z) : prog (t V) Z :=
  if 2 ^ 64 <=? nmemb * elem_size then ret 0 else realloc object (wrap64 (nmemb * elem_size)).

Definition malloc_usable_size (object : Z) : prog (t V) Z :=
  if object =? 0 then ret 0 else object_size object.

(** The error number, or the object. *)
Definition EINVAL : Z := 22.
Definition ENOMEM : Z := 12.

Definition posix_memalign (alignment size : Z) : prog (t V) (Z + Z) :=
  if negb (is_power_of_two alignment) then ret (inr EINVAL)
  else
    p ⟵ std_malloc size alignment;
    if p =? 0 then ret (inr ENOMEM)
    else check (Z.land p (wrap64 (alignment - 1)) =? 0) ;;; ret (inl p).

Definition aligned_alloc (alignment size : Z) : prog (t V) Z :=
  r ⟵ posix_memalign alignment size;
  match r with inl p => ret p | inr _ => ret 0 end.

Definition memalign (alignment size : Z) : prog (t V) Z := aligned_alloc alignment size.

Definition alloc_phys_contiguous_aligned (size align : Z) (block : bool) : prog (t V) Z :=
  check (is_power_of_two align) ;;;
  p ⟵ malloc_large size align block true;
  check (Z.land p (wrap64 (align - 1)) =? 0) ;;;
  ret p.

Definition free_phys_contiguous_aligned (p : Z) : prog (t V) unit := free_large p.

Definition alloc_contiguous_aligned (size align : Z) : prog (t V) Z := alloc_phys_contiguous_aligned size align true.
Definition free_contiguous_aligned (p : Z) : prog (t V) unit := free_phys_contiguous_aligned p.

End Ops.
End Malloc.
