(* ===== verification/MallocSpec.v ===== *)
(** * The C allocator is correct

    The objects of [malloc] over the allocators it is made of: every object in use
    is in the hands of one allocator, no two overlap, and [free] finds the way back
    from the address. *)
From S2P Require Import Prelude Bits MemArea PageRange PageRangeSpec Memory Reclaim Large Queues PageSource.
From S2P Require Import PagePool Pool PoolSpec Early Vma Malloc.
Import PageRanges Memory Reclaim Large PagePool Pool Early Malloc.

(** ** Objects in use *)

(** Where an object comes from; an early object has its page. *)
Inductive kind := KPool | KEarly (pg : Z) | KPage | KLarge | KMap.

Definition rank (k : kind) : nat := match k with KPool => 0 | KEarly _ => 1 | KPage => 2 | KLarge => 3 | KMap => 4 end.

#[export] Instance kind_eq_dec : EqDecision kind.
Proof. solve_decision. Defined.

(** An object: its address in the main area or in its mapping, and its usable
    size. *)
Record lobj := mkLive { l_kind : kind; l_at : Z; l_size : Z }.

(** The pointer in the hands of the program. *)
Definition ptr (x : lobj) : Z :=
  match l_kind x with
  | KPool | KEarly _ => translate_mem_area main mempool (l_at x)
  | KPage => translate_mem_area main page (l_at x)
  | KLarge | KMap => l_at x
  end.

(** The block behind a large object, header included. *)
Definition block_of (x : lobj) : Z * Z :=
  (large_object_header (l_at x), l_at x + l_size x - large_object_header (l_at x)).

Definition as_pool (x : lobj) : option Z := match l_kind x with KPool => Some (l_at x) | _ => None end.
Definition as_early (x : lobj) : option Early.obj :=
  match l_kind x with KEarly pg => Some (mkObj pg (l_at x) (l_size x)) | _ => None end.
Definition as_page (x : lobj) : option Z := match l_kind x with KPage => Some (l_at x) | _ => None end.
Definition as_large (x : lobj) : option (Z * Z) := match l_kind x with KLarge => Some (block_of x) | _ => None end.
Definition as_map (x : lobj) : option (Z * Z) := match l_kind x with KMap => Some (block_of x) | _ => None end.

(** What is known of an object by its kind; [hs] are the sizes in front of the
    mapped ones. *)
Definition shaped (hs : gmap Z Z) (x : lobj) : Prop :=
  match l_kind x with
  | KPool => True
  | KEarly _ => 0 < l_size x
  | KPage => l_size x = page_size
  | KLarge => large_object_header (l_at x) + sizeof_page_range ≤ l_at x ∧ 0 < l_size x
  | KMap => large_object_header (l_at x) < l_at x ∧ 0 < l_size x ∧ (page_size | (block_of x).2) ∧
      hs !! large_object_header (l_at x) = Some (block_of x).2
  end.

Definition larges (live : list lobj) : list (Z * Z) := omap as_large live.

(** The pools with the large objects' blocks; the thread plays no part. *)
Definition src_inst (bs : list (Z * Z)) : PageSource PagePool.t := page_pool_source 0 0 bs.

Definition pools_inv (p : Pool.t PagePool.t) (objs held : list Z) (bs : list (Z * Z)) : Prop :=
  ∃ fl sq, @pinv PagePool.t (src_inst bs) compute_object_size p fl sq objs held.

Lemma pools_inv_perm p objs objs' held held' bs bs' :
  objs ≡ₚ objs' → held ≡ₚ held' → bs ≡ₚ bs' → pools_inv p objs held bs → pools_inv p objs' held' bs'.
Proof.
  intros Ho Hh Hb (fl & sq & Hi). exists fl, sq. eapply (pinv_live_perm _ _ _ _ objs); [done|].
  destruct Hi as [Hsrc]. split; try done. destruct Hsrc as [H1 H2 H3 H4 H5 H6]. split; try done.
  - eapply mem_inv_perm; [|exact H1]. by rewrite Hh, Hb.
  - intros x Hx. apply H6. by rewrite Hb.
Qed.

Lemma page_in_area pg o : (page_size | pg) → in_area main pg → pg ≤ o < pg + page_size → in_area main o.
Proof.
  intros [q ->] Ha Ho. unfold in_area in *. rewrite mem_area_size_eq in *. change (get_mem_area_base main) with (2 ^ 34 * page_size) in *.
  change (2 ^ 44) with (2 ^ 32 * page_size) in *. unfold page_size in *. lia.
Qed.

(** A pool object is on a page of the pools. *)
Lemma pools_inv_hdr p objs held bs o :
  pools_inv p objs held bs → o ∈ objs →
  ∃ h, hdrs p !! to_header o = Some h ∧ in_area main o ∧
    to_header o + sizeof_page_header ≤ o ∧ o + compute_object_size (owner h) ≤ to_header o + page_size.
Proof.
  intros (fl & sq & Hi) Ho. destruct (proj1 (p_out _ _ _ _ _ _ Hi o)) as (h & Hh & Hs & _); [by left|].
  exists h. split; [done|]. destruct (slot_header _ _ _ _ _ _ _ _ _ Hi Hh Hs) as (_ & B1 & B2 & _).
  destruct (pool_page _ _ _ _ _ _ _ _ Hi Hh) as [Hd Ha]. split; [|done].
  destruct (p_page _ _ _ _ _ _ Hi _ _ Hh) as ([Hz _] & _). unfold sizeof_free_object, sizeof_page_header in *.
  eapply page_in_area; [exact Hd|exact Ha|lia].
Qed.

Lemma cpus_le a b : (∀ c, (c < a)%nat → (c < b)%nat) → (a ≤ b)%nat.
Proof. intros Hc. destruct a as [|a]; [lia|]. apply Hc. lia. Qed.

Lemma pinv_inst (I J : PageSource PagePool.t) p fl sq objs held :
  (∀ q l, @ps_inv _ I q l → @ps_inv _ J q l) →
  @pinv PagePool.t I compute_object_size p fl sq objs held → @pinv PagePool.t J compute_object_size p fl sq objs held.
Proof. intros HIJ []. split; auto. Qed.

(** ** Calls of the other allocators *)

Section Lift.
Context {V : Type}.

Lemma wp_in_pools {A} (m : prog (Pool.t PagePool.t) A) (s : Malloc.t V) Q W F :
  wp m (pools s) (λ a p, Q a (set_pools s p)) (λ p, W (set_pools s p)) F → wp (in_pools m) s Q W F.
Proof. unfold wp, in_pools. by destruct (m (pools s)). Qed.

Lemma wp_in_early {A} (m : prog (PagePool.t * est) A) (s : Malloc.t V) Q W F :
  wp m (src (pools s), early s) (λ a e, Q a (set_early s e.1 e.2)) (λ e, W (set_early s e.1 e.2)) F →
  wp (in_early m) s Q W F.
Proof. unfold wp, in_early. by destruct (m _). Qed.

Lemma wp_in_pages {A} (m : prog PagePool.t A) (s : Malloc.t V) Q W F :
  wp m (src (pools s)) (λ a p, Q a (set_early s p (early s))) (λ p, W (set_early s p (early s))) F →
  wp (in_pages m) s Q W F.
Proof. unfold wp, in_pages. by destruct (m _). Qed.

Lemma wp_in_maps {A} (m : prog V A) (s : Malloc.t V) Q W F :
  wp m (maps s) (λ a v, Q a (set_maps s v)) (λ v, W (set_maps s v)) F → wp (in_maps m) s Q W F.
Proof. unfold wp, in_maps. by destruct (m _). Qed.

Lemma headers_update (s : Malloc.t V) v hs :
  set_headers (set_maps s v) hs = mk (smp_allocator s) (set_src (pools s) (src (pools s))) (early s) v hs (data s).
Proof. by destruct s as [? []]. Qed.
End Lift.

Section Spec.
Context {V : Type} `{AnonMaps V} (ncpu : nat).

(** The objects [live] are in use on a machine of [ncpu] CPUs. *)
Record minv (s : Malloc.t V) (live : list lobj) : Prop := {
  mv_pools : pools_inv (pools s) (omap as_pool live) (omap as_page live ++ early_pages (early s)) (larges live);
  mv_early : einv (early s) (omap as_early live);
  mv_maps : am_inv (maps s) (omap as_map live);
  mv_shape x : x ∈ live → shaped (headers s) x;
  mv_hdr x : x ∈ live → l_kind x = KPool →
    ∃ h, hdrs (pools s) !! to_header (l_at x) = Some h ∧ l_size x = compute_object_size (owner h);
  mv_cpus pg h : hdrs (pools s) !! pg = Some h → (cpu_id h < length (l1s (src (pools s))))%nat;
  mv_ncpu : (ncpu ≤ length (l1s (src (pools s))))%nat;
}.

Lemma minv_pool_inv s live :
  minv s live →
  pool_inv (src (pools s)) ((omap as_page live ++ early_pages (early s)) ++ pages_of (pools s)) (larges live).
Proof using Type. intros [(fl & sq & Hp) _ _ _ _ _ _]. exact (p_src _ _ _ _ _ _ Hp). Qed.

(** What an operation that leaves the pools alone has to show. *)
Lemma minv_update s live p' e' v' hs' live' :
  minv s live → omap as_pool live' = omap as_pool live →
  pool_inv p' ((omap as_page live' ++ early_pages e') ++ pages_of (pools s)) (larges live') →
  einv e' (omap as_early live') → am_inv v' (omap as_map live') →
  (length (l1s (src (pools s))) ≤ length (l1s p'))%nat →
  (∀ x, x ∈ live' → shaped hs' x) →
  (∀ x, x ∈ live' → l_kind x = KPool → x ∈ live) →
  minv (mk (smp_allocator s) (set_src (pools s) p') e' v' hs' (data s)) live'.
Proof using Type.
  intros [(fl & sq & Hp) He Hm Hs Hh Hc Hnc] Ep Hpi He' Hm' Hl Hx Hpx. split; cbn [pools early maps headers]; try done.
  - exists fl, sq. rewrite Ep. destruct Hp. by split.
  - intros x Hin Ek. by apply Hh; [apply Hpx|].
  - cbn. intros pg h Hpg. eapply Nat.lt_le_trans; [by eapply Hc|done].
  - cbn. lia.
Qed.

(** The same objects in another order. *)
Lemma minv_perm s live live' : live ≡ₚ live' → minv s live → minv s live'.
Proof using Type.
  intros Hp [Hi He Hm Hs Hh Hc Hnc]. split.
  - eapply pools_inv_perm; [..|exact Hi]; unfold larges; by rewrite Hp.
  - eapply einv_perm; [|exact He]. by rewrite Hp.
  - eapply am_perm; [|exact Hm]. by rewrite Hp.
  - intros x Hx. apply Hs. by rewrite Hp.
  - intros x Hx. apply Hh. by rewrite Hp.
  - done.
  - done.
Qed.

(** What an operation of the pools has to show. *)
Lemma minv_pools s live p' live' new :
  minv s live →
  pools_inv p' (omap as_pool live') (omap as_page live ++ early_pages (early s)) (larges live) →
  omap as_page live' = omap as_page live → omap as_early live' = omap as_early live →
  omap as_map live' = omap as_map live → larges live' = larges live →
  keeps (pools s) p' new →
  (∀ c, (c < length (l1s (src (pools s))))%nat → (c < length (l1s (src p')))%nat) →
  (∀ i c, new i c → (c < length (l1s (src (pools s))))%nat) →
  (∀ x, x ∈ live' → x ∈ live ∨ l_kind x = KPool ∧
     ∃ h, hdrs p' !! to_header (l_at x) = Some h ∧ l_size x = compute_object_size (owner h)) →
  minv (set_pools s p') live'.
Proof using Type.
  intros [Hi He Hm Hs Hh Hc Hnc] Hi' E1 E2 E3 E4 Hk Hl Hn Hx. split; cbn [pools early maps headers set_pools].
  - by rewrite E1, E4.
  - by rewrite E2.
  - by rewrite E3.
  - intros x Hin. destruct (Hx x Hin) as [Hold|[Ek _]]; [by apply Hs|]. unfold shaped. by rewrite Ek.
  - intros x Hin Ek. destruct (Hx x Hin) as [Hold|[_ ?]]; [|done]. destruct (Hh x Hold Ek) as (h & Hpg & Esz).
    destruct (pools_inv_hdr _ _ _ _ (l_at x) Hi') as (h' & Hpg' & _).
    { apply list_elem_of_omap. exists x. split; [done|]. unfold as_pool. by rewrite Ek. }
    exists h'. split; [done|]. specialize (Hk _ _ Hpg'). rewrite Hpg in Hk. by destruct Hk as [-> _].
  - intros pg h' Hpg'. specialize (Hk _ _ Hpg'). destruct (hdrs (pools s) !! pg) as [h|] eqn:Eh.
    + destruct Hk as [_ ->]. apply Hl. by eapply Hc.
    + apply Hl. by eapply Hn.
  - apply cpus_le in Hl. lia.
Qed.

(** ** Where the objects are *)

(** The page or the block that holds an object. *)
Definition cont (x : lobj) : Z * Z :=
  match l_kind x with
  | KPool => (to_header (l_at x), page_size)
  | KEarly pg => (pg, page_size)
  | KPage => (l_at x, page_size)
  | KLarge | KMap => block_of x
  end.

Lemma in_cont s live x :
  minv s live → x ∈ live → (cont x).1 ≤ l_at x ∧ l_at x + l_size x ≤ (cont x).1 + (cont x).2 ∧ 0 < l_size x.
Proof using Type.
  intros Hv Hx. pose proof (mv_shape _ _ Hv x Hx) as Hs. unfold cont, shaped in *. destruct (l_kind x) as [|pg| | |] eqn:Ek.
  - destruct (mv_hdr _ _ Hv x Hx Ek) as (h & Hh & Hsz).
    destruct (pools_inv_hdr _ _ _ _ (l_at x) (mv_pools _ _ Hv)) as (h' & Hh' & _ & B1 & B2).
    { apply list_elem_of_omap. exists x. split; [done|]. unfold as_pool. by rewrite Ek. }
    assert (h' = h) as -> by congruence. rewrite <- Hsz in B2. cbn [fst snd]. unfold sizeof_page_header in B1.
    destruct (mv_pools _ _ Hv) as (fl & sq & Hi). destruct (p_page _ _ _ _ _ _ Hi _ _ Hh) as ([Hz _] & _).
    unfold obj_size in Hz. rewrite <- Hsz in Hz. unfold sizeof_free_object in Hz. lia.
  - destruct (ei_obj _ _ (mv_early _ _ Hv) (mkObj pg (l_at x) (l_size x))) as (_ & B1 & _ & B2 & _).
    { apply list_elem_of_omap. exists x. split; [done|]. unfold as_early. by rewrite Ek. }
    unfold o_end in B2. cbn in *. unfold sizeof_early_page_header, sizeof_short in B1. lia.
  - cbn [fst snd]. unfold page_size in *. lia.
  - unfold block_of. cbn [fst snd]. unfold sizeof_page_range in Hs. lia.
  - unfold block_of. cbn [fst snd]. lia.
Qed.

(** The pages and the blocks, all apart. *)
Definition conts (s : Malloc.t V) (live : list lobj) : list (Z * Z) :=
  (pg <$> (omap as_page live ++ early_pages (early s)) ++ pages_of (pools s)) ++ larges live.

Lemma conts_disj s live :
  minv s live →
  pairwise disj (conts s live) ∧
  ∀ c, c ∈ conts s live → 0 < c.2 ∧ in_area main c.1 ∧ in_area main (c.1 + c.2 - 1).
Proof using Type.
  intros Hv. pose proof (minv_pool_inv _ _ Hv) as Hp. pose proof (mi_wf _ _ (pi_mem _ _ _ Hp)) as Hwf.
  assert (∀ c, c ∈ conts s live →
    c ∈ (pg <$> ((omap as_page live ++ early_pages (early s)) ++ pages_of (pools s)) ++ pool_pages (src (pools s))) ++ larges live)
    as Hin.
  { intros c. unfold conts. rewrite !fmap_app, !elem_of_app. tauto. }
  split.
  - pose proof (i_disj _ _ _ Hwf) as Hd. unfold blocks in Hd. rewrite !pairwise_app in Hd.
    destruct Hd as (_ & ((_ & (Hd1 & Hd2 & Hd3) & _) & _) & _). unfold conts. rewrite fmap_app, pairwise_app in Hd1.
    apply pairwise_app. split; [apply Hd1|]. split; [done|]. intros x y Hx Hy. apply Hd3; [|done].
    rewrite fmap_app, elem_of_app. by left.
  - intros c Hc%Hin. pose proof (i_lim _ _ _ Hwf).
    destruct (i_fits _ _ _ Hwf c) as (p & k & -> & Hp0 & Hk & Hle); [unfold blocks; elem|]. cbn [fst snd].
    unfold in_area. change (get_mem_area_base main) with phys_mem. rewrite mem_area_size_eq. unfold page_addr, page_size. lia.
Qed.

Definition place (s : Malloc.t V) (live : list lobj) (x : lobj) : Prop :=
  match l_kind x with
  | KPool => (cont x).1 ∈ pages_of (pools s) ∧ (cont x).2 = page_size
  | KEarly _ => (cont x).1 ∈ early_pages (early s) ∧ (cont x).2 = page_size
  | KPage => (cont x).1 ∈ omap as_page live ∧ (cont x).2 = page_size
  | KLarge => cont x ∈ larges live
  | KMap => cont x ∈ omap as_map live
  end.

Lemma cont_place s live x : minv s live → x ∈ live → place s live x.
Proof using Type.
  intros Hv Hx. unfold place, cont. destruct (l_kind x) as [|pg'| | |] eqn:Ek; cbn [fst snd]; try split; try done.
  - destruct (mv_hdr _ _ Hv x Hx Ek) as (h & Hh & _). apply pages_of_elem. by eexists.
  - apply early_pages_elem. apply (ei_obj _ _ (mv_early _ _ Hv) (mkObj pg' (l_at x) (l_size x))).
    apply list_elem_of_omap. exists x. split; [done|]. unfold as_early. by rewrite Ek.
  - apply list_elem_of_omap. exists x. split; [done|]. unfold as_page. by rewrite Ek.
  - apply list_elem_of_omap. exists x. split; [done|]. unfold as_large. by rewrite Ek.
  - apply list_elem_of_omap. exists x. split; [done|]. unfold as_map. by rewrite Ek.
Qed.

Lemma place_page s live x :
  minv s live → x ∈ live → (rank (l_kind x) < 3)%nat →
  cont x ∈ pg <$> (omap as_page live ++ early_pages (early s)) ++ pages_of (pools s).
Proof using Type.
  intros Hv Hx Hk. pose proof (cont_place _ _ _ Hv Hx) as Hp. rewrite list_elem_of_fmap. exists (cont x).1.
  unfold place in Hp. destruct (cont x) as [a n]. cbn [fst snd] in *. rewrite !elem_of_app.
  destruct (l_kind x); cbn in Hk; try lia; destruct Hp as [? ->]; (split; [done|tauto]).
Qed.

Lemma cont_elem s live x : minv s live → x ∈ live → l_kind x ≠ KMap → cont x ∈ conts s live.
Proof using Type.
  intros Hv Hx Hk. unfold conts. rewrite elem_of_app. destruct (decide (l_kind x = KLarge)) as [Ek|Nk].
  - right. pose proof (cont_place _ _ _ Hv Hx) as Hp. unfold place in Hp. by rewrite Ek in Hp.
  - left. apply place_page; [done|done|]. destruct (l_kind x); cbn; (done || lia).
Qed.

(** Every object but a mapped one lies in the main area. *)
Lemma live_main s live x : minv s live → x ∈ live → l_kind x ≠ KMap → in_area main (l_at x).
Proof using Type.
  intros Hv Hx Hk. destruct (in_cont _ _ _ Hv Hx) as (H1 & H2 & H3).
  destruct (proj2 (conts_disj _ _ Hv) _ (cont_elem _ _ _ Hv Hx Hk)) as (_ & A1 & A2). unfold in_area in *. lia.
Qed.

(** Two objects do not overlap. *)
Definition sep_objs (x y : lobj) : Prop := l_at x + l_size x ≤ l_at y ∨ l_at y + l_size y ≤ l_at x.

#[local] Instance sep_objs_sym : Symmetric sep_objs.
Proof using Type. intros x y. unfold sep_objs. tauto. Qed.

Lemma cont_sep s live x y :
  minv s live → x ∈ live → y ∈ live → disj (cont x) (cont y) → sep_objs x y.
Proof using Type.
  intros Hv Hx Hy Hd. destruct (in_cont _ _ _ Hv Hx) as (X1 & X2 & _). destruct (in_cont _ _ _ Hv Hy) as (Y1 & Y2 & _).
  unfold disj, sep_objs in *. lia.
Qed.

(** Objects of different kinds are in different places. *)
Lemma kinds_sep s live x y :
  minv s live → x ∈ live → y ∈ live → (rank (l_kind x) < rank (l_kind y))%nat → sep_objs x y.
Proof using Type.
  intros Hv Hx Hy Hk. destruct (decide (l_kind y = KMap)) as [Ey|Ny].
  { right. assert (l_kind x ≠ KMap) as Nx by (intros Ex; rewrite Ex, Ey in Hk; cbn in Hk; lia).
    pose proof (live_main _ _ _ Hv Hx Nx) as Ha. destruct (in_cont _ _ _ Hv Hy) as (_ & Y2 & _).
    destruct (am_areas _ _ (mv_maps _ _ Hv)) as [_ Hall]. rewrite Forall_forall in Hall.
    unfold cont in Y2. rewrite Ey in Y2. destruct (Hall (block_of y)) as (_ & _ & Hb & _).
    { apply list_elem_of_omap. exists y. split; [done|]. unfold as_map. by rewrite Ey. }
    unfold in_area in Ha. change (get_mem_area_base main) with phys_mem in Ha. lia. }
  apply (cont_sep _ _ _ _ Hv Hx Hy). destruct (conts_disj _ _ Hv) as [Hd _]. unfold conts in Hd. rewrite pairwise_app in Hd.
  pose proof (cont_place _ _ _ Hv Hx) as Px. pose proof (cont_place _ _ _ Hv Hy) as Py.
  destruct (decide (l_kind y = KLarge)) as [Ey|Ny'].
  { apply Hd; [|unfold place in Py; by rewrite Ey in Py]. apply place_page; [done|done|]. by rewrite Ey in Hk. }
  assert (rank (l_kind y) < 3)%nat as Ry by (destruct (l_kind y); cbn; (done || lia)).
  destruct (pairwise_elem _ _ (cont x) (cont y) disj_sym (proj1 Hd)) as [E|]; [by apply place_page; [..|lia]|by apply place_page| |done].
  exfalso. destruct (pool_inv_pages _ _ _ (minv_pool_inv _ _ Hv)) as [(Hnd & _)%NoDup_app _].
  apply NoDup_app in Hnd as ((Hnd1 & Hnd2 & _)%NoDup_app & Hnd3 & _). unfold place in Px, Py. rewrite E in Px.
  destruct (l_kind x), (l_kind y); cbn in Hk, Ry; try lia; destruct Px as [Px _], Py as [Py _].
  - apply (Hnd3 _ ltac:(apply elem_of_app; right; exact Py) Px).
  - apply (Hnd3 _ ltac:(apply elem_of_app; left; exact Py) Px).
  - apply (Hnd2 _ Py Px).
Qed.

Lemma kind_sep s x y rest :
  minv s (x :: y :: rest) → rank (l_kind x) = rank (l_kind y) → sep_objs x y.
Proof using Type.
  intros Hv Hk. set (live := x :: y :: rest) in *.
  assert (x ∈ live) as Hx by (unfold live; elem). assert (y ∈ live) as Hy by (unfold live; elem).
  destruct (l_kind x) as [|px| | |] eqn:Ex, (l_kind y) as [|py| | |] eqn:Ey; cbn in Hk; try lia.
  - destruct (mv_hdr _ _ Hv x Hx Ex) as (h & Hh & Esx). destruct (mv_hdr _ _ Hv y Hy Ey) as (h' & Hh' & Esy).
    destruct (mv_pools _ _ Hv) as (fl & sq & Hi). unfold sep_objs. rewrite Esx, Esy.
    assert (omap as_pool live = l_at x :: l_at y :: omap as_pool rest) as E.
    { cbn. unfold as_pool at 1 2. by rewrite Ex, Ey. }
    rewrite E in Hi. pose proof (p_live _ _ _ _ _ _ Hi) as Hnd. rewrite !NoDup_cons in Hnd.
    eapply (in_use_disjoint _ _ _ _ _ _ _ _ h h' Hi); [..|exact Hh|exact Hh'].
    + apply (p_out _ _ _ _ _ _ Hi). left. elem.
    + apply (p_out _ _ _ _ _ _ Hi). left. elem.
    + intros E'. rewrite E' in Hnd. apply (proj1 Hnd). elem.
  - pose proof (ei_gap _ _ (mv_early _ _ Hv)) as Hg. cbn in Hg. unfold as_early at 1 in Hg. rewrite Ex in Hg.
    destruct Hg as [Hg _]. rewrite Forall_forall in Hg. specialize (Hg (mkObj py (l_at y) (l_size y))).
    unfold gap, o_end, sizeof_short in Hg. cbn in Hg. unfold sep_objs. cut (mkObj py (l_at y) (l_size y) ∈ omap as_early (y :: rest)).
    + intros Hin. specialize (Hg Hin). lia.
    + apply list_elem_of_omap. exists y. split; [elem|]. unfold as_early. by rewrite Ey.
  - apply (cont_sep s live); [done..|]. destruct (conts_disj _ _ Hv) as [Hd _]. unfold conts in Hd.
    cbn in Hd. unfold as_page at 1 in Hd. rewrite Ex in Hd. cbn in Hd. destruct Hd as [Hd _]. rewrite Forall_forall in Hd.
    replace (cont x) with (pg (l_at x)) by (unfold cont; by rewrite Ex). apply Hd. rewrite !fmap_app, !elem_of_app.
    left. left. left. apply list_elem_of_fmap. exists (l_at y). split; [unfold cont; by rewrite Ey|].
    unfold as_page at 1. rewrite Ey. elem.
  - apply (cont_sep s live); [done..|]. destruct (conts_disj _ _ Hv) as [Hd _]. unfold conts in Hd.
    rewrite pairwise_app in Hd. destruct Hd as (_ & Hd & _). unfold larges in Hd. cbn in Hd. unfold as_large at 1 in Hd.
    rewrite Ex in Hd. destruct Hd as [Hd _]. rewrite Forall_forall in Hd. unfold cont. rewrite Ex, Ey. apply Hd.
    unfold as_large at 1. rewrite Ey. elem.
  - apply (cont_sep s live); [done..|]. destruct (am_areas _ _ (mv_maps _ _ Hv)) as [Hd _]. cbn in Hd.
    unfold as_map at 1 in Hd. rewrite Ex in Hd. destruct Hd as [Hd _]. rewrite Forall_forall in Hd. unfold cont. rewrite Ex, Ey.
    apply Hd. unfold as_map at 1. rewrite Ey. elem.
Qed.

Lemma live_sep s live : minv s live → pairwise sep_objs live.
Proof using Type.
  intros Hv. assert (∀ pre l, live = pre ++ l → pairwise sep_objs l) as Hall; [|by apply (Hall [] live)].
  intros pre l. revert pre. induction l as [|x l IH]; intros pre E; [done|].
  split; [|by apply (IH (pre ++ [x])); rewrite <- app_assoc].
  apply Forall_forall. intros y Hy. apply list_elem_of_split in Hy as (l1 & l2 & ->).
  assert (minv s (x :: y :: pre ++ l1 ++ l2)) as Hv' by (eapply minv_perm; [|exact Hv]; rewrite E; solve_Permutation).
  destruct (decide (rank (l_kind x) = rank (l_kind y))); [by eapply kind_sep|].
  destruct (decide (rank (l_kind x) < rank (l_kind y))%nat); [|symmetry]; (eapply kinds_sep; [exact Hv'|elem|elem|lia]).
Qed.

(** ** Allocation *)

Section Alloc.
Context (curr level : Z) (cpu : nat).

(** The object [o] of at least [size] bytes, aligned to [2 ^ j]; mapped memory is
    aligned to pages at most. *)
Definition malloc_post (live : list lobj) (size j o : Z) (s' : Malloc.t V) : Prop :=
  ∃ x, o = ptr x ∧ o ≠ 0 ∧ minv s' (x :: live) ∧ size ≤ l_size x ∧ (l_kind x ≠ KMap ∨ j ≤ 12 → (2 ^ j | o)).

Lemma compute_object_size_pow n : (n ≤ 10)%nat → compute_object_size n = 2 ^ Z.of_nat n.
Proof using Type.
  intros Hn. unfold compute_object_size. rewrite Z.shiftl_1_l. change max_object_size with (2 ^ 10).
  pose proof (Z.pow_le_mono_r 2 (Z.of_nat n) 10 ltac:(lia) ltac:(lia)). by rewrite (proj2 (Z.ltb_ge _ _)).
Qed.

Lemma area_divide a b x j : 0 ≤ j ≤ 44 → in_area a x → (2 ^ j | x) → (2 ^ j | translate_mem_area a b x).
Proof using Type.
  intros Hj Ha Hd. rewrite translate_mem_area_eq by done.
  assert (∀ c, (2 ^ j | get_mem_area_base c)) as Hb.
  { intros c. rewrite get_mem_area_base_eq. apply Z.divide_mul_r. exists (2 ^ (44 - j)).
    rewrite <- Z.pow_add_r by lia. f_equal. lia. }
  apply Z.divide_add_r; [by apply Z.divide_sub_r|done].
Qed.

Lemma pool_alloc_ok s live n size j :
  minv s live → (cpu < length (l1s (src (pools s))))%nat → (3 ≤ n ≤ 10)%nat → size ≤ 2 ^ Z.of_nat n → 0 ≤ j ≤ Z.of_nat n →
  wp (o ⟵ pool_alloc curr level cpu n; ret (translate_mem_area main mempool o))%prog s
    (malloc_post live size j) (λ s', minv s' live)
    (PagePool.alloc_page cpu curr level (src (pools s)) = Fault).
Proof using Type.
  intros Hv Hcpu Hn Hsz Hj. apply wp_bind. unfold pool_alloc.
  pose proof (mv_pools _ _ Hv) as (fl & sq & Hi). set (bs := larges live) in Hi.
  apply (pinv_inst _ (page_pool_source curr level bs)) in Hi; [|done].
  assert (size_ok (compute_object_size n)) as Hok by (apply malloc_pool_size_ok; lia).
  pose proof (@alloc_spec _ (page_pool_source curr level bs) compute_object_size (pools s) fl sq _ _ n cpu Hi Hok Hcpu) as Hw.
  pose proof (@alloc_keeps _ (page_pool_source curr level bs) compute_object_size (pools s) fl sq _ _ n cpu Hi Hcpu) as Hk.
  pose proof (wp_conj _ _ _ _ _ _ _ _ Hw Hk) as H2. clear Hw Hk.
  change (@Pool.alloc PagePool.t (page_pool_source curr level bs) compute_object_size n cpu)
    with (@Pool.alloc PagePool.t (pool_pages_src curr level) compute_object_size n cpu) in H2.
  apply wp_in_pools. eapply wp_mono; [exact H2| | |by intros [[_ ?] _]]; clear H2.
  - intros o p' [((fl' & Hi') & (h & Hh & Ho & Hc) & Hl & B1 & B2 & Hd & _) Hk].
    rewrite (compute_object_size_pow n) in * by lia.
    assert (pools_inv p' (omap as_pool (mkLive KPool o (2 ^ Z.of_nat n) :: live))
      (omap as_page live ++ early_pages (early s)) bs) as Hp.
    { exists fl', sq. eapply pinv_inst; [|exact Hi']. done. }
    destruct (pools_inv_hdr _ _ _ _ o Hp) as (_ & _ & Ha & _); [cbn; elem|].
    exists (mkLive KPool o (2 ^ Z.of_nat n)). cbn [ptr l_kind l_at l_size]. split_and!; [done| | |done|].
    + pose proof (translate_mem_area_in main mempool o Ha) as Hm. intros Hz. rewrite Hz in Hm. by destruct Hm.
    + eapply minv_pools; [exact Hv|exact Hp|done..|exact Hk|exact Hl|by intros i c [_ ->]|].
      intros x [->|Hx]%elem_of_cons; [right|by left]. split; [done|]. exists h. cbn. rewrite Ho.
      by rewrite compute_object_size_pow by lia.
    + intros _. apply area_divide; [lia|done|]. etrans; [|apply Hd].
      * exists (2 ^ (Z.of_nat n - j)). rewrite <- Z.pow_add_r by lia. f_equal. lia.
      * exists (2 ^ (12 - Z.of_nat n)). rewrite <- Z.pow_add_r by lia. change page_size with (2 ^ 12). f_equal. lia.
  - intros p' [(_ & Hi' & Hl) Hh]. eapply (minv_pools _ _ _ _ (λ _ _, False)); [exact Hv| |done..| |exact Hl|done|by left].
    + exists fl, sq. eapply pinv_inst; [|exact Hi']. done.
    + by apply keeps_same.
Qed.

Lemma early_alloc_ok s live size j :
  minv s live → (cpu < length (l1s (src (pools s))))%nat → 0 < size < 2 ^ 62 → 0 ≤ j < 62 →
  will_fit_in_early_alloc_page size (2 ^ j) = true →
  wp (o ⟵ in_early (@early_alloc_object PagePool.t early_pages_src size (2 ^ j));
      ret (translate_mem_area main mempool o))%prog s
    (malloc_post live size j) (λ s', minv s' live) (boot_alloc (src (pools s)) = Fault).
Proof using Type.
  intros Hv Hcpu Hsz Hj Hfit. apply wp_bind, wp_in_early.
  pose proof (minv_pool_inv _ _ Hv) as Hp. set (bs := larges live) in *.
  set (held := omap as_page live ++ pages_of (pools s)).
  assert (@early_inv _ (boot_source bs) (src (pools s), early s) (omap as_early live) held) as Hi.
  { split; [|apply Hv]. eapply pool_inv_held; [|exact Hp]. unfold held. solve_Permutation. }
  pose proof (@early_alloc_object_spec _ (boot_source bs) _ _ _ size j Hi ltac:(cbn; lia) ltac:(lia) Hj Hfit) as Hw.
  change (@early_alloc_object PagePool.t (boot_source bs) size (2 ^ j))
    with (@early_alloc_object PagePool.t early_pages_src size (2 ^ j)) in Hw.
  eapply wp_mono; [exact Hw| | |done]; clear Hw.
  - intros o [p' e'] (pg & [Hp' He'] & Hd & Hl). cbn [fst snd] in *.
    destruct (early_page _ _ _ _ (conj Hp' He' : @early_inv _ (boot_source bs) (p', e') _ held)
      (proj1 (ei_obj _ _ He' (mkObj pg o size) ltac:(elem)))) as (Pd & Pa & _).
    destruct (ei_obj _ _ He' (mkObj pg o size) ltac:(elem)) as (_ & O1 & _ & O2 & _).
    unfold o_end, sizeof_early_page_header, sizeof_short in *. cbn [o_page o_addr o_size] in *.
    assert (in_area main o) as Ha by (eapply page_in_area; [exact Pd|exact Pa|lia]).
    exists (mkLive (KEarly pg) o size). cbn [ptr l_kind l_at l_size]. split_and!; [done| | |done|].
    + pose proof (translate_mem_area_in main mempool o Ha) as Hm. intros Hz. rewrite Hz in Hm. by destruct Hm.
    + apply (minv_update s live); try done.
      * eapply pool_inv_held; [|exact Hp']. unfold held. cbn. solve_Permutation.
      * apply Hv.
      * by apply cpus_le.
      * intros x [->|Hx]%elem_of_cons; [cbn; lia|by apply Hv].
      * intros x [->|Hx]%elem_of_cons; [done|done].
    + intros _. apply area_divide; [|done|done]. pose proof (fits_alignment size j ltac:(lia) Hj Hfit). lia.
  - intros [p' e'] [[Hp' He'] Hl]. cbn [fst snd] in *. apply (minv_update s live); try done.
    + eapply pool_inv_held; [|exact Hp']. unfold held. solve_Permutation.
    + apply Hv.
    + by apply cpus_le.
    + apply Hv.
Qed.

(** A new page. *)
Lemma minv_page s live p' v :
  minv s live → pool_inv p' (v :: (omap as_page live ++ early_pages (early s)) ++ pages_of (pools s)) (larges live) →
  (length (l1s (src (pools s))) ≤ length (l1s p'))%nat →
  minv (set_early s p' (early s)) (mkLive KPage v page_size :: live).
Proof using Type.
  intros Hv Hp Hl. apply (minv_update s live); try done; try apply Hv.
  - intros x [->|Hx]%elem_of_cons; [done|by apply Hv].
  - intros x [->|Hx]%elem_of_cons; [done|done].
Qed.

Lemma page_alloc_ok s live size j :
  minv s live → (cpu < length (l1s (src (pools s))))%nat → size ≤ page_size → 0 ≤ j ≤ 12 →
  wp (v ⟵ alloc_page curr level cpu; ret (translate_mem_area main page v))%prog s
    (λ o s', malloc_post live size j o s' ∨
       smp_allocator s = false ∧ ranges (pra (mm (rc (src (pools s))))) = [] ∧ o = translate_mem_area main page 0)
    (λ s', minv s' live) (PagePool.alloc_page cpu curr level (src (pools s)) = Fault).
Proof using Type.
  intros Hv Hcpu Hsz Hj. apply wp_bind. unfold alloc_page, untracked_alloc_page. apply wp_bind. cbn. apply wp_in_pages.
  pose proof (minv_pool_inv _ _ Hv) as Hp.
  assert (∀ v p', pool_inv p' (v :: (omap as_page live ++ early_pages (early s)) ++ pages_of (pools s)) (larges live) →
    (length (l1s (src (pools s))) ≤ length (l1s p'))%nat →
    malloc_post live size j (translate_mem_area main page v) (set_early s p' (early s))) as Hgot.
  { intros v p' Hp' Hl. destruct (pool_inv_pages _ _ _ Hp') as [_ Hpg]. destruct (Hpg v) as (_ & Hd & Ha); [elem|].
    exists (mkLive KPage v page_size). cbn [ptr l_kind l_at l_size]. split_and!; [done| |by apply minv_page|done|].
    - pose proof (translate_mem_area_in main page v Ha) as Hm. intros Hz. rewrite Hz in Hm. by destruct Hm.
    - intros _. apply area_divide; [lia|done|]. etrans; [|exact Hd]. exists (2 ^ (12 - j)).
      rewrite <- Z.pow_add_r by lia. change page_size with (2 ^ 12). f_equal. lia. }
  destruct (smp_allocator s) eqn:Esmp.
  - eapply wp_mono; [exact (wp_fault _ _ _ _ _
      (@ps_alloc_spec _ (page_pool_source curr level (larges live)) _ _ cpu Hp Hcpu))| | |done].
    + intros v p' [Hp' Hl]. left. apply Hgot; [exact Hp'|]. by apply cpus_le.
    + intros p' [Hp' Hl]. apply (minv_update s live); try done; try apply Hv. by apply cpus_le.
  - eapply wp_mono; [exact (boot_page_spec _ _ _ Hp)| |done|done].
    intros v p' [El [[-> Hr]|[_ Hp']]]; [by right|]. left. apply Hgot; [exact Hp'|by rewrite El].
Qed.

Lemma large_size_bound size j :
  0 ≤ size < 2 ^ 61 → 0 ≤ j < 62 → 0 < large_size size (2 ^ j) < 2 ^ 62.
Proof using Type.
  intros Hs Hj. destruct (large_offset_spec j Hj) as [Ho _]. unfold large_size.
  unfold sizeof_page_range, page_size in *. rewrite wrap64_small by (unfold u64; lia).
  destruct (align_up_bounds (size + large_offset (2 ^ j)) 12) as [_ Hb]; [lia..|]. change (2 ^ 12) with 4096 in *. lia.
Qed.

(** Memory from the address space. *)
Lemma mapped_ok s live size j :
  minv s live → 0 < size < 2 ^ 61 → 0 ≤ j < 62 →
  wp (mapped_malloc_large (large_size size (2 ^ j)) (large_offset (2 ^ j))) s
    (malloc_post live size j) (λ _, False) (am_full (maps s) (large_size size (2 ^ j))).
Proof using Type.
  intros Hv Hs Hj. pose proof (large_size_bound size j ltac:(lia) Hj) as Hn.
  destruct (large_size_spec size j ltac:(lia) Hj) as (k & Ek & _ & Hfit).
  destruct (large_offset_spec j Hj) as [Ho Hod]. set (n := large_size size (2 ^ j)) in *.
  unfold mapped_malloc_large. apply wp_bind, wp_in_maps.
  eapply wp_mono; [apply (am_map_spec _ _ n (mv_maps _ _ Hv)); [lia|by exists k]| |done|done].
  intros a v' Hm. destruct (am_areas _ _ Hm) as [Hdisj Har].
  pose proof Har as [(A1 & A2 & A3 & A4) Har']%Forall_cons. cbn [fst snd] in *.
  change phys_mem with (4 * 2 ^ 44) in A3. unfold map_base in A1. unfold sizeof_page_range in Ho.
  destruct (large_object_header_spec a (large_offset (2 ^ j)) A4 ltac:(lia) ltac:(lia)) as [Eh _].
  apply wp_bind. cbn. set (x := mkLive KMap (a + large_offset (2 ^ j)) (n - large_offset (2 ^ j))).
  assert (block_of x = (a, n)) as Eb by (unfold block_of; cbn [l_at l_size x]; rewrite Eh; f_equal; lia).
  exists x. cbn [ptr l_kind l_at l_size x]. split_and!; [done|lia| |lia|].
  - rewrite headers_update. apply (minv_update s live); try done; try apply Hv.
    + exact (minv_pool_inv _ _ Hv).
    + cbn. change (as_map x) with (Some (block_of x)). rewrite Eb. exact Hm.
    + intros y [->|Hy]%elem_of_cons.
      * unfold shaped. cbn [l_kind x l_at l_size]. rewrite Eb, Eh. cbn [snd]. split_and!; [lia|lia|by exists k|].
        by rewrite lookup_insert_eq.
      * pose proof (mv_shape _ _ Hv y Hy) as Hy'. unfold shaped in *. destruct (l_kind y) eqn:Ey; try done.
        destruct Hy' as (? & ? & ? & ?). split_and!; try done. rewrite lookup_insert_ne; [done|].
        assert (block_of y ∈ omap as_map live) as Hin.
        { apply list_elem_of_omap. exists y. split; [done|]. unfold as_map. by rewrite Ey. }
        destruct Hdisj as [Hd _]. rewrite Forall_forall in Hd, Har'. specialize (Hd _ Hin). destruct (Har' _ Hin) as (_ & Hp & _).
        unfold disj, block_of in Hd, Hp. cbn [fst snd] in Hd, Hp. lia.
    + intros y [->|Hy]%elem_of_cons; [done|done].
  - intros [|Hj12]; [done|]. apply Z.divide_add_r; [|by apply Hod]. etrans; [|exact A4].
    exists (2 ^ (12 - j)). rewrite <- Z.pow_add_r by lia. change page_size with (2 ^ 12). f_equal. lia.
Qed.

(** Nothing but waiting or the abort of the allocation of [n] bytes. *)
Definition cannot_wait (s : Malloc.t V) (n : Z) : Prop :=
  let r := rc (src (pools s)) in
  curr = reclaimer_id r ∨ total_memory (mm r) < Z.max n min_emergency_pool_size.

(** The page ranges changed, the objects did not. *)
Lemma minv_waits s live r' :
  minv s live → pra (mm r') = pra (mm (rc (src (pools s)))) →
  mem_inv (mm r') ((pg <$> ((omap as_page live ++ early_pages (early s)) ++ pages_of (pools s)) ++
                              pool_pages (src (pools s))) ++ larges live) →
  minv (set_early s (PagePool.set_rc (src (pools s)) r') (early s)) live.
Proof using Type.
  intros Hv Er Hm. pose proof (minv_pool_inv _ _ Hv) as Hp.
  apply (minv_update s live); try done; try apply Hv.
  apply (pool_inv_set _ _ _ _ _ _ Hp); [done|]. rewrite Er. apply Hp.
Qed.

Lemma minv_large s live obj r' n size :
  minv s live → 0 < size →
  let b := large_object_header obj in
  mem_inv (mm r') ((b, n) :: (pg <$> ((omap as_page live ++ early_pages (early s)) ++ pages_of (pools s)) ++
                                    pool_pages (src (pools s))) ++ larges live) →
  pr_size (pra (mm r')) b = n →
  frame (pra (mm (rc (src (pools s))))) (pra (mm r')) (larges live) →
  b + sizeof_page_range ≤ obj → obj + size ≤ b + n →
  minv (set_early s (PagePool.set_rc (src (pools s)) r') (early s)) (mkLive KLarge obj (b + n - obj) :: live).
Proof using Type.
  intros Hv Hs b Hm Hn Hf H1 H2. pose proof (minv_pool_inv _ _ Hv) as Hp.
  set (x := mkLive KLarge obj (b + n - obj)).
  assert (block_of x = (b, n)) as Eb by (unfold block_of; cbn [l_at l_size x]; fold b; f_equal; lia).
  apply (minv_update s live); try done; try apply Hv.
  - unfold larges. cbn [omap list_omap]. change (as_large x) with (Some (block_of x)). rewrite Eb.
    cbn [as_page l_kind x]. apply (pool_inv_set _ _ _ _ _ _ Hp).
    + eapply mem_inv_perm; [|exact Hm]. cbn [as_page l_kind x]. fold (larges live). solve_Permutation.
    + intros y [->|Hy]%elem_of_cons; [done|]. fold (larges live) in Hy. rewrite Hf by done. by apply Hp.
  - intros y [->|Hy]%elem_of_cons; [|by apply Hv]. unfold shaped. cbn [l_kind x l_at l_size]. fold b. lia.
  - intros y [->|Hy]%elem_of_cons; [done|done].
Qed.

Lemma malloc_large_ok s live size j block contiguous :
  minv s live → 0 < size < 2 ^ 61 → 0 ≤ j < 62 →
  wp (malloc_large curr level size (2 ^ j) block contiguous) s
    (λ o s', malloc_post live size j o s' ∨ block = false ∧ contiguous = true ∧ o = 0 ∧ minv s' live)
    (λ s', minv s' live)
    (cannot_wait s (large_size size (2 ^ j)) ∨ contiguous = false ∧ am_full (maps s) (large_size size (2 ^ j))).
Proof using Type.
  intros Hv Hs Hj. assert (0 ≤ size < 2 ^ 62) as Hs' by lia.
  pose proof (minv_pool_inv _ _ Hv) as Hp. unfold malloc_large. apply wp_bind, wp_in_pages. unfold wp at 1.
  destruct (Large.malloc_large (rc (src (pools s))) curr level size (2 ^ j) block contiguous) as [res r'] eqn:E.
  pose proof (malloc_large_spec _ _ _ _ _ _ _ _ _ _ (pi_mem _ _ _ Hp) Hs' Hj E) as Hpost.
  pose proof (large_size_bound size j ltac:(lia) Hj) as Hn. set (n := large_size size (2 ^ j)) in *.
  destruct res as [obj| |n' o| | |]; unfold large_post in Hpost; fold n in Hpost.
  - destruct Hpost as (Hm & Hsz & Hf & _ & _ & _ & Hd & Hlo & Hhi). unfold wp, ret. left.
    pose proof (minv_large s live obj r' n size Hv ltac:(lia) Hm Hsz ltac:(intros x Hx; apply Hf; elem) Hlo Hhi) as Hv'.
    set (b := large_object_header obj) in *. exists (mkLive KLarge obj (b + n - obj)). cbn [ptr l_kind l_at l_size].
    split_and!; [done| |exact Hv'|lia|done].
    destruct (i_fits _ _ _ (mi_wf _ _ Hm) (b, n)) as (p & k & [= Hb _] & Hp0 & _); [unfold blocks; elem|].
    unfold page_addr in Hb. change phys_mem with (4 * 2 ^ 44) in Hb. unfold sizeof_page_range, page_size in *. lia.
  - destruct Hpost as (-> & -> & ->). right. split_and!; [done..|]. apply minv_waits; [done|done|apply Hp].
  - destruct Hpost as (-> & -> & -> & ->). cbn beta.
    assert (minv (set_early s (PagePool.set_rc (src (pools s)) (rc (src (pools s)))) (early s)) live) as Hv'
      by (apply minv_waits; [done|done|apply Hp]).
    eapply wp_mono; [by apply (mapped_ok _ live size j)| |done|].
    + intros o s' Hpo. left. exact Hpo.
    + intros Hfull. right. split; [done|exact Hfull].
  - destruct Hpost as (_ & _ & _ & Hm & Hr). by apply minv_waits.
  - destruct Hpost as (_ & Hm & Hr & _). by apply minv_waits.
  - destruct Hpost as (_ & Hc). left. exact Hc.
Qed.

Definition out_of_memory (s : Malloc.t V) (size j : Z) : Prop :=
  PagePool.alloc_page cpu curr level (src (pools s)) = Fault ∨ boot_alloc (src (pools s)) = Fault ∨
  cannot_wait s (large_size size (2 ^ j)) ∨ am_full (maps s) (large_size size (2 ^ j)).

(** Before the pools are in use, a page that is not there is not noticed. *)
Definition null_page (s : Malloc.t V) (o : Z) : Prop :=
  smp_allocator s = false ∧ ranges (pra (mm (rc (src (pools s))))) = [] ∧ o = translate_mem_area main page 0.

Lemma roundup_pool m j :
  8 ≤ m ≤ 1024 → 0 ≤ j → 2 ^ j ≤ m →
  let n := Z.to_nat (ilog2_roundup m) in (3 ≤ n ≤ 10)%nat ∧ m ≤ 2 ^ Z.of_nat n ∧ j ≤ Z.of_nat n.
Proof using Type.
  intros Hm Hj Hjm. rewrite ilog2_roundup_log2_up by (unfold u64; lia). cbn zeta.
  pose proof (Z.log2_up_le_mono 8 m ltac:(lia)) as H1. pose proof (Z.log2_up_le_mono m 1024 ltac:(lia)) as H2.
  change (Z.log2_up 8) with 3 in H1. change (Z.log2_up 1024) with 10 in H2.
  pose proof (Z.log2_up_spec m ltac:(lia)) as [_ Hs]. rewrite Z2Nat.id by lia. split_and!; [lia|lia|done|].
  destruct (Z_le_gt_dec j (Z.log2_up m)) as [|Hgt]; [done|].
  pose proof (Z.pow_lt_mono_r 2 (Z.log2_up m) j ltac:(lia) ltac:(lia) ltac:(lia)). lia.
Qed.

Lemma std_malloc_ok s live size j :
  minv s live → (cpu < length (l1s (src (pools s))))%nat → 0 ≤ size < 2 ^ 61 → 0 ≤ j < 62 →
  0 < size ∨ smp_allocator s = true ∧ j ≤ 10 →
  wp (std_malloc curr level cpu size (2 ^ j)) s
    (λ o s', malloc_post live size j o s' ∨ null_page s o) (λ s', minv s' live) (out_of_memory s size j).
Proof using Type.
  intros Hv Hcpu Hs Hj Hz. unfold std_malloc. rewrite (proj2 (Z.leb_gt _ _)) by lia. apply wp_bind. cbn beta zeta.
  change (wp get s ?Q ?W ?F) with (Q s s). cbn beta zeta.
  assert (0 < 2 ^ j) as H2j by (apply Z.pow_pos_nonneg; lia).
  change min_object_size with 8. change max_object_size with 1024. set (m := Z.max size 8). assert (m = Z.max size 8) as Em by done. clearbody m.
  destruct (smp_allocator s && (size <=? 1024) && (2 ^ j <=? m)) eqn:B1.
  { apply andb_true_iff in B1 as [[_ B1%Z.leb_le]%andb_true_iff B2%Z.leb_le].
    destruct (roundup_pool m j ltac:(lia) ltac:(lia) B2) as (N1 & N2 & N3).
    eapply wp_mono; [apply (pool_alloc_ok s live _ size j); [done|done|done|lia|lia]|by left|done|by left]. }
  destruct (smp_allocator s && (2 ^ j <=? 1024) && (m <=? 2 ^ j)) eqn:B2.
  { apply andb_true_iff in B2 as [[_ B2%Z.leb_le]%andb_true_iff B3%Z.leb_le].
    destruct (roundup_pool (2 ^ j) j ltac:(lia) ltac:(lia) ltac:(lia)) as (N1 & N2 & N3).
    eapply wp_mono; [apply (pool_alloc_ok s live _ size j); [done|done|done|lia|lia]|by left|done|by left]. }
  destruct (negb (smp_allocator s) && will_fit_in_early_alloc_page size (2 ^ j)) eqn:B3.
  { apply andb_true_iff in B3 as [B3%negb_true_iff B4]. destruct Hz as [Hz|[? _]]; [|congruence].
    eapply wp_mono; [apply (early_alloc_ok s live size j); [done|done|lia|done|done]|by left|done|by right; left]. }
  destruct ((m <=? page_size) && (2 ^ j <=? page_size)) eqn:B4.
  { apply andb_true_iff in B4 as [B4%Z.leb_le B5%Z.leb_le].
    assert (j ≤ 12) as Hj12.
    { change page_size with (2 ^ 12) in B5. apply Z.pow_le_mono_r_iff in B5; lia. }
    eapply wp_mono; [apply (page_alloc_ok s live size j); [done|done|lia|lia]|done|done|by left]. }
  assert (0 < size) as Hs0.
  { destruct Hz as [Hz|[Esmp Hj10]]; [done|]. pose proof (Z.pow_le_mono_r 2 j 10 ltac:(lia) Hj10) as Hp10.
    change (2 ^ 10) with 1024 in Hp10. rewrite Esmp in *. cbn [andb] in *. lia. }
  eapply wp_mono; [apply (malloc_large_ok s live size j); [done|lia|done]| |done|].
  - intros o s' [Hpo|(? & _)]; [by left|done].
  - intros [Hc|[_ Hf]]; [by right; right; left|by right; right; right].
Qed.
End Alloc.

(** ** The way back *)

Lemma map_bounds s live x :
  minv s live → x ∈ live → l_kind x = KMap → map_base < l_at x < phys_mem.
Proof using Type.
  intros Hv Hx Ek. destruct (in_cont _ _ _ Hv Hx) as (_ & H2 & H3). pose proof (mv_shape _ _ Hv x Hx) as Hs.
  pose proof (cont_place _ _ _ Hv Hx) as Hp. destruct (am_areas _ _ (mv_maps _ _ Hv)) as [_ Hall].
  rewrite Forall_forall in Hall. unfold cont, place, shaped in *. rewrite Ek in *.
  destruct (Hall _ Hp) as (A1 & A2 & A3 & _). unfold cont in *. rewrite Ek in *. unfold block_of in *. cbn [fst snd] in *. lia.
Qed.

Section Back.
Context (elf_start elf_size : Z) (Helf : 0 ≤ elf_start ∧ 0 ≤ elf_size ∧ elf_start + elf_size ≤ map_base).

Lemma ptr_above s live x : minv s live → x ∈ live → l_kind x ≠ KMap → phys_mem ≤ ptr x.
Proof using Type.
  intros Hv Hx Hk. pose proof (live_main _ _ _ Hv Hx Hk) as Ha.
  assert (∀ a, phys_mem ≤ get_mem_area_base a) as Hb by (by intros []).
  pose proof (λ b, proj1 (translate_mem_area_in main b _ Ha)) as Ht. unfold ptr.
  destruct (l_kind x); [..|done]; try (etrans; [apply Hb|apply Ht]). exact (proj1 Ha).
Qed.

Lemma ptr_linear s live x :
  minv s live → x ∈ live → Vma.is_linear_mapped elf_start elf_size (ptr x) 0 = bool_decide (l_kind x ≠ KMap).
Proof using Helf.
  intros Hv Hx. unfold Vma.is_linear_mapped. destruct (bool_decide_reflect (l_kind x ≠ KMap)) as [Hk|Hk].
  - rewrite (proj2 (Z.leb_le _ _) (ptr_above _ _ _ Hv Hx Hk)). by rewrite orb_true_r.
  - assert (l_kind x = KMap) as Ek by (destruct (decide (l_kind x = KMap)); [done|tauto]).
    pose proof (map_bounds _ _ _ Hv Hx Ek) as Hb. unfold ptr. rewrite Ek. unfold map_base in *.
    change phys_mem with (4 * 2 ^ 44) in *. rewrite !wrap64_small by (unfold u64; lia).
    rewrite (proj2 (Z.leb_gt (l_at x + 0) _)) by lia. rewrite andb_false_r. cbn. apply Z.leb_gt. lia.
Qed.

Lemma ptr_area s live x :
  minv s live → x ∈ live → l_kind x ≠ KMap →
  let a := match l_kind x with KPool | KEarly _ => mempool | KPage => page | _ => main end in
  get_mem_area (ptr x) = a ∧ translate_mem_area a main (ptr x) = l_at x ∧ ptr x ≠ 0.
Proof using Type.
  intros Hv Hx Hk a. pose proof (live_main _ _ _ Hv Hx Hk) as Ha.
  assert (ptr x = translate_mem_area main a (l_at x)) as ->.
  { unfold ptr, a. destruct (l_kind x); try done. rewrite translate_mem_area_eq by done. lia. }
  pose proof (translate_mem_area_in main a _ Ha) as Hi.
  split_and!; [by apply get_mem_area_in_area|by apply translate_mem_area_back|].
  intros Hz. rewrite Hz in Hi. revert Hi. clear. intros [Hb _]. by destruct a.
Qed.

Context (curr level : Z) (cpu : nat).

Lemma free_pool_ok s x live h :
  minv s (x :: live) → l_kind x = KPool → hdrs (pools s) !! to_header (l_at x) = Some h →
  wp (in_pools (@Pool.free PagePool.t (pool_pages_src curr level) (owner h) (l_at x) cpu)) s
    (λ _ s', minv s' live) (λ _, False) False.
Proof using Type.
  intros Hv Ek Hh. apply wp_in_pools. pose proof (mv_pools _ _ Hv) as (fl & sq & Hi). set (bs := larges (x :: live)) in Hi.
  assert (omap as_pool (x :: live) = l_at x :: omap as_pool live) as Ep by (cbn; unfold as_pool at 1; by rewrite Ek).
  rewrite Ep in Hi. apply (pinv_inst _ (page_pool_source curr level bs)) in Hi; [|done].
  pose proof (@pool_free_spec _ (page_pool_source curr level bs) compute_object_size _ _ _ _ _ _ _ cpu Hi Hh
    (mv_cpus _ _ Hv _ _ Hh)) as Hw.
  pose proof (@free_keeps _ (page_pool_source curr level bs) (pools s) (owner h) (l_at x) cpu (λ _ _, False)) as Hk.
  pose proof (wp_conj _ _ _ _ _ _ _ _ Hw Hk) as H2. clear Hw Hk.
  change (@Pool.free PagePool.t (page_pool_source curr level bs) (owner h) (l_at x) cpu)
    with (@Pool.free PagePool.t (pool_pages_src curr level) (owner h) (l_at x) cpu) in H2.
  eapply wp_mono; [exact H2| |by intros p' [? _]|by intros [? _]]. clear H2.
  intros _ p' [(fl' & sq' & Hi' & Hl & _) Hk].
  assert (as_page x = None ∧ as_early x = None ∧ as_map x = None ∧ as_large x = None) as (E1 & E2 & E3 & E4)
    by (unfold as_page, as_early, as_map, as_large; by rewrite Ek).
  eapply (minv_pools s (x :: live) p' live (λ _ _, False)); [exact Hv| |cbn; by rewrite ?E1, ?E2, ?E3..| |exact Hk|exact Hl|done|].
  - exists fl', sq'. eapply pinv_inst; [|exact Hi']. done.
  - unfold larges. cbn. by rewrite E4.
  - intros y Hy. left. elem.
Qed.

Lemma free_early_ok s x live pg :
  minv s (x :: live) → (cpu < length (l1s (src (pools s))))%nat → l_kind x = KEarly pg →
  wp (in_early (@early_free_object PagePool.t early_pages_src (l_at x))) s (λ _ s', minv s' live) (λ _, False) False.
Proof using Type.
  intros Hv Hcpu Ek. apply wp_in_early. pose proof (minv_pool_inv _ _ Hv) as Hp. set (bs := larges (x :: live)) in *.
  set (held := omap as_page live ++ pages_of (pools s)).
  assert (as_page x = None ∧ as_pool x = None ∧ as_map x = None ∧ as_large x = None) as (E1 & E2 & E3 & E4)
    by (unfold as_page, as_pool, as_map, as_large; by rewrite Ek).
  assert (@early_inv _ (boot_source bs) (src (pools s), early s) (mkObj pg (l_at x) (l_size x) :: omap as_early live) held) as Hi.
  { split; [|pose proof (mv_early _ _ Hv) as He; cbn in He; unfold as_early at 1 in He; by rewrite Ek in He].
    eapply pool_inv_held; [|exact Hp]. cbn. rewrite E1. unfold held. solve_Permutation. }
  pose proof (mv_shape _ _ Hv x ltac:(elem)) as Hs. unfold shaped in Hs. rewrite Ek in Hs.
  pose proof (@early_free_object_spec _ (boot_source bs) _ _ _ _ Hi Hs ltac:(cbn; lia)) as Hw.
  change (@early_free_object PagePool.t (boot_source bs)) with (@early_free_object PagePool.t early_pages_src) in Hw.
  eapply wp_mono; [exact Hw| |done|done]. intros _ [p' e'] [[Hp' He'] Hl]. cbn [fst snd] in *.
  apply (minv_update s (x :: live)); try done.
  - cbn. by rewrite E2.
  - eapply pool_inv_held; [|unfold bs, larges in Hp'; cbn in Hp'; rewrite E4 in Hp'; exact Hp']. unfold held. solve_Permutation.
  - pose proof (mv_maps _ _ Hv) as Hm. cbn in Hm. by rewrite E3 in Hm.
  - by apply cpus_le.
  - intros y Hy. apply (mv_shape _ _ Hv). elem.
  - intros y Hy _. elem.
Qed.

Lemma free_page_ok s x live :
  minv s (x :: live) → (cpu < length (l1s (src (pools s))))%nat → l_kind x = KPage →
  wp (free_page cpu (l_at x)) s (λ _ s', minv s' live) (λ _, False) False.
Proof using Type.
  intros Hv Hcpu Ek. unfold free_page, untracked_free_page. apply wp_bind. cbn. apply wp_in_pages.
  pose proof (minv_pool_inv _ _ Hv) as Hp. set (bs := larges (x :: live)) in *.
  assert (as_early x = None ∧ as_pool x = None ∧ as_map x = None ∧ as_large x = None) as (E1 & E2 & E3 & E4)
    by (unfold as_early, as_pool, as_map, as_large; by rewrite Ek).
  set (held := (omap as_page live ++ early_pages (early s)) ++ pages_of (pools s)).
  assert (pool_inv (src (pools s)) (l_at x :: held) bs) as Hp1.
  { cbn in Hp. unfold as_page at 1 in Hp. by rewrite Ek in Hp. }
  assert (∀ p', pool_inv p' held bs → (length (l1s (src (pools s))) ≤ length (l1s p'))%nat →
    minv (set_early s p' (early s)) live) as Hdone.
  { intros p' Hp' Hl. apply (minv_update s (x :: live)); try done.
    - cbn. by rewrite E2.
    - unfold bs, larges in Hp'. cbn in Hp'. by rewrite E4 in Hp'.
    - pose proof (mv_early _ _ Hv) as He. cbn in He. by rewrite E1 in He.
    - pose proof (mv_maps _ _ Hv) as Hm. cbn in Hm. by rewrite E3 in Hm.
    - intros y Hy. apply (mv_shape _ _ Hv). elem.
    - intros y Hy _. elem. }
  destruct (smp_allocator s).
  - eapply wp_mono; [exact (@ps_free_spec _ (src_inst bs) _ _ cpu _ Hp1 Hcpu)| |done|done].
    intros _ p' [Hp' Hl]. apply Hdone; [done|by apply cpus_le].
  - eapply wp_mono; [exact (boot_free_spec _ _ _ _ Hp1)| |done|done].
    intros _ p' [El Hp']. apply Hdone; [done|by rewrite El].
Qed.

Lemma large_headed s x live :
  minv s live → x ∈ live → l_kind x = KLarge →
  pr_size (pra (mm (rc (src (pools s))))) (block_of x).1 = (block_of x).2.
Proof using Type.
  intros Hv Hx Ek. apply (pi_hdr _ _ _ (minv_pool_inv _ _ Hv)). pose proof (cont_place _ _ _ Hv Hx) as Hp.
  unfold place, cont in Hp. by rewrite Ek in Hp.
Qed.

Lemma free_large_ok s x live :
  minv s (x :: live) → l_kind x = KLarge →
  wp (free_large (l_at x)) s (λ _ s', minv s' live) (λ _, False) False.
Proof using Type.
  intros Hv Ek. unfold free_large. apply wp_in_pages. unfold wp.
  pose proof (minv_pool_inv _ _ Hv) as Hp. pose proof (large_headed s x _ Hv ltac:(elem) Ek) as Hsz.
  assert (as_early x = None ∧ as_pool x = None ∧ as_map x = None ∧ as_page x = None) as (E1 & E2 & E3 & E4)
    by (unfold as_early, as_pool, as_map, as_page; by rewrite Ek).
  assert (larges (x :: live) = block_of x :: larges live) as El by (unfold larges; cbn; unfold as_large at 1; by rewrite Ek).
  rewrite El in Hp. cbn in Hp. rewrite E4 in Hp. set (held := (omap as_page live ++ _) ++ _) in Hp.
  set (m := mm (rc (src (pools s)))) in *. destruct (block_of x) as [b n] eqn:Eb. cbn [fst snd] in Hsz.
  assert (b = large_object_header (l_at x)) as Hb by (unfold block_of in Eb; by injection Eb).
  assert (mem_inv m ((b, n) :: (pg <$> held ++ pool_pages (src (pools s))) ++ larges live)) as Hm.
  { eapply mem_inv_perm; [|exact (pi_mem _ _ _ Hp)]. solve_Permutation. }
  destruct (block_released m _ b n Hm Hsz) as (H1 & _ & Hf & _).
  apply (minv_update s (x :: live)); try done.
  - cbn. by rewrite E2.
  - unfold set_mem, Large.free_large. rewrite <- Hb. apply (pool_inv_set _ _ _ _ _ _ Hp); [exact H1|].
    eapply headed_frame; [|intros y Hy; apply Hf; elem]. intros y Hy. apply (pi_hdr _ _ _ Hp). elem.
  - pose proof (mv_early _ _ Hv) as He. cbn in He. by rewrite E1 in He.
  - pose proof (mv_maps _ _ Hv) as Hx. cbn in Hx. by rewrite E3 in Hx.
  - intros y Hy. apply (mv_shape _ _ Hv). elem.
  - intros y Hy _. elem.
Qed.

Lemma map_bases s x live y :
  minv s (x :: live) → l_kind x = KMap → y ∈ live → l_kind y = KMap →
  large_object_header (l_at x) ≠ large_object_header (l_at y).
Proof using Type.
  intros Hv Ex Hy Ey. pose proof (mv_maps _ _ Hv) as Hm. cbn in Hm. unfold as_map at 1 in Hm. rewrite Ex in Hm.
  destruct (am_areas _ _ Hm) as [[Hd _] [(_ & Px & _) Hall]%Forall_cons]. rewrite Forall_forall in Hd, Hall.
  assert (block_of y ∈ omap as_map live) as Hin.
  { apply list_elem_of_omap. exists y. split; [done|]. unfold as_map. by rewrite Ey. }
  specialize (Hd _ Hin). destruct (Hall _ Hin) as (_ & Py & _). unfold disj, block_of in *. cbn [fst snd] in *. lia.
Qed.

Lemma free_map_ok s x live :
  minv s (x :: live) → l_kind x = KMap →
  wp (mapped_free_large (l_at x)) s (λ _ s', minv s' live) (λ _, False) False.
Proof using Type.
  intros Hv Ek. unfold mapped_free_large. apply wp_bind. unfold wp at 1, get.
  pose proof (mv_shape _ _ Hv x ltac:(elem)) as Hs. unfold shaped in Hs. rewrite Ek in Hs.
  destruct Hs as (_ & _ & Hd & ->). apply wp_bind, wp_in_maps.
  assert (as_early x = None ∧ as_pool x = None ∧ as_large x = None ∧ as_page x = None) as (E1 & E2 & E3 & E4)
    by (unfold as_early, as_pool, as_large, as_page; by rewrite Ek).
  pose proof (mv_maps _ _ Hv) as Hm. cbn in Hm. unfold as_map at 1 in Hm. rewrite Ek in Hm.
  eapply wp_mono; [exact (am_unmap_spec _ _ _ _ Hm Hd)| |done|done]. intros u v' Hm'. cbn in Hm'.
  unfold wp, modify. cbn beta.
  rewrite headers_update.
  pose proof (minv_pool_inv _ _ Hv) as Hp. unfold larges in Hp. cbn in Hp. rewrite E3, E4 in Hp.
  apply (minv_update s (x :: live)); try done.
  - cbn. by rewrite E2.
  - pose proof (mv_early _ _ Hv) as He. cbn in He. by rewrite E1 in He.
  - intros y Hy. pose proof (mv_shape _ _ Hv y ltac:(elem)) as Hs. unfold shaped in *.
    destruct (l_kind y) eqn:Ey; try done. rewrite lookup_delete_ne; [done|]. by eapply map_bases.
  - intros y Hy _. elem.
Qed.

(** The header of the page tells pool objects from early ones. *)
Lemma from_object_ok s live x :
  minv s live → x ∈ live → (rank (l_kind x) < 2)%nat →
  from_object (l_at x) s = Ret (match l_kind x with
    | KPool => owner <$> hdrs (pools s) !! to_header (l_at x) | _ => None end) s.
Proof using Type.
  intros Hv Hx Hk. unfold from_object, bind, get. cbn beta zeta. destruct (l_kind x) as [|pg| | |] eqn:Ek; cbn in Hk; try lia.
  - destruct (mv_hdr _ _ Hv x Hx Ek) as (h & -> & _). done.
  - pose proof (cont_place _ _ _ Hv Hx) as Hp. unfold place, cont in Hp. rewrite Ek in Hp. cbn in Hp. destruct Hp as [Hp _].
    pose proof (minv_pool_inv _ _ Hv) as Hpi. destruct (in_cont _ _ _ Hv Hx) as (_ & B2 & B3). unfold cont in B2. rewrite Ek in B2. cbn in B2.
    assert (to_header (l_at x) = pg) as ->.
    { apply (early_header (src (pools s), early s) (omap as_early live) (omap as_page live ++ pages_of (pools s))
        (mkObj pg (l_at x) (l_size x)) : @early_inv _ (boot_source (larges live)) _ _ _ → _).
      - split; [|apply Hv]. eapply pool_inv_held; [|exact Hpi]. cbn. solve_Permutation.
      - apply list_elem_of_omap. exists x. split; [done|]. unfold as_early. by rewrite Ek.
      - cbn. lia. }
    pose proof Hp as [c Hc]%early_pages_elem. rewrite Hc.
    destruct (hdrs (pools s) !! pg) as [h|] eqn:Eh; [|done]. exfalso.
    destruct (pool_inv_pages _ _ _ Hpi) as [(Hnd & _)%NoDup_app _]. apply NoDup_app in Hnd as (_ & Hnd & _).
    apply (Hnd pg); [apply elem_of_app; by right|]. apply pages_of_elem. by exists h.
Qed.

Lemma free_ok s x live :
  minv s (x :: live) → (cpu < ncpu)%nat →
  wp (free elf_start elf_size curr level cpu (ptr x)) s (λ _ s', minv s' live) (λ _, False) False.
Proof using Helf.
  intros Hv Hn. assert (x ∈ x :: live) as Hx by elem.
  assert (cpu < length (l1s (src (pools s))))%nat as Hcpu by (pose proof (mv_ncpu _ _ Hv); lia).
  unfold free. rewrite (ptr_linear _ _ _ Hv Hx). destruct (bool_decide_reflect (l_kind x ≠ KMap)) as [Hk|Hk].
  - destruct (ptr_area _ _ _ Hv Hx Hk) as (Ea & Et & Hz). rewrite (proj2 (Z.eqb_neq _ _) Hz). cbn [negb]. rewrite Ea.
    destruct (l_kind x) as [|pg| | |] eqn:Ek.
    + rewrite Et. apply wp_bind. unfold wp at 1. rewrite (from_object_ok _ _ _ Hv Hx) by (rewrite Ek; cbn; lia). rewrite Ek.
      destruct (mv_hdr _ _ Hv x Hx Ek) as (h & Hh & _). rewrite Hh. by apply free_pool_ok.
    + rewrite Et. apply wp_bind. unfold wp at 1. rewrite (from_object_ok _ _ _ Hv Hx) by (rewrite Ek; cbn; lia). rewrite Ek.
      by eapply free_early_ok.
    + rewrite Et. by apply free_page_ok.
    + replace (ptr x) with (l_at x) by (unfold ptr; by rewrite Ek). by apply free_large_ok.
    + done.
  - assert (l_kind x = KMap) as Ek by (destruct (decide (l_kind x = KMap)); [done|tauto]).
    pose proof (map_bounds _ _ _ Hv Hx Ek) as Hb. unfold ptr. rewrite Ek. cbn [negb].
    rewrite (proj2 (Z.eqb_neq _ _)) by (unfold map_base in Hb; lia). by apply free_map_ok.
Qed.

Lemma size_behind x :
  0 ≤ large_object_header (l_at x) ≤ l_at x → 0 < l_size x → l_at x + l_size x < 2 ^ 63 →
  wrap64 (l_at x + l_size x - large_object_header (l_at x) - large_object_offset (l_at x)) = l_size x.
Proof using Type.
  intros H1 H2 H3. unfold large_object_offset. rewrite (wrap64_small (l_at x - _)) by (unfold u64; lia).
  rewrite wrap64_small by (unfold u64; lia). lia.
Qed.

Lemma object_size_ok s live x :
  minv s live → x ∈ live → object_size elf_start elf_size (ptr x) s = Ret (l_size x) s.
Proof using Helf.
  intros Hv Hx. unfold object_size. rewrite (ptr_linear _ _ _ Hv Hx). pose proof (mv_shape _ _ Hv x Hx) as Hs.
  destruct (bool_decide_reflect (l_kind x ≠ KMap)) as [Hk|Hk]; cbn [negb].
  - destruct (ptr_area _ _ _ Hv Hx Hk) as (Ea & Et & _). rewrite Ea. destruct (l_kind x) as [|pg| | |] eqn:Ek.
    + rewrite Et. unfold bind. rewrite (from_object_ok _ _ _ Hv Hx) by (rewrite Ek; cbn; lia). rewrite Ek.
      destruct (mv_hdr _ _ Hv x Hx Ek) as (h & -> & ->). done.
    + rewrite Et. unfold bind. rewrite (from_object_ok _ _ _ Hv Hx) by (rewrite Ek; cbn; lia). rewrite Ek.
      destruct (ei_obj _ _ (mv_early _ _ Hv) (mkObj pg (l_at x) (l_size x))) as (_ & _ & _ & _ & Hsz).
      { apply list_elem_of_omap. exists x. split; [done|]. unfold as_early. by rewrite Ek. }
      unfold in_early, early_object_size. cbn in *. rewrite Hsz. by destruct s as [? []].
    + unfold shaped in Hs. rewrite Ek in Hs. unfold ret. by rewrite Hs.
    + pose proof (large_headed s x _ Hv Hx Ek) as Hsz. unfold bind, get, ret, large_object_size. f_equal.
      replace (ptr x) with (l_at x) by (unfold ptr; by rewrite Ek). cbn [block_of fst snd] in Hsz. rewrite Hsz.
      unfold shaped in Hs. rewrite Ek in Hs. unfold sizeof_page_range in Hs.
      destruct (proj2 (conts_disj _ _ Hv) _ (cont_elem _ _ _ Hv Hx ltac:(by rewrite Ek))) as (_ & A1 & A2).
      unfold cont in A1, A2. rewrite Ek in A1, A2. cbn [block_of fst snd] in A1, A2. apply main_bounds in A1, A2.
      apply size_behind; lia.
    + done.
  - assert (l_kind x = KMap) as Ek by (destruct (decide (l_kind x = KMap)); [done|tauto]).
    pose proof (map_bounds _ _ _ Hv Hx Ek) as Hb. pose proof (cont_place _ _ _ Hv Hx) as Hp.
    destruct (am_areas _ _ (mv_maps _ _ Hv)) as [_ Hall]. rewrite Forall_forall in Hall.
    unfold place, cont, shaped in *. rewrite Ek in *. destruct Hs as (H1 & H2 & _ & Hh).
    destruct (Hall _ Hp) as (A1 & _ & A3 & _). cbn [block_of fst snd] in A1, A3.
    unfold bind, get, ptr. rewrite Ek, Hh. unfold ret. f_equal. cbn [block_of snd].
    unfold map_base in *. change phys_mem with (4 * 2 ^ 44) in *. apply size_behind; lia.
Qed.

Lemma malloc_align size : 0 ≤ size < 2 ^ 63 →
  malloc curr level cpu size = std_malloc (V := V) curr level cpu size (2 ^ Z.min 4 (Z.log2_up size)).
Proof using Type.
  intros Hs. unfold malloc. change alignof_max_align_t with (2 ^ 4).
  destruct (Z.ltb_spec size (2 ^ 4)) as [Hlt|Hge]; f_equal.
  - rewrite ilog2_roundup_log2_up by (unfold u64; lia). rewrite Z.shiftl_1_l. f_equal.
    pose proof (Z.log2_up_le_mono size (2 ^ 4) ltac:(lia)) as Hm. rewrite Z.log2_up_pow2 in Hm by lia. lia.
  - pose proof (Z.log2_up_le_mono (2 ^ 4) size ltac:(lia)) as Hm. rewrite Z.log2_up_pow2 in Hm by lia. f_equal. lia.
Qed.

Lemma ptr_nonzero s live x : minv s live → x ∈ live → ptr x ≠ 0.
Proof using Type.
  intros Hv Hx. destruct (decide (l_kind x = KMap)) as [Ek|Hk]; [|by apply (ptr_area s live x)].
  pose proof (map_bounds _ _ _ Hv Hx Ek). unfold ptr. rewrite Ek. unfold map_base in *. lia.
Qed.

(** A mapped object of an alignment beyond a page. *)
Lemma mapped_malloc s size j a v' :
  12 < j < 62 → 0 < size < 2 ^ 61 → huge_page_size ≤ large_size size (2 ^ j) →
  am_map (large_size size (2 ^ j)) (maps s) = Ret a v' →
  ∃ s', std_malloc curr level cpu size (2 ^ j) s = Ret (a + page_size) s'.
Proof using Type.
  intros Hj Hs Hn Ea. assert (2 ^ 13 ≤ 2 ^ j) as H13 by (apply Z.pow_le_mono_r; lia).
  assert (large_offset (2 ^ j) = page_size) as Eo.
  { unfold large_offset. rewrite (proj2 (Z.ltb_ge _ _)); [done|]. unfold page_size. lia. }
  assert (page_size < size) as Hbig.
  { destruct (align_up_bounds (size + page_size) 12) as [_ Hb]; [unfold page_size; lia..|].
    unfold large_size in Hn. rewrite Eo, wrap64_small in Hn by (unfold u64, page_size; lia).
    change huge_page_size with (2 ^ 21) in Hn. change page_size with (2 ^ 12) in *. lia. }
  unfold std_malloc. rewrite (proj2 (Z.leb_gt _ _)) by lia. unfold bind at 1, get.
  change max_object_size with 1024. change min_object_size with 8. unfold page_size in *.
  rewrite (proj2 (Z.leb_gt size 1024)), (proj2 (Z.leb_gt (2 ^ j) 1024)), (proj2 (Z.leb_gt (Z.max size 8) 4096)) by lia.
  rewrite !andb_false_r. cbn [andb].
  destruct (will_fit_in_early_alloc_page size (2 ^ j)) eqn:Ef; [apply fits_alignment in Ef; lia|].
  rewrite andb_false_r. unfold malloc_large, bind at 1, in_pages, Large.malloc_large.
  rewrite (proj2 (Z.leb_le _ _) Hn). cbn [andb negb]. unfold mapped_malloc_large, bind, in_maps. cbn [maps set_early].
  rewrite Ea, Eo. eexists. reflexivity.
Qed.

(** ** Properties *)

(** ** The bytes of the objects *)

(** No allocator touches an object in use. *)
Definition keeps_data {A} (m : prog (Malloc.t V) A) : Prop :=
  ∀ s, wp m s (λ _ s', data s' = data s) (λ s', data s' = data s) True.

Lemma keeps_data_bind {A B} (m : prog (Malloc.t V) A) (k : A → prog (Malloc.t V) B) :
  keeps_data m → (∀ a, keeps_data (k a)) → keeps_data (bind m k).
Proof using Type.
  intros Hm Hk s. apply wp_bind. eapply wp_mono; [apply Hm| |done|done]. intros a s1 <-. apply Hk.
Qed.
Lemma keeps_data_ret {A} (a : A) : keeps_data (ret a).
Proof using Type. by intros s. Qed.
Lemma keeps_data_get : keeps_data get.
Proof using Type. by intros s. Qed.
Lemma keeps_data_fault {A} : keeps_data (@fault _ A).
Proof using Type. by intros s. Qed.
Lemma keeps_data_headers f : keeps_data (modify (λ s, set_headers s (f s))).
Proof using Type. by intros s. Qed.
Lemma keeps_data_pools {A} (m : prog _ A) : keeps_data (in_pools m).
Proof using Type. intros s. unfold wp, in_pools. by destruct (m _). Qed.
Lemma keeps_data_early {A} (m : prog _ A) : keeps_data (in_early m).
Proof using Type. intros s. unfold wp, in_early. by destruct (m _). Qed.
Lemma keeps_data_pages {A} (m : prog _ A) : keeps_data (in_pages m).
Proof using Type. intros s. unfold wp, in_pages. by destruct (m _). Qed.
Lemma keeps_data_maps {A} (m : prog _ A) : keeps_data (in_maps m).
Proof using Type. intros s. unfold wp, in_maps. by destruct (m _). Qed.

#[local] Hint Resolve keeps_data_ret keeps_data_get keeps_data_fault keeps_data_headers keeps_data_pools
  keeps_data_early keeps_data_pages keeps_data_maps : data.

(** Through the branches of an operation. *)
Ltac keeps_data_tac :=
  repeat first [ solve [auto with data nocore] | apply keeps_data_bind; [|intros ?] | case_match ].

Lemma std_malloc_data size alignment : keeps_data (std_malloc curr level cpu size alignment).
Proof using Type.
  unfold std_malloc, pool_alloc, alloc_page, untracked_alloc_page, malloc_large, mapped_malloc_large. keeps_data_tac.
Qed.

Lemma free_data obj : keeps_data (free elf_start elf_size curr level cpu obj).
Proof using Type.
  unfold free, mapped_free_large, free_page, untracked_free_page, free_large, from_object. keeps_data_tac.
Qed.

Lemma minv_data s live d : minv s live → minv (set_data s d) live.
Proof using Type. by intros []. Qed.

Lemma byte_at_ptr s live x : minv s live → x ∈ live → byte_at (ptr x) = l_at x.
Proof using Type.
  intros Hv Hx. unfold byte_at. destruct (decide (l_kind x = KMap)) as [Ek|Hk].
  - pose proof (map_bounds _ _ _ Hv Hx Ek) as Hb. unfold ptr. rewrite Ek.
    rewrite (proj2 (Z.leb_gt _ _)); [done|]. unfold map_base in Hb. change phys_mem with (4 * 2 ^ 44) in *. lia.
  - rewrite (proj2 (Z.leb_le _ _) (ptr_above _ _ _ Hv Hx Hk)).
    destruct (ptr_area _ _ _ Hv Hx Hk) as (-> & -> & _). done.
Qed.

(** Writing into one object leaves the bytes of the others. *)
Definition same_bytes (s s' : Malloc.t V) (z : lobj) : Prop :=
  ∀ i, 0 ≤ i < l_size z → data s' (l_at z + i) = data s (l_at z + i).

Lemma apart_bytes (d : Z → Z) (f : Z → Z) y z n i :
  sep_objs y z → n ≤ l_size y → 0 ≤ i < l_size z →
  (let j := l_at z + i - l_at y in if (0 <=? j) && (j <? n) then f j else d (l_at z + i)) = d (l_at z + i).
Proof using Type.
  intros Hs Hn Hi. cbn zeta. destruct ((0 <=? _) && (_ <? n)) eqn:E; [|done].
  apply andb_true_iff in E as [E1%Z.leb_le E2%Z.ltb_lt]. unfold sep_objs in Hs. lia.
Qed.

(** C1: [std_malloc], and so [malloc] and [posix_memalign], returns an object that
    overlaps no object in use, wherever it and they come from, is at least as
    large as asked for and aligned as asked for (if mapped, to a page at most); it
    waits with every object as it was, stops only if an allocator it is made of
    does, and fails for sizes beyond the address space.  Before the pools are in
    use it does not notice that there is no page left. *)
Theorem malloc_correct s live size j :
  minv s live → (cpu < ncpu)%nat → 0 ≤ j < 62 →
  0 ≤ size < 2 ^ 61 ∧ (0 < size ∨ smp_allocator s = true ∧ j ≤ 10) ∨ 2 ^ 63 ≤ size →
  wp (std_malloc curr level cpu size (2 ^ j)) s
    (λ o s', o = 0 ∧ s' = s ∧ 2 ^ 63 ≤ size ∨
       (∃ x, o = ptr x ∧ o ≠ 0 ∧ minv s' (x :: live) ∧ Forall (sep_objs x) live ∧ size ≤ l_size x ∧
          (l_kind x ≠ KMap ∨ j ≤ 12 → (2 ^ j | o))) ∨
       smp_allocator s = false ∧ ranges (pra (mm (rc (src (pools s))))) = [] ∧ o = translate_mem_area main page 0)
    (λ s', minv s' live) (out_of_memory curr level cpu s size j).
Proof using Type.
  intros Hv Hn Hj [[Hs Hz]|Hbig].
  - eapply wp_mono; [apply (std_malloc_ok curr level cpu s live size j); try done| |done|done].
    + pose proof (mv_ncpu _ _ Hv). lia.
    + intros o s' [(x & H1 & H2 & H3 & H4 & H5)|Hnull]; [|by right; right]. right. left. exists x.
      split_and!; try done. exact (proj1 (live_sep _ _ H3)).
  - unfold std_malloc. rewrite (proj2 (Z.leb_le _ _) Hbig). left. done.
Qed.

(** C2: [malloc_usable_size] of an object in use is its usable size, and [free]
    finds from the address alone which allocator the object belongs to and gives
    exactly that object back; it never waits and never fails. *)
Theorem free_correct_any s x live :
  minv s (x :: live) → (cpu < ncpu)%nat →
  malloc_usable_size elf_start elf_size (ptr x) s = Ret (l_size x) s ∧
  wp (free elf_start elf_size curr level cpu (ptr x)) s (λ _ s', minv s' live) (λ _, False) False.
Proof using Helf.
  intros Hv Hn. split; [|by apply free_ok]. unfold malloc_usable_size.
  rewrite (proj2 (Z.eqb_neq _ _) (ptr_nonzero _ _ x Hv ltac:(elem))). eapply object_size_ok; [done|elem].
Qed.

(** The object [y] of at least [size] bytes is new and the others keep theirs. *)
Definition replaced (s s' : Malloc.t V) (live : list lobj) (size : Z) (y : lobj) : Prop :=
  ptr y ≠ 0 ∧ minv s' (y :: live) ∧ Forall (sep_objs y) live ∧ size ≤ l_size y ∧ Forall (same_bytes s s') live.

(** The copy and the release of the old object. *)
Lemma realloc_copy s s' x y live size :
  minv s' (y :: x :: live) → (cpu < ncpu)%nat → data s' = data s → ptr y ≠ 0 → size ≤ l_size y →
  wp (memcpy (ptr y) (ptr x) (if l_size x <? size then l_size x else size) ;;;
      free elf_start elf_size curr level cpu (ptr x))%prog s'
    (λ _ s2, replaced s s2 live size y ∧
       ∀ i, 0 ≤ i < Z.min size (l_size x) → data s2 (l_at y + i) = data s (l_at x + i))
    (λ _, False) False.
Proof using Helf.
  intros Hv Hn Hd Hy Hsz. destruct (live_sep _ _ Hv) as [[Hyx Hyl]%Forall_cons _].
  pose proof (byte_at_ptr _ _ y Hv ltac:(elem)) as By. pose proof (byte_at_ptr _ _ x Hv ltac:(elem)) as Bx.
  set (n := if l_size x <? size then l_size x else size).
  assert (n = Z.min size (l_size x)) as En by (unfold n; destruct (Z.ltb_spec (l_size x) size); lia).
  clearbody n. apply wp_bind. unfold memcpy, modify, wp at 1. rewrite Bx, By, Hd.
  set (s1 := set_data _ _).
  assert (minv s1 (x :: y :: live)) as Hv1 by (apply minv_data; eapply minv_perm; [|exact Hv]; constructor).
  eapply wp_mono; [apply wp_conj; [by apply (free_ok s1 x (y :: live))|apply free_data]| |tauto|tauto].
  intros u s2 [Hv2 Hd2]. unfold replaced, same_bytes. rewrite Hd2. unfold s1. cbn [data set_data]. split_and!; try done.
  - apply Forall_forall. intros z Hz i Hi. rewrite Forall_forall in Hyl.
    apply (apart_bytes (data s) (λ j, data s (l_at x + j)) y z n i (Hyl z Hz)); [lia|done].
  - intros i Hi. replace (l_at y + i - l_at y) with i by lia.
    by rewrite (proj2 (Z.leb_le 0 i)), (proj2 (Z.ltb_lt i n)) by lia.
Qed.

(** C7: [realloc] replaces the object by one of the new size that overlaps no
    other object and holds the bytes of the old one as far as it goes, or frees it
    if the size is 0; no other object changes a byte, and while it waits the old
    object is in use with its bytes. *)
Theorem realloc_correct s x live size :
  minv s (x :: live) → (cpu < ncpu)%nat → smp_allocator s = true → 0 ≤ size < 2 ^ 61 →
  wp (realloc elf_start elf_size curr level cpu (ptr x) size) s
    (λ o s', if size =? 0 then o = 0 ∧ minv s' live ∧ data s' = data s
             else ∃ y, o = ptr y ∧ replaced s s' live size y ∧
                    ∀ i, 0 ≤ i < Z.min size (l_size x) → data s' (l_at y + i) = data s (l_at x + i))
    (λ s', minv s' (x :: live) ∧ data s' = data s)
    (out_of_memory curr level cpu s size (Z.min 4 (Z.log2_up size))).
Proof using Helf.
  intros Hv Hn Hsmp Hs. unfold realloc, std_realloc. pose proof (ptr_nonzero _ _ x Hv ltac:(elem)) as Hp0.
  rewrite (proj2 (Z.eqb_neq _ _) Hp0). destruct (Z.eqb_spec size 0) as [->|Hz].
  - apply wp_bind. eapply wp_mono; [apply wp_conj; [by apply (free_ok s x live)|apply free_data]| | |]; cbn; tauto.
  - apply wp_bind. unfold wp at 1. rewrite (object_size_ok s (x :: live) x Hv ltac:(elem)). cbn zeta. apply wp_bind.
    rewrite malloc_align by lia. pose proof (Z.log2_up_nonneg size) as Hl.
    eapply wp_mono; [apply wp_conj; [apply (std_malloc_ok curr level cpu s (x :: live) size _ Hv); [|lia|lia|left; lia]|
      apply std_malloc_data]| |done|tauto].
    + pose proof (mv_ncpu _ _ Hv). lia.
    + intros o s' [[(y & -> & H2 & H3 & H4 & _)|(Hf & _)] Hd]; [|congruence]. apply wp_bind.
      rewrite (proj2 (Z.eqb_neq _ _) H2).
      eapply wp_mono; [by apply (realloc_copy s s' x y live size)| |tauto|tauto]. intros u s2 [Hr Hc]. by exists y.
Qed.

(** The new object is cleared. *)
Lemma calloc_clear s s' y live n W F :
  minv s' (y :: live) → data s' = data s → ptr y ≠ 0 → n ≤ l_size y →
  wp (memset (ptr y) 0 n ;;; ret (ptr y))%prog s'
    (λ o s2, ∃ y, o = ptr y ∧ replaced s s2 live n y ∧ ∀ i, 0 ≤ i < n → data s2 (l_at y + i) = 0) W F.
Proof using Type.
  intros Hv Hd Hy Hsz. destruct (live_sep _ _ Hv) as [Hyl _].
  pose proof (byte_at_ptr _ _ y Hv ltac:(elem)) as By.
  apply wp_bind. unfold memset, modify, wp, ret. rewrite By, Hd. exists y. unfold replaced, same_bytes. cbn [data set_data].
  split_and!; try done; [by apply minv_data| |].
  - apply Forall_forall. intros z Hz i Hi. rewrite Forall_forall in Hyl.
    by apply (apart_bytes (data s) (λ _, 0) y z n i (Hyl z Hz)).
  - intros i Hi. replace (l_at y + i - l_at y) with i by lia.
    by rewrite (proj2 (Z.leb_le 0 i)), (proj2 (Z.ltb_lt i n)) by lia.
Qed.

(** [calloc] returns an object of [nmemb * size] bytes, all zero, that
    overlaps no object in use, and changes no byte of those; it returns null when
    the product does not fit into 64 bits. *)
Theorem calloc_correct s live nmemb size :
  minv s live → (cpu < ncpu)%nat → smp_allocator s = true →
  0 < nmemb < 2 ^ 64 → 0 < size < 2 ^ 64 → nmemb * size < 2 ^ 61 ∨ 2 ^ 63 ≤ nmemb * size →
  wp (calloc curr level cpu nmemb size) s
    (λ o s', if nmemb * size <? 2 ^ 63
             then ∃ y, o = ptr y ∧ replaced s s' live (nmemb * size) y ∧
                    ∀ i, 0 ≤ i < nmemb * size → data s' (l_at y + i) = 0
             else o = 0 ∧ s' = s)
    (λ s', minv s' live ∧ data s' = data s)
    (out_of_memory curr level cpu s (nmemb * size) (Z.min 4 (Z.log2_up (nmemb * size)))).
Proof using Type.
  clear Helf. intros Hv Hn Hsmp Hm Hs Hms. unfold calloc. rewrite (proj2 (Z.eqb_neq nmemb 0)), (proj2 (Z.eqb_neq size 0)) by lia.
  cbn [orb]. set (n := nmemb * size) in *. assert (0 < n) as Hpos by nia.
  destruct (Z.ltb_spec ((2 ^ 64 - 1) / size) nmemb) as [Ho|Ho].
  { assert (2 ^ 64 ≤ n) as Hbig.
    { apply Z.nlt_ge. intros Hlt. apply Z.lt_nge in Ho. apply Ho, Z.div_le_lower_bound; unfold n in *; lia. }
    by rewrite (proj2 (Z.ltb_ge _ _)) by lia. }
  assert (n < 2 ^ 64) as Hlt by (pose proof (Z.mul_div_le (2 ^ 64 - 1) size); unfold n; nia).
  rewrite wrap64_small by (unfold u64; lia). clearbody n. apply wp_bind.
  destruct (Z.ltb_spec n (2 ^ 63)) as [Hok|Hbig].
  - rewrite malloc_align by lia. pose proof (Z.log2_up_nonneg n) as Hl.
    eapply wp_mono; [apply wp_conj; [apply (std_malloc_ok curr level cpu s live n _ Hv); [|lia|lia|left; lia]|
      apply std_malloc_data]| |done|tauto].
    + pose proof (mv_ncpu _ _ Hv). lia.
    + intros o s' [[(y & -> & H2 & H3 & H4 & _)|(Hf & _)] Hd]; [|congruence].
      rewrite (proj2 (Z.eqb_neq _ _) H2). by apply (calloc_clear s s' y live n).
  - unfold malloc, std_malloc. by rewrite (proj2 (Z.leb_le _ _) Hbig).
Qed.

(** An aligned allocation whose memory is mapped is not aligned beyond a page
    behind a mapping that is: [posix_memalign] for more than a page then fails its
    assertion instead of returning.  The alignment 0, which is taken for a power
    of two, ends there as well. *)
Theorem posix_memalign_fails s size :
  (∀ j a v', 12 < j < 62 → 0 < size < 2 ^ 61 → huge_page_size ≤ large_size size (2 ^ j) →
     am_map (large_size size (2 ^ j)) (maps s) = Ret a v' → (2 ^ 13 | a) →
     posix_memalign curr level cpu (2 ^ j) size s = Fault) ∧
  (∀ p s', posix_memalign curr level cpu 0 size s = Ret (inl p) s' → ¬ u64 p).
Proof using Type.
  split.
  - intros j a v' Hj Hs Hn Ea Hd. unfold posix_memalign. rewrite is_power_of_two_pow2 by lia. cbn [negb].
    unfold bind at 1. destruct (mapped_malloc s size j a v' Hj Hs Hn Ea) as [s1 ->].
    destruct Hd as [q ->]. rewrite (proj2 (Z.eqb_neq _ _)) by (unfold page_size; lia).
    unfold bind, check. rewrite (proj2 (Z.eqb_neq _ _)); [done|]. intros Hl.
    rewrite wrap64_small in Hl by (pose proof (Z.pow_lt_mono_r 2 j 62); unfold u64; lia).
    rewrite Z.sub_1_r, <- Z.ones_equiv, Z.land_ones in Hl by lia.
    apply Z.mod_divide in Hl; [|apply Z.pow_nonzero; lia]. assert ((2 ^ 13 | q * 2 ^ 13 + page_size)) as [k Hk].
    { etrans; [|exact Hl]. exists (2 ^ (j - 13)). rewrite <- Z.pow_add_r by lia. f_equal. lia. }
    unfold page_size in Hk. lia.
  - intros p s' E Hu. unfold posix_memalign in E. change (is_power_of_two 0) with true in E. cbn [negb] in E.
    unfold bind at 1 in E. destruct (std_malloc _ _ _ _ _ _) as [o s1|s1|]; [|done|done].
    destruct (Z.eqb_spec o 0); [done|]. unfold bind, check in E.
    destruct (Z.eqb_spec (Z.land o (wrap64 (0 - 1))) 0) as [Hl|]; [|done]. injection E as -> _.
    change (wrap64 (0 - 1)) with (Z.ones 64) in Hl. rewrite Z.land_ones in Hl by lia.
    rewrite Z.mod_small in Hl by exact Hu. done.
Qed.
End Back.
End Spec.
