(* ===== verification/MallocMaps.v ===== *)
(** * The C allocator over the address space

    [map_anon] and [munmap] give the large objects what they need, so the theorems
    on [malloc] hold with the address space of this development; the witnesses run
    on a machine of 600 pages. *)
From S2P Require Import Prelude Bits MemArea PageRange PageRangeSpec Memory Reclaim Large Queues PageSource.
From S2P Require Import PagePool Pool PoolSpec Early Vma VmaSpec Malloc MallocSpec.

Section Maps.
Context (lin : list (Z * Z)).

(** The flags and the permissions of [mapped_malloc_large]; the exception for
    want of room is not caught. *)
Definition vs_map (size : Z) : prog Vma.vs Z := λ s,
  match Vma.map_anon 0 size Vma.mmap_populate (Z.lor Vma.perm_read Vma.perm_write) s with
  | Some (inl a, s) => Ret a s
  | _ => Fault
  end.

Definition vs_unmap (a size : Z) : prog Vma.vs unit := λ s,
  match Vma.munmap a size s with
  | Some (_, s) => Ret tt s
  | None => Fault
  end.

Record vs_inv (s : Vma.vs) (l : list (Z * Z)) : Prop := {
  vi_wf : wf lin s;
  vi_above : ∃ r, r ∈ lin ∧ Vma.upper_vma_limit < r.1;
  vi_mapped : Forall (λ x, map_base ≤ x.1 ∧ user_range x.1 x.2 ∧ mapped s x.1 x.2) l;
  vi_disj : pairwise disj l;
}.

Definition vs_full (s : Vma.vs) (size : Z) : Prop :=
  ∀ x, map_base ≤ x → x + size ≤ Vma.upper_vma_limit → ¬ vacant lin s x size.

Lemma vs_perm s l l' : l ≡ₚ l' → vs_inv s l → vs_inv s l'.
Proof using Type.
  intros Hp [H1 H2 H3 H4]. split; try done; [by rewrite <- Hp|]. by eapply (pairwise_perm _ _ _ disj_sym).
Qed.

Lemma vs_areas s l :
  vs_inv s l →
  pairwise disj l ∧ Forall (λ x, map_base ≤ x.1 ∧ 0 < x.2 ∧ x.1 + x.2 ≤ phys_mem ∧ (page_size | x.1)) l.
Proof using Type.
  intros [_ _ H3 H4]. split; [done|]. eapply Forall_impl; [exact H3|]. intros x (H1 & (_ & ? & ? & ? & _) & _). done.
Qed.

(** Mapped memory keeps away from a vacant place. *)
Lemma mapped_apart s x n a k : mapped s a k → 0 < n → 0 < k → vacant lin s x n → disj (x, n) (a, k).
Proof using Type.
  intros Hm Hn Hk Hv. unfold disj. cbn [fst snd].
  destruct (decide (x + n ≤ a)); [by left|]. destruct (decide (a + k ≤ x)); [by right|]. exfalso.
  destruct (Hm (Z.max x a) ltac:(lia)) as [p (v & Hin & Ha & _)%area_at_some].
  destruct Hv as [Hv _]. specialize (Hv _ Hin). lia.
Qed.

Lemma vs_map_spec s l size :
  vs_inv s l → 0 < size < 2 ^ 62 → (page_size | size) →
  wp (vs_map size) s (λ a s', vs_inv s' ((a, size) :: l)) (λ _, False) (vs_full s size).
Proof using Type.
  intros [H1 H2 H3 H4] Hs Hd.
  destruct (map_anon_spec lin s 0 size Vma.mmap_populate (Z.lor Vma.perm_read Vma.perm_write) H1 H2)
    as (r & s' & E & Hw & Hr); [unfold Vma.upper_vma_limit; lia|by exists 0|done|done|].
  unfold wp, vs_map. rewrite E. rewrite (proj2 (page_aligned_id size Hd ltac:(lia))) in Hr. change (if 0 =? 0 then _ else _) with map_base in Hr.
  destruct r as [a|e].
  - destruct Hr as (Ha & Hu & Hv & Hat & _).
    assert (Forall (disj (a, size)) l) as Hdisj.
    { eapply Forall_impl; [exact H3|]. intros [b k] (_ & (_ & Hk & _) & Hm). apply (mapped_apart s); try done. lia. }
    split; [done|done| |done]. constructor.
    + cbn. split_and!; [done|done|]. intros b Hb. rewrite Hat, decide_True by done. done.
    + rewrite Forall_forall in *. intros x Hx. destruct (H3 x Hx) as (M1 & M2 & M3). split_and!; try done.
      intros b Hb. rewrite Hat. case_decide; [done|]. by apply M3.
  - destruct Hr as (_ & _ & Hr). exact Hr.
Qed.

Lemma vs_unmap_spec s l a size :
  vs_inv s ((a, size) :: l) → wp (vs_unmap a size) s (λ _ s', vs_inv s' l) (λ _, False) False.
Proof using Type.
  intros [H1 H2 H3 H4]. apply Forall_cons in H3 as [(Ha & Hu & Hm) H3]. cbn [fst snd] in *. destruct H4 as [Hd H4].
  destruct (munmap_spec lin s a size H1 Hu) as (r & s' & E & Hw & Hr). unfold wp, vs_unmap. rewrite E.
  destruct Hr as [(_ & _ & Hat & _)|(_ & Hn & _)]; [|done]. split; try done.
  rewrite Forall_forall in *. intros x Hx. destruct (H3 x Hx) as (M1 & M2 & M3). split_and!; try done.
  intros b Hb. rewrite Hat. specialize (Hd x Hx). unfold disj in Hd. cbn [fst snd] in Hd.
  rewrite decide_False by lia. by apply M3.
Qed.

#[global] Instance vs_maps : AnonMaps Vma.vs := {
  am_map := vs_map;
  am_unmap := vs_unmap;
  am_inv := vs_inv;
  am_full := vs_full;
  am_perm := vs_perm;
  am_areas := vs_areas;
  am_map_spec := vs_map_spec;
  am_unmap_spec s l a size H _ := vs_unmap_spec s l a size H;
}.
End Maps.

(** ** An example: one CPU, 600 pages *)

Definition ex_malloc : Malloc.t Vma.vs :=
  Malloc.mk true (Pool.mk ex_pool ∅ ∅ ∅ ∅ []) Early.start ex_linear ∅ (λ _, 0).

#[global] Instance ex_maps : AnonMaps Vma.vs := vs_maps ex_lin.

Lemma ex_malloc_inv : minv 1 ex_malloc [].
Proof.
  split.
  - exists (λ _, []), (λ _ _, []). apply (@pinv_initial _ (src_inst [])). exact ex_pool_inv.
  - exact einv_start.
  - split; [exact ex_linear_wf| |by constructor|done]. exists (0x500000000000, 0x500000100000). split; [elem|done].
  - intros x Hx. by apply not_elem_of_nil in Hx.
  - intros x Hx. by apply not_elem_of_nil in Hx.
  - intros pg h Hh. done.
  - cbn. lia.
Qed.

Lemma malloc_witness :
  let go := Malloc.std_malloc 1 0 0 100 (2 ^ 4) in
  finished (go ex_malloc) = true ∧
  wp go ex_malloc
    (λ o s', o = 0 ∧ s' = ex_malloc ∧ 2 ^ 63 ≤ 100 ∨
       (∃ x, o = ptr x ∧ o ≠ 0 ∧ minv 1 s' [x] ∧ Forall (sep_objs x) [] ∧ 100 ≤ l_size x ∧
          (l_kind x ≠ KMap ∨ 4 ≤ 12 → (2 ^ 4 | o))) ∨
       Malloc.smp_allocator ex_malloc = false ∧
       PageRangeSpec.ranges (Memory.pra (Reclaim.mm (PagePool.rc (Pool.src (Malloc.pools ex_malloc))))) = [] ∧
       o = translate_mem_area main page 0)
    (λ s', minv 1 s' []) (out_of_memory 1 0 0 ex_malloc 100 4).
Proof.
  split; [vm_compute; reflexivity|].
  apply (malloc_correct 1 1 0 0 ex_malloc [] 100 4 ex_malloc_inv); [lia|lia|]. left. split; [lia|left; lia].
Defined.

(** 100 bytes in use. *)
Definition ex_object : Z :=
  match Malloc.std_malloc 1 0 0 100 (2 ^ 4) ex_malloc with Ret o _ => o | _ => 0 end.
Definition ex_used : Malloc.t Vma.vs :=
  match Malloc.std_malloc 1 0 0 100 (2 ^ 4) ex_malloc with Ret _ s => s | _ => ex_malloc end.

Lemma ex_used_ok : malloc_post 1 [] 100 4 ex_object ex_used ∧ Malloc.smp_allocator ex_used = true.
Proof.
  split; [|vm_compute; reflexivity].
  assert (finished (Malloc.std_malloc 1 0 0 100 (2 ^ 4) ex_malloc) = true) as Hf by (vm_compute; reflexivity).
  pose proof (std_malloc_ok 1 1 0 0 ex_malloc [] 100 4 ex_malloc_inv) as H. unfold wp in H. unfold ex_object, ex_used.
  destruct (Malloc.std_malloc _ _ _ _ _ _) as [o s'|s'|]; [|discriminate Hf|discriminate Hf].
  destruct H as [H|H]; [|lia|lia|left; lia|exact H|].
  - vm_compute; lia.
  - by destruct H.
Qed.

Lemma free_any_witness :
  ∃ x, ex_object = ptr x ∧
    Malloc.malloc_usable_size 0x400000 0x100000 (ptr x) ex_used = Ret (l_size x) ex_used ∧
    wp (Malloc.free 0x400000 0x100000 1 0 0 (ptr x)) ex_used (λ _ s', minv 1 s' []) (λ _, False) False.
Proof.
  destruct ex_used_ok as [(x & Ho & _ & Hv & _) _]. exists x. split; [exact Ho|].
  apply (free_correct_any 1 0x400000 0x100000); [unfold map_base; lia|exact Hv|lia].
Defined.

Lemma realloc_witness :
  ∃ x, ex_object = ptr x ∧
    finished (Malloc.realloc 0x400000 0x100000 1 0 0 ex_object 5000 ex_used) = true ∧
    wp (Malloc.realloc 0x400000 0x100000 1 0 0 (ptr x) 5000) ex_used
      (λ o s', if 5000 =? 0 then o = 0 ∧ minv 1 s' [] ∧ Malloc.data s' = Malloc.data ex_used
               else ∃ y, o = ptr y ∧ replaced 1 ex_used s' [] 5000 y ∧
                      ∀ i, 0 ≤ i < Z.min 5000 (l_size x) →
                        Malloc.data s' (l_at y + i) = Malloc.data ex_used (l_at x + i))
      (λ s', minv 1 s' [x] ∧ Malloc.data s' = Malloc.data ex_used)
      (out_of_memory 1 0 0 ex_used 5000 (Z.min 4 (Z.log2_up 5000))).
Proof.
  destruct ex_used_ok as [(x & Ho & _ & Hv & _) Hs]. exists x. split; [exact Ho|].
  split; [vm_compute; reflexivity|].
  apply (realloc_correct 1 0x400000 0x100000); [unfold map_base; lia|exact Hv|lia|exact Hs|lia].
Defined.

Lemma calloc_witness :
  ∃ x, ex_object = ptr x ∧
    finished (Malloc.calloc 1 0 0 10 30 ex_used) = true ∧
    wp (Malloc.calloc 1 0 0 10 30) ex_used
      (λ o s', if 10 * 30 <? 2 ^ 63
               then ∃ y, o = ptr y ∧ replaced 1 ex_used s' [x] (10 * 30) y ∧
                      ∀ i, 0 ≤ i < 10 * 30 → Malloc.data s' (l_at y + i) = 0
               else o = 0 ∧ s' = ex_used)
      (λ s', minv 1 s' [x] ∧ Malloc.data s' = Malloc.data ex_used)
      (out_of_memory 1 0 0 ex_used (10 * 30) (Z.min 4 (Z.log2_up (10 * 30)))).
Proof.
  destruct ex_used_ok as [(x & Ho & _ & Hv & _) Hs]. exists x. split; [exact Ho|].
  split; [vm_compute; reflexivity|].
  apply (calloc_correct 1 1 0 0 ex_used [x] 10 30); [exact Hv|lia|exact Hs|lia|lia|left; lia].
Defined.

Definition ex_place : Z := match vs_map (Large.large_size (2 ^ 21) (2 ^ 13)) ex_linear with Ret a _ => a | _ => 1 end.

Lemma posix_memalign_witness :
  (2 ^ 13 | ex_place) ∧ Malloc.posix_memalign 1 0 0 (2 ^ 13) (2 ^ 21) ex_malloc = Fault.
Proof.
  assert ((2 ^ 13 | ex_place)) as Hd by (apply Z.mod_divide; [lia|vm_compute; reflexivity]).
  split; [exact Hd|].
  assert (∃ v, vs_map (Large.large_size (2 ^ 21) (2 ^ 13)) ex_linear = Ret ex_place v) as [v Hv].
  { assert (finished (vs_map (Large.large_size (2 ^ 21) (2 ^ 13)) ex_linear) = true) as Hf by (vm_compute; reflexivity).
    unfold ex_place. destruct (vs_map _ _) as [a v|v|]; [by exists v|discriminate Hf|discriminate Hf]. }
  apply (proj1 (posix_memalign_fails 1 0 0%nat ex_malloc (2 ^ 21)) 13 ex_place v);
    [lia|lia|vm_compute; discriminate|exact Hv|exact Hd].
Defined.
