(* ===== verification/Mutex.v ===== *)
(** * The lock-free mutex

    [lockfree::mutex] of [core/lfmutex.cc] and [include/lockfree/mutex.hh] with any
    number of threads: [advance] is the next atomic access of a thread inside an
    operation, [call] the first one of an operation it begins.  The wait queue is
    the [queue_mpsc] of [Queues]: a push list, latest first, and a pop list, oldest
    first.  A thread has one wait record at a time, which goes by the thread's
    number; [depth], which only the thread that holds the mutex touches, is written
    together with the access before it. *)
From S2P Require Import Prelude.

Module Mutex.

(** Where a thread is. *)
Inductive pc :=
  (* outside the mutex's operations *)
  | Out                           (* without the lock *)
  | In                            (* with the lock *)
  | CWait                         (* waits on a record of a condition variable or a wait queue *)
  | CSent                         (* as before, and the lock is on its way *)
  | Abort                         (* an assertion failed *)
  (* [lock]; the argument: called with the lock held *)
  | LOwner (r : bool)             (* [owner.load()] *)
  | LRec                          (* [count.fetch_add(-1)], [++depth] *)
  | LPush                         (* [waitqueue.push(&waiter)] *)
  | LLoad                         (* [handoff.load()] *)
  | LEmpty1 (h : Z)               (* [waitqueue.empty()]: the pop list *)
  | LEmpty2 (h : Z)               (* the push list *)
  | LCas (h : Z)                  (* [handoff.compare_exchange_strong(h, 0)] *)
  | LPop                          (* [waitqueue.pop()] *)
  | LWake (w : nat)               (* [other->wake()] *)
  | LWait                         (* [waiter.wait()] *)
  | Own                           (* [owner.store(current)], [depth = 1] *)
  (* [try_lock] *)
  | TOwner (r : bool)
  | TLoad
  | TCas (h : Z)
  | TAdd                          (* [count.fetch_add(1)] *)
  (* [unlock] *)
  | UOwner                        (* [owner.store(nullptr)] *)
  | USub                          (* [count.fetch_add(-1)] *)
  | UPop (again : bool)           (* the loop, not for the first time if [again] *)
  | UHand                         (* [handoff.store(ourhandoff)] *)
  | UEmpty1 (h : Z)
  | UEmpty2 (h : Z)
  | UCas (h : Z)
  | UWake (w : nat)
  (* [send_lock] *)
  | SPush (r : bool) (w : nat)
  | SLoad (r : bool)
  | SEmpty1 (r : bool) (h : Z)
  | SEmpty2 (r : bool) (h : Z)
  | SCas (r : bool) (h : Z)
  | SPop (r : bool)
  | SWake (r : bool) (w : nat)
  (* [send_lock_unless_already_waiting] *)
  | WScan (w : nat)               (* the loop over the wait queue *)
  | WPush (w : nat).

#[export] Instance pc_eq_dec : EqDecision pc.
Proof. solve_decision. Defined.

(** [leaked] counts the increments of [count] that nobody will take back; it is
    not part of the mutex. *)
Record st := mk {
  count : Z;
  depth : Z;
  owner : option nat;
  poplist : list nat;
  pushlist : list nat;
  handoff : Z;
  sequence : Z;
  woken : gset nat;
  pcs : list pc;
  leaked : Z;
}.

(** The mutex of [n] threads after its construction. *)
Definition start (n : nat) : st := mk 0 0 None [] [] 0 0 ∅ (replicate n Out) 0.

Definition queue (s : st) : list nat := poplist s ++ reverse (pushlist s).

(** [std::atomic<int>] wraps around. *)
Definition int32 (x : Z) : Z := wrap32 (x + 2 ^ 31) - 2 ^ 31.

Definition go (t : nat) (p : pc) (s : st) : st :=
  mk (count s) (depth s) (owner s) (poplist s) (pushlist s) (handoff s) (sequence s) (woken s) (<[t := p]> (pcs s)) (leaked s).
Definition add_count (x : Z) (s : st) : st :=
  mk (int32 (count s + x)) (depth s) (owner s) (poplist s) (pushlist s) (handoff s) (sequence s) (woken s) (pcs s) (leaked s).
Definition set_depth (d : Z) (s : st) : st :=
  mk (count s) d (owner s) (poplist s) (pushlist s) (handoff s) (sequence s) (woken s) (pcs s) (leaked s).
Definition set_owner (o : option nat) (s : st) : st :=
  mk (count s) (depth s) o (poplist s) (pushlist s) (handoff s) (sequence s) (woken s) (pcs s) (leaked s).
Definition set_queue (pl ul : list nat) (s : st) : st :=
  mk (count s) (depth s) (owner s) pl ul (handoff s) (sequence s) (woken s) (pcs s) (leaked s).
Definition set_handoff (h : Z) (s : st) : st :=
  mk (count s) (depth s) (owner s) (poplist s) (pushlist s) h (sequence s) (woken s) (pcs s) (leaked s).
Definition set_sequence (n : Z) (s : st) : st :=
  mk (count s) (depth s) (owner s) (poplist s) (pushlist s) (handoff s) n (woken s) (pcs s) (leaked s).
Definition set_woken (w : gset nat) (s : st) : st :=
  mk (count s) (depth s) (owner s) (poplist s) (pushlist s) (handoff s) (sequence s) w (pcs s) (leaked s).
Definition leak (s : st) : st :=
  mk (count s) (depth s) (owner s) (poplist s) (pushlist s) (handoff s) (sequence s) (woken s) (pcs s) (leaked s + 1).

(** [waitqueue.push] and [waitqueue.pop] *)
Definition push (w : nat) (s : st) : st := set_queue (poplist s) (w :: pushlist s) s.
Definition pop (s : st) : option nat * st :=
  match poplist s with
  | w :: l => (Some w, set_queue l (pushlist s) s)
  | [] =>
      match reverse (pushlist s) with
      | [] => (None, s)
      | w :: l => (Some w, set_queue l [] s)
      end
  end.

(** [waiter::wake]: the record of a thread that is awake is gone. *)
Definition wake (t w : nat) (p : pc) (s : st) : st :=
  if decide (w ∈ woken s) then go t Abort s else go t p (set_woken ({[w]} ∪ woken s) s).

(** [waiter::wait], and [wait_until] of the record [lock_sent] through. *)
Definition awake (t : nat) (s : st) : option st :=
  if decide (t ∈ woken s) then Some (go t Own (set_woken (woken s ∖ {[t]}) s)) else None.

(** Back to where the operation was called. *)
Definition return_to (r : bool) : pc := if r then In else Out.

(** [lock], behind its first access. *)
Definition lock_step (t : nat) (p : pc) (s : st) : option st :=
  match p with
  | LOwner _ => Some (go t (if decide (owner s = Some t) then LRec else LPush) s)
  | LRec => Some (go t In (set_depth (wrap32 (depth s + 1)) (add_count (-1) s)))
  | LPush => Some (go t LLoad (push t s))
  | LLoad => Some (go t (if handoff s =? 0 then LWait else LEmpty1 (handoff s)) s)
  | LEmpty1 h => Some (go t (match poplist s with [] => LEmpty2 h | _ => LCas h end) s)
  | LEmpty2 h => Some (go t (match pushlist s with [] => LWait | _ => LCas h end) s)
  | LCas h => Some (if handoff s =? h then go t LPop (set_handoff 0 s) else go t LWait s)
  | LPop =>
      match pop s with
      | (None, s) => Some (go t Abort s)
      | (Some w, s) =>
          Some (if decide (w = t) then go t Own s
                else if decide (t ∈ woken s) then go t Abort s
                else go t (LWake w) s)
      end
  | LWake w => Some (wake t w LWait s)
  | LWait => awake t s
  | Own => Some (go t In (set_depth 1 (set_owner (Some t) s)))
  | _ => None
  end.

Definition try_lock_step (t : nat) (p : pc) (s : st) : option st :=
  match p with
  | TOwner _ =>
      Some (if decide (owner s = Some t) then go t In (set_depth (wrap32 (depth s + 1)) s) else go t TLoad s)
  | TLoad => Some (go t (if handoff s =? 0 then Out else TCas (handoff s)) s)
  | TCas h => Some (if handoff s =? h then go t TAdd (set_handoff 0 s) else go t Out s)
  | TAdd => Some (go t Own (add_count 1 s))
  | _ => None
  end.

Definition unlock_step (t : nat) (p : pc) (s : st) : option st :=
  match p with
  | UOwner => Some (go t USub (set_owner None s))
  | USub => Some (go t (if count s =? 1 then Out else UPop false) (add_count (-1) s))
  | UPop _ =>
      match pop s with
      | (Some w, s) => Some (go t (if decide (w = t) then Abort else UWake w) s)
      | (None, s) => Some (go t UHand s)
      end
  | UHand =>
      let n := wrap32 (sequence s + 1) in
      let n := if n =? 0 then wrap32 (n + 1) else n in
      Some (go t (UEmpty1 n) (set_handoff n (set_sequence n s)))
  | UEmpty1 h => Some (go t (match poplist s with [] => UEmpty2 h | _ => UCas h end) s)
  | UEmpty2 h => Some (go t (match pushlist s with [] => Out | _ => UCas h end) s)
  | UCas h => Some (if handoff s =? h then go t (UPop true) (set_handoff 0 s) else go t Out s)
  | UWake w => Some (wake t w Out s)
  | _ => None
  end.

Definition send_lock_step (t : nat) (p : pc) (s : st) : option st :=
  match p with
  | SPush r w => Some (go t (SLoad r) (push w s))
  | SLoad r => Some (go t (if handoff s =? 0 then return_to r else SEmpty1 r (handoff s)) s)
  | SEmpty1 r h => Some (go t (match poplist s with [] => SEmpty2 r h | _ => SCas r h end) s)
  | SEmpty2 r h => Some (go t (match pushlist s with [] => return_to r | _ => SCas r h end) s)
  | SCas r h => Some (if handoff s =? h then go t (SPop r) (set_handoff 0 s) else go t (return_to r) s)
  | SPop r =>
      match pop s with
      | (None, s) => Some (go t Abort s)
      | (Some w, s) => Some (go t (SWake r w) s)
      end
  | SWake r w => Some (wake t w (return_to r) s)
  | _ => None
  end.

Definition send_lock_unless_already_waiting_step (t : nat) (p : pc) (s : st) : option st :=
  match p with
  | WScan w => Some (go t (if decide (w ∈ queue s) then In else WPush w) s)
  | WPush w => Some (go t In (push w s))
  | _ => None
  end.

(** The next access of a thread inside an operation; none if it is in none, or
    waits.  A thread that was sent the lock goes on with [receive_lock]. *)
Definition advance (t : nat) (s : st) : option st :=
  p ← pcs s !! t;
  match p with
  | Out | In | CWait | Abort => None
  | CSent => awake t s
  | LOwner _ | LRec | LPush | LLoad | LEmpty1 _ | LEmpty2 _ | LCas _ | LPop | LWake _ | LWait | Own => lock_step t p s
  | TOwner _ | TLoad | TCas _ | TAdd => try_lock_step t p s
  | UOwner | USub | UPop _ | UHand | UEmpty1 _ | UEmpty2 _ | UCas _ | UWake _ => unlock_step t p s
  | SPush _ _ | SLoad _ | SEmpty1 _ _ | SEmpty2 _ _ | SCas _ _ | SPop _ | SWake _ _ => send_lock_step t p s
  | WScan _ | WPush _ => send_lock_unless_already_waiting_step t p s
  end.

(** The first access of an operation.  [send_lock] is for a thread that waits on a
    record nobody else has taken; [send_lock_unless_already_waiting] also meets
    threads that have left the wait queue for [lock]. *)
Inductive op :=
  | OLock
  | OTryLock
  | OUnlock
  | OSendLock (w : nat)
  | OSendLockUnlessAlreadyWaiting (w : nat)
  | OWait
  | OTimeout.

Definition lock (t : nat) (r : bool) (s : st) : st :=
  go t (if count s =? 0 then Own else LOwner r) (add_count 1 s).

Definition try_lock (t : nat) (r : bool) (s : st) : st :=
  if count s =? 0 then go t Own (add_count 1 s) else go t (TOwner r) s.

Definition unlock (t : nat) (s : st) : st :=
  if decide (owner s = Some t) then
    if depth s =? 0 then go t Abort s
    else
      let d := wrap32 (depth s - 1) in
      go t (if d =? 0 then UOwner else In) (set_depth d s)
  else go t Abort s.

Definition send_lock (t w : nat) (r : bool) (s : st) : st :=
  go t (if count s =? 0 then SWake r w else SPush r w) (add_count 1 (go w CSent s)).

Definition send_lock_unless_already_waiting (t w : nat) (s : st) : st :=
  if decide (owner s = Some t) then go t (WScan w) (add_count 1 s) else go t Abort s.

Definition call (t : nat) (o : op) (s : st) : option st :=
  p ← pcs s !! t;
  match o, p with
  | OLock, Out => Some (lock t false s)
  | OLock, In => Some (lock t true s)
  | OTryLock, Out => Some (try_lock t false s)
  | OTryLock, In => Some (try_lock t true s)
  | OUnlock, In => Some (unlock t s)
  | OSendLock w, Out => if decide (pcs s !! w = Some CWait) then Some (send_lock t w false s) else None
  | OSendLock w, In => if decide (pcs s !! w = Some CWait) then Some (send_lock t w true s) else None
  | OSendLockUnlessAlreadyWaiting w, In =>
      match pcs s !! w with
      | Some CWait => Some (send_lock_unless_already_waiting t w (go w CSent s))
      | Some LWait => Some (send_lock_unless_already_waiting t w (leak s))
      | _ => None
      end
  | OWait, Out => Some (go t CWait s)
  | OTimeout, CWait => Some (go t Out s)
  | _, _ => None
  end.

(** [internal]: a thread goes on with its operation; [step]: or begins one. *)
Definition internal (s s' : st) : Prop := ∃ t, advance t s = Some s'.
Definition step (s s' : st) : Prop := internal s s' ∨ ∃ t o, call t o s = Some s'.

(** The offer the thread has seen. *)
Definition offer (p : pc) : option Z :=
  match p with
  | LEmpty1 h | LEmpty2 h | LCas h | TCas h | UEmpty1 h | UEmpty2 h | UCas h
  | SEmpty1 _ h | SEmpty2 _ h | SCas _ h => Some h
  | _ => None
  end.

(** The number of a new offer is not one that a thread has seen as an older offer and
    still has in mind: [mutex.hh] assumes that no CPU pauses that long. *)
Definition fresh (s s' : st) : Prop :=
  sequence s' = sequence s ∨ Forall (λ p, offer p ≠ Some (sequence s')) (pcs s).

#[export] Instance fresh_dec s s' : Decision (fresh s s').
Proof. unfold fresh. apply _. Defined.

(** Steps at which [count] and [depth] do not overflow; [sequence] may wrap around. *)
Definition calm (s s' : st) : Prop :=
  step s s' ∧ 0 ≤ count s' ∧ depth s < 2 ^ 32 - 1 ∧ fresh s s'.

(** ** The token

    Whoever may pass the lock on has the token: the thread that holds the mutex,
    the one that looks for the next holder, the offer in [handoff], or the thread
    that was woken. *)
Inductive token := Free | Holder (t : nat) | Resp (t : nat) | Offered | Woken (t : nat).

Definition holds (p : pc) : bool :=
  match p with
  | In | LOwner true | LRec | Own | TOwner true | TAdd | UOwner | USub
  | SPush true _ | SLoad true | SEmpty1 true _ | SEmpty2 true _ | SCas true _ | SPop true | SWake true _
  | WScan _ | WPush _ => true
  | _ => false
  end.

Definition resp (p : pc) : bool :=
  match p with LPop | LWake _ | UPop _ | UHand | UWake _ | SPop _ | SWake _ _ => true | _ => false end.

(** [owner] is the thread. *)
Definition owns (p : pc) : bool := holds p && match p with Own | TAdd | USub => false | _ => true end.

(** What the thread has added to [count]. *)
Definition weight (p : pc) : Z :=
  match p with
  | LOwner true | LRec => 2
  | LOwner false | LPush | LLoad | LEmpty1 _ | LEmpty2 _ | LCas _ | LPop | LWake _ | LWait | CSent => 1
  | TAdd => 0
  | _ => b2z (holds p)
  end.

(** The thread's record is in the queue, or on its way to it or from it. *)
Definition waits (p : pc) : bool :=
  match p with LLoad | LEmpty1 _ | LEmpty2 _ | LCas _ | LPop | LWake _ | LWait | CSent => true | _ => false end.

(** The record in the hands of the thread. *)
Definition target (p : pc) : option nat :=
  match p with LWake w | UWake w | SPush _ w | SWake _ w | WScan w | WPush w => Some w | _ => None end.

(** The record the thread is about to put into the queue. *)
Definition pushes (p : pc) : option nat := match p with SPush _ w => Some w | _ => None end.

Definition scans (p : pc) : bool := match p with WScan _ => true | _ => false end.

(** The thread failed an assertion, or saw an offer that is none. *)
Definition bad (p : pc) : bool :=
  match p with Abort => true | _ => match offer p with Some h => h =? 0 | None => false end end.

(** The records: each thread that waits has one record in one place. [Q] is the
    queue, [wk] the thread that was woken. *)
Record recs (l : list pc) (Q : list nat) (wk : option nat) : Prop := {
  r_nodup : NoDup Q;
  r_in t : t ∈ Q → wk ≠ Some t ∧ ∃ p, l !! t = Some p ∧ waits p = true;
  r_wait t p : l !! t = Some p → waits p = true →
    t ∈ Q ∨ wk = Some t ∨ ∃ u q, l !! u = Some q ∧ target q = Some t;
  r_target u q w : l !! u = Some q → target q = Some w →
    wk ≠ Some w ∧ (∃ p, l !! w = Some p ∧ waits p = true) ∧ (w ∈ Q → scans q = true);
  r_uniq u u' q q' w : l !! u = Some q → l !! u' = Some q' → target q = Some w → target q' = Some w → u = u';
  r_woken t : wk = Some t → ∃ p, l !! t = Some p ∧ waits p = true;
  r_sent u q w : l !! u = Some q → pushes q = Some w → l !! w = Some CSent;
}.

Definition woken_of (tok : token) : option nat := match tok with Woken t => Some t | _ => None end.

(** Who has the token. *)
Record inv (s : st) (tok : token) : Prop := {
  i_count : count s = total weight (pcs s) + leaked s;
  i_range : 0 ≤ leaked s ∧ 0 ≤ count s < 2 ^ 31;
  i_free : tok = Free ↔ count s = 0;
  i_hold t p : pcs s !! t = Some p → (holds p = true ↔ tok = Holder t);
  i_resp t p : pcs s !! t = Some p → (resp p = true ↔ tok = Resp t);
  i_tok t : tok = Holder t ∨ tok = Resp t → is_Some (pcs s !! t);
  i_off : handoff s ≠ 0 ↔ tok = Offered;
  i_woken t : t ∈ woken s ↔ tok = Woken t;
  i_own t : owner s = Some t ↔ ∃ p, pcs s !! t = Some p ∧ owns p = true;
  i_depth t p : pcs s !! t = Some p → owns p = true → if decide (p = UOwner) then depth s = 0 else 0 < depth s < 2 ^ 32;
  i_good t p : pcs s !! t = Some p → bad p = false;
  i_recs : recs (pcs s) (queue s) (woken_of tok);
}.
End Mutex.
Import Mutex.

(** ** The records *)

Section Records.
Implicit Types (l : list pc) (Q : list nat) (wk : option nat) (p q : pc).

Lemma lookup_ins l t q p u r :
  l !! t = Some p → <[t := q]> l !! u = Some r ↔ u = t ∧ r = q ∨ u ≠ t ∧ l !! u = Some r.
Proof.
  intros Ht. apply lookup_lt_Some in Ht. destruct (decide (u = t)) as [->|Hu].
  - rewrite list_lookup_insert_eq by done. naive_solver.
  - rewrite list_lookup_insert_ne by done. naive_solver.
Qed.

(** Looks at every thread of an updated list. *)
Ltac threads Ht :=
  repeat match goal with
  | H : <[_ := _]> _ !! _ = Some _ |- _ => apply (lookup_ins _ _ _ _ _ _ Ht) in H as [[? ?]|[? H]]; subst
  end.

Lemma pushes_target q w : pushes q = Some w → target q = Some w.
Proof. by destruct q. Qed.

(** Other threads with a record to put. *)
Lemma sent_ins l t p q :
  (∀ u q w, l !! u = Some q → pushes q = Some w → l !! w = Some CSent) → l !! t = Some p →
  (∀ w, pushes q = Some w → l !! w = Some CSent) → p ≠ CSent ∨ (∀ u r, l !! u = Some r → target r ≠ Some t) ∧ pushes q = None →
  ∀ u r w, <[t := q]> l !! u = Some r → pushes r = Some w → <[t := q]> l !! w = Some CSent.
Proof.
  intros H7 Ht Hq Hp u r w Hr Hw. assert (∃ u r, l !! u = Some r ∧ pushes r = Some w ∨ l !! w = Some CSent ∧ pushes q = Some w) as (v & r' & Hv).
  { threads Ht; [exists t, p; right; auto|exists u, r; by left]. }
  assert (l !! w = Some CSent) as Hs by (destruct Hv as [[Hv Hv']|[? _]]; [by eapply H7|done]).
  rewrite (lookup_ins _ _ _ _ _ _ Ht). right. split; [|done]. intros ->.
  destruct Hp as [?|[Hp Hp']]; [congruence|].
  destruct Hv as [[Hv Hv']|[_ ?]]; [|congruence]. by apply pushes_target in Hv' as Hv''%(Hp v r' Hv).
Qed.

Lemma waits_ins l t p q u : l !! t = Some p → waits q = waits p →
  (∃ r, l !! u = Some r ∧ waits r = true) → ∃ r, <[t := q]> l !! u = Some r ∧ waits r = true.
Proof.
  intros Ht Hw (r & Hr & Hwr). destruct (decide (u = t)) as [->|Hu].
  - exists q. rewrite (lookup_ins _ _ _ _ _ _ Ht). split; [by left|]. congruence.
  - exists r. rewrite (lookup_ins _ _ _ _ _ _ Ht). auto.
Qed.

Lemma recs_scan l Q wk t p q :
  recs l Q wk → l !! t = Some p → p ≠ CSent → waits q = waits p → target q = target p → pushes q = pushes p →
  (∀ w, target q = Some w → w ∈ Q → scans q = scans p) →
  recs (<[t := q]> l) Q wk.
Proof.
  intros [H1 H2 H3 H4 H5 H6 H7] Ht Np Ew Et Eps Es. pose proof (lookup_ins l t q p) as Hi.
  assert (∀ u r, <[t := q]> l !! u = Some r → ∃ r', l !! u = Some r' ∧ waits r = waits r' ∧ target r = target r' ∧
    ∀ w, target r = Some w → w ∈ Q → scans r = scans r') as Hold.
  { intros u r Hr. threads Ht; eauto. }
  split; [done|..].
  - intros u Hu. destruct (H2 u Hu). split; [done|]. by eapply waits_ins.
  - intros u r (r' & Hr' & -> & _)%Hold Hwr.
    destruct (H3 u r' Hr' Hwr) as [?|[?|(v & q' & Hv & Hq')]]; [by left|by right; left|]. right. right.
    destruct (decide (v = t)) as [->|]; [exists t, q|exists v, q']; rewrite (Hi _ _ Ht); naive_solver congruence.
  - intros u r w (r' & Hr' & _ & Htr & Hsr)%Hold Hw.
    destruct (H4 u r' w Hr' ltac:(congruence)) as (T1 & T2 & T3). split_and!; [done|by eapply waits_ins|].
    intros Hin. rewrite (Hsr w Hw Hin). auto.
  - intros u u' r r' w (r1 & Hr1 & _ & -> & _)%Hold (r2 & Hr2 & _ & -> & _)%Hold. by apply H5.
  - intros u Hu. eapply waits_ins; eauto.
  - apply (sent_ins _ _ p); [done|done| |by left]. intros w. rewrite Eps. intros Hw. by apply (H7 t p).
Qed.

Lemma recs_go l Q wk t p q :
  recs l Q wk → l !! t = Some p → p ≠ CSent → waits q = waits p → target q = target p → pushes q = pushes p →
  scans q = scans p → recs (<[t := q]> l) Q wk.
Proof. intros. by apply recs_scan with p. Qed.

(** A thread puts its own record into the queue. *)
Lemma recs_push_self l Q wk t p q :
  recs l Q wk → l !! t = Some p → waits p = false → target p = None → waits q = true → target q = None →
  recs (<[t := q]> l) (Q ++ [t]) wk.
Proof.
  intros [H1 H2 H3 H4 H5 H6 H7] Ht Ep Tp Eq Tq. pose proof (lookup_ins l t q p) as Hi.
  assert (t ∉ Q) as Hn by (intros Hn; destruct (H2 t Hn) as (_ & r & Hr & Hw); congruence).
  assert (∀ u, (∃ r, l !! u = Some r ∧ waits r = true) → u ≠ t ∧ ∃ r, <[t := q]> l !! u = Some r ∧ waits r = true) as Hk.
  { intros u (r & Hr & Hw). assert (u ≠ t) by congruence. split; [done|]. exists r. rewrite (Hi _ _ Ht). auto. }
  split.
  - rewrite <- Permutation_cons_append. by constructor.
  - intros u [Hu|Hu%list_elem_of_singleton]%elem_of_app; [|subst u].
    + destruct (H2 u Hu) as [? Hr]. split; [done|]. by apply Hk.
    + split; [intros Hw; destruct (H6 t Hw) as (r & Hr & Hwr); congruence|]. exists q. rewrite (Hi _ _ Ht). auto.
  - intros u r Hr Hw. threads Ht; [left; elem|].
    destruct (H3 u r Hr Hw) as [?|[?|(v & q' & Hv & Hq')]]; [left; elem|by right; left|]. right. right.
    exists v, q'. rewrite (Hi _ _ Ht). split; [|done]. right. split; [congruence|done].
  - intros u r w Hr Hw. threads Ht; [congruence|]. destruct (H4 u r w Hr Hw) as (T1 & T2 & T3).
    destruct (Hk w T2) as [Hwt T2']. split_and!; [done|done|]. rewrite elem_of_app, list_elem_of_singleton. naive_solver.
  - intros u u' r r' w Hr Hr' Hw Hw'. threads Ht; try congruence. by eapply (H5 u u' r r').
  - intros u Hu. by apply Hk, H6.
  - apply (sent_ins _ _ p); [done|done|intros w Hw%pushes_target; congruence|left; by intros ->].
Qed.

(** A thread lets go of the record in its hands, which leaves it where [Q'] and
    [wk'] say. *)
Lemma recs_put l Q Q' wk wk' t p q w :
  recs l Q wk → l !! t = Some p → target p = Some w → target q = None → waits q = waits p →
  NoDup Q' → (∀ u, u ∈ Q' ↔ u ∈ Q ∨ u = w ∧ wk' = wk) → wk' = wk ∨ wk = None ∧ wk' = Some w ∧ w ∉ Q →
  recs (<[t := q]> l) Q' wk'.
Proof.
  intros [H1 H2 H3 H4 H5 H6 H7] Ht Tp Tq Ew Hnd HQ Hwk. pose proof (lookup_ins l t q p) as Hi.
  destruct (H4 t p w Ht Tp) as (Hww & Hpw & Hsc).
  assert (∀ u, (∃ r, l !! u = Some r ∧ waits r = true) → ∃ r, <[t := q]> l !! u = Some r ∧ waits r = true) as Hk.
  { intros u. by apply waits_ins with p. }
  split; [done|..].
  - intros u [Hu|[-> Hw]]%HQ; [|split; [congruence|by apply Hk]]. destruct (H2 u Hu) as [? Hr]. split; [|by apply Hk].
    destruct Hwk as [->|(-> & -> & Hwq)]; [done|]. congruence.
  - intros u r Hr Hw. assert (∃ r', l !! u = Some r' ∧ waits r' = true) as (r' & Hr' & Hw').
    { threads Ht; [exists p; split; congruence|eauto]. }
    destruct (H3 u r' Hr' Hw') as [Hu|[Hu|(v & q' & Hv & Hq')]]; [left; apply HQ; by left| |].
    { right. left. destruct Hwk as [->|(-> & _)]; done. }
    destruct (decide (v = t)) as [->|].
    + assert (u = w) as -> by congruence.
      destruct Hwk as [->|(-> & -> & Hwq)]; [left; apply HQ; by right|by right; left].
    + right. right. exists v, q'. rewrite (Hi _ _ Ht). auto.
  - intros u r v Hr Hv. threads Ht; [congruence|]. destruct (H4 u r v Hr Hv) as (T1 & T2 & T3).
    assert (v ≠ w) as Hvw by (intros ->; assert (u = t) by (by eapply H5); done).
    split_and!; [|by apply Hk|]. { destruct Hwk as [->|(_ & -> & _)]; congruence. }
    intros [?|[? _]]%HQ; [by apply T3|done].
  - intros u u' r r' v Hr Hr' Hv Hv'. threads Ht; try congruence. by eapply (H5 u u' r r').
  - intros u Hu. destruct Hwk as [->|(_ & -> & _)]; apply Hk; [by apply H6|]. by simplify_eq.
  - apply (sent_ins _ _ p); [done|done|intros v Hv%pushes_target; congruence|left; by intros ->].
Qed.

(** A thread takes hold of a record; it leaves the queue unless it is only looked
    for. *)
Lemma recs_get l Q Q' wk t p q w :
  recs l Q wk → l !! t = Some p → p ≠ CSent → target p = None → target q = Some w → pushes q = None → waits q = waits p →
  (∃ r, l !! w = Some r ∧ waits r = true) → wk ≠ Some w → (∀ u r, l !! u = Some r → target r ≠ Some w) →
  NoDup Q' → (∀ u, u ∈ Q' ↔ u ∈ Q ∧ (u = w → scans q = true)) →
  recs (<[t := q]> l) Q' wk.
Proof.
  intros [H1 H2 H3 H4 H5 H6 H7] Ht Np Tp Tq Eps Ew Hww Hwk Hno Hnd HQ. pose proof (lookup_ins l t q p) as Hi.
  assert (∀ u, (∃ r, l !! u = Some r ∧ waits r = true) → ∃ r, <[t := q]> l !! u = Some r ∧ waits r = true) as Hk.
  { intros u. by apply waits_ins with p. }
  split; [done|..].
  - intros u [Hu _]%HQ. destruct (H2 u Hu) as [? Hr]. split; [done|by apply Hk].
  - intros u r Hr Hw. destruct (decide (u = w)) as [->|Huw].
    { right. right. exists t, q. rewrite (Hi _ _ Ht). auto. }
    assert (∃ r', l !! u = Some r' ∧ waits r' = true) as (r' & Hr' & Hw').
    { threads Ht; [exists p; split; congruence|eauto]. }
    destruct (H3 u r' Hr' Hw') as [Hu|[?|(v & q' & Hv & Hq')]]; [left; apply HQ; split; [done|congruence]|by right; left|].
    right. right. exists v, q'. rewrite (Hi _ _ Ht). split; [|done]. right. split; [congruence|done].
  - intros u r v Hr Hv. threads Ht.
    + assert (v = w) as -> by congruence. split_and!; [done|by apply Hk|]. intros [_ ?]%HQ. auto.
    + destruct (H4 u r v Hr Hv) as (T1 & T2 & T3). split_and!; [done|by apply Hk|]. intros [? _]%HQ. auto.
  - intros u u' r r' v Hr Hr' Hv Hv'. threads Ht; try done.
    + assert (v = w) as -> by congruence. by destruct (Hno _ _ Hr).
    + assert (v = w) as -> by congruence. by destruct (Hno _ _ Hr').
    + by eapply (H5 u u' r r').
  - intros u Hu. by apply Hk, H6.
  - apply (sent_ins _ _ p); [done|done|by rewrite Eps|by left].
Qed.

(** A thread stops waiting: its record was taken from the queue, or woken. *)
Lemma recs_leave l Q Q' wk t p q :
  recs l Q wk → l !! t = Some p → target p = None → target q = None → waits q = false →
  (∀ u r, l !! u = Some r → target r ≠ Some t) → wk = None ∨ wk = Some t →
  NoDup Q' → (∀ u, u ∈ Q' ↔ u ∈ Q ∧ u ≠ t) →
  recs (<[t := q]> l) Q' None.
Proof.
  intros [H1 H2 H3 H4 H5 H6 H7] Ht Tp Tq Ew Hno Hwk Hnd HQ. pose proof (lookup_ins l t q p) as Hi.
  assert (∀ u, u ≠ t → (∃ r, l !! u = Some r ∧ waits r = true) → ∃ r, <[t := q]> l !! u = Some r ∧ waits r = true) as Hk.
  { intros u Hu (r & Hr & Hw). exists r. rewrite (Hi _ _ Ht). auto. }
  split; [done|..].
  - intros u [Hu Hne]%HQ. split; [done|]. apply Hk; [done|]. apply H2, Hu.
  - intros u r Hr Hw. threads Ht; [congruence|].
    destruct (H3 u r Hr Hw) as [Hu|[?|(v & q' & Hv & Hq')]]; [left; by apply HQ|naive_solver|].
    right. right. exists v, q'. rewrite (Hi _ _ Ht). split; [|done]. right. split; [congruence|done].
  - intros u r v Hr Hv. threads Ht; [congruence|]. destruct (H4 u r v Hr Hv) as (T1 & T2 & T3).
    split_and!; [done| |]. { apply Hk; [|done]. intros ->. by destruct (Hno _ _ Hr). } intros [? _]%HQ. auto.
  - intros u u' r r' v Hr Hr' Hv Hv'. threads Ht; try congruence. by eapply (H5 u u' r r').
  - done.
  - assert (pushes q = None) as Eps.
    { destruct (pushes q) as [v|] eqn:Ev; [apply pushes_target in Ev; congruence|done]. }
    apply (sent_ins _ _ p); [done|done|by rewrite Eps|by right].
Qed.

(** The lock is sent to a thread. *)
Lemma recs_send l Q wk t p q w :
  recs l Q wk → l !! w = Some CWait → l !! t = Some p → w ≠ t → target p = None → waits p = false →
  target q = Some w → waits q = false → recs (<[t := q]> (<[w := CSent]> l)) Q wk.
Proof.
  intros [H1 H2 H3 H4 H5 H6 H7] Hw Ht Hne Tp Ep Tq Eq.
  assert (<[w := CSent]> l !! t = Some p) as Ht' by by rewrite list_lookup_insert_ne.
  assert (∀ u r, <[t := q]> (<[w := CSent]> l) !! u = Some r ↔
    u = t ∧ r = q ∨ u = w ∧ r = CSent ∨ u ≠ t ∧ u ≠ w ∧ l !! u = Some r) as Hi.
  { intros u r. rewrite (lookup_ins _ _ _ _ _ _ Ht'), (lookup_ins _ _ _ _ _ _ Hw). naive_solver. }
  assert (∀ u, (∃ r, l !! u = Some r ∧ waits r = true) →
    u ≠ t ∧ u ≠ w ∧ ∃ r, <[t := q]> (<[w := CSent]> l) !! u = Some r ∧ waits r = true) as Hk.
  { intros u (r & Hr & Hwr). assert (u ≠ t) by congruence. assert (u ≠ w) by (intros ->; by simplify_eq).
    split_and!; [done..|]. exists r. split; [|done]. apply Hi. auto. }
  assert (∃ r, <[t := q]> (<[w := CSent]> l) !! w = Some r ∧ waits r = true) as Hww.
  { exists CSent. rewrite Hi. auto. }
  split; [done|..].
  - intros u Hu. destruct (H2 u Hu). split; [done|by apply Hk].
  - intros u r [[-> ->]|[[-> ->]|(N1 & N2 & Hr)]]%Hi Hwr; [congruence| |].
    { right. right. exists t, q. rewrite Hi. auto. }
    destruct (H3 u r Hr Hwr) as [?|[?|(v & q' & Hv & Hq')]]; [by left|by right; left|].
    right. right. exists v, q'. rewrite Hi. split; [|done]. right. right. split_and!; [congruence| |done].
    intros ->. by simplify_eq.
  - intros u r v [[-> ->]|[[-> ->]|(N1 & N2 & Hr)]]%Hi Hv; [|done|].
    + assert (v = w) as -> by congruence. split_and!; [|done|].
      * intros Hwk. destruct (H6 w Hwk) as (r & Hr & Hwr). by simplify_eq.
      * intros Hin. destruct (H2 w Hin) as (_ & r & Hr & Hwr). by simplify_eq.
    + destruct (H4 u r v Hr Hv) as (T1 & T2 & T3). split_and!; [done|by apply Hk|done].
  - assert (∀ u r, l !! u = Some r → target r ≠ Some w) as Hno.
    { intros u r Hr Hv. destruct (H4 u r w Hr Hv) as (_ & (r' & Hr' & Hwr) & _). by simplify_eq. }
    intros u u' r r' v [[-> ->]|[[-> ->]|(N1 & N2 & Hr)]]%Hi [[-> ->]|[[-> ->]|(N1' & N2' & Hr')]]%Hi Hv Hv'; try done.
    + assert (v = w) as -> by congruence. by destruct (Hno _ _ Hr').
    + assert (v = w) as -> by congruence. by destruct (Hno _ _ Hr).
    + by eapply (H5 u u' r r').
  - intros u Hu. by apply Hk, H6.
  - intros u r v [[-> ->]|[[-> ->]|(N1 & N2 & Hr)]]%Hi Hv; [|done|].
    + apply pushes_target in Hv. assert (v = w) as -> by congruence. apply Hi. auto.
    + pose proof (H7 u r v Hr Hv) as Hs. apply Hi. right. right. split_and!; [|congruence|done].
      intros ->. rewrite Ht in Hs. by simplify_eq.
Qed.
End Records.

(** ** Steps *)

Lemma weight_nonneg p : 0 ≤ weight p.
Proof. by destruct p as [| | | | |[] | | | | | | | | | | |[]| | | | | | | | | | | |[]|[]|[]|[]|[]|[]|[]| |]. Qed.

Lemma int32_small x : - 2 ^ 31 ≤ x < 2 ^ 31 → int32 x = x.
Proof. intros Hx. unfold int32. rewrite wrap32_small by lia. lia. Qed.

(** [tok] moves only between [t] and nobody. *)
Definition mine (t : nat) (tok : token) : Prop :=
  match tok with Holder u | Resp u => u = t | _ => True end.

Lemma mine_other t u tok tok' :
  tok' = tok ∨ mine t tok ∧ mine t tok' → u ≠ t →
  (tok = Holder u ↔ tok' = Holder u) ∧ (tok = Resp u ↔ tok' = Resp u).
Proof. intros [->|[H1 H2]] Hu; [done|]. destruct tok, tok'; cbn in *; subst; split; split; congruence. Qed.

(** The class of a thread: what the token and the owner have to do with it. *)
Definition class (p : pc) : bool * bool * bool * bool := (holds p, resp p, owns p, bool_decide (p = UOwner)).

Lemma inv_step s tok s' tok' t p q :
  inv s tok → pcs s !! t = Some p → pcs s' !! t = Some q →
  (∀ u r', u ≠ t → pcs s' !! u = Some r' → ∃ r, pcs s !! u = Some r ∧ class r' = class r ∧ bad r' = bad r) →
  (∀ u r, u ≠ t → pcs s !! u = Some r → ∃ r', pcs s' !! u = Some r' ∧ class r' = class r) →
  count s' = total weight (pcs s') + leaked s' → 0 ≤ leaked s' → 0 ≤ count s' < 2 ^ 31 →
  (tok' = Free ↔ count s' = 0) →
  tok' = tok ∨ mine t tok ∧ mine t tok' →
  (holds q = true ↔ tok' = Holder t) → (resp q = true ↔ tok' = Resp t) →
  (handoff s' ≠ 0 ↔ tok' = Offered) →
  (∀ u, u ∈ woken s' ↔ tok' = Woken u) →
  owner s' = owner s ∧ owns q = owns p ∨ (owner s = None ∨ owner s = Some t) ∧ owner s' = (if owns q then Some t else None) →
  depth s' = depth s ∨ tok = Holder t ∨ tok' = Holder t →
  (owns q = true → if decide (q = UOwner) then depth s' = 0 else 0 < depth s' < 2 ^ 32) →
  bad q = false →
  recs (pcs s') (queue s') (woken_of tok') →
  inv s' tok'.
Proof.
  intros [I1 I2 I3 I4 I5 I6 I7 I8 I9 I10 I11 I12] Ht Hq Hold Hnew C1 C2 C3 Hf Hm Hh Hr Ho Hw Hown Hd Hdq Hoff Hrec.
  split; try done.
  - intros u r' Hu. destruct (decide (u = t)) as [->|Hne]; [by simplify_eq|].
    destruct (Hold u r' Hne Hu) as (r & Hr0 & [= -> _ _ _] & _). rewrite (I4 u r Hr0).
    apply (mine_other _ _ _ _ Hm Hne).
  - intros u r' Hu. destruct (decide (u = t)) as [->|Hne]; [by simplify_eq|].
    destruct (Hold u r' Hne Hu) as (r & Hr0 & [= _ -> _ _] & _). rewrite (I5 u r Hr0).
    apply (mine_other _ _ _ _ Hm Hne).
  - intros u Hu. destruct (decide (u = t)) as [->|Hne]; [by eexists|].
    assert (tok = Holder u ∨ tok = Resp u) as Hu'.
    { destruct Hm as [->|[M1 M2]]; [done|]. destruct Hu as [->| ->]; by destruct Hne. }
    destruct (I6 u Hu') as [r Hr0]. destruct (Hnew u r Hne Hr0) as (r' & Hr' & _). by eexists.
  - assert (∀ u, u ≠ t → (∃ r, pcs s' !! u = Some r ∧ owns r = true) ↔ owner s = Some u) as Hoth.
    { intros u Hne. rewrite I9. split.
      - intros (r' & Hr' & E). destruct (Hold u r' Hne Hr') as (r & Hr0 & [= _ _ E' _] & _). exists r. split; congruence.
      - intros (r & Hr0 & E). destruct (Hnew u r Hne Hr0) as (r' & Hr' & [= _ _ E' _]). exists r'. split; congruence. }
    intros u. destruct (decide (u = t)) as [->|Hne].
    + assert (∀ s r, pcs s !! t = Some r → (∃ r, pcs s !! t = Some r ∧ owns r = true) ↔ owns r = true) as He.
      { clear. intros s r Hr. split; [intros (r' & Hr' & ?); by simplify_eq|eauto]. }
      rewrite (He _ _ Hq). destruct Hown as [[-> ->]|[_ ->]]; [by rewrite I9, (He _ _ Ht)|]. by destruct (owns q).
    + rewrite (Hoth u Hne). clear -Hown Hne.
      destruct Hown as [[-> _]|[[->| ->] ->]]; [done|..]; destruct (owns q); split; congruence.
  - intros u r' Hu Hou. destruct (decide (u = t)) as [->|Hne]; [simplify_eq; by apply Hdq|].
    destruct (Hold u r' Hne Hu) as (r & Hr0 & [= E1 _ E3 E4] & _).
    specialize (I10 u r Hr0 ltac:(congruence)).
    assert (depth s' = depth s) as ->.
    { destruct Hd as [?|Hd]; [done|]. exfalso. apply Hne.
      assert (tok = Holder u) as Htu.
      { apply (I4 u r Hr0). rewrite E3 in Hou. unfold owns in Hou. by apply andb_true_iff in Hou as [? _]. }
      destruct Hd as [Hd|Hd]; [congruence|]. destruct Hm as [->|[M1 M2]]; [congruence|]. rewrite Htu in M1. done. }
    assert (r' = UOwner ↔ r = UOwner) as E5 by (revert E4; clear; do 2 case_bool_decide; tauto || done).
    revert I10; clear -E5; do 2 case_decide; tauto.
  - intros u r' Hu. destruct (decide (u = t)) as [->|Hne]; [by simplify_eq|].
    destruct (Hold u r' Hne Hu) as (r & Hr0 & _ & ->). by eapply I11.
Qed.

(** One thread moves. *)
Lemma inv_one s tok s' tok' t p q :
  inv s tok → pcs s !! t = Some p → pcs s' = <[t := q]> (pcs s) →
  count s' = count s - weight p + weight q + (leaked s' - leaked s) → leaked s ≤ leaked s' → 0 ≤ count s' < 2 ^ 31 →
  (tok' = Free ↔ count s' = 0) →
  tok' = tok ∨ mine t tok ∧ mine t tok' →
  (holds q = true ↔ tok' = Holder t) → (resp q = true ↔ tok' = Resp t) →
  (handoff s' ≠ 0 ↔ tok' = Offered) →
  (∀ u, u ∈ woken s' ↔ tok' = Woken u) →
  owner s' = owner s ∧ owns q = owns p ∨ (owner s = None ∨ owner s = Some t) ∧ owner s' = (if owns q then Some t else None) →
  depth s' = depth s ∨ tok = Holder t ∨ tok' = Holder t →
  (owns q = true → if decide (q = UOwner) then depth s' = 0 else 0 < depth s' < 2 ^ 32) →
  bad q = false →
  recs (<[t := q]> (pcs s)) (queue s') (woken_of tok') →
  inv s' tok'.
Proof.
  intros Hi Ht Ep Hc Hl Hr Hf Hm Hh Hrs Ho Hw Hown Hd Hdq Hoff Hrec. pose proof (i_count _ _ Hi) as I1.
  pose proof (i_range _ _ Hi) as [I2 _].
  apply (inv_step s tok s' tok' t p q); try done; rewrite ?Ep; try done; try lia.
  - rewrite (lookup_ins _ _ _ _ _ _ Ht). auto.
  - intros u r Hu. rewrite (lookup_ins _ _ _ _ _ _ Ht). intros [[? _]|[_ ?]]; [done|eauto].
  - intros u r Hu. setoid_rewrite (lookup_ins _ _ _ _ _ _ Ht). eauto.
  - rewrite (total_insert _ _ _ _ _ Ht). lia.
Qed.

(** One thread moves and nothing else happens. *)
Lemma inv_quiet s tok t p q :
  inv s tok → pcs s !! t = Some p → class q = class p → weight q = weight p → p ≠ CSent → waits q = waits p →
  target q = target p → pushes q = pushes p → scans q = scans p → bad q = false → inv (go t q s) tok.
Proof.
  intros Hi Ht [= E1 E2 E3 E4] Ew Np Ewt Et Eps Es Eo. pose proof Hi as [I1 I2 I3 I4 I5 I6 I7 I8 I9 I10 I11 I12].
  apply (inv_one s tok _ tok t p q); cbn; try done; try lia.
  - by left.
  - rewrite E1. by apply I4.
  - rewrite E2. by apply I5.
  - by left.
  - intros Hq. specialize (I10 t p Ht ltac:(congruence)).
    assert (q = UOwner ↔ p = UOwner) as E5 by (revert E4; clear; do 2 case_bool_decide; tauto || done).
    revert I10. clear -E5. do 2 case_decide; tauto.
  - by apply recs_go with p.
Qed.

Section Facts.
Context (s : st) (tok : token) (Hi : inv s tok).

Lemma inv_holder t p : pcs s !! t = Some p → holds p = true → tok = Holder t.
Proof. apply (i_hold _ _ Hi). Qed.

Lemma inv_resp t p : pcs s !! t = Some p → resp p = true → tok = Resp t.
Proof. apply (i_resp _ _ Hi). Qed.

Lemma inv_owner u : owner s = Some u → tok = Holder u.
Proof.
  intros (p & Hp & [? _]%andb_true_iff)%(i_own _ _ Hi). by eapply inv_holder.
Qed.

Lemma inv_no_owner t : mine t tok → owner s = None ∨ owner s = Some t.
Proof.
  intros Hm. destruct (owner s) as [u|] eqn:E; [|by left]. rewrite (inv_owner u E) in Hm. right. by rewrite Hm.
Qed.

Lemma inv_not_woken t : tok ≠ Woken t → t ∉ woken s.
Proof. by rewrite (i_woken _ _ Hi). Qed.

Lemma inv_no_handoff : tok ≠ Offered → handoff s = 0.
Proof. intros Ht. destruct (Z.eq_dec (handoff s) 0) as [|H0]; [done|]. by apply (i_off _ _ Hi) in H0. Qed.

Lemma inv_pos : tok ≠ Free → 0 < count s.
Proof.
  intros Ht. destruct (Z.eq_dec (count s) 0) as [H0|]; [by apply (i_free _ _ Hi) in H0|].
  pose proof (proj2 (i_range _ _ Hi)). lia.
Qed.

(** With the token at a thread that looks for the next holder, no record of the
    queue is in anybody's hands. *)
Lemma inv_untargeted t w u r : tok = Resp t → w ∈ queue s → pcs s !! u = Some r → target r ≠ Some w.
Proof.
  intros Et Hw Hr Hg. destruct (r_target _ _ _ (i_recs _ _ Hi) u r w Hr Hg) as (_ & _ & Hs).
  specialize (Hs Hw). assert (tok = Holder u) as E by (apply (inv_holder u r Hr); by destruct r).
  congruence.
Qed.
End Facts.

Lemma int32_succ c : 0 ≤ c < 2 ^ 31 → 0 ≤ int32 (c + 1) → int32 (c + 1) = c + 1 ∧ c + 1 < 2 ^ 31.
Proof.
  intros Hc H. destruct (Z.eq_dec c (2 ^ 31 - 1)) as [->|]; [done|]. rewrite int32_small by lia. lia.
Qed.

Lemma queue_push w s : queue (push w s) = queue s ++ [w].
Proof. unfold queue, push. cbn [poplist pushlist set_queue]. by rewrite reverse_cons, (assoc_L (++)). Qed.

(** [pop] takes the oldest record. *)
Lemma pop_spec s :
  match queue s with
  | [] => pop s = (None, s)
  | w :: Q => ∃ pl ul, pop s = (Some w, set_queue pl ul s) ∧ queue (set_queue pl ul s) = Q
  end.
Proof.
  unfold queue, pop. destruct (poplist s) as [|w l] eqn:E; cbn [app].
  - destruct (reverse (pushlist s)) as [|w l]; [done|]. exists l, []. split; [done|].
    cbn [poplist pushlist set_queue]. by rewrite reverse_nil, app_nil_r.
  - by exists l, (pushlist s).
Qed.
