(* ===== verification/MutexSpec.v ===== *)
(** * The lock-free mutex is correct

    In every run one thread at most holds the mutex, no assertion fails, the loop
    of [unlock] runs twice at most, and threads that go on with their operations
    leave nobody waiting unless somebody holds the mutex. *)
From S2P Require Import Prelude Mutex.
Import Mutex.

Ltac st_simpl :=
  cbn [count depth owner poplist pushlist handoff sequence woken pcs leaked
       go add_count set_depth set_owner set_queue set_handoff set_sequence set_woken leak push
       holds resp owns weight waits target pushes scans offer bad woken_of mine b2z andb class return_to].

Section Steps.
Context (s : st) (tok : token) (Hi : inv s tok).

Lemma inv_lt : 0 ≤ count s < 2 ^ 31.
Proof. apply (i_range _ _ Hi). Qed.

Lemma inv_weight t p : pcs s !! t = Some p → weight p ≤ count s.
Proof.
  intros Ht. rewrite (i_count _ _ Hi). destruct (total_ge weight _ _ _ weight_nonneg Ht).
  destruct (i_range _ _ Hi). lia.
Qed.

(** The offer is taken. *)
Lemma inv_claim t p q tok' :
  pcs s !! t = Some p → handoff s ≠ 0 → class p = (false, false, false, false) → weight q = weight p →
  p ≠ CSent → waits q = waits p → target q = target p → pushes q = pushes p → scans q = scans p → bad q = false → owns q = false →
  tok' = Holder t ∨ tok' = Resp t → (holds q = true ↔ tok' = Holder t) → (resp q = true ↔ tok' = Resp t) →
  inv (go t q (set_handoff 0 s)) tok'.
Proof.
  intros Ht Ho [= C1 C2 C3 C4] Ew Np E1 E2 Eps E3 E4 E5 Htok Hh Hr. apply (i_off _ _ Hi) in Ho as Et.
  pose proof (inv_pos _ _ Hi ltac:(congruence)). pose proof inv_lt.
  eapply (inv_one _ _ _ tok' _ _ q Hi Ht); st_simpl; try done; try lia.
  - destruct Htok; subst; split; [done|lia|done|lia].
  - right. rewrite Et. by destruct Htok as [->| ->].
  - by destruct Htok as [->| ->].
  - intros u. rewrite (i_woken _ _ Hi), Et. by destruct Htok as [->| ->].
  - left. split; [done|congruence].
  - rewrite E5. done.
  - assert (woken_of tok' = woken_of tok) as -> by (rewrite Et; by destruct Htok as [->| ->]).
    eapply recs_go; [apply Hi|done..].
Qed.

(** The thread with the token takes a record off the queue. *)
Lemma inv_pop t p q w Q pl ul :
  pcs s !! t = Some p → resp p = true → holds p = false → queue s = w :: Q → queue (set_queue pl ul s) = Q →
  resp q = true → holds q = false →
  weight q = weight p → waits q = waits p → target p = None → target q = Some w → pushes q = None → scans q = false →
  bad q = false → inv (go t q (set_queue pl ul s)) tok.
Proof.
  intros Ht Rp Hp EQ EQ' Rq Hq Ew E1 T1 T2 Eps E2 E3. pose proof (inv_resp _ _ Hi t p Ht Rp) as Et.
  pose proof (i_recs _ _ Hi) as Hr. assert (w ∈ queue s) as Hw by (rewrite EQ; elem).
  assert (owns p = false ∧ owns q = false) as [O1 O2] by (unfold owns; by rewrite Hp, Hq).
  pose proof inv_lt.
  eapply (inv_one _ _ _ tok _ _ q Hi Ht); st_simpl; try done; try lia.
  - apply Hi.
  - by left.
  - rewrite Hq, Et. done.
  - apply Hi.
  - apply Hi.
  - left. split; congruence.
  - by rewrite O2.
  - change (queue (go t q (set_queue pl ul s))) with (queue (set_queue pl ul s)). rewrite EQ'.
    eapply recs_get; try done.
    + by intros ->.
    + by apply (r_in _ _ _ Hr).
    + by rewrite Et.
    + intros u r. by apply (inv_untargeted _ _ Hi t w).
    + pose proof (r_nodup _ _ _ Hr) as Hnd. rewrite EQ in Hnd. by apply NoDup_cons in Hnd as [_ ?].
    + intros u. rewrite EQ, elem_of_cons, E2. pose proof (r_nodup _ _ _ Hr) as Hnd. rewrite EQ in Hnd.
      apply NoDup_cons in Hnd as [? _]. split; [intros Hu; split; [by right|]; by intros ->|intros [[->|?] ?]; [naive_solver|done]].
Qed.

(** The record is its own: it has the lock. *)
Lemma inv_pop_self t Q pl ul :
  pcs s !! t = Some LPop → queue s = t :: Q → queue (set_queue pl ul s) = Q →
  inv (go t Own (set_queue pl ul s)) (Holder t).
Proof.
  intros Ht EQ EQ'. pose proof (inv_resp _ _ Hi t LPop Ht eq_refl) as Et. pose proof (i_recs _ _ Hi) as Hr.
  pose proof inv_lt. pose proof (inv_pos _ _ Hi ltac:(congruence)).
  pose proof (r_nodup _ _ _ Hr) as Hnd. rewrite EQ in Hnd. apply NoDup_cons in Hnd as [Hn Hnd].
  eapply (inv_one _ _ _ (Holder t) _ _ Own Hi Ht); st_simpl; try done; try lia.
  - split; [done|lia].
  - right. by rewrite Et.
  - rewrite (inv_no_handoff _ _ Hi); [done|congruence].
  - intros u. rewrite (i_woken _ _ Hi), Et. done.
  - by left.
  - change (queue (go t Own (set_queue pl ul s))) with (queue (set_queue pl ul s)). rewrite EQ'.
    eapply (recs_leave _ (queue s)); try done.
    + intros u r. apply (inv_untargeted _ _ Hi t); [done|]. rewrite EQ. elem.
    + left. by rewrite Et.
    + intros u. rewrite EQ, elem_of_cons. split; [intros Hu; split; [by right|by intros ->]|naive_solver].
Qed.

(** The record is woken. *)
Lemma inv_wake t p q w :
  pcs s !! t = Some p → resp p = true → holds p = false → target p = Some w → scans p = false →
  resp q = false → holds q = false → weight q = weight p → waits q = waits p → target q = None → bad q = false →
  wake t w q s = go t q (set_woken ({[w]} ∪ woken s) s) ∧ inv (go t q (set_woken ({[w]} ∪ woken s) s)) (Woken w).
Proof.
  intros Ht Rp Hp T1 S1 Rq Hq Ew E1 T2 E3. pose proof (inv_resp _ _ Hi t p Ht Rp) as Et.
  pose proof (i_recs _ _ Hi) as Hr. assert (∀ u, u ∉ woken s) as Hnw.
  { intros u. rewrite (i_woken _ _ Hi), Et. done. }
  assert (owns p = false ∧ owns q = false) as [O1 O2] by (unfold owns; by rewrite Hp, Hq).
  pose proof inv_lt. pose proof (inv_pos _ _ Hi ltac:(congruence)).
  destruct (r_target _ _ _ Hr t p w Ht T1) as (_ & _ & Hsc).
  split; [unfold wake; by rewrite decide_False by apply Hnw|].
  eapply (inv_one _ _ _ (Woken w) _ _ q Hi Ht); st_simpl; try done; try lia.
  - split; [done|lia].
  - right. by rewrite Et.
  - by rewrite Hq.
  - by rewrite Rq.
  - rewrite (inv_no_handoff _ _ Hi); [done|congruence].
  - intros u. specialize (Hnw u). rewrite elem_of_union, elem_of_singleton. split; [intros [->|?]; done|intros [= ->]; by left].
  - left. split; congruence.
  - by rewrite O2.
  - eapply (recs_put _ (queue s)); try done.
    + apply Hr.
    + intros u. rewrite Et. split; [by left|intros [?|[_ ?]]; done].
    + right. rewrite Et. split_and!; [done..|]. intros Hin. rewrite S1 in Hsc. by specialize (Hsc Hin).
Qed.

(** A thread that was woken has the lock. *)
Lemma inv_awake t p s' :
  pcs s !! t = Some p → p = LWait ∨ p = CSent → awake t s = Some s' → inv s' (Holder t).
Proof.
  intros Ht Hp Ha. unfold awake in Ha. case_decide as Hw; [|done]. injection Ha as <-.
  apply (i_woken _ _ Hi) in Hw as Et. pose proof inv_lt. pose proof (inv_pos _ _ Hi ltac:(congruence)).
  pose proof (i_recs _ _ Hi) as Hr. rewrite Et in Hr.
  assert (weight p = 1 ∧ owns p = false ∧ target p = None) as (W & O & T) by (by destruct Hp as [->| ->]).
  eapply (inv_one _ _ _ (Holder t) _ _ Own Hi Ht); st_simpl; try done; try lia.
  - split; [done|lia].
  - right. by rewrite Et.
  - rewrite (inv_no_handoff _ _ Hi); [done|congruence].
  - intros u. rewrite elem_of_difference, elem_of_singleton, (i_woken _ _ Hi), Et. naive_solver.
  - left. split; congruence.
  - eapply (recs_leave _ (queue s)); try done.
    + intros u r Hu Hg. by destruct (r_target _ _ _ Hr u r t Hu Hg) as [? _].
    + by right.
    + apply Hr.
    + intros u. split; [|naive_solver]. intros Hu. split; [done|]. intros ->. by destruct (r_in _ _ _ Hr t Hu) as [? _].
Qed.

(** The new holder writes its name. *)
Lemma inv_own t : pcs s !! t = Some Own → inv (go t In (set_depth 1 (set_owner (Some t) s))) tok.
Proof.
  intros Ht. pose proof (inv_holder _ _ Hi t Own Ht eq_refl) as Et. pose proof inv_lt.
  eapply (inv_one _ _ _ tok _ _ In Hi Ht); st_simpl; try done; try lia; try apply (i_free _ _ Hi); try apply (i_off _ _ Hi); try apply (i_woken _ _ Hi).
  - by left.
  - rewrite Et. done.
  - right. split; [|done]. apply (inv_no_owner _ _ Hi). by rewrite Et.
  - by right; left.
  - eapply recs_go; [apply Hi|done..].
Qed.

(** The holder enters once more. *)
Lemma inv_again t p x :
  pcs s !! t = Some p → p = LRec ∨ p = TOwner true → x = weight p - 1 → depth s < 2 ^ 32 - 1 →
  inv (go t In (set_depth (wrap32 (depth s + 1)) (mk (count s - x) (depth s) (owner s) (poplist s) (pushlist s)
    (handoff s) (sequence s) (woken s) (pcs s) (leaked s)))) tok.
Proof.
  intros Ht Hp -> Hd. assert (holds p = true ∧ owns p = true ∧ 1 ≤ weight p ∧ p ≠ UOwner) as (Hh & Ho & Hw & Hu)
    by (by destruct Hp as [->| ->]).
  pose proof (inv_holder _ _ Hi t p Ht Hh) as Et. pose proof inv_lt. pose proof (inv_weight t p Ht).
  pose proof (i_depth _ _ Hi t p Ht Ho) as Hdp. rewrite decide_False in Hdp by done.
  eapply (inv_one _ _ _ tok _ _ In Hi Ht); st_simpl; try done; try lia; try apply (i_free _ _ Hi); try apply (i_off _ _ Hi); try apply (i_woken _ _ Hi).
  - rewrite Et. split; [done|lia].
  - by left.
  - rewrite Et. done.
  - left. split; congruence.
  - by right; left.
  - intros _. rewrite wrap32_small by lia. rewrite decide_False by done. lia.
  - eapply recs_go; [apply Hi|by destruct Hp as [->| ->]..].
Qed.

(** A record is put into the queue: the thread's own, or that of a thread it sends
    the lock to. *)
Lemma inv_push t p q w :
  pcs s !! t = Some p → class q = class p → p ≠ UOwner → weight q = weight p → bad q = false → target q = None →
  p = LPush ∧ q = LLoad ∧ w = t ∨ target p = Some w ∧ scans p = false ∧ waits q = waits p →
  inv (go t q (push w s)) tok.
Proof.
  intros Ht [= C1 C2 C3 C4] Hu Ew Eo T2 Hcase. pose proof inv_lt. pose proof (i_recs _ _ Hi) as Hr.
  eapply (inv_one _ _ _ tok _ _ q Hi Ht); st_simpl; try done; try lia; try apply (i_free _ _ Hi); try apply (i_off _ _ Hi); try apply (i_woken _ _ Hi).
  - by left.
  - rewrite C1. by apply (i_hold _ _ Hi).
  - rewrite C2. by apply (i_resp _ _ Hi).
  - by left.
  - rewrite C3. intros Ho. pose proof (i_depth _ _ Hi t p Ht Ho) as Hd. rewrite decide_False in Hd by done.
    rewrite decide_False; [done|]. intros ->. symmetry in C4.
    rewrite (bool_decide_eq_true_2 (UOwner = UOwner)) in C4 by done. by apply bool_decide_eq_true in C4.
  - change (queue (go t q (push w s))) with (queue (push w s)). rewrite queue_push.
    destruct Hcase as [(-> & -> & ->)|(T1 & S1 & E1)]; [by eapply recs_push_self|].
    destruct (r_target _ _ _ Hr t p w Ht T1) as (_ & _ & Hsc). rewrite S1 in Hsc.
    assert (w ∉ queue s) as Hn by (intros Hn; by specialize (Hsc Hn)).
    eapply recs_put; try done.
    + rewrite <- Permutation_cons_append. constructor; [done|apply Hr].
    + intros u. rewrite elem_of_app, list_elem_of_singleton. naive_solver.
    + by left.
Qed.

(** *** [lock] *)

Lemma lock_inv t p s' :
  pcs s !! t = Some p → (p = LPop → queue s ≠ []) → lock_step t p s = Some s' → depth s < 2 ^ 32 - 1 →
  ∃ tok', inv s' tok'.
Proof.
  intros Ht Hpop Hs Hd. unfold lock_step in Hs. destruct p as [| | | | |r| | | |h|h|h| |w| | |r| |h| | | | | |h|h|h|w| | | | | | | | |];
    try discriminate Hs; try (injection Hs as <-).
  - assert (owns (LOwner r) = true ↔ owner s = Some t) as Ho.
    { rewrite (i_own _ _ Hi). split; [eauto|intros (p & Hp & ?); by simplify_eq]. }
    exists tok. apply inv_quiet with (LOwner r); try done; case_decide as E; destruct r; try done; exfalso; naive_solver.
  - exists tok. pose proof inv_lt. pose proof (inv_weight t LRec Ht) as Hw. cbn in Hw.
    unfold add_count. rewrite int32_small by lia. apply (inv_again t LRec 1); auto.
  - exists tok. apply inv_push with LPush; auto.
  - exists tok. destruct (Z.eqb_spec (handoff s) 0); apply inv_quiet with LLoad; try done. by apply Z.eqb_neq.
  - exists tok. pose proof (i_good _ _ Hi t _ Ht).
    destruct (poplist s); apply inv_quiet with (LEmpty1 h); try done.
  - exists tok. pose proof (i_good _ _ Hi t _ Ht).
    destruct (pushlist s); apply inv_quiet with (LEmpty2 h); try done.
  - pose proof (proj1 (Z.eqb_neq _ _) (i_good _ _ Hi t _ Ht)). destruct (Z.eqb_spec (handoff s) h) as [<-|].
    + exists (Resp t). apply inv_claim with (LCas (handoff s)); auto; try done.
    + exists tok. by apply inv_quiet with (LCas h).
  - pose proof (inv_resp _ _ Hi t LPop Ht eq_refl) as Et. pose proof (pop_spec s) as Hq.
    destruct (queue s) as [|w Q] eqn:EQ; [by destruct (Hpop eq_refl)|]. destruct Hq as (pl & ul & Ep & EQ').
    rewrite Ep in Hs. injection Hs as <-. case_decide as Hw; [subst w|].
    + exists (Holder t). eapply inv_pop_self; eauto.
    + rewrite decide_False by (apply (inv_not_woken _ _ Hi); congruence). exists tok. by eapply (inv_pop t LPop).
  - exists (Woken w). destruct (inv_wake t (LWake w) LWait w) as [-> ?]; done.
  - exists (Holder t). eapply inv_awake; eauto.
  - exists tok. by apply inv_own.
Qed.

(** *** [try_lock] *)

Lemma try_lock_inv t p s' :
  pcs s !! t = Some p → try_lock_step t p s = Some s' → depth s < 2 ^ 32 - 1 → 0 ≤ count s' →
  ∃ tok', inv s' tok'.
Proof.
  intros Ht Hs Hd Hc. unfold try_lock_step in Hs. destruct p as [| | | | |r| | | |h|h|h| |w| | |r| |h| | | | | |h|h|h|w| | | | | | | | |];
    try discriminate Hs; injection Hs as <-.
  - assert (owns (TOwner r) = true ↔ owner s = Some t) as Ho.
    { rewrite (i_own _ _ Hi). split; [eauto|intros (p & Hp & ?); by simplify_eq]. }
    exists tok. case_decide as E.
    + destruct r; [|by apply Ho in E]. pose proof (inv_again t (TOwner true) 0 Ht (or_intror eq_refl) eq_refl Hd) as H.
      rewrite Z.sub_0_r in H. exact H.
    + destruct r; [by destruct E; apply Ho|]. by apply inv_quiet with (TOwner false).
  - exists tok. destruct (Z.eqb_spec (handoff s) 0); apply inv_quiet with TLoad; try done. by apply Z.eqb_neq.
  - pose proof (proj1 (Z.eqb_neq _ _) (i_good _ _ Hi t _ Ht)). destruct (Z.eqb_spec (handoff s) h) as [<-|].
    + exists (Holder t). apply inv_claim with (TCas (handoff s)); auto; try done.
    + exists tok. by apply inv_quiet with (TCas h).
  - exists tok. pose proof (inv_holder _ _ Hi t TAdd Ht eq_refl) as Et. pose proof inv_lt as Hl.
    destruct (int32_succ (count s) Hl Hc) as [E1 E2].
    eapply (inv_one _ _ _ tok _ _ Own Hi Ht); st_simpl; rewrite ?E1; try done; try lia;
      try apply (i_off _ _ Hi); try apply (i_woken _ _ Hi).
    + rewrite Et. split; [done|lia].
    + by left.
    + by rewrite Et.
    + by left.
    + eapply recs_go; [apply Hi|done..].
Qed.

(** *** [unlock] *)

Lemma inv_release t q :
  pcs s !! t = Some USub → q = (if count s =? 1 then Out else UPop false) →
  inv (go t q (add_count (-1) s)) (if count s =? 1 then Free else Resp t).
Proof.
  intros Ht ->. pose proof (inv_holder _ _ Hi t USub Ht eq_refl) as Et. pose proof inv_lt.
  pose proof (inv_weight t USub Ht) as Hw. cbn in Hw.
  eapply (inv_one _ _ _ _ _ _ _ Hi Ht); st_simpl; rewrite ?int32_small by lia; try done; try lia;
    destruct (Z.eqb_spec (count s) 1); try done; try lia; try (split; congruence || lia).
  - cbn. lia.
  - cbn. lia.
  - right. by rewrite Et.
  - right. by rewrite Et.
  - rewrite (inv_no_handoff _ _ Hi); [done|congruence].
  - rewrite (inv_no_handoff _ _ Hi); [done|congruence].
  - intros u. rewrite (i_woken _ _ Hi), Et. done.
  - intros u. rewrite (i_woken _ _ Hi), Et. done.
  - by left.
  - by left.
  - assert (woken_of Free = woken_of tok) as -> by by rewrite Et. eapply recs_go; [apply Hi|done..].
  - assert (woken_of (Resp t) = woken_of tok) as -> by by rewrite Et. eapply recs_go; [apply Hi|done..].
Qed.

Lemma inv_offer t n :
  pcs s !! t = Some UHand → n ≠ 0 → inv (go t (UEmpty1 n) (set_handoff n (set_sequence n s))) Offered.
Proof.
  intros Ht Hn. pose proof (inv_resp _ _ Hi t UHand Ht eq_refl) as Et. pose proof inv_lt.
  pose proof (inv_pos _ _ Hi ltac:(congruence)).
  eapply (inv_one _ _ _ Offered _ _ (UEmpty1 n) Hi Ht); st_simpl; try done; try lia.
  - split; [done|lia].
  - right. by rewrite Et.
  - intros u. rewrite (i_woken _ _ Hi), Et. done.
  - by left.
  - assert (None = woken_of tok) as -> by by rewrite Et. eapply recs_go; [apply Hi|done..].
Qed.

Lemma next_sequence n : 0 ≤ n < 2 ^ 32 →
  let m := wrap32 (n + 1) in let m := if m =? 0 then wrap32 (m + 1) else m in 0 < m < 2 ^ 32 ∧ m ≠ n.
Proof.
  intros Hn. cbn zeta. destruct (Z.eq_dec n (2 ^ 32 - 1)) as [->|]; [done|]. rewrite wrap32_small by lia.
  destruct (Z.eqb_spec (n + 1) 0); lia.
Qed.

Lemma unlock_inv t p s' :
  pcs s !! t = Some p → 0 ≤ sequence s < 2 ^ 32 → unlock_step t p s = Some s' → ∃ tok', inv s' tok'.
Proof.
  intros Ht Hsq Hs. unfold unlock_step in Hs. destruct p as [| | | | |r| | | |h|h|h| |w| | |r| |h| | | |b| |h|h|h|w| | | | | | | | |];
    try discriminate Hs; try (injection Hs as <-).
  - exists tok. pose proof (inv_holder _ _ Hi t UOwner Ht eq_refl) as Et. pose proof inv_lt.
    eapply (inv_one _ _ _ tok _ _ USub Hi Ht); st_simpl; try done; try lia;
      try apply (i_free _ _ Hi); try apply (i_off _ _ Hi); try apply (i_woken _ _ Hi).
    + by left.
    + rewrite Et. done.
    + right. split; [|done]. apply (inv_no_owner _ _ Hi). by rewrite Et.
    + eapply recs_go; [apply Hi|done..].
  - eexists. by apply inv_release.
  - exists tok. pose proof (pop_spec s) as Hq. destruct (queue s) as [|w Q] eqn:EQ.
    + rewrite Hq in Hs. injection Hs as <-. by apply inv_quiet with (UPop b).
    + destruct Hq as (pl & ul & Ep & EQ'). rewrite Ep in Hs. injection Hs as <-.
      rewrite decide_False; [by eapply (inv_pop t (UPop b))|]. intros ->.
      destruct (r_in _ _ _ (i_recs _ _ Hi) t) as (_ & r & Hr & Hw); [rewrite EQ; elem|]. by simplify_eq.
  - exists Offered. apply inv_offer; [done|]. destruct (next_sequence _ Hsq). lia.
  - exists tok. pose proof (i_good _ _ Hi t _ Ht).
    destruct (poplist s); apply inv_quiet with (UEmpty1 h); try done.
  - exists tok. pose proof (i_good _ _ Hi t _ Ht).
    destruct (pushlist s); apply inv_quiet with (UEmpty2 h); try done.
  - pose proof (proj1 (Z.eqb_neq _ _) (i_good _ _ Hi t _ Ht)). destruct (Z.eqb_spec (handoff s) h) as [<-|].
    + exists (Resp t). apply inv_claim with (UCas (handoff s)); auto; try done.
    + exists tok. by apply inv_quiet with (UCas h).
  - exists (Woken w). destruct (inv_wake t (UWake w) Out w) as [-> ?]; done.
Qed.

(** *** [send_lock] and [send_lock_unless_already_waiting] *)

Lemma send_lock_inv t p s' :
  pcs s !! t = Some p → (∀ r, p = SPop r → queue s ≠ []) → send_lock_step t p s = Some s' → ∃ tok', inv s' tok'.
Proof.
  intros Ht Hpop Hs. unfold send_lock_step in Hs. destruct p as [| | | | |r| | | |h|h|h| |w| | |r| |h| | | |b| |h|h|h|w|r w|r|r h|r h|r h|r|r w| |];
    try discriminate Hs; try (injection Hs as <-).
  - exists tok. apply inv_push with (SPush r w); try done; destruct r; auto.
  - exists tok. destruct (Z.eqb_spec (handoff s) 0); apply inv_quiet with (SLoad r); try done; destruct r; try done;
      by apply Z.eqb_neq.
  - exists tok. pose proof (i_good _ _ Hi t _ Ht).
    destruct (poplist s); apply inv_quiet with (SEmpty1 r h); try done; destruct r; try done.
  - exists tok. pose proof (i_good _ _ Hi t _ Ht).
    destruct (pushlist s); apply inv_quiet with (SEmpty2 r h); try done; destruct r; try done.
  - pose proof (proj1 (Z.eqb_neq _ _) (i_good _ _ Hi t _ Ht)). destruct (Z.eqb_spec (handoff s) h) as [<-|].
    + destruct r.
      { pose proof (inv_holder _ _ Hi t _ Ht eq_refl). apply (i_off _ _ Hi) in H. congruence. }
      exists (Resp t). apply inv_claim with (SCas false (handoff s)); auto; try done.
    + exists tok. apply inv_quiet with (SCas r h); try done; by destruct r.
  - pose proof (pop_spec s) as Hq. destruct (queue s) as [|w Q] eqn:EQ; [by destruct (Hpop r eq_refl)|].
    destruct Hq as (pl & ul & Ep & EQ'). rewrite Ep in Hs. injection Hs as <-.
    pose proof (inv_resp _ _ Hi t _ Ht eq_refl).
    destruct r; [by pose proof (inv_holder _ _ Hi t _ Ht eq_refl); congruence|].
    exists tok. by eapply (inv_pop t (SPop false)).
  - pose proof (inv_resp _ _ Hi t _ Ht eq_refl).
    destruct r; [by pose proof (inv_holder _ _ Hi t _ Ht eq_refl); congruence|].
    exists (Woken w). cbn [return_to]. destruct (inv_wake t (SWake false w) Out w) as [-> ?]; done.
Qed.

Lemma send_lock_unless_inv t p s' :
  pcs s !! t = Some p → send_lock_unless_already_waiting_step t p s = Some s' → ∃ tok', inv s' tok'.
Proof.
  intros Ht Hs. exists tok. unfold send_lock_unless_already_waiting_step in Hs. pose proof inv_lt.
  destruct p as [| | | | |r| | | |h|h|h| |w| | |r| |h| | | |b| |h|h|h|w|r w|r|r h|r h|r h|r|r w|w|w];
    try discriminate Hs; injection Hs as <-.
  - pose proof (inv_holder _ _ Hi t _ Ht eq_refl) as Et. pose proof (i_depth _ _ Hi t _ Ht eq_refl) as Hd.
    rewrite decide_False in Hd by done. pose proof (i_recs _ _ Hi) as Hr.
    assert (∀ q, q = In ∧ w ∈ queue s ∨ q = WPush w ∧ w ∉ queue s → inv (go t q s) tok) as Hgo.
    { intros q Hq. assert (class q = class (WScan w) ∧ weight q = 1 ∧ bad q = false) as ([= C1 C2 C3 C4] & C5 & C6)
        by (by destruct Hq as [[-> _]|[-> _]]).
      eapply (inv_one _ _ _ tok _ _ q Hi Ht); st_simpl; try done; try lia;
        try apply (i_free _ _ Hi); try apply (i_off _ _ Hi); try apply (i_woken _ _ Hi).
      - by left.
      - by rewrite C2, Et.
      - by left; rewrite C3.
      - intros _. rewrite decide_False; [done|]. by destruct Hq as [[-> _]|[-> _]].
      - destruct Hq as [[-> Hw]|[-> Hw]].
        + eapply recs_put; try done; [apply Hr| |by left]. intros u. split; [by left|intros [?|[-> _]]; done].
        + eapply recs_scan; try done. by intros ? [= <-]. }
    case_decide; apply Hgo; auto.
  - apply inv_push with (WPush w); try done. right. done.
Qed.
End Steps.

(** *** Calls *)

Section Calls.
Context (s : st) (tok : token) (Hi : inv s tok).

(** The lock is asked for: [x] is added to [count]. *)
Lemma inv_ask t p q tok' x lk :
  pcs s !! t = Some p → p ≠ CSent → waits q = waits p → target q = target p → pushes q = pushes p → scans q = scans p →
  bad q = false → owns q = owns p → p ≠ UOwner → q ≠ UOwner → weight q = weight p + x - (lk - leaked s) → leaked s ≤ lk → 0 ≤ x →
  count s + x < 2 ^ 31 →
  tok' = tok ∧ (0 < count s ∨ x = 0) ∨ tok = Free ∧ tok' = Holder t ∧ 0 < x →
  (holds q = true ↔ tok' = Holder t) → (resp q = true ↔ tok' = Resp t) →
  inv (go t q (mk (count s + x) (depth s) (owner s) (poplist s) (pushlist s) (handoff s) (sequence s) (woken s) (pcs s) lk)) tok'.
Proof.
  intros Ht Nc E1 E2 Eps E3 E4 E5 Np Nq Ew Hlk Hx Hlt Htok Hh Hr. pose proof (inv_lt _ _ Hi).
  assert (woken_of tok' = woken_of tok) as Ewk by (by destruct Htok as [[-> _]|(-> & -> & _)]).
  eapply (inv_one _ _ _ tok' _ _ q Hi Ht); st_simpl; try done; try lia.
  - destruct Htok as [[-> Hc]|(-> & -> & Hc)]; [|split; [done|lia]]. rewrite (i_free _ _ Hi). lia.
  - destruct Htok as [[-> _]|(-> & -> & _)]; [by left|by right].
  - rewrite (i_off _ _ Hi). by destruct Htok as [[-> _]|(-> & -> & _)].
  - intros u. rewrite (i_woken _ _ Hi). by destruct Htok as [[-> _]|(-> & -> & _)].
  - by left.
  - intros Ho. rewrite decide_False by done. rewrite E5 in Ho. pose proof (i_depth _ _ Hi t p Ht Ho) as Hd.
    by rewrite decide_False in Hd.
  - rewrite Ewk. by eapply recs_go; [apply Hi|..].
Qed.

Lemma lock_call_inv t p r s' :
  pcs s !! t = Some p → p = return_to r → s' = lock t r s ∨ s' = try_lock t r s → 0 ≤ count s' → ∃ tok', inv s' tok'.
Proof.
  intros Ht -> Hs Hc. pose proof (inv_lt _ _ Hi) as Hl.
  assert (count s = 0 → tok = Free ∧ r = false) as H0.
  { intros H0. apply (i_free _ _ Hi) in H0 as Et. split; [done|]. destruct r; [|done].
    pose proof (inv_holder _ _ Hi t In Ht eq_refl). congruence. }
  assert (count s ≠ 0 → (if r then tok = Holder t else tok ≠ Holder t) ∧ tok ≠ Resp t) as H1.
  { intros H1. pose proof (i_hold _ _ Hi t _ Ht) as Hh. pose proof (i_resp _ _ Hi t _ Ht) as Hr.
    destruct r; cbn in *; split; naive_solver. }
  destruct Hs as [->| ->]; [unfold lock in *; cbn in Hc|unfold try_lock in *].
  - destruct (int32_succ _ Hl Hc) as [E1 E2]. unfold add_count. rewrite E1.
    destruct (Z.eqb_spec (count s) 0) as [Hz|Hz].
    + destruct (H0 Hz) as [Et ->]. exists (Holder t). apply (inv_ask t Out Own); try done; cbn; try lia; auto with lia.
    + destruct (H1 Hz) as [H2 H3]. exists tok. apply (inv_ask t (return_to r) (LOwner r)); destruct r; try done; cbn; try lia;
        try (split; congruence); (left; split; [done|lia]).
  - destruct (Z.eqb_spec (count s) 0) as [Hz|Hz].
    + cbn in Hc. destruct (int32_succ _ Hl Hc) as [E1 E2]. unfold add_count. rewrite E1.
      destruct (H0 Hz) as [Et ->]. exists (Holder t). apply (inv_ask t Out Own); try done; cbn; try lia; auto with lia.
    + exists tok. destruct r; by eapply inv_quiet.
Qed.

Lemma unlock_call_inv t : pcs s !! t = Some In → inv (unlock t s) tok.
Proof.
  intros Ht. pose proof (inv_holder _ _ Hi t In Ht eq_refl) as Et. pose proof (i_depth _ _ Hi t _ Ht eq_refl) as Hd.
  rewrite decide_False in Hd by done. pose proof (inv_lt _ _ Hi).
  unfold unlock. rewrite decide_True by (apply (i_own _ _ Hi); eauto). rewrite (proj2 (Z.eqb_neq _ _)) by lia.
  rewrite wrap32_small by lia. cbn zeta. set (q := if _ =? 0 then UOwner else In).
  assert (class q = (true, false, true, bool_decide (q = UOwner)) ∧ weight q = 1 ∧ bad q = false ∧ target q = None ∧
    waits q = false ∧ scans q = false ∧ pushes q = None) as ([= C1 C2 C3] & C4 & C5 & C6 & C7 & C8 & C9) by (unfold q; by case_match).
  eapply (inv_one _ _ _ tok _ _ q Hi Ht); st_simpl; try done; try lia;
    try apply (i_free _ _ Hi); try apply (i_off _ _ Hi); try apply (i_woken _ _ Hi).
  - by left.
  - by rewrite C2, Et.
  - by left; rewrite C3.
  - by right; left.
  - intros _. unfold q. destruct (Z.eqb_spec (depth s - 1) 0); [rewrite decide_True by done|rewrite decide_False by done]; lia.
  - by eapply recs_go; [apply Hi|..].
Qed.

(** The lock is sent to a thread that waits elsewhere. *)
Lemma inv_send t p q w tok' :
  pcs s !! t = Some p → p = Out ∨ p = In → pcs s !! w = Some CWait → target q = Some w → waits q = false →
  bad q = false → owns q = owns p → weight q = weight p → q ≠ UOwner → 0 ≤ int32 (count s + 1) →
  tok' = tok ∧ 0 < count s ∨ tok = Free ∧ tok' = Resp t →
  (holds q = true ↔ tok' = Holder t) → (resp q = true ↔ tok' = Resp t) →
  inv (go t q (add_count 1 (go w CSent s))) tok'.
Proof.
  intros Ht Hp Hw T2 W2 O2 Ho Ew Nq Hc Htok Hh Hr. pose proof (inv_lt _ _ Hi) as Hl.
  destruct (int32_succ _ Hl Hc) as [E1 E2]. assert (w ≠ t) as Hne by (intros ->; destruct Hp as [->| ->]; congruence).
  assert (<[w := CSent]> (pcs s) !! t = Some p) as Ht' by by rewrite list_lookup_insert_ne.
  pose proof (i_count _ _ Hi) as HC. pose proof (i_range _ _ Hi) as [HL _].
  assert (woken_of tok' = woken_of tok) as Ewk by (by destruct Htok as [[-> _]|(-> & ->)]).
  eapply (inv_step _ _ _ tok' _ _ q Hi Ht); st_simpl; rewrite ?E1; try done; try lia.
  - rewrite (lookup_ins _ _ _ _ _ _ Ht'). auto.
  - intros u r Hu. rewrite (lookup_ins _ _ _ _ _ _ Ht'), (lookup_ins _ _ _ _ _ _ Hw).
    intros [[? _]|[_ [[-> ->]|[_ ?]]]]; [done|by exists CWait|eauto].
  - intros u r Hu Hr0. setoid_rewrite (lookup_ins _ _ _ _ _ _ Ht'). setoid_rewrite (lookup_ins _ _ _ _ _ _ Hw).
    destruct (decide (u = w)) as [->|]; [|exists r; auto 6]. exists CSent. simplify_eq. auto 6.
  - rewrite (total_insert _ _ _ _ _ Ht'), (total_insert _ _ _ _ _ Hw), Ew. cbn. lia.
  - destruct Htok as [[-> Hc0]|(-> & ->)]; [|split; [done|lia]]. rewrite (i_free _ _ Hi). lia.
  - destruct Htok as [[-> _]|(-> & ->)]; [by left|by right].
  - rewrite (i_off _ _ Hi). by destruct Htok as [[-> _]|(-> & ->)].
  - intros u. rewrite (i_woken _ _ Hi). by destruct Htok as [[-> _]|(-> & ->)].
  - by left.
  - intros Hoq. rewrite decide_False by done. rewrite Ho in Hoq. pose proof (i_depth _ _ Hi t p Ht Hoq) as Hd.
    by rewrite decide_False in Hd by (by destruct Hp as [->| ->]).
  - rewrite Ewk. eapply recs_send; try done; [apply Hi|by destruct Hp as [->| ->]..].
Qed.

Lemma send_lock_call_inv t w r :
  pcs s !! t = Some (return_to r) → pcs s !! w = Some CWait → 0 ≤ count (send_lock t w r s) →
  ∃ tok', inv (send_lock t w r s) tok'.
Proof.
  intros Ht Hw Hc. unfold send_lock in *. cbn in Hc.
  pose proof (i_hold _ _ Hi t _ Ht) as Hh. pose proof (i_resp _ _ Hi t _ Ht) as Hr. pose proof (inv_lt _ _ Hi).
  destruct (Z.eqb_spec (count s) 0) as [Hz|Hz].
  - exists (Resp t). apply (i_free _ _ Hi) in Hz as Et. destruct r; [by pose proof (proj1 Hh eq_refl); congruence|].
    eapply inv_send; try done; auto.
  - exists tok. eapply inv_send; try done; [destruct r; auto..|left; split; [done|lia]| |]; destruct r; cbn in *; done.
Qed.

(** A thread that is already in the queue is left there. *)
Lemma inv_scan t w :
  pcs s !! t = Some In → pcs s !! w = Some LWait → 0 ≤ int32 (count s + 1) → inv (go t (WScan w) (add_count 1 (leak s))) tok.
Proof.
  intros Ht Hw Hc. pose proof (inv_lt _ _ Hi) as Hl. destruct (int32_succ _ Hl Hc) as [E1 E2].
  pose proof (inv_holder _ _ Hi t In Ht eq_refl) as Et. pose proof (i_recs _ _ Hi) as Hr.
  pose proof (i_depth _ _ Hi t _ Ht eq_refl) as Hd. rewrite decide_False in Hd by done.
  assert (∀ u r, pcs s !! u = Some r → target r ≠ Some w) as Hno.
  { intros u r Hu Hg. destruct (holds r) eqn:Eh.
    - assert (u = t) as -> by (pose proof (inv_holder _ _ Hi u r Hu Eh); congruence). by simplify_eq.
    - destruct (resp r) eqn:Er; [pose proof (inv_resp _ _ Hi u r Hu Er); congruence|].
      assert (∃ b, r = SPush b w) as [b ->].
      { destruct r; try discriminate; simplify_eq/=; eauto. }
      pose proof (r_sent _ _ _ Hr u _ w Hu eq_refl). congruence. }
  eapply (inv_one _ _ _ tok _ _ (WScan w) Hi Ht); st_simpl; rewrite ?E1; try done; try lia;
    try apply (i_off _ _ Hi); try apply (i_woken _ _ Hi).
  - rewrite Et. split; [done|lia].
  - by left.
  - by rewrite Et.
  - by left.
  - eapply recs_get; try done.
    + eauto.
    + by rewrite Et.
    + apply Hr.
    + intros u. split; [done|by intros [? _]].
Qed.
End Calls.

(** ** Nobody is forgotten

    The thread has found the pop list empty; has found a record; will find one. *)
Definition half (p : pc) : option Z :=
  match p with LEmpty2 h | UEmpty2 h | SEmpty2 _ h => Some h | _ => None end.
Definition ready (p : pc) : option Z :=
  match p with LCas h | UCas h | SCas _ h => Some h | _ => None end.
Definition pops (p : pc) : bool :=
  match p with LPop | UPop true | SPop _ => true | _ => false end.

(** The thread will look at the offer [h]. *)
Definition active (h : Z) (p : pc) : bool :=
  match p with
  | LLoad | SLoad _ => true
  | LEmpty1 h' | LEmpty2 h' | LCas h' | UEmpty1 h' | UEmpty2 h' | UCas h'
  | SEmpty1 _ h' | SEmpty2 _ h' | SCas _ h' => h' =? h
  | _ => false
  end.

Record offers (pl ul : list nat) (hd sq : Z) (l : list pc) : Prop := {
  o_seq : 0 ≤ sq < 2 ^ 32;
  o_hand : 0 ≤ hd;
  o_old t p h : l !! t = Some p → offer p = Some h → 0 < h;
  o_half t p : l !! t = Some p → half p = Some hd → pl = [];
  o_ready t p : l !! t = Some p → ready p = Some hd → pl ++ reverse ul ≠ [];
  o_pops t p : l !! t = Some p → pops p = true → pl ++ reverse ul ≠ [];
  o_active : hd ≠ 0 → pl ++ reverse ul ≠ [] → ∃ t p, l !! t = Some p ∧ active hd p = true;
}.

Definition offers_ok (s : st) : Prop := offers (poplist s) (pushlist s) (handoff s) (sequence s) (pcs s).

Lemma half_offer p h : half p = Some h → offer p = Some h.
Proof. by destruct p. Qed.
Lemma ready_offer p h : ready p = Some h → offer p = Some h.
Proof. by destruct p. Qed.

Section Offers.
Context (pl ul : list nat) (hd sq : Z) (l : list pc) (Ho : offers pl ul hd sq l).

Lemma offers_go t p q :
  l !! t = Some p →
  (∀ h, offer q = Some h → 0 < h) → (half q = Some hd → pl = []) → (ready q = Some hd → pl ++ reverse ul ≠ []) →
  (pops q = true → pl ++ reverse ul ≠ []) →
  (hd ≠ 0 → pl ++ reverse ul ≠ [] → active hd p = true → active hd q = true) →
  offers pl ul hd sq (<[t := q]> l).
Proof.
  intros Ht H1 H2 H3 H4 H5. destruct Ho as [O1 O2 O3 O4 O5 O6 O7]. pose proof (lookup_ins l t q p) as Hi.
  split; [done|done|..].
  - intros u r h [[-> ->]|[? Hr]]%(Hi _ _ Ht); [by apply H1|by eapply O3].
  - intros u r [[-> ->]|[? Hr]]%(Hi _ _ Ht); [by apply H2|by eapply O4].
  - intros u r [[-> ->]|[? Hr]]%(Hi _ _ Ht); [by apply H3|by eapply O5].
  - intros u r [[-> ->]|[? Hr]]%(Hi _ _ Ht); [by apply H4|by eapply O6].
  - intros Hh Hq. destruct (O7 Hh Hq) as (u & r & Hr & Ha). destruct (decide (u = t)) as [->|].
    + exists t, q. rewrite (Hi _ _ Ht). simplify_eq. auto.
    + exists u, r. rewrite (Hi _ _ Ht). auto.
Qed.

(** Another record. *)
Lemma offers_push t p q w :
  l !! t = Some p → offer q = None → pops q = false → (hd ≠ 0 → active hd q = true) →
  offers pl (w :: ul) hd sq (<[t := q]> l).
Proof.
  intros Ht H1 H2 H4. destruct Ho as [O1 O2 O3 O4 O5 O6 O7]. pose proof (lookup_ins l t q p) as Hi.
  assert (half q = None) as Hh by (by destruct q). assert (ready q = None) as Hr by (by destruct q).
  assert (pl ++ reverse (w :: ul) ≠ []) as Hne.
  { rewrite reverse_cons. intros E. apply app_eq_nil in E as [_ E]. by apply app_eq_nil in E as [_ ?]. }
  split; try done.
  - intros u r h [[-> ->]|[? Hr0]]%(Hi _ _ Ht); [congruence|by eapply O3].
  - intros u r [[-> ->]|[? Hr0]]%(Hi _ _ Ht); [congruence|by eapply O4].
  - intros Hz _. exists t, q. rewrite (Hi _ _ Ht). auto.
Qed.

(** Without an offer only the thread that looks for the next holder matters. *)
Lemma offers_none pl' ul' t p q :
  l !! t = Some p → offer q = None →
  (∀ u r, <[t := q]> l !! u = Some r → pops r = true → pl' ++ reverse ul' ≠ []) →
  offers pl' ul' 0 sq (<[t := q]> l).
Proof.
  intros Ht H1 H2. destruct Ho as [O1 O2 O3 O4 O5 O6 O7]. pose proof (lookup_ins l t q p) as Hi.
  assert (∀ u r h, <[t := q]> l !! u = Some r → offer r = Some h → 0 < h) as Hold.
  { intros u r h [[-> ->]|[? Hr]]%(Hi _ _ Ht); [congruence|by eapply O3]. }
  split; try done.
  - intros u r Hr Hh%half_offer. specialize (Hold _ _ _ Hr Hh). lia.
  - intros u r Hr Hh%ready_offer. specialize (Hold _ _ _ Hr Hh). lia.
Qed.

(** A new offer, with a number that nobody has in mind. *)
Lemma offers_new t p n :
  l !! t = Some p → (∀ u r, u ≠ t → l !! u = Some r → pops r = false) → (∀ u r, l !! u = Some r → offer r ≠ Some n) →
  0 < n < 2 ^ 32 → offers pl ul n n (<[t := UEmpty1 n]> l).
Proof.
  intros Ht H1 Hf Hn. destruct Ho as [O1 O2 O3 O4 O5 O6 O7]. pose proof (lookup_ins l t (UEmpty1 n) p) as Hi.
  split; try done; [lia|lia|..].
  - intros u r h [[-> ->]|[? Hr]]%(Hi _ _ Ht) Hh; [injection Hh as <-; lia|by eapply O3].
  - intros u r [[-> ->]|[? Hr]]%(Hi _ _ Ht) Hh; [done|]. apply half_offer in Hh. by destruct (Hf _ _ Hr).
  - intros u r [[-> ->]|[? Hr]]%(Hi _ _ Ht) Hh; [done|]. apply ready_offer in Hh. by destruct (Hf _ _ Hr).
  - intros u r [[-> ->]|[? Hr]]%(Hi _ _ Ht) Hp; [done|]. by rewrite (H1 u r) in Hp.
  - intros _ _. exists t, (UEmpty1 n). rewrite (Hi _ _ Ht). cbn. rewrite Z.eqb_refl. auto.
Qed.
End Offers.

Lemma pops_resp p : pops p = true → resp p = true.
Proof. by destruct p. Qed.

Section Progress.
Context (s : st) (tok : token) (Hi : inv s tok) (Ho : offers_ok s).

Lemma offers_quiet t p q s' :
  pcs s !! t = Some p → poplist s' = poplist s → pushlist s' = pushlist s → handoff s' = handoff s →
  sequence s' = sequence s → pcs s' = <[t := q]> (pcs s) →
  (∀ h, offer q = Some h → 0 < h) → (half q = Some (handoff s) → poplist s = []) →
  (ready q = Some (handoff s) → queue s ≠ []) → (pops q = true → queue s ≠ []) →
  (handoff s ≠ 0 → queue s ≠ [] → active (handoff s) p = true → active (handoff s) q = true) →
  offers_ok s'.
Proof. intros Ht E1 E2 E3 E4 E5. unfold offers_ok. rewrite E1, E2, E3, E4, E5. by apply offers_go. Qed.

(** A step after which there is no offer and [t] alone may pop. *)
Lemma offers_silent t p q s' :
  pcs s !! t = Some p → handoff s' = 0 → sequence s' = sequence s → pcs s' = <[t := q]> (pcs s) →
  offer q = None → (pops q = true → queue s' ≠ []) → queue s' = queue s ∨ tok = Resp t →
  offers_ok s'.
Proof.
  intros Ht E1 E2 E3 E4 Hq Hc. unfold offers_ok. rewrite E1, E2, E3. apply (offers_none _ _ _ _ _ Ho _ _ _ p); try done.
  intros u r [[-> ->]|[Hu Hr]]%(lookup_ins _ _ _ _ _ _ Ht) Hp; [by apply Hq|].
  destruct Hc as [Hc|Hc]; [change (queue s' ≠ []); rewrite Hc; by apply (o_pops _ _ _ _ _ Ho u r)|].
  pose proof (inv_resp _ _ Hi u r Hr (pops_resp r Hp)). congruence.
Qed.

Lemma offers_add t p q w s' :
  pcs s !! t = Some p → s' = go t q (push w s) → offer q = None → pops q = false →
  (handoff s ≠ 0 → active (handoff s) q = true) → offers_ok s'.
Proof. intros Ht -> E1 E2 Ha. by eapply offers_push. Qed.

Lemma offers_load t p q : handoff s ≠ 0 → pcs s !! t = Some p → offer q = Some (handoff s) → half q = None → ready q = None →
  pops q = false → active (handoff s) q = true → offers_ok (go t q s).
Proof.
  intros Hz Ht E1 E2 E3 E4 E5. pose proof (o_hand _ _ _ _ _ Ho).
  apply (offers_quiet t p q); try done; try congruence. rewrite E1. intros h [= <-]. lia.
Qed.

(** The checks of [waitqueue.empty()]. *)
Lemma offers_check1 t p q h :
  pcs s !! t = Some p → offer p = Some h → offer q = Some h → pops q = false →
  (half q = Some h ∧ poplist s = [] ∧ ready q = None ∨ ready q = Some h ∧ poplist s ≠ [] ∧ half q = None) →
  (active (handoff s) p = true → active (handoff s) q = true) → offers_ok (go t q s).
Proof.
  intros Ht E1 E2 E3 Hc Ha. pose proof (o_old _ _ _ _ _ Ho t p h Ht E1).
  apply (offers_quiet t p q); try done; try congruence.
  - destruct Hc as [(? & ? & ?)|(? & ? & ->)]; [done|done].
  - destruct Hc as [(? & ? & ->)|(? & Hp & ?)]; [done|]. intros _. unfold queue. by destruct (poplist s).
Qed.

Lemma offers_check2 t p q h :
  pcs s !! t = Some p → half p = Some h → active (handoff s) p = (h =? handoff s) → half q = None → pops q = false →
  (offer q = None ∧ ready q = None ∧ pushlist s = [] ∨
   offer q = Some h ∧ ready q = Some h ∧ pushlist s ≠ [] ∧ active (handoff s) q = (h =? handoff s)) →
  offers_ok (go t q s).
Proof.
  intros Ht E1 Ea E2 E3 Hc. pose proof (o_old _ _ _ _ _ Ho t p h Ht (half_offer _ _ E1)).
  apply (offers_quiet t p q); try done; try congruence.
  - destruct Hc as [(-> & _)|(-> & _)]; [done|]. by intros h' [= <-].
  - destruct Hc as [(_ & -> & _)|(_ & -> & Hp & _)]; [done|]. intros _. unfold queue. intros [_ E]%app_eq_nil.
    apply Hp. by rewrite <- (reverse_involutive (pushlist s)), E.
  - intros Hz Hq Hp. rewrite Ea in Hp. destruct Hc as [(_ & _ & Hpl)|(_ & _ & _ & ->)]; [|done].
    apply Z.eqb_eq in Hp as ->. destruct Hq. unfold queue. rewrite Hpl, (o_half _ _ _ _ _ Ho t p Ht E1). done.
Qed.

(** The exchange succeeds, or the offer was another one. *)
Lemma offers_cas t p q q' h :
  pcs s !! t = Some p → offer p = Some h → (active (handoff s) p = true → h = handoff s) → offer q = None → offer q' = None →
  (pops q = true → ready p = Some h) → pops q' = false →
  offers_ok (if handoff s =? h then go t q (set_handoff 0 s) else go t q' s).
Proof.
  intros Ht E1 Ea E2 E3 E4 E5. destruct (Z.eqb_spec (handoff s) h) as [Eh|Eh].
  - apply (offers_silent t p q); try done; [|by left]. intros Hq%E4. rewrite <- Eh in Hq.
    by apply (o_ready _ _ _ _ _ Ho t p).
  - assert (half q' = None ∧ ready q' = None) as [Hh Hr] by (by destruct q').
    apply (offers_quiet t p q'); try done; try congruence. intros _ _ Ha%Ea. congruence.
Qed.

(** A record is taken from the queue. *)
Lemma offers_pop t p q s1 :
  pcs s !! t = Some p → resp p = true → pop s = s1 → offer q = None → pops q = false → offers_ok (go t q s1.2).
Proof.
  intros Ht Hr <- E1 E2. pose proof (inv_resp _ _ Hi t p Ht Hr) as Et.
  assert (handoff s = 0) as Hz by (apply (inv_no_handoff _ _ Hi); congruence).
  assert (∃ pl ul, (pop s).2 = set_queue pl ul s) as (pl & ul & ->).
  { unfold pop. destruct (poplist s) as [|w l] eqn:E; [destruct (reverse (pushlist s))|]; cbn; eauto.
    exists (poplist s), (pushlist s). by destruct s. }
  apply (offers_silent t p q); try done; [congruence|by right].
Qed.

(** Whatever a step does to the other fields. *)
Lemma offers_other t p q s' :
  pcs s !! t = Some p → poplist s' = poplist s → pushlist s' = pushlist s → handoff s' = handoff s →
  sequence s' = sequence s → pcs s' = <[t := q]> (pcs s) → offer q = None → pops q = false →
  (handoff s ≠ 0 → active (handoff s) p = false) → offers_ok s'.
Proof.
  intros Ht E1 E2 E3 E4 E5 E6 E7 Ha. assert (half q = None ∧ ready q = None) as [Hh Hr] by (by destruct q).
  apply (offers_quiet t p q); try done; try congruence. intros Hz _. rewrite (Ha Hz). done.
Qed.

Lemma offers_wake t p q w :
  pcs s !! t = Some p → resp p = true → offer q = None → pops q = false → offers_ok (wake t w q s).
Proof.
  intros Ht Hr E1 E2. unfold wake. case_decide.
  - by apply (offers_other t p Abort); try done; destruct p.
  - by apply (offers_other t p q); try done; destruct p.
Qed.

Lemma offers_awake t p s' : pcs s !! t = Some p → p = LWait ∨ p = CSent → awake t s = Some s' → offers_ok s'.
Proof.
  intros Ht Hp Ha. unfold awake in Ha. case_decide; [|done]. injection Ha as <-.
  apply (offers_other t p Own); try done; by destruct Hp as [->| ->].
Qed.

Lemma lock_offers t p s' : pcs s !! t = Some p → lock_step t p s = Some s' → offers_ok s'.
Proof.
  intros Ht Hs. unfold lock_step in Hs.
  destruct p as [| | | | |r| | | |h|h|h| |w| | |r| |h| | | | | |h|h|h|w| | | | | | | | |];
    try discriminate Hs; try (injection Hs as <-).
  - apply (offers_other t (LOwner r) (if decide (owner s = Some t) then LRec else LPush)); try done; by case_decide.
  - by apply (offers_other t LRec In).
  - by eapply (offers_add t LPush LLoad t).
  - destruct (Z.eqb_spec (handoff s) 0); [by apply (offers_other t LLoad LWait)|].
    apply (offers_load t LLoad); try done. cbn. apply Z.eqb_refl.
  - destruct (poplist s) eqn:E; apply (offers_check1 t (LEmpty1 h) _ h); try done; rewrite E; auto.
  - destruct (pushlist s) eqn:E; apply (offers_check2 t (LEmpty2 h) _ h); try done; rewrite E; [left|right]; done.
  - apply (offers_cas t (LCas h) LPop LWait h); try done. cbn. by intros ?%Z.eqb_eq.
  - destruct (pop s) as [[w|] s1] eqn:E; injection Hs as <-.
    + do 2 try case_decide; by eapply (offers_pop t LPop _ (Some w, s1)).
    + by eapply (offers_pop t LPop _ (None, s1)).
  - by eapply (offers_wake t (LWake w)).
  - eapply offers_awake; eauto.
  - by apply (offers_other t Own In).
Qed.

Lemma try_lock_offers t p s' : pcs s !! t = Some p → try_lock_step t p s = Some s' → offers_ok s'.
Proof.
  intros Ht Hs. unfold try_lock_step in Hs.
  destruct p as [| | | | |r| | | |h|h|h| |w| | |r| |h| | | | | |h|h|h|w| | | | | | | | |];
    try discriminate Hs; injection Hs as <-.
  - case_decide; [by apply (offers_other t (TOwner r) In)|by apply (offers_other t (TOwner r) TLoad)].
  - destruct (Z.eqb_spec (handoff s) 0); [by apply (offers_other t TLoad Out)|].
    pose proof (o_hand _ _ _ _ _ Ho). apply (offers_quiet t TLoad (TCas (handoff s))); try done.
    intros h [= <-]. lia.
  - by apply (offers_cas t (TCas h) TAdd Out h).
  - by apply (offers_other t TAdd Own).
Qed.

Lemma unlock_offers t p s' :
  pcs s !! t = Some p → unlock_step t p s = Some s' → fresh s s' → offers_ok s'.
Proof.
  intros Ht Hs Hsq. unfold unlock_step in Hs.
  destruct p as [| | | | |r| | | |h|h|h| |w| | |r| |h| | | |b| |h|h|h|w| | | | | | | | |];
    try discriminate Hs; try (injection Hs as <-).
  - by apply (offers_other t UOwner USub).
  - apply (offers_other t USub (if count s =? 1 then Out else UPop false)); try done; by case_match.
  - destruct (pop s) as [[w|] s1] eqn:E; injection Hs as <-.
    + case_decide; by eapply (offers_pop t (UPop b) _ (Some w, s1)).
    + by eapply (offers_pop t (UPop b) _ (None, s1)).
  - pose proof (next_sequence _ (o_seq _ _ _ _ _ Ho)) as [H1 H2]. cbn zeta in *.
    set (n := if wrap32 (sequence s + 1) =? 0 then _ else _) in *. pose proof (inv_resp _ _ Hi t _ Ht eq_refl) as Et.
    assert (∀ u r, u ≠ t → pcs s !! u = Some r → pops r = false) as Hno.
    { intros u r Hu Hr. destruct (pops r) eqn:Ep; [|done].
      pose proof (inv_resp _ _ Hi u r Hr (pops_resp _ Ep)). congruence. }
    eapply (offers_new _ _ _ _ _ Ho t UHand n Ht Hno); [|lia]. intros u r Hr.
    destruct Hsq as [Hsq|Hsq]; cbn [sequence go set_handoff set_sequence] in Hsq; [done|]. exact (Forall_lookup_1 _ _ _ _ Hsq Hr).
  - destruct (poplist s) eqn:E; apply (offers_check1 t (UEmpty1 h) _ h); try done; rewrite E; auto.
  - destruct (pushlist s) eqn:E; apply (offers_check2 t (UEmpty2 h) _ h); try done; rewrite E; [left|right]; done.
  - apply (offers_cas t (UCas h) (UPop true) Out h); try done. cbn. by intros ?%Z.eqb_eq.
  - by eapply (offers_wake t (UWake w)).
Qed.

Lemma return_offer r : offer (return_to r) = None ∧ pops (return_to r) = false.
Proof. by destruct r. Qed.

Lemma send_lock_offers t p s' : pcs s !! t = Some p → send_lock_step t p s = Some s' → offers_ok s'.
Proof.
  intros Ht Hs. unfold send_lock_step in Hs.
  destruct p as [| | | | |r| | | |h|h|h| |w| | |r| |h| | | |b| |h|h|h|w|r w|r|r h|r h|r h|r|r w| |];
    try discriminate Hs; try (injection Hs as <-); destruct (return_offer r) as [R1 R2].
  - by eapply (offers_add t (SPush r w) (SLoad r) w).
  - destruct (Z.eqb_spec (handoff s) 0); [by apply (offers_other t (SLoad r) (return_to r))|].
    apply (offers_load t (SLoad r)); try done. cbn. apply Z.eqb_refl.
  - destruct (poplist s) eqn:E; apply (offers_check1 t (SEmpty1 r h) _ h); try done; rewrite E; auto.
  - destruct (pushlist s) eqn:E; apply (offers_check2 t (SEmpty2 r h) _ h); try done; try (by destruct r);
      rewrite E; [left|right]; try done. by destruct r.
  - apply (offers_cas t (SCas r h) (SPop r) (return_to r) h); try done. cbn. by intros ?%Z.eqb_eq.
  - destruct (pop s) as [[w|] s1] eqn:E; injection Hs as <-.
    + by eapply (offers_pop t (SPop r) _ (Some w, s1)).
    + by eapply (offers_pop t (SPop r) _ (None, s1)).
  - by eapply (offers_wake t (SWake r w)).
Qed.

Lemma send_lock_unless_offers t p s' :
  pcs s !! t = Some p → send_lock_unless_already_waiting_step t p s = Some s' → offers_ok s'.
Proof.
  intros Ht Hs. unfold send_lock_unless_already_waiting_step in Hs.
  destruct p as [| | | | |r| | | |h|h|h| |w| | |r| |h| | | |b| |h|h|h|w|r w|r|r h|r h|r h|r|r w|w|w];
    try discriminate Hs; injection Hs as <-.
  - case_decide; [by apply (offers_other t (WScan w) In)|by apply (offers_other t (WScan w) (WPush w))].
  - pose proof (inv_holder _ _ Hi t _ Ht eq_refl) as Et.
    eapply (offers_add t (WPush w) In w); try done. rewrite (inv_no_handoff _ _ Hi); [done|congruence].
Qed.
End Progress.

(** ** Every run *)

Definition good (s : st) : Prop := (∃ tok, inv s tok) ∧ offers_ok s.

Lemma advance_good s t s' :
  good s → advance t s = Some s' → 0 ≤ count s' → depth s < 2 ^ 32 - 1 → fresh s s' → good s'.
Proof.
  intros [[tok Hi] Ho] Ha Hc Hd Hsq. unfold advance in Ha. destruct (pcs s !! t) as [p|] eqn:Ht; [|done]. cbn in Ha.
  assert (∀ p', p' = p → (p' = LPop ∨ ∃ r, p' = SPop r) → queue s ≠ []) as Hpop.
  { intros p' -> Hp. apply (o_pops _ _ _ _ _ Ho t p Ht). by destruct Hp as [->|[r ->]]. }
  pose proof (o_seq _ _ _ _ _ Ho). split.
  - destruct p; try discriminate Ha.
    all: first [ eapply (lock_inv s tok Hi t); eauto; fail
      | eapply (try_lock_inv s tok Hi t); eauto; fail | eapply (unlock_inv s tok Hi t); eauto; fail
      | eapply (send_lock_inv s tok Hi t); [eauto| |eauto]; intros; eapply Hpop; eauto; fail
      | eapply (send_lock_unless_inv s tok Hi t); eauto; fail | eexists; eapply (inv_awake s tok Hi t); eauto ].
  - destruct p; try discriminate Ha.
    all: first [ eapply (lock_offers s tok Hi Ho t); eauto; fail | eapply (try_lock_offers s tok Hi Ho t); eauto; fail
      | eapply (unlock_offers s tok Hi Ho t); eauto; fail | eapply (send_lock_offers s tok Hi Ho t); eauto; fail
      | eapply (send_lock_unless_offers s tok Hi Ho t); eauto; fail | eapply (offers_awake s Ho t); eauto ].
Qed.

Lemma call_good s t o s' :
  good s → call t o s = Some s' → 0 ≤ count s' → depth s < 2 ^ 32 - 1 → good s'.
Proof.
  intros [[tok Hi] Ho] Hs Hc Hd. unfold call in Hs. destruct (pcs s !! t) as [p|] eqn:Ht; [|done]. cbn in Hs.
  assert (∀ r q s', p = return_to r → offer q = None → pops q = false →
    poplist s' = poplist s → pushlist s' = pushlist s → handoff s' = handoff s →
    sequence s' = sequence s → pcs s' = <[t := q]> (pcs s) → offers_ok s') as Hother.
  { intros r q s1 -> E1 E2 ? ? ? ? ?. apply (offers_other s Ho t (return_to r) q); try done. by destruct r. }
  assert (∀ r q w s', p = return_to r → pcs s !! w = Some CWait → offer q = None → pops q = false →
    poplist s' = poplist s → pushlist s' = pushlist s → handoff s' = handoff s →
    sequence s' = sequence s → pcs s' = <[t := q]> (<[w := CSent]> (pcs s)) → offers_ok s') as Hsent.
  { intros r q w s1 -> Hw E1 E2 ? ? ? ? ?. assert (w ≠ t) by (intros ->; destruct r; by simplify_eq).
    assert (offers_ok (go w CSent s)) as Ho1 by by apply (offers_other s Ho w CWait CSent).
    apply (offers_other (go w CSent s) Ho1 t (return_to r) q); try done; [|by destruct r].
    cbn. by rewrite list_lookup_insert_ne. }
  destruct o as [| | |w|w| |], p; try discriminate Hs.
  - injection Hs as <-. split; [eapply (lock_call_inv s tok Hi t Out false); auto|].
    apply (Hother false (if count s =? 0 then Own else LOwner false)); try done; by case_match.
  - injection Hs as <-. split; [eapply (lock_call_inv s tok Hi t In true); auto|].
    apply (Hother true (if count s =? 0 then Own else LOwner true)); try done; by case_match.
  - injection Hs as <-. split; [eapply (lock_call_inv s tok Hi t Out false); auto|].
    unfold try_lock. case_match; [by apply (Hother false Own)|by apply (Hother false (TOwner false))].
  - injection Hs as <-. split; [eapply (lock_call_inv s tok Hi t In true); auto|].
    unfold try_lock. case_match; [by apply (Hother true Own)|by apply (Hother true (TOwner true))].
  - injection Hs as <-. split; [exists tok; by apply unlock_call_inv|].
    unfold unlock. do 2 try case_match; [by apply (Hother true Abort)| |by apply (Hother true Abort)].
    apply (Hother true (if wrap32 (depth s - 1) =? 0 then UOwner else In)); try done; by case_match.
  - case_decide as Hw; [|done]. injection Hs as <-. split; [by apply (send_lock_call_inv s tok Hi t w false)|].
    apply (Hsent false (if count s =? 0 then SWake false w else SPush false w) w); try done; by case_match.
  - case_decide as Hw; [|done]. injection Hs as <-. split; [by apply (send_lock_call_inv s tok Hi t w true)|].
    apply (Hsent true (if count s =? 0 then SWake true w else SPush true w) w); try done; by case_match.
  - assert (owner s = Some t) as Hown by (apply (i_own _ _ Hi); eauto).
    pose proof (inv_holder _ _ Hi t In Ht eq_refl) as Et. pose proof (inv_pos _ _ Hi ltac:(congruence)).
    destruct (pcs s !! w) as [[]|] eqn:Hw; try discriminate Hs; injection Hs as <-;
      unfold send_lock_unless_already_waiting in *; rewrite decide_True in * by done.
    + split; [|by eapply (Hsent true (WScan w) w)]. exists tok. eapply (inv_send s tok Hi t In); try done; auto. by rewrite Et.
    + split; [|by eapply (Hother true (WScan w))]. exists tok. by apply (inv_scan s tok Hi).
  - injection Hs as <-. split; [exists tok; by apply inv_quiet with Out|by apply (Hother false CWait)].
  - injection Hs as <-. split; [exists tok; by apply inv_quiet with CWait|].
    by apply (offers_other s Ho t CWait Out).
Qed.

Lemma start_good n : good (start n).
Proof.
  assert (∀ t p, replicate n Out !! t = Some p → p = Out) as Hr by (intros t p [-> _]%lookup_replicate; done).
  split.
  - exists Free. split; try done; cbn.
    + induction n as [|n IH]; [done|]. cbn. apply IH. intros t p Hp. by apply (Hr (S t)).
    + by intros t p ->%Hr.
    + by intros t p ->%Hr.
    + by intros t [?|?].
    + split; [done|]. intros (p & ->%Hr & ?). done.
    + by intros t p ->%Hr.
    + by intros t p ->%Hr.
    + split; try done; cbn.
      * constructor.
      * by intros t ?%not_elem_of_nil.
      * by intros t p ->%Hr.
      * by intros u q w ->%Hr.
      * by intros u u' q q' w ->%Hr.
      * by intros u q w ->%Hr.
  - split; cbn; try done; try lia; by intros t p ->%Hr || by intros t p h ->%Hr.
Qed.

Lemma reachable_good n s : rtc calm (start n) s → good s.
Proof.
  intros Hs. apply (rtc_ind_r good (start n)) in Hs; [done|apply start_good|].
  intros s1 s2 _ ([[t Ha]|(t & o & Ha)] & Hc & Hd & Hq) Hg; [by eapply advance_good|by eapply call_good].
Qed.

(** *** Progress *)

(** How many accesses a thread has left at most before it is outside or waits. *)
Definition rank (p : pc) : Z :=
  match p with
  | Out | In | CWait | Abort => 0
  | Own | LRec | UWake _ | SWake _ _ | WPush _ => 1
  | CSent | LWait | TAdd | UPop true | SPop _ | WScan _ => 2
  | LWake _ | TCas _ | UCas _ | SCas _ _ => 3
  | LPop | TLoad | UEmpty2 _ | SEmpty2 _ _ => 4
  | LCas _ | TOwner _ | UEmpty1 _ | SEmpty1 _ _ => 5
  | LEmpty2 _ | UHand | SLoad _ => 6
  | LEmpty1 _ | UPop false | SPush _ _ => 7
  | LLoad | USub => 8
  | LPush | UOwner => 9
  | LOwner _ => 10
  end.

Lemma rank_range p : 0 ≤ rank p ≤ 10.
Proof. destruct p; cbn; try case_match; lia. Qed.

Lemma wake_pcs t w p s : ∃ q, pcs (wake t w p s) = <[t := q]> (pcs s) ∧ (q = Abort ∨ q = p).
Proof. unfold wake. case_decide; eauto. Qed.

Lemma pop_pcs s : pcs (pop s).2 = pcs s.
Proof. unfold pop. destruct (poplist s); [|done]. by destruct (reverse (pushlist s)). Qed.

Lemma pop_none s s1 : pop s = (None, s1) → queue s = [].
Proof.
  pose proof (pop_spec s) as H. destruct (queue s); [done|]. destruct H as (pl & ul & -> & _). done.
Qed.

(** Every access brings the thread closer to the end of its operation. *)
Lemma advance_rank s t s' :
  good s → advance t s = Some s' → total rank (pcs s') < total rank (pcs s).
Proof.
  intros [[tok Hi] Ho] Ha. unfold advance in Ha. destruct (pcs s !! t) as [p|] eqn:Ht; [|done]. cbn in Ha.
  assert (∀ q, pcs s' = <[t := q]> (pcs s) → rank q < rank p → total rank (pcs s') < total rank (pcs s)) as Hq.
  { intros q -> Hr. rewrite (total_insert _ _ _ _ _ Ht). lia. }
  assert (∀ w q, s' = wake t w q s → rank q < rank p → 0 < rank p → total rank (pcs s') < total rank (pcs s)) as Hw.
  { intros w q -> Hr Hp. destruct (wake_pcs t w q s) as (q' & E & [->| ->]); by eapply Hq. }
  assert (∀ s1 o q, pop s = (o, s1) → s' = go t q s1 → rank q < rank p → total rank (pcs s') < total rank (pcs s)) as Hp.
  { intros s1 o q E -> Hr. apply (Hq q); [|done]. cbn. pose proof (pop_pcs s) as Ep. rewrite E in Ep. by rewrite <- Ep. }
  assert (awake t s = Some s' → 1 < rank p → total rank (pcs s') < total rank (pcs s)) as Haw.
  { unfold awake. case_decide; [|done]. intros [= <-] Hr. by apply (Hq Own). }
  destruct p; try match goal with b : bool |- _ => destruct b end; try discriminate Ha; cbn in Ha; try (by apply Haw);
    try (injection Ha as <-; first [ by eapply Hw | repeat case_match; by eapply Hq ]);
    destruct (pop s) as [[w|] s1] eqn:E; injection Ha as <-; repeat case_decide;
    try (eapply Hp; [reflexivity|reflexivity|done]).
  by destruct (o_pops _ _ _ _ _ Ho t _ Ht eq_refl (pop_none _ _ E)).
Qed.

(** A thread that cannot go on is outside, or waits for its record to be woken. *)
Lemma advance_none s t p :
  pcs s !! t = Some p → advance t s = None →
  p = Out ∨ p = In ∨ p = CWait ∨ p = Abort ∨ (p = LWait ∨ p = CSent) ∧ t ∉ woken s.
Proof.
  intros Ht Ha. unfold advance in Ha. rewrite Ht in Ha. cbn in Ha.
  assert (awake t s = None → t ∉ woken s) as Haw by (unfold awake; by case_decide).
  destruct p; auto 6; try discriminate Ha; cbn in Ha; try (apply Haw in Ha; auto 8);
    destruct (pop s) as [[?|] ?]; discriminate Ha.
Qed.

(** Where nobody can go on, a thread that waits waits for the holder. *)
Lemma stuck_waits s t p :
  good s → (∀ u, advance u s = None) → pcs s !! t = Some p → waits p = true → ∃ u, pcs s !! u = Some In.
Proof.
  intros [[tok Hi] Ho] Hst Ht Hw. pose proof (i_recs _ _ Hi) as Hr.
  assert (∀ u q, pcs s !! u = Some q → q = Out ∨ q = In ∨ q = CWait ∨ (q = LWait ∨ q = CSent) ∧ u ∉ woken s) as Hall.
  { intros u q Hu. destruct (advance_none s u q Hu (Hst u)) as [?|[?|[?|[->|?]]]]; auto.
    by pose proof (i_good _ _ Hi u _ Hu). }
  assert (∀ u q, pcs s !! u = Some q → target q = None ∧ resp q = false ∧ active (handoff s) q = false) as Hcl.
  { intros u q Hu. by destruct (Hall u q Hu) as [->|[->|[->|[[->| ->] _]]]]. }
  assert (woken_of tok = None) as Hnw.
  { destruct tok as [| | | |u]; try done. destruct (r_woken _ _ _ Hr u eq_refl) as (q & Hq & Hwq).
    pose proof (proj2 (i_woken _ _ Hi u) eq_refl). by destruct (Hall u q Hq) as [->|[->|[->|[_ ?]]]]. }
  assert (t ∈ queue s) as Htq.
  { destruct (r_wait _ _ _ Hr t p Ht Hw) as [?|[?|(u & q & Hu & Hg)]]; [done|congruence|].
    destruct (Hcl u q Hu) as [? _]. congruence. }
  destruct tok as [|u|u| |u]; [..|done].
  - pose proof (inv_weight s _ Hi t p Ht). rewrite (proj1 (i_free _ _ Hi) eq_refl) in *.
    by destruct (Hall t p Ht) as [->|[->|[->|[[->| ->] _]]]].
  - destruct (i_tok _ _ Hi u (or_introl eq_refl)) as [q Hq]. exists u. rewrite Hq. f_equal.
    pose proof (proj2 (i_hold _ _ Hi u q Hq) eq_refl). by destruct (Hall u q Hq) as [->|[->|[->|[[->| ->] _]]]].
  - destruct (i_tok _ _ Hi u (or_intror eq_refl)) as [q Hq].
    pose proof (proj2 (i_resp _ _ Hi u q Hq) eq_refl). destruct (Hcl u q Hq) as (_ & ? & _). congruence.
  - destruct (o_active _ _ _ _ _ Ho) as (u & q & Hu & Hact).
    + by apply (i_off _ _ Hi).
    + change (queue s ≠ []). intros E. rewrite E in Htq. by apply not_elem_of_nil in Htq.
    + destruct (Hcl u q Hu) as (_ & _ & ?). congruence.
Qed.

(** The threads stay the same. *)
Lemma step_length s s' : step s s' → length (pcs s') = length (pcs s).
Proof.
  assert (∀ t q s1, length (pcs (go t q s1)) = length (pcs s1)) as Hgo by (intros; apply length_insert).
  assert (∀ t w q s1, length (pcs (wake t w q s1)) = length (pcs s1)) as Hwk.
  { intros. unfold wake. case_decide; apply length_insert. }
  assert (∀ s1 o s2, pop s1 = (o, s2) → pcs s2 = pcs s1) as Hpp.
  { intros s1 o s2 E. by rewrite <- (pop_pcs s1), E. }
  intros [[t Ha]|(t & o & Ha)].
  - unfold advance in Ha. destruct (pcs s !! t) as [p|]; [|done]. cbn in Ha.
    assert (awake t s = Some s' → length (pcs s') = length (pcs s)) as Haw.
    { unfold awake. case_decide; [|done]. intros [= <-]. apply length_insert. }
    destruct p; try discriminate Ha; cbn in Ha; try (by apply Haw);
      try (injection Ha as <-; first [ apply Hwk | repeat case_match; by rewrite Hgo ]);
      destruct (pop s) as [[?|] s1] eqn:E; injection Ha as <-; repeat case_decide; by rewrite Hgo, (Hpp _ _ _ E).
  - unfold call in Ha. destruct (pcs s !! t) as [p|]; [|done]. cbn in Ha.
    destruct o, p; try discriminate Ha; repeat case_match; try discriminate Ha; injection Ha as <-;
      unfold lock, try_lock, unlock, send_lock, send_lock_unless_already_waiting; repeat case_match; cbn; by rewrite ?length_insert.
Qed.

Lemma reachable_length n s : rtc calm (start n) s → length (pcs s) = n.
Proof.
  intros Hs. apply (rtc_ind_r (λ s, length (pcs s) = n) (start n)) in Hs; [done|apply length_replicate|].
  intros s1 s2 _ (Hst & _) <-. by apply step_length.
Qed.

Lemma total_rank_le l : total rank l ≤ 10 * Z.of_nat (length l).
Proof.
  induction l as [|p l IH]; [done|]. change (total rank (p :: l)) with (rank p + total rank l).
  pose proof (rank_range p). cbn [length]. lia.
Qed.

Lemma total_rank_nonneg l : 0 ≤ total rank l.
Proof. apply total_nonneg. intros p. apply rank_range. Qed.

(** What is lost stays lost. *)
Lemma step_leaked s s' : step s s' → leaked s ≤ leaked s'.
Proof.
  assert (∀ t w q s1, leaked (wake t w q s1) = leaked s1) as Hwk by (intros; unfold wake; by case_decide).
  assert (∀ s1 o s2, pop s1 = (o, s2) → leaked s2 = leaked s1) as Hpp.
  { intros s1 o s2. unfold pop. repeat case_match; by intros [= _ <-]. }
  intros [[t Ha]|(t & o & Ha)].
  - unfold advance in Ha. destruct (pcs s !! t) as [p|]; [|done]. cbn in Ha.
    assert (awake t s = Some s' → leaked s ≤ leaked s') as Haw by (unfold awake; case_decide; by intros [= <-]).
    destruct p; try discriminate Ha; cbn in Ha; try (by apply Haw);
      try (injection Ha as <-; first [ by rewrite Hwk | repeat case_match; done ]);
      destruct (pop s) as [[?|] s1] eqn:E; injection Ha as <-; rewrite <- (Hpp _ _ _ E); repeat case_decide; done.
  - unfold call in Ha. destruct (pcs s !! t) as [p|]; [|done]. cbn in Ha.
    destruct o, p; try discriminate Ha; repeat case_match; try discriminate Ha; injection Ha as <-;
      unfold lock, try_lock, unlock, send_lock, send_lock_unless_already_waiting; repeat case_match; cbn; lia.
Qed.

(** *** Executable runs *)

(** The threads in the order they move; those with an operation begin it. *)
Fixpoint run (l : list (nat * option op)) (s : st) : option st :=
  match l with
  | [] => Some s
  | (t, o) :: l =>
      s' ← match o with Some o => call t o s | None => advance t s end;
      if decide (0 ≤ count s' ∧ depth s < 2 ^ 32 - 1 ∧ fresh s s') then run l s' else None
  end.

Lemma run_calm l s s' : run l s = Some s' → rtc calm s s'.
Proof.
  revert s. induction l as [|[t o] l IH]; intros s Hr; cbn in Hr; [by simplify_eq|].
  destruct (match o with Some o => call t o s | None => advance t s end) as [s1|] eqn:E; [|done]. cbn in Hr.
  case_decide as Hc; [|done]. eapply rtc_l; [|by apply IH]. split; [|done].
  destruct o as [o|]; [right; by exists t, o|left; by exists t].
Qed.

(** [n] accesses of one thread. *)
Definition steps (t n : nat) : list (nat * option op) := replicate n (t, None).

(** ** The properties *)

(** C8: In every run of any number of threads through [lock], [try_lock],
    [unlock], [send_lock] and [send_lock_unless_already_waiting], with every
    interleaving of their atomic accesses, one thread at most is inside the mutex
    and [owner] names it; no assertion fails; one thread at most takes records
    from the wait queue, as [queue_mpsc] demands; and the loop of [unlock] finds a
    record in its second round.  The runs are those in which [count] and [depth] do
    not overflow and no thread has in mind the number of an old offer when that
    number is used again. *)
Theorem mutex_safe n s :
  rtc calm (start n) s →
  (∀ t u p q, pcs s !! t = Some p → pcs s !! u = Some q → holds p = true → holds q = true → t = u) ∧
  (∀ t, pcs s !! t = Some In → owner s = Some t ∧ 0 < depth s < 2 ^ 32) ∧
  (∀ t, pcs s !! t ≠ Some Abort) ∧
  (∀ t u p q, pcs s !! t = Some p → pcs s !! u = Some q → resp p = true → resp q = true → t = u) ∧
  (∀ t s', pcs s !! t = Some (UPop true) → advance t s = Some s' → ∃ w, pcs s' !! t = Some (UWake w)).
Proof.
  intros [[tok Hi] Ho]%reachable_good. split_and!.
  - intros t u p q Ht Hu Hp Hq. pose proof (inv_holder _ _ Hi t p Ht Hp). pose proof (inv_holder _ _ Hi u q Hu Hq). congruence.
  - intros t Ht. split; [apply (i_own _ _ Hi); eauto|]. pose proof (i_depth _ _ Hi t In Ht eq_refl) as Hd.
    by rewrite decide_False in Hd.
  - intros t Ht. by pose proof (i_good _ _ Hi t _ Ht).
  - intros t u p q Ht Hu Hp Hq. pose proof (inv_resp _ _ Hi t p Ht Hp). pose proof (inv_resp _ _ Hi u q Hu Hq). congruence.
  - intros t s' Ht Ha. unfold advance in Ha. rewrite Ht in Ha. cbn in Ha. pose proof (pop_spec s) as Hq.
    pose proof (o_pops _ _ _ _ _ Ho t _ Ht eq_refl) as Hne. change (queue s ≠ []) in Hne.
    destruct (queue s) as [|w Q] eqn:EQ; [done|]. destruct Hq as (pl & ul & Ep & _). rewrite Ep in Ha. injection Ha as <-.
    exists w. cbn. rewrite list_lookup_insert_eq by by apply lookup_lt_Some in Ht. f_equal. apply decide_False. intros ->.
    destruct (r_in _ _ _ (i_recs _ _ Hi) t) as (_ & r & Hr & Hw); [rewrite EQ; elem|]. by simplify_eq.
Qed.

(** A thread goes on with its operation. *)
Definition running (s s' : st) : Prop := internal s s' ∧ calm s s'.

(** C9: Threads that go on with their operations come to an end after ten accesses
    each, and then a thread that still waits for the mutex waits for a thread
    inside it: no wakeup is lost.  The runs are those of [mutex_safe]. *)
Theorem mutex_live n s k s' :
  rtc calm (start n) s → nsteps running k s s' →
  Z.of_nat k ≤ 10 * Z.of_nat n ∧
  ((∀ s2, ¬ internal s' s2) → ∀ t p, pcs s' !! t = Some p → waits p = true → ∃ u, pcs s' !! u = Some In).
Proof.
  intros Hs Hk. assert (Z.of_nat k + total rank (pcs s') ≤ total rank (pcs s) ∧ rtc calm (start n) s') as [Hle Hs'].
  { revert s Hs Hk. induction k as [|k IH]; intros s Hs Hk; inversion Hk as [|? ? s1 ? [[t Ha] Hc] Hk1]; subst.
    { split; [lia|done]. }
    destruct (IH s1) as [H1 H2]; [by eapply rtc_r|done|].
    pose proof (advance_rank s t s1 (reachable_good n s Hs) Ha). split; [lia|done]. }
  split.
  - pose proof (total_rank_nonneg (pcs s')). pose proof (total_rank_le (pcs s)) as Hl.
    rewrite (reachable_length n s Hs) in Hl. lia.
  - intros Hst t p Ht Hw. apply (stuck_waits s' t p); [by eapply reachable_good| |done|done].
    intros u. destruct (advance u s') as [s2|] eqn:E; [|done]. destruct (Hst s2). by exists u.
Qed.

(** Thread 1 asks for the mutex while thread 0 is inside, thread 2 is not there yet. *)
Definition ex_run : list (nat * option op) :=
  [(0%nat, Some OLock)] ++ steps 0 1 ++ [(1%nat, Some OLock)] ++ steps 1 3 ++ [(0%nat, Some OUnlock)] ++ steps 0 2.
Definition ex_mutex : st := match run ex_run (start 3) with Some s => s | None => start 3 end.
Definition ex_mutex_later : st := match run (steps 0 2 ++ steps 1 2) ex_mutex with Some s => s | None => start 3 end.

Lemma ex_mutex_run : run ex_run (start 3) = Some ex_mutex.
Proof. vm_compute. reflexivity. Qed.

Lemma mutex_safe_witness :
  pcs ex_mutex = [UPop false; LWait; Out] ∧ rtc calm (start 3) ex_mutex ∧
  ((∀ t u p q, pcs ex_mutex !! t = Some p → pcs ex_mutex !! u = Some q → holds p = true → holds q = true → t = u) ∧
   (∀ t, pcs ex_mutex !! t = Some In → owner ex_mutex = Some t ∧ 0 < depth ex_mutex < 2 ^ 32) ∧
   (∀ t, pcs ex_mutex !! t ≠ Some Abort) ∧
   (∀ t u p q, pcs ex_mutex !! t = Some p → pcs ex_mutex !! u = Some q → resp p = true → resp q = true → t = u) ∧
   (∀ t s', pcs ex_mutex !! t = Some (UPop true) → advance t ex_mutex = Some s' → ∃ w, pcs s' !! t = Some (UWake w))).
Proof.
  split; [vm_compute; reflexivity|]. split; [exact (run_calm _ _ _ ex_mutex_run)|].
  exact (mutex_safe 3 ex_mutex (run_calm _ _ _ ex_mutex_run)).
Defined.

Lemma ex_mutex_running : nsteps running 4 ex_mutex ex_mutex_later.
Proof.
  assert (∀ t s s', advance t s = Some s' →
    bool_decide (0 ≤ count s' ∧ depth s < 2 ^ 32 - 1 ∧ fresh s s') = true → running s s') as H.
  { intros t s s' Ha Hc%bool_decide_eq_true. split; [by exists t|]. split; [left; by exists t|done]. }
  eapply nsteps_l; [eapply (H 0%nat); [vm_compute; reflexivity|vm_compute; reflexivity]|].
  eapply nsteps_l; [eapply (H 0%nat); [vm_compute; reflexivity|vm_compute; reflexivity]|].
  eapply nsteps_l; [eapply (H 1%nat); [vm_compute; reflexivity|vm_compute; reflexivity]|].
  eapply nsteps_l; [eapply (H 1%nat); [vm_compute; reflexivity|vm_compute; reflexivity]|].
  apply nsteps_O.
Qed.

Lemma mutex_live_witness :
  pcs ex_mutex_later = [Out; In; Out] ∧
  Z.of_nat 4 ≤ 10 * Z.of_nat 3 ∧
  ((∀ s2, ¬ internal ex_mutex_later s2) → ∀ t p, pcs ex_mutex_later !! t = Some p → waits p = true →
     ∃ u, pcs ex_mutex_later !! u = Some In).
Proof.
  split; [vm_compute; reflexivity|].
  exact (mutex_live 3 ex_mutex 4 ex_mutex_later (run_calm _ _ _ ex_mutex_run) ex_mutex_running).
Defined.

(** Thread 1 waits in [lock] while thread 0 wants to send it the lock; then both leave. *)
Definition ex_leak : list (nat * option op) :=
  [(0%nat, Some OLock)] ++ steps 0 1 ++ [(1%nat, Some OLock)] ++ steps 1 3 ++
  [(0%nat, Some (OSendLockUnlessAlreadyWaiting 1))] ++ steps 0 1 ++ [(0%nat, Some OUnlock)] ++ steps 0 4 ++
  steps 1 2 ++ [(1%nat, Some OUnlock)] ++ steps 1 6.
Definition ex_leaked : st := match run ex_leak (start 2) with Some s => s | None => start 2 end.

(** C40: [send_lock_unless_already_waiting] leaves its increment of [count] behind
    when the thread is in the queue already: there is a run after which no thread
    is in the mutex or on its way to it, and [count] is 1 and stays positive, so
    that no later [lock] or [unlock] finds the mutex uncontended. *)
Theorem send_lock_leaks :
  ∃ s, rtc calm (start 2) s ∧ pcs s = [Out; Out] ∧ queue s = [] ∧ count s = 1 ∧ leaked s = 1 ∧
    ∀ s', rtc calm s s' → 0 < count s'.
Proof.
  assert (run ex_leak (start 2) = Some ex_leaked) as Hr by (vm_compute; reflexivity).
  exists ex_leaked. split; [exact (run_calm _ _ _ Hr)|]. split_and!; [vm_compute; reflexivity..|].
  intros s' Hs'. assert (leaked ex_leaked ≤ leaked s') as Hl.
  { clear Hr. induction Hs' as [|s s1 s2 [Hst _] _ IH]; [done|]. pose proof (step_leaked _ _ Hst). lia. }
  change (leaked ex_leaked) with 1 in Hl.
  destruct (reachable_good 2 s') as [[tok Hi] _]; [etrans; [exact (run_calm _ _ _ Hr)|done]|].
  rewrite (i_count _ _ Hi). pose proof (total_nonneg weight (pcs s') weight_nonneg). lia.
Qed.
