(* ===== verification/TimerSet.v ===== *)
(** * Timer sets

    [timer_set] of [include/osv/timer-set.hh] and the iteration over bit sets of
    [include/osv/bitset-iter.hh].  A timer goes by its number; [time] is the
    timeout it was given, a signed 64-bit number of nanoseconds.  Active timers are
    sorted into buckets by the highest bit in which they differ from the time of
    the last [expire], and only the bucket in question is looked at when time goes
    on. *)
From S2P Require Import Prelude Bits.

(** ** Bit sets of 64 bits *)

Module BitSet.

(** [bitsets::count_leading_zeros(long)]: without the sign bit. *)
Definition count_leading_zeros_long (value : Z) : Z := wrap64 (count_leading_zeros (wrap64 value) - 1).

Definition get_first_set (bits : Z) : Z := count_trailing_zeros bits.
Definition get_last_set (bits : Z) : Z := wrap64 (64 - 1 - count_leading_zeros bits).

Definition assign (bits : Z) (i : nat) (b : bool) : Z :=
  if b then Z.setbit bits (Z.of_nat i) else Z.clearbit bits (Z.of_nat i).

(** [set_iterator]: the bits above the current one, and its index, -1 at the end. *)
Record iterator := mk { bitset : Z; index : Z }.

Definition advance (it : iterator) : iterator :=
  if bitset it =? 0 then mk 0 (-1)
  else
    let shift := get_first_set (bitset it) + 1 in
    mk (Z.shiftr (bitset it) shift) (index it + shift).

Definition begin (bits offset : Z) : iterator := advance (mk (Z.shiftr bits offset) (offset - 1)).

(** The loop [for (int i : for_each_set(bits, offset))]. *)
Fixpoint visit (fuel : nat) (it : iterator) : list nat :=
  if index it =? -1 then []
  else match fuel with O => [] | S fuel => Z.to_nat (index it) :: visit fuel (advance it) end.

Definition for_each_set (bits : Z) (offset : nat) : list nat := visit 64 (begin bits (Z.of_nat offset)).

End BitSet.

(** ** The timer set *)

Module TimerSet.

Definition max_timestamp : Z := 2 ^ 63 - 1.
Definition n_buckets : nat := 64.

Record t := mk {
  buckets : list (list nat);
  expired : list nat;
  last : Z;
  next : Z;
  non_empty_buckets : Z;
}.

Definition make : t := mk (replicate n_buckets []) [] 0 max_timestamp 0.

Definition bucket (s : t) (i : nat) : list nat := default [] (buckets s !! i).

Definition set_bucket (s : t) (i : nat) (l : list nat) (b : bool) : t :=
  mk (<[i := l]> (buckets s)) (expired s) (last s) (next s) (BitSet.assign (non_empty_buckets s) i b).
Definition set_next (s : t) (n : Z) : t := mk (buckets s) (expired s) (last s) n (non_empty_buckets s).
Definition set_last (s : t) (n : Z) : t := mk (buckets s) (expired s) n (next s) (non_empty_buckets s).
Definition set_expired (s : t) (l : list nat) : t := mk (buckets s) l (last s) (next s) (non_empty_buckets s).

(** The last bucket is for timers that are due; the assertion is a failure. *)
Definition get_index (s : t) (timestamp : Z) : option nat :=
  if timestamp <=? last s then Some 63%nat
  else
    let index := BitSet.count_leading_zeros_long (Z.lxor timestamp (last s)) in
    if index <? 63 then Some (Z.to_nat index) else None.

Section Ops.
Context (time : nat → Z).

Definition insert (timer : nat) (s : t) : option (bool * t) :=
  let timestamp := time timer in
  index ← get_index s timestamp;
  let s := set_bucket s index (bucket s index ++ [timer]) true in
  if timestamp <? next s then Some (true, set_next s timestamp) else Some (false, s).

(** A timer that is not in its bucket is unlinked from a list that does not know. *)
Definition remove (timer : nat) (s : t) : option t :=
  index ← get_index s (time timer);
  if decide (timer ∈ bucket s index) then
    let l := erase timer (bucket s index) in
    Some (mk (<[index := l]> (buckets s)) (expired s) (last s) (next s)
      (match l with [] => BitSet.assign (non_empty_buckets s) index false | _ => non_empty_buckets s end))
  else None.

(** The buckets behind the one of the new time are due as a whole. *)
Definition splice (s : t) (i : nat) : t :=
  set_bucket (set_expired s (expired s ++ bucket s i)) i [] false.

(** The loop over the bucket of the new time. *)
Fixpoint sort_out (fuel : nat) (index : nat) (now : Z) (s : t) : option t :=
  match bucket s index with
  | [] => Some s
  | timer :: l =>
      match fuel with
      | O => None
      | S fuel =>
          let s := mk (<[index := l]> (buckets s)) (expired s) (last s) (next s) (non_empty_buckets s) in
          if time timer <=? now then sort_out fuel index now (set_expired s (expired s ++ [timer]))
          else r ← insert timer s; sort_out fuel index now r.2
      end
  end.

Definition find_next (s : t) : t :=
  if (next s =? max_timestamp) && negb (non_empty_buckets s =? 0) then
    set_next s (foldl (λ n timer, Z.min n (time timer)) (next s)
      (bucket s (Z.to_nat (BitSet.get_last_set (non_empty_buckets s)))))
  else s.

Definition expire (now : Z) (s : t) : option t :=
  if now <? last s then None
  else
    index ← get_index s now;
    let s := foldl splice s (BitSet.for_each_set (non_empty_buckets s) (index + 1)) in
    let s := set_next (set_last s now) max_timestamp in
    s ← sort_out (length (bucket s index)) index now s;
    let s := mk (buckets s) (expired s) (last s) (next s)
      (BitSet.assign (non_empty_buckets s) index (match bucket s index with [] => false | _ => true end)) in
    Some (find_next s).
End Ops.

Definition pop_expired (s : t) : option nat * t :=
  match expired s with
  | [] => (None, s)
  | timer :: l => (Some timer, set_expired s l)
  end.

Definition get_next_timeout (s : t) : Z := Z.max (last s) (next s).

Definition clear (s : t) : t :=
  let s := foldl (λ s i, mk (<[i := []]> (buckets s)) (expired s) (last s) (next s) (non_empty_buckets s))
    s (BitSet.for_each_set (non_empty_buckets s) 0) in
  set_expired s [].

Definition empty (s : t) : bool := non_empty_buckets s =? 0.

End TimerSet.

(** ** The bit set is walked in order, without repetition *)

Section BitSetFacts.

Lemma assign_spec bits i j b :
  Z.testbit (BitSet.assign bits i b) (Z.of_nat j) = if decide (i = j) then b else Z.testbit bits (Z.of_nat j).
Proof.
  unfold BitSet.assign. case_decide; subst; destruct b.
  - rewrite Z.setbit_eq; [done|lia].
  - apply Z.clearbit_eq.
  - rewrite Z.setbit_neq; [done|lia..].
  - rewrite Z.clearbit_neq; [done|lia].
Qed.

Lemma assign_u64 bits i b : u64 bits → (i < 64)%nat → u64 (BitSet.assign bits i b).
Proof.
  intros Hb Hi. assert (0 ≤ BitSet.assign bits i b) as H0.
  { unfold u64, BitSet.assign in *. destruct b.
    - apply Z.lor_nonneg. split; [lia|]. apply Z.shiftl_nonneg. lia.
    - apply Z.ldiff_nonneg. lia. }
  split; [done|]. destruct (Z.eq_dec (BitSet.assign bits i b) 0) as [->|Hn]; [done|].
  apply Z.log2_lt_pow2; [lia|]. apply Znot_ge_lt. intros Hge.
  pose proof (Z.bit_log2 (BitSet.assign bits i b) ltac:(lia)) as Hbit.
  rewrite <- (Z2Nat.id (Z.log2 (BitSet.assign bits i b))), assign_spec in Hbit by apply Z.log2_nonneg.
  rewrite decide_False in Hbit by lia. rewrite Z2Nat.id in Hbit by lia.
  rewrite Z.bits_above_log2 in Hbit; [done|unfold u64 in *; lia|].
  destruct (Z.eq_dec bits 0) as [->|]; [simpl; lia|].
  enough (Z.log2 bits < 64) by lia. apply Z.log2_lt_pow2; unfold u64 in *; lia.
Qed.

Lemma u64_eq_0 bits : u64 bits → bits = 0 ↔ ∀ i, (i < 64)%nat → Z.testbit bits (Z.of_nat i) = false.
Proof.
  intros Hb. split; [intros -> i _; apply Z.bits_0|]. intros H.
  destruct (Z.eq_dec bits 0) as [|Hn]; [done|].
  pose proof (Z.bit_log2 bits ltac:(unfold u64 in *; lia)) as Hbit.
  pose proof (Z.log2_nonneg bits).
  rewrite <- (Z2Nat.id (Z.log2 bits)), H in Hbit; [done| |done].
  enough (Z.log2 bits < 64) by lia. apply Z.log2_lt_pow2; unfold u64 in *; lia.
Qed.

(** The last set bit: the highest one. *)
Lemma get_last_set_spec bits :
  u64 bits → bits ≠ 0 →
  let k := Z.to_nat (BitSet.get_last_set bits) in
  (k < 64)%nat ∧ Z.testbit bits (Z.of_nat k) = true ∧
  ∀ i, (k < i)%nat → Z.testbit bits (Z.of_nat i) = false.
Proof.
  intros Hb Hn. unfold BitSet.get_last_set, count_leading_zeros.
  rewrite (proj2 (Z.eqb_neq _ _) Hn).
  assert (0 ≤ Z.log2 bits < 64) as Hl.
  { split; [apply Z.log2_nonneg|]. apply Z.log2_lt_pow2; unfold u64 in *; lia. }
  rewrite wrap64_small by (unfold u64; lia). replace (64 - 1 - (63 - Z.log2 bits)) with (Z.log2 bits) by lia.
  cbn zeta. split_and!; [lia| |].
  - rewrite Z2Nat.id by lia. apply Z.bit_log2. unfold u64 in *. lia.
  - intros i Hi. apply Z.bits_above_log2; unfold u64 in *; lia.
Qed.

Lemma visit_advance fuel bits (i : nat) :
  0 ≤ bits → (∀ k, 64 - Z.of_nat i ≤ k → Z.testbit bits k = false) → (64 - i ≤ fuel)%nat →
  BitSet.visit fuel (BitSet.advance (BitSet.mk bits (Z.of_nat i - 1))) =
  filter (λ k, Z.testbit bits (Z.of_nat k - Z.of_nat i) = true) (seq i (64 - i)).
Proof.
  revert bits i. induction fuel as [|fuel IH]; intros bits i Hb Hhi Hf.
  { replace (64 - i)%nat with 0%nat by lia. simpl.
    assert (bits = 0) as ->; [|done]. apply Z.bits_inj_0. intros k.
    destruct (Z_lt_dec k 0); [by apply Z.testbit_neg_r|]. apply Hhi. lia. }
  unfold BitSet.advance. cbn [BitSet.bitset BitSet.index].
  destruct (Z.eqb_spec bits 0) as [->|Hn].
  { symmetry. apply filter_none. intros k _. by rewrite Z.bits_0. }
  destruct (count_trailing_zeros_spec bits ltac:(lia)) as (Hc0 & Hc1 & Hc2).
  unfold BitSet.get_first_set. set (c := count_trailing_zeros bits) in *.
  assert (c < 64 - Z.of_nat i) as Hc.
  { apply Znot_ge_lt. intros ?. rewrite Hhi in Hc1 by lia. done. }
  cbn [BitSet.visit BitSet.index]. rewrite (proj2 (Z.eqb_neq _ _)) by lia.
  replace (64 - i)%nat with (Z.to_nat c + S (64 - (i + Z.to_nat c + 1)))%nat by lia.
  rewrite seq_app, filter_app.
  replace (filter _ (seq i (Z.to_nat c))) with (@nil nat).
  2: { symmetry. apply filter_none. intros k Hk%elem_of_seq.
       rewrite Hc2 by lia. done. }
  cbn [app seq]. rewrite filter_cons_True by (rewrite <- Hc1; f_equal; lia).
  f_equal; [lia|].
  replace (Z.of_nat i - 1 + (c + 1)) with (Z.of_nat (i + Z.to_nat c + 1) - 1) by lia.
  rewrite IH; [|apply Z.shiftr_nonneg; lia| |lia].
  - replace (S (i + Z.to_nat c)) with (i + Z.to_nat c + 1)%nat by lia.
    apply filter_same. intros k Hk%elem_of_seq.
    rewrite Z.shiftr_spec by lia. by replace (Z.of_nat k - Z.of_nat (i + Z.to_nat c + 1) + (c + 1)) with (Z.of_nat k - Z.of_nat i) by lia.
  - intros k Hk. rewrite Z.shiftr_spec by lia. apply Hhi. lia.
Qed.

Lemma for_each_set_spec bits offset :
  u64 bits → (offset ≤ 64)%nat →
  BitSet.for_each_set bits offset =
  filter (λ k, Z.testbit bits (Z.of_nat k) = true) (seq offset (64 - offset)).
Proof.
  intros [Hb0 Hb] Ho. unfold BitSet.for_each_set, BitSet.begin.
  rewrite visit_advance; [|apply Z.shiftr_nonneg; lia| |lia].
  - apply filter_same. intros k Hk%elem_of_seq.
    rewrite Z.shiftr_spec by lia. by replace (Z.of_nat k - Z.of_nat offset + Z.of_nat offset) with (Z.of_nat k) by lia.
  - intros k Hk. destruct (Z_lt_dec k 0); [by apply Z.testbit_neg_r|].
    rewrite Z.shiftr_spec by lia. destruct (Z.eq_dec bits 0) as [->|]; [apply Z.bits_0|].
    apply Z.bits_above_log2; [done|]. enough (Z.log2 bits < 64) by lia.
    apply Z.log2_lt_pow2; lia.
Qed.

End BitSetFacts.

(** ** The bucket of a time

    Seen from [l], a later time [x] belongs to the bucket of the highest bit in
    which it differs from [l]. *)

Section Index.

Definition idx (l x : Z) : nat := if decide (x ≤ l) then 63%nat else Z.to_nat (62 - Z.log2 (Z.lxor x l)).

Lemma log2_lxor_lt x y k : 0 ≤ x → 0 ≤ y → x ≠ y → 0 ≤ k → Z.log2 (Z.lxor x y) < k ↔ x / 2 ^ k = y / 2 ^ k.
Proof.
  intros Hx Hy Hne Hk. rewrite <- !Z.shiftr_div_pow2 by done.
  assert (0 < Z.lxor x y) as Hp.
  { pose proof (proj2 (Z.lxor_nonneg x y) ltac:(lia)).
    enough (Z.lxor x y ≠ 0) by lia. by intros ?%Z.lxor_eq. }
  rewrite <- Z.log2_lt_pow2, <- Z.lxor_eq_0_iff, <- Z.shiftr_lxor by done.
  rewrite Z.shiftr_div_pow2 by done. rewrite Z.div_small_iff by lia. lia.
Qed.

(** The distinguishing bit, by the quotients. *)
Definition apart (b l x : Z) : Prop := 0 ≤ b ∧ l / 2 ^ (b + 1) = x / 2 ^ (b + 1) ∧ l / 2 ^ b < x / 2 ^ b.

Lemma apart_log2 l x : 0 ≤ l < x → apart (Z.log2 (Z.lxor x l)) l x.
Proof.
  intros Hl. pose proof (Z.log2_nonneg (Z.lxor x l)) as Hb.
  set (b := Z.log2 (Z.lxor x l)) in *. split_and!; [done| |].
  - symmetry. apply log2_lxor_lt; try lia.
  - pose proof (log2_lxor_lt x l b ltac:(lia) ltac:(lia) ltac:(lia) Hb) as H. fold b in H.
    pose proof (Z.div_le_mono l x (2 ^ b) ltac:(lia) ltac:(lia)). lia.
Qed.

Lemma apart_unique b l x : 0 ≤ l → apart b l x → l < x ∧ Z.log2 (Z.lxor x l) = b.
Proof.
  intros Hl (Hb & He & Hlt).
  assert (l < x) as Hx.
  { apply Znot_ge_lt. intros ?. pose proof (Z.div_le_mono x l (2 ^ b) ltac:(lia) ltac:(lia)). lia. }
  split; [done|].
  pose proof (log2_lxor_lt x l b ltac:(lia) ltac:(lia) ltac:(lia) Hb).
  pose proof (log2_lxor_lt x l (b + 1) ltac:(lia) ltac:(lia) ltac:(lia) ltac:(lia)). lia.
Qed.

Lemma apart_bound b l x : 0 ≤ l → x < 2 ^ 63 → apart b l x → b ≤ 62.
Proof.
  intros Hl Hx [H0 H]. apply Znot_gt_le. intros ?.
  rewrite (Z.div_small x (2 ^ b)) in H.
  - pose proof (Z.div_pos l (2 ^ b) ltac:(lia) ltac:(lia)). lia.
  - pose proof (Z.pow_le_mono_r 2 63 b ltac:(lia) ltac:(lia)).
    split; [|lia]. apply Znot_gt_le. intros ?.
    pose proof (Z.div_lt_upper_bound x (2 ^ b) 0 ltac:(lia) ltac:(lia)).
    pose proof (Z.div_pos l (2 ^ b) ltac:(lia) ltac:(lia)). lia.
Qed.

(** Times that agree above a bit agree above every higher one. *)
Lemma quot_le j k x y : 0 ≤ j ≤ k → x / 2 ^ j = y / 2 ^ j → x / 2 ^ k = y / 2 ^ k.
Proof.
  intros Hk H. replace k with (j + (k - j)) by lia.
  rewrite Z.pow_add_r, <- !Z.div_div by lia. by rewrite H.
Qed.

Lemma quot_lt k x y : 0 ≤ k → x / 2 ^ k < y / 2 ^ k → x < y.
Proof.
  intros Hk H. apply Znot_ge_lt. intros ?.
  pose proof (Z.div_le_mono y x (2 ^ k) ltac:(lia) ltac:(lia)). lia.
Qed.

Lemma quot_half k x : 0 ≤ k → x / 2 ^ (k + 1) = x / 2 ^ k / 2.
Proof. intros. rewrite Z.pow_add_r, Z.div_div by lia. done. Qed.

Lemma idx_cases l x :
  0 ≤ l → x < 2 ^ 63 →
  (x ≤ l ∧ idx l x = 63%nat) ∨ ∃ b, apart b l x ∧ b ≤ 62 ∧ idx l x = Z.to_nat (62 - b).
Proof.
  intros Hl Hx. unfold idx. case_decide as Hd; [by left|]. right.
  pose proof (apart_log2 l x ltac:(lia)). eauto using apart_bound.
Qed.

Lemma idx_apart b l x : 0 ≤ l → apart b l x → idx l x = Z.to_nat (62 - b).
Proof.
  intros Hl Ha. destruct (apart_unique b l x Hl Ha) as [? <-].
  unfold idx. by rewrite decide_False by lia.
Qed.

Lemma idx_bound l x : 0 ≤ l → x < 2 ^ 63 → (idx l x ≤ 63)%nat.
Proof. intros Hl Hx. destruct (idx_cases l x Hl Hx) as [[? ->]|(b & [] & ? & ->)]; lia. Qed.

(** Higher buckets hold earlier times. *)
Lemma idx_order l x y : 0 ≤ l → x < 2 ^ 63 → y < 2 ^ 63 → (idx l y < idx l x)%nat → x < y.
Proof.
  intros Hl Hx Hy. destruct (idx_cases l x Hl Hx) as [[? ->]|(b & (? & He & _) & ? & ->)];
    destruct (idx_cases l y Hl Hy) as [[? ->]|(c & (? & _ & Hc) & ? & ->)]; intros Hi; [lia| |lia|].
  - apply quot_lt in Hc; lia.
  - apply (quot_lt c); [lia|]. rewrite <- (quot_le (b + 1) c l x); [done|lia|done].
Qed.

(** Moving on from [l] to [n]: the times of the lower buckets stay where they are,
    and those of the bucket of [n] that are still to come go to higher buckets. *)
Lemma idx_stay l n x : 0 ≤ l ≤ n → n < 2 ^ 63 → x < 2 ^ 63 → (idx l x < idx l n)%nat → idx n x = idx l x.
Proof.
  intros Hl Hn Hx.
  destruct (idx_cases l n ltac:(lia) Hn) as [[? _]|(b & (? & He & ?) & ? & ->)]; intros Hi.
  { by replace n with l by lia. }
  destruct (idx_cases l x ltac:(lia) Hx) as [[_ Ex]|(c & (? & Hc & Hlt) & ? & Ex)]; [lia|].
  rewrite Ex in *. apply idx_apart; [lia|]. split_and!; [done| |].
  - rewrite <- Hc. symmetry. apply (quot_le (b + 1)); [lia|done].
  - rewrite <- (quot_le (b + 1) c l n); [done|lia|done].
Qed.

Lemma idx_move l n x :
  0 ≤ l ≤ n → n < x → x < 2 ^ 63 → idx l x = idx l n → (idx l n < idx n x)%nat ∧ (idx n x < 63)%nat.
Proof.
  intros Hl Hn Hx.
  destruct (idx_cases l n ltac:(lia) ltac:(lia)) as [[? ->]|(b & (? & He & ?) & ? & ->)];
    destruct (idx_cases l x ltac:(lia) Hx) as [[? Ex]|(c & (? & Hc & Hlt) & ? & Ex)];
    rewrite Ex; intros Hi; [lia..|].
  assert (c = b) as -> by lia.
  destruct (idx_cases n x ltac:(lia) Hx) as [[? _]|(d & (? & Hd & Hdlt) & ? & ->)]; [lia|].
  enough (d < b) by lia. apply Znot_ge_lt. intros ?.
  assert (n / 2 ^ b = x / 2 ^ b) as Hq.
  { rewrite !quot_half in He, Hc by lia.
    pose proof (Z.div_mod (l / 2 ^ b) 2). pose proof (Z.div_mod (n / 2 ^ b) 2).
    pose proof (Z.div_mod (x / 2 ^ b) 2).
    pose proof (Z.mod_pos_bound (l / 2 ^ b) 2). pose proof (Z.mod_pos_bound (n / 2 ^ b) 2).
    pose proof (Z.mod_pos_bound (x / 2 ^ b) 2). lia. }
  apply (quot_le b d) in Hq; lia.
Qed.

Lemma get_index_idx s x :
  0 ≤ TimerSet.last s → x < 2 ^ 63 → TimerSet.get_index s x = Some (idx (TimerSet.last s) x).
Proof.
  intros Hl Hx. unfold TimerSet.get_index, BitSet.count_leading_zeros_long, idx.
  case_decide as Hd; [by rewrite (proj2 (Z.leb_le _ _) Hd)|].
  rewrite (proj2 (Z.leb_gt _ _)) by lia.
  pose proof (apart_log2 (TimerSet.last s) x ltac:(lia)) as Ha.
  pose proof (apart_bound _ _ _ Hl Hx Ha) as Hb. destruct Ha as [Hb0 _].
  assert (0 ≤ Z.lxor x (TimerSet.last s)) as Hn by (apply Z.lxor_nonneg; lia).
  assert (Z.lxor x (TimerSet.last s) ≠ 0) as Hne by (intros ?%Z.lxor_eq; lia).
  assert (u64 (Z.lxor x (TimerSet.last s))) as Hu.
  { split; [done|]. apply Z.log2_lt_pow2; lia. }
  rewrite (wrap64_small (Z.lxor _ _)) by done.
  unfold count_leading_zeros. rewrite (proj2 (Z.eqb_neq _ _) Hne).
  rewrite wrap64_small by (unfold u64; lia). cbn zeta.
  rewrite (proj2 (Z.ltb_lt _ _)) by lia. f_equal. lia.
Qed.

End Index.
