(* ===== verification/TimerSetSpec.v ===== *)
(** * What the timer set does

    The invariant of the buckets, the effect of every operation on the sets of
    active and of expired timers, and the refinement of the pair of these sets. *)
From S2P Require Import Prelude Bits TimerSet.
Import TimerSet.


(** ** Lists of buckets *)

Section Buckets.
Implicit Types (s : TimerSet.t) (bs : list (list nat)).

Definition active (s : TimerSet.t) : list nat := concat (buckets s).

Lemma concat_insert bs i l l0 : bs !! i = Some l0 → concat (<[i := l]> bs) ++ l0 ≡ₚ concat bs ++ l.
Proof.
  revert i. induction bs as [|b bs IH]; intros [|i] H; simplify_eq/=.
  - solve_Permutation.
  - rewrite <- !app_assoc. by rewrite (IH i H).
Qed.

Lemma elem_of_active s timer : timer ∈ active s ↔ ∃ i, timer ∈ bucket s i.
Proof.
  unfold active, bucket. rewrite list_elem_of_In, in_concat. setoid_rewrite <- list_elem_of_In. split.
  - intros (l & [i Hi]%list_elem_of_lookup & Hl). exists i. by rewrite Hi.
  - intros [i Hi]. destruct (buckets s !! i) as [l|] eqn:E; [|by apply elem_of_nil in Hi].
    exists l. split; [|done]. by eapply list_elem_of_lookup_2.
Qed.

Lemma bucket_insert s i j l e la n ne :
  length (buckets s) = 64%nat → (i < 64)%nat →
  bucket (mk (<[i := l]> (buckets s)) e la n ne) j = if decide (i = j) then l else bucket s j.
Proof.
  intros Hlen Hi. unfold bucket. cbn [buckets]. case_decide; subst.
  - by rewrite list_lookup_insert_eq by lia.
  - by rewrite list_lookup_insert_ne.
Qed.

Lemma active_insert s i l e la n ne :
  length (buckets s) = 64%nat → (i < 64)%nat →
  active (mk (<[i := l]> (buckets s)) e la n ne) ++ bucket s i ≡ₚ active s ++ l.
Proof.
  intros Hlen Hi. unfold active, bucket. cbn [buckets].
  destruct (lookup_lt_is_Some_2 (buckets s) i ltac:(lia)) as [l0 E].
  rewrite E. by apply concat_insert.
Qed.

End Buckets.

(** ** The invariant *)

Section Spec.
Context (time : nat → Z).
Implicit Types (s : TimerSet.t) (timer : nat).

(** The bits but one tell which buckets have timers. *)
Definition marked (except : nat) s : Prop :=
  length (buckets s) = 64%nat ∧ u64 (non_empty_buckets s) ∧
  ∀ i, (i < 64)%nat → i ≠ except →
    Z.testbit (non_empty_buckets s) (Z.of_nat i) = bool_decide (bucket s i ≠ []).

(** Every timer is in its bucket, as seen from [l]. *)
Definition placed (l : Z) s (i : nat) : Prop := ∀ timer, timer ∈ bucket s i → idx l (time timer) = i ∧ time timer < 2 ^ 63.

Record wf s : Prop := {
  wf_last : 0 ≤ last s < 2 ^ 63;
  wf_marked : marked 64 s;
  wf_placed : ∀ i, placed (last s) s i;
  wf_nodup : NoDup (active s ++ expired s);
  wf_next : next s ≤ max_timestamp;
  wf_least : ∀ timer, timer ∈ active s → next s ≤ time timer;
}.

Lemma marked_set i except s l b e la n :
  marked except s → (i < 64)%nat → (i ≠ except → b = bool_decide (l ≠ [])) →
  marked except (mk (<[i := l]> (buckets s)) e la n (BitSet.assign (non_empty_buckets s) i b)).
Proof.
  intros (Hlen & Hu & Hm) Hi Hb. split_and!.
  - cbn [buckets]. by rewrite length_insert.
  - cbn [non_empty_buckets]. by apply assign_u64.
  - intros j Hj Hne. cbn [non_empty_buckets]. rewrite assign_spec, bucket_insert by done.
    case_decide; subst; [by apply Hb|]. by apply Hm.
Qed.

Lemma make_wf : wf make.
Proof.
  assert (∀ i, bucket make i = []) as Hb.
  { intros i. unfold bucket, make. cbn [buckets].
    destruct (replicate n_buckets [] !! i) as [l|] eqn:E; [|done].
    by apply lookup_replicate in E as [-> _]. }
  assert (active make = []) as Ha by reflexivity.
  split; cbn [last next expired make]; unfold max_timestamp; try lia.
  - split_and!; [done|unfold u64; simpl; lia|]. intros i Hi _. rewrite Hb. cbn. by rewrite Z.bits_0.
  - intros i timer. rewrite Hb. by intros ?%elem_of_nil.
  - rewrite Ha. constructor.
  - intros timer. rewrite Ha. by intros ?%elem_of_nil.
Qed.

(** ** Insertion and removal *)

(** What [insert] does to the buckets, whatever the rest of the set is like. *)
Lemma insert_eq timer s :
  0 ≤ last s → time timer < 2 ^ 63 →
  let i := idx (last s) (time timer) in
  insert time timer s =
  Some (time timer <? next s,
        mk (<[i := bucket s i ++ [timer]]> (buckets s)) (expired s) (last s) (Z.min (next s) (time timer))
          (BitSet.assign (non_empty_buckets s) i true)).
Proof.
  intros Hl Ht. unfold insert. rewrite get_index_idx by done. cbn -[BitSet.assign idx].
  destruct (Z.ltb_spec (time timer) (next s)); unfold set_bucket, set_next; cbn -[BitSet.assign idx].
  - by rewrite Z.min_r by lia.
  - by rewrite Z.min_l by lia.
Qed.

Lemma active_append s i l e la n ne :
  length (buckets s) = 64%nat → (i < 64)%nat →
  active (mk (<[i := bucket s i ++ l]> (buckets s)) e la n ne) ≡ₚ l ++ active s.
Proof.
  intros Hlen Hi. apply (Permutation_app_inv_r (bucket s i)).
  rewrite active_insert by done. solve_Permutation.
Qed.

Lemma insert_wf timer s :
  wf s → time timer < 2 ^ 63 → timer ∉ active s ++ expired s →
  ∃ s', insert time timer s = Some (time timer <? next s, s') ∧ wf s' ∧
    active s' ≡ₚ timer :: active s ∧ expired s' = expired s ∧ last s' = last s ∧
    next s' = Z.min (next s) (time timer).
Proof.
  intros [Hl Hm Hp Hnd Hn Hle] Ht Hnew. rewrite insert_eq by (lia || done). eexists. split; [done|].
  set (i := idx (last s) (time timer)).
  assert (i < 64)%nat as Hi by (pose proof (idx_bound (last s) (time timer) ltac:(lia) Ht); lia).
  destruct Hm as (Hlen & Hm).
  pose proof (active_append s i [timer] (expired s) (last s) (Z.min (next s) (time timer))
    (BitSet.assign (non_empty_buckets s) i true) Hlen Hi) as Ha.
  split; [|done]. split; cbn [last next expired]; [done| | | |lia|].
  - apply marked_set; [done..|]. intros _. symmetry. apply bool_decide_eq_true. by destruct (bucket s i).
  - intros j u. rewrite bucket_insert by done. case_decide; [|apply Hp]. subst j.
    rewrite elem_of_app, list_elem_of_singleton. intros [?| ->]; [by apply Hp|done].
  - rewrite Ha. cbn [app]. by apply NoDup_cons.
  - intros u. rewrite Ha. cbn [app]. rewrite elem_of_cons. intros [->|?%Hle]; lia.
Qed.

Lemma active_remove s i timer e la n ne :
  length (buckets s) = 64%nat → (i < 64)%nat → timer ∈ bucket s i →
  timer :: active (mk (<[i := erase timer (bucket s i)]> (buckets s)) e la n ne) ≡ₚ active s.
Proof.
  intros Hlen Hi Ht. apply (Permutation_app_inv_r (bucket s i)).
  rewrite <- app_comm_cons, active_insert by done.
  rewrite (erase_perm timer (bucket s i) Ht) at 2. solve_Permutation.
Qed.

Lemma remove_wf timer s :
  wf s → timer ∈ active s →
  ∃ s', remove time timer s = Some s' ∧ wf s' ∧
    timer :: active s' ≡ₚ active s ∧ expired s' = expired s ∧ last s' = last s ∧ next s' = next s.
Proof.
  intros [Hl Hm Hp Hnd Hn Hle] [i Hin]%elem_of_active.
  destruct (Hp i timer Hin) as [Hidx Ht]. unfold remove. rewrite get_index_idx by (lia || done).
  rewrite Hidx. cbn -[BitSet.assign]. rewrite decide_True by done. eexists. split; [done|].
  assert (i < 64)%nat as Hi by (pose proof (idx_bound (last s) (time timer) ltac:(lia) Ht); lia).
  pose proof Hm as (Hlen & Hu & Hbit).
  set (ne := match erase timer (bucket s i) with [] => _ | _ => _ end).
  pose proof (active_remove s i timer (expired s) (last s) (next s) ne Hlen Hi Hin) as Ha.
  split; [|done]. split; cbn [last next expired]; [done| | | |done|].
  - assert (ne = BitSet.assign (non_empty_buckets s) i (bool_decide (erase timer (bucket s i) ≠ []))) as ->.
    2: by apply marked_set.
    unfold ne. destruct (erase timer (bucket s i)) eqn:E; [done|]. rewrite bool_decide_eq_true_2 by done.
    apply Z.bits_inj'. intros k Hk. rewrite <- (Z2Nat.id k Hk), assign_spec. case_decide as Hd; [|done].
    rewrite <- Hd, Hbit by (done || lia). apply bool_decide_eq_true. intros Hnil. rewrite Hnil in Hin.
    by apply elem_of_nil in Hin.
  - intros j u. rewrite bucket_insert by done. case_decide; [|apply Hp]. subst j.
    intros Hu'%erase_subseteq. by apply Hp.
  - rewrite <- Ha in Hnd. cbn [app] in Hnd. by apply NoDup_cons in Hnd as [_ ?].
  - intros u Hu'. apply Hle. rewrite <- Ha. by right.
Qed.

(** ** Expiry *)

(** Splicing a list of buckets empties them into the expired timers. *)
Lemma splice_all L except s :
  marked except s → Forall (λ i, (i < 64)%nat) L →
  let s' := foldl splice s L in
  marked except s' ∧ last s' = last s ∧ next s' = next s ∧
  (∀ i, bucket s' i = if decide (i ∈ L) then [] else bucket s i) ∧
  active s' ++ expired s' ≡ₚ active s ++ expired s ∧
  ∃ D, expired s' = expired s ++ D ∧ ∀ timer, timer ∈ D → ∃ i, i ∈ L ∧ timer ∈ bucket s i.
Proof.
  revert s. induction L as [|i L IH]; intros s Hm HL; cbn [foldl].
  { split_and!; [done..| | |]; [|done|].
    - intros j. by rewrite decide_False by apply not_elem_of_nil.
    - exists []. rewrite app_nil_r. split; [done|]. by intros ? ?%elem_of_nil. }
  apply Forall_cons in HL as [Hi HL].
  assert (∀ j, bucket (splice s i) j = if decide (i = j) then [] else bucket s j) as Hb.
  { intros j. unfold splice, set_bucket. rewrite <- (bucket_insert _ i j [] (expired (set_expired s (expired s ++ bucket s i))) (last s) (next s) (BitSet.assign (non_empty_buckets s) i false)); [done|apply Hm|done]. }
  destruct (IH (splice s i)) as (Hm' & Hl & Hn & Hbs & Hp & D & HD & Hin); [|done|].
  { apply marked_set; [exact Hm|done|]. intros _. done. }
  split_and!; [done..| | |].
  - intros j. rewrite Hbs, Hb. destruct (decide (i = j)) as [->|]; [rewrite (decide_True (P := j ∈ j :: L)) by left; by case_decide|].
    repeat case_decide; set_solver.
  - rewrite Hp. unfold splice at 2. cbn [expired set_bucket set_expired].
    unfold splice, set_bucket, set_expired. cbn [buckets expired last next non_empty_buckets].
    pose proof (active_insert s i [] (expired s ++ bucket s i) (last s) (next s)
      (BitSet.assign (non_empty_buckets s) i false) ltac:(apply Hm) Hi) as Ha.
    rewrite app_nil_r in Ha. rewrite <- Ha. solve_Permutation.
  - exists (bucket s i ++ D). rewrite HD. unfold splice at 1. cbn [expired set_bucket set_expired].
    rewrite app_assoc. split; [done|]. intros timer [?|(j & Hj & Ht)%Hin]%elem_of_app.
    + exists i. split; [left|done].
    + exists j. rewrite Hb in Ht. case_decide; [by apply elem_of_nil in Ht|]. split; [by right|done].
Qed.

(** The loop over the bucket [index] of the new time [now], [l] being the old one. *)
Record sorting (l now : Z) (index : nat) s : Prop := {
  so_last : last s = now;
  so_marked : marked index s;
  so_placed : ∀ i, i ≠ index → placed now s i;
  so_later : ∀ i timer, i ≠ index → timer ∈ bucket s i → now < time timer;
  so_old : placed l s index;
  so_next : next s ≤ max_timestamp;
  so_least : ∀ i timer, (index < i)%nat → timer ∈ bucket s i → next s ≤ time timer;
  so_exact : next s = max_timestamp ∨ ∃ i timer, (index < i)%nat ∧ timer ∈ bucket s i ∧ next s = time timer;
}.

(** One timer is taken off the front of the bucket. *)
Lemma sorting_pop l now index s timer rest e :
  sorting l now index s → (index < 64)%nat → bucket s index = timer :: rest →
  let s' := mk (<[index := rest]> (buckets s)) e (last s) (next s) (non_empty_buckets s) in
  sorting l now index s' ∧ bucket s' index = rest ∧ timer :: active s' ≡ₚ active s.
Proof.
  intros [Hl (Hlen & Hu & Hm) Hp Hla Ho Hn Hle Hex] Hi Hb s'.
  assert (∀ j, bucket s' j = if decide (index = j) then rest else bucket s j) as Hb'
    by (intros; unfold s'; by rewrite bucket_insert).
  assert (∀ j, j ≠ index → bucket s' j = bucket s j) as Hne
    by (intros; rewrite Hb'; by rewrite decide_False).
  split_and!; [split; cbn [last next]; [done| | | | |done| |]| |].
  - split_and!; [unfold s'; cbn [buckets]; by rewrite length_insert|done|].
    intros i Hi' Hni. rewrite Hne by done. by apply Hm.
  - intros i Hni u. rewrite Hne by done. by apply Hp.
  - intros i u Hni. rewrite Hne by done. by apply Hla.
  - intros u. rewrite Hb', decide_True by done. intros ?. apply Ho. rewrite Hb. by right.
  - intros i u ?. rewrite Hne by lia. by apply Hle.
  - destruct Hex as [?|(i & u & ? & ? & ?)]; [by left|]. right. exists i, u. rewrite Hne by lia. done.
  - by rewrite Hb', decide_True.
  - apply (Permutation_app_inv_r (bucket s index)). unfold s'. rewrite <- app_comm_cons, active_insert, Hb by done.
    solve_Permutation.
Qed.

(** One timer that is still to come is put into the bucket it now belongs to. *)
Lemma sorting_insert l now index s timer :
  sorting l now index s → 0 ≤ l ≤ now → index = idx l now → now < time timer → time timer < 2 ^ 63 →
  idx l (time timer) = index →
  ∃ b s', insert time timer s = Some (b, s') ∧ sorting l now index s' ∧
    bucket s' index = bucket s index ∧ active s' ≡ₚ timer :: active s ∧ expired s' = expired s.
Proof.
  intros [Hl Hm Hp Hla Ho Hn Hle Hex] Hnow Hi Ht Ht' Hidx.
  rewrite insert_eq by (rewrite ?Hl; lia). rewrite Hl.
  destruct (idx_move l now (time timer)) as [Hgt Hlt]; [lia..|congruence|].
  set (k := idx now (time timer)) in *. rewrite <- Hi in Hgt.
  pose proof Hm as (Hlen & _).
  eexists _, _. split; [done|]. set (s' := mk _ _ _ _ _).
  assert (∀ j, bucket s' j = if decide (k = j) then bucket s k ++ [timer] else bucket s j) as Hb
    by (intros; unfold s'; by rewrite bucket_insert by lia).
  assert (∀ j u, u ∈ bucket s j → u ∈ bucket s' j) as Hmono.
  { intros j u Hu. rewrite Hb. case_decide; subst; [apply elem_of_app; by left|done]. }
  assert (timer ∈ bucket s' k) as Hin.
  { rewrite Hb, decide_True by done. apply elem_of_app. right. by left. }
  split_and!; [split; cbn [last next s']; [done| | | | |lia| |]| |apply active_append; [done|lia]|done].
  - apply marked_set; [done|lia|]. intros _. symmetry. apply bool_decide_eq_true. by destruct (bucket s k).
  - intros j Hj u. rewrite Hb. case_decide; [subst j|by apply Hp].
    intros [?|Hu]%elem_of_app; [by apply Hp|]. apply list_elem_of_singleton in Hu as ->. done.
  - intros j u Hj. rewrite Hb. case_decide; [subst j|by apply Hla].
    intros [?|Hu]%elem_of_app; [by eapply Hla|]. by apply list_elem_of_singleton in Hu as ->.
  - intros u. rewrite Hb, decide_False by lia. apply Ho.
  - intros j u Hj. rewrite Hb. case_decide; [|intros ?%Hle; lia].
    subst j. intros [?%Hle|Hu]%elem_of_app; [lia..|]. apply list_elem_of_singleton in Hu as ->. lia.
  - destruct (Z.min_spec (next s) (time timer)) as [[? ->]|[? ->]]; [|right; by exists k, timer].
    destruct Hex as [?|(j & u & ? & ? & ?)]; [by left|]. right. exists j, u. eauto.
  - rewrite Hb, decide_False by lia. done.
Qed.

Lemma sort_out_spec l now index fuel s :
  0 ≤ l ≤ now → (index < 64)%nat → index = idx l now → sorting l now index s → (length (bucket s index) ≤ fuel)%nat →
  ∃ s' D, sort_out time fuel index now s = Some s' ∧ sorting l now index s' ∧ bucket s' index = [] ∧
    expired s' = expired s ++ D ∧ Forall (λ timer, time timer ≤ now) D ∧
    active s' ++ expired s' ≡ₚ active s ++ expired s.
Proof.
  intros Hl Hi Hidx. revert s. induction fuel as [|fuel IH]; intros s Hs Hf; cbn [sort_out];
    (destruct (bucket s index) as [|timer rest] eqn:Eb;
      [exists s, []; rewrite app_nil_r; split_and!; try done; by constructor|]); cbn [length] in Hf; [lia|].
  assert (idx l (time timer) = index ∧ time timer < 2 ^ 63) as [Ht Ht'].
  { apply (so_old _ _ _ _ Hs). rewrite Eb. by left. }
  destruct (Z.leb_spec (time timer) now) as [Hle|Hgt].
  - destruct (sorting_pop l now index s timer rest (expired s ++ [timer]) Hs Hi Eb) as (Hs1 & Hb1 & Ha1).
    destruct (IH _ Hs1) as (s' & D & E & Hs' & Hb' & He & HD & Hp); [rewrite Hb1; lia|].
    exists s', (timer :: D). split_and!; [exact E|done..| |by constructor|].
    + rewrite He. cbn [expired]. by rewrite <- app_assoc.
    + rewrite Hp. cbn [expired]. rewrite <- Ha1. solve_Permutation.
  - destruct (sorting_pop l now index s timer rest (expired s) Hs Hi Eb) as (Hs1 & Hb1 & Ha1).
    destruct (sorting_insert l now index _ timer Hs1 Hl Hidx ltac:(lia) Ht' Ht)
      as (b & s2 & E2 & Hs2 & Hb2 & Ha2 & He2).
    rewrite E2. cbn [mbind option_bind snd].
    destruct (IH _ Hs2) as (s' & D & E & Hs' & Hb' & He & HD & Hp); [rewrite Hb2, Hb1; lia|].
    exists s', D. split_and!; [exact E|done..| |done|].
    + by rewrite He, He2.
    + rewrite Hp, Ha2, Ha1, He2. done.
Qed.

Lemma foldl_min (ts : list nat) n :
  let m := foldl (λ n timer, Z.min n (time timer)) n ts in
  m ≤ n ∧ (∀ timer, timer ∈ ts → m ≤ time timer) ∧ (m = n ∨ ∃ timer, timer ∈ ts ∧ m = time timer).
Proof.
  revert n. induction ts as [|u ts IH]; intros n; cbn [foldl].
  { split_and!; [done| |by left]. by intros ? ?%elem_of_nil. }
  destruct (IH (Z.min n (time u))) as (Hle & Hall & Hex). split_and!; [lia| |].
  - intros timer [->|?]%elem_of_cons; [lia|by apply Hall].
  - destruct Hex as [->|(timer & ? & ?)]; [|right; exists timer; split; [by right|done]].
    destruct (Z.min_spec n (time u)) as [[_ ->]|[_ ->]]; [by left|]. right. exists u. split; [by left|done].
Qed.

(** The least timeout of the active timers. *)
Definition least s : Z := foldr Z.min max_timestamp (time <$> active s).

Lemma least_unique s n :
  n ≤ max_timestamp → (∀ timer, timer ∈ active s → n ≤ time timer) →
  n = max_timestamp ∨ (∃ timer, timer ∈ active s ∧ n = time timer) → n = least s.
Proof.
  unfold least. generalize (active s). intros ts Hn Hall Hex.
  enough (n ≤ foldr Z.min max_timestamp (time <$> ts) ∧
          (∀ timer, timer ∈ ts → foldr Z.min max_timestamp (time <$> ts) ≤ time timer) ∧
          foldr Z.min max_timestamp (time <$> ts) ≤ max_timestamp) as (? & Hlow & ?).
  { destruct Hex as [?|(timer & Hin%Hlow & ?)]; lia. }
  clear Hex. induction ts as [|u ts IH]; csimpl.
  - split_and!; [done| |done]. by intros ? ?%elem_of_nil.
  - destruct IH as (? & ? & ?); [intros; apply Hall; by right|].
    specialize (Hall u ltac:(by left)). split_and!; [lia| |lia].
    intros timer [->|?%H0]%elem_of_cons; lia.
Qed.

Lemma bucket_lt s i timer : length (buckets s) = 64%nat → timer ∈ bucket s i → (i < 64)%nat.
Proof.
  intros Hlen Hin. apply Nat.nle_gt. intros ?. unfold bucket in Hin.
  rewrite lookup_ge_None_2 in Hin by lia. by apply elem_of_nil in Hin.
Qed.

(** The bit of a bucket with a timer is set. *)
Lemma marked_elem s i timer : marked 64 s → timer ∈ bucket s i → Z.testbit (non_empty_buckets s) (Z.of_nat i) = true.
Proof.
  intros (Hlen & _ & Hm) Hin. pose proof (bucket_lt s i timer Hlen Hin). rewrite Hm by lia.
  apply bool_decide_eq_true. intros Hnil. rewrite Hnil in Hin. by apply elem_of_nil in Hin.
Qed.

Lemma empty_active s : marked 64 s → empty s = true ↔ active s = [].
Proof.
  intros Hs. pose proof Hs as (Hlen & Hu & Hm). unfold empty. rewrite Z.eqb_eq, u64_eq_0 by done. split.
  - intros H0. apply elem_of_nil_inv. intros timer [i Hi]%elem_of_active.
    pose proof (marked_elem s i timer Hs Hi). rewrite H0 in *; [done|]. by eapply bucket_lt.
  - intros Ha i Hi. rewrite Hm by lia. apply bool_decide_eq_false. intros Hne. apply Hne.
    apply elem_of_nil_inv. intros timer Hin. apply (not_elem_of_nil timer). rewrite <- Ha.
    apply elem_of_active. by exists i.
Qed.

Lemma find_next_spec l now index s :
  sorting l now index s → 0 ≤ now → marked 64 s → bucket s index = [] →
  let s' := find_next time s in
  (buckets s', expired s', last s', non_empty_buckets s') =
    (buckets s, expired s, last s, non_empty_buckets s) ∧
  next s' ≤ max_timestamp ∧ (∀ timer, timer ∈ active s → next s' ≤ time timer) ∧ next s' = least s.
Proof.
  intros [Hl _ Hp _ _ Hn Hle Hex] Hnow Hs Hb s'. pose proof Hs as (Hlen & Hu & Hm).
  assert (∀ i, placed now s i) as Hpl.
  { intros i. destruct (decide (i = index)) as [->|]; [|by apply Hp].
    intros timer. rewrite Hb. by intros ?%elem_of_nil. }
  assert (∀ i j t u, (i < j)%nat → t ∈ bucket s i → u ∈ bucket s j → time u ≤ time t) as Hord.
  { intros i j t u Hij [<- ?]%Hpl [<- ?]%Hpl. apply Z.lt_le_incl, (idx_order now); lia. }
  enough ((buckets s', expired s', last s', non_empty_buckets s') =
          (buckets s, expired s, last s, non_empty_buckets s) ∧
          next s' ≤ max_timestamp ∧ (∀ timer, timer ∈ active s → next s' ≤ time timer) ∧
          (next s' = max_timestamp ∨ ∃ timer, timer ∈ active s ∧ next s' = time timer)) as (? & ? & ? & ?)
    by (split_and!; try done; by apply least_unique).
  subst s'. unfold find_next. destruct (Z.eqb_spec (next s) max_timestamp) as [En|En]; cbn [andb].
  - destruct (non_empty_buckets s =? 0) eqn:E0; cbn [negb].
    + apply empty_active in E0; [|done]. rewrite E0. split_and!; [done..| |by left]. by intros ? ?%elem_of_nil.
    + apply Z.eqb_neq in E0. destruct (get_last_set_spec _ Hu E0) as (Hk & Hbit & Htop).
      set (k := Z.to_nat _) in *. destruct (foldl_min (bucket s k) (next s)) as (Hmin & Hall & Hatt).
      cbn [set_next next buckets expired last non_empty_buckets]. set (m := foldl _ _ _) in *.
      rewrite Hm in Hbit by lia. apply bool_decide_eq_true in Hbit.
      split_and!; [done|lia| |].
      * intros timer [i Hi]%elem_of_active. pose proof (marked_elem s i timer Hs Hi) as Hbi.
        destruct (decide (i = k)) as [->|Hne]; [by apply Hall|].
        destruct (bucket s k) as [|u us] eqn:Ek; [done|].
        trans (time u); [apply Hall; by left|]. apply (Hord i k); [|done|rewrite Ek; by left].
        enough (¬ (k < i)%nat) by lia. intros Hlt%Htop. congruence.
      * destruct Hatt as [->|(u & Hin & ->)]; [by left|]. right. exists u. split; [|done].
        apply elem_of_active. by exists k.
  - destruct Hex as [?|(j & u & Hj & Hu' & Ht)]; [done|]. split_and!; [done..| |].
    + intros timer [i Hi]%elem_of_active. destruct (decide (index < i)%nat) as [|Hni]; [by eapply Hle|].
      rewrite Ht. by apply (Hord i j); [lia|..].
    + right. exists u. split; [|done]. apply elem_of_active. by exists j.
Qed.

(** The state in which the loop starts. *)
Lemma sorting_start s now :
  wf s → last s ≤ now < 2 ^ 63 →
  let index := idx (last s) now in
  let s1 := foldl splice s (BitSet.for_each_set (non_empty_buckets s) (index + 1)) in
  sorting (last s) now index (set_next (set_last s1 now) max_timestamp) ∧
  active s1 ++ expired s1 ≡ₚ active s ++ expired s ∧
  ∃ D, expired s1 = expired s ++ D ∧ Forall (λ timer, time timer ≤ now) D.
Proof.
  intros [Hl Hm Hp Hnd Hn Hle] Hnow index s1.
  assert (index ≤ 63)%nat as Hi by (apply idx_bound; lia).
  pose proof Hm as (Hlen & Hu & Hbits).
  pose proof (for_each_set_spec (non_empty_buckets s) (index + 1) Hu ltac:(lia)) as EL.
  set (L := BitSet.for_each_set _ _) in *.
  assert (∀ i, i ∈ L ↔ (index < i < 64)%nat ∧ bucket s i ≠ []) as HL.
  { intros i. rewrite EL, list_elem_of_filter, elem_of_seq. split.
    - intros [Hb ?]. rewrite Hbits in Hb by lia. apply bool_decide_eq_true in Hb. split; [lia|done].
    - intros [? ?]. rewrite Hbits by lia. rewrite bool_decide_eq_true. split; [done|lia]. }
  destruct (splice_all L 64 s Hm) as (Hm1 & Hl1 & Hn1 & Hb1 & Hp1 & D & HD & Hin).
  { apply Forall_forall. intros i [? _]%HL. lia. }
  fold s1 in Hm1, Hl1, Hn1, Hb1, Hp1, HD.
  assert (∀ i, (index < i)%nat → bucket s1 i = []) as Htop.
  { intros i Hgt. rewrite Hb1. case_decide as Hd; [done|]. rewrite HL in Hd.
    apply elem_of_nil_inv. intros timer Ht. apply Hd. pose proof (bucket_lt s i timer Hlen Ht).
    split; [lia|]. intros E. rewrite E in Ht. by apply elem_of_nil in Ht. }
  assert (∀ i, (i ≤ index)%nat → bucket s1 i = bucket s i) as Hlow.
  { intros i Hle'. rewrite Hb1, decide_False; [done|]. rewrite HL. lia. }
  split_and!; [split|done|]; cbn [last next set_next set_last]; [done| | | | |done| |by left|].
  - destruct Hm1 as (? & ? & Hm1). split_and!; [done..|]. intros i ? ?. apply Hm1; lia.
  - intros i Hne timer. change (bucket (set_next _ _) i) with (bucket s1 i).
    destruct (Nat.lt_total index i) as [?|[?|?]]; [rewrite Htop by done; by intros ?%elem_of_nil|done|].
    rewrite Hlow by lia. intros Ht. destruct (Hp i timer Ht) as [Hx ?]. split; [|done].
    rewrite (idx_stay (last s)); [done|lia..|]. by rewrite Hx.
  - intros i timer Hne. change (bucket (set_next _ _) i) with (bucket s1 i).
    destruct (Nat.lt_total index i) as [?|[?|?]]; [rewrite Htop by done; by intros ?%elem_of_nil|done|].
    rewrite Hlow by lia. intros Ht. destruct (Hp i timer Ht) as [Hx ?]. apply (idx_order (last s)); lia.
  - intros timer. change (bucket (set_next _ _) index) with (bucket s1 index).
    rewrite Hlow by done. apply Hp.
  - intros i timer Hgt. change (bucket (set_next _ _) i) with (bucket s1 i).
    rewrite Htop by done. by intros ?%elem_of_nil.
  - exists D. split; [done|]. apply Forall_forall. intros timer (i & [? _]%HL & Ht)%Hin.
    destruct (Hp i timer Ht) as [Hx ?]. apply Z.lt_le_incl, (idx_order (last s)); lia.
Qed.

(** Splitting the timers by a property all of one part and none of the other has. *)
Lemma filter_split (Q : nat → Prop) `{!∀ x, Decision (Q x)} (l a d e : list nat) :
  a ++ (e ++ d) ≡ₚ l ++ e → Forall Q a → Forall (λ x, ¬ Q x) d →
  a ≡ₚ filter Q l ∧ d ≡ₚ filter (λ x, ¬ Q x) l.
Proof.
  intros Hp Ha Hd. rewrite Forall_forall in Ha, Hd.
  assert (l ≡ₚ a ++ d) as ->.
  { apply (Permutation_app_inv_r e). rewrite <- Hp. solve_Permutation. }
  rewrite !filter_app. rewrite (filter_all Q a), (filter_none Q d), (filter_none _ a), (filter_all _ d); try done.
  - by rewrite app_nil_r.
  - intros x Hx Hn. by apply Hn, Ha.
Qed.

(** The end of [expire], the bucket of the new time being empty. *)
Lemma expire_finish l now index s :
  sorting l now index s → 0 ≤ now < 2 ^ 63 → (index < 64)%nat → bucket s index = [] → NoDup (active s ++ expired s) →
  let s' := find_next time (mk (buckets s) (expired s) (last s) (next s) (BitSet.assign (non_empty_buckets s) index false)) in
  wf s' ∧ active s' = active s ∧ expired s' = expired s ∧ last s' = now ∧ next s' = least s' ∧
  Forall (λ timer, now < time timer) (active s).
Proof.
  intros Hso Hnow Hi Hb Hnd. set (s4 := mk _ _ _ _ _).
  assert (marked 64 s4) as Hm4.
  { destruct (so_marked _ _ _ _ Hso) as (Hlen & Hu & Hm). split_and!; [done|by apply assign_u64|].
    intros i Hi' _. unfold s4. cbn [non_empty_buckets]. rewrite assign_spec. case_decide; [subst i|by apply Hm].
    change (bucket _ index) with (bucket s index). by rewrite Hb. }
  assert (sorting l now index s4) as Hso4.
  { destruct Hso. split; try done. destruct Hm4 as (? & ? & Hm4). split_and!; [done..|].
    intros i ? ?. apply Hm4; lia. }
  destruct (find_next_spec l now index s4 Hso4 ltac:(lia) Hm4 Hb) as (Heq & Hn5 & Hle5 & Hx5).
  intros s5. fold s5 in Heq, Hn5, Hle5, Hx5. injection Heq as Eb Ee El Ene.
  assert (active s5 = active s) as Ea by (unfold active; by rewrite Eb).
  assert (last s5 = now) as El5 by (rewrite El; apply (so_last _ _ _ _ Hso)).
  assert (∀ i, bucket s5 i = bucket s i) as Eb5 by (intros i; unfold bucket; by rewrite Eb).
  split_and!; [split|done|done|done| |].
  - rewrite El5. lia.
  - destruct Hm4 as (? & ? & Hm4). unfold marked. rewrite Eb, Ene. split_and!; [done..|].
    intros i. rewrite Eb5. apply Hm4.
  - rewrite El5. intros i timer. rewrite Eb5. destruct (decide (i = index)) as [->|]; [|by apply (so_placed _ _ _ _ Hso)].
    rewrite Hb. by intros ?%elem_of_nil.
  - by rewrite Ea, Ee.
  - done.
  - rewrite Ea. apply Hle5.
  - unfold least. rewrite Ea. apply Hx5.
  - apply Forall_forall. intros timer [i Hti]%elem_of_active. destruct (decide (i = index)) as [->|Hne].
    + rewrite Hb in Hti. by apply elem_of_nil in Hti.
    + by eapply (so_later _ _ _ _ Hso).
Qed.

Lemma expire_wf now s :
  wf s → last s ≤ now < 2 ^ 63 →
  ∃ s' D, expire time now s = Some s' ∧ wf s' ∧ expired s' = expired s ++ D ∧
    D ≡ₚ filter (λ timer, time timer ≤ now) (active s) ∧
    active s' ≡ₚ filter (λ timer, now < time timer) (active s) ∧
    last s' = now ∧ next s' = least s'.
Proof.
  intros Hs Hnow. pose proof (wf_last _ Hs) as Hl. unfold expire.
  rewrite (proj2 (Z.ltb_ge _ _)) by lia. rewrite get_index_idx by lia. cbn [mbind option_bind].
  destruct (sorting_start s now Hs Hnow) as (Hso & Hp & D & HD & Hdue).
  set (s1 := foldl splice s _) in *. set (s2 := set_next _ _) in *. set (index := idx (last s) now) in *.
  assert (index < 64)%nat as Hi by (pose proof (idx_bound (last s) now ltac:(lia) ltac:(lia)); lia).
  destruct (sort_out_spec (last s) now index (length (bucket s2 index)) s2 ltac:(lia) Hi eq_refl Hso)
    as (s3 & D3 & -> & Hso3 & Hb3 & He3 & HD3 & Hp3); [done|].
  cbn [mbind option_bind]. rewrite Hb3.
  assert (active s3 ++ expired s3 ≡ₚ active s ++ expired s) as Hperm by (rewrite Hp3; exact Hp).
  assert (NoDup (active s3 ++ expired s3)) as Hnd by (rewrite Hperm; apply (wf_nodup _ Hs)).
  destruct (expire_finish (last s) now index s3 Hso3 ltac:(lia) Hi Hb3 Hnd) as (Hwf & Ea & Ee & El & Hx & Hlater).
  assert (expired s3 = expired s ++ (D ++ D3)) as Eexp.
  { rewrite He3. change (expired s2) with (expired s1). by rewrite HD, app_assoc. }
  rewrite Eexp in Hperm.
  destruct (filter_split (λ timer, now < time timer) _ _ _ _ Hperm Hlater) as [Ha Hd].
  { eapply Forall_impl; [by apply Forall_app_2|]. cbn. lia. }
  eexists _, (D ++ D3). split; [done|]. split_and!; [exact Hwf|rewrite Ee; exact Eexp| |rewrite Ea; exact Ha|exact El|exact Hx].
  rewrite Hd. erewrite filter_same; [done|]. cbn. lia.
Qed.

End Spec.

(** Taking an expired timer; and the times of the timers that are not active are of
    no interest. *)
Lemma wf_pop time s timer rest :
  wf time s → expired s = timer :: rest → wf time (set_expired s rest) ∧ timer ∉ active s ++ rest.
Proof.
  intros Hs E. pose proof (wf_nodup _ _ Hs) as Hnd.
  assert (active s ++ expired s ≡ₚ timer :: (active s ++ rest)) as Hp by (rewrite E; solve_Permutation).
  rewrite Hp in Hnd. apply NoDup_cons in Hnd as [? ?]. destruct Hs. by split.
Qed.

Lemma wf_time time time' s : (∀ timer, timer ∈ active s → time timer = time' timer) → wf time s → wf time' s.
Proof.
  intros Ht [? ? Hp ? ? Hle]. split; try done.
  - intros i timer Hin. rewrite <- Ht by (apply elem_of_active; eauto). by apply Hp.
  - intros timer Hin. rewrite <- Ht by done. by apply Hle.
Qed.

(** ** The sets of timers

    What the code promises: a set of active and a set of expired timers, the time of
    the last [expire], and the time at which the next one is due.  It differs from the
    comments of the class in two points.  The result of [insert] is about [alarm],
    where the comment says [get_next_timeout], which may be later: the two differ for
    a timer that is overdue while another overdue one is in the set.  And [clear] is
    not an operation: it leaves the set in a state that promises nothing, see
    [clear_not_empty]; nothing calls it. *)

Module TimerSpec.

Record st := mk { act : gset nat; due : gset nat; clock : Z; alarm : Z }.

Inductive op := Insert (timer : nat) | Remove (timer : nat) | Expire (now : Z) | PopExpired.
Inductive result := Done | Flag (b : bool) | Popped (timer : option nat).

Section Contract.
Context (time : nat → Z).

(** The preconditions: a timer is in one set at most, and time goes on. *)
Definition allowed (a : st) (o : op) : Prop :=
  match o with
  | Insert timer => timer ∉ act a ∪ due a ∧ time timer < 2 ^ 63
  | Remove timer => timer ∈ act a
  | Expire now => clock a ≤ now < 2 ^ 63
  | PopExpired => True
  end.

#[global] Instance allowed_dec a o : Decision (allowed a o).
Proof. destruct o; cbn; apply _. Defined.

Definition earliest (s : gset nat) (n : Z) : Prop :=
  (s = ∅ ∧ n = max_timestamp) ∨ ((∃ timer, timer ∈ s ∧ n = time timer) ∧ ∀ timer, timer ∈ s → n ≤ time timer).

Inductive step (a : st) : op → result → st → Prop :=
  | step_insert timer :
      step a (Insert timer) (Flag (time timer <? alarm a))
        (mk ({[timer]} ∪ act a) (due a) (clock a) (Z.min (alarm a) (time timer)))
  | step_remove timer : step a (Remove timer) Done (mk (act a ∖ {[timer]}) (due a) (clock a) (alarm a))
  | step_expire now n :
      earliest (filter (λ timer, now < time timer) (act a)) n →
      step a (Expire now) Done
        (mk (filter (λ timer, now < time timer) (act a))
            (due a ∪ filter (λ timer, time timer ≤ now) (act a)) now n)
  | step_pop timer :
      timer ∈ due a → step a PopExpired (Popped (Some timer)) (mk (act a) (due a ∖ {[timer]}) (clock a) (alarm a))
  | step_pop_none : due a = ∅ → step a PopExpired (Popped None) a.

(** The operations of the code. *)
Definition exec (o : op) (s : TimerSet.t) : option (result * TimerSet.t) :=
  match o with
  | Insert timer => r ← insert time timer s; Some (Flag r.1, r.2)
  | Remove timer => s' ← remove time timer s; Some (Done, s')
  | Expire now => s' ← expire time now s; Some (Done, s')
  | PopExpired => let '(r, s') := pop_expired s in Some (Popped r, s')
  end.

Definition abs (s : TimerSet.t) : st :=
  mk (list_to_set (active s)) (list_to_set (expired s)) (last s) (next s).

Inductive reachable : TimerSet.t → Prop :=
  | reach_make : reachable make
  | reach_exec s o r s' : reachable s → allowed (abs s) o → exec o s = Some (r, s') → reachable s'.

End Contract.
End TimerSpec.

Section Refinement.
Import TimerSpec.
Context (time : nat → Z).

Lemma list_to_set_perm (l1 l2 : list nat) : l1 ≡ₚ l2 → (list_to_set l1 : gset nat) = list_to_set l2.
Proof. intros H. apply leibniz_equiv. by rewrite H. Qed.

Lemma list_to_set_filter (Q : nat → Prop) `{!∀ x, Decision (Q x)} (l : list nat) :
  (list_to_set (filter Q l) : gset nat) = filter Q (list_to_set l).
Proof. apply set_eq. intros x. rewrite elem_of_filter, !elem_of_list_to_set, list_elem_of_filter. done. Qed.

Lemma least_earliest s :
  wf time s → next s = least time s → earliest time (act (abs s)) (next s).
Proof.
  intros Hs Hn. unfold earliest, abs. cbn [act].
  destruct (active s) as [|u us] eqn:E.
  { left. split; [done|]. rewrite Hn. unfold least. by rewrite E. }
  right. split.
  - assert (u ∈ active s) as Hu by (rewrite E; by left). rewrite <- E.
    destruct (foldl_min time (active s) max_timestamp) as (H1 & H2 & H3).
    set (m := foldl _ _ _) in *. rewrite Hn. rewrite <- (least_unique time s m H1 H2 H3).
    setoid_rewrite elem_of_list_to_set. destruct H3 as [H3|?]; [|done]. exists u. split; [done|].
    specialize (H2 u Hu). rewrite H3. apply elem_of_active in Hu as [i Hi].
    destruct (wf_placed _ _ Hs i u Hi) as [_ ?]. unfold max_timestamp in *. lia.
  - intros timer. rewrite elem_of_list_to_set, <- E. apply (wf_least _ _ Hs).
Qed.

(** A step of the code is a step of the contract, and keeps the invariant. *)
Lemma exec_step o s :
  wf time s → allowed time (abs s) o →
  ∃ r s', exec time o s = Some (r, s') ∧ wf time s' ∧ step time (abs s) o r (abs s').
Proof.
  intros Hs Ho. destruct o as [timer|timer|now|]; cbn [allowed abs act due clock] in Ho; cbn [exec].
  - destruct Ho as [Hnew Ht]. destruct (insert_wf time timer s Hs Ht) as (s' & -> & Hs' & Ha & He & El & En).
    { by rewrite <- (elem_of_list_to_set (C := gset nat)), list_to_set_app. }
    eexists _, s'. split_and!; [done..|]. unfold abs at 2.
    rewrite (list_to_set_perm _ _ Ha), He, El, En. constructor.
  - rewrite elem_of_list_to_set in Ho.
    destruct (remove_wf time timer s Hs Ho) as (s' & -> & Hs' & Ha & He & El & En).
    eexists _, s'. split_and!; [done..|]. unfold abs at 2.
    replace (list_to_set (active s') : gset nat) with ((list_to_set (active s) : gset nat) ∖ {[timer]}).
    { rewrite He, El, En. constructor. }
    rewrite <- (list_to_set_perm _ _ Ha). cbn [list_to_set foldr].
    pose proof (wf_nodup _ _ Hs) as Hnd. rewrite <- Ha in Hnd. cbn [app] in Hnd.
    apply NoDup_cons in Hnd as [Hnew _]. rewrite elem_of_app in Hnew. set_solver.
  - destruct (expire_wf time now s Hs Ho) as (s' & D & -> & Hs' & He & HD & Ha & El & En).
    eexists _, s'. split_and!; [done..|]. pose proof (least_earliest s' Hs' En) as Hx.
    assert (abs s' = mk (filter (λ timer, now < time timer) (act (abs s)))
      (due (abs s) ∪ filter (λ timer, time timer ≤ now) (act (abs s))) now (next s')) as Eabs.
    { unfold abs. cbn [act due]. rewrite He, El, list_to_set_app_L.
      by rewrite (list_to_set_perm _ _ Ha), (list_to_set_perm _ _ HD), !list_to_set_filter. }
    rewrite Eabs in Hx |- *. by constructor.
  - unfold pop_expired. destruct (expired s) as [|timer rest] eqn:E.
    + eexists _, s. split_and!; [done..|]. apply step_pop_none. unfold abs. cbn [due]. by rewrite E.
    + destruct (wf_pop time s timer rest Hs E) as [Hs' Hnew].
      eexists _, _. split_and!; [done|done|].
      replace (abs (set_expired s rest)) with
        (mk (act (abs s)) (due (abs s) ∖ {[timer]}) (clock (abs s)) (alarm (abs s))).
      { apply step_pop. unfold abs. cbn [due]. rewrite E. set_solver. }
      unfold abs. cbn [act due clock alarm]. rewrite E. f_equal. cbn [expired set_expired list_to_set foldr].
      rewrite elem_of_app in Hnew. set_solver.
Qed.

Lemma reachable_wf s : reachable time s → wf time s.
Proof.
  induction 1 as [|s o r s' _ IH Ho He]; [apply make_wf|].
  destruct (exec_step o s IH Ho) as (r1 & s1 & He1 & ? & _). congruence.
Qed.

End Refinement.

Lemma insert_flag time timer s b s' :
  TimerSpec.exec time (TimerSpec.Insert timer) s = Some (TimerSpec.Flag b, s') → b = (time timer <? next s).
Proof.
  cbn [TimerSpec.exec]. unfold insert. destruct (get_index _ _) as [i|]; [|done]. cbn.
  destruct (Z.ltb_spec (time timer) (next s)); cbn; congruence.
Qed.

(** ** Properties *)

(** C19: whatever sequence of insertions, removals, expirations and pops led to a
    set, if their preconditions held on the way, then the next such operation does not
    fail and has exactly the effect of the abstract operation on the sets of active
    and expired timers; [expire] in particular moves the timers that are due, all of
    them and no others, and leaves the earliest timeout of the rest as the next one.
    [insert] returns whether the timer is earlier than all those counted for the next
    timeout; if it returns true the timer is before [get_next_timeout], as its comment
    says, and the converse holds unless the next timeout has passed already.  At all
    times [get_next_timeout] is no later than any active timer that is not due yet,
    and [empty] tells whether there are active timers. *)
Theorem timer_set_refines time s o :
  TimerSpec.reachable time s → TimerSpec.allowed time (TimerSpec.abs s) o →
  (∃ r s', TimerSpec.exec time o s = Some (r, s') ∧ TimerSpec.step time (TimerSpec.abs s) o r (TimerSpec.abs s')) ∧
  (∀ timer b s', TimerSpec.exec time (TimerSpec.Insert timer) s = Some (TimerSpec.Flag b, s') →
     (b = true → time timer < get_next_timeout s) ∧ (last s ≤ next s → time timer < get_next_timeout s → b = true)) ∧
  (∀ timer, timer ∈ TimerSpec.act (TimerSpec.abs s) → get_next_timeout s ≤ Z.max (last s) (time timer)) ∧
  (empty s = true ↔ TimerSpec.act (TimerSpec.abs s) = ∅).
Proof.
  intros Hr Ho. apply reachable_wf in Hr as Hs. split_and!.
  - destruct (exec_step time o s Hs Ho) as (r & s' & ? & _ & ?). eauto.
  - intros timer b s' He. apply insert_flag in He as ->. unfold get_next_timeout. lia.
  - intros timer. unfold TimerSpec.abs, get_next_timeout. cbn [TimerSpec.act]. rewrite elem_of_list_to_set.
    intros Hin%(wf_least _ _ Hs). lia.
  - rewrite empty_active by apply (wf_marked _ _ Hs). unfold TimerSpec.abs. cbn [TimerSpec.act].
    destruct (active s); [done|]. cbn. set_solver.
Qed.

(** Three timers at 5, 6 and 9; one is removed, and the clock is then at 5. *)
Lemma timer_set_refines_witness :
  let time n := nth n [5; 6; 9] 0 in
  ∃ r s s',
    TimerSpec.exec time (TimerSpec.Expire 5) s = Some (r, s') ∧ expired s' = [0%nat] ∧ get_next_timeout s' = 9.
Proof.
  set (time := λ n, nth n [5; 6; 9] 0). cbn zeta.
  set (next o s := default make (snd <$> TimerSpec.exec time o s)).
  set (s1 := next (TimerSpec.Insert 0) make). set (s2 := next (TimerSpec.Insert 1) s1).
  set (s3 := next (TimerSpec.Insert 2) s2). set (s4 := next (TimerSpec.Remove 1) s3).
  set (s5 := next (TimerSpec.Expire 5) s4).
  assert (TimerSpec.reachable time s4) as Hr.
  { apply (TimerSpec.reach_exec _ s3 (TimerSpec.Remove 1) TimerSpec.Done);
      [|apply (bool_decide_unpack _); vm_compute; exact I|vm_compute; reflexivity].
    apply (TimerSpec.reach_exec _ s2 (TimerSpec.Insert 2) (TimerSpec.Flag false));
      [|apply (bool_decide_unpack _); vm_compute; exact I|vm_compute; reflexivity].
    apply (TimerSpec.reach_exec _ s1 (TimerSpec.Insert 1) (TimerSpec.Flag false));
      [|apply (bool_decide_unpack _); vm_compute; exact I|vm_compute; reflexivity].
    apply (TimerSpec.reach_exec _ make (TimerSpec.Insert 0) (TimerSpec.Flag true));
      [|apply (bool_decide_unpack _); vm_compute; exact I|vm_compute; reflexivity].
    apply TimerSpec.reach_make. }
  assert (TimerSpec.exec time (TimerSpec.Expire 5) s4 = Some (TimerSpec.Done, s5)) as He by (vm_compute; reflexivity).
  destruct (timer_set_refines time s4 (TimerSpec.Expire 5) Hr) as [(r & s' & He' & _) _].
  { apply (bool_decide_unpack _). vm_compute. exact I. }
  assert (expired s5 = [0%nat]) as Hx by (vm_compute; reflexivity).
  assert (get_next_timeout s5 = 9) as Hn by (vm_compute; reflexivity).
  exists r, s4, s'. clearbody s5 s4 time. rewrite He in He'. injection He' as <- <-. auto.
Defined.

(** Two timers that are overdue: the second is before [get_next_timeout], but [insert]
    returns false. *)
Definition overdue (n : nat) : Z := nth n [2; 3] 0.
Definition one_overdue : TimerSet.t :=
  default make (s ← expire overdue 10 make; snd <$> insert overdue 0 s).

Lemma insert_not_documented :
  (fst <$> insert overdue 1 one_overdue) = Some false ∧ overdue 1 < get_next_timeout one_overdue.
Proof. split; vm_compute; reflexivity. Qed.

(** [clear] leaves the marks of the buckets it empties.  After [clear] of a set
    with one active timer no timer is left, but [empty] says that there are some,
    and the timeout of the dropped timer is still the next one. *)
Theorem clear_not_empty :
  ∃ s, insert (λ _, 7) 0 make = Some (true, s) ∧
    active (clear s) = [] ∧ expired (clear s) = [] ∧ empty (clear s) = false ∧ get_next_timeout (clear s) = 7.
Proof. eexists. split; [vm_compute; reflexivity|]. split_and!; vm_compute; reflexivity. Qed.
