(* ===== verification/TimerList.v ===== *)
(** * The timers of a CPU

    [timer_base], its clients and [timer_list] of [include/osv/sched.hh] and
    [core/sched.cc], and the one-shot timer of the local APIC that drives them
    ([arch/x64/apic-clock.cc]).  Timers and clients go by their numbers; the clients
    are threads and CPUs, whose [timer_fired] wakes a thread or does nothing, and is
    a log here.  The state is that of one CPU, on which all operations run with
    interrupts disabled; a client that has moved away is one with suspended
    timers. *)
From S2P Require Import Prelude Bits TimerSet TimerSetSpec.

Module TimerList.

Inductive state := Free | Armed | Expired.

#[global] Instance state_eq_dec : EqDecision state.
Proof. solve_decision. Defined.

(** [counter] is the count in the APIC's register and the time it counts from. *)
Record t := mk {
  last : Z;
  list : TimerSet.t;
  state_of : nat → state;
  time_of : nat → Z;
  active_timers : nat → Datatypes.list nat;
  timers_need_reload : nat → bool;
  counter : option (Z * Z);
  readings : nat;
  log : Datatypes.list nat;
}.

Definition set_last (s : t) x := mk x (list s) (state_of s) (time_of s) (active_timers s) (timers_need_reload s) (counter s) (readings s) (log s).
Definition set_list (s : t) x := mk (last s) x (state_of s) (time_of s) (active_timers s) (timers_need_reload s) (counter s) (readings s) (log s).
Definition set_state (s : t) (tm : nat) (x : state) := mk (last s) (list s) (<[tm := x]> (state_of s)) (time_of s) (active_timers s) (timers_need_reload s) (counter s) (readings s) (log s).
Definition set_time (s : t) (tm : nat) (x : Z) := mk (last s) (list s) (state_of s) (<[tm := x]> (time_of s)) (active_timers s) (timers_need_reload s) (counter s) (readings s) (log s).
Definition set_active (s : t) (c : nat) (x : Datatypes.list nat) := mk (last s) (list s) (state_of s) (time_of s) (<[c := x]> (active_timers s)) (timers_need_reload s) (counter s) (readings s) (log s).
Definition set_reload (s : t) (c : nat) (x : bool) := mk (last s) (list s) (state_of s) (time_of s) (active_timers s) (<[c := x]> (timers_need_reload s)) (counter s) (readings s) (log s).
Definition set_counter (s : t) x := mk (last s) (list s) (state_of s) (time_of s) (active_timers s) (timers_need_reload s) x (readings s) (log s).
Definition set_log (s : t) x := mk (last s) (list s) (state_of s) (time_of s) (active_timers s) (timers_need_reload s) (counter s) (readings s) x.
Definition tick (s : t) := mk (last s) (list s) (state_of s) (time_of s) (active_timers s) (timers_need_reload s) (counter s) (S (readings s)) (log s).

Definition make : t := mk TimerSet.max_timestamp TimerSet.make (λ _, Free) (λ _, 0) (λ _, []) (λ _, false) None 0 [].

Section Ops.
(** The client of a timer, and what the clock reads the n-th time it is asked. *)
Context (owner : nat → nat) (clock : nat → Z).

(** [osv::clock::uptime::now]. *)
Definition now (s : t) : Z * t := (clock (readings s), tick s).

(** [timer_base::expire]; a timer that is not in the list of its client is a failure. *)
Definition expire (tm : nat) (s : t) : option t :=
  let s := set_state s tm Expired in
  let l := active_timers s (owner tm) in
  if decide (tm ∈ l) then Some (set_log (set_active s (owner tm) (erase tm l)) (log s ++ [tm])) else None.

(** The loop over the expired timers. *)
Fixpoint notify (fuel : nat) (s : t) : option t :=
  let '(timer, l) := TimerSet.pop_expired (list s) in
  let s := set_list s l in
  match timer with
  | None => Some s
  | Some tm =>
      if decide (state_of s tm = Armed) then
        match fuel with O => None | S fuel => s ← expire tm s; notify fuel s end
      else None
  end.

(** [apic_clock_events::set]: a time that has passed already calls back at once; the
    register has 32 bits, and zero stops the timer. *)
Definition clock_event_set (fired : t → option t) (at_ nanos : Z) (s : t) : option t :=
  if nanos <=? 0 then fired s
  else
    let count := wrap32 nanos in
    Some (set_counter s (if count =? 0 then None else Some (at_, count))).

(** [timer_list::fired] from the label [again] on. *)
Fixpoint again (fuel : nat) (at_ : Z) (s : t) : option t :=
  match fuel with
  | O => None
  | S fuel =>
      let s := set_last s TimerSet.max_timestamp in
      l ← TimerSet.expire (time_of s) at_ (list s);
      s ← notify (length (TimerSet.expired l)) (set_list s l);
      if TimerSet.empty (list s) then Some s
      else
        let '(at_, s) := now s in
        let t := TimerSet.get_next_timeout (list s) in
        if t <=? at_ then again fuel at_ s
        else
          clock_event_set (λ s, let '(at_, s) := now s in again fuel at_ s) at_ (t - at_) (set_last s t)
  end.

Definition fired (s : t) : option t :=
  let '(at_, s) := now s in again (S (length (active (list s)))) at_ s.

(** The timer interrupt, the counter having run out. *)
Definition interrupt (s : t) : option t := fired (set_counter s None).

Definition rearm (s : t) : option t :=
  let t := TimerSet.get_next_timeout (list s) in
  if t <? last s then
    let s := set_last s t in
    let '(at_, s) := now s in
    clock_event_set fired at_ (t - at_) s
  else Some s.

Fixpoint suspend (timers : Datatypes.list nat) (s : t) : option t :=
  match timers with
  | [] => Some s
  | tm :: timers =>
      if decide (state_of s tm = Armed) then
        l ← TimerSet.remove (time_of s) tm (list s); suspend timers (set_list s l)
      else None
  end.

Fixpoint resume_loop (timers : Datatypes.list nat) (do_rearm : bool) (s : t) : option (bool * t) :=
  match timers with
  | [] => Some (do_rearm, s)
  | tm :: timers =>
      if decide (state_of s tm = Armed) then
        r ← TimerSet.insert (time_of s) tm (list s); resume_loop timers (do_rearm || r.1) (set_list s r.2)
      else None
  end.

Definition resume (timers : Datatypes.list nat) (s : t) : option t :=
  r ← resume_loop timers false s;
  if (r.1 : bool) then rearm r.2 else Some r.2.

Definition suspend_timers (c : nat) (s : t) : option t :=
  if timers_need_reload s c then Some s
  else let s := set_reload s c true in suspend (active_timers s c) s.

Definition resume_timers (c : nat) (s : t) : option t :=
  if negb (timers_need_reload s c) then Some s
  else let s := set_reload s c false in resume (active_timers s c) s.

(** What [set] and [reset] end with. *)
Definition insert_rearm (tm : nat) (s : t) : option t :=
  r ← TimerSet.insert (time_of s) tm (list s);
  let s := set_list s r.2 in
  if (r.1 : bool) then rearm s else Some s.

(** [timer_base::set] and [timer_base::set_with_irq_disabled]. *)
Definition set (tm : nat) (time : Z) (s : t) : option t :=
  let s := set_time (set_state s tm Armed) tm time in
  insert_rearm tm (set_active s (owner tm) (active_timers s (owner tm) ++ [tm])).

Definition cancel (tm : nat) (s : t) : option t :=
  match state_of s tm with
  | Free => Some s
  | Armed =>
      let l := active_timers s (owner tm) in
      if decide (tm ∈ l) then
        let s := set_active s (owner tm) (erase tm l) in
        l ← TimerSet.remove (time_of s) tm (list s);
        Some (set_state (set_list s l) tm Free)
      else None
  | Expired => Some (set_state s tm Free)
  end.

Definition reset (tm : nat) (time : Z) (s : t) : option t :=
  s ← match state_of s tm with
      | Armed => l ← TimerSet.remove (time_of s) tm (list s); Some (set_list s l)
      | _ => Some (set_state (set_active s (owner tm) (active_timers s (owner tm) ++ [tm])) tm Armed)
      end;
  insert_rearm tm (set_time s tm time).

Definition expired (tm : nat) (s : t) : bool := bool_decide (state_of s tm = Expired).

End Ops.
End TimerList.
