(* ===== verification/TimerListSpec.v ===== *)
(** * Timers fire on time

    The invariant of the timers of a CPU, kept by every operation: no assertion
    fails, the loop of [fired] ends, no timer fires early or twice, and the clock
    event comes in time for the next one, if its distance fits the register. *)
From S2P Require Import Prelude Bits TimerSet TimerSetSpec TimerList.
Import TimerList.

(** What is relied on of the clock: it does not go backwards, and does not overflow. *)
Record uptime (clock : nat → Z) : Prop := {
  clock_pos : 0 ≤ clock 0%nat;
  clock_mono : ∀ i, clock i ≤ clock (S i);
  clock_max : ∀ i, clock i < TimerSet.max_timestamp;
}.

Section Timers.
Context (owner : nat → nat) (clock : nat → Z) (Hclock : uptime clock).
Implicit Types (s : TimerList.t) (tm : nat) (D : Datatypes.list nat).

Lemma clock_le i j : (i ≤ j)%nat → clock i ≤ clock j.
Proof. induction 1 as [|j ? IH]; [done|]. pose proof (clock_mono _ Hclock j). lia. Qed.

Lemma clock_lt i : clock i < 2 ^ 63.
Proof. pose proof (clock_max _ Hclock i). unfold TimerSet.max_timestamp in *. lia. Qed.

Lemma clock_nonneg i : 0 ≤ clock i.
Proof. pose proof (clock_pos _ Hclock). pose proof (clock_le 0 i ltac:(lia)). lia. Qed.

(** ** The invariant *)

Definition loaded s tm : Prop := state_of s tm = Armed ∧ timers_need_reload s (owner tm) = false.

Record core s : Prop := {
  c_wf : wf (time_of s) (list s);
  c_loaded : ∀ tm, tm ∈ active (list s) ++ TimerSet.expired (list s) ↔ loaded s tm;
  c_nodup : ∀ c, NoDup (active_timers s c);
  c_owner : ∀ c tm, tm ∈ active_timers s c ↔ owner tm = c ∧ state_of s tm = Armed;
  c_range : ∀ tm, state_of s tm = Armed → time_of s tm < 2 ^ 63;
  c_clock : TimerSet.last (list s) ≤ clock (readings s);
}.

Definition base s : Prop := core s ∧ TimerSet.expired (list s) = [].

(** The clock event that was asked for last: what is left of it in the register. *)
Definition programmed s (at_ : Z) : Prop :=
  at_ < last s ∧ (∃ n, (n < readings s)%nat ∧ at_ = clock n) ∧
  counter s = if wrap32 (last s - at_) =? 0 then None else Some (at_, wrap32 (last s - at_)).

Definition event s : Prop := last s = TimerSet.max_timestamp ∨ ∃ at_, programmed s at_.

Definition good s : Prop := base s ∧ event s ∧ last s ≤ TimerSet.get_next_timeout (list s).

(** What happens to the timers when those of [D] fire. *)
Record fires s s' D : Prop := {
  f_log : log s' = log s ++ D;
  f_state : ∀ tm, state_of s' tm = if decide (tm ∈ D) then Expired else state_of s tm;
  f_time : time_of s' = time_of s;
  f_reload : timers_need_reload s' = timers_need_reload s;
  f_readings : (readings s ≤ readings s')%nat;
  f_loaded : ∀ tm, tm ∈ D → loaded s tm ∧ time_of s tm ≤ clock (readings s');
  f_nodup : NoDup D;
}.

Lemma fires_nil s s' :
  log s' = log s → state_of s' = state_of s → time_of s' = time_of s →
  timers_need_reload s' = timers_need_reload s → (readings s ≤ readings s')%nat → fires s s' [].
Proof.
  intros Hl Hs Ht Hr Hn. split; try done.
  - by rewrite app_nil_r.
  - intros tm. by rewrite decide_False, Hs by apply not_elem_of_nil.
  - by intros ? ?%elem_of_nil.
  - constructor.
Qed.

Lemma fires_trans s1 s2 s3 D1 D2 : fires s1 s2 D1 → fires s2 s3 D2 → fires s1 s3 (D1 ++ D2).
Proof.
  intros [Hl1 Hs1 Ht1 Hr1 Hn1 Hd1 Hnd1] [Hl2 Hs2 Ht2 Hr2 Hn2 Hd2 Hnd2].
  assert (∀ tm, tm ∈ D2 → tm ∉ D1 ∧ loaded s1 tm ∧ time_of s1 tm ≤ clock (readings s3)) as Hd.
  { intros tm Hin. destruct (Hd2 tm Hin) as [[Ha Hld] Ht]. rewrite Hs1 in Ha. rewrite Hr1 in Hld.
    rewrite Ht1 in Ht. case_decide; [done|]. done. }
  split.
  - by rewrite Hl2, Hl1, app_assoc.
  - intros tm. rewrite Hs2, Hs1. repeat case_decide; set_solver.
  - by rewrite Ht2.
  - by rewrite Hr2.
  - lia.
  - intros tm [Hin|Hin]%elem_of_app; [|by apply Hd]. destruct (Hd1 tm Hin) as [? ?].
    split; [done|]. pose proof (clock_le _ _ Hn2). lia.
  - apply NoDup_app. split_and!; [done| |done]. intros tm Hin Hin2. by destruct (Hd tm Hin2).
Qed.

(** ** Expiry *)

Lemma expire_core s tm rest :
  core s → TimerSet.expired (list s) = tm :: rest →
  ∃ s', expire owner tm (set_list s (TimerSet.set_expired (list s) rest)) = Some s' ∧ core s' ∧
    list s' = TimerSet.set_expired (list s) rest ∧ last s' = last s ∧ counter s' = counter s ∧
    readings s' = readings s ∧ log s' = log s ++ [tm] ∧ time_of s' = time_of s ∧
    timers_need_reload s' = timers_need_reload s ∧
    ∀ u, state_of s' u = if decide (u = tm) then Expired else state_of s u.
Proof.
  intros [Hwf Hld Hnd Hown Hrng Hclk] E. destruct (wf_pop _ _ _ _ Hwf E) as [Hwf' Hnew].
  assert (state_of s tm = Armed) as Ht by (apply (Hld tm); rewrite E; set_solver).
  unfold expire. cbn [active_timers set_state set_list].
  rewrite decide_True by (by apply Hown). eexists. split; [done|].
  assert (∀ u, <[tm := Expired]> (state_of s) u = if decide (u = tm) then Expired else state_of s u) as Hst.
  { intros u. case_decide; subst; [by rewrite fn_lookup_insert|by rewrite fn_lookup_insert_ne]. }
  split_and!; try done. split; cbn [time_of list state_of active_timers timers_need_reload readings set_log set_active set_list set_state].
  - done.
  - intros u. unfold loaded. cbn [state_of timers_need_reload set_log set_active set_list set_state]. rewrite Hst.
    specialize (Hld u). rewrite E in Hld. unfold loaded in Hld.
    change (active (TimerSet.set_expired (list s) rest)) with (active (list s)).
    cbn [TimerSet.expired TimerSet.set_expired]. rewrite !elem_of_app, elem_of_cons in *.
    case_decide; [subst; split; [tauto|by intros []]|tauto].
  - intros c. destruct (decide (c = owner tm)) as [->|]; [|by rewrite fn_lookup_insert_ne].
    rewrite fn_lookup_insert. eapply sublist_NoDup; [apply Hnd|apply erase_sublist].
  - intros c u. rewrite Hst. destruct (decide (c = owner tm)) as [->|].
    + rewrite fn_lookup_insert, erase_elem, Hown by apply Hnd. case_decide; naive_solver.
    + rewrite fn_lookup_insert_ne, Hown by done. case_decide; naive_solver.
  - intros u. rewrite Hst. case_decide; [done|apply Hrng].
  - done.
Qed.

Lemma notify_spec fuel s :
  core s → (length (TimerSet.expired (list s)) ≤ fuel)%nat →
  (∀ tm, tm ∈ TimerSet.expired (list s) → time_of s tm ≤ clock (readings s)) →
  ∃ s', notify owner fuel s = Some s' ∧ base s' ∧ list s' = TimerSet.set_expired (list s) [] ∧
    last s' = last s ∧ readings s' = readings s ∧ fires s s' (TimerSet.expired (list s)).
Proof.
  revert s. induction fuel as [|fuel IH]; intros s Hs Hf Hdue; cbn [notify]; unfold TimerSet.pop_expired;
    destruct (TimerSet.expired (list s)) as [|tm rest] eqn:E; cbn [length] in Hf; try lia.
  1,2: assert (set_list s (list s) = s) as Hid by (by destruct s); rewrite Hid; exists s; split_and!;
    [done|by split|unfold TimerSet.set_expired; rewrite <- E; by destruct (list s)|done|done|by apply fires_nil].
  assert (loaded s tm) as Hld by (apply (c_loaded _ Hs); rewrite E; set_solver).
  cbn [state_of set_list]. rewrite decide_True by apply Hld.
  destruct (expire_core s tm rest Hs E) as (s1 & -> & Hs1 & El & Elast & _ & Er & Elog & Et & Erl & Est).
  cbn [mbind option_bind]. destruct (IH s1 Hs1) as (s' & -> & Hs' & El' & Elast' & Er' & Hf').
  { rewrite El. cbn [TimerSet.expired TimerSet.set_expired]. lia. }
  { rewrite El, Et, Er. cbn [TimerSet.expired TimerSet.set_expired]. intros u Hu. apply Hdue. by right. }
  exists s'. split_and!; [done|done| |congruence|congruence|].
  - rewrite El', El. done.
  - rewrite El in Hf'. cbn [TimerSet.expired TimerSet.set_expired] in Hf'.
    change (tm :: rest) with ([tm] ++ rest). eapply fires_trans; [|done]. split; try done.
    + intros u. rewrite Est. repeat case_decide; set_solver.
    + rewrite Er. done.
    + intros u ->%list_elem_of_singleton. split; [done|]. rewrite Er. apply Hdue. by left.
    + apply NoDup_singleton.
Qed.

(** One round: the timers due at [at_] fire. *)
Lemma round_spec s at_ :
  base s → TimerSet.last (list s) ≤ at_ < 2 ^ 63 → at_ ≤ clock (readings s) →
  ∃ l s' D, TimerSet.expire (time_of s) at_ (list s) = Some l ∧
    notify owner (length (TimerSet.expired l)) (set_list s l) = Some s' ∧
    base s' ∧ fires s s' D ∧ readings s' = readings s ∧ last s' = last s ∧
    TimerSet.last (list s') = at_ ∧ TimerSet.next (list s') = least (time_of s') (list s') ∧
    active (list s') ≡ₚ filter (λ tm, at_ < time_of s tm) (active (list s)) ∧
    ∀ tm, tm ∈ active (list s) → time_of s tm ≤ at_ → tm ∈ D.
Proof.
  intros [Hs Hx] Hat Hclk.
  destruct (expire_wf (time_of s) at_ (list s) (c_wf _ Hs) Hat) as (l & D & He & Hwf & Eexp & HD & Ha & El & En).
  rewrite Hx in Eexp. cbn [app] in Eexp.
  assert (core (set_list s l)) as Hs1.
  { destruct Hs as [_ Hld Hnd Hown Hrng _]. split; try done; cbn [list set_list readings]; [|lia].
    intros tm. rewrite Eexp, Ha, HD. specialize (Hld tm). rewrite Hx, app_nil_r in Hld. unfold loaded in *.
    cbn [state_of timers_need_reload set_list]. rewrite <- Hld, elem_of_app, !list_elem_of_filter.
    destruct (decide (at_ < time_of s tm)); split; [tauto|tauto|tauto|]. intros ?. right. split; [lia|done]. }
  destruct (notify_spec (length (TimerSet.expired l)) (set_list s l) Hs1) as (s' & Hn & Hs' & El' & Elast & Er & Hf).
  { done. }
  { cbn [list set_list time_of readings]. rewrite Eexp. intros tm. rewrite HD, list_elem_of_filter. lia. }
  cbn [list set_list readings last] in *. exists l, s', D.
  assert (active (list s') = active l) as Eal by (rewrite El'; done).
  assert (fires s s' D) as HF.
  { rewrite <- Eexp. destruct Hf. by split. }
  assert (time_of s' = time_of s) as Et by apply HF.
  split_and!; try done.
  - rewrite El'. done.
  - unfold least. rewrite Eal, Et, El'. done.
  - by rewrite Eal.
  - intros tm ? ?. rewrite HD, list_elem_of_filter. done.
Qed.

(** After a round the next timeout is the time of an active timer. *)
Lemma least_attained s :
  base s → TimerSet.next (list s) = least (time_of s) (list s) → active (list s) ≠ [] →
  ∃ tm, tm ∈ active (list s) ∧ time_of s tm = TimerSet.next (list s).
Proof.
  intros [Hs _] Hn Hne. pose proof (least_earliest (time_of s) (list s) (c_wf _ Hs) Hn) as Hl.
  unfold TimerSpec.earliest, TimerSpec.abs in Hl. cbn [TimerSpec.act] in Hl.
  destruct Hl as [[He _]|[(tm & Hin & ->) _]].
  - destruct (active (list s)); [done|]. cbn in He. set_solver.
  - exists tm. split; [|done]. by rewrite elem_of_list_to_set in Hin.
Qed.

Lemma base_tick s : base s → base (tick s).
Proof.
  intros [[? ? ? ? ? ?] ?]. split; [|done]. split; try done. cbn [list tick readings].
  pose proof (clock_mono _ Hclock (readings s)). lia.
Qed.

Lemma base_set_last s x : base s → base (set_last s x).
Proof. intros [[? ? ? ? ? ?] ?]. split; [by split|done]. Qed.

Lemma base_set_counter s x : base s → base (set_counter s x).
Proof. intros [[? ? ? ? ? ?] ?]. split; [by split|done]. Qed.

Lemma again_spec fuel s at_ :
  base s → TimerSet.last (list s) ≤ at_ < 2 ^ 63 → at_ ≤ clock (readings s) →
  (length (filter (λ tm, (at_ < time_of s tm)%Z) (active (list s))) < fuel)%nat →
  ∃ s' D, again owner clock fuel at_ s = Some s' ∧ good s' ∧ fires s s' D ∧
    ∀ tm, tm ∈ active (list s) → time_of s tm ≤ at_ → tm ∈ D.
Proof.
  revert s at_. induction fuel as [|fuel IH]; intros s at_ Hs Hat Hclk Hf; [lia|]. cbn [again].
  destruct (round_spec (set_last s TimerSet.max_timestamp) at_) as
    (l & s1 & D & He & Hn & Hs1 & Hf1 & Er & Elast & El & Enext & Ha & Hall);
    [by apply base_set_last|done|done|].
  cbn [last list time_of set_last readings] in *. rewrite He. cbn [mbind option_bind]. rewrite Hn. cbn [mbind option_bind].
  assert (fires s s1 D) as Hf1' by (destruct Hf1; by split).
  assert (wf (time_of s1) (list s1)) as Hwf1 by apply Hs1.
  assert (TimerSet.next (list s1) ≤ TimerSet.max_timestamp) as Hmax by apply (wf_next _ _ Hwf1).
  destruct (TimerSet.empty (list s1)) eqn:Eempty.
  { exists s1, D. split_and!; [done| |done|done]. split_and!; [done|by left|].
    apply empty_active in Eempty; [|apply (wf_marked _ _ Hwf1)].
    unfold TimerSet.get_next_timeout. rewrite Enext, Elast. unfold least. rewrite Eempty. cbn. lia. }
  destruct (least_attained s1 Hs1 Enext) as (tm & Htm & Ett).
  { intros Hnil. apply empty_active in Hnil; [congruence|apply (wf_marked _ _ Hwf1)]. }
  assert (at_ < time_of s1 tm) as Hlate.
  { rewrite Ha, list_elem_of_filter in Htm. rewrite (f_time _ _ _ Hf1'). apply Htm. }
  assert (TimerSet.get_next_timeout (list s1) = time_of s1 tm) as Eget
    by (unfold TimerSet.get_next_timeout; rewrite Ett in *; lia).
  cbn [now]. change (list (tick s1)) with (list s1). rewrite Eget.
  pose proof (clock_lt (readings s1)). pose proof (clock_mono _ Hclock (readings s1)).
  assert (fires s (tick s1) D) as Hft.
  { rewrite <- (app_nil_r D). eapply fires_trans; [done|]. by apply fires_nil; cbn; lia || done. }
  destruct (Z.leb_spec (time_of s1 tm) (clock (readings s1))) as [Hle|Hgt].
  - destruct (IH (tick s1) (clock (readings s1))) as (s' & D' & E & Hg & Hf' & _);
      [by apply base_tick|cbn [list tick]; lia|cbn [readings tick]; lia| |].
    { cbn [list tick time_of]. apply (Nat.lt_le_trans _ (length (active (list s1)))).
      - apply length_filter_lt with tm; [done|lia].
      - rewrite Ha. lia. }
    exists s', (D ++ D'). split_and!; [done|done|by eapply fires_trans|]. set_solver.
  - unfold clock_event_set. rewrite (proj2 (Z.leb_gt _ _)) by lia. eexists _, D. split; [done|].
    split_and!; [|destruct Hft; by split|done].
    split_and!; [by apply base_set_counter, base_set_last, base_tick| |].
    + right. exists (clock (readings s1)). split_and!; cbn [last set_counter set_last]; [lia| |done].
      exists (readings s1). cbn. split; [lia|done].
    + cbn [last list set_counter set_last tick]. lia.
Qed.

Lemma fired_spec s :
  base s →
  ∃ s' D, fired owner clock s = Some s' ∧ good s' ∧ fires s s' D ∧
    ∀ tm, tm ∈ active (list s) → time_of s tm ≤ clock (readings s) → tm ∈ D.
Proof.
  intros Hs. unfold fired. cbn [now]. change (list (tick s)) with (list s).
  destruct (again_spec (S (length (active (list s)))) (tick s) (clock (readings s)))
    as (s' & D & E & Hg & Hf & Hall).
  - by apply base_tick.
  - cbn [list tick]. split; [apply Hs|apply clock_lt].
  - apply (clock_mono _ Hclock).
  - cbn [list tick time_of]. pose proof (length_filter (λ tm, (clock (readings s) < time_of s tm)%Z) (active (list s))). lia.
  - exists s', D. split_and!; [done|done| |done].
    apply (fires_trans s (tick s) s' [] D); [|done]. by apply fires_nil; cbn; lia || done.
Qed.

Lemma rearm_spec s : base s → event s → ∃ s' D, rearm owner clock s = Some s' ∧ good s' ∧ fires s s' D.
Proof.
  intros Hs He. unfold rearm. destruct (Z.ltb_spec (TimerSet.get_next_timeout (list s)) (last s)) as [Hlt|Hge].
  - cbn [now]. change (readings (set_last s _)) with (readings s). unfold clock_event_set.
    set (t := TimerSet.get_next_timeout (list s)) in *.
    assert (base (tick (set_last s t))) as Hs1 by (by apply base_tick, base_set_last).
    assert (fires s (tick (set_last s t)) []) as Hf1 by (by apply fires_nil; cbn; lia || done).
    destruct (Z.leb_spec (t - clock (readings s)) 0) as [Hle|Hgt].
    + destruct (fired_spec _ Hs1) as (s' & D & E & Hg & Hf & _). exists s', D. split_and!; [done..|].
      by eapply (fires_trans _ _ _ []).
    + eexists _, []. split; [done|]. split; [|destruct Hf1; by split].
      split_and!; [by apply base_set_counter| |].
      * right. exists (clock (readings s)). split_and!; cbn [last set_counter set_last tick]; [lia| |done].
        exists (readings s). cbn. split; [lia|done].
      * cbn [last list set_counter set_last tick]. lia.
  - exists s, []. split_and!; [done| |by apply fires_nil]. by split_and!.
Qed.

(** ** Timers in and out of the list

    Between the steps of an operation the timers in the list are those of [W]. *)
Record partial (W : nat → Prop) s : Prop := {
  p_wf : wf (time_of s) (list s);
  p_expired : TimerSet.expired (list s) = [];
  p_in : ∀ tm, tm ∈ active (list s) ↔ W tm;
  p_nodup : ∀ c, NoDup (active_timers s c);
  p_owner : ∀ c tm, tm ∈ active_timers s c ↔ owner tm = c ∧ state_of s tm = Armed;
  p_range : ∀ tm, state_of s tm = Armed → time_of s tm < 2 ^ 63;
  p_clock : TimerSet.last (list s) ≤ clock (readings s);
}.

Lemma base_partial s : base s ↔ partial (loaded s) s.
Proof.
  split.
  - intros [[? Hld ? ? ? ?] Hx]. split; try done. intros tm. rewrite <- Hld, Hx, app_nil_r. done.
  - intros [? Hx Hin ? ? ? ?]. split; [|done]. split; try done. intros tm. rewrite Hx, app_nil_r. apply Hin.
Qed.

Lemma partial_iff W W' s : (∀ tm, W tm ↔ W' tm) → partial W s → partial W' s.
Proof. intros HW [? ? Hin ? ? ? ?]. split; try done. intros tm. by rewrite Hin. Qed.

Lemma insert_partial W s tm :
  partial W s → ¬ W tm → state_of s tm = Armed →
  ∃ l, TimerSet.insert (time_of s) tm (list s) = Some (time_of s tm <? TimerSet.next (list s), l) ∧
    partial (λ u, u = tm ∨ W u) (set_list s l) ∧
    TimerSet.last l = TimerSet.last (list s) ∧ TimerSet.next l = Z.min (TimerSet.next (list s)) (time_of s tm).
Proof.
  intros [Hwf Hx Hin Hnd Hown Hrng Hclk] HW Ht.
  destruct (insert_wf (time_of s) tm (list s) Hwf) as (l & E & Hwf' & Ha & He & El & En).
  { by apply Hrng. }
  { by rewrite Hx, app_nil_r, Hin. }
  exists l. split_and!; [done| |done|done]. split; cbn [list set_list time_of active_timers state_of readings]; try done.
  - congruence.
  - intros u. rewrite Ha, elem_of_cons, Hin. done.
  - by rewrite El.
Qed.

Lemma remove_partial W s tm :
  partial W s → W tm →
  ∃ l, TimerSet.remove (time_of s) tm (list s) = Some l ∧ partial (λ u, u ≠ tm ∧ W u) (set_list s l) ∧
    TimerSet.last l = TimerSet.last (list s) ∧ TimerSet.next l = TimerSet.next (list s).
Proof.
  intros [Hwf Hx Hin Hnd Hown Hrng Hclk] HW.
  destruct (remove_wf (time_of s) tm (list s) Hwf) as (l & E & Hwf' & Ha & He & El & En); [by apply Hin|].
  exists l. split_and!; [done| |done|done]. split; cbn [list set_list time_of active_timers state_of readings]; try done.
  - congruence.
  - intros u. rewrite <- Hin, <- Ha, elem_of_cons.
    pose proof (wf_nodup _ _ Hwf) as Hd. rewrite <- Ha in Hd. cbn [app] in Hd.
    apply NoDup_cons in Hd as [Hd _]. rewrite elem_of_app in Hd. naive_solver.
  - by rewrite El.
Qed.

(** The end of [set], [reset] and [resume]: the clock event is brought forward. *)
Lemma good_list s l :
  partial (loaded s) (set_list s l) → event s → last s ≤ TimerSet.get_next_timeout (list s) →
  TimerSet.last l = TimerSet.last (list s) → TimerSet.next l = TimerSet.next (list s) → good (set_list s l).
Proof.
  intros Hp He Hl El En. split_and!; [by apply base_partial|done|].
  cbn [last list set_list]. unfold TimerSet.get_next_timeout in *. by rewrite El, En.
Qed.

Lemma insert_rearm_spec W s tm :
  partial W s → (∀ u, loaded s u ↔ u = tm ∨ W u) → ¬ W tm → event s → last s ≤ TimerSet.get_next_timeout (list s) →
  ∃ s' D, insert_rearm owner clock tm s = Some s' ∧ good s' ∧ fires s s' D.
Proof.
  intros Hp HW Hnw He Hl. assert (loaded s tm) as [Ht _] by (apply HW; by left).
  destruct (insert_partial W s tm Hp Hnw Ht) as (l & E & Hp' & El & En).
  assert (partial (loaded s) (set_list s l)) as Hp2 by (eapply partial_iff; [|done]; intros u; by rewrite HW).
  assert (fires s (set_list s l) []) as Hf0 by (by apply fires_nil).
  unfold insert_rearm. rewrite E. cbn [mbind option_bind fst snd].
  destruct (Z.ltb_spec (time_of s tm) (TimerSet.next (list s))).
  - destruct (rearm_spec (set_list s l)) as (s' & D & -> & Hg & Hf); [by apply base_partial|done|].
    exists s', D. split_and!; [done..|]. by eapply (fires_trans _ _ _ []).
  - exists (set_list s l), []. split_and!; [done| |done]. apply good_list; try done. lia.
Qed.

Lemma suspend_spec timers W s :
  partial W s → NoDup timers → (∀ tm, tm ∈ timers → W tm ∧ state_of s tm = Armed) →
  ∃ l, suspend timers s = Some (set_list s l) ∧ partial (λ u, W u ∧ u ∉ timers) (set_list s l) ∧
    TimerSet.last l = TimerSet.last (list s) ∧ TimerSet.next l = TimerSet.next (list s).
Proof.
  revert W s. induction timers as [|tm timers IH]; intros W s Hp Hnd HW; cbn [suspend].
  { exists (list s). replace (set_list s (list s)) with s by (by destruct s). split_and!; try done.
    eapply partial_iff; [|done]. intros u. pose proof (not_elem_of_nil u). tauto. }
  apply NoDup_cons in Hnd as [Hnew Hnd]. destruct (HW tm ltac:(by left)) as [HWt Ht].
  rewrite decide_True by done. destruct (remove_partial W s tm Hp HWt) as (l & -> & Hp1 & El & En).
  cbn [mbind option_bind]. destruct (IH _ _ Hp1 Hnd) as (l' & E & Hp2 & El2 & En2).
  { intros u Hu. destruct (HW u ltac:(by right)). split; [|done]. split; [|done]. by intros ->. }
  exists l'. split_and!; [done| |cbn [list set_list] in *; congruence..].
  eapply partial_iff; [|exact Hp2]. intros u. cbn. rewrite elem_of_cons. tauto.
Qed.

Lemma resume_loop_spec timers W b s :
  partial W s → NoDup timers → (∀ tm, tm ∈ timers → ¬ W tm ∧ state_of s tm = Armed) →
  ∃ b' l, resume_loop timers b s = Some (b', set_list s l) ∧ partial (λ u, W u ∨ u ∈ timers) (set_list s l) ∧
    TimerSet.last l = TimerSet.last (list s) ∧ (b' = false → b = false ∧ TimerSet.next l = TimerSet.next (list s)).
Proof.
  revert W b s. induction timers as [|tm timers IH]; intros W b s Hp Hnd HW; cbn [resume_loop].
  { exists b, (list s). replace (set_list s (list s)) with s by (by destruct s). split_and!; try done.
    eapply partial_iff; [|done]. intros u. pose proof (not_elem_of_nil u). tauto. }
  apply NoDup_cons in Hnd as [Hnew Hnd]. destruct (HW tm ltac:(by left)) as [HWt Ht].
  rewrite decide_True by done. destruct (insert_partial W s tm Hp HWt Ht) as (l & -> & Hp1 & El & En).
  cbn [mbind option_bind fst snd].
  destruct (IH _ (b || (time_of s tm <? TimerSet.next (list s))) _ Hp1 Hnd) as (b' & l' & E & Hp2 & El2 & Hb).
  { intros u Hu. destruct (HW u ltac:(by right)). split; [|done]. intros [->|?]; done. }
  exists b', l'. split_and!; [done| |cbn [list set_list] in *; congruence|].
  - eapply partial_iff; [|exact Hp2]. intros u. cbn. rewrite elem_of_cons. tauto.
  - intros [Hb1 Hb2]%Hb. apply orb_false_iff in Hb1 as [-> Hb1]. split; [done|].
    cbn [list set_list] in *. rewrite Hb2, En. apply Z.ltb_ge in Hb1. lia.
Qed.

End Timers.

(** ** The operations of a CPU's timers *)

Module TimerRun.

Inductive op :=
  | Set_ (tm : nat) (time : Z) | Reset (tm : nat) (time : Z) | Cancel (tm : nat)
  | Suspend (c : nat) | Resume (c : nat) | Interrupt.

Section Run.
Context (owner : nat → nat) (clock : nat → Z).

Definition exec (o : op) (s : TimerList.t) : option TimerList.t :=
  match o with
  | Set_ tm time => set owner clock tm time s
  | Reset tm time => reset owner clock tm time s
  | Cancel tm => cancel owner tm s
  | Suspend c => suspend_timers c s
  | Resume c => resume_timers owner clock c s
  | Interrupt => interrupt owner clock s
  end.

(** A client on this CPU uses its timers; [set] is for timers that are not armed. *)
Definition allowed (s : TimerList.t) (o : op) : Prop :=
  match o with
  | Set_ tm time => state_of s tm ≠ Armed ∧ timers_need_reload s (owner tm) = false ∧ time < 2 ^ 63
  | Reset tm time => timers_need_reload s (owner tm) = false ∧ time < 2 ^ 63
  | Cancel tm => timers_need_reload s (owner tm) = false
  | _ => True
  end.

#[global] Instance allowed_dec s o : Decision (allowed s o).
Proof. destruct o; cbn; apply _. Defined.

(** The states, times and suspended clients an operation asks for. *)
Definition asked_state (o : op) (s : TimerList.t) (u : nat) : state :=
  match o with
  | Set_ tm _ | Reset tm _ => if decide (u = tm) then Armed else state_of s u
  | Cancel tm => if decide (u = tm) then Free else state_of s u
  | _ => state_of s u
  end.

Definition asked_time (o : op) (s : TimerList.t) (u : nat) : Z :=
  match o with
  | Set_ tm time | Reset tm time => if decide (u = tm) then time else time_of s u
  | _ => time_of s u
  end.

Definition asked_reload (o : op) (s : TimerList.t) (c : nat) : bool :=
  match o with
  | Suspend d => if decide (c = d) then true else timers_need_reload s c
  | Resume d => if decide (c = d) then false else timers_need_reload s c
  | _ => timers_need_reload s c
  end.

(** What comes of it: the timers of [D] fire, in this order. *)
Record outcome (o : op) (s s' : TimerList.t) (D : Datatypes.list nat) : Prop := {
  o_log : log s' = log s ++ D;
  o_nodup : NoDup D;
  o_state : ∀ u, state_of s' u = if decide (u ∈ D) then Expired else asked_state o s u;
  o_time : ∀ u, time_of s' u = asked_time o s u;
  o_reload : ∀ c, timers_need_reload s' c = asked_reload o s c;
  o_due : ∀ u, u ∈ D →
    asked_state o s u = Armed ∧ asked_reload o s (owner u) = false ∧ asked_time o s u ≤ clock (readings s');
  o_all : o = Interrupt → ∀ u, loaded owner s u → time_of s u ≤ clock (readings s) → u ∈ D;
}.

Inductive reachable : TimerList.t → Prop :=
  | reach_make : reachable make
  | reach_exec s o s' : reachable s → allowed s o → exec o s = Some s' → reachable s'.

End Run.
End TimerRun.

Section Run.
Import TimerRun.
Context (owner : nat → nat) (clock : nat → Z) (Hclock : uptime clock).
Implicit Types (s : TimerList.t) (tm : nat) (D : Datatypes.list nat).

(** From the state in which the rest of the operation starts to its outcome. *)
Lemma outcome_intro o s s1 s' D :
  fires owner clock s1 s' D → log s1 = log s → (∀ u, state_of s1 u = asked_state o s u) →
  (∀ u, time_of s1 u = asked_time o s u) → (∀ c, timers_need_reload s1 c = asked_reload o s c) →
  o ≠ Interrupt → outcome owner clock o s s' D.
Proof.
  intros [Hl Hs Ht Hr Hn Hld Hnd] El Es Et Er Ho. split; [congruence|done| | | | |done].
  - intros u. rewrite Hs, Es. done.
  - intros u. by rewrite Ht.
  - intros c. by rewrite Hr.
  - intros u [[Ha Hrl] Hdue]%Hld. rewrite <- Es, <- Er, <- Et. done.
Qed.

Lemma event_same s s' :
  last s' = last s → counter s' = counter s → readings s' = readings s → event clock s → event clock s'.
Proof. intros E1 E2 E3. unfold event, programmed. by rewrite E1, E2, E3. Qed.

(** Arming a timer that was not armed. *)
Lemma partial_arm s tm time :
  base owner clock s → state_of s tm ≠ Armed → time < 2 ^ 63 →
  partial owner clock (loaded owner s)
    (set_active (set_time (set_state s tm Armed) tm time) (owner tm) (active_timers s (owner tm) ++ [tm])).
Proof.
  intros [Hwf Hx Hin Hnd Hown Hrng Hclk]%base_partial Hna Ht.
  split; cbn [time_of list state_of active_timers readings set_active set_time set_state]; try done.
  - eapply wf_time; [|done]. intros u Hu. rewrite fn_insert_if. case_decide; [|done]. subst u.
    apply Hin in Hu as [? _]. done.
  - intros c. rewrite fn_insert_if. case_decide; [|done]. subst c. apply NoDup_app. split_and!; [done| |apply NoDup_singleton].
    intros u Hu ->%list_elem_of_singleton. apply Hown in Hu as [_ ?]. done.
  - intros c u. rewrite !fn_insert_if. case_decide as Hc; [subst c|].
    + rewrite elem_of_app, list_elem_of_singleton, Hown. case_decide; naive_solver.
    + rewrite Hown. case_decide; naive_solver.
  - intros u. rewrite !fn_insert_if. case_decide; [done|apply Hrng].
Qed.

Lemma set_good s tm time :
  good owner clock s → allowed owner s (Set_ tm time) →
  ∃ s' D, set owner clock tm time s = Some s' ∧ good owner clock s' ∧ outcome owner clock (Set_ tm time) s s' D.
Proof.
  intros (Hb & He & Hl) (Hna & Hrl & Ht). unfold set. cbn [active_timers set_time set_state].
  pose proof (partial_arm s tm time Hb Hna Ht) as Hp. set (s1 := set_active _ _ _) in *.
  assert (∀ u, state_of s1 u = asked_state (Set_ tm time) s u) as Hst by (intros; apply fn_insert_if).
  destruct (insert_rearm_spec owner clock Hclock (loaded owner s) s1 tm Hp) as (s' & D & E & Hg & Hf).
  - intros u. unfold loaded. rewrite Hst. cbn. case_decide; naive_solver.
  - by intros [? _].
  - by apply (event_same s).
  - done.
  - exists s', D. split_and!; [done..|]. eapply outcome_intro; try done. intros u. apply fn_insert_if.
Qed.

Lemma reset_good s tm time :
  good owner clock s → allowed owner s (Reset tm time) →
  ∃ s' D, reset owner clock tm time s = Some s' ∧ good owner clock s' ∧ outcome owner clock (Reset tm time) s s' D.
Proof.
  intros (Hb & He & Hl) (Hrl & Ht). unfold reset.
  destruct (decide (state_of s tm = Armed)) as [Ha|Hna].
  - rewrite Ha. pose proof (proj1 (base_partial _ _ _) Hb) as Hp.
    destruct (remove_partial owner clock _ s tm Hp) as (l & -> & Hp1 & El & En); [done|].
    cbn [mbind option_bind]. set (s1 := set_time _ _ _).
    assert (partial owner clock (λ u, u ≠ tm ∧ loaded owner s u) s1) as Hp2.
    { destruct Hp1 as [Hwf ? Hin ? ? Hrng ?]. split; cbn [time_of list state_of active_timers readings set_time set_list s1] in *; try done.
      - eapply wf_time; [|done]. intros u [Hu _]%Hin. rewrite fn_insert_if, decide_False; done.
      - intros u. rewrite fn_insert_if. case_decide; [done|apply Hrng]. }
    destruct (insert_rearm_spec owner clock Hclock _ s1 tm Hp2) as (s' & D & E & Hg & Hf).
    + intros u. unfold loaded. cbn. destruct (decide (u = tm)); naive_solver.
    + naive_solver.
    + by apply (event_same s).
    + cbn [last list set_time set_list s1]. unfold TimerSet.get_next_timeout in *. by rewrite El, En.
    + exists s', D. split_and!; [done..|]. eapply outcome_intro; try done.
      * intros u. cbn. case_decide; by subst.
      * intros u. apply fn_insert_if.
  - destruct (set_good s tm time (conj Hb (conj He Hl)) (conj Hna (conj Hrl Ht))) as (s' & D & E & Hg & Ho).
    exists s', D. split_and!; [|done|destruct Ho; by split].
    destruct (state_of s tm); done.
Qed.

Lemma cancel_good s tm :
  good owner clock s → allowed owner s (Cancel tm) →
  ∃ s', cancel owner tm s = Some s' ∧ good owner clock s' ∧ outcome owner clock (Cancel tm) s s' [].
Proof.
  intros (Hb & He & Hl) Hrl. cbn [allowed] in Hrl. pose proof (proj1 (base_partial _ _ _) Hb) as Hp. unfold cancel.
  assert (∀ s', partial owner clock (loaded owner s') s' → (∀ u, state_of s' u = asked_state (Cancel tm) s u) →
    last s' = last s → counter s' = counter s → readings s' = readings s →
    TimerSet.last (list s') = TimerSet.last (list s) → TimerSet.next (list s') = TimerSet.next (list s) →
    log s' = log s → time_of s' = time_of s → timers_need_reload s' = timers_need_reload s →
    good owner clock s' ∧ outcome owner clock (Cancel tm) s s' []) as Hfin.
  { intros s' Hp' Hst E1 E2 E3 E4 E5 E6 E7 E8. split.
    - split_and!; [by apply base_partial|by apply (event_same s)|].
      unfold TimerSet.get_next_timeout in *. by rewrite E1, E4, E5.
    - eapply (outcome_intro _ s s'); [by apply fires_nil|done|done|..]; intros; cbn; congruence. }
  destruct (state_of s tm) eqn:Est.
  - exists s. split; [done|]. apply Hfin; try done. intros u. cbn. case_decide; by subst.
  - assert (tm ∈ active_timers s (owner tm)) as Hmem by (by apply (p_owner _ _ _ _ Hp)).
    rewrite decide_True by done. cbn [time_of list set_active].
    destruct (remove_partial owner clock _ s tm Hp) as (l & -> & [Hwf Hx Hin Hnd Hown Hrng Hclk] & El & En); [done|].
    cbn [mbind option_bind]. eexists. split; [done|].
    assert (∀ u, <[tm := Free]> (state_of s) u = asked_state (Cancel tm) s u) as Hst by (intros; apply fn_insert_if).
    apply Hfin; try done. split; cbn [time_of list state_of active_timers readings set_active set_state set_list] in *; try done.
    + intros u. rewrite Hin. unfold loaded. cbn. rewrite fn_insert_if. case_decide; intuition congruence.
    + intros c. rewrite fn_insert_if. case_decide; [|done]. eapply sublist_NoDup; [apply Hnd|apply erase_sublist].
    + intros c u. rewrite !fn_insert_if. case_decide as Hc; [subst c; rewrite erase_elem by apply Hnd|];
        rewrite Hown; case_decide; intuition congruence.
    + intros u. rewrite fn_insert_if. case_decide; [done|apply Hrng].
  - eexists. split; [done|]. apply Hfin; try done; [|intros u; apply fn_insert_if].
    destruct Hp as [Hwf Hx Hin Hnd Hown Hrng Hclk].
    split; cbn [time_of list state_of active_timers readings set_state]; try done.
    + intros u. rewrite Hin. unfold loaded. cbn. rewrite fn_insert_if. case_decide; intuition congruence.
    + intros c u. rewrite fn_insert_if, Hown. case_decide; intuition congruence.
    + intros u. rewrite fn_insert_if. case_decide; [done|apply Hrng].
Qed.

Lemma partial_reload W s c b : partial owner clock W s → partial owner clock W (set_reload s c b).
Proof. intros []. by split. Qed.

Lemma suspend_good s c :
  good owner clock s →
  ∃ s', suspend_timers c s = Some s' ∧ good owner clock s' ∧ outcome owner clock (Suspend c) s s' [].
Proof.
  intros (Hb & He & Hl). unfold suspend_timers. destruct (timers_need_reload s c) eqn:Erl.
  { exists s. split_and!; [done|done|].
    eapply (outcome_intro _ s s); [by apply fires_nil|done|done|done| |done]. intros d. cbn. case_decide; by subst. }
  pose proof (partial_reload _ _ c true (proj1 (base_partial _ _ _) Hb)) as Hp. set (s1 := set_reload s c true) in *.
  destruct (suspend_spec owner clock (active_timers s c) _ s1 Hp) as (l & E & Hp1 & El & En).
  { apply (p_nodup _ _ _ _ Hp). }
  { intros tm [<- Ht]%(p_owner _ _ _ _ Hp). done. }
  exists (set_list s1 l). split_and!; [done| |].
  - apply good_list; try done. eapply partial_iff; [|exact Hp1].
    intros u. cbn. rewrite (p_owner _ _ _ _ (proj1 (base_partial _ _ _) Hb)). unfold loaded. change (state_of s1 u) with (state_of s u). cbn. rewrite fn_insert_if. case_decide; intuition congruence.
  - eapply (outcome_intro _ s (set_list s1 l)); try done; [by apply fires_nil|]. intros d. apply fn_insert_if.
Qed.

Lemma resume_good s c :
  good owner clock s →
  ∃ s' D, resume_timers owner clock c s = Some s' ∧ good owner clock s' ∧ outcome owner clock (Resume c) s s' D.
Proof.
  intros (Hb & He & Hl). unfold resume_timers. destruct (timers_need_reload s c) eqn:Erl; cbn [negb].
  2: { exists s, []. split_and!; [done|done|].
       eapply (outcome_intro _ s s); [by apply fires_nil|done|done|done| |done]. intros d. cbn. case_decide; by subst. }
  pose proof (partial_reload _ _ c false (proj1 (base_partial _ _ _) Hb)) as Hp. set (s1 := set_reload s c false) in *.
  destruct (resume_loop_spec owner clock (active_timers s c) _ false s1 Hp) as (b & l & E & Hp1 & El & En).
  { apply (p_nodup _ _ _ _ Hp). }
  { intros tm [<- Ht]%(p_owner _ _ _ _ Hp). split; [|done]. intros [_ ?]. congruence. }
  assert (partial owner clock (loaded owner s1) (set_list s1 l)) as Hp2.
  { eapply partial_iff; [|exact Hp1]. intros u. cbn. rewrite (p_owner _ _ _ _ (proj1 (base_partial _ _ _) Hb)).
    unfold loaded. change (state_of s1 u) with (state_of s u). cbn. rewrite fn_insert_if. case_decide; intuition congruence. }
  unfold resume. change (active_timers s1 c) with (active_timers s c). rewrite E. cbn [mbind option_bind fst snd]. destruct b.
  - destruct (rearm_spec owner clock Hclock (set_list s1 l)) as (s' & D & -> & Hg & Hf); [by apply base_partial|by apply (event_same s)|].
    exists s', D. split_and!; [done..|]. eapply outcome_intro; try done. intros d. apply fn_insert_if.
  - exists (set_list s1 l), []. split_and!; [done| |].
    + destruct (En eq_refl) as [_ En']. by apply good_list.
    + eapply (outcome_intro _ s (set_list s1 l)); try done; [by apply fires_nil|]. intros d. apply fn_insert_if.
Qed.

Lemma exec_good o s :
  good owner clock s → allowed owner s o →
  ∃ s' D, exec owner clock o s = Some s' ∧ good owner clock s' ∧ outcome owner clock o s s' D.
Proof.
  intros Hg Ho. destruct o as [tm time|tm time|tm|c|c|]; cbn [exec].
  - by apply set_good.
  - by apply reset_good.
  - destruct (cancel_good s tm Hg Ho) as (s' & ? & ? & ?). eauto.
  - destruct (suspend_good s c Hg) as (s' & ? & ? & ?). eauto.
  - by apply resume_good.
  - destruct Hg as (Hb & _).
    destruct (fired_spec owner clock Hclock (set_counter s None) (base_set_counter _ _ _ _ Hb)) as (s' & D & E & Hg & Hf & Hall).
    exists s', D. split_and!; [done..|]. destruct Hf as [Hl Hs Ht Hr Hn Hld Hnd]. split; cbn; try done.
    + intros u. by rewrite Ht.
    + intros c. by rewrite Hr.
    + intros u [[? ?] ?]%Hld. done.
    + intros _ u Hu Hdue. apply Hall; [|done]. by apply (p_in _ _ _ _ (proj1 (base_partial _ _ _) Hb)).
Qed.

Lemma make_good : good owner clock make.
Proof.
  split_and!; [apply base_partial; split|by left|vm_compute; discriminate]; cbn; try done.
  - apply make_wf.
  - intros tm. unfold loaded. cbn. split; [by intros ?%elem_of_nil|by intros [? _]].
  - intros c. constructor.
  - intros c tm. split; [by intros ?%elem_of_nil|by intros [_ ?]].
  - apply (clock_nonneg _ Hclock).
Qed.

Lemma reachable_timers s : reachable owner clock s → good owner clock s.
Proof.
  induction 1 as [|s o s' _ IH Ho He]; [apply make_good|].
  destruct (exec_good o s IH Ho) as (s1 & D & ? & ? & _). congruence.
Qed.

End Run.

(** ** Properties *)

(** C20: timers fire when they are due, once, and not before.  On a CPU whose
    clients keep to the rules, every operation on timers ends without a failed
    assertion, the timer interrupt and the expiry loop in it included.  An
    operation changes the timers as asked; on top of it the timers of a list [D]
    fire, each of them armed, on this CPU, and due by the clock, and no timer
    twice.  An interrupt fires all timers that are due when it looks at the
    clock. *)
Theorem timers_fire_on_time owner clock s o :
  uptime clock → TimerRun.reachable owner clock s → TimerRun.allowed owner s o →
  ∃ s' D, TimerRun.exec owner clock o s = Some s' ∧ TimerRun.outcome owner clock o s s' D.
Proof.
  intros Hc Hr Ho. destruct (exec_good owner clock Hc o s (reachable_timers owner clock Hc s Hr) Ho)
    as (s' & D & ? & _ & ?). eauto.
Qed.

(** C21: the clock event comes no later than the next timer.  While a timer is
    armed on the CPU, the counter of the APIC runs, and runs out no later than the
    timer's time (or has been due since the last expiry), unless the event asked
    for was a positive multiple of 2^32 nanoseconds ahead, which the register of
    32 bits takes as zero: the counter is then stopped. *)
Theorem clock_event_in_time owner clock s tm :
  uptime clock → TimerRun.reachable owner clock s → loaded owner s tm → time_of s tm < TimerSet.max_timestamp →
  (∃ at_ count, counter s = Some (at_, count) ∧ 0 < count ∧
     at_ + count ≤ Z.max (TimerSet.last (list s)) (time_of s tm)) ∨
  (counter s = None ∧ ∃ n k, (n < readings s)%nat ∧ 0 < k ∧ last s = clock n + k * 2 ^ 32).
Proof.
  intros Hc Hr Hld Ht. destruct (reachable_timers owner clock Hc s Hr) as (Hb & He & Hl).
  apply base_partial in Hb. pose proof (wf_least _ _ (p_wf _ _ _ _ Hb) tm ltac:(by apply (p_in _ _ _ _ Hb))) as Hle.
  pose proof (wf_last _ _ (p_wf _ _ _ _ Hb)) as Hlast. unfold TimerSet.get_next_timeout in Hl.
  destruct He as [Hmax|(at_ & Hat & (n & Hn & ->) & Hctr)].
  - pose proof (p_clock _ _ _ _ Hb). pose proof (clock_max _ Hc (readings s)). lia.
  - pose proof (Z.mod_pos_bound (last s - clock n) (2 ^ 32) ltac:(lia)) as Hmod. fold (wrap 32 (last s - clock n)) in Hmod.
    fold (wrap32 (last s - clock n)) in Hmod.
    pose proof (Z.mod_le (last s - clock n) (2 ^ 32) ltac:(lia) ltac:(lia)) as Hmle.
    destruct (Z.eqb_spec (wrap32 (last s - clock n)) 0) as [E0|E0].
    + right. split; [done|]. exists n, ((last s - clock n) / 2 ^ 32).
      pose proof (Z.div_mod (last s - clock n) (2 ^ 32) ltac:(lia)) as Hd. unfold wrap32, wrap in E0. rewrite E0 in Hd.
      split_and!; [done|nia|lia].
    + left. exists (clock n), (wrap32 (last s - clock n)). split_and!; [done|lia|]. unfold wrap32, wrap. lia.
Qed.

(** A timer at 5 ns, set at 0 on a clock that advances by 10 ns per reading. *)
Definition ticking (n : nat) : Z := Z.min (10 * Z.of_nat n) 1000.

Lemma ticking_uptime : uptime ticking.
Proof. split; intros; unfold ticking, TimerSet.max_timestamp; lia. Qed.

Lemma timers_fire_on_time_witness :
  ∃ s s' D, TimerRun.exec (λ _, 0%nat) ticking TimerRun.Interrupt s = Some s' ∧
    TimerRun.outcome (λ _, 0%nat) ticking TimerRun.Interrupt s s' D ∧ D = [7%nat].
Proof.
  set (s := default make (TimerRun.exec (λ _, 0%nat) ticking (TimerRun.Set_ 7 5) make)).
  assert (TimerRun.reachable (λ _, 0%nat) ticking s) as Hr.
  { apply (TimerRun.reach_exec _ _ make (TimerRun.Set_ 7 5));
      [apply TimerRun.reach_make|apply (bool_decide_unpack _); vm_compute; exact I|vm_compute; reflexivity]. }
  destruct (timers_fire_on_time (λ _, 0%nat) ticking s TimerRun.Interrupt ticking_uptime Hr I) as (s' & D & He & Ho).
  exists s, s', D. split_and!; [done|done|].
  pose proof (TimerRun.o_log _ _ _ _ _ _ Ho) as Hl.
  assert (log s = []) as Hl0 by (vm_compute; reflexivity).
  assert (log <$> TimerRun.exec (λ _, 0%nat) ticking TimerRun.Interrupt s = Some [7%nat]) as Hl1 by (vm_compute; reflexivity).
  rewrite He in Hl1. cbn in Hl1. clearbody s. rewrite Hl, Hl0 in Hl1. by injection Hl1.
Defined.

Lemma clock_event_in_time_witness :
  ∃ s, loaded (λ _, 0%nat) s 7 ∧
    ((∃ at_ count, counter s = Some (at_, count) ∧ 0 < count ∧
       at_ + count ≤ Z.max (TimerSet.last (list s)) (time_of s 7%nat)) ∨
     (counter s = None ∧ ∃ n k, (n < readings s)%nat ∧ 0 < k ∧ last s = ticking n + k * 2 ^ 32)) ∧
    counter s = Some (0, 5).
Proof.
  set (s := default make (TimerRun.exec (λ _, 0%nat) ticking (TimerRun.Set_ 7 5) make)).
  assert (TimerRun.reachable (λ _, 0%nat) ticking s) as Hr.
  { apply (TimerRun.reach_exec _ _ make (TimerRun.Set_ 7 5));
      [apply TimerRun.reach_make|apply (bool_decide_unpack _); vm_compute; exact I|vm_compute; reflexivity]. }
  assert (loaded (λ _, 0%nat) s 7) as Hld by (split; vm_compute; reflexivity).
  exists s. split_and!; [done| |vm_compute; reflexivity].
  apply (clock_event_in_time (λ _, 0%nat) ticking s 7 ticking_uptime Hr Hld). vm_compute. reflexivity.
Defined.

(** a clock event can be lost.  A timer that is set 2^32 ns ahead on an
    otherwise idle CPU is armed, and the counter that should call for it is
    stopped. *)
Theorem clock_event_lost :
  ∃ s, TimerRun.reachable (λ _, 0%nat) ticking s ∧ loaded (λ _, 0%nat) s 7 ∧ time_of s 7%nat = 2 ^ 32 ∧ counter s = None.
Proof.
  set (s := default make (TimerRun.exec (λ _, 0%nat) ticking (TimerRun.Set_ 7 (2 ^ 32)) make)).
  exists s. split_and!; [|split; vm_compute; reflexivity|vm_compute; reflexivity..].
  apply (TimerRun.reach_exec _ _ make (TimerRun.Set_ 7 (2 ^ 32)));
    [apply TimerRun.reach_make|apply (bool_decide_unpack _); vm_compute; exact I|vm_compute; reflexivity].
Qed.
