(* ===== verification/WaitQueue.v ===== *)
(** * Wait queues

    The fifo of wait records that [waitqueue] ([core/waitqueue.cc],
    [include/osv/waitqueue.hh]) and [condvar] ([core/condvar.cc]) share, and the
    wait queue itself.  A record is on the stack of the thread that waits; the
    memory holds the [next] fields of the records that may be touched: a record
    leaves it when its thread goes on, and when it is handed to the mutex, which
    uses the field for its own queue.  Touching a record that is not there is a
    failure. *)
From S2P Require Import Prelude Queues.

(** ** The fifo *)

Module Fifo.

Record t := mk { oldest : Z; newest : Z }.

Definition empty : t := mk 0 0.

(** Append a record whose link is null. *)
Definition append (m : memory) (f : t) (wr : Z) : option (memory * t) :=
  if oldest f =? 0 then Some (m, mk wr wr)
  else match m !! newest f with
       | Some _ => Some (<[newest f := wr]> m, mk (oldest f) wr)
       | None => None
       end.

(** Take the oldest record off, if there is one. *)
Definition take (m : memory) (f : t) : option (Z * t) :=
  if oldest f =? 0 then Some (0, f)
  else
    next ← m !! oldest f;
    Some (oldest f, mk next (if next =? 0 then 0 else newest f)).

(** The loop of [wait_object<waitqueue>::disarm].  [pnext] is the address of a
    link: that of [oldest], or that in a record. *)
Fixpoint unlink (fuel : nat) (m : memory) (f : t) (wr : Z) (pnext : option Z) (newest_ : Z) : option (memory * t) :=
  cur ← match pnext with None => Some (oldest f) | Some p => m !! p end;
  if cur =? 0 then Some (m, f)
  else if cur =? wr then
    next ← m !! wr;
    let '(m, f) := match pnext with
                   | None => (m, mk next (newest f))
                   | Some p => (<[p := next]> m, f)
                   end in
    Some (m, if next =? 0 then mk (oldest f) newest_ else f)
  else match fuel with
       | O => None
       | S fuel => unlink fuel m f wr (Some cur) cur
       end.

(** The loop of [condvar::wait] after a timeout: whether the record was found. *)
Fixpoint search (fuel : nat) (m : memory) (f : t) (wr p : Z) : option (bool * memory * t) :=
  if p =? 0 then Some (false, m, f)
  else
    next ← m !! p;
    if wr =? next then
      nextnext ← m !! next;
      Some (true, <[p := nextnext]> m, if nextnext =? 0 then mk (oldest f) p else f)
    else match fuel with O => None | S fuel => search fuel m f wr next end.

Definition withdraw (fuel : nat) (m : memory) (f : t) (wr : Z) : option (bool * memory * t) :=
  if wr =? oldest f then
    next ← m !! wr;
    Some (true, m, mk next (if next =? 0 then 0 else newest f))
  else search fuel m f wr (oldest f).

(** The records of the fifo, oldest first. *)
Definition holds (m : memory) (f : t) (l : list Z) : Prop :=
  chain m (oldest f) l ∧ newest f = default 0 (last l) ∧ ∀ x, x ∈ l → is_Some (m !! x).

End Fifo.

(** ** [waitqueue] *)

Module WaitQueue.

Record t := mk { links : memory; fifo : Fifo.t; woken : gset Z }.

Definition make : t := mk ∅ Fifo.empty ∅.

(** The constructor of the record and [arm]. *)
Definition arm (wr : Z) (s : t) : option t :=
  r ← Fifo.append (<[wr := 0]> (links s)) (fifo s) wr;
  Some (mk r.1 r.2 (woken s)).

(** [disarm], after which the record is gone. *)
Definition disarm (fuel : nat) (wr : Z) (s : t) : option t :=
  if decide (wr ∈ woken s) then Some (mk (delete wr (links s)) (fifo s) (woken s ∖ {[wr]}))
  else
    r ← Fifo.unlink fuel (links s) (fifo s) wr None 0;
    Some (mk (delete wr r.1) r.2 (woken s)).

(** [wait_record::wake_lock]: the record is on its way to the mutex, or cleared. *)
Definition wake_lock (wr : Z) (s : t) : t := mk (delete wr (links s)) (fifo s) ({[wr]} ∪ woken s).

Definition wake_one (s : t) : option (list Z * t) :=
  r ← Fifo.take (links s) (fifo s);
  if r.1 =? 0 then Some ([], s) else Some ([r.1], wake_lock r.1 (mk (links s) r.2 (woken s))).

Fixpoint wake_loop (fuel : nat) (wr : Z) (s : t) : option (list Z * t) :=
  if wr =? 0 then Some ([], s)
  else match fuel with
       | O => None
       | S fuel =>
           next_wr ← links s !! wr;
           r ← wake_loop fuel next_wr (wake_lock wr s);
           Some (wr :: r.1, r.2)
       end.

Definition wake_all (fuel : nat) (s : t) : option (list Z * t) :=
  wake_loop fuel (Fifo.oldest (fifo s)) (mk (links s) Fifo.empty (woken s)).

Definition empty (s : t) : bool := Fifo.oldest (fifo s) =? 0.

End WaitQueue.

(** ** The fifo is a list *)

Section Fifo.
Import Fifo.
Implicit Types (m : memory) (f : Fifo.t) (l : list Z).

Lemma fifo_nil m : holds m empty [].
Proof. split_and!; [done|done|]. by intros ? ?%elem_of_nil. Qed.

Lemma fifo_empty m f : holds m f [] → f = empty.
Proof. intros (H & Hn & _). cbn in H, Hn. destruct f. cbn in *. by subst. Qed.

Lemma fifo_zero m f l : holds m f l → (oldest f =? 0) = bool_decide (l = []).
Proof.
  intros (Hc & _). destruct l as [|x l]; cbn in Hc; [by apply Z.eqb_eq|]. destruct Hc as (-> & Hx & _).
  by apply Z.eqb_neq.
Qed.

(** A change outside of the records of the fifo. *)
Lemma fifo_ext m m' f l : holds m f l → (∀ x, x ∈ l → m' !! x = m !! x) → holds m' f l.
Proof.
  intros (Hc & Hn & Hs) Hx. split_and!; [|done|].
  - apply (chain_ext m); [done|]. intros x Hin. unfold nx. by rewrite Hx.
  - intros x Hin. rewrite Hx by done. by apply Hs.
Qed.

Lemma fifo_snoc m f l x :
  holds m f (l ++ [x]) ↔
  seg m (oldest f) (l ++ [x]) 0 ∧ newest f = x ∧ ∀ y, y ∈ l ++ [x] → is_Some (m !! y).
Proof. unfold holds. by rewrite last_snoc. Qed.

Lemma fifo_append m f wr l :
  holds m f l → wr ∉ l → wr ≠ 0 → m !! wr = Some 0 →
  ∃ m' f', append m f wr = Some (m', f') ∧ holds m' f' (l ++ [wr]) ∧
    (∀ x, x ∉ l → m' !! x = m !! x) ∧ dom m' = dom m.
Proof.
  intros Hh Hnew H0 Hm. unfold append. rewrite (fifo_zero _ _ _ Hh).
  destruct l as [|x l _] using rev_ind.
  - rewrite bool_decide_eq_true_2 by done. eexists _, _. split; [done|]. split_and!; try done.
    split_and!; cbn; [split_and!; [done..|]; unfold nx; by rewrite Hm|done|].
    intros y ->%list_elem_of_singleton. by eexists.
  - rewrite bool_decide_eq_false_2 by (by destruct l).
    pose proof (chain_nodup _ _ _ (proj1 Hh)) as Hnd. apply fifo_snoc in Hh as (Hc & -> & Hs).
    destruct (Hs x ltac:(elem)) as [v Hv]. rewrite Hv. eexists _, _. split; [done|].
    assert (wr ≠ x) as Hne by (intros ->; apply Hnew; elem). split_and!.
    + apply fifo_snoc. cbn [oldest newest]. split_and!; [|done|].
      * apply seg_app. exists wr. split; [by eapply Compact.seg_relink|]. cbn. split_and!; [done..|].
        rewrite nx_insert_ne by done. unfold nx. by rewrite Hm.
      * intros y [Hy|Hy]%elem_of_app.
        -- destruct (decide (y = x)) as [->|]; [by rewrite lookup_insert_eq; eexists|].
           rewrite lookup_insert_ne by done. by apply Hs.
        -- apply list_elem_of_singleton in Hy as ->. rewrite lookup_insert_ne by done. by eexists.
    + intros y Hy. rewrite lookup_insert_ne; [done|]. intros ->. apply Hy. elem.
    + apply dom_insert_lookup_L. by eexists.
Qed.

Lemma fifo_take m f l :
  holds m f l →
  match l with
  | [] => take m f = Some (0, f)
  | x :: l' => ∃ f', take m f = Some (x, f') ∧ holds m f' l' ∧ x ≠ 0
  end.
Proof.
  intros Hh. unfold take. rewrite (fifo_zero _ _ _ Hh). pose proof Hh as (Hc & Hn & Hs). destruct l as [|x l'].
  - by rewrite bool_decide_eq_true_2.
  - rewrite bool_decide_eq_false_2 by done. destruct Hc as (-> & Hx & Hc).
    destruct (Hs x ltac:(elem)) as [v Hv]. rewrite Hv. cbn [mbind option_bind].
    unfold nx in Hc. rewrite Hv in Hc. cbn in Hc. eexists. split_and!; [done| |done].
    split_and!; cbn [oldest newest]; [done| |intros y ?; apply Hs; elem].
    destruct l' as [|y l']; cbn in Hc.
    + subst v. done.
    + destruct Hc as (-> & Hy & _). rewrite (proj2 (Z.eqb_neq _ _) Hy). by rewrite Hn.
Qed.

(** Unlinking a record behind [p]. *)
Lemma chain_unlink m h l1 p wr l2 next :
  chain m h (l1 ++ p :: wr :: l2) → m !! wr = Some next → chain (<[p := next]> m) h (l1 ++ p :: l2).
Proof.
  intros Hc Hw. pose proof (chain_nodup _ _ _ Hc) as Hnd.
  apply seg_app in Hc as (q & Hc1 & -> & Hp & Hpw & Hwr & Hc2).
  unfold nx in Hc2. rewrite Hw in Hc2. cbn in Hc2.
  apply NoDup_app in Hnd as (_ & Hd1 & Hd2). rewrite !NoDup_cons, elem_of_cons in Hd2.
  apply seg_app. exists p. split; [apply seg_insert; [|done]; intros Hin; apply (Hd1 p Hin); elem|].
  split_and!; [done..|]. rewrite nx_insert_eq. apply seg_insert; [naive_solver|done].
Qed.

Lemma fifo_unlink_at m f l1 p wr l2 next :
  holds m f (l1 ++ p :: wr :: l2) → m !! wr = Some next →
  holds (<[p := next]> m) (if next =? 0 then mk (oldest f) p else f) (l1 ++ p :: l2).
Proof.
  intros (Hc & Hn & Hs) Hw. pose proof (chain_unlink _ _ _ _ _ _ _ Hc Hw) as Hc'.
  assert (∀ y, y ∈ l1 ++ p :: l2 → is_Some (<[p := next]> m !! y)) as Hs'.
  { intros y Hy. destruct (decide (y = p)) as [->|]; [by rewrite lookup_insert_eq; eexists|].
    rewrite lookup_insert_ne by done. apply Hs. set_solver. }
  assert (seg m next l2 0) as Hc2.
  { apply seg_app in Hc as (q & _ & _ & _ & _ & _ & Hc2). unfold nx in Hc2. by rewrite Hw in Hc2. }
  destruct l2 as [|x l2].
  - cbn in Hc2. subst next. split_and!; [done| |done]. cbn. by rewrite last_snoc.
  - pose proof Hc2 as (-> & Hx & _). rewrite (proj2 (Z.eqb_neq _ _) Hx). split_and!; [done| |done].
    rewrite Hn. rewrite !last_app_cons. cbn. done.
Qed.

Lemma erase_app_r (x : Z) l1 l2 : x ∉ l1 → erase x (l1 ++ l2) = l1 ++ erase x l2.
Proof.
  induction l1 as [|y l1 IH]; [done|]. rewrite not_elem_of_cons. intros [Hne Hx]. cbn.
  rewrite decide_False by done. by rewrite IH.
Qed.

Lemma erase_cons_eq (x : Z) l : erase x (x :: l) = l.
Proof. cbn. by rewrite decide_True. Qed.

Lemma erase_cons_ne (x y : Z) l : x ≠ y → erase x (y :: l) = y :: erase x l.
Proof. intros. cbn. by rewrite decide_False. Qed.

(** What a removal leaves alone. *)
Definition same_outside (l : list Z) m m' : Prop := (∀ x, x ∉ l → m' !! x = m !! x) ∧ dom m' = dom m.

Lemma same_outside_refl l m : same_outside l m m.
Proof. done. Qed.

Lemma same_outside_insert l m p v : p ∈ l → is_Some (m !! p) → same_outside l m (<[p := v]> m).
Proof.
  intros Hp Hm. split; [|by apply dom_insert_lookup_L]. intros x Hx. rewrite lookup_insert_ne; [done|]. by intros ->.
Qed.

(** The link a walk looks at next. *)
Lemma fifo_link m f l1 p l2 :
  holds m f (l1 ++ p :: l2) → p ≠ 0 ∧ m !! p = Some (default 0 (head l2)) ∧ (∀ x l2', l2 = x :: l2' → x ≠ 0).
Proof.
  intros (Hc & _ & Hs). apply seg_app in Hc as (q & _ & -> & Hp & Hc). destruct (Hs p ltac:(elem)) as [v Hv].
  rewrite Hv. unfold nx in Hc. rewrite Hv in Hc. cbn in Hc. apply chain_head in Hc as Hh. split_and!; [done|by subst|].
  intros x l2' ->. by destruct Hc as (_ & ? & _).
Qed.

Lemma unlink_walk fuel m f wr l1 p l2 :
  holds m f (l1 ++ p :: l2) → wr ∉ l1 ++ [p] → (length l2 ≤ fuel)%nat →
  ∃ m' f', unlink fuel m f wr (Some p) p = Some (m', f') ∧ holds m' f' (erase wr (l1 ++ p :: l2)) ∧
    same_outside (l1 ++ p :: l2) m m'.
Proof.
  revert l1 p l2. induction fuel as [|fuel IH]; intros l1 p l2 Hh Hw Hf;
    (destruct (fifo_link _ _ _ _ _ Hh) as (Hp & Hv & Hx); cbn [unlink]; rewrite Hv; cbn [mbind option_bind];
     destruct l2 as [|x l2]; cbn [length] in Hf; [|try lia]);
    [exists m, f; rewrite erase_notin by done; done..|].
  replace (l1 ++ p :: x :: l2) with ((l1 ++ [p]) ++ x :: l2) in * by (by rewrite <- app_assoc).
  change (default 0 (head (x :: l2))) with x. rewrite (proj2 (Z.eqb_neq x 0)) by (by eapply Hx).
  rewrite erase_app_r by done.
  destruct (Z.eqb_spec x wr) as [->|Hne].
  - rewrite erase_cons_eq. destruct (fifo_link _ _ _ _ _ Hh) as (_ & Hv' & _). rewrite Hv'. cbn [mbind option_bind].
    rewrite <- app_assoc in Hh |- *. eexists _, _. split; [done|]. split.
    + by apply (fifo_unlink_at m f l1 p wr l2).
    + apply same_outside_insert; [elem|by eexists].
  - destruct (IH (l1 ++ [p]) x l2 Hh) as (m' & f' & E & Hh' & Hs); [|lia|].
    { rewrite elem_of_app, list_elem_of_singleton. naive_solver. }
    rewrite erase_app_r in Hh' by done. exists m', f'. done.
Qed.

Lemma fifo_unlink fuel m f wr l :
  holds m f l → (length l ≤ fuel)%nat →
  ∃ m' f', unlink fuel m f wr None 0 = Some (m', f') ∧ holds m' f' (erase wr l) ∧ same_outside l m m'.
Proof.
  intros Hh Hf. destruct l as [|x l].
  { apply fifo_empty in Hh as Hf0. subst f. exists m, empty. split; [by destruct fuel|done]. }
  assert (oldest f = x ∧ x ≠ 0) as [Ex Hx0] by (destruct Hh as ((-> & ? & _) & _); done).
  destruct fuel as [|fuel]; cbn [length] in Hf; [lia|]. cbn [unlink mbind option_bind]. rewrite Ex.
  rewrite (proj2 (Z.eqb_neq x 0) Hx0). destruct (Z.eqb_spec x wr) as [->|Hne].
  - rewrite erase_cons_eq. pose proof (fifo_take m f _ Hh) as (f' & Ht & Hh' & _). unfold take in Ht.
    rewrite Ex, (proj2 (Z.eqb_neq wr 0) Hx0) in Ht. destruct (m !! wr) as [next|]; [|done].
    cbn in Ht |- *. injection Ht as <-. eexists _, _. split; [done|]. split; [|done].
    destruct (next =? 0); done.
  - by apply (unlink_walk fuel m f wr [] x l Hh); [set_solver|lia].
Qed.

Lemma search_walk fuel m f wr l1 p l2 :
  holds m f (l1 ++ p :: l2) → wr ∉ l1 ++ [p] → wr ≠ 0 → (length l2 < fuel)%nat →
  ∃ m' f', search fuel m f wr p = Some (bool_decide (wr ∈ l2), m', f') ∧ holds m' f' (erase wr (l1 ++ p :: l2)) ∧
    same_outside (l1 ++ p :: l2) m m'.
Proof.
  revert l1 p l2. induction fuel as [|fuel IH]; intros l1 p l2 Hh Hw Hwr Hf; [lia|].
  destruct (fifo_link _ _ _ _ _ Hh) as (Hp & Hv & Hx). cbn [search].
  rewrite (proj2 (Z.eqb_neq p 0) Hp), Hv. cbn [mbind option_bind].
  destruct l2 as [|x l2]; cbn [length] in Hf.
  { change (default 0 (head [])) with 0. rewrite (proj2 (Z.eqb_neq wr 0) Hwr). exists m, f. rewrite erase_notin by done. split; [|done].
    rewrite bool_decide_eq_false_2 by apply not_elem_of_nil. by destruct fuel. }
  replace (l1 ++ p :: x :: l2) with ((l1 ++ [p]) ++ x :: l2) in * by (by rewrite <- app_assoc).
  change (default 0 (head (x :: l2))) with x. rewrite erase_app_r by done. destruct (Z.eqb_spec wr x) as [->|Hne].
  - rewrite erase_cons_eq. destruct (fifo_link _ _ _ _ _ Hh) as (_ & Hv' & _). rewrite Hv'. cbn [mbind option_bind].
    rewrite bool_decide_eq_true_2 by elem.
    rewrite <- app_assoc in Hh |- *. eexists _, _. split; [done|]. split.
    + by apply (fifo_unlink_at m f l1 p x l2).
    + apply same_outside_insert; [elem|by eexists].
  - destruct (IH (l1 ++ [p]) x l2 Hh) as (m' & f' & E & Hh' & Hs); [|done|lia|].
    { rewrite elem_of_app, list_elem_of_singleton. naive_solver. }
    rewrite erase_app_r in Hh' by done. exists m', f'. rewrite E. split_and!; [|done..].
    do 3 f_equal. apply bool_decide_ext. rewrite elem_of_cons. naive_solver.
Qed.

Lemma fifo_withdraw fuel m f wr l :
  holds m f l → wr ≠ 0 → (length l ≤ fuel)%nat →
  ∃ m' f', withdraw fuel m f wr = Some (bool_decide (wr ∈ l), m', f') ∧ holds m' f' (erase wr l) ∧ same_outside l m m'.
Proof.
  intros Hh Hwr Hf. unfold withdraw. destruct l as [|x l].
  { apply fifo_empty in Hh as Hf0. subst f. cbn [oldest empty]. rewrite (proj2 (Z.eqb_neq wr 0) Hwr).
    exists m, empty. rewrite bool_decide_eq_false_2 by apply not_elem_of_nil. split; [by destruct fuel|done]. }
  assert (oldest f = x) as Ex by (destruct Hh as ((-> & ? & _) & _); done). rewrite Ex.
  destruct (Z.eqb_spec wr x) as [->|Hne].
  - rewrite erase_cons_eq. pose proof (fifo_take m f _ Hh) as (f' & Ht & Hh' & _). unfold take in Ht.
    rewrite Ex, (proj2 (Z.eqb_neq x 0) Hwr) in Ht. destruct (m !! x) as [next|]; [|done].
    cbn in Ht |- *. injection Ht as <-. rewrite bool_decide_eq_true_2 by elem. eexists _, _. done.
  - destruct (search_walk fuel m f wr [] x l Hh) as (m' & f' & E & Hh' & Hs); [set_solver|done|cbn in Hf; lia|].
    exists m', f'. rewrite E. split_and!; [|done..]. do 3 f_equal. apply bool_decide_ext.
    rewrite elem_of_cons. naive_solver.
Qed.

End Fifo.

(** ** The wait queue wakes in the order of arrival

    The contract: the waiters in the order they came, and those woken that have
    not gone on yet. *)

Module WaitSpec.

Inductive op := Arm (wr : Z) | Disarm (wr : Z) | WakeOne | WakeAll.

Definition st : Type := list Z * gset Z.

(** A thread arms a new record, and disarms it once. *)
Definition allowed (a : st) (o : op) : Prop :=
  match o with
  | Arm wr => wr ∉ a.1 ∧ wr ∉ a.2 ∧ wr ≠ 0
  | Disarm wr => wr ∈ a.1 ∨ wr ∈ a.2
  | _ => True
  end.

#[global] Instance allowed_dec a o : Decision (allowed a o).
Proof. destruct o; cbn; apply _. Defined.

(** The threads woken, and the new state. *)
Definition step (o : op) (a : st) : list Z * st :=
  match o with
  | Arm wr => ([], (a.1 ++ [wr], a.2))
  | Disarm wr => ([], if decide (wr ∈ a.2) then (a.1, a.2 ∖ {[wr]}) else (erase wr a.1, a.2))
  | WakeOne => match a.1 with [] => ([], a) | wr :: l => ([wr], (l, {[wr]} ∪ a.2)) end
  | WakeAll => (a.1, ([], list_to_set a.1 ∪ a.2))
  end.

(** The operations of the code; the loops are bounded by the number of records. *)
Definition exec (o : op) (s : WaitQueue.t) : option (list Z * WaitQueue.t) :=
  match o with
  | Arm wr => s ← WaitQueue.arm wr s; Some ([], s)
  | Disarm wr => s ← WaitQueue.disarm (size (WaitQueue.links s)) wr s; Some ([], s)
  | WakeOne => WaitQueue.wake_one s
  | WakeAll => WaitQueue.wake_all (size (WaitQueue.links s)) s
  end.

Fixpoint legal (ops : list op) (a : st) : Prop :=
  match ops with
  | [] => True
  | o :: ops => allowed a o ∧ legal ops (step o a).2
  end.

Fixpoint run_spec (ops : list op) (a : st) : list Z * st :=
  match ops with
  | [] => ([], a)
  | o :: ops => let '(l, a) := step o a in let '(l', a) := run_spec ops a in (l ++ l', a)
  end.

Fixpoint run (ops : list op) (s : WaitQueue.t) : option (list Z * WaitQueue.t) :=
  match ops with
  | [] => Some ([], s)
  | o :: ops => r ← exec o s; r' ← run ops r.2; Some (r.1 ++ r'.1, r'.2)
  end.

(** The records in memory are those that wait. *)
Record sim (s : WaitQueue.t) (a : st) : Prop := {
  sim_holds : Fifo.holds (WaitQueue.links s) (WaitQueue.fifo s) a.1;
  sim_dom : dom (WaitQueue.links s) = list_to_set a.1;
  sim_woken : WaitQueue.woken s = a.2;
  sim_disj : ∀ x, x ∈ a.1 → x ∉ a.2;
}.

End WaitSpec.

Section WaitSpec.
Import WaitSpec.
Implicit Types (s : WaitQueue.t) (a : WaitSpec.st).

Lemma sim_nodup s a : sim s a → NoDup a.1.
Proof. intros []. by eapply chain_nodup, sim_holds0. Qed.

Lemma sim_size s a : sim s a → length a.1 = size (WaitQueue.links s).
Proof.
  intros Hs. rewrite <- size_dom, (sim_dom _ _ Hs), size_list_to_set; [done|]. by eapply sim_nodup.
Qed.

(** Taking the record off that is handed to the mutex. *)
Lemma sim_wake s x l W :
  sim s (x :: l, W) → ∀ f, Fifo.holds (WaitQueue.links s) f l →
  sim (WaitQueue.wake_lock x (WaitQueue.mk (WaitQueue.links s) f (WaitQueue.woken s))) (l, {[x]} ∪ W).
Proof.
  intros Hs f Hf. pose proof (sim_nodup _ _ Hs) as Hnd. cbn in Hnd. apply NoDup_cons in Hnd as [Hx Hnd].
  destruct Hs as [_ Hd Hw Hj]. cbn in Hd, Hw, Hj. split; cbn.
  - eapply fifo_ext; [done|]. intros y Hy. rewrite lookup_delete_ne; [done|]. by intros ->.
  - rewrite dom_delete_L, Hd. set_solver.
  - by rewrite Hw.
  - intros y Hy. specialize (Hj y). set_solver.
Qed.

Lemma wake_loop_spec fuel wr s l :
  chain (WaitQueue.links s) wr l → (∀ x, x ∈ l → is_Some (WaitQueue.links s !! x)) → (length l ≤ fuel)%nat →
  ∃ s', WaitQueue.wake_loop fuel wr s = Some (l, s') ∧ WaitQueue.fifo s' = WaitQueue.fifo s ∧
    WaitQueue.woken s' = list_to_set l ∪ WaitQueue.woken s ∧
    dom (WaitQueue.links s') = dom (WaitQueue.links s) ∖ list_to_set l.
Proof.
  revert wr s l. induction fuel as [|fuel IH]; intros wr s l Hc Hs Hf; cbn [WaitQueue.wake_loop];
    (destruct l as [|x l]; [cbn in Hc; subst wr; exists s; cbn; split_and!; [done|done|set_solver..]|]);
    cbn [length] in Hf; [lia|].
  pose proof (chain_nodup _ _ _ Hc) as Hnd. apply NoDup_cons in Hnd as [Hx Hnd].
  destruct Hc as (-> & Hx0 & Hc). rewrite (proj2 (Z.eqb_neq x 0) Hx0).
  destruct (Hs x ltac:(elem)) as [next Hnext]. unfold nx in Hc. rewrite Hnext in *. cbn [mbind option_bind default from_option id] in *.
  destruct (IH next (WaitQueue.wake_lock x s) l) as (s' & -> & Ef & Ew & Ed); [| |lia|].
  - apply (chain_ext (WaitQueue.links s)); [done|]. intros y Hy. unfold nx. cbn. rewrite lookup_delete_ne; [done|]. by intros ->.
  - intros y Hy. cbn. rewrite lookup_delete_ne; [apply Hs; elem|]. by intros ->.
  - exists s'. cbn in Ew, Ed, Ef |- *. split_and!; [done|done|rewrite Ew; set_solver|].
    rewrite Ed, dom_delete_L. set_solver.
Qed.

Lemma exec_sim o s a :
  sim s a → allowed a o → ∃ s', exec o s = Some ((step o a).1, s') ∧ sim s' (step o a).2.
Proof.
  intros Hs Ho. pose proof (sim_size _ _ Hs) as Hsize. pose proof (sim_nodup _ _ Hs) as Hnd.
  pose proof Hs as [Hh Hd Hw Hj]. destruct a as [l W]. cbn [fst snd] in *.
  destruct o as [wr|wr| |]; cbn [allowed] in Ho; cbn [exec step fst snd].
  - destruct Ho as (Hn & HW & H0). cbn [fst snd] in *. unfold WaitQueue.arm.
    destruct (fifo_append (<[wr := 0]> (WaitQueue.links s)) (WaitQueue.fifo s) wr l) as (m' & f' & -> & Hh' & _ & Ed).
    + eapply fifo_ext; [done|]. intros x Hx. rewrite lookup_insert_ne; [done|]. by intros ->.
    + done.
    + done.
    + by rewrite lookup_insert_eq.
    + eexists. split; [done|]. split; cbn; [done| |done|].
      * rewrite Ed, dom_insert_L, Hd, list_to_set_app_L. cbn. set_solver.
      * intros x. specialize (Hj x). set_solver.
  - unfold WaitQueue.disarm. rewrite Hw. case_decide as Hwk.
    + assert (wr ∉ l) as Hn by (intros ?; by apply (Hj wr)).
      eexists. split; [done|]. split; cbn [WaitQueue.links WaitQueue.fifo WaitQueue.woken fst snd].
      * eapply fifo_ext; [done|]. intros x Hx. rewrite lookup_delete_ne; [done|]. by intros ->.
      * rewrite dom_delete_L, Hd. set_solver.
      * done.
      * intros x. specialize (Hj x). set_solver.
    + assert (wr ∈ l) as Hin by (cbn in Ho; tauto).
      destruct (fifo_unlink (size (WaitQueue.links s)) _ _ wr l Hh) as (m' & f' & -> & Hh' & Hout & Ed); [lia|].
      eexists. split; [done|]. split; cbn [WaitQueue.links WaitQueue.fifo WaitQueue.woken fst snd].
      * eapply fifo_ext; [done|]. intros x Hx. rewrite lookup_delete_ne; [done|]. intros <-.
        by apply erase_elem in Hx as [? _].
      * rewrite dom_delete_L, Ed, Hd. apply set_eq. intros x.
        rewrite elem_of_difference, !elem_of_list_to_set, erase_elem by done. set_solver.
      * done.
      * intros x Hx%erase_subseteq. by apply Hj.
  - unfold WaitQueue.wake_one. pose proof (fifo_take _ _ _ Hh) as Ht. destruct l as [|x l].
    + rewrite Ht. eexists. split; [done|]. done.
    + destruct Ht as (f' & -> & Hh' & Hx0). cbn [mbind option_bind fst snd]. rewrite (proj2 (Z.eqb_neq x 0) Hx0).
      eexists. split; [done|]. cbn [snd]. by apply sim_wake.
  - unfold WaitQueue.wake_all.
    destruct (wake_loop_spec (size (WaitQueue.links s)) (Fifo.oldest (WaitQueue.fifo s))
      (WaitQueue.mk (WaitQueue.links s) Fifo.empty (WaitQueue.woken s)) l) as (s' & -> & Ef & Ew & Ed);
      [apply Hh|apply Hh|lia|].
    exists s'. split; [done|]. cbn in Ef, Ew, Ed. split; cbn [fst snd].
    + rewrite Ef. apply fifo_nil.
    + rewrite Ed, Hd. cbn. set_solver.
    + by rewrite Ew, Hw.
    + by intros x ?%elem_of_nil.
Qed.

Lemma run_sim ops s a :
  sim s a → legal ops a → ∃ s', run ops s = Some ((run_spec ops a).1, s') ∧ sim s' (run_spec ops a).2.
Proof.
  revert s a. induction ops as [|o ops IH]; intros s a Hs Hl; cbn [run run_spec]; [by exists s|].
  destruct Hl as [Ho Hl]. destruct (exec_sim o s a Hs Ho) as (s1 & -> & Hs1). destruct (step o a) as [l1 a1].
  cbn [fst snd mbind option_bind] in *. destruct (IH s1 a1 Hs1 Hl) as (s2 & -> & Hs2).
  destruct (run_spec ops a1) as [l2 a2]. cbn [fst snd mbind option_bind] in *. by exists s2.
Qed.

Lemma make_sim : sim WaitQueue.make ([], ∅).
Proof. split; [apply fifo_nil|done|done|]. by intros x ?%elem_of_nil. Qed.

(** a wait queue wakes its waiters in the order in which they came.  For every
    sequence of arrivals, departures (woken or not), single and collective
    wakeups, the code touches no record that has been handed to the mutex or whose
    thread has gone on, its loops end, and it wakes exactly those waiters, in
    exactly that order, that a list of waiters would give; [empty] tells whether
    the list is empty. *)
Theorem waitqueue_fifo ops :
  legal ops ([], ∅) →
  ∃ s, run ops WaitQueue.make = Some ((run_spec ops ([], ∅)).1, s) ∧
    (WaitQueue.empty s = true ↔ (run_spec ops ([], ∅)).2.1 = []).
Proof.
  intros Hl. destruct (run_sim ops _ _ make_sim Hl) as (s & Hr & Hs). exists s. split; [done|].
  unfold WaitQueue.empty. rewrite (fifo_zero _ _ _ (sim_holds _ _ Hs)). apply bool_decide_eq_true.
Qed.

Lemma waitqueue_fifo_witness :
  let ops := [Arm 10; Arm 20; Arm 30; Disarm 20; Arm 40; WakeOne; Disarm 10; Arm 10; WakeAll] in
  ∃ s, run ops WaitQueue.make = Some ([10; 30; 40; 10], s) ∧ WaitQueue.empty s = true.
Proof.
  destruct (waitqueue_fifo [Arm 10; Arm 20; Arm 30; Disarm 20; Arm 40; WakeOne; Disarm 10; Arm 10; WakeAll]) as (s & Hr & He).
  { cbn -[allowed]. repeat (split; [apply (bool_decide_unpack _); vm_compute; exact I|]). exact I. }
  exists s. split; [exact Hr|]. apply He. reflexivity.
Defined.

End WaitSpec.
