(* ===== verification/Condvar.v ===== *)
(** * Condition variables

    [condvar] of [include/osv/condvar.h] and [core/condvar.cc].  The steps of the
    threads interleave; what a thread does between locking and unlocking the
    internal mutex [_m] is one step, and so is one round of the loops of [wake_all],
    which runs without it.  The waiter's record is on its stack, and a thread has
    one; the user's mutex is known by the records that were sent to it
    ([mutex::send_lock], whose queue uses the link of the record), and wakes them
    one after another.  [thread::tcpu] may give another answer every time. *)
From S2P Require Import Prelude Queues WaitQueue.

Module Condvar.

(** Where a thread is: in [wait], in [wake_one], or in [wake_all]. *)
Inductive pc :=
  | Idle
  | Waiting (user_mutex : Z) (timed : bool)
  | Expired (user_mutex : Z)
  | Rewait (user_mutex : Z)
  | OneLock
  | AllLock
  | Outer (user_mutex wr : Z)
  | Inner (user_mutex : Z) (cpu_wr : nat) (next_wr prevr r : Z).

(** [sends] and [returns] record what was sent to the mutex, and what the calls of
    [wait] returned: 0, or [ETIMEDOUT]. *)
Record t := mk {
  links : memory;
  fifo : Fifo.t;
  user_mutex_ : Z;
  pcs : nat → pc;
  sent : gset nat;
  woken : gset nat;
  sends : list nat;
  returns : list (nat * bool);
}.

Inductive res := Next (s : t) | Blocked | Fault.

Definition make : t := mk ∅ Fifo.empty 0 (λ _, Idle) ∅ ∅ [] [].

(** The record of a thread. *)
Definition wr (i : nat) : Z := Z.of_nat i + 1.
Definition thread_of (x : Z) : nat := Z.to_nat (x - 1).

Definition goto (i : nat) (p : pc) (s : t) : t :=
  mk (links s) (fifo s) (user_mutex_ s) (<[i := p]> (pcs s)) (sent s) (woken s) (sends s) (returns s).
Definition set_links (s : t) m f um : t := mk m f um (pcs s) (sent s) (woken s) (sends s) (returns s).

(** [user_mutex->send_lock(x)], of a record that is there and not woken. *)
Definition send_lock (um x : Z) (s : t) : option t :=
  if (um =? 0) || bool_decide (thread_of x ∈ woken s) then None
  else match links s !! x with
       | None => None
       | Some _ =>
           Some (mk (delete x (links s)) (fifo s) (user_mutex_ s) (pcs s) ({[thread_of x]} ∪ sent s) (woken s)
                    (sends s ++ [thread_of x]) (returns s))
       end.

(** The end of [wait]: the record is gone. *)
Definition return_ (i : nat) (timeout : bool) (s : t) : t :=
  mk (delete (wr i) (links s)) (fifo s) (user_mutex_ s) (<[i := Idle]> (pcs s)) (sent s) (woken s ∖ {[i]})
     (sends s) (returns s ++ [(i, timeout)]).

(** [wait] up to the wait itself. *)
Definition wait (i : nat) (um : Z) (timed : bool) (s : t) : res :=
  match Fifo.append (<[wr i := 0]> (links s)) (fifo s) (wr i) with
  | None => Fault
  | Some (m, f) =>
      if (user_mutex_ s =? 0) || (user_mutex_ s =? um) then Next (goto i (Waiting um timed) (set_links s m f um))
      else Fault
  end.

(** The check outside of the lock. *)
Definition wake_one (i : nat) (s : t) : res := Next (if Fifo.oldest (fifo s) =? 0 then s else goto i OneLock s).
Definition wake_all (i : nat) (s : t) : res := Next (if Fifo.oldest (fifo s) =? 0 then s else goto i AllLock s).

(** [wake_one] under the lock. *)
Definition wake_one_locked (i : nat) (s : t) : option t :=
  r ← Fifo.take (links s) (fifo s);
  if r.1 =? 0 then Some (goto i Idle s)
  else
    s' ← send_lock (user_mutex_ s) r.1 (set_links s (links s) r.2 (user_mutex_ s));
    Some (goto i Idle (set_links s' (links s') (fifo s')
      (if Fifo.oldest (fifo s') =? 0 then 0 else user_mutex_ s'))).

(** [wake_all] under the lock. *)
Definition wake_all_locked (i : nat) (s : t) : t :=
  goto i (Outer (user_mutex_ s) (Fifo.oldest (fifo s))) (set_links s (links s) Fifo.empty 0).

(** The head of the outer loop of [wake_all], and its body up to the inner loop. *)
Definition outer (cpu : nat → nat) (i : nat) (um x : Z) (s : t) : option t :=
  if x =? 0 then Some (goto i Idle s)
  else
    next_wr ← links s !! x;
    s ← send_lock um x s;
    Some (goto i (Inner um (cpu (thread_of x)) next_wr 0 next_wr) s).

(** One round of the inner loop. *)
Definition inner (cpu : nat → nat) (i : nat) (um : Z) (cpu_wr : nat) (next_wr prevr r : Z) (s : t) : option t :=
  if r =? 0 then Some (goto i (Outer um next_wr) s)
  else
    nextr ← links s !! r;
    if bool_decide (thread_of r ∈ woken s) then None
    else if decide (cpu (thread_of r) = cpu_wr) then
      s ← send_lock um r s;
      if r =? next_wr then Some (goto i (Inner um cpu_wr nextr prevr nextr) s)
      else
        _ ← links s !! prevr;
        Some (goto i (Inner um cpu_wr next_wr prevr nextr) (set_links s (<[prevr := nextr]> (links s)) (fifo s) (user_mutex_ s)))
    else Some (goto i (Inner um cpu_wr next_wr r nextr) s).

(** [wait] after the wait: [expired] tells whether the timer has expired. *)
Definition resume (expired : bool) (i : nat) (s : t) : res :=
  match pcs s i with
  | Waiting um timed =>
      if bool_decide (i ∈ woken s) then Next (return_ i false s)
      else if timed && expired then Next (goto i (Expired um) s)
      else Blocked
  | Expired um =>
      match Fifo.withdraw (size (links s)) (links s) (fifo s) (wr i) with
      | None => Fault
      | Some (found, m, f) =>
          let s := set_links s m f (user_mutex_ s) in
          Next (if (found : bool) then return_ i true s else goto i (Rewait um) s)
      end
  | Rewait um => if bool_decide (i ∈ woken s) then Next (return_ i false s) else Blocked
  | _ => Blocked
  end.

Definition of_option (o : option t) : res := match o with Some s => Next s | None => Fault end.

(** The actions: calls from outside, steps of a call, and the wake of a record by
    the user's mutex. *)
Inductive action :=
  | Wait (i : nat) (um : Z) (timed : bool) | WakeOne (i : nat) | WakeAll (i : nat)
  | Go (i : nat) (cpu : nat → nat) (expired : bool) | Grant (i : nat).

Definition step (a : action) (s : t) : res :=
  match a with
  | Wait i um timed => match pcs s i with Idle => wait i um timed s | _ => Blocked end
  | WakeOne i => match pcs s i with Idle => wake_one i s | _ => Blocked end
  | WakeAll i => match pcs s i with Idle => wake_all i s | _ => Blocked end
  | Go i cpu expired =>
      match pcs s i with
      | Idle => Blocked
      | OneLock => of_option (wake_one_locked i s)
      | AllLock => Next (wake_all_locked i s)
      | Outer um x => of_option (outer cpu i um x s)
      | Inner um c n p r => of_option (inner cpu i um c n p r s)
      | _ => resume expired i s
      end
  | Grant i =>
      if decide (i ∈ sent s) then
        Next (mk (links s) (fifo s) (user_mutex_ s) (pcs s) (sent s ∖ {[i]}) ({[i]} ∪ woken s) (sends s) (returns s))
      else Blocked
  end.

End Condvar.

(** ** Where the records are *)

Section Invariant.
Import Condvar.
Context (um0 : Z) (Hum0 : um0 ≠ 0).
Implicit Types (s : Condvar.t) (i j w : nat) (l : list Z) (m : memory).

Inductive place := Nowhere | InFifo | Detached (w : nat) | Sent | Woken.

#[local] Instance place_eq_dec : EqDecision place.
Proof. solve_decision. Defined.

(** The inner loop of [wake_all]: it has passed over the records of [K], and those of
    [R] are still to come. *)
Definition split_at m (p : pc) (K R : list Z) : Prop :=
  match p with
  | Inner um _ next_wr prevr r =>
      chain m next_wr (K ++ R) ∧ r = default 0 (head R) ∧
      (∀ y, last K = Some y → prevr = y) ∧ (K ++ R ≠ [] → um = um0)
  | _ => False
  end.

(** The records a [wake_all] has still to send. *)
Definition detached m (p : pc) l : Prop :=
  match p with
  | Outer um x => chain m x l ∧ (l ≠ [] → um = um0)
  | Inner _ _ _ _ _ => ∃ K R, l = K ++ R ∧ split_at m p K R
  | _ => l = []
  end.

Definition waiting (p : pc) : bool := match p with Waiting _ _ | Expired _ | Rewait _ => true | _ => false end.

(** Records in memory: those in the fifo, and those detached. *)
Definition linked (p : place) : Prop := match p with InFifo | Detached _ => True | _ => False end.

Definition owed (p : place) : nat := match p with Sent | Woken => 1 | _ => 0 end.
Definition count (i : nat) (l : list nat) : nat := length (filter (λ j, j = i) l).
Definition answers (i : nat) (l : list (nat * bool)) : nat := length (filter (λ r, r = (i, false)) l).

Record inv s l (D : nat → list Z) (P : nat → place) : Prop := {
  i_fifo : Fifo.holds (links s) (fifo s) l;
  i_detached : ∀ w, detached (links s) (pcs s w) (D w);
  i_in_fifo : ∀ x, x ∈ l ↔ ∃ i, x = wr i ∧ P i = InFifo;
  i_in_detached : ∀ w x, x ∈ D w ↔ ∃ i, x = wr i ∧ P i = Detached w;
  i_sent : ∀ i, i ∈ sent s ↔ P i = Sent;
  i_woken : ∀ i, i ∈ woken s ↔ P i = Woken;
  i_linked : ∀ x, is_Some (links s !! x) ↔ ∃ i, x = wr i ∧ linked (P i);
  i_waiting : ∀ i, waiting (pcs s i) = true ↔ P i ≠ Nowhere;
  i_rewait : ∀ i um, pcs s i = Rewait um → P i ≠ InFifo;
  i_mutex : user_mutex_ s = 0 ∨ user_mutex_ s = um0;
  i_mutex_fifo : l ≠ [] → user_mutex_ s = um0;
  i_count : ∀ i, count i (sends s) = (answers i (returns s) + owed (P i))%nat;
}.

Definition good s : Prop := ∃ l D P, inv s l D P.

(** ** Records *)

Lemma wr_inj i j : wr i = wr j → i = j.
Proof. unfold wr. lia. Qed.

Lemma wr_nonzero i : wr i ≠ 0.
Proof. unfold wr. lia. Qed.

Lemma thread_of_wr i : thread_of (wr i) = i.
Proof. unfold thread_of, wr. lia. Qed.

Lemma in_fifo s l D P i : inv s l D P → wr i ∈ l ↔ P i = InFifo.
Proof. intros Hi. rewrite (i_in_fifo _ _ _ _ Hi). split; [by intros (j & <-%wr_inj & ?)|eauto]. Qed.

Lemma in_detached s l D P i w : inv s l D P → wr i ∈ D w ↔ P i = Detached w.
Proof. intros Hi. rewrite (i_in_detached _ _ _ _ Hi). split; [by intros (j & <-%wr_inj & ?)|eauto]. Qed.

(** What a waker has to do depends on its own records only. *)
Lemma detached_ext m m' p l : (∀ x, x ∈ l → m' !! x = m !! x) → detached m p l → detached m' p l.
Proof.
  intros Hx. assert (∀ h, chain m h l → chain m' h l) as Hc.
  { intros h Hc. apply (chain_ext m); [done|]. intros x Hin. unfold nx. by rewrite Hx. }
  destruct p; cbn; try done; [naive_solver|]. intros (K & R & -> & H2 & H3). exists K, R. auto.
Qed.

Lemma count_snoc i (l : list nat) j : count i (l ++ [j]) = (count i l + if decide (j = i) then 1 else 0)%nat.
Proof. unfold count. rewrite filter_app, length_app. f_equal. cbn. by case_decide. Qed.

Lemma answers_snoc i (l : list (nat * bool)) j b :
  answers i (l ++ [(j, b)]) = (answers i l + if decide (j = i ∧ b = false) then 1 else 0)%nat.
Proof.
  unfold answers. rewrite filter_app, length_app. f_equal. rewrite filter_cons.
  destruct (decide ((j, b) = (i, false))); case_decide; naive_solver.
Qed.

Lemma inv_ext s l D D' P : (∀ w, D' w = D w) → inv s l D P → inv s l D' P.
Proof. intros HD []. split; try done; intros w; rewrite HD; done. Qed.

(** A step of thread [i] that touches nothing shared. *)
Lemma inv_goto s l D P i p :
  inv s l D P → waiting p = waiting (pcs s i) → detached (links s) p (D i) →
  (∀ um, p = Rewait um → P i ≠ InFifo) → inv (goto i p s) l D P.
Proof.
  intros [] Hw Hd Hr. split; cbn [links fifo pcs user_mutex_ sent woken sends returns goto]; try done.
  - intros w. rewrite fn_insert_if. case_decide; [by subst|done].
  - intros j. rewrite fn_insert_if. case_decide; [subst; rewrite Hw|]; done.
  - intros j um. rewrite fn_insert_if. case_decide; [subst; apply Hr|apply i_rewait0].
Qed.

Lemma linked_facts s l D P j :
  inv s l D P → linked (P j) → j ∉ woken s ∧ is_Some (links s !! wr j).
Proof.
  intros Hi Hl. split; [rewrite (i_woken _ _ _ _ Hi); by destruct (P j)|].
  apply (i_linked _ _ _ _ Hi). eauto.
Qed.

(** A record in memory goes to the mutex. *)
Lemma send_spec s j um :
  um ≠ 0 → j ∉ woken s → is_Some (links s !! wr j) →
  send_lock um (wr j) s =
  Some (mk (delete (wr j) (links s)) (fifo s) (user_mutex_ s) (pcs s) ({[j]} ∪ sent s) (woken s) (sends s ++ [j]) (returns s)).
Proof.
  intros Hum Hw [v Hv]. unfold send_lock. rewrite (proj2 (Z.eqb_neq um 0) Hum), thread_of_wr, Hv. cbn [orb].
  by rewrite bool_decide_eq_false_2.
Qed.

(** The invariant after the record of [j] was sent, and unlinked from its list. *)
Lemma inv_sent s s' l l' D D' P j :
  inv s l D P → linked (P j) →
  Fifo.holds (links s') (fifo s') l' → (∀ w, detached (links s') (pcs s' w) (D' w)) →
  (∀ x, x ∈ l' ↔ x ∈ l ∧ x ≠ wr j) → (∀ w x, x ∈ D' w ↔ x ∈ D w ∧ x ≠ wr j) →
  (∀ x, is_Some (links s' !! x) ↔ is_Some (links s !! x) ∧ x ≠ wr j) →
  sent s' = {[j]} ∪ sent s → woken s' = woken s → sends s' = sends s ++ [j] → returns s' = returns s →
  (∀ i, waiting (pcs s' i) = waiting (pcs s i)) → (∀ i um, pcs s' i = Rewait um → pcs s i = Rewait um) →
  user_mutex_ s' = 0 ∨ user_mutex_ s' = um0 → (l' ≠ [] → user_mutex_ s' = um0) →
  inv s' l' D' (<[j := Sent]> P).
Proof.
  intros Hi Hj Hf Hd Hl' HD' Hm Es Ew Esd Er Hw Hr Hu Hu'. destruct Hi. split; try done.
  - intros x. rewrite Hl', i_in_fifo0. split.
    + intros [(i & -> & Hp) Hne]. exists i. rewrite fn_insert_if, decide_False; [done|]. by intros ->.
    + intros (i & -> & Hp). rewrite fn_insert_if in Hp. case_decide; [done|]. split; [eauto|]. by intros ?%wr_inj.
  - intros w x. rewrite HD', i_in_detached0. split.
    + intros [(i & -> & Hp) Hne]. exists i. rewrite fn_insert_if, decide_False; [done|]. by intros ->.
    + intros (i & -> & Hp). rewrite fn_insert_if in Hp. case_decide; [done|]. split; [eauto|]. by intros ?%wr_inj.
  - intros i. rewrite Es, elem_of_union, elem_of_singleton, i_sent0, fn_insert_if. case_decide; intuition congruence.
  - intros i. rewrite Ew, i_woken0, fn_insert_if. case_decide as E; [subst i|done]. by destruct (P j).
  - intros x. rewrite Hm, i_linked0. split.
    + intros [(i & -> & Hp) Hne]. exists i. rewrite fn_insert_if, decide_False; [done|]. by intros ->.
    + intros (i & -> & Hp). rewrite fn_insert_if in Hp. case_decide; [done|]. split; [eauto|]. by intros ?%wr_inj.
  - intros i. rewrite Hw, i_waiting0, fn_insert_if. case_decide as E; [subst i|done]. by destruct (P j).
  - intros i um Hp. rewrite fn_insert_if. case_decide; [done|]. by eapply i_rewait0, Hr.
  - intros i. rewrite Esd, Er, count_snoc, fn_insert_if, i_count0.
    destruct (decide (j = i)) as [->|Hne]; [rewrite decide_True by done|rewrite decide_False by done; lia].
    destruct (P i); cbn in Hj |- *; lia || done.
Qed.

(** ** The steps keep the invariant *)

Lemma wait_good s i timed : good s → pcs s i = Idle → ∃ s', wait i um0 timed s = Next s' ∧ good s'.
Proof using Hum0.
  intros (l & D & P & Hi) Hpc. unfold wait.
  assert (P i = Nowhere) as HP.
  { pose proof (i_waiting _ _ _ _ Hi i) as Hw. rewrite Hpc in Hw. cbn in Hw. destruct (P i); naive_solver. }
  assert (wr i ∉ l) as Hn by (rewrite (in_fifo _ _ _ _ _ Hi); congruence).
  assert (∀ w, wr i ∉ D w) as HnD by (intros w; rewrite (in_detached _ _ _ _ _ _ Hi); congruence).
  destruct (fifo_append (<[wr i := 0]> (links s)) (fifo s) (wr i) l) as (m & f & -> & Hh & Hout & Hdom).
  - eapply fifo_ext; [apply Hi|]. intros x Hx. rewrite lookup_insert_ne; [done|]. by intros <-.
  - done.
  - apply wr_nonzero.
  - by rewrite lookup_insert_eq.
  - assert ((user_mutex_ s =? 0) || (user_mutex_ s =? um0) = true) as ->.
    { destruct (i_mutex _ _ _ _ Hi) as [-> | ->]; [done|]. rewrite Z.eqb_refl. apply orb_true_r. }
    eexists. split; [done|]. exists (l ++ [wr i]), D, (<[i := InFifo]> P).
    destruct Hi. split; cbn [links fifo pcs user_mutex_ sent woken sends returns goto set_links]; try done.
    + intros w. rewrite fn_insert_if. case_decide as E.
      * subst w. cbn. specialize (i_detached0 i). by rewrite Hpc in i_detached0.
      * eapply detached_ext; [|done]. intros x Hx. assert (x ≠ wr i) by (intros ->; by apply (HnD w)).
        rewrite Hout, lookup_insert_ne; [done|done|]. intros Hl. apply i_in_fifo0 in Hl as (j & -> & Hj).
        apply i_in_detached0 in Hx as (k & <-%wr_inj & Hk). congruence.
    + intros x. rewrite elem_of_app, list_elem_of_singleton, i_in_fifo0. split.
      * intros [(j & -> & Hj)| ->]; [exists j|exists i]; rewrite fn_insert_if; case_decide; subst; split; congruence.
      * intros (j & -> & Hj). rewrite fn_insert_if in Hj. case_decide; [subst; by right|left; eauto].
    + intros w x. rewrite i_in_detached0. split; intros (j & -> & Hj); exists j; rewrite fn_insert_if in *; case_decide; subst; split; congruence.
    + intros j. rewrite i_sent0, fn_insert_if. case_decide; subst; intuition congruence.
    + intros j. rewrite i_woken0, fn_insert_if. case_decide; subst; intuition congruence.
    + intros x. rewrite <- elem_of_dom, Hdom, dom_insert, elem_of_union, elem_of_singleton, elem_of_dom, i_linked0. split.
      * intros [->|(j & -> & Hj)]; [exists i|exists j]; rewrite fn_insert_if; case_decide; subst; split; done.
      * intros (j & -> & Hj). rewrite fn_insert_if in Hj. case_decide; [subst; by left|right; eauto].
    + intros j. rewrite !fn_insert_if. case_decide; [done|apply i_waiting0].
    + intros j um. rewrite !fn_insert_if. case_decide; [done|apply i_rewait0].
    + by right.
    + intros j. rewrite i_count0, fn_insert_if. case_decide; [subst; by rewrite HP|done].
Qed.

(** A record that leaves memory. *)
Lemma delete_is_some m (x y : Z) : is_Some (delete y m !! x) ↔ is_Some (m !! x) ∧ x ≠ y.
Proof. rewrite <- !elem_of_dom, dom_delete. set_solver. Qed.

Lemma delete_same m (l : list Z) y : y ∉ l → ∀ x, x ∈ l → delete y m !! x = m !! x.
Proof. intros Hy x Hx. rewrite lookup_delete_ne; [done|]. by intros <-. Qed.

Lemma fifo_delete m f l y : Fifo.holds m f l → y ∉ l → Fifo.holds (delete y m) f l.
Proof. intros Hh Hy. eapply fifo_ext; [done|]. by apply delete_same. Qed.

Lemma detached_idle s l D P i : inv s l D P → waiting (pcs s i) = false → P i = Nowhere.
Proof.
  intros Hi Hw. pose proof (i_waiting _ _ _ _ Hi i) as H. rewrite Hw in H.
  destruct (decide (P i = Nowhere)) as [|Hn]; [done|]. by apply H in Hn.
Qed.

Lemma wake_one_good s i : good s → pcs s i = OneLock → ∃ s', wake_one_locked i s = Some s' ∧ good s'.
Proof using Hum0.
  intros (l & D & P & Hi) Hpc. unfold wake_one_locked. pose proof (i_detached _ _ _ _ Hi i) as Hdi. rewrite Hpc in Hdi. cbn in Hdi.
  pose proof (fifo_take _ _ _ (i_fifo _ _ _ _ Hi)) as Ht. destruct l as [|x l].
  - rewrite Ht. eexists. split; [done|]. exists [], D, P. apply inv_goto; [done|by rewrite Hpc|done|done].
  - destruct Ht as (f & -> & Hf & Hx0). cbn [mbind option_bind fst snd]. rewrite (proj2 (Z.eqb_neq x 0) Hx0).
    destruct (proj1 (i_in_fifo _ _ _ _ Hi x) ltac:(elem)) as (j & -> & Hj).
    assert (linked (P j)) as Hlk by (by rewrite Hj).
    destruct (linked_facts _ _ _ _ _ Hi Hlk) as [Hw Hs].
    rewrite (i_mutex_fifo _ _ _ _ Hi) by done. rewrite send_spec by done.
    cbn [mbind option_bind]. eexists. split; [done|]. exists l, D, (<[j := Sent]> P).
    pose proof (chain_nodup _ _ _ (proj1 (i_fifo _ _ _ _ Hi))) as Hnd. apply NoDup_cons in Hnd as [Hnj Hnd].
    assert (∀ w, wr j ∉ D w) as HnD by (intros w; rewrite (in_detached _ _ _ _ _ _ Hi); congruence).
    eapply inv_sent; cbn [links fifo pcs user_mutex_ sent woken sends returns goto set_links]; try done.
    + by apply fifo_delete.
    + intros w. rewrite fn_insert_if. case_decide as E; [by subst w|].
      eapply detached_ext; [|apply (i_detached _ _ _ _ Hi)]. by apply delete_same.
    + intros x. rewrite elem_of_cons. split; [|tauto]. intros Hx. split; [by right|]. by intros ->.
    + intros w x. split; [|tauto]. intros Hx. split; [done|]. intros ->. by apply (HnD w).
    + intros x. apply delete_is_some.
    + intros k. rewrite fn_insert_if. case_decide; [subst; by rewrite Hpc|done].
    + intros k um. rewrite fn_insert_if. by case_decide.
    + case_match; [by left|by right].
    + intros Hne. rewrite (fifo_zero _ _ _ Hf). by rewrite bool_decide_eq_false_2.
Qed.

Lemma wake_all_inv s l D P i :
  inv s l D P → pcs s i = AllLock →
  inv (wake_all_locked i s) [] (<[i := l]> D) (λ j, match P j with InFifo => Detached i | p => p end).
Proof.
  intros Hi Hpc. pose proof (i_detached _ _ _ _ Hi i) as Hdi. rewrite Hpc in Hdi. cbn in Hdi.
  assert (∀ w x, x ∈ D w → ∃ j, x = wr j ∧ P j = Detached w) as HD by (intros w x; apply (i_in_detached _ _ _ _ Hi)).
  destruct Hi. unfold wake_all_locked. split; cbn [links fifo pcs user_mutex_ sent woken sends returns goto set_links].
  - apply fifo_nil.
  - intros w. rewrite !fn_insert_if. case_decide; [|done]. cbn. split; [apply i_fifo0|done].
  - intros x. split; [by intros ?%elem_of_nil|]. intros (j & -> & Hj). by destruct (P j).
  - intros w x. rewrite fn_insert_if. case_decide as E.
    + subst w. rewrite i_in_fifo0. split; intros (j & -> & Hj); exists j; (split; [done|]); [by rewrite Hj|].
      destruct (P j) eqn:Ej; try done. injection Hj as ->. exfalso.
      assert (wr j ∈ D i) as Hin by (apply i_in_detached0; eauto). rewrite Hdi in Hin. by apply elem_of_nil in Hin.
    + rewrite i_in_detached0. split; intros (j & -> & Hj); exists j; (split; [done|]); [by rewrite Hj|].
      destruct (P j); congruence.
  - intros j. rewrite i_sent0. by destruct (P j).
  - intros j. rewrite i_woken0. by destruct (P j).
  - intros x. rewrite i_linked0. split; intros (j & -> & Hj); exists j; (split; [done|]); by destruct (P j).
  - intros j. rewrite fn_insert_if. case_decide; [subst; cbn|rewrite i_waiting0; by destruct (P j)].
    pose proof (i_waiting0 i) as Hw. rewrite Hpc in Hw. cbn in Hw. destruct (P i); intuition congruence.
  - intros j um. rewrite fn_insert_if. case_decide; [done|]. intros _. by destruct (P j).
  - by left.
  - done.
  - intros j. rewrite i_count0. by destruct (P j).
Qed.

(** The loops of [wake_all]: the record of [j] is sent, and the list of waker [i]
    goes from [L] to [L']. *)
Lemma detached_send s s' l D P i j p L' :
  inv s l D P → P j = Detached i →
  (∀ x, x ∈ L' ↔ x ∈ D i ∧ x ≠ wr j) → detached (links s') p L' →
  (∀ x, x ∉ D i → links s' !! x = links s !! x) → (∀ x, is_Some (links s' !! x) ↔ is_Some (links s !! x) ∧ x ≠ wr j) →
  pcs s' = <[i := p]> (pcs s) → waiting p = false → waiting (pcs s i) = false →
  fifo s' = fifo s → user_mutex_ s' = user_mutex_ s → sent s' = {[j]} ∪ sent s → woken s' = woken s →
  sends s' = sends s ++ [j] → returns s' = returns s → inv s' l (<[i := L']> D) (<[j := Sent]> P).
Proof.
  intros Hi Hj HL' Hp Hout Hm Ep Hwp Hwi Ef Eu Es Ew Esd Er.
  assert (linked (P j)) as Hlk by (by rewrite Hj).
  eapply (inv_sent s); try done.
  - rewrite Ef. eapply fifo_ext; [apply Hi|]. intros x Hx. apply Hout. intros HxD.
    apply (i_in_fifo _ _ _ _ Hi) in Hx as (k & -> & Hk). apply (in_detached _ _ _ _ _ _ Hi) in HxD. congruence.
  - intros w. rewrite Ep, !fn_insert_if. case_decide as E; [done|].
    eapply detached_ext; [|apply (i_detached _ _ _ _ Hi)]. intros x Hx. apply Hout. intros HxD.
    apply (i_in_detached _ _ _ _ Hi) in Hx as (k & -> & Hk). apply (in_detached _ _ _ _ _ _ Hi) in HxD. congruence.
  - intros x. split; [|tauto]. intros Hx. split; [done|]. intros ->. apply (in_fifo _ _ _ _ _ Hi) in Hx. congruence.
  - intros w x. rewrite fn_insert_if. case_decide as E; [by subst w|]. split; [|tauto].
    intros Hx. split; [done|]. intros ->. apply (in_detached _ _ _ _ _ _ Hi) in Hx. congruence.
  - intros k. rewrite Ep, fn_insert_if. case_decide; [subst; congruence|done].
  - intros k um. rewrite Ep, fn_insert_if. case_decide; [subst; intros ->; done|done].
  - rewrite Eu. apply Hi.
  - rewrite Eu. apply Hi.
Qed.

(** The head of the outer loop: it ends, or sends the first record. *)
Lemma outer_inv cpu s l D P i um x :
  inv s l D P → pcs s i = Outer um x →
  match D i with
  | [] => x = 0
  | y :: L => ∃ s' P', outer cpu i um x s = Some s' ∧ inv s' l (<[i := L]> D) P' ∧
      split_at (links s') (pcs s' i) [] L ∧ sends s' = sends s ++ [thread_of y]
  end.
Proof using Hum0.
  intros Hi Hpc. unfold outer. pose proof (i_detached _ _ _ _ Hi i) as Hdi. rewrite Hpc in Hdi. cbn in Hdi.
  destruct Hdi as [Hc Hum]. destruct (D i) as [|y L] eqn:ED; [done|].
  pose proof (chain_nodup _ _ _ Hc) as Hnd. apply NoDup_cons in Hnd as [Hny Hnd].
  destruct Hc as (-> & Hy0 & Hc). rewrite (proj2 (Z.eqb_neq y 0) Hy0).
  destruct (proj1 (i_in_detached _ _ _ _ Hi i y)) as (j & -> & Hj); [rewrite ED; elem|].
  assert (linked (P j)) as Hlk by (by rewrite Hj). destruct (linked_facts _ _ _ _ _ Hi Hlk) as [Hw [v Hv]].
  unfold nx in Hc. rewrite Hv in *. cbn [mbind option_bind default from_option id] in *.
  rewrite send_spec; [|by rewrite Hum|done|by eexists]. eexists _, (<[j := Sent]> P). split; [done|].
  assert (split_at (delete (wr j) (links s)) (Inner um (cpu (thread_of (wr j))) v 0 v) [] L) as Hsp.
  { split_and!; [|by apply chain_head in Hc|done|intros _; by apply Hum].
    apply (chain_ext (links s)); [done|]. intros z Hz. unfold nx. by rewrite (delete_same _ L). }
  split_and!; [|cbn; by rewrite fn_lookup_insert|cbn; by rewrite thread_of_wr].
  apply (detached_send s _ l D P i j (Inner um (cpu (thread_of (wr j))) v 0 v) L); try done.
  - intros z. rewrite ED, elem_of_cons. split; [|tauto]. intros Hz. split; [by right|]. by intros ->.
  - by exists [], L.
  - intros z Hz. cbn. rewrite lookup_delete_ne; [done|]. intros <-. apply Hz. rewrite ED. elem.
  - intros z. apply delete_is_some.
  - by rewrite Hpc.
Qed.

Lemma outer_good cpu s i um x :
  good s → pcs s i = Outer um x → ∃ s', outer cpu i um x s = Some s' ∧ good s'.
Proof using Hum0.
  intros (l & D & P & Hi) Hpc. pose proof (outer_inv cpu s l D P i um x Hi Hpc) as Ho.
  destruct (D i) as [|y L] eqn:ED.
  - subst x. eexists. split; [done|]. exists l, D, P. apply inv_goto; [done|by rewrite Hpc|by rewrite ED|done].
  - destruct Ho as (s' & P' & -> & Hi' & _). exists s'. split; [done|]. by exists l, (<[i := L]> D), P'.
Qed.

(** The list behind the record that is sent is linked to the one before it. *)
Lemma detached_middle m c n k K x R v :
  chain m n ((K ++ [k]) ++ x :: R) → m !! x = Some v →
  n ≠ x ∧ k ≠ x ∧ split_at (<[k := v]> (delete x m)) (Inner um0 c n k v) (K ++ [k]) R.
Proof.
  intros Hc Hv. pose proof (chain_nodup _ _ _ Hc) as (_ & HKR & HnR)%NoDup_app. apply NoDup_cons in HnR as [HnR _].
  assert (x ∉ K ++ [k]) as HnK by (intros Hin; apply (HKR _ Hin); elem).
  assert (k ≠ x) as Hk by (intros ->; apply HnK; elem).
  split_and!; [|done|].
  - apply chain_head in Hc as ->. intros E. apply HnK. rewrite <- E. destruct K; cbn; elem.
  - split_and!; [| |intros y; rewrite last_snoc; congruence|done].
    + rewrite <- app_assoc in Hc. cbn [app] in Hc. apply (chain_unlink _ _ _ _ _ _ _ Hc) in Hv as Hc'.
      rewrite <- app_assoc. apply (chain_ext _ _ _ _ Hc'). intros z Hz. unfold nx.
      destruct (decide (z = k)) as [->|]; [by rewrite !lookup_insert_eq|].
      rewrite !(lookup_insert_ne _ k), lookup_delete_ne; [done| |done..].
      intros <-. apply elem_of_app in Hz as [Hz|[->|Hz]%elem_of_cons]; [|done..]. apply HnK. apply elem_of_app. by left.
    + apply seg_app in Hc as (q & _ & _ & _ & Hc). unfold nx in Hc. rewrite Hv in Hc. by apply chain_head in Hc.
Qed.

(** A round of the inner loop: the record is sent, or passed over. *)
Lemma inner_inv cpu s l D P i um c n p r K y R :
  inv s l D P → pcs s i = Inner um c n p r → D i = K ++ y :: R → split_at (links s) (pcs s i) K (y :: R) →
  ∃ s' K' S P', inner cpu i um c n p r s = Some s' ∧ inv s' l (<[i := K' ++ R]> D) P' ∧
    split_at (links s') (pcs s' i) K' R ∧ K ++ [y] ≡ₚ S ++ K' ∧ sends s' = sends s ++ (thread_of <$> S).
Proof using Hum0.
  intros Hi Hpc ED Hsp. rewrite Hpc in Hsp. destruct Hsp as (Hc & Er & Hlast & Hum).
  change (default 0 (head (y :: R))) with y in Er. subst r. unfold inner.
  destruct (proj1 (i_in_detached _ _ _ _ Hi i y)) as (j & -> & Hj); [rewrite ED; elem|].
  assert (linked (P j)) as Hlk by (by rewrite Hj). destruct (linked_facts _ _ _ _ _ Hi Hlk) as [Hw [v Hv]].
  rewrite (proj2 (Z.eqb_neq _ 0) (wr_nonzero j)), Hv, thread_of_wr. cbn [mbind option_bind].
  rewrite bool_decide_eq_false_2 by done.
  assert (chain (links s) v R) as HcR.
  { apply seg_app in Hc as (q & _ & -> & _ & HcR). unfold nx in HcR. by rewrite Hv in HcR. }
  pose proof (chain_nodup _ _ _ Hc) as (HndK & HKR & HndR)%NoDup_app. apply NoDup_cons in HndR as [HnR _].
  assert (wr j ∉ K) as HnK by (intros Hin; apply (HKR _ Hin); elem).
  assert (um = um0) as -> by (apply Hum; by destruct K).
  assert (∀ x, x ∈ K ++ R ↔ x ∈ D i ∧ x ≠ wr j) as HL.
  { intros x. rewrite ED, !elem_of_app, elem_of_cons. split; [|tauto].
    intros [?|?]; (split; [tauto|]); by intros ->. }
  destruct (decide (cpu j = c)) as [Hcpu|Hcpu].
  - rewrite send_spec; [|done|done|by eexists]. cbn [mbind option_bind].
    destruct K as [|k K _] using rev_ind.
    + destruct Hc as (-> & _ & _). rewrite Z.eqb_refl. eexists _, [], [wr j], (<[j := Sent]> P). split; [done|].
      assert (split_at (delete (wr j) (links s)) (Inner um0 c v p v) [] R) as Hsp.
      { split_and!; [|by apply chain_head in HcR|done|done].
        apply (chain_ext (links s)); [done|]. intros z Hz. unfold nx. by rewrite (delete_same _ R). }
      split_and!; [|cbn; by rewrite fn_lookup_insert|done|cbn; by rewrite thread_of_wr].
      eapply (detached_send s _ l D P i j (Inner um0 c v p v) R); try done.
      * by exists [], R.
      * intros z Hz. cbn. rewrite lookup_delete_ne; [done|]. intros <-. apply Hz. rewrite ED. elem.
      * intros z. apply delete_is_some.
      * by rewrite Hpc.
    + destruct (detached_middle _ c _ _ _ _ _ _ Hc Hv) as (Hn & Hk & Hsp).
      rewrite (proj2 (Z.eqb_neq (wr j) n)) by done. rewrite (Hlast k) in * by apply last_snoc. cbn [links].
      assert (is_Some (links s !! k)) as [u Hu].
      { destruct (proj1 (i_in_detached _ _ _ _ Hi i k)) as (k' & -> & Hk'); [rewrite ED; elem|].
        apply (linked_facts _ _ _ _ k' Hi). by rewrite Hk'. }
      rewrite lookup_delete_ne, Hu by done. cbn [mbind option_bind].
      eexists _, (K ++ [k]), [wr j], (<[j := Sent]> P). split; [done|].
      split_and!; [|cbn; by rewrite fn_lookup_insert|apply Permutation_app_comm|cbn; by rewrite thread_of_wr].
      eapply (detached_send s _ l D P i j (Inner um0 c n k v) ((K ++ [k]) ++ R)); try done.
      * by exists (K ++ [k]), R.
      * intros z Hz. cbn. rewrite lookup_insert_ne, lookup_delete_ne; [done| |]; intros <-; apply Hz; rewrite ED; elem.
      * intros z. cbn. rewrite <- elem_of_dom, dom_insert, elem_of_union, elem_of_singleton, elem_of_dom, delete_is_some.
        split; [|tauto]. intros [->|?]; [|done]. split; [by eexists|done].
      * by rewrite Hpc.
  - eexists _, (K ++ [wr j]), [], P. split; [done|].
    assert (split_at (links s) (Inner um0 c n (wr j) v) (K ++ [wr j]) R) as Hsp.
    { split_and!; [by rewrite <- app_assoc|by apply chain_head in HcR| |done]. intros z. rewrite last_snoc. congruence. }
    split_and!; [|cbn; by rewrite fn_lookup_insert|done|by rewrite app_nil_r].
    apply (inv_ext _ _ D).
    { intros w. rewrite fn_insert_if. case_decide; [subst w; by rewrite ED, <- app_assoc|done]. }
    apply inv_goto; [done|by rewrite Hpc| |done]. exists (K ++ [wr j]), R. by rewrite ED, <- app_assoc.
Qed.

Lemma inner_good cpu s i um c n p r :
  good s → pcs s i = Inner um c n p r → ∃ s', inner cpu i um c n p r s = Some s' ∧ good s'.
Proof using Hum0.
  intros (l & D & P & Hi) Hpc. pose proof (i_detached _ _ _ _ Hi i) as Hdi. rewrite Hpc in Hdi.
  destruct Hdi as (K & [|y R] & ED & Hsp).
  - destruct Hsp as (Hc & Er & _ & Hum). cbn in Er. subst r. eexists. split; [done|]. exists l, D, P.
    rewrite app_nil_r in ED, Hc, Hum. apply inv_goto; [done|by rewrite Hpc| |done]. rewrite ED. by split.
  - rewrite <- Hpc in Hsp. destruct (inner_inv cpu _ _ _ _ _ _ _ _ _ _ _ _ _ Hi Hpc ED Hsp) as (s' & K' & S & P' & -> & Hi' & _).
    exists s'. split; [done|]. by exists l, (<[i := K' ++ R]> D), P'.
Qed.

(** A thread leaves [wait]: it took its record off the fifo, or was woken. *)
Lemma inv_return s l D P m f l' i b :
  inv s l D P → Fifo.holds m f l' → (∀ x, x ∈ l' ↔ x ∈ l ∧ x ≠ wr i) → same_outside l (links s) m →
  (P i = InFifo ∧ b = true) ∨ (P i = Woken ∧ b = false) →
  inv (return_ i b (set_links s m f (user_mutex_ s))) l' D (<[i := Nowhere]> P).
Proof.
  intros Hi Hf Hl [Hout Hdom] Hb.
  assert (waiting (pcs s i) = true) as Hwi by (apply (i_waiting _ _ _ _ Hi); destruct Hb as [[-> _]|[-> _]]; done).
  assert (∀ w, wr i ∉ D w) as HnD.
  { intros w. rewrite (in_detached _ _ _ _ _ _ Hi). destruct Hb as [[-> _]|[-> _]]; done. }
  assert (wr i ∉ l') as Hnl by (rewrite Hl; tauto).
  destruct Hi. split; cbn [links fifo pcs user_mutex_ sent woken sends returns return_ set_links].
  - by apply fifo_delete.
  - intros w. rewrite fn_insert_if. case_decide as E.
    + subst w. cbn. specialize (i_detached0 i). destruct (pcs s i); done.
    + eapply detached_ext; [|done]. intros x Hx. rewrite lookup_delete_ne by (intros <-; by apply (HnD w)).
      apply Hout. rewrite i_in_fifo0. intros (j & -> & Hj). apply i_in_detached0 in Hx as (k & <-%wr_inj & Hk). congruence.
  - intros x. rewrite Hl, i_in_fifo0. split.
    + intros [(j & -> & Hj) Hne]. exists j. rewrite fn_insert_if, decide_False; [done|]. by intros ->.
    + intros (j & -> & Hj). rewrite fn_insert_if in Hj. case_decide; [done|]. split; [eauto|]. by intros ?%wr_inj.
  - intros w x. rewrite i_in_detached0. split; intros (j & -> & Hj); exists j; rewrite fn_insert_if in *; (split; [done|]).
    + rewrite decide_False; [done|]. intros ->. apply (HnD w). apply i_in_detached0. eauto.
    + by case_decide.
  - intros j. rewrite i_sent0, fn_insert_if. case_decide; [subst|done]. destruct Hb as [[-> _]|[-> _]]; done.
  - intros j. rewrite elem_of_difference, elem_of_singleton, i_woken0, fn_insert_if. case_decide; intuition congruence.
  - intros x. rewrite delete_is_some, <- elem_of_dom, Hdom, elem_of_dom, i_linked0. split.
    + intros [(j & -> & Hj) Hne]. exists j. rewrite fn_insert_if, decide_False; [done|]. by intros ->.
    + intros (j & -> & Hj). rewrite fn_insert_if in Hj. case_decide; [done|]. split; [eauto|]. by intros ?%wr_inj.
  - intros j. rewrite !fn_insert_if. case_decide; [done|apply i_waiting0].
  - intros j um. rewrite !fn_insert_if. case_decide; [done|apply i_rewait0].
  - done.
  - intros Hne. apply i_mutex_fifo0. intros ->. apply Hne. apply elem_of_nil_inv. intros x [?%elem_of_nil _]%Hl. done.
  - intros j. rewrite answers_snoc, fn_insert_if, i_count0.
    destruct (decide (j = i)) as [->|Hne]; [|rewrite decide_False by naive_solver; lia].
    destruct Hb as [[-> ->]|[-> ->]]; [rewrite decide_False by naive_solver|rewrite decide_True by done]; cbn; lia.
Qed.

Lemma woken_good s i : good s → i ∈ woken s → good (return_ i false s).
Proof.
  intros (l & D & P & Hi) Hw. exists l, D, (<[i := Nowhere]> P).
  replace s with (set_links s (links s) (fifo s) (user_mutex_ s)) by (by destruct s).
  apply (i_woken _ _ _ _ Hi) in Hw. apply (inv_return s l); [done|apply Hi| |done|by right].
  intros x. split; [|tauto]. intros Hx. split; [done|]. intros ->. apply (in_fifo _ _ _ _ _ Hi) in Hx. congruence.
Qed.

Lemma expired_good s i um expired : good s → pcs s i = Expired um → ∃ s', resume expired i s = Next s' ∧ good s'.
Proof.
  intros (l & D & P & Hi) Hpc. unfold resume. rewrite Hpc.
  pose proof (chain_nodup _ _ _ (proj1 (i_fifo _ _ _ _ Hi))) as Hnd.
  assert (length l ≤ size (links s))%nat as Hlen.
  { rewrite <- size_dom, <- (size_list_to_set (C := gset Z) l) by done. apply subseteq_size. intros x.
    rewrite elem_of_list_to_set, elem_of_dom. apply (i_fifo _ _ _ _ Hi). }
  destruct (fifo_withdraw (size (links s)) _ _ (wr i) l (i_fifo _ _ _ _ Hi) (wr_nonzero i) Hlen)
    as (m & f & -> & Hf & Hsame). eexists. split; [done|].
  case_bool_decide as Hin.
  - exists (erase (wr i) l), D, (<[i := Nowhere]> P). eapply inv_return; try done.
    + intros x. rewrite erase_elem by done. tauto.
    + left. split; [by apply (in_fifo _ _ _ _ _ Hi)|done].
  - rewrite erase_notin in Hf by done. exists l, D, P. apply inv_goto; [|cbn; by rewrite Hpc| |].
    + destruct Hsame as [Hout Hdom]. destruct Hi. split; cbn [links fifo pcs user_mutex_ sent woken sends returns set_links]; try done.
      * intros w. eapply detached_ext; [|done]. intros x Hx. apply Hout. rewrite i_in_fifo0. intros (j & -> & Hj).
        apply i_in_detached0 in Hx as (k & <-%wr_inj & Hk). congruence.
      * intros x. rewrite <- elem_of_dom, Hdom, elem_of_dom. done.
    + cbn. pose proof (i_detached _ _ _ _ Hi i) as Hd. by rewrite Hpc in Hd.
    + intros um' _ HP. apply Hin. by apply (in_fifo _ _ _ _ _ Hi).
Qed.

Lemma grant_good s i s' : good s → step (Grant i) s = Next s' → good s'.
Proof.
  intros (l & D & P & Hi). cbn [step]. case_decide as Hs; [|done]. injection 1 as <-.
  apply (i_sent _ _ _ _ Hi) in Hs. exists l, D, (<[i := Woken]> P).
  assert (∀ p, p ≠ Sent → p ≠ Woken → ∀ j, P j = p ↔ <[i := Woken]> P j = p) as HP.
  { intros p H1 H2 j. rewrite fn_insert_if. case_decide; [subst j; intuition congruence|done]. }
  destruct Hi. split; cbn [links fifo pcs user_mutex_ sent woken sends returns]; try done.
  - intros x. rewrite i_in_fifo0. by setoid_rewrite HP.
  - intros w x. rewrite i_in_detached0. by setoid_rewrite HP.
  - intros j. rewrite elem_of_difference, elem_of_singleton, i_sent0, fn_insert_if. case_decide; intuition congruence.
  - intros j. rewrite elem_of_union, elem_of_singleton, i_woken0, fn_insert_if. case_decide; intuition congruence.
  - intros x. rewrite i_linked0. split; intros (j & -> & Hj); exists j; rewrite fn_insert_if in *; (split; [done|]).
    + case_decide; [subst j; by rewrite Hs in Hj|done].
    + by case_decide.
  - intros j. rewrite i_waiting0, fn_insert_if. case_decide; [subst j; rewrite Hs|]; done.
  - intros j um Hp. rewrite fn_insert_if. case_decide; [done|by eapply i_rewait0].
  - intros j. rewrite i_count0, fn_insert_if. case_decide; [subst j; by rewrite Hs|done].
Qed.

(** The waiters use one mutex. *)
Definition uses (a : action) : Prop := match a with Wait _ um _ => um = um0 | _ => True end.

Lemma step_good a s : good s → uses a → step a s ≠ Fault ∧ ∀ s', step a s = Next s' → good s'.
Proof using Hum0.
  intros Hs Ha. enough (step a s = Blocked ∨ ∃ s', step a s = Next s' ∧ good s') as [->|(s' & -> & ?)] by naive_solver.
  destruct a as [i um timed|i|i|i cpu expired|i]; cbn [step uses] in *.
  - subst um. destruct (pcs s i) eqn:Hp; try by left. right. by apply wait_good.
  - destruct (pcs s i) eqn:Hp; try by left. right. eexists. split; [done|]. case_match; [done|].
    destruct Hs as (l & D & P & Hi). exists l, D, P. apply inv_goto; [done|by rewrite Hp| |done].
    pose proof (i_detached _ _ _ _ Hi i) as Hd. by rewrite Hp in Hd.
  - destruct (pcs s i) eqn:Hp; try by left. right. eexists. split; [done|]. case_match; [done|].
    destruct Hs as (l & D & P & Hi). exists l, D, P. apply inv_goto; [done|by rewrite Hp| |done].
    pose proof (i_detached _ _ _ _ Hi i) as Hd. by rewrite Hp in Hd.
  - destruct (pcs s i) as [|um timed|um|um| | |um x|um c n p r] eqn:Hp; try by left.
    + unfold resume. rewrite Hp. case_bool_decide; [right; eexists; split; [done|by apply woken_good]|].
      destruct (timed && expired); [|by left]. right. eexists. split; [done|].
      destruct Hs as (l & D & P & Hi). exists l, D, P. apply inv_goto; [done|by rewrite Hp| |done].
      pose proof (i_detached _ _ _ _ Hi i) as Hd. by rewrite Hp in Hd.
    + right. by apply expired_good with um.
    + unfold resume. rewrite Hp. case_bool_decide; [right; eexists; split; [done|by apply woken_good]|by left].
    + right. destruct (wake_one_good s i Hs Hp) as (s' & -> & ?). eauto.
    + right. eexists. split; [done|]. destruct Hs as (l & D & P & Hi). do 3 eexists. by apply wake_all_inv.
    + right. destruct (outer_good cpu s i um x Hs Hp) as (s' & -> & ?). eauto.
    + right. destruct (inner_good cpu s i um c n p r Hs Hp) as (s' & -> & ?). eauto.
  - case_decide as Hi; [|by left]. right. eexists. split; [done|]. apply (grant_good s i); [done|].
    cbn [step]. by rewrite decide_True.
Qed.

Lemma make_condvar : good make.
Proof.
  exists [], (λ _, []), (λ _, Nowhere). split; cbn; try done.
  - apply fifo_nil.
  - intros x. split; [by intros ?%elem_of_nil|naive_solver].
  - intros w x. split; [by intros ?%elem_of_nil|naive_solver].
  - intros x. split; [by intros [? ?%lookup_empty_Some]|naive_solver].
  - by left.
Qed.

(** ** [wake_all] sends all it has detached *)

(** Running thread [i] leads to [Q] in finitely many steps, wherever the threads are. *)
Inductive will (i : nat) (Q : Condvar.t → Prop) : Condvar.t → Prop :=
  | will_now s : Q s → will i Q s
  | will_step s :
      (∀ cpu, ∃ s', step (Go i cpu false) s = Next s') →
      (∀ cpu s', step (Go i cpu false) s = Next s' → will i Q s') → will i Q s.

Lemma will_trans i Q Q' s : will i Q s → (∀ s', Q s' → will i Q' s') → will i Q' s.
Proof. intros Hw HQ. induction Hw as [s Hs|s Hn _ IH]; [by apply HQ|]. apply will_step; [done|]. apply IH. Qed.

(** A state with the list [L] left of the list [L0], the rest of which was sent. *)
Definition sent_of s0 l D i (L0 : list Z) (Q : list Z → pc → Prop) s : Prop :=
  ∃ L S P, inv s l (<[i := L]> D) P ∧ L0 ≡ₚ S ++ L ∧ sends s = sends s0 ++ (thread_of <$> S) ∧ Q L (pcs s i).

Lemma sent_of_trans s0 s1 l D i L0 L1 S Q s :
  L0 ≡ₚ S ++ L1 → sends s1 = sends s0 ++ (thread_of <$> S) →
  sent_of s1 l (<[i := L1]> D) i L1 Q s → sent_of s0 l D i L0 Q s.
Proof.
  intros HL Hs (L & S' & P & Hi & HL' & Hs' & HQ). exists L, (S ++ S'), P. split_and!; [| | |done].
  - apply (inv_ext _ _ (<[i := L]> (<[i := L1]> D))); [|done]. intros w. rewrite !fn_insert_if. by case_decide.
  - by rewrite HL, HL', app_assoc.
  - by rewrite Hs', Hs, fmap_app, app_assoc.
Qed.

Lemma inner_run s l D P i K R :
  inv s l D P → D i = K ++ R → split_at (links s) (pcs s i) K R →
  will i (sent_of s l D i (D i) (λ _ p, ∃ um x, p = Outer um x)) s.
Proof using Hum0.
  revert s D P K. induction R as [|y R IH]; intros s D P K Hi ED Hsp;
    (destruct (pcs s i) as [| | | | | | |um c n p r] eqn:Hpc; try done).
  - destruct Hsp as (Hc & Er & _ & Hum). cbn in Er. subst r. rewrite app_nil_r in *.
    apply will_step; [intros cpu; cbn [step]; rewrite Hpc; by eexists|].
    intros cpu s'. cbn [step]. rewrite Hpc. cbn [inner of_option Z.eqb]. injection 1 as <-.
    apply will_now. exists K, [], P. split_and!; [|by rewrite ED|cbn; by rewrite app_nil_r|exists um, n; cbn; by rewrite fn_lookup_insert].
    apply (inv_ext _ _ D); [intros w; rewrite fn_insert_if; case_decide; by subst|].
    apply inv_goto; [done|by rewrite Hpc| |done]. rewrite ED. by split.
  - rewrite <- Hpc in Hsp. apply will_step; intros cpu;
      destruct (inner_inv cpu _ _ _ _ _ _ _ _ _ _ _ _ _ Hi Hpc ED Hsp) as (s1 & K' & S & P' & E & Hi' & Hsp' & HS & Hs1);
      cbn [step]; rewrite Hpc, E; cbn [of_option]; [by eexists|].
    intros s'. injection 1 as <-. assert ((<[i := K' ++ R]> D) i = K' ++ R) as ED' by apply fn_lookup_insert.
    eapply will_trans; [by eapply IH|]. intros s2 Hs2. apply will_now. rewrite ED' in Hs2.
    apply (sent_of_trans s s1 l D i (D i) (K' ++ R) S); [|done|done].
    rewrite ED. change (y :: R) with ([y] ++ R). by rewrite app_assoc, HS, app_assoc.
Qed.

Lemma outer_run n s l D P i um x :
  inv s l D P → pcs s i = Outer um x → (length (D i) ≤ n)%nat →
  will i (sent_of s l D i (D i) (λ L p, L = [] ∧ p = Idle)) s.
Proof using Hum0.
  revert s D P um x. induction n as [n IH] using lt_wf_ind. intros s D P um x Hi Hpc Hn.
  destruct (D i) as [|y L] eqn:ED.
  - pose proof (outer_inv (λ _, 0%nat) s l D P i um x Hi Hpc) as Hx. rewrite ED in Hx. subst x.
    apply will_step; [intros cpu; cbn [step]; rewrite Hpc; by eexists|].
    intros cpu s'. cbn [step]. rewrite Hpc. cbn [outer of_option Z.eqb]. injection 1 as <-.
    apply will_now. exists [], [], P. split_and!; [|done|cbn; by rewrite app_nil_r|done|cbn; by rewrite fn_lookup_insert].
    apply (inv_ext _ _ D); [intros w; rewrite fn_insert_if; case_decide; by subst|].
    apply inv_goto; [done|by rewrite Hpc|by rewrite ED|done].
  - rewrite <- ED. apply will_step; intros cpu;
      pose proof (outer_inv cpu s l D P i um x Hi Hpc) as Ho; rewrite ED in Ho;
      destruct Ho as (s1 & P' & E & Hi' & Hsp & Hs1); cbn [step]; rewrite Hpc, E; cbn [of_option]; [by eexists|].
    intros s'. injection 1 as <-. assert ((<[i := L]> D) i = L) as ED' by apply fn_lookup_insert.
    eapply will_trans; [exact (inner_run s1 l _ P' i [] L Hi' ED' Hsp)|]. rewrite ED'. intros s2 (L2 & S2 & P2 & Hi2 & HL2 & Hs2 & um2 & x2 & Hp2).
    assert ((<[i := L2]> (<[i := L]> D)) i = L2) as ED2 by apply fn_lookup_insert.
    eapply will_trans.
    + apply (IH (length L2)) with (P := P2) (um := um2) (x := x2) (D := <[i := L2]> (<[i := L]> D)); [|done|done|by rewrite ED2].
      apply Permutation_length in HL2. rewrite length_app in HL2. cbn in Hn. lia.
    + rewrite ED2. intros s3 Hs3. apply will_now.
      apply (sent_of_trans s s1 l D i (D i) L [y]); [by rewrite ED|done|].
      by apply (sent_of_trans s1 s2 l (<[i := L]> D) i L L2 S2).
Qed.

End Invariant.

(** ** Properties *)

Module CondvarRun.
Import Condvar.

(** The states that threads reach that wait with the mutex [um0]. *)
Inductive reachable (um0 : Z) : Condvar.t → Prop :=
  | reach_make : reachable um0 make
  | reach_step s a s' : reachable um0 s → uses um0 a → step a s = Next s' → reachable um0 s'.

(** A sequence of actions. *)
Fixpoint run (acts : list action) (s : Condvar.t) : res :=
  match acts with
  | [] => Next s
  | a :: acts => match step a s with Next s => run acts s | r => r end
  end.

End CondvarRun.

Section Properties.
Import Condvar CondvarRun.

Lemma reachable_condvar um0 s : um0 ≠ 0 → reachable um0 s → good um0 s.
Proof.
  intros Hum. induction 1 as [|s a s' _ IH Ha Hs]; [by apply make_condvar|].
  by apply (step_good um0 Hum a s IH Ha).
Qed.

Lemma run_reachable um0 acts s s' :
  reachable um0 s → Forall (uses um0) acts → run acts s = Next s' → reachable um0 s'.
Proof.
  revert s. induction acts as [|a acts IH]; intros s Hr Hu; cbn [run]; [intros [= <-]; done|].
  apply Forall_cons in Hu as [Ha Hu]. destruct (step a s) as [s1| |] eqn:E; [|done..].
  apply IH; [|done]. by eapply reach_step.
Qed.

(** C22: the condition variable touches only records that are there, and its
    wakeups are neither lost nor invented.  When the threads that wait use one
    mutex, no step in any interleaving of waits, timeouts, single and collective
    wakeups reaches a record whose thread has returned or that already belongs to
    the mutex, and no assertion fails.  Every record sent to the mutex makes one
    call of [wait] return 0, and no call returns 0 without: at all times the number
    of records sent for a thread is the number of its calls that returned 0, plus
    one if a record is under way. *)
Theorem condvar_safe um0 s a :
  um0 ≠ 0 → reachable um0 s → uses um0 a →
  step a s ≠ Fault ∧
  ∀ i, count i (sends s) = (answers i (returns s) + if decide (i ∈ sent s ∪ woken s) then 1 else 0)%nat.
Proof.
  intros Hum Hr Ha. pose proof (reachable_condvar um0 s Hum Hr) as Hg. split; [by apply (step_good um0 Hum a s Hg Ha)|].
  destruct Hg as (l & D & P & Hi). intros i. rewrite (i_count _ _ _ _ _ Hi). f_equal.
  pose proof (i_sent _ _ _ _ _ Hi i). pose proof (i_woken _ _ _ _ _ Hi i).
  case_decide as Hd; rewrite elem_of_union in Hd; destruct (P i); cbn; intuition congruence.
Qed.

Lemma condvar_safe_witness :
  ∃ s, run [Wait 0 7 true; Wait 1 7 false; WakeAll 2; Go 2 (λ _, 0%nat) false; Go 0 (λ _, 0%nat) true] make = Next s ∧
    step (Go 0 (λ _, 0%nat) true) s ≠ Fault ∧ count 0 (sends s) = 0%nat.
Proof.
  set (acts := [Wait 0 7 true; Wait 1 7 false; WakeAll 2; Go 2 (λ _, 0%nat) false; Go 0 (λ _, 0%nat) true]).
  set (s := match run acts make with Next s => s | _ => make end).
  assert (run acts make = Next s) as Hs by (vm_compute; reflexivity).
  assert (reachable 7 s) as Hr.
  { apply (run_reachable 7 acts make); [apply reach_make| |exact Hs]. repeat constructor. }
  exists s. split; [exact Hs|]. split; [|vm_compute; reflexivity].
  apply (condvar_safe 7 s (Go 0 (λ _, 0%nat) true)); [lia|exact Hr|exact I].
Defined.

(** [wake_one] wakes the oldest waiter, and [wake_all] ends, having woken all.
    Once it has the lock, [wake_one] sends the first record of the queue to the
    mutex and nothing else; [wake_all], run on its own, comes to its end after
    finitely many steps, whatever CPUs the threads are on, and has by then sent
    every record that was in the queue, once. *)
Theorem condvar_wakes um0 s i l :
  um0 ≠ 0 → reachable um0 s → Fifo.holds (links s) (fifo s) l →
  (pcs s i = OneLock → ∀ cpu e, ∃ s', step (Go i cpu e) s = Next s' ∧ pcs s' i = Idle ∧
     sends s' = sends s ++ (thread_of <$> firstn 1 l)) ∧
  (pcs s i = AllLock →
     will i (λ s', pcs s' i = Idle ∧ ∃ S, S ≡ₚ l ∧ sends s' = sends s ++ (thread_of <$> S)) s).
Proof.
  intros Hum Hr Hl. destruct (reachable_condvar um0 s Hum Hr) as (l' & D & P & Hi).
  assert (l' = l) as -> by (eapply chain_det; [apply Hi|apply Hl]). split.
  - intros Hp cpu e. cbn [step]. rewrite Hp. unfold wake_one_locked.
    pose proof (fifo_take _ _ _ Hl) as Ht. destruct l as [|x l].
    + rewrite Ht. eexists. split; [done|]. cbn. rewrite fn_lookup_insert, app_nil_r. done.
    + destruct Ht as (f & -> & Hf & Hx0). cbn [mbind option_bind fst snd]. rewrite (proj2 (Z.eqb_neq x 0) Hx0).
      destruct (proj1 (i_in_fifo _ _ _ _ _ Hi x) ltac:(elem)) as (j & -> & Hj).
      destruct (linked_facts _ _ _ _ _ j Hi) as [Hw Hs]; [by rewrite Hj|].
      rewrite (i_mutex_fifo _ _ _ _ _ Hi) by done. rewrite send_spec by done.
      eexists. split; [done|]. cbn. rewrite fn_lookup_insert, thread_of_wr. done.
  - intros Hp. apply will_step; [intros cpu; cbn [step]; rewrite Hp; by eexists|].
    intros cpu s'. cbn [step]. rewrite Hp. intros [= <-].
    pose proof (wake_all_inv um0 s l D P i Hi Hp) as Hi1.
    assert ((<[i := l]> D) i = l) as ED by apply fn_lookup_insert.
    eapply will_trans.
    + eapply (outer_run um0 Hum (length l) _ [] _ _ i _ _ Hi1); [cbn; by rewrite fn_lookup_insert|by rewrite ED].
    + rewrite ED. intros s2 (L & S & P2 & _ & HL & Hs & -> & Hidle). apply will_now. split; [done|].
      exists S. rewrite app_nil_r in HL. split; [by symmetry|done].
Qed.

(** Three waiters and a waker that has found them. *)
Lemma condvar_wakes_witness :
  ∃ s, run [Wait 0 7 true; Wait 1 7 false; Wait 2 7 false; WakeAll 3] make = Next s ∧
    will 3 (λ s', pcs s' 3%nat = Idle ∧ ∃ S, S ≡ₚ [1; 2; 3] ∧ sends s' = sends s ++ (thread_of <$> S)) s.
Proof.
  set (acts := [Wait 0 7 true; Wait 1 7 false; Wait 2 7 false; WakeAll 3]).
  set (s := match run acts make with Next s => s | _ => make end).
  assert (run acts make = Next s) as Hs by (vm_compute; reflexivity).
  assert (reachable 7 s) as Hr.
  { apply (run_reachable 7 acts make); [apply reach_make| |exact Hs]. repeat constructor. }
  exists s. split; [exact Hs|]. apply (condvar_wakes 7 s 3 [1; 2; 3]); [lia|exact Hr| |reflexivity].
  split_and!; [vm_compute; repeat split; discriminate|reflexivity|].
  intros x Hx. assert (x = 1 ∨ x = 2 ∨ x = 3) as [-> | [-> | ->]] by set_solver; vm_compute; eauto.
Defined.

(** the condition variable remembers a mutex for too long.  A thread waits with
    mutex 7, times out, and returns; nobody waits any more.  A thread that then
    waits with mutex 8 fails the assertion that concurrent waits use the same
    mutex. *)
Theorem condvar_stale_mutex :
  ∃ s, run [Wait 0 7 true; Go 0 (λ _, 0%nat) true; Go 0 (λ _, 0%nat) true] make = Next s ∧
    (∀ i, pcs s i = Idle) ∧ returns s = [(0%nat, true)] ∧ Fifo.oldest (fifo s) = 0 ∧ links s = ∅ ∧
    step (Wait 1 8 false) s = Fault.
Proof.
  eexists. split; [vm_compute; reflexivity|]. split_and!; [|vm_compute; reflexivity..].
  intros [|i]; vm_compute; reflexivity.
Qed.

End Properties.
