(* ===== verification/Semaphore.v ===== *)
(** * Semaphores

    [semaphore] of [include/osv/semaphore.hh] and [core/semaphore.cc].  What is done
    under the semaphore's mutex is one step.  A waiter is known by its thread; its
    record is in the list until its units are granted, which clears the owner. *)
From S2P Require Import Prelude.

Module Semaphore.

(** Whether a thread waits, for how much, and with a timer. *)
Inductive pc := Idle | Waiting (units : Z) (timed : bool).

(** [granted] are the waiters whose record has no owner any more.  [posted] and
    [taken] add up what was posted and what was taken by calls that succeed. *)
Record t := mk {
  val : Z;
  waiters : list (nat * Z);
  pcs : nat → pc;
  granted : gset nat;
  posted : Z;
  taken : Z;
  results : list (nat * bool);
}.

Definition make (v : Z) : t := mk (wrap32 v) [] (λ _, Idle) ∅ 0 0 [].

(** The loop of [post_unlocked]: the value left, the waiters left, and those woken. *)
Fixpoint grant (v : Z) (ws : list (nat * Z)) : Z * list (nat * Z) * list (nat * Z) :=
  match ws with
  | [] => (v, [], [])
  | w :: ws' =>
      if 0 <? v then
        if w.2 <=? v then let '(v', l, g) := grant (wrap32 (v - w.2)) ws' in (v', l, w :: g)
        else let '(v', l, g) := grant v ws' in (v', w :: l, g)
      else (v, ws, [])
  end.

Definition post (units : Z) (s : t) : t :=
  let '(v, l, g) := grant (wrap32 (val s + units)) (waiters s) in
  mk v l (pcs s) (list_to_set g.*1 ∪ granted s) (posted s + units) (taken s + total snd g) (results s).

Definition finish (i : nat) (ok : bool) (s : t) : t :=
  mk (val s) (waiters s) (<[i := Idle]> (pcs s)) (granted s ∖ {[i]}) (posted s) (taken s) (results s ++ [(i, ok)]).

Definition take (units : Z) (s : t) : t :=
  mk (wrap32 (val s - units)) (waiters s) (pcs s) (granted s) (posted s) (taken s + units) (results s).

(** [wait] up to the wait itself. *)
Definition wait (i : nat) (units : Z) (timed : bool) (s : t) : t :=
  if units <=? val s then finish i true (take units s)
  else mk (val s) (waiters s ++ [(i, units)]) (<[i := Waiting units timed]> (pcs s)) (granted s) (posted s) (taken s) (results s).

(** [wait] after the wait; [None] while it has to go on. *)
Definition resume (i : nat) (expired : bool) (s : t) : option t :=
  match pcs s i with
  | Idle => None
  | Waiting units timed =>
      if decide (i ∈ granted s) then Some (finish i true s)
      else if timed && expired then
        Some (finish i false (mk (val s) (filter (λ w, w.1 ≠ i) (waiters s)) (pcs s) (granted s) (posted s) (taken s) (results s)))
      else None
  end.

Definition trywait (i : nat) (units : Z) (s : t) : t :=
  if units <=? val s then finish i true (take units s) else finish i false s.

Inductive action := Post (units : Z) | Wait (i : nat) (units : Z) (timed : bool) | TryWait (i : nat) (units : Z) | Resume (i : nat) (expired : bool).

Definition step (a : action) (s : t) : option t :=
  match a with
  | Post units => Some (post units s)
  | Wait i units timed => match pcs s i with Idle => Some (wait i units timed s) | _ => None end
  | TryWait i units => match pcs s i with Idle => Some (trywait i units s) | _ => None end
  | Resume i expired => resume i expired s
  end.

(** The units are 32-bit numbers. *)
Definition fits (a : action) : Prop :=
  match a with
  | Post units | Wait _ units _ | TryWait _ units => 0 ≤ units < 2 ^ 32
  | Resume _ _ => True
  end.

Inductive reachable (v : Z) : t → Prop :=
  | reach_make : reachable v (make v)
  | reach_step s a s' : reachable v s → fits a → step a s = Some s' → reachable v s'.

End Semaphore.

Section Semaphore.
Import Semaphore.
Implicit Types (s : Semaphore.t).

(** ** The loop of [post_unlocked] *)

Lemma grant_spec v ws v' l g :
  grant v ws = (v', l, g) → 0 ≤ v < 2 ^ 32 → Forall (λ w, 0 < w.2) ws →
  0 ≤ v' ∧ v' = v - total snd g ∧ ws ≡ₚ l ++ g ∧ l `sublist_of` ws ∧ Forall (λ w, v' < w.2) l.
Proof.
  revert v v' l g. induction ws as [|w ws IH]; intros v v' l g E Hv Hws; cbn [grant] in E.
  { injection E as <- <- <-. cbn. split_and!; [lia|lia|done|done|done]. }
  apply Forall_cons in Hws as [Hw Hws]. destruct (Z.ltb_spec 0 v) as [Hpos|Hz].
  2: { injection E as <- <- <-. cbn. rewrite app_nil_r. split_and!; [lia|lia|done|done|].
       constructor; [lia|]. eapply Forall_impl; [done|]. cbn. lia. }
  destruct (Z.leb_spec w.2 v) as [Hle|Hgt].
  - destruct (grant (wrap32 (v - w.2)) ws) as [[v1 l1] g1] eqn:E1. injection E as <- <- <-.
    assert (wrap32 (v - w.2) = v - w.2) as Hwr by (apply Z.mod_small; lia). rewrite Hwr in E1.
    destruct (IH _ _ _ _ E1) as (H1 & H2 & H3 & H4 & H5); [lia|done|]. rewrite total_cons.
    split_and!; [lia|lia| |by constructor|done]. rewrite H3 at 1. solve_Permutation.
  - destruct (grant v ws) as [[v1 l1] g1] eqn:E1. injection E as <- <- <-.
    destruct (IH _ _ _ _ E1) as (H1 & H2 & H3 & H4 & H5); [lia|done|].
    assert (0 ≤ total snd g1) as Htot.
    { assert (Forall (λ w, 0 < w.2) g1) as Hg.
      { rewrite H3 in Hws. by apply Forall_app in Hws as [_ ?]. }
      clear -Hg. induction Hg as [|x g Hx _ IH]; [done|]. rewrite total_cons. lia. }
    split_and!; [done|done|by rewrite H3|by constructor|constructor; [lia|done]].
Qed.

(** ** The invariant *)

Record inv (v : Z) s : Prop := {
  i_val : 0 ≤ val s < 2 ^ 32;
  i_more : Forall (λ w, val s < w.2) (waiters s);
  i_nodup : NoDup (waiters s).*1;
  i_waiting : ∀ i units, (i, units) ∈ waiters s ↔ (∃ timed, pcs s i = Waiting units timed) ∧ i ∉ granted s;
  i_granted : ∀ i, i ∈ granted s → pcs s i ≠ Idle;
  i_units : ∀ i units timed, pcs s i = Waiting units timed → 0 ≤ units < 2 ^ 32;
  i_sum : wrap32 (val s + taken s) = wrap32 (v + posted s);
  i_exact : 0 ≤ v → v + posted s < 2 ^ 32 → val s + taken s = v + posted s;
  i_taken : 0 ≤ taken s ∧ 0 ≤ posted s;
}.

Lemma make_inv v : inv v (make v).
Proof.
  split; cbn; try done.
  - apply Z.mod_pos_bound. lia.
  - constructor.
  - intros i units. split; [by intros ?%elem_of_nil|]. by intros [[? ?] _].
  - unfold wrap32, wrap. rewrite !Z.add_0_r. apply Z.mod_mod. lia.
  - intros. rewrite !Z.add_0_r in *. apply Z.mod_small. lia.
Qed.

Lemma post_inv v units s : inv v s → 0 ≤ units < 2 ^ 32 → inv v (post units s).
Proof.
  intros [Hv Hm Hnd Hw Hg Hu Hs Hx Ht] Hun. unfold post.
  destruct (grant (wrap32 (val s + units)) (waiters s)) as [[v' l] g] eqn:E.
  assert (Forall (λ w, 0 < w.2) (waiters s)) as Hpos by (eapply Forall_impl; [exact Hm|]; cbn; lia).
  destruct (grant_spec _ _ _ _ _ E (Z.mod_pos_bound (val s + units) (2 ^ 32) ltac:(lia)) Hpos) as (H1 & H2 & H3 & H4 & H5).
  assert (0 ≤ total snd g) as Htot.
  { rewrite H3 in Hpos. apply Forall_app in Hpos as [_ Hpos]. clear -Hpos.
    induction Hpos as [|x g Hx _ IH]; [done|]. rewrite total_cons. lia. }
  pose proof (Z.mod_pos_bound (val s + units) (2 ^ 32) ltac:(lia)) as Hb.
  assert (∀ i x y, (i, x) ∈ l → (i, y) ∈ g → False) as Hdisj.
  { intros i x y Hl' Hg'. rewrite H3, fmap_app in Hnd. apply NoDup_app in Hnd as (_ & Hnd & _).
    apply (Hnd i); apply list_elem_of_fmap; by eexists (i, _). }
  split; cbn [val waiters pcs granted posted taken].
  - unfold wrap32, wrap in H2. lia.
  - done.
  - eapply sublist_NoDup; [done|]. by apply fmap_sublist.
  - intros i x. rewrite not_elem_of_union, elem_of_list_to_set. split.
    + intros Hin. assert ((i, x) ∈ waiters s) as Hin' by (rewrite H3; apply elem_of_app; by left).
      apply Hw in Hin' as [Htd Hn]. split_and!; [done| |done].
      intros ([j y] & -> & Hy)%list_elem_of_fmap. by eapply Hdisj.
    + intros (Htd & Hn & Hn'). assert ((i, x) ∈ waiters s) as Hin by (by apply Hw).
      rewrite H3, elem_of_app in Hin. destruct Hin as [|Hin]; [done|]. exfalso. apply Hn.
      apply list_elem_of_fmap. by exists (i, x).
  - intros i [([j y] & -> & Hy)%elem_of_list_to_set%list_elem_of_fmap|?]%elem_of_union; [|by apply Hg].
    assert ((j, y) ∈ waiters s) as Hin by (rewrite H3; apply elem_of_app; by right).
    apply Hw in Hin as [[t Htd] _]. cbn. by rewrite Htd.
  - done.
  - rewrite H2. replace (wrap32 (val s + units) - total snd g + (taken s + total snd g)) with (wrap32 (val s + units) + taken s) by lia.
    unfold wrap32, wrap in *. rewrite Zplus_mod_idemp_l. replace (val s + units + taken s) with ((val s + taken s) + units) by lia.
    rewrite <- Zplus_mod_idemp_l, Hs, Zplus_mod_idemp_l. f_equal. lia.
  - intros Hv0 Hlt. specialize (Hx Hv0 ltac:(lia)). rewrite H2. unfold wrap32, wrap. rewrite Z.mod_small by lia. lia.
  - lia.
Qed.

Lemma finish_inv v i ok s :
  inv v s → (∀ units, (i, units) ∉ waiters s) → inv v (finish i ok s).
Proof.
  intros [Hv Hm Hnd Hw Hg Hu Hs Hx Ht] Hn. split; cbn [val waiters pcs granted posted taken finish]; try done.
  - intros j x. rewrite fn_insert_if, not_elem_of_difference, elem_of_singleton, Hw. case_decide as E; [subst j|].
    + split; [|by intros [[? ?] _]]. intros H. exfalso. apply (Hn x). by apply Hw.
    + split; [intros [? ?]; auto|]. intros [? [?|?]]; [done|congruence].
  - intros j [Hj Hne]%elem_of_difference. rewrite fn_insert_if, decide_False by set_solver. by apply Hg.
  - intros j x t. rewrite fn_insert_if. case_decide; [done|apply Hu].
Qed.

Lemma take_inv v units s : inv v s → 0 ≤ units ≤ val s → inv v (take units s).
Proof.
  intros [Hv Hm Hnd Hw Hg Hu Hs Hx Ht] Hun. assert (wrap32 (val s - units) = val s - units) as E by (apply Z.mod_small; lia).
  split; cbn [val waiters pcs granted posted taken take]; rewrite ?E; try done.
  - lia.
  - eapply Forall_impl; [exact Hm|]. cbn. lia.
  - by replace (val s - units + (taken s + units)) with (val s + taken s) by lia.
  - intros Hv0 Hlt. specialize (Hx Hv0 Hlt). lia.
  - lia.
Qed.

Lemma idle_not_waiting v i s : inv v s → pcs s i = Idle → ∀ units, (i, units) ∉ waiters s.
Proof. intros Hi Hp units [[t Ht] _]%(i_waiting _ _ Hi). congruence. Qed.

Lemma wait_inv v i units timed s :
  inv v s → pcs s i = Idle → 0 ≤ units < 2 ^ 32 → inv v (wait i units timed s).
Proof.
  intros Hi Hp Hun. pose proof (idle_not_waiting v i s Hi Hp) as Hn. unfold wait.
  destruct (Z.leb_spec units (val s)) as [Hle|Hgt].
  { apply finish_inv; [apply take_inv; [done|lia]|done]. }
  assert (i ∉ granted s) as Hng by (intros Hgr; by apply (i_granted _ _ Hi i Hgr)).
  destruct Hi as [Hv Hm Hnd Hw Hg Hu Hs Hx Ht].
  split; cbn [val waiters pcs granted posted taken]; try done.
  - apply Forall_app. split; [done|]. by constructor.
  - rewrite fmap_app. apply NoDup_app. split_and!; [done| |apply NoDup_singleton].
    intros j ([k y] & -> & Hy)%list_elem_of_fmap Hj%list_elem_of_singleton. cbn in Hj. subst k. by apply (Hn y).
  - intros j x. rewrite fn_insert_if, elem_of_app, list_elem_of_singleton. case_decide as E; [subst j|].
    + split.
      * intros [Hin|Heq]; [by apply Hn in Hin|]. injection Heq as ->. eauto.
      * intros [[t Htd] _]. right. congruence.
    + rewrite Hw. split; [intros [?|?]; [done|congruence]|by left].
  - intros j Hj. rewrite fn_insert_if. case_decide; [done|by apply Hg].
  - intros j x t. rewrite fn_insert_if. case_decide; [intros [= <- _]; lia|apply Hu].
Qed.

Lemma resume_inv v i e s s' : inv v s → resume i e s = Some s' → inv v s'.
Proof.
  intros Hi. unfold resume. destruct (pcs s i) as [|units timed] eqn:Hp; [done|]. case_decide as Hgr.
  - intros [= <-]. apply finish_inv; [done|]. intros x [_ ?]%(i_waiting _ _ Hi). done.
  - destruct (timed && e); [|done]. intros [= <-]. destruct Hi as [Hv Hm Hnd Hw Hg Hu Hs Hx Ht].
    split; cbn [val waiters pcs granted posted taken finish]; try done.
    + rewrite Forall_forall in Hm |- *. intros w [_ Hin]%list_elem_of_filter. by apply Hm.
    + eapply sublist_NoDup; [done|]. apply fmap_sublist, sublist_filter.
    + intros j x. rewrite list_elem_of_filter, fn_insert_if, not_elem_of_difference, elem_of_singleton, Hw. cbn.
      case_decide; [subst j; split; [tauto|by intros [[? ?] _]]|]. split; [tauto|]. intros [? [?|?]]; [done|congruence].
    + intros j [Hj Hne]%elem_of_difference. rewrite fn_insert_if, decide_False by set_solver. by apply Hg.
    + intros j x t. rewrite fn_insert_if. case_decide; [done|apply Hu].
Qed.

Lemma reachable_sem v s : reachable v s → inv v s.
Proof.
  induction 1 as [|s a s' _ IH Hf Hs]; [apply make_inv|]. destruct a as [units|i units timed|i units|i e]; cbn in Hf, Hs.
  - injection Hs as <-. by apply post_inv.
  - destruct (pcs s i) eqn:Hp; [|done]. injection Hs as <-. by apply wait_inv.
  - destruct (pcs s i) eqn:Hp; [|done]. injection Hs as <-. pose proof (idle_not_waiting v i s IH Hp). unfold trywait.
    destruct (Z.leb_spec units (val s)); apply finish_inv; try done. apply take_inv; [done|lia].
  - by eapply resume_inv.
Qed.

(** C38: a semaphore gives out what was posted, and keeps nobody waiting that it
    could serve.  In every state that posts, waits, timeouts and attempts lead to:
    what has been taken and what is left add up to the initial value and what was
    posted (modulo 2^32, and exactly if that does not overflow); a thread that
    still waits without having been granted its units asks for more than there is;
    and a thread that has been granted them returns, successfully, when it runs. *)
Theorem semaphore_correct v s :
  reachable v s →
  wrap32 (val s + taken s) = wrap32 (v + posted s) ∧
  (0 ≤ v → v + posted s < 2 ^ 32 → val s + taken s = v + posted s) ∧
  ∀ i units timed, pcs s i = Waiting units timed →
    if decide (i ∈ granted s) then
      ∀ e, ∃ s', resume i e s = Some s' ∧ pcs s' i = Idle ∧ results s' = results s ++ [(i, true)]
    else val s < units.
Proof.
  intros Hr%reachable_sem. split_and!; [apply Hr|apply Hr|]. intros i units timed Hp. case_decide as Hg.
  - intros e. unfold resume. rewrite Hp, decide_True by done. eexists. split; [done|]. cbn.
    by rewrite fn_lookup_insert.
  - assert ((i, units) ∈ waiters s) as Hin by (apply (i_waiting _ _ Hr); eauto).
    by apply (proj1 (Forall_forall _ _) (i_more _ _ Hr) _ Hin).
Qed.

(** Two units; a thread wants three and one wants one; one unit is posted. *)
Lemma semaphore_correct_witness :
  ∃ s, reachable 2 s ∧ val s + taken s = 3 ∧ pcs s 0%nat = Waiting 3 false ∧ val s < 3.
Proof.
  set (s := post 1 (wait 1 1 false (wait 0 3 false (make 2)))).
  assert (reachable 2 s) as Hr.
  { apply (reach_step 2 (wait 1 1 false (wait 0 3 false (make 2))) (Post 1)); [|cbn; lia|reflexivity].
    apply (reach_step 2 (wait 0 3 false (make 2)) (Wait 1 1 false)); [|cbn; lia|reflexivity].
    apply (reach_step 2 (make 2) (Wait 0 3 false)); [apply reach_make|cbn; lia|reflexivity]. }
  destruct (semaphore_correct 2 s Hr) as (_ & Hx & Hw).
  exists s. split_and!; [exact Hr|apply Hx; vm_compute; [discriminate|reflexivity]|reflexivity|].
  specialize (Hw 0%nat 3 false eq_refl). rewrite decide_False in Hw; [exact Hw|].
  apply (bool_decide_unpack _). vm_compute. exact I.
Defined.

End Semaphore.
