(* ===== verification/RwLock.v ===== *)
(** * Read-write locks

    [rwlock] of [include/osv/rwlock.h] and [core/rwlock.cc].  The threads interleave
    at their accesses to shared memory: one atomic operation on [_readers] or
    [_writer_wait], one operation of the writers' mutex (which excludes, and knows
    its owner and depth), one [push] or [pop] of the queue of waiting readers; what
    a thread computes from the value it got belongs to the step.  A wait is a step
    that is not enabled until its condition holds. *)
From S2P Require Import Prelude Bits.

Module RwLock.

Definition WRITER_LOCK : Z := 0x80000000.
Definition PENDING_WRITER : Z := 0x40000000.
Definition READERS_MASK : Z := 0x3fff0000.
Definition IND_READ_MASK : Z := 0xffff0000.
Definition PENDING_READERS_MASK : Z := 0x0000ffff.
Definition READER_LOCK_INC : Z := 0x00010000.

(** Where a thread is.  [WHeld]: outside, with the lock held for writing; the flag
    [rec] marks an operation that started there.  The flag of [RWait] tells whether
    the lock has been taken for the reader; that of the loop that wakes the readers
    whether it is part of [downgrade]. *)
Inductive pc :=
  | Out | WHeld | Abort
  | RTry (try : bool) (prev : Z) | RAdd | RTry2 (prev : Z) | RPush | RWait (granted : bool)
  | UOwner | UStore (w : nat) | UWake (w : nat)
  | GLoad | GCas (prev : Z) | TLoad (rec : bool) | TCas (prev : Z) | FUnlock
  | WLock (rec : bool) | WCheck (rec : bool) | WSet | WOr | WCas (prev : Z) | WClear | WWait | WAdd
  | XAnd | XUnlock
  | KPop (dg : bool) | KLoad (dg : bool) | KAdd (dg : bool) (w : nat)
  | KNull (dg : bool) (w : nat) (pending : Z) | KWake (dg : bool) (w : nat) (pending : Z)
  | DCas (prev : Z) | DLoad | DUnlock (depth : nat).

(** A thread: where it is, and how many read locks it has. *)
Notation thread := (pc * nat)%type.

Record st := mk {
  readers : Z;
  writer_wait : bool;
  wmtx : option (nat * nat);
  read_waiters : list nat;
  woken : gset nat;
  threads : list thread;
}.

Definition start (n : nat) : st := mk 0 false None [] ∅ (replicate n (Out, 0%nat)).

Definition set_readers (x : Z) (s : st) : st := mk (wrap32 x) (writer_wait s) (wmtx s) (read_waiters s) (woken s) (threads s).
Definition set_wait (b : bool) (s : st) : st := mk (readers s) b (wmtx s) (read_waiters s) (woken s) (threads s).
Definition set_mutex (m : option (nat * nat)) (s : st) : st := mk (readers s) (writer_wait s) m (read_waiters s) (woken s) (threads s).
Definition set_queue (l : list nat) (s : st) : st := mk (readers s) (writer_wait s) (wmtx s) l (woken s) (threads s).
Definition set_woken (w : gset nat) (s : st) : st := mk (readers s) (writer_wait s) (wmtx s) (read_waiters s) w (threads s).
Definition go (t : nat) (p : pc) (r : nat) (s : st) : st :=
  mk (readers s) (writer_wait s) (wmtx s) (read_waiters s) (woken s) (<[t := (p, r)]> (threads s)).

(** ** The writers' mutex *)

Definition mutex_try_lock (t : nat) (s : st) : option st :=
  match wmtx s with
  | None => Some (set_mutex (Some (t, 1%nat)) s)
  | Some (o, d) => if decide (o = t) then Some (set_mutex (Some (t, S d)) s) else None
  end.

Definition mutex_unlock (s : st) : st :=
  match wmtx s with
  | Some (o, S (S d)) => set_mutex (Some (o, S d)) s
  | _ => set_mutex None s
  end.

Definition depth (s : st) : nat := match wmtx s with Some (_, d) => d | None => 0%nat end.

(** ** Readers *)

(** The loop of [rlock] and [try_rlock] with the value [prev] of [_readers]. *)
Definition rtry (t : nat) (r : nat) (try : bool) (prev : Z) (s : st) : st :=
  if prev <? PENDING_WRITER then go t (RTry try prev) r s
  else if try then go t Out r s
  else if Z.land PENDING_READERS_MASK prev + 1 <? READER_LOCK_INC then go t RAdd r s
  else go t Abort r s.

(** [rlock] and [try_rlock], up to the loop. *)
Definition rlock (t : nat) (r : nat) (try : bool) (s : st) : st :=
  let prev := readers s in
  if Z.land READERS_MASK prev + READER_LOCK_INC <? PENDING_WRITER then rtry t r try prev s
  else go t Abort r s.

(** The second loop of [rlock]. *)
Definition rtry2 (t : nat) (r : nat) (prev : Z) (s : st) : st :=
  if prev <? PENDING_WRITER then go t (RTry2 prev) r s else go t RPush r s.

Definition rlock_step (t : nat) (p : pc) (r : nat) (s : st) : option st :=
  match p with
  | RTry try prev =>
      if readers s =? prev then Some (go t Out (S r) (set_readers (prev + READER_LOCK_INC) s))
      else Some (rtry t r try (readers s) s)
  | RAdd =>
      let prev := wrap32 (readers s + 1) in
      Some (rtry2 t r prev (set_readers (readers s + 1) s))
  | RTry2 prev =>
      if readers s =? prev then Some (go t Out (S r) (set_readers (prev + READER_LOCK_INC - 1) s))
      else Some (rtry2 t r (readers s) s)
  | RPush => Some (go t (RWait false) r (set_queue (read_waiters s ++ [t]) s))
  | RWait _ => if decide (t ∈ woken s) then Some (go t Out (S r) (set_woken (woken s ∖ {[t]}) s)) else None
  | _ => None
  end.

(** [runlock]: the counter, and what the last reader does for a pending writer. *)
Definition runlock (t : nat) (r : nat) (s : st) : st :=
  let prev := readers s in
  let s := set_readers (prev - READER_LOCK_INC) s in
  if (0 <? prev) && (prev <? WRITER_LOCK) then
    if (Z.land prev READERS_MASK =? READER_LOCK_INC) && negb (Z.land prev PENDING_WRITER =? 0)
    then go t UOwner (r - 1) s else go t Out (r - 1) s
  else go t Abort r s.

Definition runlock_step (t : nat) (p : pc) (r : nat) (s : st) : option st :=
  match p with
  | UOwner => Some (go t (match wmtx s with Some (w, _) => UStore w | None => Out end) r s)
  | UStore w => Some (go t (UWake w) r (set_wait false s))
  | UWake w => Some (go t Out r s)
  | _ => None
  end.

(** ** Trying for the write lock *)

Definition try_upgrade (t : nat) (r : nat) (s : st) : st :=
  match mutex_try_lock t s with Some s => go t GLoad r s | None => go t Out r s end.

Definition try_wlock (t : nat) (r : nat) (rec : bool) (s : st) : st :=
  match mutex_try_lock t s with Some s => go t (TLoad rec) r s | None => go t (if rec then WHeld else Out) r s end.

(** The value a writer leaves in [_readers]: the pending readers stay. *)
Definition taken (prev : Z) : Z := Z.lor WRITER_LOCK (Z.land prev PENDING_READERS_MASK).

Definition try_step (t : nat) (p : pc) (r : nat) (s : st) : option st :=
  match p with
  | GLoad =>
      let prev := readers s in
      Some (go t (if Z.land prev IND_READ_MASK =? READER_LOCK_INC then GCas prev else FUnlock) r s)
  | GCas prev =>
      if readers s =? prev then Some (go t WHeld (r - 1) (set_readers (taken prev) s)) else Some (go t FUnlock r s)
  | TLoad rec =>
      let prev := readers s in
      if (Z.land prev READERS_MASK =? 0) && (Z.land prev WRITER_LOCK =? 0) then Some (go t (TCas prev) r s)
      else Some (go t (if negb (Z.land prev WRITER_LOCK =? 0) then WHeld else FUnlock) r s)
  | TCas prev =>
      if readers s =? prev then Some (go t WHeld r (set_readers (taken prev) s)) else Some (go t FUnlock r s)
  | FUnlock => Some (go t Out r (mutex_unlock s))
  | _ => None
  end.

(** ** [wlock] *)

(** The loop of [wlock] with the value [prev]. *)
Definition wtry (t : nat) (r : nat) (prev : Z) (s : st) : st :=
  if Z.land prev READERS_MASK =? 0 then go t (WCas prev) r s else go t WWait r s.

Definition wlock_step (t : nat) (p : pc) (r : nat) (s : st) : option st :=
  match p with
  | WLock rec => s ← mutex_try_lock t s; Some (go t (WCheck rec) r s)
  | WCheck rec => Some (go t (if negb (Z.land (readers s) WRITER_LOCK =? 0) then WHeld else WSet) r s)
  | WSet => Some (go t WOr r (set_wait true s))
  | WOr =>
      let prev := Z.lor (readers s) PENDING_WRITER in
      Some (wtry t r prev (set_readers prev s))
  | WCas prev =>
      if readers s =? prev then Some (go t WClear r (set_readers (taken prev) s)) else Some (wtry t r (readers s) s)
  | WClear => Some (go t WHeld r (set_wait false s))
  | WWait => if writer_wait s then None else Some (go t WAdd r s)
  | WAdd => Some (go t WHeld r (set_readers (readers s + PENDING_WRITER) s))
  | _ => None
  end.

(** ** Giving the write lock back *)

(** The head of the loop of [wake_pending_readers], and what follows it. *)
Definition wake_pending_readers (t : nat) (r : nat) (dg : bool) (pending_readers : Z) (s : st) : st :=
  if pending_readers =? 0 then go t (if dg then DUnlock (depth s) else XUnlock) r s else go t (KPop dg) r s.

Definition wake_step (t : nat) (p : pc) (r : nat) (s : st) : option st :=
  match p with
  | KPop dg =>
      match read_waiters s with
      | [] => Some (go t (KLoad dg) r s)
      | w :: l => Some (go t (KAdd dg w) r (set_queue l s))
      end
  | KLoad dg => Some (wake_pending_readers t r dg (Z.land (readers s) PENDING_READERS_MASK) s)
  | KAdd dg w =>
      match threads s !! w with
      | Some (_, rw) =>
          let pending := Z.land (readers s) PENDING_READERS_MASK in
          Some (go t (KNull dg w pending) r (go w (RWait true) rw (set_readers (readers s + (READER_LOCK_INC - 1)) s)))
      | None => None
      end
  | KNull dg w pending => Some (go t (KWake dg w pending) r (set_woken ({[w]} ∪ woken s) s))
  | KWake dg w pending => Some (wake_pending_readers t r dg pending s)
  | _ => None
  end.

Definition wunlock (t : nat) (r : nat) (s : st) : st :=
  if Z.land (readers s) WRITER_LOCK =? 0 then go t Abort r s
  else if decide (1 < depth s)%nat then go t WHeld r (mutex_unlock s)
  else go t XAnd r s.

Definition downgrade (t : nat) (r : nat) (s : st) : st :=
  let prev := readers s in
  if Z.land prev WRITER_LOCK =? 0 then go t Abort r s
  else if Z.land READERS_MASK prev + READER_LOCK_INC <? PENDING_WRITER then go t (DCas prev) r s
  else go t Abort r s.

Definition not_writer (x : Z) : Z := Z.land x (Z.lxor WRITER_LOCK (Z.ones 32)).

Definition release_step (t : nat) (p : pc) (r : nat) (s : st) : option st :=
  match p with
  | XAnd =>
      let prev := readers s in
      Some (wake_pending_readers t r false (Z.land prev PENDING_READERS_MASK) (set_readers (not_writer prev) s))
  | XUnlock => Some (go t Out r (mutex_unlock s))
  | DCas prev =>
      if readers s =? prev then Some (go t DLoad (S r) (set_readers (not_writer prev + READER_LOCK_INC) s))
      else Some (go t (DCas (readers s)) r s)
  | DLoad => Some (wake_pending_readers t r true (Z.land (readers s) PENDING_READERS_MASK) s)
  | DUnlock d =>
      match d with
      | O => Some (go t Out r s)
      | S d => Some (go t (match d with O => Out | _ => DUnlock d end) r (mutex_unlock s))
      end
  | _ => None
  end.

(** ** The steps of a thread, and the calls from outside *)

Definition advance (t : nat) (s : st) : option st :=
  '(p, r) ← threads s !! t;
  match p with
  | Out | WHeld | Abort => None
  | RTry _ _ | RAdd | RTry2 _ | RPush | RWait _ => rlock_step t p r s
  | UOwner | UStore _ | UWake _ => runlock_step t p r s
  | GLoad | GCas _ | TLoad _ | TCas _ | FUnlock => try_step t p r s
  | WLock _ | WCheck _ | WSet | WOr | WCas _ | WClear | WWait | WAdd => wlock_step t p r s
  | KPop _ | KLoad _ | KAdd _ _ | KNull _ _ _ | KWake _ _ _ => wake_step t p r s
  | XAnd | XUnlock | DCas _ | DLoad | DUnlock _ => release_step t p r s
  end.

Inductive op := ORLock | OTryRLock | ORUnlock | OTryUpgrade | OTryWLock | OWLock | OWUnlock | ODowngrade.

(** A thread gives back what it has; it asks for the write lock without having the
    lock for reading, and not for a read lock with the write lock. *)
Definition call (t : nat) (o : op) (s : st) : option st :=
  '(p, r) ← threads s !! t;
  match o, p with
  | ORLock, Out => Some (rlock t r false s)
  | OTryRLock, Out => Some (rlock t r true s)
  | ORUnlock, Out => match r with O => None | _ => Some (runlock t r s) end
  | OTryUpgrade, Out => match r with O => None | _ => Some (try_upgrade t r s) end
  | OTryWLock, Out => match r with O => Some (try_wlock t r false s) | _ => None end
  | OTryWLock, WHeld => Some (try_wlock t r true s)
  | OWLock, Out => match r with O => Some (go t (WLock false) r s) | _ => None end
  | OWLock, WHeld => Some (go t (WLock true) r s)
  | OWUnlock, WHeld => Some (wunlock t r s)
  | ODowngrade, WHeld => Some (downgrade t r s)
  | _, _ => None
  end.

Definition internal (s s' : st) : Prop := ∃ t, advance t s = Some s'.
Definition step (s s' : st) : Prop := internal s s' ∨ ∃ t o, call t o s = Some s'.

Definition wowned (t : nat) (s : st) : bool := match wmtx s with Some (o, _) => bool_decide (o = t) | None => false end.
Definition has_readers (s : st) : bool := negb (Z.land (readers s) READERS_MASK =? 0).

End RwLock.
