(* ===== verification/RwLockSpec.v ===== *)
(** * The read-write lock excludes, and does not lose a waiter

    The word [_readers] counts what the threads do, and the invariant that follows:
    a writer is alone, every pending reader has a writer that will wake it, and a
    waiting writer has a reader that will. *)
From S2P Require Import Prelude Bits RwLock.
Import RwLock.

(** ** The fields of the word *)

Section Word.

Definition word (w p r q : Z) : Z := w * 2 ^ 31 + p * 2 ^ 30 + r * 2 ^ 16 + q.

Definition fields (w p r q : Z) : Prop := 0 ≤ w ≤ 1 ∧ 0 ≤ p ≤ 1 ∧ 0 ≤ r < 2 ^ 14 ∧ 0 ≤ q < 2 ^ 16.

(** The bits [a] to [a + b - 1]. *)
Lemma land_field x a b : 0 ≤ a → 0 ≤ b → Z.land x (Z.shiftl (Z.ones b) a) = (x / 2 ^ a) mod 2 ^ b * 2 ^ a.
Proof.
  intros Ha Hb. rewrite <- Z.land_ones, <- Z.shiftr_div_pow2, <- Z.shiftl_mul_pow2 by lia.
  apply Z.bits_inj'. intros n Hn. rewrite Z.land_spec.
  destruct (Z_lt_dec n a) as [Hlt|Hge].
  - rewrite !Z.shiftl_spec_low by lia. apply andb_false_r.
  - rewrite !Z.shiftl_spec, Z.land_spec, Z.shiftr_spec by lia. f_equal. f_equal. lia.
Qed.

Context (w p r q : Z) (Hf : fields w p r q).

Lemma word_range : 0 ≤ word w p r q < 2 ^ 32.
Proof using Hf. unfold fields, word in *. lia. Qed.

(** A field, from the value of the bits above it and of those below. *)
Lemma word_field a b hi f lo :
  0 ≤ a → 0 ≤ b → 0 ≤ f < 2 ^ b → 0 ≤ lo < 2 ^ a → word w p r q = (hi * 2 ^ b + f) * 2 ^ a + lo →
  Z.land (word w p r q) (Z.shiftl (Z.ones b) a) = f * 2 ^ a.
Proof.
  intros Ha Hb Hff Hlo E. rewrite land_field by done. f_equal.
  rewrite <- (Z.div_unique (word w p r q) (2 ^ a) (hi * 2 ^ b + f) lo) by lia.
  symmetry. apply (Z.mod_unique _ _ hi); lia.
Qed.

Lemma word_writer : Z.land (word w p r q) WRITER_LOCK = w * 2 ^ 31.
Proof using Hf.
  change WRITER_LOCK with (Z.shiftl (Z.ones 1) 31). unfold fields in Hf.
  apply (word_field 31 1 0 w (p * 2 ^ 30 + r * 2 ^ 16 + q)); unfold word; lia.
Qed.

Lemma word_pending : Z.land (word w p r q) PENDING_WRITER = p * 2 ^ 30.
Proof using Hf.
  change PENDING_WRITER with (Z.shiftl (Z.ones 1) 30). unfold fields in Hf.
  apply (word_field 30 1 w p (r * 2 ^ 16 + q)); unfold word; lia.
Qed.

Lemma word_readers : Z.land (word w p r q) READERS_MASK = r * 2 ^ 16.
Proof using Hf.
  change READERS_MASK with (Z.shiftl (Z.ones 14) 16). unfold fields in Hf.
  apply (word_field 16 14 (w * 2 + p) r q); unfold word; lia.
Qed.

Lemma word_ind : Z.land (word w p r q) IND_READ_MASK = w * 2 ^ 31 + p * 2 ^ 30 + r * 2 ^ 16.
Proof using Hf.
  change IND_READ_MASK with (Z.shiftl (Z.ones 16) 16). unfold fields in Hf.
  rewrite (word_field 16 16 0 (w * 2 ^ 15 + p * 2 ^ 14 + r) q); unfold word; lia.
Qed.

Lemma word_waiting : Z.land (word w p r q) PENDING_READERS_MASK = q.
Proof using Hf.
  change PENDING_READERS_MASK with (Z.shiftl (Z.ones 16) 0). unfold fields in Hf.
  rewrite (word_field 0 16 (w * 2 ^ 15 + p * 2 ^ 14 + r) q 0); unfold word; lia.
Qed.

Lemma word_not_writer : not_writer (word w p r q) = word 0 p r q.
Proof using Hf.
  unfold not_writer. change (Z.lxor WRITER_LOCK (Z.ones 32)) with (Z.shiftl (Z.ones 31) 0). unfold fields in Hf.
  rewrite (word_field 0 31 w (p * 2 ^ 30 + r * 2 ^ 16 + q) 0); unfold word; lia.
Qed.

Lemma word_or : p = 0 → Z.lor (word w p r q) PENDING_WRITER = word w 1 r q.
Proof using Hf.
  intros Hp. rewrite <- Z.lxor_lor, <- Z.add_nocarry_lxor; [|by rewrite word_pending, Hp..].
  unfold word, PENDING_WRITER. lia.
Qed.

Lemma word_taken : taken (word w p r q) = word 1 0 0 q.
Proof using Hf.
  unfold taken. rewrite word_waiting. unfold fields in Hf.
  assert (Z.land WRITER_LOCK q = 0) as H0.
  { rewrite Z.land_comm. change WRITER_LOCK with (Z.shiftl (Z.ones 1) 31). rewrite land_field by lia.
    rewrite Z.div_small by lia. done. }
  rewrite <- Z.lxor_lor, <- Z.add_nocarry_lxor by done. unfold word, WRITER_LOCK. lia.
Qed.

(** No writer, and none pending. *)
Lemma word_open : word w p r q < PENDING_WRITER ↔ w = 0 ∧ p = 0.
Proof using Hf. unfold fields, word, PENDING_WRITER in *. lia. Qed.

End Word.

(** ** What the threads contribute *)

Definition b2 (b : bool) : Z := if b then 1 else 0.

(** The thread has the lock for writing; it has announced that it wants it. *)
Definition writes (p : pc) : bool :=
  match p with WHeld | WLock true | WCheck true | TLoad true | WClear | XAnd | DCas _ => true | _ => false end.
Definition announces (p : pc) : bool := match p with WCas _ | WWait | WAdd => true | _ => false end.

(** It owns the writers' mutex; and does so once. *)
Definition owns (p : pc) : bool :=
  match p with
  | WHeld | GLoad | GCas _ | TLoad _ | TCas _ | FUnlock | WLock true | WCheck _ | WSet | WOr | WCas _ | WClear | WWait | WAdd
  | XAnd | XUnlock | KPop _ | KLoad _ | KAdd _ _ | KNull _ _ _ | KWake _ _ _ | DCas _ | DLoad | DUnlock _ => true
  | _ => false
  end.
Definition once (p : pc) : bool :=
  match p with
  | GLoad | GCas _ | TLoad false | TCas _ | FUnlock | XAnd | XUnlock
  | KPop false | KLoad false | KAdd false _ | KNull false _ _ | KWake false _ _ => true
  | _ => false
  end.

(** It waits for a read lock, or is about to; it is about to wake a writer. *)
Definition pends (p : pc) : bool := match p with RTry2 _ | RPush | RWait false => true | _ => false end.
Definition stuck (p : pc) : bool := match p with RPush | RWait false => true | _ => false end.
Definition calls (p : pc) : bool := match p with UOwner | UStore _ => true | _ => false end.
Definition granted (p : pc) : bool := match p with RWait true => true | _ => false end.

(** It will wake the readers that wait. *)
Definition responds (p : pc) : bool :=
  writes p || announces p ||
  match p with KPop _ | KLoad _ | KAdd _ _ | KNull _ _ _ | KWake _ _ _ | DLoad => true | _ => false end.

Definition tw (s : st) : Z := total (λ x, b2 (writes x.1)) (threads s).
Definition tp (s : st) : Z := total (λ x, b2 (announces x.1)) (threads s).
Definition tr (s : st) : Z := total (λ x, Z.of_nat x.2 + b2 (granted x.1)) (threads s).
Definition tq (s : st) : Z := total (λ x, b2 (pends x.1)) (threads s).
Definition tu (s : st) : Z := total (λ x, b2 (calls x.1)) (threads s).

(** ** The invariant *)

(** The word, within the limits the code has. *)
Definition counted (s : st) : Prop := readers s = word (tw s) (tp s) (tr s) (tq s) ∧ fields (tw s) (tp s) (tr s) (tq s).

Definition owner_ok (s : st) : Prop :=
  (∀ t p r, threads s !! t = Some (p, r) → owns p = true ↔ ∃ d, wmtx s = Some (t, d)) ∧
  ∀ t d, wmtx s = Some (t, d) →
    ∃ p r, threads s !! t = Some (p, r) ∧ (1 ≤ d)%nat ∧ (once p = true → d = 1%nat) ∧ ∀ k, p = DUnlock k → d = k.

(** What the number of readers, and of those that will wake it, is for a writer. *)
Definition writer_ok (readers callers : Z) (wait : bool) (p : pc) : Prop :=
  match p with
  | WOr => wait = true
  | WWait => if wait then (0 < readers ∧ callers = 0) ∨ (readers = 0 ∧ callers = 1) else readers = 0 ∧ callers = 0
  | WCas _ | WAdd => readers = 0 ∧ callers = 0
  | _ => writes p = true → readers = 0
  end.

Definition writers_ok (s : st) : Prop :=
  (∀ t p r, threads s !! t = Some (p, r) → writer_ok (tr s) (tu s) (writer_wait s) p) ∧
  (tu s ≠ 0 → ∃ t r, threads s !! t = Some (WWait, r)) ∧
  ∀ t w r, threads s !! t = Some (UStore w, r) → ∃ d, wmtx s = Some (w, d).

(** The readers in the queue are those that wait, but for one the waker has taken. *)
Record queue_ok (l : list thread) (queue : list nat) (wk : gset nat) : Prop := {
  q_nodup : NoDup queue;
  q_in : ∀ t, t ∈ queue → ∃ r, l !! t = Some (RWait false, r);
  q_out : ∀ t r, l !! t = Some (RWait false, r) → t ∈ queue ∨ ∃ k dg rk, l !! k = Some (KAdd dg t, rk);
  q_add : ∀ k dg w rk, l !! k = Some (KAdd dg w, rk) → w ∉ queue ∧ ∃ r, l !! w = Some (RWait false, r);
  q_woken : ∀ t, t ∈ wk → ∃ r, l !! t = Some (RWait true, r);
  q_granted : ∀ t r, l !! t = Some (RWait true, r) → t ∈ wk ∨ ∃ k dg n rk, l !! k = Some (KNull dg t n, rk);
  q_null : ∀ k dg w n rk, l !! k = Some (KNull dg w n, rk) → w ∉ wk ∧ ∃ r, l !! w = Some (RWait true, r);
}.

(** A reader that waits has a writer that will wake it. *)
Definition waiters_ok (s : st) : Prop :=
  ∀ t p r, threads s !! t = Some (p, r) → stuck p = true →
    ∃ o d po ro, wmtx s = Some (o, d) ∧ threads s !! o = Some (po, ro) ∧ responds po = true.

Definition local_ok (p : pc) (r : nat) : Prop :=
  match p with
  | GLoad => (1 ≤ r)%nat
  | GCas prev => (1 ≤ r)%nat ∧ Z.land prev IND_READ_MASK = READER_LOCK_INC
  | TCas prev => Z.land prev READERS_MASK = 0
  | KNull _ _ n | KWake _ _ n => n ≠ 0
  | RTry _ prev | RTry2 prev => prev < PENDING_WRITER | Abort => False | _ => True end.

Record base (s : st) : Prop := {
  v_count : counted s;
  v_owner : owner_ok s;
  v_writers : writers_ok s;
  v_waiters : waiters_ok s;
  v_local : ∀ t p r, threads s !! t = Some (p, r) → local_ok p r;
}.

Definition inv (s : st) : Prop := base s ∧ queue_ok (threads s) (read_waiters s) (woken s).

(** ** Facts about one state *)

Lemma b2_nonneg b : 0 ≤ b2 b ≤ 1.
Proof. destruct b; cbn; lia. Qed.

Lemma writes_owns p : writes p = true → owns p = true.
Proof. by destruct p as [| | | | | | | | | | | | | [] | | | [] | [] | | | | | | | | | | | | | | | |]. Qed.

Lemma announces_owns p : announces p = true → owns p = true.
Proof. by destruct p. Qed.

Lemma writes_announces p : writes p = true → announces p = false.
Proof. by destruct p as [| | | | | | | | | | | | | [] | | | [] | [] | | | | | | | | | | | | | | | |]. Qed.

Lemma total_mine {A} (f : A → Z) l t x :
  (∀ x, 0 ≤ f x) → l !! t = Some x → (∀ u y, u ≠ t → l !! u = Some y → f y = 0) → total f l = f x.
Proof.
  intros Hf Ht Hu. assert (total f (<[t := x]> l) = total f l) as E by (by rewrite list_insert_id).
  revert t Ht Hu E. induction l as [|y l IH]; intros [|t] Ht Hu _; [done|done| |]; rewrite total_cons.
  - injection Ht as ->. rewrite (proj2 (total_zero f l Hf)); [lia|].
    intros y [u Hy]%list_elem_of_lookup. by apply (Hu (S u) y).
  - rewrite (Hu 0%nat y) by done. cbn in Ht.
    rewrite (IH t Ht); [lia| |by rewrite list_insert_id]. intros u z Hne Hz. apply (Hu (S u)); [lia|done].
Qed.

(** Only the owner of the mutex is held to anything. *)
Lemma writer_ok_free a b w p : owns p = false → writer_ok a b w p.
Proof. by destruct p as [| | | | | | | | | | | | | [] | | | [] | [] | | | | | | | | | | | | | | | |]. Qed.

Lemma responds_owns p : responds p = true → owns p = true.
Proof. by destruct p as [| | | | | | | | | | | | | [] | | | [] | [] | | | | | | | | | | | | | | | |]. Qed.

Lemma stuck_pends p : stuck p = true → pends p = true ∧ owns p = false.
Proof. by destruct p as [| | | | | | |[]| | | | | | | | | | | | | | | | | | | | | | | | | |]. Qed.

Section Facts.
Context (s : st) (Hi : base s).

Lemma owner_unique t u p r q r' :
  threads s !! t = Some (p, r) → threads s !! u = Some (q, r') → owns p = true → owns q = true → u = t.
Proof using Hi.
  intros Ht Hu Hp Hq. destruct (v_owner _ Hi) as [Ho _].
  apply (Ho _ _ _ Ht) in Hp as [d Hd]. apply (Ho _ _ _ Hu) in Hq as [d' Hd']. congruence.
Qed.

(** The writer's bits are those of the owner of the mutex. *)
Lemma owner_bits t p r : threads s !! t = Some (p, r) → owns p = true → tw s = b2 (writes p) ∧ tp s = b2 (announces p).
Proof using Hi.
  intros Ht Hp. split.
  - apply (total_mine (λ x : thread, b2 (writes x.1)) _ t (p, r)); [intros; apply b2_nonneg|done|].
    intros u [q r'] Hne Hu. cbn. destruct (writes q) eqn:E; [|done]. apply writes_owns in E.
    destruct Hne. by eapply owner_unique.
  - apply (total_mine (λ x : thread, b2 (announces x.1)) _ t (p, r)); [intros; apply b2_nonneg|done|].
    intros u [q r'] Hne Hu. cbn. destruct (announces q) eqn:E; [|done]. apply announces_owns in E.
    destruct Hne. by eapply owner_unique.
Qed.

(** Nobody is about to wake a writer that does not wait. *)
Lemma owner_calls t p r : threads s !! t = Some (p, r) → owns p = true → p ≠ WWait → tu s = 0.
Proof using Hi.
  intros Ht Hp Hne. destruct (decide (tu s = 0)) as [|Hu]; [done|]. destruct (v_writers _ Hi) as (_ & Hw & _).
  destruct (Hw Hu) as (u & ru & Hu'). assert (u = t) as -> by (by eapply owner_unique). congruence.
Qed.

Lemma free_calls : wmtx s = None → tu s = 0.
Proof using Hi.
  intros Hn. destruct (decide (tu s = 0)) as [|Hu]; [done|]. destruct (v_writers _ Hi) as (_ & Hw & _).
  destruct (Hw Hu) as (u & ru & Hu'). apply (proj1 (v_owner _ Hi)) in Hu' as [Ho _]. destruct (Ho eq_refl). congruence.
Qed.

Lemma calls_count t p r : threads s !! t = Some (p, r) → calls p = true → tu s ≠ 0.
Proof.
  intros Ht Hc. assert (∀ x : thread, 0 ≤ b2 (calls x.1)) as Hb by (intros; apply b2_nonneg).
  pose proof (total_ge (λ x : thread, b2 (calls x.1)) _ _ _ Hb Ht) as H. cbn in H. rewrite Hc in H. unfold tu. cbn in H. lia.
Qed.

Lemma pends_count : tq s = 0 → ∀ t p r, threads s !! t = Some (p, r) → stuck p = false.
Proof.
  intros Hq t p r Ht. destruct (stuck p) eqn:E; [|done]. apply stuck_pends in E as [E _].
  assert (∀ x : thread, 0 ≤ b2 (pends x.1)) as Hb by (intros; apply b2_nonneg).
  pose proof (total_ge (λ x : thread, b2 (pends x.1)) _ _ _ Hb Ht) as H. cbn in H. rewrite E in H. unfold tq in Hq. cbn in H. lia.
Qed.

Lemma readers_word : readers s = word (tw s) (tp s) (tr s) (tq s).
Proof using Hi. apply Hi. Qed.

Lemma fields_ok : fields (tw s) (tp s) (tr s) (tq s).
Proof using Hi. apply Hi. Qed.

End Facts.

(** ** One thread moves *)

Section Update.
Context (s s' : st) (t : nat) (p q : pc) (r r' : nat).
Context (Hi : base s) (Ht : threads s !! t = Some (p, r)) (Hth : threads s' = <[t := (q, r')]> (threads s)).

Lemma upd_mine : threads s' !! t = Some (q, r').
Proof using Ht Hth. rewrite Hth. apply list_lookup_insert_eq. by apply lookup_lt_Some in Ht. Qed.

Lemma upd_other u : u ≠ t → threads s' !! u = threads s !! u.
Proof using Hth. intros Hu. rewrite Hth. by apply list_lookup_insert_ne. Qed.

Lemma upd_cases u x : threads s' !! u = Some x → (u = t ∧ x = (q, r')) ∨ (u ≠ t ∧ threads s !! u = Some x).
Proof using Ht Hth.
  intros Hu. destruct (decide (u = t)) as [->|Hne].
  - left. rewrite upd_mine in Hu. by injection Hu.
  - right. split; [done|]. by rewrite <- upd_other.
Qed.

Lemma upd_totals :
  tw s' = tw s - b2 (writes p) + b2 (writes q) ∧ tp s' = tp s - b2 (announces p) + b2 (announces q) ∧
  tr s' = tr s - (Z.of_nat r + b2 (granted p)) + (Z.of_nat r' + b2 (granted q)) ∧
  tq s' = tq s - b2 (pends p) + b2 (pends q) ∧ tu s' = tu s - b2 (calls p) + b2 (calls q).
Proof using Ht Hth.
  unfold tw, tp, tr, tq, tu. rewrite Hth. split_and!; by rewrite (total_insert _ _ _ _ _ Ht).
Qed.

(** The mutex stays, is taken by [t], or is given back by it. *)
Lemma upd_owner :
  (owns q = true → (owns p = true ∨ wmtx s = None) ∧
     ∃ d, wmtx s' = Some (t, d) ∧ (1 ≤ d)%nat ∧ (once q = true → d = 1%nat) ∧ ∀ k, q = DUnlock k → d = k) →
  (owns q = false → (wmtx s' = None ∧ owns p = true) ∨ (wmtx s' = wmtx s ∧ owns p = false)) →
  owner_ok s'.
Proof using Hi Ht Hth.
  intros H1 H2. destruct (v_owner _ Hi) as [Ho Hd]. split.
  - intros u pu ru [(-> & [= -> ->])|(Hne & Hu)]%upd_cases.
    + destruct (owns q) eqn:Eq.
      * destruct (H1 eq_refl) as (_ & d & Hd' & _). split; eauto.
      * destruct (H2 eq_refl) as [[Hn _]|[Hn Hp]]; (split; [done|]); intros [d Hd']; [congruence|].
        rewrite Hn in Hd'. exfalso. assert (owns p = true) as Hp' by (apply (Ho _ _ _ Ht); eauto). congruence.
    + rewrite (Ho _ _ _ Hu). destruct (owns q) eqn:Eq.
      * destruct (H1 eq_refl) as ([Hp|Hn] & d & Hd' & _); (split; [|intros [d' Hd'']; congruence]).
        -- intros [d' Hd'']. apply (Ho _ _ _ Ht) in Hp as [d2 ?]. congruence.
        -- intros [d' Hd'']. congruence.
      * destruct (H2 eq_refl) as [[Hn Hp]|[Hn Hp]]; [|by rewrite Hn].
        apply (Ho _ _ _ Ht) in Hp as [d2 ?]. split; intros [d' ?]; congruence.
  - intros u d Hu. destruct (owns q) eqn:Eq.
    + destruct (H1 eq_refl) as (_ & d' & Hd' & ? & ? & ?). rewrite Hd' in Hu. injection Hu as <- <-.
      exists q, r'. split_and!; [apply upd_mine|done..].
    + destruct (H2 eq_refl) as [[Hn Hp]|[Hn Hp]]; [congruence|]. rewrite Hn in Hu.
      destruct (Hd u d Hu) as (pu & ru & Hpu & ?). exists pu, ru. rewrite upd_other; [done|].
      intros ->. rewrite Ht in Hpu. injection Hpu as <- <-.
      assert (owns p = true) as Hp' by (apply (Ho _ _ _ Ht); eauto). congruence.
Qed.

Lemma upd_waiters :
  (owns p = false → wmtx s' = wmtx s ∨ wmtx s = None) →
  (responds p = true → (responds q = true ∧ ∃ d, wmtx s' = Some (t, d)) ∨
     ∀ u pu ru, u ≠ t → threads s !! u = Some (pu, ru) → stuck pu = false) →
  (stuck q = true → ∃ o d po ro, wmtx s' = Some (o, d) ∧ threads s' !! o = Some (po, ro) ∧ responds po = true) →
  waiters_ok s'.
Proof using Hi Ht Hth.
  intros H1 H2 H3 u pu ru [(-> & [= -> ->])|(Hne & Hu)]%upd_cases Hst; [by apply H3|].
  destruct (v_waiters _ Hi u pu ru Hu Hst) as (o & d & po & ro & Ho & Hpo & Hre).
  destruct (decide (o = t)) as [->|Hot].
  - rewrite Ht in Hpo. injection Hpo as <- <-. destruct (H2 Hre) as [[Hq [d' Hd']]|Hno].
    + exists t, d', q, r'. split_and!; [done|apply upd_mine|done].
    + rewrite (Hno u pu ru Hne Hu) in Hst. done.
  - assert (owns p = false) as Hp.
    { destruct (owns p) eqn:E; [|done]. apply (proj1 (v_owner _ Hi) _ _ _ Ht) in E as [d' ?]. congruence. }
    destruct (H1 Hp) as [Hm|?]; [|congruence]. exists o, d, po, ro. rewrite upd_other by done. rewrite Hm. done.
Qed.

Lemma upd_writers :
  writer_ok (tr s') (tu s') (writer_wait s') q →
  (∀ u pu ru, u ≠ t → threads s !! u = Some (pu, ru) → writer_ok (tr s) (tu s) (writer_wait s) pu →
     writer_ok (tr s') (tu s') (writer_wait s') pu) →
  (tu s' ≠ 0 → ∃ u ru, threads s' !! u = Some (WWait, ru)) →
  (∀ w, q = UStore w → ∃ d, wmtx s' = Some (w, d)) →
  (∀ u w ru, u ≠ t → threads s !! u = Some (UStore w, ru) → wmtx s' = wmtx s) →
  writers_ok s'.
Proof using Hi Ht Hth.
  intros H1 H2 H3 H4 H5. destruct (v_writers _ Hi) as (Hw & _ & Hs). split_and!.
  - intros u pu ru [(-> & [= -> ->])|(Hne & Hu)]%upd_cases; [done|]. eauto.
  - done.
  - intros u w ru [(-> & [= Hq _])|(Hne & Hu)]%upd_cases; [by apply (H4 w)|].
    rewrite (H5 u w ru Hne Hu). eauto.
Qed.

Lemma upd_local : local_ok q r' → ∀ u pu ru, threads s' !! u = Some (pu, ru) → local_ok pu ru.
Proof using Hi Ht Hth.
  intros Hq u pu ru [(-> & [= -> ->])|(Hne & Hu)]%upd_cases; [done|]. by eapply (v_local _ Hi).
Qed.

(** Threads that have nothing to do with the queue. *)
Definition plain (x : pc) : bool := match x with RWait _ | KAdd _ _ | KNull _ _ _ => false | _ => true end.

Lemma upd_queue queue wk :
  queue_ok (threads s) queue wk → plain p = true → plain q = true → queue_ok (threads s') queue wk.
Proof using Ht Hth.
  intros [H1 H2 H3 H4 H5 H6 H7] Hp Hq.
  assert (∀ u x ru, plain x = false → threads s !! u = Some (x, ru) → threads s' !! u = Some (x, ru)) as Hkeep.
  { intros u x ru Hx Hu. rewrite upd_other; [done|]. intros ->. rewrite Ht in Hu. injection Hu as -> ->. congruence. }
  assert (∀ u x ru, plain x = false → threads s' !! u = Some (x, ru) → threads s !! u = Some (x, ru)) as Hback.
  { intros u x ru Hx [(_ & [= Hxq _])|(_ & Hu)]%upd_cases; [congruence|done]. }
  split.
  - done.
  - intros u [ru Hu]%H2. eauto.
  - intros u ru Hu. apply Hback in Hu as [?|(k & dg & rk & Hk)]%H3; [by left| |done]. right. eauto.
  - intros k dg w rk Hk. apply Hback in Hk as [? [rw ?]]%H4; [|done]. eauto.
  - intros u [ru Hu]%H5. eauto.
  - intros u ru Hu. apply Hback in Hu as [?|(k & dg & n & rk & Hk)]%H6; [by left| |done]. right. eauto 6.
  - intros k dg w n rk Hk. apply Hback in Hk as [? [rw ?]]%H7; [|done]. eauto.
Qed.

End Update.

(** ** The steps *)

(** The limits the assertions of the code stand for: a further reader would fit. *)
Definition room (s : st) : Prop := tr s < 2 ^ 14 - 1 ∧ tq s < 2 ^ 16 - 1.

Lemma owner_range s : owner_ok s → 0 ≤ tw s ≤ 1 ∧ 0 ≤ tp s ≤ 1.
Proof.
  intros [Ho _].
  assert (∀ f : pc → bool, (∀ p, f p = true → owns p = true) →
    0 ≤ total (λ x : thread, b2 (f x.1)) (threads s) ≤ 1) as Hf; [|split; apply Hf; auto using writes_owns, announces_owns].
  intros f Hf. assert (∀ x : thread, 0 ≤ b2 (f x.1)) as Hb by (intros; apply b2_nonneg). split; [by apply total_nonneg|].
  destruct (decide (Exists (λ x : thread, f x.1 = true) (threads s))) as [([p r] & Hin & Hp)%Exists_exists|Hn].
  - apply list_elem_of_lookup in Hin as [t Ht].
    rewrite (total_mine (λ x : thread, b2 (f x.1)) _ t (p, r) Hb Ht); [apply b2_nonneg|].
    intros u [q r'] Hne Hu. cbn in *. destruct (f q) eqn:E; [|done]. destruct Hne.
    apply Hf in E as [d Hd]%(Ho _ _ _ Hu). apply Hf in Hp as [d' Hd']%(Ho _ _ _ Ht). congruence.
  - rewrite (proj2 (total_zero (λ x : thread, b2 (f x.1)) _ Hb)); [lia|]. intros x Hx. destruct (f x.1) eqn:E; [|done].
    destruct Hn. apply Exists_exists. eauto.
Qed.

Lemma counts_nonneg s : 0 ≤ tr s ∧ 0 ≤ tq s ∧ 0 ≤ tu s.
Proof.
  unfold tr, tq, tu. split_and!; apply total_nonneg; intros x; pose proof (b2_nonneg (granted x.1)); pose proof (b2_nonneg (pends x.1));
    pose proof (b2_nonneg (calls x.1)); lia.
Qed.

Lemma room_fields s : owner_ok s → room s → fields (tw s) (tp s) (tr s) (tq s).
Proof.
  intros Ho [H1 H2]. pose proof (owner_range s Ho). pose proof (counts_nonneg s). unfold fields. lia.
Qed.

(** The word after a step, from the changes of its fields. *)
Lemma counted_intro s x :
  owner_ok s → room s → readers s = wrap32 x → x = word (tw s) (tp s) (tr s) (tq s) → counted s.
Proof.
  intros Ho Hr E ->. pose proof (room_fields s Ho Hr) as Hf. split; [|done]. rewrite E. apply wrap32_small.
  by apply word_range.
Qed.

Definition alike (p q : pc) : Prop :=
  writes q = writes p ∧ announces q = announces p ∧ owns q = owns p ∧ pends q = pends p ∧ calls q = calls p ∧ granted q = granted p.

(** A step that is seen by nobody. *)
Lemma base_quiet s t p q r :
  base s → threads s !! t = Some (p, r) → alike p q →
  (once q = true → once p = true) → (∀ k, q ≠ DUnlock k) → p ≠ WWait → (∀ w, q = UStore w → ∃ d, wmtx s = Some (w, d)) →
  writer_ok (tr s) (tu s) (writer_wait s) q → (responds p = true → responds q = true) →
  (stuck q = true → stuck p = true) → local_ok q r → base (go t q r s).
Proof.
  intros Hi Ht (Ew & Ea & Eo & Ep & Ec & Eg) Hon Hdu Hww Hst Hwr Hre Hstk Hlo.
  assert (threads (go t q r s) = <[t := (q, r)]> (threads s)) as Hth by done.
  destruct (upd_totals s (go t q r s) t p q r r Ht Hth) as (Tw & Tp & Tr & Tq & Tu).
  assert (tw (go t q r s) = tw s ∧ tp (go t q r s) = tp s ∧ tr (go t q r s) = tr s ∧ tq (go t q r s) = tq s ∧ tu (go t q r s) = tu s)
    as (Tw' & Tp' & Tr' & Tq' & Tu') by (rewrite Ew, Ea, Ep, Ec, Eg in *; lia).
  split.
  - unfold counted. rewrite Tw', Tp', Tr', Tq'. apply Hi.
  - apply (upd_owner s _ t p q r r Hi Ht Hth); rewrite Eo; intros Hp.
    + split; [by left|]. apply (proj1 (v_owner _ Hi) _ _ _ Ht) in Hp as [d Hd].
      destruct (proj2 (v_owner _ Hi) _ _ Hd) as (p' & r1 & Hp' & Hd1 & Hd2 & _). rewrite Ht in Hp'. injection Hp' as <- <-.
      exists d. split_and!; [done|done|auto|]. intros k ->. by destruct (Hdu k).
    + by right.
  - destruct (v_writers _ Hi) as (_ & Hu & _).
    apply (upd_writers s _ t p q r r Hi Ht Hth); rewrite ?Tr', ?Tu'; try done.
    + intros (u & ru & Hu')%Hu. exists u, ru. rewrite (upd_other s _ t q r Hth); [done|]. intros ->. congruence.
  - apply (upd_waiters s _ t p q r r Hi Ht Hth); [by left| |].
    + intros Hp. left. split; [auto|].
      by apply (proj1 (v_owner _ Hi) _ _ _ Ht), responds_owns.
    + intros Hq. destruct (v_waiters _ Hi t p r Ht (Hstk Hq)) as (o & d & po & ro & Ho & Hpo & Hr).
      exists o, d, po, ro. split_and!; [done| |done]. rewrite (upd_other s _ t q r Hth); [done|]. intros ->.
      rewrite Ht in Hpo. injection Hpo as <- <-. specialize (Hstk Hq). by destruct p.
  - by apply (upd_local s _ t p q r r Hi Ht Hth).
Qed.

(** A step of the owner of the mutex, other than of one that waits for the readers. *)
Lemma base_own s s' t p q r r' d :
  base s → threads s !! t = Some (p, r) → threads s' = <[t := (q, r')]> (threads s) →
  owns p = true → owns q = true → p ≠ WWait ∨ tu s = 0 → calls q = false →
  wmtx s' = Some (t, d) → (1 ≤ d)%nat → (once q = true → d = 1%nat) → (∀ k, q = DUnlock k → d = k) →
  (owner_ok s' → counted s') → writer_ok (tr s') 0 (writer_wait s') q →
  responds q = true ∨ responds p = false ∨ tq s = 0 → local_ok q r' → base s'.
Proof.
  intros Hi Ht Hth Op Oq Hne Cq Em Hd1 Hd2 Hd3 Hc Hw Hre Hlo.
  assert (tu s = 0) as Htu by (destruct Hne; [by eapply (owner_calls s Hi t p r)|done]).
  destruct (upd_totals s s' t p q r r' Ht Hth) as (_ & _ & _ & _ & Tu).
  assert (calls p = false) as Cp by (by destruct p).
  assert (tu s' = 0) as Htu' by (rewrite Cp, Cq in Tu; cbn in Tu; lia).
  assert (owner_ok s') as Ho.
  { apply (upd_owner s s' t p q r r' Hi Ht Hth); rewrite Oq; [|done]. intros _. split; [by left|]. by exists d. }
  split; [by apply Hc|done| | |by apply (upd_local s s' t p q r r' Hi Ht Hth)].
  - apply (upd_writers s s' t p q r r' Hi Ht Hth); rewrite ?Htu'; try done.
    + intros u pu ru Hut Hu _. apply writer_ok_free. destruct (owns pu) eqn:E; [|done]. destruct Hut. by eapply owner_unique.
    + intros w ->. done.
    + intros u w ru _ Hu. by destruct (calls_count s u (UStore w) ru Hu eq_refl).
  - apply (upd_waiters s s' t p q r r' Hi Ht Hth); [by rewrite Op| |].
    + intros Hp. destruct Hre as [?|[?|Hq]]; [left; eauto|congruence|]. right. intros u pu ru _ Hu. by eapply pends_count.
    + intros Hs. by apply stuck_pends in Hs as [_ ?]; congruence.
Qed.

(** Taking the mutex. *)
Lemma base_acquire s t p q r :
  base s → threads s !! t = Some (p, r) → wmtx s = None → owns p = false → owns q = true →
  writes q = false → announces q = false → pends q = pends p → calls q = false → calls p = false → granted q = granted p →
  writer_ok (tr s) 0 (writer_wait s) q → (∀ k, q ≠ DUnlock k) → local_ok q r →
  base (go t q r (set_mutex (Some (t, 1%nat)) s)).
Proof.
  intros Hi Ht Hm Op Oq Wq Aq Ep Cq Cp Eg Hw Hdu Hlo. set (s' := go t q r _).
  assert (threads s' = <[t := (q, r)]> (threads s)) as Hth by done.
  pose proof (free_calls s Hi Hm) as Htu.
  destruct (upd_totals s s' t p q r r Ht Hth) as (Tw & Tp & Tr & Tq & Tu).
  assert (writes p = false) as Wp by (destruct (writes p) eqn:E; [apply writes_owns in E; congruence|done]).
  assert (announces p = false) as Ap by (destruct (announces p) eqn:E; [apply announces_owns in E; congruence|done]).
  assert (tw s' = tw s ∧ tp s' = tp s ∧ tr s' = tr s ∧ tq s' = tq s ∧ tu s' = 0) as (Tw' & Tp' & Tr' & Tq' & Tu')
    by (rewrite Wp, Ap, Wq, Aq, Ep, Cp, Cq, Eg in *; lia).
  split.
  - unfold counted. rewrite Tw', Tp', Tr', Tq'. apply Hi.
  - apply (upd_owner s s' t p q r r Hi Ht Hth); rewrite Oq; [|done]. intros _. split; [by right|].
    exists 1%nat. split_and!; [done|lia|done|]. intros k ->. by destruct (Hdu k).
  - apply (upd_writers s s' t p q r r Hi Ht Hth); rewrite ?Tr', ?Tu'; try done.
    + intros u pu ru Hut Hu _. apply writer_ok_free. destruct (owns pu) eqn:E; [|done].
      apply (proj1 (v_owner _ Hi) _ _ _ Hu) in E as [d ?]. congruence.
    + intros w ->. done.
    + intros u w ru _ Hu. by destruct (calls_count s u (UStore w) ru Hu eq_refl).
  - apply (upd_waiters s s' t p q r r Hi Ht Hth); [by right| |].
    + intros Hp%responds_owns. congruence.
    + intros Hs. by apply stuck_pends in Hs as [_ ?]; congruence.
  - by apply (upd_local s s' t p q r r Hi Ht Hth).
Qed.

(** Giving the mutex back, nobody relying on it. *)
Lemma base_release s t p r :
  base s → threads s !! t = Some (p, r) → owns p = true → writes p = false → announces p = false →
  responds p = false → wmtx (mutex_unlock s) = None → base (go t Out r (mutex_unlock s)).
Proof.
  intros Hi Ht Op Wp Ap Rp Hm. set (s' := go t Out r _).
  assert (s' = go t Out r (set_mutex None s)) as Es.
  { unfold s'. f_equal. unfold mutex_unlock in Hm |- *. destruct (wmtx s) as [[o [|[|d]]]|]; done. }
  assert (threads s' = <[t := (Out, r)]> (threads s)) as Hth by (by rewrite Es).
  assert (calls p = false ∧ pends p = false ∧ granted p = false) as (Cp & Qp & Gp).
  { destruct p as [| | | | | | |[]| | | | | | | | | | | | | | | | | | | | | | | | | |]; done. }
  assert (p ≠ WWait) as Hne by (intros ->; done).
  pose proof (owner_calls s Hi t p r Ht Op Hne) as Htu.
  destruct (upd_totals s s' t p Out r r Ht Hth) as (Tw & Tp & Tr & Tq & Tu).
  rewrite Wp, Ap, Cp, Qp, Gp in *. cbn [b2 writes announces granted pends calls] in *.
  assert (tw s' = tw s ∧ tp s' = tp s ∧ tr s' = tr s ∧ tq s' = tq s ∧ tu s' = 0) as (Tw' & Tp' & Tr' & Tq' & Tu') by lia.
  split.
  - unfold counted. rewrite Tw', Tp', Tr', Tq', Es. apply Hi.
  - apply (upd_owner s s' t p Out r r Hi Ht Hth); [done|]. intros _. left. by rewrite Es.
  - apply (upd_writers s s' t p Out r r Hi Ht Hth); rewrite ?Tr', ?Tu'; try done.
    + intros u pu ru Hut Hu _. apply writer_ok_free. destruct (owns pu) eqn:E; [|done]. destruct Hut. by eapply owner_unique.
    + intros u w ru _ Hu. by destruct (calls_count s u (UStore w) ru Hu eq_refl).
  - apply (upd_waiters s s' t p Out r r Hi Ht Hth); [by rewrite Op|by rewrite Rp|done].
  - by apply (upd_local s s' t p Out r r Hi Ht Hth).
Qed.

(** A step of a thread that does not own the mutex. *)
Lemma base_other s s' t p q r r' :
  base s → threads s !! t = Some (p, r) → threads s' = <[t := (q, r')]> (threads s) →
  wmtx s' = wmtx s →
  owns p = false → owns q = false → (owner_ok s' → counted s') →
  (∀ u pu ru, threads s !! u = Some (pu, ru) → owns pu = true → writer_ok (tr s) (tu s) (writer_wait s) pu →
     writer_ok (tr s') (tu s') (writer_wait s') pu) →
  (tu s' ≠ 0 → ∃ u ru, threads s !! u = Some (WWait, ru)) → (∀ w, q ≠ UStore w) →
  (stuck q = true → ∃ o d po ro, wmtx s = Some (o, d) ∧ threads s !! o = Some (po, ro) ∧ responds po = true) →
  local_ok q r' → base s'.
Proof.
  intros Hi Ht Hth Em Op Oq Hc Hw Hu Hst Hstk Hlo.
  assert (owner_ok s') as Ho.
  { apply (upd_owner s s' t p q r r' Hi Ht Hth); rewrite Oq; [done|]. by right. }
  assert (∀ u pu ru, threads s !! u = Some (pu, ru) → owns pu = true → threads s' !! u = Some (pu, ru)) as Hkeep.
  { intros u pu ru Hpu Hon. rewrite (upd_other s s' t q r' Hth); [done|]. intros ->. congruence. }
  split; [by apply Hc|done| | |by apply (upd_local s s' t p q r r' Hi Ht Hth)].
  - apply (upd_writers s s' t p q r r' Hi Ht Hth).
    + by apply writer_ok_free.
    + intros u pu ru Hut Hpu Hok. destruct (owns pu) eqn:E; [by eapply Hw|by apply writer_ok_free].
    + intros (u & ru & Hu')%Hu. exists u, ru. by apply Hkeep.
    + intros w ->. by destruct (Hst w).
    + done.
  - apply (upd_waiters s s' t p q r r' Hi Ht Hth); [by left| |].
    + intros Hp%responds_owns. congruence.
    + intros (o & d & po & ro & Hm & Hpo & Hr)%Hstk. exists o, d, po, ro. rewrite Em. split_and!; [done| |done].
      apply Hkeep; [done|]. by apply responds_owns.
Qed.

(** *** Readers *)

(** Without the writer's bits there is no writer, and nobody to be woken. *)
Lemma open_free s t p r :
  base s → tw s = 0 → tp s = 0 → threads s !! t = Some (p, r) → writes p = false ∧ announces p = false.
Proof.
  intros Hi Hw Hp Ht. unfold tw, tp in *.
  rewrite total_zero in Hw by (intros; apply b2_nonneg). rewrite total_zero in Hp by (intros; apply b2_nonneg).
  apply list_elem_of_lookup_2 in Ht. specialize (Hw _ Ht). specialize (Hp _ Ht). cbn in *.
  by destruct (writes p), (announces p).
Qed.

Lemma open_calls s : base s → tp s = 0 → tu s = 0.
Proof.
  intros Hi Hp. destruct (decide (tu s = 0)) as [|Hu]; [done|]. destruct (v_writers _ Hi) as (_ & Hw & _).
  destruct (Hw Hu) as (u & ru & Hu'). unfold tp in Hp. rewrite total_zero in Hp by (intros; apply b2_nonneg).
  by specialize (Hp _ (list_elem_of_lookup_2 _ _ _ Hu')).
Qed.

Lemma writer_ok_open a b a' b' w p : writes p = false → announces p = false → writer_ok a b w p → writer_ok a' b' w p.
Proof. destruct p as [| | | | | | | | | | | | | [] | | | [] | [] | | | | | | | | | | | | | | | |]; cbn; congruence || done. Qed.

(** With one of them there is a writer that will see to the readers. *)
Lemma closed_responder s :
  base s → ¬ (tw s = 0 ∧ tp s = 0) →
  ∃ o d po ro, wmtx s = Some (o, d) ∧ threads s !! o = Some (po, ro) ∧ responds po = true.
Proof.
  intros Hi Hn.
  assert (∃ x, x ∈ threads s ∧ (writes x.1 || announces x.1) = true) as ([po ro] & [o Ho]%list_elem_of_lookup & Hx).
  { destruct (decide (Exists (λ x : thread, (writes x.1 || announces x.1) = true) (threads s))) as [He|He].
    - by apply Exists_exists in He.
    - destruct Hn. unfold tw, tp. rewrite !total_zero by (intros; apply b2_nonneg).
      split; intros x Hx; (destruct (writes x.1) eqn:E1, (announces x.1) eqn:E2; try done);
        destruct He; apply Exists_exists; exists x; (split; [done|]); rewrite ?E1, ?E2; done. }
  assert (responds po = true) as Hr by (unfold responds; cbn in Hx; by rewrite Hx).
  pose proof (responds_owns _ Hr) as Hon. apply (proj1 (v_owner _ Hi) _ _ _ Ho) in Hon as [d Hd]. by exists o, d, po, ro.
Qed.

(** A reader gets in. *)
Lemma base_enter s t p r x :
  base s → threads s !! t = Some (p, r) → (∃ try prev, p = RTry try prev) ∨ (∃ prev, p = RTry2 prev) →
  readers s < PENDING_WRITER → x = readers s + READER_LOCK_INC - b2 (pends p) →
  let s' := go t Out (S r) (set_readers x s) in room s' → base s'.
Proof.
  intros Hi Ht Hp Hlt Hx s' Hroom. assert (threads s' = <[t := (Out, S r)]> (threads s)) as Hth by done.
  destruct (upd_totals s s' t p Out r (S r) Ht Hth) as (Tw & Tp & Tr & Tq & Tu).
  rewrite (readers_word s Hi) in Hlt. apply word_open in Hlt as [Hw0 Hp0]; [|by apply fields_ok].
  pose proof (open_calls s Hi Hp0) as Hu0.
  assert (writes p = false ∧ announces p = false ∧ owns p = false ∧ calls p = false ∧ granted p = false)
    as (Wp & Ap & Op & Cp & Gp) by (destruct Hp as [(? & ? & ->)|(? & ->)]; done).
  rewrite Wp, Ap, Cp, Gp in *. cbn [b2 writes announces granted pends calls] in *.
  eapply (base_other s s' t p Out r (S r)); try done.
  - intros Ho. eapply counted_intro; [done|done|done|]. rewrite Hx, (readers_word s Hi). unfold word, READER_LOCK_INC. lia.
  - intros u pu ru Hu _. destruct (open_free s u pu ru Hi Hw0 Hp0 Hu). by apply writer_ok_open.
  - intros Hu. lia.
Qed.

(** A reader announces itself, or gives up trying. *)
Lemma base_pend s t p r prev x :
  base s → threads s !! t = Some (p, r) → (p = RAdd ∧ x = readers s + 1) ∨ ((∃ prev, p = RTry2 prev) ∧ x = readers s) →
  let s1 := set_readers x s in prev = readers s1 → room (rtry2 t r prev s1) → base (rtry2 t r prev s1).
Proof.
  intros Hi Ht Hp s1 Hprev. unfold rtry2.
  assert (writes p = false ∧ announces p = false ∧ owns p = false ∧ calls p = false ∧ granted p = false)
    as (Wp & Ap & Op & Cp & Gp) by (destruct Hp as [(-> & _)|((? & ->) & _)]; done).
  assert (∀ q, pends q = true → owns q = false → calls q = false → granted q = false →
    (stuck q = true → ¬ prev < PENDING_WRITER) → local_ok q r → room (go t q r s1) → base (go t q r s1)) as Hgo.
  { intros q Qq Oq Cq Gq Hst Hlo Hroom. set (s' := go t q r s1) in *.
    assert (threads s' = <[t := (q, r)]> (threads s)) as Hth by done.
    destruct (upd_totals s s' t p q r r Ht Hth) as (Tw & Tp & Tr & Tq & Tu).
    assert (writes q = false) as Wq by (destruct (writes q) eqn:E; [apply writes_owns in E; congruence|done]).
    assert (announces q = false) as Aq by (destruct (announces q) eqn:E; [apply announces_owns in E; congruence|done]).
    rewrite Wp, Ap, Cp, Gp, Wq, Aq, Qq, Cq, Gq in *. cbn [b2] in *.
    assert (x = word (tw s') (tp s') (tr s') (tq s')) as Hx.
    { pose proof (readers_word s Hi) as Hw. unfold word in *.
      destruct Hp as [(-> & ->)|((? & ->) & ->)]; cbn [pends b2] in Tq; lia. }
    assert (counted s' ∧ owner_ok s') as [Hc Ho].
    { assert (owner_ok s') as Ho by (apply (upd_owner s s' t p q r r Hi Ht Hth); rewrite Oq; [done|by right]).
      split; [|done]. by eapply counted_intro. }
    assert (tr s' = tr s ∧ tu s' = tu s) as [Tr' Tu'] by lia.
    eapply (base_other s s' t p q r r); try done.
    - intros u pu ru Hu _. by rewrite Tr', Tu'.
    - rewrite Tu'. apply (v_writers _ Hi).
    - intros w ->. done.
    - intros Hq. apply closed_responder; [done|]. intros [Hw0 Hp0]. apply (Hst Hq).
      rewrite Hprev. change (readers s1) with (readers s'). destruct Hc as [-> Hf]. apply word_open; [done|]. lia. }
  destruct (Z.ltb_spec prev PENDING_WRITER); apply Hgo; try done; lia.
Qed.

(** A reader leaves; the last one sees to a writer that waits. *)
Lemma base_leave s t r :
  base s → threads s !! t = Some (Out, r) → (1 ≤ r)%nat → room (runlock t r s) → base (runlock t r s).
Proof.
  intros Hi Ht Hr. pose proof (fields_ok s Hi) as Hf. pose proof (readers_word s Hi) as Hrw.
  assert (∀ x : thread, 0 ≤ Z.of_nat x.2 + b2 (granted x.1)) as Hb by (intros x; pose proof (b2_nonneg (granted x.1)); lia).
  pose proof (total_ge (λ x : thread, Z.of_nat x.2 + b2 (granted x.1)) _ _ _ Hb Ht) as [_ Htr]. cbn in Htr.
  change (Z.of_nat r + 0 ≤ tr s) in Htr.
  assert (tw s = 0) as Hw0.
  { unfold tw. rewrite total_zero by (intros; apply b2_nonneg). intros [pu ru] [u Hu]%list_elem_of_lookup. cbn.
    destruct (writes pu) eqn:E; [|done]. pose proof (proj1 (v_writers _ Hi) u pu ru Hu) as Hok.
    assert (tr s = 0); [|lia].
    destruct pu as [| | | | | | | | | | | | |[]| | |[]|[]| | | | | | | | | | | | | | | |]; cbn in E, Hok; try done; by apply Hok. }
  assert ((0 <? readers s) && (readers s <? WRITER_LOCK) = true) as Ea.
  { rewrite Hrw. apply andb_true_intro. rewrite !Z.ltb_lt. unfold word, fields, WRITER_LOCK in *. lia. }
  assert (Z.land (readers s) READERS_MASK = tr s * 2 ^ 16 ∧ Z.land (readers s) PENDING_WRITER = tp s * 2 ^ 30) as [Er Ep].
  { rewrite Hrw. split; [by apply word_readers|by apply word_pending]. }
  unfold runlock. rewrite Ea, Er, Ep.
  assert (∀ q, owns q = false → writes q = false → announces q = false → pends q = false → granted q = false →
    stuck q = false → local_ok q (r - 1) → (∀ w, q ≠ UStore w) →
    (∀ u ru, threads s !! u = Some (WWait, ru) → calls q = true ∧ tr s = 1 ∨ calls q = false ∧ 1 < tr s) →
    (calls q = true → ∃ u ru, threads s !! u = Some (WWait, ru)) →
    let s' := go t q (r - 1) (set_readers (readers s - READER_LOCK_INC) s) in room s' → base s') as Hgo.
  { intros q Oq Wq Aq Qq Gq Sq Hlo HU Hww Hcall s' Hroom.
    assert (threads s' = <[t := (q, (r - 1)%nat)]> (threads s)) as Hth by done.
    destruct (upd_totals s s' t Out q r (r - 1) Ht Hth) as (Tw & Tp & Tr & Tq & Tu).
    rewrite Wq, Aq, Qq, Gq in *. cbn [b2 writes announces granted pends calls] in *.
    eapply (base_other s s' t Out q r (r - 1)); try done.
    - intros Ho. eapply counted_intro; [done|done|done|]. rewrite Hrw. unfold word, READER_LOCK_INC. lia.
    - intros u pu ru Hu Hown Hok.
      destruct pu as [| | | | | | | | | | | | |[]| | |[]|[]| | | | | | | | | | | | | | | |]; cbn [writer_ok writes] in Hok |- *; try done; try lia.
      change (writer_wait s') with (writer_wait s). destruct (writer_wait s) eqn:Eww; [|lia]. destruct (Hww u ru Hu) as [[Hc ?]|[Hc ?]]; rewrite Hc in Tu; cbn [b2] in Tu.
      + right. destruct Hok as [[? ?]|[? ?]]; lia.
      + left. destruct Hok as [[? ?]|[? ?]]; lia.
    - intros Hu. destruct (calls q) eqn:Ec; [by apply Hcall|]. cbn [b2] in Tu. apply (v_writers _ Hi). lia.
    - by rewrite Sq. }
  assert (∀ u ru, threads s !! u = Some (WWait, ru) → tp s = 1) as Hpend.
  { intros u ru Hu. apply (owner_bits s Hi u WWait ru Hu eq_refl). }
  destruct (Z.eqb_spec (tr s * 2 ^ 16) READER_LOCK_INC) as [E1|E1]; cbn [andb].
  - assert (tr s = 1) as Htr1 by (unfold READER_LOCK_INC in E1; lia).
    destruct (Z.eqb_spec (tp s * 2 ^ 30) 0) as [E2|E2]; cbn [negb]; apply Hgo; try done.
    + intros u ru Hu%Hpend. lia.
    + intros u ru _. left. done.
    + intros _. destruct (closed_responder s Hi) as (o & d & po & ro & Hm & Ho & Hre); [lia|]. exists o, ro. rewrite Ho. f_equal. f_equal.
      destruct (owner_bits s Hi o po ro Ho (responds_owns _ Hre)) as [_ Hap].
      pose proof (proj1 (v_writers _ Hi) o po ro Ho) as Hok. destruct po; cbn in Hap, Hok; try lia; done.
  - apply Hgo; try done. intros u ru Hu. right. split; [done|].
    unfold READER_LOCK_INC in E1. lia.
Qed.

(** The writer that waits is told. *)
Lemma base_tell s t w r : base s → threads s !! t = Some (UStore w, r) → room (go t (UWake w) r (set_wait false s)) →
  base (go t (UWake w) r (set_wait false s)).
Proof.
  intros Hi Ht Hroom. set (s' := go t (UWake w) r (set_wait false s)) in *.
  assert (threads s' = <[t := (UWake w, r)]> (threads s)) as Hth by done.
  destruct (upd_totals s s' t (UStore w) (UWake w) r r Ht Hth) as (Tw & Tp & Tr & Tq & Tu).
  cbn [b2 writes announces granted pends calls] in *.
  pose proof (calls_count s t (UStore w) r Ht eq_refl) as Hne.
  destruct (proj1 (proj2 (v_writers _ Hi)) Hne) as (o & ro & Ho).
  pose proof (proj1 (v_writers _ Hi) o WWait ro Ho) as Hok. cbn in Hok.
  assert (tr s = 0 ∧ tu s = 1) as [Htr Htu] by (destruct (writer_wait s); lia).
  eapply (base_other s s' t (UStore w) (UWake w) r r); try done.
  - intros Hon. destruct (v_count _ Hi) as [Hc _]. split; [|by apply room_fields].
    change (readers s') with (readers s). rewrite Hc. unfold word. lia.
  - intros u pu ru Hu Hown _. assert (u = o) as -> by (by eapply owner_unique). rewrite Ho in Hu. injection Hu as <- <-.
    cbn [writer_ok]. change (writer_wait s') with false. cbv iota. lia.
  - intros Hu. lia.
Qed.

(** *** The operations, step by step *)

Ltac quiet Hi Ht := apply (base_quiet _ _ _ _ _ Hi Ht); [by split_and!|try done..].

Lemma base_queue s l : base s → base (set_queue l s).
Proof. intros []. by split. Qed.

Lemma base_woken s w : base s → base (set_woken w s).
Proof. intros []. by split. Qed.

(** The assertions of [rlock] hold while there is room. *)
Lemma room_asserts s :
  inv s → room s →
  (Z.land READERS_MASK (readers s) + READER_LOCK_INC <? PENDING_WRITER) = true ∧
  (Z.land PENDING_READERS_MASK (readers s) + 1 <? READER_LOCK_INC) = true.
Proof.
  intros [Hi _] [H1 H2]. rewrite !(Z.land_comm _ (readers s)), (readers_word s Hi).
  rewrite word_readers, word_waiting by (by apply fields_ok). rewrite !Z.ltb_lt.
  unfold READER_LOCK_INC, PENDING_WRITER. lia.
Qed.

Lemma rtry_base s t p r try :
  inv s → room s → threads s !! t = Some (p, r) → p = Out ∨ (∃ prev, p = RTry try prev) → base (rtry t r try (readers s) s).
Proof.
  intros Hi Hr Ht Hp. destruct (room_asserts s Hi Hr) as [_ Ha]. destruct Hi as [Hi _].
  unfold rtry. rewrite Ha. destruct (Z.ltb_spec (readers s) PENDING_WRITER); [|destruct try];
    destruct Hp as [->|[prev ->]]; quiet Hi Ht.
Qed.

Lemma rlock_base s t r try : inv s → room s → threads s !! t = Some (Out, r) → base (rlock t r try s).
Proof.
  intros Hi Hr Ht. unfold rlock. rewrite (proj1 (room_asserts s Hi Hr)). eapply rtry_base; eauto.
Qed.

Lemma set_readers_id s : base s → set_readers (readers s) s = s.
Proof.
  intros Hi. destruct s as [rd ww m l w ths] eqn:Es. unfold set_readers. cbn. f_equal. apply wrap32_small.
  change rd with (readers (mk rd ww m l w ths)). rewrite <- Es in *. rewrite (readers_word s Hi). by apply word_range, fields_ok.
Qed.

(** A reader the lock was taken for goes on. *)
Lemma base_wakes s t r : base s → threads s !! t = Some (RWait true, r) → base (go t Out (S r) s).
Proof.
  intros Hi Ht. set (s' := go t Out (S r) s). assert (threads s' = <[t := (Out, S r)]> (threads s)) as Hth by done.
  destruct (upd_totals s s' t _ Out r (S r) Ht Hth) as (Tw & Tp & Tr & Tq & Tu).
  cbn [b2 writes announces granted pends calls] in *.
  assert (tw s' = tw s ∧ tp s' = tp s ∧ tr s' = tr s ∧ tq s' = tq s ∧ tu s' = tu s) as (Tw' & Tp' & Tr' & Tq' & Tu') by lia.
  apply (base_other s s' t (RWait true) Out r (S r)); try done.
  - intros _. unfold counted. rewrite Tw', Tp', Tr', Tq'. apply Hi.
  - intros u pu ru Hu _. by rewrite Tr', Tu'.
  - rewrite Tu'. apply (v_writers _ Hi).
Qed.

Lemma rlock_step_base s s' t p r :
  inv s → room s → room s' → threads s !! t = Some (p, r) → rlock_step t p r s = Some s' → base s'.
Proof.
  intros Hi Hr Hr' Ht Hs. pose proof Hi as [Hb Hq]. pose proof (v_local _ Hb t p r Ht) as Hlo.
  destruct p as [| | |try prev| |prev| |g| | | | | | | | | | | | | | | | | | | | | | | | | |]; try done; cbn in Hs, Hlo.
  - destruct (Z.eqb_spec (readers s) prev) as [<-|]; injection Hs as <-; [|eapply rtry_base; eauto].
    eapply (base_enter s t _ r); eauto. cbn. lia.
  - injection Hs as <-. eapply base_pend; eauto.
  - destruct (Z.eqb_spec (readers s) prev) as [<-|]; injection Hs as <-.
    + eapply (base_enter s t _ r); eauto.
    + rewrite <- (set_readers_id s Hb) in Hr' |- *. eapply base_pend; eauto.
  - injection Hs as <-. apply (base_queue (go t (RWait false) r s)). quiet Hb Ht.
  - case_decide as Hw; [|done]. injection Hs as <-. apply (base_woken (go t Out (S r) s)).
    destruct (q_woken _ _ _ Hq t Hw) as [r0 Hr0]. rewrite Ht in Hr0. injection Hr0 as -> ->. by apply base_wakes.
Qed.

Lemma runlock_step_base s s' t p r :
  inv s → room s' → threads s !! t = Some (p, r) → runlock_step t p r s = Some s' → base s'.
Proof.
  intros [Hb Hq] Hr' Ht Hs.
  destruct p as [| | | | | | | | |w|w| | | | | | | | | | | | | | | | | | | | | | |]; try done; cbn in Hs; injection Hs as <-.
  - pose proof (calls_count s t UOwner r Ht eq_refl) as Hne.
    destruct (proj1 (proj2 (v_writers _ Hb)) Hne) as (o & ro & Ho).
    destruct (proj1 (proj1 (v_owner _ Hb) _ _ _ Ho) eq_refl) as [d Hd]. rewrite Hd.
    quiet Hb Ht. intros w [= <-]. by exists d.
  - by apply base_tell.
  - quiet Hb Ht.
Qed.

(** The depth of the owner. *)
Lemma owner_mutex s t p r :
  base s → threads s !! t = Some (p, r) → owns p = true →
  ∃ d, wmtx s = Some (t, d) ∧ (1 ≤ d)%nat ∧ (once p = true → d = 1%nat) ∧ ∀ k, p = DUnlock k → d = k.
Proof.
  intros Hi Ht Hp. apply (proj1 (v_owner _ Hi) _ _ _ Ht) in Hp as [d Hd]. exists d. split; [done|].
  destruct (proj2 (v_owner _ Hi) _ _ Hd) as (p' & r' & Hp' & ?). rewrite Ht in Hp'. by injection Hp' as <- <-.
Qed.

Lemma unlock_once s t : wmtx s = Some (t, 1%nat) → wmtx (mutex_unlock s) = None.
Proof. intros E. unfold mutex_unlock. by rewrite E. Qed.

(** The owner of the mutex writes the word: from the fields [w p r q] it makes the new
    ones. *)
Lemma base_write s t p q r r' x d :
  let s' := go t q r' (set_readers x s) in
  base s → threads s !! t = Some (p, r) → owns p = true → owns q = true → p ≠ WWait → calls q = false → pends q = false →
  wmtx s = Some (t, d) → (1 ≤ d)%nat → (once q = true → d = 1%nat) → (∀ k, q = DUnlock k → d = k) → room s' →
  (∀ tr', tr' = tr s - (Z.of_nat r + b2 (granted p)) + (Z.of_nat r' + b2 (granted q)) →
     x = word (b2 (writes q)) (b2 (announces q)) tr' (tq s) ∧ writer_ok tr' 0 (writer_wait s) q) →
  responds q = true ∨ responds p = false ∨ tq s = 0 → local_ok q r' → base s'.
Proof.
  intros s' Hi Ht Op Oq Hne Cq Qq Em Hd1 Hd2 Hd3 Hroom Hx Hre Hlo.
  assert (threads s' = <[t := (q, r')]> (threads s)) as Hth by done.
  destruct (upd_totals s s' t p q r r' Ht Hth) as (Tw & Tp & Tr & Tq & _).
  destruct (owner_bits s Hi t p r Ht Op) as [Bw Bp].
  assert (pends p = false) as Qp by (destruct p as [| | | | | | |[]| | | | | | | | | | | | | | | | | | | | | | | | | |]; done).
  rewrite Qp, Qq in Tq. cbn [b2] in Tq. destruct (Hx _ Tr) as [Ex Hok].
  apply (base_own s s' t p q r r' d); auto.
  intros Ho. eapply counted_intro; [done|done|done|]. rewrite Ex. f_equal; lia.
Qed.

Lemma try_step_base s s' t p r :
  inv s → room s' → threads s !! t = Some (p, r) → try_step t p r s = Some s' → base s'.
Proof.
  intros [Hi Hq] Hr' Ht Hs. pose proof (v_local _ Hi t p r Ht) as Hlo.
  assert (owns p = true) as Op by (by destruct p).
  destruct (owner_mutex s t p r Hi Ht Op) as (d & Hd & Hd1 & Hd2 & Hd3).
  destruct (owner_bits s Hi t p r Ht Op) as [Bw Bp]. pose proof (fields_ok s Hi) as Hf. pose proof (readers_word s Hi) as Hw.
  pose proof (counts_nonneg s) as Hnn.
  destruct p as [| | | | | | | | | | | |prev|rec|prev| | | | | | | | | | | | | | | | | | |]; try done; cbn in Hs, Hlo, Bw, Bp.
  - injection Hs as <-. destruct (Z.eqb_spec (Z.land (readers s) IND_READ_MASK) READER_LOCK_INC); quiet Hi Ht.
  - destruct (Z.eqb_spec (readers s) prev) as [<-|]; injection Hs as <-; [|quiet Hi Ht]. destruct Hlo as [Hr Hl].
    rewrite Hw, word_ind in Hl by done. unfold READER_LOCK_INC in Hl.
    assert (∀ x : thread, 0 ≤ Z.of_nat x.2 + b2 (granted x.1)) as Hb by (intros x; pose proof (b2_nonneg (granted x.1)); lia).
    pose proof (total_ge (λ x : thread, Z.of_nat x.2 + b2 (granted x.1)) _ _ _ Hb Ht) as [_ Htr]. cbn in Htr.
    change (Z.of_nat r + 0 ≤ tr s) in Htr.
    eapply (base_write s t (GCas (readers s)) WHeld r (r - 1)); eauto; try done.
    intros tr' ->. cbn [granted b2 writes announces]. rewrite Hw at 1. rewrite word_taken by done.
    split; [f_equal; lia|]. cbn. lia.
  - assert (Z.land (readers s) WRITER_LOCK = tw s * 2 ^ 31 ∧ Z.land (readers s) READERS_MASK = tr s * 2 ^ 16) as [Ewr Erd].
    { rewrite Hw. split; [by apply word_writer|by apply word_readers]. }
    rewrite Ewr, Erd in Hs. destruct rec; cbn [b2] in Bw; rewrite Bw in Hs.
    + change (1 * 2 ^ 31 =? 0) with false in Hs. rewrite andb_false_r in Hs. injection Hs as <-. quiet Hi Ht.
      apply (proj1 (v_writers _ Hi) _ _ _ Ht).
    + change (0 * 2 ^ 31 =? 0) with true in Hs. rewrite andb_true_r in Hs.
      destruct (Z.eqb_spec (tr s * 2 ^ 16) 0) as [E|E]; injection Hs as <-; quiet Hi Ht. cbn [local_ok]. by rewrite Erd.
  - destruct (Z.eqb_spec (readers s) prev) as [<-|]; injection Hs as <-; [|quiet Hi Ht].
    rewrite Hw, word_readers in Hlo by done.
    eapply (base_write s t (TCas (readers s)) WHeld r r); eauto; try done.
    intros tr' ->. cbn [granted b2 writes announces]. rewrite Hw at 1. rewrite word_taken by done.
    split; [f_equal; lia|]. cbn. lia.
  - injection Hs as <-. eapply base_release; eauto. apply (unlock_once s t). by rewrite Hd, (Hd2 eq_refl).
Qed.

(** Taking the mutex once more. *)
Lemma base_deeper s t p q r d :
  base s → threads s !! t = Some (p, r) → owns p = true → owns q = true → wmtx s = Some (t, d) → alike p q → p ≠ WWait →
  once q = false → (∀ k, q ≠ DUnlock k) → writer_ok (tr s) 0 (writer_wait s) q → responds q = true → local_ok q r →
  base (go t q r (set_mutex (Some (t, S d)) s)).
Proof.
  intros Hi Ht Op Oq Em (Ew & Ea & Eo & Ep & Ec & Eg) Hne Hon Hdu Hw Hre Hlo. set (s' := go t q r _).
  assert (threads s' = <[t := (q, r)]> (threads s)) as Hth by done.
  destruct (upd_totals s s' t p q r r Ht Hth) as (Tw & Tp & Tr & Tq & _). rewrite Ew, Ea, Ep, Eg in *.
  assert (tw s' = tw s ∧ tp s' = tp s ∧ tr s' = tr s ∧ tq s' = tq s) as (Tw' & Tp' & Tr' & Tq') by lia.
  apply (base_own s s' t p q r r (S d)); rewrite ?Tr'; auto; try done; try lia.
  - rewrite Ec. by destruct p.
  - congruence.
  - intros k ->. by destruct (Hdu k).
  - intros _. unfold counted. rewrite Tw', Tp', Tr', Tq'. apply Hi.
Qed.

(** The owner of the mutex writes [_writer_wait]. *)
Lemma base_wait s t p q r b d :
  let s' := go t q r (set_wait b s) in
  base s → threads s !! t = Some (p, r) → owns p = true → owns q = true → wmtx s = Some (t, d) → (1 ≤ d)%nat →
  alike p q → p ≠ WWait → once q = false → (∀ k, q ≠ DUnlock k) → writer_ok (tr s) 0 b q →
  responds q = true ∨ responds p = false → local_ok q r → base s'.
Proof.
  intros s' Hi Ht Op Oq Em Hd (Ew & Ea & Eo & Ep & Ec & Eg) Hne Hon Hdu Hw Hre Hlo.
  assert (threads s' = <[t := (q, r)]> (threads s)) as Hth by done.
  destruct (upd_totals s s' t p q r r Ht Hth) as (Tw & Tp & Tr & Tq & _). rewrite Ew, Ea, Ep, Eg in *.
  assert (tw s' = tw s ∧ tp s' = tp s ∧ tr s' = tr s ∧ tq s' = tq s) as (Tw' & Tp' & Tr' & Tq') by lia.
  apply (base_own s s' t p q r r d); rewrite ?Tr'; auto; try done.
  - rewrite Ec. by destruct p.
  - congruence.
  - intros k ->. by destruct (Hdu k).
  - intros _. unfold counted. rewrite Tw', Tp', Tr', Tq'. apply Hi.
  - tauto.
Qed.

Lemma wlock_step_base s s' t p r :
  inv s → room s' → threads s !! t = Some (p, r) → wlock_step t p r s = Some s' → base s'.
Proof.
  intros [Hi Hq] Hr' Ht Hs. pose proof (proj1 (v_writers _ Hi) _ _ _ Ht) as Hok.
  pose proof (fields_ok s Hi) as Hf. pose proof (readers_word s Hi) as Hw.
  destruct (owns p) eqn:Op.
  2: { destruct p as [| | | | | | | | | | | | | | | |[]| | | | | | | | | | | | | | | | |]; try done. cbn in Hs.
       unfold mutex_try_lock in Hs. destruct (wmtx s) as [[o d]|] eqn:Em.
       - case_decide as Ho; [|done]. subst o. assert (owns (WLock false) = true) as ?; [|done].
         apply (proj1 (v_owner _ Hi) _ _ _ Ht). eauto.
       - injection Hs as <-. by apply (base_acquire s t (WLock false) (WCheck false) r). }
  destruct (owner_mutex s t p r Hi Ht Op) as (d & Hd & Hd1 & Hd2 & Hd3).
  destruct (owner_bits s Hi t p r Ht Op) as [Bw Bp].
  destruct p as [| | | | | | | | | | | | | | | |rec|rec| | |prev| | | | | | | | | | | | |]; try done; cbn in Hs, Bw, Bp, Hok.
  - destruct rec; [|done]. unfold mutex_try_lock in Hs. rewrite Hd, decide_True in Hs by done. injection Hs as <-.
    apply (base_deeper s t (WLock true) (WCheck true) r d); try done.
  - assert (Z.land (readers s) WRITER_LOCK = tw s * 2 ^ 31) as Ewr by (rewrite Hw; by apply word_writer).
    rewrite Ewr in Hs. destruct rec; cbn [b2] in Bw; rewrite Bw in Hs; injection Hs as <-; quiet Hi Ht.
  - injection Hs as <-. eapply (base_wait s t WSet WOr r true d); try done. by right.
  - injection Hs as <-. rewrite Hw, word_or in * by done.
    assert (Z.land (word (tw s) 1 (tr s) (tq s)) READERS_MASK = tr s * 2 ^ 16) as Erd.
    { apply word_readers. unfold fields in *. lia. }
    unfold wtry in *. rewrite Erd in *. destruct (Z.eqb_spec (tr s * 2 ^ 16) 0) as [E|E].
    + eapply (base_write s t WOr (WCas _) r r); eauto; try done. intros tr' ->. cbn [granted b2 writes announces writer_ok].
      split; [f_equal; lia|lia].
    + eapply (base_write s t WOr WWait r r); eauto; try done. intros tr' ->. cbn [granted b2 writes announces writer_ok].
      rewrite Hok. pose proof (counts_nonneg s). split; [f_equal; lia|lia].
  - destruct (Z.eqb_spec (readers s) prev) as [<-|]; injection Hs as <-.
    + eapply (base_write s t (WCas _) WClear r r); eauto; try done. intros tr' ->. cbn [granted b2 writes announces writer_ok].
      rewrite Hw at 1. rewrite word_taken by done. split; [f_equal; lia|]. cbn. lia.
    + assert (Z.land (readers s) READERS_MASK = tr s * 2 ^ 16) as Erd by (rewrite Hw; by apply word_readers).
      unfold wtry. rewrite Erd, (proj1 Hok). cbn [Z.mul Z.eqb]. quiet Hi Ht.
  - injection Hs as <-. eapply (base_wait s t WClear WHeld r false d); try done. by left.
  - destruct (writer_wait s) eqn:Eww; [done|]. injection Hs as <-.
    set (s' := go t WAdd r s). assert (threads s' = <[t := (WAdd, r)]> (threads s)) as Hth by done.
    destruct (upd_totals s s' t WWait WAdd r r Ht Hth) as (Tw & Tp & Tr & Tq & _). cbn [granted b2 writes announces pends] in *.
    assert (tw s' = tw s ∧ tp s' = tp s ∧ tr s' = tr s ∧ tq s' = tq s) as (Tw' & Tp' & Tr' & Tq') by lia.
    apply (base_own s s' t WWait WAdd r r d); rewrite ?Tr'; auto; try done; [right; lia| |cbn; lia].
    intros _. unfold counted. rewrite Tw', Tp', Tr', Tq'. apply Hi.
  - injection Hs as <-. eapply (base_write s t WAdd WHeld r r); eauto; try done. intros tr' ->.
    cbn [granted b2 writes announces writer_ok]. rewrite Hw. unfold word, PENDING_WRITER. split; [lia|cbn; lia].
Qed.

(** The head of the loop over the pending readers: with none left it is done. *)
Lemma wake_base s t p r dg :
  base s → threads s !! t = Some (p, r) → p = KLoad dg ∨ (p = DLoad ∧ dg = true) →
  base (wake_pending_readers t r dg (Z.land (readers s) PENDING_READERS_MASK) s).
Proof.
  intros Hi Ht Hp. pose proof (readers_word s Hi) as Hw.
  assert (Z.land (readers s) PENDING_READERS_MASK = tq s) as -> by (rewrite Hw; by apply word_waiting, fields_ok).
  unfold wake_pending_readers. destruct (Z.eqb_spec (tq s) 0) as [E|E].
  2: { destruct Hp as [->|[-> ->]]; [destruct dg|]; quiet Hi Ht. }
  assert (owns p = true) as Op by (destruct Hp as [->|[-> _]]; done).
  destruct (owner_mutex s t p r Hi Ht Op) as (d & Hd & Hd1 & Hd2 & _).
  set (q := if dg then DUnlock (depth s) else XUnlock). set (s' := go t q r s).
  assert (threads s' = <[t := (q, r)]> (threads s)) as Hth by done.
  destruct (upd_totals s s' t p q r r Ht Hth) as (Tw & Tp & Tr & Tq & _).
  assert (alike p q) as (Ew & Ea & Eo & Ep & Ec & Eg) by (unfold q; destruct Hp as [->|[-> ->]]; [destruct dg|]; by split_and!).
  rewrite Ew, Ea, Ep, Eg in *.
  assert (tw s' = tw s ∧ tp s' = tp s ∧ tr s' = tr s ∧ tq s' = tq s) as (Tw' & Tp' & Tr' & Tq') by lia.
  apply (base_own s s' t p q r r d); rewrite ?Tr'; auto.
  - congruence.
  - left. destruct Hp as [->|[-> _]]; done.
  - rewrite Ec. destruct Hp as [->|[-> _]]; done.
  - unfold q. destruct dg; [done|]. intros _. apply Hd2. destruct Hp as [->|[_ ?]]; done.
  - unfold q, depth. rewrite Hd. destruct dg; congruence.
  - intros _. unfold counted. rewrite Tw', Tp', Tr', Tq'. apply Hi.
  - unfold q. by destruct dg.
  - unfold q. by destruct dg.
Qed.

(** The lock is taken for a reader that waits. *)
Lemma base_grant s t w r rw dg :
  base s → threads s !! t = Some (KAdd dg w, r) → threads s !! w = Some (RWait false, rw) →
  let s1 := go w (RWait true) rw (set_readers (readers s + (READER_LOCK_INC - 1)) s) in
  room s1 → base s1 ∧ 0 < tq s.
Proof.
  intros Hi Ht Hw s1 Hroom. assert (threads s1 = <[w := (RWait true, rw)]> (threads s)) as Hth by done.
  destruct (upd_totals s s1 w _ (RWait true) rw rw Hw Hth) as (Tw & Tp & Tr & Tq & Tu).
  cbn [granted b2 writes announces pends calls] in *.
  destruct (owner_bits s Hi t _ r Ht eq_refl) as [Bw Bp]. cbn in Bw, Bp.
  pose proof (open_calls s Hi Bp) as Hu. pose proof (counts_nonneg s1) as Hnn. split; [|lia].
  apply (base_other s s1 w (RWait false) (RWait true) rw rw); try done.
  - intros Ho. eapply counted_intro; [done|done|done|]. rewrite (readers_word s Hi). unfold word, READER_LOCK_INC. lia.
  - intros u pu ru Hpu _. destruct (open_free s u pu ru Hi Bw Bp Hpu). by apply writer_ok_open.
  - intros Hne. lia.
Qed.

Lemma wake_step_base s s' t p r :
  inv s → room s' → threads s !! t = Some (p, r) → wake_step t p r s = Some s' → base s'.
Proof.
  intros [Hi Hq] Hr' Ht Hs. pose proof (v_local _ Hi t p r Ht) as Hlo.
  destruct p as [| | | | | | | | | | | | | | | | | | | | | | | | | |dg|dg|dg w|dg w n|dg w n| | |]; try done; cbn [wake_step] in Hs.
  - destruct (read_waiters s) as [|w l]; injection Hs as <-.
    + quiet Hi Ht.
    + apply (base_queue (go t (KAdd dg w) r s)). quiet Hi Ht.
  - injection Hs as <-. eapply wake_base; eauto.
  - destruct (q_add _ _ _ Hq _ _ _ _ Ht) as [_ [rw Hw]]. rewrite Hw in Hs. injection Hs as <-.
    set (s1 := go w (RWait true) rw (set_readers (readers s + (READER_LOCK_INC - 1)) s)) in *.
    assert (t ≠ w) as Hne by (intros ->; congruence).
    assert (threads s1 !! t = Some (KAdd dg w, r)) as Ht1 by (unfold s1; cbn; by rewrite list_lookup_insert_ne).
    assert (Z.land (readers s) PENDING_READERS_MASK = tq s) as En.
    { rewrite (readers_word s Hi). by apply word_waiting, fields_ok. }
    assert (room s1) as Hr1.
    { set (q := KNull dg w (Z.land (readers s) PENDING_READERS_MASK)) in *.
      destruct (upd_totals s1 (go t q r s1) t _ q r r Ht1 eq_refl) as (_ & _ & Tr & Tq & _).
      change (granted q) with false in Tr. change (pends q) with false in Tq. cbn [granted b2 pends] in Tr, Tq. unfold room in *. lia. }
    destruct (base_grant s t w r rw dg Hi Ht Hw Hr1) as [Hb1 Hpos]. fold s1 in Hb1. quiet Hb1 Ht1. cbn. lia.
  - injection Hs as <-. apply (base_woken (go t (KWake dg w n) r s)). quiet Hi Ht.
  - injection Hs as <-. unfold wake_pending_readers. cbn in Hlo. rewrite (proj2 (Z.eqb_neq n 0) Hlo). quiet Hi Ht.
Qed.

Lemma release_step_base s s' t p r :
  inv s → room s' → threads s !! t = Some (p, r) → release_step t p r s = Some s' → base s'.
Proof.
  intros [Hi Hq] Hr' Ht Hs. assert (owns p = true) as Op by (by destruct p).
  destruct (owner_mutex s t p r Hi Ht Op) as (d & Hd & Hd1 & Hd2 & Hd3).
  destruct (owner_bits s Hi t p r Ht Op) as [Bw Bp]. pose proof (fields_ok s Hi) as Hf. pose proof (readers_word s Hi) as Hw.
  pose proof (proj1 (v_writers _ Hi) _ _ _ Ht) as Hok.
  destruct p as [| | | | | | | | | | | | | | | | | | | | | | | |  | | | | | | |prev| |k]; try done; cbn [release_step] in Hs; cbn in Bw, Bp, Hok.
  - injection Hs as <-. specialize (Hok eq_refl).
    assert (Z.land (readers s) PENDING_READERS_MASK = tq s) as En by (rewrite Hw; by apply word_waiting).
    assert (not_writer (readers s) = word 0 0 0 (tq s)) as Ex by (rewrite Hw, word_not_writer by done; f_equal; lia).
    unfold wake_pending_readers in *. rewrite En, Ex in *. destruct (Z.eqb_spec (tq s) 0) as [E|E].
    + eapply (base_write s t XAnd XUnlock r r); eauto; try done. intros tr' ->. cbn [granted b2 writes announces writer_ok].
      split; [f_equal; lia|done].
    + eapply (base_write s t XAnd (KPop false) r r); eauto; try done. intros tr' ->. cbn [granted b2 writes announces writer_ok].
      split; [f_equal; lia|done].
  - injection Hs as <-. eapply base_release; eauto. apply (unlock_once s t). by rewrite Hd, (Hd2 eq_refl).
  - destruct (Z.eqb_spec (readers s) prev) as [<-|]; injection Hs as <-; [|quiet Hi Ht]. specialize (Hok eq_refl).
    eapply (base_write s t (DCas _) DLoad r (S r)); eauto; try done. intros tr' ->. cbn [granted b2 writes announces writer_ok].
    rewrite Hw at 1. rewrite word_not_writer by done. unfold word, READER_LOCK_INC. split; [lia|done].
  - injection Hs as <-. eapply wake_base; eauto.
  - specialize (Hd3 k eq_refl). subst d. destruct k as [|[|k]]; [lia| |]; injection Hs as <-.
    + eapply base_release; eauto. by apply (unlock_once s t).
    + assert (mutex_unlock s = set_mutex (Some (t, S k)) s) as -> by (unfold mutex_unlock; by rewrite Hd).
      set (s' := go t _ r _). assert (threads s' = <[t := (DUnlock (S k), r)]> (threads s)) as Hth by done.
      destruct (upd_totals s s' t _ (DUnlock (S k)) r r Ht Hth) as (Tw & Tp & Tr & Tq & _). cbn [granted b2 writes announces pends] in *.
      assert (tw s' = tw s ∧ tp s' = tp s ∧ tr s' = tr s ∧ tq s' = tq s) as (Tw' & Tp' & Tr' & Tq') by lia.
      apply (base_own s s' t (DUnlock (S (S k))) (DUnlock (S k)) r r (S k)); rewrite ?Tr'; auto; try done; [lia|congruence|].
      intros _. unfold counted. rewrite Tw', Tp', Tr', Tq'. apply Hi.
Qed.

(** A thread that is outside does not own the mutex. *)
Lemma out_mutex s t r o d : base s → threads s !! t = Some (Out, r) → wmtx s = Some (o, d) → o ≠ t.
Proof.
  intros Hi Ht Hm ->. assert (owns Out = true) as ?; [|done]. apply (proj1 (v_owner _ Hi) _ _ _ Ht). eauto.
Qed.

Lemma wunlock_base s t r : base s → threads s !! t = Some (WHeld, r) → base (wunlock t r s).
Proof.
  intros Hi Ht. destruct (owner_mutex s t _ r Hi Ht eq_refl) as (d & Hd & Hd1 & _).
  destruct (owner_bits s Hi t _ r Ht eq_refl) as [Bw Bp]. cbn in Bw, Bp.
  pose proof (proj1 (v_writers _ Hi) _ _ _ Ht eq_refl) as Hok. pose proof (readers_word s Hi) as Hw.
  assert (Z.land (readers s) WRITER_LOCK = tw s * 2 ^ 31) as Ewr by (rewrite Hw; by apply word_writer, fields_ok).
  unfold wunlock. rewrite Ewr, Bw. change (1 * 2 ^ 31 =? 0) with false. cbv iota.
  assert (depth s = d) as Ed by (unfold depth; by rewrite Hd). rewrite Ed.
  assert (∀ q s', q = WHeld ∨ (q = XAnd ∧ d = 1%nat) → threads s' = <[t := (q, r)]> (threads s) → readers s' = readers s →
    (∃ d', wmtx s' = Some (t, d') ∧ (1 ≤ d')%nat ∧ (once q = true → d' = 1%nat)) → base s') as Hgo.
  { intros q s' Hq Hth Er (d' & Hd' & Hd1' & Hon).
    destruct (upd_totals s s' t _ q r r Ht Hth) as (Tw & Tp & Tr & Tq & _).
    assert (tw s' = tw s ∧ tp s' = tp s ∧ tr s' = tr s ∧ tq s' = tq s) as (Tw' & Tp' & Tr' & Tq')
      by (destruct Hq as [->|[-> _]]; cbn [granted b2 writes announces pends] in *; lia).
    apply (base_own s s' t WHeld q r r d'); rewrite ?Tr'; auto; try done.
    - destruct Hq as [->|[-> _]]; done.
    - destruct Hq as [->|[-> _]]; done.
    - intros k ->. destruct Hq as [?|[? _]]; done.
    - intros _. unfold counted. rewrite Er, Tw', Tp', Tr', Tq'. apply Hi.
    - destruct Hq as [->|[-> _]]; cbn; auto.
    - left. destruct Hq as [->|[-> _]]; done.
    - destruct Hq as [->|[-> _]]; done. }
  case_decide as Hdep.
  - destruct d as [|[|d]]; [lia|lia|]. apply (Hgo WHeld); [by left| | |]; unfold mutex_unlock; rewrite Hd; try done.
    exists (S d). cbn. split_and!; [done|lia|done].
  - apply (Hgo XAnd); [right; split; [done|lia]|done|done|]. exists d. split_and!; [done|done|lia].
Qed.

Lemma call_base s s' t o : inv s → room s → room s' → call t o s = Some s' → base s'.
Proof.
  intros Hi Hr Hr' Hs. unfold call in Hs. destruct (threads s !! t) as [[p r]|] eqn:Ht; [|done]. cbn [mbind option_bind] in Hs.
  pose proof Hi as [Hb _].
  destruct o, p; try done.
  - injection Hs as <-. by apply rlock_base.
  - injection Hs as <-. by apply rlock_base.
  - destruct r as [|r]; [done|]. injection Hs as <-. apply base_leave; [done|done|lia|done].
  - destruct r as [|r]; [done|]. injection Hs as <-. unfold try_upgrade, mutex_try_lock.
    destruct (wmtx s) as [[o d]|] eqn:Em.
    + rewrite decide_False by (by eapply out_mutex). quiet Hb Ht.
    + apply (base_acquire s t Out GLoad (S r)); try done. cbn. lia.
  - destruct r as [|r]; [|done]. injection Hs as <-. unfold try_wlock, mutex_try_lock.
    destruct (wmtx s) as [[o d]|] eqn:Em.
    + rewrite decide_False by (by eapply out_mutex). quiet Hb Ht.
    + by apply (base_acquire s t Out (TLoad false) 0).
  - injection Hs as <-. destruct (owner_mutex s t _ r Hb Ht eq_refl) as (d & Hd & Hd1 & _).
    unfold try_wlock, mutex_try_lock. rewrite Hd, decide_True by done.
    apply (base_deeper s t WHeld (TLoad true) r d); try done. apply (proj1 (v_writers _ Hb) _ _ _ Ht).
  - destruct r as [|r]; [|done]. injection Hs as <-. quiet Hb Ht.
  - injection Hs as <-. quiet Hb Ht. apply (proj1 (v_writers _ Hb) _ _ _ Ht).
  - injection Hs as <-. by apply wunlock_base.
  - injection Hs as <-. destruct (owner_bits s Hb t _ r Ht eq_refl) as [Bw _]. cbn in Bw.
    unfold downgrade. rewrite (proj1 (room_asserts s Hi Hr)).
    rewrite (readers_word s Hb) at 1. rewrite word_writer, Bw by (by apply fields_ok). cbn [Z.mul Z.eqb Z.pow].
    change (1 * 2 ^ 31 =? 0) with false. cbv iota. quiet Hb Ht. apply (proj1 (v_writers _ Hb) _ _ _ Ht).
Qed.

Lemma advance_base s s' t : inv s → room s → room s' → advance t s = Some s' → base s'.
Proof.
  intros Hi Hr Hr' Hs. unfold advance in Hs. destruct (threads s !! t) as [[p r]|] eqn:Ht; [|done]. cbn [mbind option_bind] in Hs.
  destruct p; try done;
    eauto using rlock_step_base, runlock_step_base, try_step_base, wlock_step_base, wake_step_base, release_step_base.
Qed.

(** *** The queue *)

(** All steps but those of the queue itself leave it alone. *)
Lemma advance_plain s s' t p r :
  threads s !! t = Some (p, r) → advance t s = Some s' → plain p = true → p ≠ RPush → (∀ dg, p ≠ KPop dg) →
  ∃ q r', threads s' = <[t := (q, r')]> (threads s) ∧ plain q = true ∧ read_waiters s' = read_waiters s ∧ woken s' = woken s.
Proof.
  intros Ht Hs Hp H1 H2. unfold advance in Hs. rewrite Ht in Hs. cbn [mbind option_bind] in Hs.
  assert (∀ s, threads (mutex_unlock s) = threads s ∧ read_waiters (mutex_unlock s) = read_waiters s ∧ woken (mutex_unlock s) = woken s) as Hun.
  { intros x. unfold mutex_unlock. repeat case_match; done. }
  destruct p; try done; cbn in Hs; unfold rtry, rtry2, wtry, mutex_try_lock, wake_pending_readers in Hs;
    repeat case_match; simplify_eq/=; try (by destruct (H2 dg));
    (eexists _, _; split; [cbn; rewrite ?(proj1 (Hun _)); reflexivity|split_and!; cbn; try apply Hun; done]).
Qed.

Lemma call_plain s s' t o :
  call t o s = Some s' →
  ∃ p r q r', threads s !! t = Some (p, r) ∧ threads s' = <[t := (q, r')]> (threads s) ∧ plain p = true ∧ plain q = true ∧
    read_waiters s' = read_waiters s ∧ woken s' = woken s.
Proof.
  intros Hs. unfold call in Hs. destruct (threads s !! t) as [[p r]|] eqn:Ht; [|done]. cbn [mbind option_bind] in Hs.
  assert (∀ s, threads (mutex_unlock s) = threads s ∧ read_waiters (mutex_unlock s) = read_waiters s ∧ woken (mutex_unlock s) = woken s) as Hun.
  { intros x. unfold mutex_unlock. repeat case_match; done. }
  destruct o, p; try done;
    unfold rlock, rtry, runlock, try_upgrade, try_wlock, mutex_try_lock, wunlock, downgrade in Hs;
    repeat case_match; simplify_eq/=;
    (eexists _, _, _, _; split; [reflexivity|split; [cbn; rewrite ?(proj1 (Hun _)); reflexivity|split_and!; cbn; try apply Hun; done]]).
Qed.

Section Queue.
Context (s : st) (t : nat) (p : pc) (r : nat) (Ht : threads s !! t = Some (p, r)).
Context (Hq : queue_ok (threads s) (read_waiters s) (woken s)).

Lemma thread_other u q r' : u ≠ t → <[t := (q, r')]> (threads s) !! u = threads s !! u.
Proof. intros. by apply list_lookup_insert_ne. Qed.

Lemma thread_mine q r' : <[t := (q, r')]> (threads s) !! t = Some (q, r').
Proof using Ht. apply list_lookup_insert_eq. by apply lookup_lt_Some in Ht. Qed.

Lemma thread_cases u q r' x :
  <[t := (q, r')]> (threads s) !! u = Some x → (u = t ∧ x = (q, r')) ∨ (u ≠ t ∧ threads s !! u = Some x).
Proof using Ht.
  destruct (decide (u = t)) as [->|Hne]; [rewrite thread_mine; intros [= <-]; by left|].
  rewrite thread_other by done. by right.
Qed.

Lemma queue_enlist : p = RPush → queue_ok (<[t := (RWait false, r)]> (threads s)) (read_waiters s ++ [t]) (woken s).
Proof using Ht Hq.
  intros Ep. destruct Hq as [H1 H2 H3 H4 H5 H6 H7].
  assert (∀ u x ru, threads s !! u = Some (x, ru) → x ≠ RPush → u ≠ t) as Hne by (intros u x ru Hu Hx ->; congruence).
  split.
  - apply NoDup_app. split_and!; [done| |apply NoDup_singleton].
    intros u [ru Hu]%H2 ->%list_elem_of_singleton. congruence.
  - intros u [[ru Hu]%H2| ->%list_elem_of_singleton]%elem_of_app; [|exists r; apply thread_mine].
    exists ru. rewrite thread_other; [done|]. by eapply Hne.
  - intros u ru [(-> & _)|(Hut & Hu)]%thread_cases; [left; apply elem_of_app; right; by left|].
    destruct (H3 u ru Hu) as [?|(k & dg & rk & Hk)]; [left; apply elem_of_app; by left|]. right.
    exists k, dg, rk. rewrite thread_other; [done|]. by eapply Hne.
  - intros k dg w rk [(_ & [=])|(Hkt & Hk)]%thread_cases. destruct (H4 _ _ _ _ Hk) as [Hw [rw Hrw]].
    assert (w ≠ t) as Hwt by (by eapply Hne). split; [|exists rw; by rewrite thread_other].
    rewrite elem_of_app, list_elem_of_singleton. tauto.
  - intros u [ru Hu]%H5. exists ru. rewrite thread_other; [done|]. by eapply Hne.
  - intros u ru [(_ & [=])|(Hut & Hu)]%thread_cases. destruct (H6 _ _ Hu) as [?|(k & dg & n & rk & Hk)]; [by left|]. right.
    exists k, dg, n, rk. rewrite thread_other; [done|]. by eapply Hne.
  - intros k dg w n rk [(_ & [=])|(Hkt & Hk)]%thread_cases. destruct (H7 _ _ _ _ _ Hk) as [Hw [rw Hrw]].
    split; [done|]. exists rw. rewrite thread_other; [done|]. by eapply Hne.
Qed.

Lemma queue_pop dg w l :
  p = KPop dg → read_waiters s = w :: l → queue_ok (<[t := (KAdd dg w, r)]> (threads s)) l (woken s).
Proof using Ht Hq.
  intros Ep El. destruct Hq as [H1 H2 H3 H4 H5 H6 H7]. rewrite El in H1, H2, H3, H4. apply NoDup_cons in H1 as [Hw H1].
  assert (∀ u x ru, threads s !! u = Some (x, ru) → x ≠ KPop dg → u ≠ t) as Hne by (intros u x ru Hu Hx ->; congruence).
  destruct (H2 w ltac:(elem)) as [rw Hrw]. split.
  - done.
  - intros u Hu. destruct (H2 u ltac:(by right)) as [ru Hru]. exists ru. rewrite thread_other; [done|]. by eapply Hne.
  - intros u ru [(_ & [=])|(Hut & Hu)]%thread_cases.
    destruct (H3 u ru Hu) as [[->|?]%elem_of_cons|(k & dg' & rk & Hk)]; [|by left|].
    + right. exists t, dg, r. apply thread_mine.
    + right. exists k, dg', rk. rewrite thread_other; [done|]. by eapply Hne.
  - intros k dg' w' rk [(-> & [= -> -> ->])|(Hkt & Hk)]%thread_cases.
    + split; [done|]. exists rw. rewrite thread_other; [done|]. by eapply Hne.
    + destruct (H4 _ _ _ _ Hk) as [Hw' [rw' Hrw']]. split; [set_solver|]. exists rw'. rewrite thread_other; [done|]. by eapply Hne.
  - intros u [ru Hu]%H5. exists ru. rewrite thread_other; [done|]. by eapply Hne.
  - intros u ru [(_ & [=])|(Hut & Hu)]%thread_cases. destruct (H6 _ _ Hu) as [?|(k & dg' & n & rk & Hk)]; [by left|]. right.
    exists k, dg', n, rk. rewrite thread_other; [done|]. by eapply Hne.
  - intros k dg' w' n rk [(_ & [=])|(Hkt & Hk)]%thread_cases. destruct (H7 _ _ _ _ _ Hk) as [Hw' [rw' Hrw']].
    split; [done|]. exists rw'. rewrite thread_other; [done|]. by eapply Hne.
Qed.

(** The reader [w] was taken off the queue by [t], and by nobody else. *)
Lemma queue_grant dg w n rw :
  p = KAdd dg w → threads s !! w = Some (RWait false, rw) → (∀ k dg' w' rk, threads s !! k = Some (KAdd dg' w', rk) → k = t) →
  queue_ok (<[t := (KNull dg w n, r)]> (<[w := (RWait true, rw)]> (threads s))) (read_waiters s) (woken s).
Proof using Ht Hq.
  intros Ep Hw Huniq. destruct Hq as [H1 H2 H3 H4 H5 H6 H7].
  assert (w ≠ t) as Hwt by (intros ->; congruence).
  set (l := <[t := _]> _). pose proof (lookup_lt_Some _ _ _ Ht) as Hlt. pose proof (lookup_lt_Some _ _ _ Hw) as Hlw.
  assert (l !! t = Some (KNull dg w n, r)) as Lt by (apply list_lookup_insert_eq; by rewrite length_insert).
  assert (l !! w = Some (RWait true, rw)) as Lw by (unfold l; rewrite list_lookup_insert_ne by done; by apply list_lookup_insert_eq).
  assert (∀ u, u ≠ t → u ≠ w → l !! u = threads s !! u) as Lo by (intros u ? ?; unfold l; by rewrite !list_lookup_insert_ne).
  assert (∀ u x, l !! u = Some x → (u = t ∧ x = (KNull dg w n, r)) ∨ (u = w ∧ x = (RWait true, rw)) ∨ (u ≠ t ∧ u ≠ w ∧ threads s !! u = Some x)) as Lc.
  { intros u x Hu. destruct (decide (u = t)) as [->|]; [left; split; [done|congruence]|].
    destruct (decide (u = w)) as [->|]; [right; left; split; [done|congruence]|]. right. right. rewrite Lo in Hu; done. }
  assert (w ∉ read_waiters s) as Hnq by (rewrite Ep in Ht; by apply (H4 _ _ _ _ Ht)).
  assert (∀ u x ru, threads s !! u = Some (x, ru) → x ≠ KAdd dg w → x ≠ RWait false → l !! u = Some (x, ru)) as Lk.
  { intros u x ru Hu Hx1 Hx2. rewrite Lo; [done|intros ->; congruence..]. }
  split.
  - done.
  - intros u Hu. destruct (H2 u Hu) as [ru Hru]. exists ru. rewrite Lo; [done|intros ->; congruence|by intros ->].
  - intros u ru [(_ & [=])|[(_ & [=])|(Hut & Huw & Hu)]]%Lc. left.
    destruct (H3 u ru Hu) as [?|(k & dg' & rk & Hk)]; [done|]. pose proof (Huniq _ _ _ _ Hk) as ->. congruence.
  - intros k dg' w' rk [(_ & [=])|[(_ & [=])|(Hkt & _ & Hk)]]%Lc. by destruct Hkt; eapply Huniq.
  - intros u Hu. destruct (H5 u Hu) as [ru Hru]. exists ru. by apply Lk.
  - intros u ru [(_ & [=])|[(-> & _)|(Hut & Huw & Hu)]]%Lc; [right; by exists t, dg, n, r|].
    destruct (H6 _ _ Hu) as [?|(k & dg' & n' & rk & Hk)]; [by left|]. right. exists k, dg', n', rk. by apply Lk.
  - intros k dg' w' n' rk [(-> & [= -> -> -> ->])|[(_ & [=])|(Hkt & _ & Hk)]]%Lc.
    + split; [|by exists rw]. intros [ru Hru]%H5. congruence.
    + destruct (H7 _ _ _ _ _ Hk) as [Hw' [rw' Hrw']]. split; [done|]. exists rw'. by apply Lk.
Qed.

Lemma queue_null dg w n :
  p = KNull dg w n → (∀ k dg' w' n' rk, threads s !! k = Some (KNull dg' w' n', rk) → k = t) →
  queue_ok (<[t := (KWake dg w n, r)]> (threads s)) (read_waiters s) ({[w]} ∪ woken s).
Proof using Ht Hq.
  intros Ep Huniq. destruct Hq as [H1 H2 H3 H4 H5 H6 H7].
  assert (∀ u x ru, threads s !! u = Some (x, ru) → x ≠ KNull dg w n → u ≠ t) as Hne by (intros u x ru Hu Hx ->; congruence).
  assert (∃ rw, threads s !! w = Some (RWait true, rw)) as [rw Hrw] by (rewrite Ep in Ht; by apply (H7 _ _ _ _ _ Ht)).
  split.
  - done.
  - intros u [ru Hu]%H2. exists ru. rewrite thread_other; [done|]. by eapply Hne.
  - intros u ru [(_ & [=])|(Hut & Hu)]%thread_cases. destruct (H3 u ru Hu) as [?|(k & dg' & rk & Hk)]; [by left|]. right.
    exists k, dg', rk. rewrite thread_other; [done|]. by eapply Hne.
  - intros k dg' w' rk [(_ & [=])|(Hkt & Hk)]%thread_cases. destruct (H4 _ _ _ _ Hk) as [Hw' [rw' Hrw']].
    split; [done|]. exists rw'. rewrite thread_other; [done|]. by eapply Hne.
  - intros u [->%elem_of_singleton|[ru Hu]%H5]%elem_of_union; [exists rw|exists ru]; (rewrite thread_other; [done|]); by eapply Hne.
  - intros u ru [(_ & [=])|(Hut & Hu)]%thread_cases. left. destruct (H6 _ _ Hu) as [?|(k & dg' & n' & rk & Hk)]; [set_solver|].
    pose proof (Huniq _ _ _ _ _ Hk) as ->. rewrite Ht, Ep in Hk. injection Hk as -> -> -> ->. set_solver.
  - intros k dg' w' n' rk [(_ & [=])|(Hkt & Hk)]%thread_cases. by destruct Hkt; eapply Huniq.
Qed.

Lemma queue_wake : t ∈ woken s → queue_ok (<[t := (Out, S r)]> (threads s)) (read_waiters s) (woken s ∖ {[t]}).
Proof using Ht Hq.
  intros Hw. destruct Hq as [H1 H2 H3 H4 H5 H6 H7]. destruct (H5 t Hw) as [r0 Hr0].
  assert (∀ u x ru, threads s !! u = Some (x, ru) → x ≠ RWait true → u ≠ t) as Hne by (intros u x ru Hu Hx ->; congruence).
  split.
  - done.
  - intros u [ru Hu]%H2. exists ru. rewrite thread_other; [done|]. by eapply Hne.
  - intros u ru [(_ & [=])|(Hut & Hu)]%thread_cases. destruct (H3 u ru Hu) as [?|(k & dg' & rk & Hk)]; [by left|]. right.
    exists k, dg', rk. rewrite thread_other; [done|]. by eapply Hne.
  - intros k dg' w' rk [(_ & [=])|(Hkt & Hk)]%thread_cases. destruct (H4 _ _ _ _ Hk) as [Hw' [rw' Hrw']].
    split; [done|]. exists rw'. rewrite thread_other; [done|]. by eapply Hne.
  - intros u [[ru Hu]%H5 Hut]%elem_of_difference. exists ru. rewrite thread_other; [done|]. set_solver.
  - intros u ru [(_ & [=])|(Hut & Hu)]%thread_cases. destruct (H6 _ _ Hu) as [?|(k & dg' & n' & rk & Hk)]; [left; set_solver|].
    right. exists k, dg', n', rk. rewrite thread_other; [done|]. by eapply Hne.
  - intros k dg' w' n' rk [(_ & [=])|(Hkt & Hk)]%thread_cases. destruct (H7 _ _ _ _ _ Hk) as [Hw' [rw' Hrw']].
    split; [set_solver|]. exists rw'. rewrite thread_other; [done|]. intros ->. by destruct Hw'.
Qed.

End Queue.

Lemma advance_queue s s' t : inv s → advance t s = Some s' → queue_ok (threads s') (read_waiters s') (woken s').
Proof.
  intros [Hb Hq] Hs. destruct (threads s !! t) as [[p r]|] eqn:Ht; [|unfold advance in Hs; by rewrite Ht in Hs].
  assert (∀ k q rk, threads s !! k = Some (q, rk) → owns p = true → owns q = true → k = t) as Huniq
    by (intros; by eapply (owner_unique s Hb)).
  assert (plain p = true → p ≠ RPush → (∀ dg : bool, p ≠ KPop dg) → queue_ok (threads s') (read_waiters s') (woken s')) as Hplain.
  { intros Hp H1 H2. destruct (advance_plain s s' t p r Ht Hs Hp H1 H2) as (q & r' & Hth & Hpq & Eq & Ew). rewrite Eq, Ew.
    by eapply (upd_queue s s' t p q r r'). }
  unfold advance in Hs. rewrite Ht in Hs. cbn [mbind option_bind] in Hs.
  destruct p; try (by apply Hplain); clear Hplain; cbn in Hs.
  - injection Hs as <-. by apply (queue_enlist s t RPush r).
  - case_decide; [|done]. injection Hs as <-. by eapply (queue_wake s t _ r).
  - destruct (read_waiters s) as [|w l] eqn:El; injection Hs as <-.
    + cbn. rewrite El. eapply (upd_queue s (go t (KLoad dg) r s) t _ _ r r); done.
    + rewrite <- El in Hq. by eapply (queue_pop s t _ r).
  - destruct (threads s !! w) as [[pw rw]|] eqn:Hw; [|done]. injection Hs as <-.
    destruct (q_add _ _ _ Hq _ _ _ _ Ht) as [_ [rw' Hrw']]. rewrite Hw in Hrw'. injection Hrw' as -> ->.
    eapply (queue_grant s t _ r); try done. intros k dg' w' rk Hk. by eapply Huniq.
  - injection Hs as <-. eapply (queue_null s t _ r); try done. intros k dg' w' n' rk Hk. by eapply Huniq.
Qed.

(** ** Runs *)

(** A step of a thread or a call, with room for a further reader after it.  The code
    checks the bound on the readers only against the first value it reads, so runs
    without that room exist, see [rwlock_overflow]. *)
Definition calm (s s' : st) : Prop := step s s' ∧ room s'.

Lemma calm_preserves s s' : inv s → room s → calm s s' → inv s'.
Proof.
  intros Hi Hr [[[t Ha]|(t & o & Hc)] Hr'].
  - split; [by eapply advance_base|by eapply advance_queue].
  - split; [by eapply call_base|]. destruct (call_plain s s' t o Hc) as (p & r & q & r' & Ht & Hth & Hp & Hq & Eq & Ew).
    rewrite Eq, Ew. eapply (upd_queue s s' t p q r r'); try done. apply Hi.
Qed.

Lemma start_total n f : f (Out, 0%nat) = 0 → total f (threads (start n)) = 0.
Proof. intros Hf. unfold start. cbn [threads]. induction n as [|n IH]; [done|]. cbn [replicate]. rewrite total_cons, IH, Hf. done. Qed.

Lemma start_thread n t p r : threads (start n) !! t = Some (p, r) → p = Out ∧ r = 0%nat.
Proof. intros [[= -> ->] _]%lookup_replicate. done. Qed.

Lemma start_room n : room (start n).
Proof. unfold room, tr, tq. rewrite !start_total by done. lia. Qed.

Lemma rw_start_inv n : inv (start n).
Proof.
  assert (tw (start n) = 0 ∧ tp (start n) = 0 ∧ tr (start n) = 0 ∧ tq (start n) = 0 ∧ tu (start n) = 0) as (Ew & Ep & Er & Eq & Eu)
    by (split_and!; by apply start_total).
  split; split.
  - unfold counted. rewrite Ew, Ep, Er, Eq. unfold fields. split; [done|lia].
  - split; [|done]. intros t p r [-> ->]%start_thread. split; [done|by intros [? ?]].
  - unfold writers_ok. rewrite Eu. split_and!; [|done|]; intros t p r; [by intros [-> ->]%start_thread|].
    intros [? _]%start_thread. done.
  - intros t p r [-> ->]%start_thread. done.
  - intros t p r [-> ->]%start_thread. done.
  - constructor.
  - set_solver.
  - intros t r [? _]%start_thread. done.
  - intros k dg w rk [? _]%start_thread. done.
  - set_solver.
  - intros t r [? _]%start_thread. done.
  - intros k dg w m rk [? _]%start_thread. done.
Qed.

Lemma calm_inv n s : rtc calm (start n) s → inv s ∧ room s.
Proof.
  intros Hr. remember (start n) as s0 eqn:E. assert (inv s0 ∧ room s0) as H by (subst; split; [apply rw_start_inv|apply start_room]).
  clear E. induction Hr as [|s0 s1 s2 H1 _ IH]; [done|]. apply IH. destruct H as [Hi Hm]. split; [by eapply calm_preserves|apply H1].
Qed.

(** The locks held for reading. *)
Lemma no_readers s : tr s = 0 ↔ ∀ t p r, threads s !! t = Some (p, r) → r = 0%nat ∧ p ≠ RWait true.
Proof.
  unfold tr. assert (∀ x : thread, 0 ≤ Z.of_nat x.2 + b2 (granted x.1)) as Hf by (intros x; pose proof (b2_nonneg (granted x.1)); lia).
  rewrite (total_zero _ _ Hf). split.
  - intros H t p r Ht. assert ((p, r) ∈ threads s) as Hin by (by eapply list_elem_of_lookup_2). specialize (H _ Hin). cbn in H.
    pose proof (b2_nonneg (granted p)). split; [lia|]. intros ->. cbn in H. lia.
  - intros H [p r] [t Ht]%list_elem_of_lookup. destruct (H t p r Ht) as [-> Hp]. destruct p as [| | | | | | |[]| | | | | | | | | | | | | | | | | | | | | | | | | |]; done.
Qed.

Lemma readers_field s : inv s → has_readers s = false ↔ tr s = 0.
Proof.
  intros [Hb _]. unfold has_readers. rewrite (readers_word s Hb), (word_readers _ _ _ _ (fields_ok s Hb)), negb_false_iff, Z.eqb_eq. lia.
Qed.

(** A thread that cannot go on, in a state with no thread that can, waits for a
    holder of the lock. *)
Lemma still_owner s t p r :
  inv s → (∀ t, advance t s = None) → threads s !! t = Some (p, r) → owns p = true → p = WHeld ∨ (p = WWait ∧ writer_wait s = true).
Proof.
  intros [Hb Hq] Hn Ht Hp. specialize (Hn t). unfold advance in Hn. rewrite Ht in Hn. cbn [mbind option_bind] in Hn.
  destruct (proj1 (v_owner _ Hb) _ _ _ Ht) as [[d Hd] _]; [done|].
  destruct p; try done; cbn in Hn; try (by left); repeat case_match; try done.
  - unfold mutex_try_lock in Hn. rewrite Hd in Hn. by case_decide.
  - right. by split.
  - destruct (q_add _ _ _ Hq _ _ _ _ Ht) as [_ [rw Hrw]]. congruence.
Qed.

Lemma no_calls s : (∀ t, advance t s = None) → tu s = 0.
Proof.
  intros Hn. unfold tu. apply total_zero; [intros; apply b2_nonneg|]. intros [p r] [t Ht]%list_elem_of_lookup.
  specialize (Hn t). unfold advance in Hn. rewrite Ht in Hn. cbn [mbind option_bind] in Hn. by destruct p.
Qed.

Lemma no_grants s t r : inv s → (∀ t, advance t s = None) → threads s !! t ≠ Some (RWait true, r).
Proof.
  intros [Hb Hq] Hn Ht. destruct (q_granted _ _ _ Hq _ _ Ht) as [Hw|(k & dg & n & rk & Hk)].
  - specialize (Hn t). unfold advance in Hn. rewrite Ht in Hn. cbn in Hn. by rewrite decide_True in Hn.
  - specialize (Hn k). unfold advance in Hn. rewrite Hk in Hn. done.
Qed.

Lemma still_holder s o p r :
  inv s → (∀ t, advance t s = None) → threads s !! o = Some (p, r) → owns p = true →
  ∃ u pu ru, threads s !! u = Some (pu, ru) ∧ (pu = WHeld ∨ (0 < ru)%nat).
Proof.
  intros Hi Hn Ho Hp. destruct (still_owner s o p r Hi Hn Ho Hp) as [->|[-> Hw]]; [eauto 6|].
  pose proof (proj1 (v_writers _ (proj1 Hi)) _ _ _ Ho) as Hk. cbn in Hk. rewrite Hw, (no_calls s Hn) in Hk.
  destruct (decide (Exists (λ x : thread, (0 < x.2)%nat) (threads s))) as [[[pu ru] [Hin Hr]]%Exists_exists|Hne].
  - apply list_elem_of_lookup in Hin as [u Hu]. eauto 6.
  - assert (tr s = 0); [|lia]. apply no_readers. intros u pu ru Hu. split; [|intros ->; by eapply no_grants].
    destruct ru; [done|]. destruct Hne. apply Exists_exists. exists (pu, S ru). split; [by eapply list_elem_of_lookup_2|]. cbn. lia.
Qed.

(** ** Examples of runs *)

(** A run of the given calls ([Some o]) and steps ([None]) of the given threads. *)
Fixpoint run (l : list (nat * option op)) (s : st) : option st :=
  match l with
  | [] => Some s
  | (t, o) :: l => s ← match o with Some o => call t o s | None => advance t s end; run l s
  end.

Lemma run_steps l s s' : run l s = Some s' → rtc step s s'.
Proof.
  revert s. induction l as [|[t o] l IH]; intros s H; [injection H as <-; done|]. cbn in H.
  apply bind_Some in H as (s1 & H1 & H). apply rtc_l with s1; [|by apply IH].
  destruct o; [right; eauto|left; by exists t].
Qed.

#[global] Instance pc_eq_dec : EqDecision pc.
Proof. solve_decision. Defined.

#[global] Instance room_dec s : Decision (room s).
Proof. unfold room. apply _. Defined.

Fixpoint run_calm (l : list (nat * option op)) (s : st) : option st :=
  match l with
  | [] => Some s
  | (t, o) :: l => s ← match o with Some o => call t o s | None => advance t s end; if decide (room s) then run_calm l s else None
  end.

Lemma run_calm_steps l s s' : run_calm l s = Some s' → rtc calm s s'.
Proof.
  revert s. induction l as [|[t o] l IH]; intros s H; [injection H as <-; done|]. cbn in H.
  apply bind_Some in H as (s1 & H1 & H). case_decide; [|done]. apply rtc_l with s1; [|by apply IH].
  split; [|done]. destruct o; [right; eauto|left; by exists t].
Qed.

(** ** Theorems *)

(** C10: However the threads interleave, with at most 16382 read locks and 65534
    waiting readers at a time: a thread that has the lock for writing owns it, no
    other has it for writing and none for reading, and [has_readers] says no;
    [has_readers] says no exactly when no thread has the lock for reading; and no
    assertion of the lock fails. *)
Theorem rwlock_excludes n s :
  rtc calm (start n) s →
  (∀ t r, threads s !! t = Some (WHeld, r) →
     wowned t s = true ∧ has_readers s = false ∧ ∀ u p ru, threads s !! u = Some (p, ru) → ru = 0%nat ∧ (p = WHeld → u = t)) ∧
  (has_readers s = false ↔ ∀ t p r, threads s !! t = Some (p, r) → r = 0%nat ∧ p ≠ RWait true) ∧
  ∀ t r, threads s !! t ≠ Some (Abort, r).
Proof.
  intros [Hi Hr]%calm_inv. pose proof Hi as [Hb Hq]. split_and!.
  - intros t r Ht. assert (tr s = 0) as H0 by (by apply (proj1 (v_writers _ Hb) _ _ _ Ht)). split_and!.
    + destruct (proj1 (v_owner _ Hb) _ _ _ Ht) as [[d Hd] _]; [done|]. unfold wowned. rewrite Hd. by apply bool_decide_eq_true.
    + by apply readers_field.
    + intros u p ru Hu. split; [by eapply (proj1 (no_readers s) H0)|]. intros ->. by eapply (owner_unique s Hb t u).
  - by rewrite (readers_field s Hi), no_readers.
  - intros t r Ht. by apply (v_local _ Hb _ _ _ Ht).
Qed.

(** C11: Nobody is forgotten, as long as there are at most 16382 read locks and 65534
    waiting readers at a time: if no thread can take a step and one of them is inside
    an operation, some thread has the lock, for writing or for reading; so once
    all locks are given back, every reader and every writer that asked gets on. *)
Theorem rwlock_live n s t p r :
  rtc calm (start n) s → (∀ t, advance t s = None) → threads s !! t = Some (p, r) → p ≠ Out →
  ∃ u pu ru, threads s !! u = Some (pu, ru) ∧ (pu = WHeld ∨ (0 < ru)%nat).
Proof.
  intros [Hi Hr]%calm_inv Hn Ht Hp. pose proof Hi as [Hb Hq].
  destruct (owns p) eqn:Ho; [by eapply still_holder|].
  destruct (stuck p) eqn:Hs.
  { destruct (v_waiters _ Hb _ _ _ Ht Hs) as (o & d & po & ro & _ & Hpo & Hre). eapply still_holder; eauto. by apply responds_owns. }
  pose proof (Hn t) as Hnt. unfold advance in Hnt. rewrite Ht in Hnt. cbn [mbind option_bind] in Hnt.
  destruct p as [| | | | | | |[]| | | | | | | | |[]| | | | | | | | | | | | | | | | |]; try done; cbn in Hnt; repeat case_match; try done.
  - by apply (v_local _ Hb) in Ht.
  - by destruct (no_grants s t r Hi Hn).
  - unfold mutex_try_lock in Hnt. destruct (wmtx s) as [[o d]|] eqn:Hm; [|done].
    destruct (proj2 (v_owner _ Hb) _ _ Hm) as (po & ro & Hpo & _). eapply still_holder; eauto.
    apply (proj1 (v_owner _ Hb) _ _ _ Hpo). eauto.
Qed.

(** C39: The bound on the number of readers is checked against a value that may be
    old by the time the reader is counted: the thread 0 has 16382 read locks, 1 and
    2 pass the check together, and the second of them carries over into the
    writers' bit; 3 then gets the lock for writing beside 16384 readers. *)
Theorem rwlock_overflow :
  ∃ s, rtc step (start 4) s ∧ readers s = WRITER_LOCK ∧ has_readers s = false ∧
    threads s = [(Out, Z.to_nat 16382); (Out, 1%nat); (Out, 1%nat); (WHeld, 0%nat)].
Proof.
  set (l := concat (replicate (Z.to_nat 16382) [(0%nat, Some ORLock); (0%nat, None)]) ++
    [(1%nat, Some ORLock); (2%nat, Some ORLock); (1%nat, None); (2%nat, None); (2%nat, None); (3%nat, Some OTryWLock); (3%nat, None); (3%nat, None)]).
  set (ok (s : st) := bool_decide (readers s = WRITER_LOCK ∧ has_readers s = false ∧
    threads s = [(Out, Z.to_nat 16382); (Out, 1%nat); (Out, 1%nat); (WHeld, 0%nat)])).
  assert (match run l (start 4) with Some s => ok s | None => false end = true) as H by (vm_compute; reflexivity).
  destruct (run l (start 4)) as [s|] eqn:E; [|done]. exists s. split; [by apply (run_steps l)|]. by apply bool_decide_eq_true in H.
Qed.

(** *** Instances of the theorems *)

(** The thread 1 waits for the write lock that 0 has, and 2 for a read lock. *)
Definition contended : list (nat * option op) :=
  [(0%nat, Some OTryWLock); (0%nat, None); (0%nat, None); (1%nat, Some OWLock);
   (2%nat, Some ORLock); (2%nat, None); (2%nat, None)].

Definition contended_state : st := default (start 3) (run_calm contended (start 3)).

Lemma contended_run : rtc calm (start 3) contended_state.
Proof. apply (run_calm_steps contended). vm_compute. reflexivity. Qed.

Lemma rwlock_excludes_witness :
  wowned 0%nat contended_state = true ∧ has_readers contended_state = false ∧ threads contended_state !! 1%nat = Some (WLock false, 0%nat).
Proof.
  destruct (rwlock_excludes 3 contended_state contended_run) as (H & _ & _).
  destruct (H 0%nat 0%nat) as (H1 & H2 & _); [reflexivity|]. by split_and!.
Defined.

Lemma rwlock_live_witness :
  threads contended_state !! 2%nat = Some (RWait false, 0%nat) ∧
  ∃ u pu ru, threads contended_state !! u = Some (pu, ru) ∧ (pu = WHeld ∨ (0 < ru)%nat).
Proof.
  split; [reflexivity|]. apply (rwlock_live 3 contended_state 2 (RWait false) 0 contended_run); [|reflexivity|done].
  intros [|[|[|t]]]; vm_compute; reflexivity.
Defined.
