(* ===== verification/Rcu.v ===== *)
(** * Read-copy-update

    [core/rcu.cc] and the read-side lock of [include/osv/rcu.hh].  Every CPU has a
    thread that cleans up after the callbacks deferred on it, once the threads of
    all CPUs have come by a quiescent state.  A step of such a thread is one access
    to memory that is shared between CPUs; what it does with preemption disabled is
    one step, because nothing else runs on its CPU.  For the same reason it takes no
    step while a read-side section is open on its CPU.

    Fields of the model that are not in the code: readers are numbered, [before]
    are the sections that were open when a callback was deferred, [since] is the
    number of the first section opened after the buffers were last switched, [due]
    counts the callbacks that somebody has asked to be cleaned up, and [posted] and
    [ran] are the callbacks deferred and run. *)
From S2P Require Import Prelude.

Module Rcu.

Record cb := Cb { name : nat; before : list nat }.

(** What follows [set_generation]: the loop that waits for the generation [g], or
    the loop of [do_work]. *)
Inductive cont := Cleaning (g : Z) | Serving.

(** Where the thread of a CPU is in [do_work]. *)
Inductive pc :=
  | Top                                     (* the section under [preempt_lock] *)
  | Alloc                                   (* [next_generation.fetch_add] *)
  | SetReq (g : Z)                          (* [_requested.store(true)] *)
  | ReqLoad (g : Z) (l : list nat)          (* [cqst->request(g)] of the CPUs [l] *)
  | ReqCas (g : Z) (l : list nat) (r : Z)
  | ReqWake (g : Z) (l : list nat)
  | SetGen (v : Z) (k : cont)               (* [_generation.store] *)
  | Tell (l : list nat) (k : cont)          (* [cqst->_requested.load()] of the CPUs [l] *)
  | TellWake (l : list nat) (k : cont)      (* [cqst->_t->wake()] *)
  | Check (g : Z)                           (* [wait_until]: the first half of its condition *)
  | Scan (g : Z) (l : list nat)             (* [all_at_generation]: the CPUs [l] are left *)
  | Sleep (g : Z)
  | Look (g : Z)                            (* [_request.load()] behind the wait *)
  | Clean                                   (* [_requested.store(false)] and what follows *)
  | Run (l : list cb)                       (* the callbacks left to be run *)
  | ICheck                                  (* the [wait_until] of the other branch *)
  | ISleep
  | ILook.

Record cpu := mk {
  generation : Z;
  request : Z;
  requested : bool;
  woken : bool;
  buf : bool;
  callbacks : bool → list cb;
  waiting_defers : list nat;
  kicks : nat;
  reader : option nat;
  at_ : pc;
  since : nat;
  due : nat;
  posted : list cb;
  ran : list cb;
}.

Record st := State {
  next_generation : Z;
  readers : nat;
  names : nat;
  released : gset (nat * nat);
  cpus : nat → cpu;
}.

Definition set_generation (x : Z) (k : cpu) : cpu :=
  mk x (request k) (requested k) (woken k) (buf k) (callbacks k) (waiting_defers k) (kicks k) (reader k) (at_ k) (since k) (due k) (posted k) (ran k).
Definition set_request (x : Z) (k : cpu) : cpu :=
  mk (generation k) x (requested k) (woken k) (buf k) (callbacks k) (waiting_defers k) (kicks k) (reader k) (at_ k) (since k) (due k) (posted k) (ran k).
Definition set_requested (x : bool) (k : cpu) : cpu :=
  mk (generation k) (request k) x (woken k) (buf k) (callbacks k) (waiting_defers k) (kicks k) (reader k) (at_ k) (since k) (due k) (posted k) (ran k).
Definition set_woken (x : bool) (k : cpu) : cpu :=
  mk (generation k) (request k) (requested k) x (buf k) (callbacks k) (waiting_defers k) (kicks k) (reader k) (at_ k) (since k) (due k) (posted k) (ran k).
Definition set_callbacks (b : bool) (l : list cb) (k : cpu) : cpu :=
  mk (generation k) (request k) (requested k) (woken k) (buf k) (<[b := l]> (callbacks k)) (waiting_defers k) (kicks k) (reader k) (at_ k) (since k) (due k) (posted k) (ran k).
Definition set_waiting (l : list nat) (x : nat) (k : cpu) : cpu :=
  mk (generation k) (request k) (requested k) (woken k) (buf k) (callbacks k) l x (reader k) (at_ k) (since k) (due k) (posted k) (ran k).
Definition set_reader (x : option nat) (k : cpu) : cpu :=
  mk (generation k) (request k) (requested k) (woken k) (buf k) (callbacks k) (waiting_defers k) (kicks k) x (at_ k) (since k) (due k) (posted k) (ran k).
Definition set_due (x : nat) (k : cpu) : cpu :=
  mk (generation k) (request k) (requested k) (woken k) (buf k) (callbacks k) (waiting_defers k) (kicks k) (reader k) (at_ k) (since k) x (posted k) (ran k).
Definition set_logs (p r : list cb) (k : cpu) : cpu :=
  mk (generation k) (request k) (requested k) (woken k) (buf k) (callbacks k) (waiting_defers k) (kicks k) (reader k) (at_ k) (since k) (due k) p r.
Definition goto (p : pc) (k : cpu) : cpu :=
  mk (generation k) (request k) (requested k) (woken k) (buf k) (callbacks k) (waiting_defers k) (kicks k) (reader k) p (since k) (due k) (posted k) (ran k).

(** The buffers are switched; the callbacks in the other one are to be cleaned up. *)
Definition switch (n : nat) (k : cpu) : cpu :=
  mk (generation k) (request k) (requested k) (woken k) (negb (buf k)) (callbacks k) (waiting_defers k) (kicks k) (reader k) (at_ k) n 0 (posted k) (ran k).

Definition front (k : cpu) : list cb := callbacks k (buf k).
Definition back (k : cpu) : list cb := callbacks k (negb (buf k)).

Definition new_cpu : cpu := mk 0 0 false false false (λ _, []) [] 0 None Top 0 0 [] [].
Definition start : st := State 0 0 0 ∅ (λ _, new_cpu).

Definition upd (c : nat) (f : cpu → cpu) (s : st) : st :=
  State (next_generation s) (readers s) (names s) (released s) (<[c := f (cpus s c)]> (cpus s)).

(** [CONF_core_rcu_defer_queue_size] *)
Definition queue_size : nat := 2000.

Section Cpus.
(** The number of CPUs. *)
Context (n : nat).

Definition others (c : nat) : list nat := filter (λ c', c' ≠ c) (seq 0 n).

(** The sections that are open. *)
Definition active (s : st) : list nat := omap (λ c, reader (cpus s c)) (seq 0 n).

(** ** The thread of a CPU *)

(** The first section of the loop: the buffers, and the threads that wait for room. *)
Definition top (c : nat) (s : st) : st :=
  let k := cpus s c in
  let s := State (next_generation s) (readers s) (names s) (list_to_set ((λ x, (c, x)) <$> waiting_defers k) ∪ released s) (cpus s) in
  match front k with
  | [] => upd c (λ k, goto ICheck (set_waiting [] (kicks k) k)) s
  | _ => upd c (λ k, goto Alloc (switch (readers s) (set_waiting [] (kicks k) k))) s
  end.

(** [request] of the first of the CPUs [l]; then the next one. *)
Definition request_step (c : nat) (p : pc) (s : st) : option st :=
  match p with
  | ReqLoad g [] => Some (upd c (goto (SetGen g (Cleaning g))) s)
  | ReqLoad g (c' :: l) =>
      let r := request (cpus s c') in
      Some (upd c (goto (if r <? g then ReqCas g (c' :: l) r else ReqWake g (c' :: l))) s)
  | ReqCas g (c' :: l) r =>
      let r' := request (cpus s c') in
      if r' =? r then Some (upd c (goto (ReqWake g (c' :: l))) (upd c' (set_request g) s))
      else Some (upd c (goto (if r' <? g then ReqCas g (c' :: l) r' else ReqWake g (c' :: l))) s)
  | ReqWake g (c' :: l) => Some (upd c (goto (ReqLoad g l)) (upd c' (set_woken true) s))
  | _ => None
  end.

(** [set_generation] *)
Definition generation_step (c : nat) (p : pc) (s : st) : option st :=
  match p with
  | SetGen v k => Some (upd c (λ x, goto (Tell (others c) k) (set_generation v x)) s)
  | Tell [] k => Some (upd c (goto (match k with Cleaning g => Check g | Serving => Top end)) s)
  | Tell (c' :: l) k => Some (upd c (goto (if requested (cpus s c') then TellWake (c' :: l) k else Tell l k)) s)
  | TellWake (c' :: l) k => Some (upd c (goto (Tell l k)) (upd c' (set_woken true) s))
  | _ => None
  end.

(** The two waits; a wakeup from the moment the condition is looked at counts. *)
Definition wait_step (c : nat) (p : pc) (s : st) : option st :=
  let k := cpus s c in
  match p with
  | Check g => Some (upd c (λ k, goto (if generation k <? request k then Look g else Scan g (seq 0 n)) (set_woken false k)) s)
  | Scan g [] => Some (upd c (goto (Look g)) s)
  | Scan g (c' :: l) => Some (upd c (goto (if g <=? generation (cpus s c') then Scan g l else Sleep g)) s)
  | Sleep g => if woken k then Some (upd c (goto (Check g)) s) else None
  | Look g => Some (upd c (λ k, goto (if generation k <? request k then SetGen (request k) (Cleaning g) else Clean) k) s)
  | ICheck =>
      Some (upd c (λ k, goto (if (generation k <? request k) || negb (bool_decide (front k = [])) then ILook else ISleep) (set_woken false k)) s)
  | ISleep => if woken k then Some (upd c (goto ICheck) s) else None
  | ILook => Some (upd c (λ k, goto (if generation k <? request k then SetGen (request k) Serving else Top) k) s)
  | _ => None
  end.

Definition clean_step (c : nat) (p : pc) (s : st) : option st :=
  match p with
  | Clean =>
      Some (upd c (λ k, goto (Run (back k)) (set_callbacks (negb (buf k)) [] (set_requested false k))) s)
  | Run [] => Some (upd c (goto Top) s)
  | Run (f :: l) => Some (upd c (λ k, goto (Run l) (set_logs (posted k) (ran k ++ [f]) k)) s)
  | _ => None
  end.

Definition advance (c : nat) (s : st) : option st :=
  let k := cpus s c in
  if decide (c < n)%nat then
    match reader k with
    | Some _ => None
    | None =>
        match at_ k with
        | Top => Some (top c s)
        | Alloc =>
            let g := wrap64 (next_generation s + 1) in
            Some (upd c (goto (SetReq g)) (State g (readers s) (names s) (released s) (cpus s)))
        | SetReq g => Some (upd c (λ k, goto (ReqLoad g (others c)) (set_requested true k)) s)
        | ReqLoad _ _ | ReqCas _ _ _ | ReqWake _ _ => request_step c (at_ k) s
        | SetGen _ _ | Tell _ _ | TellWake _ _ => generation_step c (at_ k) s
        | Check _ | Scan _ _ | Sleep _ | Look _ | ICheck | ISleep | ILook => wait_step c (at_ k) s
        | Clean | Run _ => clean_step c (at_ k) s
        end
    end
  else None.

(** ** The other threads *)

(** The loop of [rcu_defer] with the callback [x] on the CPU [c]: into the buffer,
    or among those that wait for room, with a wakeup to follow. *)
Definition enter (c x : nat) (s : st) : st :=
  let k := cpus s c in
  if decide (length (front k) = queue_size) then upd c (set_waiting (x :: waiting_defers k) (S (kicks k))) s
  else
    let f := Cb x (active s) in
    upd c (λ k, set_logs (posted k ++ [f]) (ran k) (set_callbacks (buf k) (front k ++ [f]) k)) s.

Definition rcu_defer (c : nat) (s : st) : st :=
  enter c (names s) (State (next_generation s) (readers s) (S (names s)) (released s) (cpus s)).

(** [percpu_quiescent_state_thread.wake()] of a thread that is to wait for room. *)
Definition kick (c : nat) (s : st) : option st :=
  match kicks (cpus s c) with
  | O => None
  | S m => Some (upd c (λ k, set_woken true (set_waiting (waiting_defers k) m k)) s)
  end.

(** A thread that waited for room looks again. *)
Definition retry (c x : nat) (s : st) : option st :=
  if decide ((c, x) ∈ released s) then
    Some (enter c x (State (next_generation s) (readers s) (names s) (released s ∖ {[(c, x)]}) (cpus s)))
  else None.

Definition rcu_read_lock (c : nat) (s : st) : st :=
  upd c (set_reader (Some (readers s))) (State (next_generation s) (S (readers s)) (names s) (released s) (cpus s)).

Definition rcu_read_unlock (c : nat) (s : st) : st := upd c (set_reader None) s.

(** The wakeup of [rcu_synchronize] and [rcu_flush]. *)
Definition wake (c : nat) (s : st) : st := upd c (λ k, set_due (length (front k)) (set_woken true k)) s.

Inductive op := OReadLock | OReadUnlock | ODefer | OWake.

(** What runs with preemption disabled is alone on its CPU; sections that are
    nested are one section. *)
Definition call (c : nat) (o : op) (s : st) : option st :=
  if decide (c < n)%nat then
    match o, reader (cpus s c) with
    | OReadLock, None => Some (rcu_read_lock c s)
    | OReadUnlock, Some _ => Some (rcu_read_unlock c s)
    | ODefer, None => Some (rcu_defer c s)
    | OWake, _ => Some (wake c s)
    | _, _ => None
    end
  else None.

Definition internal (s s' : st) : Prop :=
  ∃ c, (c < n)%nat ∧ (advance c s = Some s' ∨ reader (cpus s c) = None ∧ (kick c s = Some s' ∨ ∃ x, retry c x s = Some s')).

Definition step (s s' : st) : Prop := internal s s' ∨ ∃ c o, call c o s = Some s'.

(** The generations do not run over. *)
Definition calm (s s' : st) : Prop := step s s' ∧ next_generation s' < 2 ^ 64 - 1.

End Cpus.
End Rcu.
