(* ===== verification/RcuSpec.v ===== *)
(** * Read-copy-update: grace periods

    Two invariants of the threads of [Rcu].  The first one orders the generations:
    a generation is handed out after the buffers were switched, and a CPU reaches
    it in a state without open sections, so that the sections still open there were
    opened after the switch.  The second one follows the wakeups: a thread that
    sleeps has nothing to do, or somebody is about to wake it. *)
From S2P Require Import Prelude Rcu.
Import Rcu.

(** The generation a thread works for. *)
Definition aim (p : pc) : option Z :=
  match p with
  | SetReq g | ReqLoad g _ | ReqCas g _ _ | ReqWake g _ | Check g | Scan g _ | Sleep g | Look g => Some g
  | SetGen _ (Cleaning g) | Tell _ (Cleaning g) | TellWake _ (Cleaning g) => Some g
  | _ => None
  end.

(** It is about to clean up the other buffer. *)
Definition cleaning (p : pc) : bool :=
  match p with Alloc | Clean => true | _ => match aim p with Some _ => true | None => false end end.

Definition running (p : pc) : list cb := match p with Run l => l | _ => [] end.

Lemma cpus_upd c f s c' : cpus (upd c f s) c' = if decide (c' = c) then f (cpus s c) else cpus s c'.
Proof. unfold upd. cbn [cpus]. apply fn_insert_if. Qed.

Lemma cpus_poke c c' f h s x :
  c' ≠ c → cpus (upd c f (upd c' h s)) x = if decide (x = c) then f (cpus s c) else if decide (x = c') then h (cpus s c') else cpus s x.
Proof. intros Hne. rewrite !cpus_upd. by rewrite (decide_False (P := c = c')). Qed.

Lemma others_spec n c c' : c' ∈ others n c ↔ c' ≠ c ∧ (c' < n)%nat.
Proof. unfold others. rewrite list_elem_of_filter, elem_of_seq. lia. Qed.

Section Inv.
Context (n : nat).

(** ** Grace periods *)

(** No section from before the last switch of [c]'s buffers is open on a CPU that
    has reached the generation [g]. *)
Definition quiet (s : st) (c : nat) (g : Z) : Prop :=
  ∀ c' i, (c' < n)%nat → g ≤ generation (cpus s c') → reader (cpus s c') = Some i → (since (cpus s c) ≤ i)%nat.

Definition passed (s : st) (c : nat) : Prop :=
  ∀ c' i, (c' < n)%nat → reader (cpus s c') = Some i → (since (cpus s c) ≤ i)%nat.

Definition at_least (s : st) (g : Z) : Prop := ∀ c', (c' < n)%nat → g ≤ generation (cpus s c').

Definition extra (s : st) (c : nat) (p : pc) : Prop :=
  let k := cpus s c in
  match p with
  | SetGen v _ => generation k < v ≤ next_generation s
  | SetReq g | ReqLoad g _ | ReqCas g _ _ | ReqWake g _ => generation k < g
  | Scan g l => ∀ c', (c' < n)%nat → c' ∉ l → g ≤ generation (cpus s c')
  | Look g => generation k < request k ∨ at_least s g
  | Clean | Run _ => passed s c
  | _ => True
  end.

Definition pc_ok (s : st) (c : nat) : Prop :=
  (∀ g, aim (at_ (cpus s c)) = Some g → g ≤ next_generation s ∧ quiet s c g) ∧ extra s c (at_ (cpus s c)).

(** The CPUs a thread still has to turn to are others. *)
Definition todo (p : pc) : list nat :=
  match p with ReqLoad _ l | ReqCas _ l _ | ReqWake _ l | Tell l _ | TellWake l _ => l | _ => [] end.

Definition shape (c : nat) (p : pc) : Prop :=
  (∀ x, x ∈ todo p → x ≠ c ∧ (x < n)%nat) ∧ match p with ReqCas _ [] _ | ReqWake _ [] | TellWake [] _ => False | ReqCas g _ r => r < g
  | Scan _ l => ∀ x, x ∈ l → (x < n)%nat | _ => True end.

Definition bound (m : nat) (l : list cb) : Prop := ∀ f i, f ∈ l → i ∈ before f → (i < m)%nat.

Record cpu_ok (s : st) (c : nat) : Prop := {
  k_gen : 0 ≤ generation (cpus s c) ≤ next_generation s;
  k_req : request (cpus s c) ≤ next_generation s;
  k_pc : pc_ok s c;
  k_shape : shape c (at_ (cpus s c));
  k_since : (since (cpus s c) ≤ readers s)%nat;
  k_reader : ∀ i, reader (cpus s c) = Some i → (i < readers s)%nat;
  k_posted : posted (cpus s c) = ran (cpus s c) ++ running (at_ (cpus s c)) ++ back (cpus s c) ++ front (cpus s c);
  k_back : cleaning (at_ (cpus s c)) = false → back (cpus s c) = [];
  k_old : bound (since (cpus s c)) (running (at_ (cpus s c)) ++ back (cpus s c));
  k_new : bound (readers s) (front (cpus s c));
}.

Definition inv (s : st) : Prop := next_generation s < 2 ^ 64 - 1 ∧ ∀ c, (c < n)%nat → cpu_ok s c.

(** What every step does to the other CPUs. *)
Record evolves (s s' : st) : Prop := {
  e_next : next_generation s ≤ next_generation s';
  e_readers : (readers s ≤ readers s')%nat;
  e_request : ∀ c, request (cpus s c) ≤ request (cpus s' c) ≤ Z.max (request (cpus s c)) (next_generation s');
  e_gen : ∀ c, generation (cpus s' c) = generation (cpus s c) ∨
    (generation (cpus s c) ≤ generation (cpus s' c) ≤ next_generation s' ∧ reader (cpus s' c) = None);
  e_reader : ∀ c i, reader (cpus s' c) = Some i → reader (cpus s c) = Some i ∨ (readers s ≤ i < readers s')%nat;
}.

Definition same (k k' : cpu) : Prop :=
  at_ k' = at_ k ∧ since k' = since k ∧ generation k' = generation k ∧ buf k' = buf k ∧ callbacks k' = callbacks k ∧
  posted k' = posted k ∧ ran k' = ran k.

Lemma evolves_gen s s' c : evolves s s' → generation (cpus s c) ≤ generation (cpus s' c).
Proof. intros He. destruct (e_gen _ _ He c) as [->|[? _]]; lia. Qed.

Lemma evolves_quiet s s' c g :
  evolves s s' → since (cpus s' c) = since (cpus s c) → (since (cpus s c) ≤ readers s)%nat → quiet s c g → quiet s' c g.
Proof.
  intros He Es Hs Hq c' i Hc Hg Hi. rewrite Es. destruct (e_gen _ _ He c') as [E|[_ E]]; [|congruence].
  destruct (e_reader _ _ He c' i Hi) as [Hi'|?]; [|lia]. apply (Hq c' i Hc); [lia|done].
Qed.

Lemma evolves_passed s s' c :
  evolves s s' → since (cpus s' c) = since (cpus s c) → (since (cpus s c) ≤ readers s)%nat → passed s c → passed s' c.
Proof.
  intros He Es Hs Hq c' i Hc Hi. rewrite Es. destruct (e_reader _ _ He c' i Hi) as [Hi'|?]; [|lia]. by apply (Hq c').
Qed.

Lemma evolves_extra s s' c p :
  evolves s s' → since (cpus s' c) = since (cpus s c) → generation (cpus s' c) = generation (cpus s c) →
  (since (cpus s c) ≤ readers s)%nat → extra s c p → extra s' c p.
Proof.
  intros He Es Eg Hs H2. pose proof (e_next _ _ He) as Hn. unfold extra in *. rewrite Eg.
  destruct p as [| | | | | | | | | |g l| |g| | | | |]; try done; try lia.
  - intros c' Hc Hl. specialize (H2 c' Hc Hl). pose proof (evolves_gen s s' c' He). lia.
  - destruct H2 as [?|H2]; [left; pose proof (proj1 (e_request _ _ He c)); lia|]. right.
    intros c' Hc. specialize (H2 c' Hc). pose proof (evolves_gen s s' c' He). lia.
  - by eapply evolves_passed.
  - by eapply evolves_passed.
Qed.

Lemma evolves_pc s s' c :
  evolves s s' → same (cpus s c) (cpus s' c) → (since (cpus s c) ≤ readers s)%nat → pc_ok s c → pc_ok s' c.
Proof.
  intros He (Ea & Es & Eg & _) Hs [H1 H2]. pose proof (e_next _ _ He) as Hn. split; rewrite Ea.
  - intros g Hg. destruct (H1 g Hg) as [? Hq]. split; [lia|]. by eapply evolves_quiet.
  - by eapply evolves_extra.
Qed.

Lemma evolves_cpu s s' c :
  evolves s s' → same (cpus s c) (cpus s' c) → cpu_ok s c → cpu_ok s' c.
Proof.
  intros He Hs Hk. pose proof Hs as (Ea & Es & Eg & Eb & Ec & Ep & Er). pose proof (e_next _ _ He) as Hn.
  pose proof (e_readers _ _ He) as Hr.
  assert (front (cpus s' c) = front (cpus s c) ∧ back (cpus s' c) = back (cpus s c)) as [Ef Ek] by (unfold front, back; by rewrite Eb, Ec).
  split; rewrite ?Ea, ?Es, ?Ef, ?Ek, ?Ep, ?Er.
  - rewrite Eg. pose proof (k_gen _ _ Hk). lia.
  - pose proof (proj2 (e_request _ _ He c)). pose proof (k_req _ _ Hk). lia.
  - eapply evolves_pc; [done..|apply Hk|apply Hk].
  - apply Hk.
  - pose proof (k_since _ _ Hk). lia.
  - intros i Hi. destruct (e_reader _ _ He c i Hi) as [Hi'|?]; [|lia]. pose proof (k_reader _ _ Hk i Hi'). lia.
  - apply Hk.
  - apply Hk.
  - apply Hk.
  - intros f i Hf Hi. pose proof (k_new _ _ Hk f i Hf Hi). lia.
Qed.

(** One CPU moves. *)
Lemma rcu_step_inv s s' c :
  inv s → evolves s s' → next_generation s' < 2 ^ 64 - 1 → (∀ c', c' ≠ c → same (cpus s c') (cpus s' c')) →
  cpu_ok s' c → inv s'.
Proof.
  intros [_ Hi] He Hn Hs Hk. split; [done|]. intros c' Hc. destruct (decide (c' = c)) as [->|Hne]; [done|].
  eapply evolves_cpu; [done|by apply Hs|by apply Hi].
Qed.

(** A step that moves the thread of [c] and changes nothing but requests and wakeups. *)
Record moves (s s' : st) (c : nat) (p : pc) : Prop := {
  m_next : next_generation s' = next_generation s;
  m_readers : readers s' = readers s;
  m_request : ∀ c', request (cpus s c') ≤ request (cpus s' c') ≤ Z.max (request (cpus s c')) (next_generation s);
  m_cpu : ∀ c', generation (cpus s' c') = generation (cpus s c') ∧ reader (cpus s' c') = reader (cpus s c') ∧
    since (cpus s' c') = since (cpus s c') ∧ buf (cpus s' c') = buf (cpus s c') ∧ callbacks (cpus s' c') = callbacks (cpus s c') ∧
    posted (cpus s' c') = posted (cpus s c') ∧ ran (cpus s' c') = ran (cpus s c');
  m_at : ∀ c', at_ (cpus s' c') = if decide (c' = c) then p else at_ (cpus s c');
}.

Lemma moves_evolves s s' c p : moves s s' c p → evolves s s'.
Proof.
  intros Hm. split.
  - rewrite (m_next _ _ _ _ Hm). done.
  - rewrite (m_readers _ _ _ _ Hm). done.
  - intros c'. rewrite (m_next _ _ _ _ Hm). apply (m_request _ _ _ _ Hm).
  - intros c'. left. apply (m_cpu _ _ _ _ Hm).
  - intros c' i Hi. left. destruct (m_cpu _ _ _ _ Hm c') as (_ & <- & _). done.
Qed.

Lemma moves_inv s s' c p :
  inv s → (c < n)%nat → moves s s' c p →
  aim p = aim (at_ (cpus s c)) ∨ aim p = None → running p = running (at_ (cpus s c)) →
  (cleaning p = false → cleaning (at_ (cpus s c)) = false) → extra s' c p → shape c p → inv s'.
Proof.
  intros [Hn Hi] Hc Hm Ha Hr Hcl He Hsh. pose proof (moves_evolves _ _ _ _ Hm) as Hev. pose proof (Hi c Hc) as Hk.
  assert (at_ (cpus s' c) = p) as Ep by (rewrite (m_at _ _ _ _ Hm), decide_True; done).
  destruct (m_cpu _ _ _ _ Hm c) as (Eg & Erd & Es & Eb & Ec & Epo & Era).
  assert (front (cpus s' c) = front (cpus s c) ∧ back (cpus s' c) = back (cpus s c)) as [Ef Ek] by (unfold front, back; by rewrite Eb, Ec).
  apply (rcu_step_inv s s' c); [done|done|by rewrite (m_next _ _ _ _ Hm)| |].
  - intros c' Hne. destruct (m_cpu _ _ _ _ Hm c') as (?&?&?&?&?&?&?). repeat split; try done.
    rewrite (m_at _ _ _ _ Hm), decide_False; done.
  - split; rewrite ?Ep, ?Eg, ?Es, ?Ef, ?Ek, ?Epo, ?Era, ?(m_readers _ _ _ _ Hm), ?(m_next _ _ _ _ Hm), ?Hr.
    + apply Hk.
    + pose proof (proj2 (m_request _ _ _ _ Hm c)). pose proof (k_req _ _ Hk). lia.
    + unfold pc_ok. rewrite Ep. split; [|done]. intros g Hg. destruct Ha as [Ha|Ha]; [|congruence]. rewrite Ha in Hg.
      destruct (proj1 (k_pc _ _ Hk) g Hg) as [H1 H2]. rewrite (m_next _ _ _ _ Hm). split; [done|].
      eapply evolves_quiet; [done|done|apply Hk|done].
    + done.
    + apply Hk.
    + rewrite Erd. apply Hk.
    + apply Hk.
    + intros Hp. apply Hk, Hcl, Hp.
    + apply Hk.
    + apply Hk.
Qed.

Lemma moves_goto s c f p :
  (∀ k, generation (f k) = generation k ∧ reader (f k) = reader k ∧ since (f k) = since k ∧ buf (f k) = buf k ∧
    callbacks (f k) = callbacks k ∧ posted (f k) = posted k ∧ ran (f k) = ran k ∧ request (f k) = request k) →
  at_ (f (cpus s c)) = p → moves s (upd c f s) c p.
Proof.
  intros Hf Hp. destruct (Hf (cpus s c)) as (?&?&?&?&?&?&?&Hr).
  split; [done|done| | |]; intros c'; rewrite cpus_upd; destruct (decide (c' = c)) as [->|]; rewrite ?Hr; try done; lia.
Qed.

(** The same, after another CPU was given a request or a wakeup. *)
Lemma moves_poke s c c' f p :
  c' ≠ c →
  (∀ k, generation (f k) = generation k ∧ reader (f k) = reader k ∧ since (f k) = since k ∧ buf (f k) = buf k ∧
    callbacks (f k) = callbacks k ∧ posted (f k) = posted k ∧ ran (f k) = ran k ∧ at_ (f k) = at_ k) →
  request (cpus s c') ≤ request (f (cpus s c')) ≤ Z.max (request (cpus s c')) (next_generation s) →
  moves s (upd c (goto p) (upd c' f s)) c p.
Proof.
  intros Hne Hf Hr. split; [done|done| | |]; intros x; rewrite !cpus_upd; rewrite (decide_False (P := c = c')) by done;
    destruct (decide (x = c)) as [->|]; cbn; rewrite ?decide_False by done; try done; try lia.
  - case_decide; subst; [done|lia].
  - case_decide; subst; [|done]. destruct (Hf (cpus s c')) as (?&?&?&?&?&?&?&?). done.
  - case_decide; subst; [|done]. destruct (Hf (cpus s c')) as (?&?&?&?&?&?&?&?). done.
Qed.

(** A step of that kind, to be given the place it leads to. *)
Ltac moved p Hat :=
  match goal with Hi : inv ?s, Hk : cpu_ok ?s ?c, Hc : (?c < _)%nat |- _ => eapply (moves_inv s _ c p Hi Hc) end;
    [|rewrite Hat; try (by left); try (by right)|rewrite Hat; try done|rewrite Hat; try done
    |unfold extra; cbv zeta iota; rewrite ?cpus_upd, ?decide_True by done; cbn [generation goto set_woken request]; try done; try (rewrite decide_False by congruence; done)|split; cbn; try done; try (by intros ? ?%elem_of_nil)].

Lemma request_inv s s' c :
  inv s → (c < n)%nat → request_step c (at_ (cpus s c)) s = Some s' → inv s'.
Proof.
  intros Hi Hc Hs. pose proof (proj2 Hi c Hc) as Hk. destruct (k_pc _ _ Hk) as [Ha He]. pose proof (k_shape _ _ Hk) as [Hsh Hsh'].
  unfold extra in He.
  destruct (at_ (cpus s c)) as [| | |g l|g l r|g l| | | | | | | | | | | |] eqn:Hat; cbn in Hs; try done;
    destruct (Ha g eq_refl) as [Hg Hq]; (destruct l as [|c' l]; [try done|destruct (Hsh c') as [Hne Hc']; [elem|]]).
  - injection Hs as <-. moved (SetGen g (Cleaning g)) Hat. by apply moves_goto.
  - injection Hs as <-. destruct (Z.ltb_spec (request (cpus s c')) g).
    + moved (ReqCas g (c' :: l) (request (cpus s c'))) Hat. by apply moves_goto.
    + moved (ReqWake g (c' :: l)) Hat. by apply moves_goto.
  - destruct (Z.eqb_spec (request (cpus s c')) r) as [Er|Er]; injection Hs as <-.
    + moved (ReqWake g (c' :: l)) Hat. apply moves_poke; [done|done|]. cbn in *. lia.
    + destruct (Z.ltb_spec (request (cpus s c')) g).
      * moved (ReqCas g (c' :: l) (request (cpus s c'))) Hat. by apply moves_goto.
      * moved (ReqWake g (c' :: l)) Hat. by apply moves_goto.
  - injection Hs as <-. moved (ReqLoad g l) Hat; [by apply moves_poke; cbn; [| |lia]|].
    intros x Hx. apply Hsh. by right.
Qed.

Lemma rcu_wait_inv s s' c :
  inv s → (c < n)%nat → wait_step n c (at_ (cpus s c)) s = Some s' → inv s'.
Proof.
  intros Hi Hc Hs. pose proof (proj2 Hi c Hc) as Hk. destruct (k_pc _ _ Hk) as [Ha He]. pose proof (k_shape _ _ Hk) as [_ Hsh'].
  unfold extra in He.
  destruct (at_ (cpus s c)) as [| | | | | | | | |g|g l|g|g| | | | |] eqn:Hat; cbn in Hs; try done.
  - injection Hs as <-. destruct (Z.ltb_spec (generation (cpus s c)) (request (cpus s c))) as [Hlt|Hge].
    + moved (Look g) Hat; [apply moves_goto; [done|]|by left]. cbn. by rewrite (proj2 (Z.ltb_lt _ _) Hlt).
    + moved (Scan g (seq 0 n)) Hat; [apply moves_goto; [done|]| |].
      * cbn. by rewrite (proj2 (Z.ltb_ge _ _) Hge).
      * intros c' ? []. apply elem_of_seq. lia.
      * intros x Hx%elem_of_seq. lia.
  - destruct l as [|c' l]; injection Hs as <-.
    + moved (Look g) Hat; [by apply moves_goto|]. right. intros c' Hc'. rewrite cpus_upd. specialize (He c' Hc').
      case_decide; subst; cbn; apply He, not_elem_of_nil.
    + destruct (Z.leb_spec g (generation (cpus s c'))) as [Hle|?]; [moved (Scan g l) Hat|moved (Sleep g) Hat]; try by apply moves_goto.
      * intros x Hx Hl. rewrite cpus_upd. assert (g ≤ generation (cpus s x)) as H; [|by case_decide; subst].
        destruct (decide (x = c')) as [->|]; [done|]. apply He; [done|]. by intros [->|?]%elem_of_cons.
      * intros x Hx. apply Hsh'. by right.
  - destruct (woken (cpus s c)); [|done]. injection Hs as <-. moved (Check g) Hat. by apply moves_goto.
  - injection Hs as <-. destruct (Z.ltb_spec (generation (cpus s c)) (request (cpus s c))) as [Hlt|Hge].
    + moved (SetGen (request (cpus s c)) (Cleaning g)) Hat; [apply moves_goto; [done|]|].
      * cbn. by rewrite (proj2 (Z.ltb_lt _ _) Hlt).
      * pose proof (k_req _ _ Hk). done.
    + destruct He as [?|He]; [lia|]. moved Clean Hat; [apply moves_goto; [done|]|].
      * cbn. by rewrite (proj2 (Z.ltb_ge _ _) Hge).
      * destruct (Ha g eq_refl) as [_ Hq]. intros c' i Hc' Hi'. rewrite cpus_upd, decide_True by done. cbn.
        apply (Hq c' i Hc' (He c' Hc')). rewrite cpus_upd in Hi'. case_decide; subst; done.
  - injection Hs as <-.
    destruct ((generation (cpus s c) <? request (cpus s c)) || negb (bool_decide (front (cpus s c) = []))) eqn:Eb;
      [moved ILook Hat|moved ISleep Hat]; (apply moves_goto; [done|]); cbn [at_ goto]; by rewrite Eb.
  - destruct (woken (cpus s c)); [|done]. injection Hs as <-. moved ICheck Hat. by apply moves_goto.
  - injection Hs as <-. destruct (Z.ltb_spec (generation (cpus s c)) (request (cpus s c))) as [Hlt|Hge].
    + moved (SetGen (request (cpus s c)) Serving) Hat; [apply moves_goto; [done|]|].
      * cbn. by rewrite (proj2 (Z.ltb_lt _ _) Hlt).
      * pose proof (k_req _ _ Hk). done.
    + moved Top Hat. apply moves_goto; [done|]. cbn. by rewrite (proj2 (Z.ltb_ge _ _) Hge).
Qed.

(** A step that changes one CPU only. *)
Record own (s s' : st) (c : nat) (k : cpu) : Prop := {
  o_cpu : cpus s' c = k;
  o_others : ∀ c', c' ≠ c → cpus s' c' = cpus s c';
  o_next : next_generation s ≤ next_generation s' < 2 ^ 64 - 1;
  o_readers : (readers s ≤ readers s')%nat;
  o_request : request k = request (cpus s c);
  o_gen : generation k = generation (cpus s c) ∨
    (generation (cpus s c) ≤ generation k ≤ next_generation s' ∧ reader k = None);
  o_reader : ∀ i, reader k = Some i → reader (cpus s c) = Some i ∨ (readers s ≤ i < readers s')%nat;
}.

Lemma own_evolves s s' c k : own s s' c k → evolves s s'.
Proof.
  intros [H1 H2 H3 H4 H5 H6 H7]. split; [lia|lia| | |]; intros c'; (destruct (decide (c' = c)) as [->|Hne]; [rewrite H1|rewrite H2 by done]);
    try lia; try done; by left.
Qed.

(** The thread of the CPU was at [p]; where it is now, and what is in the buffers. *)
Lemma own_inv s s' c k :
  inv s → (c < n)%nat → own s s' c k →
  (∀ g, aim (at_ k) = Some g → (aim (at_ (cpus s c)) = Some g ∧ since k = since (cpus s c)) ∨ (g ≤ next_generation s' ∧ quiet s' c g)) →
  extra s' c (at_ k) → shape c (at_ k) → (since k = since (cpus s c) ∨ since k = readers s) →
  posted k = ran k ++ running (at_ k) ++ back k ++ front k → (cleaning (at_ k) = false → back k = []) →
  bound (since k) (running (at_ k) ++ back k) → bound (readers s') (front k) → inv s'.
Proof.
  intros Hi Hc Ho Ha He Hs Hsi Hp Hb Hol Hne. pose proof (proj2 Hi c Hc) as Hk. pose proof (own_evolves _ _ _ _ Ho) as Hev.
  pose proof Ho as [H1 H2 H3 H4 H5 H6 H7]. pose proof (k_since _ _ Hk).
  apply (rcu_step_inv s s' c); [done|done|lia|intros c' Hc'; by rewrite H2|].
  split; rewrite ?H1; try done.
  - pose proof (k_gen _ _ Hk). lia.
  - rewrite H5. pose proof (k_req _ _ Hk). lia.
  - unfold pc_ok. rewrite H1. split; [|done]. intros g Hg. destruct (Ha g Hg) as [[Ha' Es]|?]; [|done].
    destruct (proj1 (k_pc _ _ Hk) g Ha') as [? Hq]. split; [lia|]. eapply evolves_quiet; [done|by rewrite H1|done|done].
  - lia.
  - intros i Hr. destruct (H7 i Hr) as [Hr'|?]; [|lia]. pose proof (k_reader _ _ Hk i Hr'). lia.
Qed.

Lemma upd_own s c f s0 :
  cpus s0 = cpus s → next_generation s ≤ next_generation s0 < 2 ^ 64 - 1 → (readers s ≤ readers s0)%nat →
  request (f (cpus s c)) = request (cpus s c) →
  generation (f (cpus s c)) = generation (cpus s c) ∨
    (generation (cpus s c) ≤ generation (f (cpus s c)) ≤ next_generation s0 ∧ reader (f (cpus s c)) = None) →
  (∀ i, reader (f (cpus s c)) = Some i → reader (cpus s c) = Some i ∨ (readers s ≤ i < readers s0)%nat) →
  own s (upd c f s0) c (f (cpus s c)).
Proof.
  intros Ec. split; try done; [by rewrite cpus_upd, decide_True, Ec|]. intros c' Hne. by rewrite cpus_upd, decide_False, Ec.
Qed.

Lemma alloc_inv s c :
  inv s → (c < n)%nat → at_ (cpus s c) = Alloc → next_generation s + 1 < 2 ^ 64 - 1 →
  inv (upd c (goto (SetReq (next_generation s + 1))) (State (next_generation s + 1) (readers s) (names s) (released s) (cpus s))).
Proof.
  intros Hi Hc Hat Hn. pose proof (proj2 Hi c Hc) as Hk. set (g := next_generation s + 1) in *.
  set (s0 := State g _ _ _ _). pose proof (k_gen _ _ Hk).
  assert (own s (upd c (goto (SetReq g)) s0) c (goto (SetReq g) (cpus s c))) as Ho.
  { apply upd_own; cbn; try done; try lia; try (by left); intros i ?; by left. }
  apply (own_inv _ _ _ _ Hi Hc Ho); try (by apply Hk).
  - intros g' [= <-]. right. split; [done|]. intros c' i Hc' Hg. exfalso. pose proof (k_gen _ _ (proj2 Hi c' Hc')).
    destruct (decide (c' = c)) as [->|Hne]; [rewrite (o_cpu _ _ _ _ Ho) in Hg|rewrite (o_others _ _ _ _ Ho) in Hg by done]; cbn in Hg; lia.
  - cbn [at_ goto extra]. rewrite (o_cpu _ _ _ _ Ho). cbn. lia.
  - split; [by intros ? ?%elem_of_nil|done].
  - by left.
  - pose proof (k_posted _ _ Hk) as H1. rewrite Hat in H1. done.
  - done.
  - pose proof (k_old _ _ Hk) as H1. rewrite Hat in H1. done.
Qed.

Lemma setgen_inv s c v k :
  inv s → (c < n)%nat → reader (cpus s c) = None → at_ (cpus s c) = SetGen v k →
  inv (upd c (λ x, goto (Tell (others n c) k) (set_generation v x)) s).
Proof.
  intros Hi Hc Hrd Hat. pose proof (proj2 Hi c Hc) as Hk. destruct (k_pc _ _ Hk) as [Ha He]. rewrite Hat in Ha, He. cbn in He.
  assert (own s (upd c (λ x, goto (Tell (others n c) k) (set_generation v x)) s) c (goto (Tell (others n c) k) (set_generation v (cpus s c)))) as Ho.
  { apply (upd_own s c (λ x, goto (Tell (others n c) k) (set_generation v x)) s); cbn; try done; try lia; pose proof (proj1 Hi); try lia.
    - right. split; [lia|done].
    - intros i ?. by left. }
  apply (own_inv _ _ _ _ Hi Hc Ho); try (by apply Hk).
  - intros g Hg. left. rewrite Hat. by destruct k.
  - done.
  - split; [|done]. cbn. intros x Hx%others_spec. done.
  - by left.
  - pose proof (k_posted _ _ Hk) as H1. rewrite Hat in H1. done.
  - pose proof (k_back _ _ Hk) as H1. rewrite Hat in H1. by destruct k.
  - pose proof (k_old _ _ Hk) as H1. rewrite Hat in H1. done.
Qed.

Lemma generation_inv s s' c :
  inv s → (c < n)%nat → reader (cpus s c) = None → generation_step n c (at_ (cpus s c)) s = Some s' → inv s'.
Proof.
  intros Hi Hc Hrd Hs. pose proof (proj2 Hi c Hc) as Hk. destruct (k_pc _ _ Hk) as [Ha He]. pose proof (k_shape _ _ Hk) as [Hsh Hsh'].
  unfold extra in He.
  destruct (at_ (cpus s c)) as [| | | | | |v k|l k|l k| | | | | | | | |] eqn:Hat; cbn in Hs; try done.
  - injection Hs as <-. by apply setgen_inv.
  - destruct l as [|c' l]; injection Hs as <-.
    + destruct k; [moved (Check g) Hat|moved Top Hat]; by apply moves_goto.
    + destruct (requested (cpus s c')); [moved (TellWake (c' :: l) k) Hat|moved (Tell l k) Hat]; try by apply moves_goto.
      intros x Hx. apply Hsh. by right.
  - destruct l as [|c' l]; [done|]. destruct (Hsh c') as [Hne Hc']; [elem|]. injection Hs as <-.
    moved (Tell l k) Hat; [by apply moves_poke; cbn; [| |lia]|]. intros x Hx. apply Hsh. by right.
Qed.

Lemma bound_nil m : bound m [].
Proof. by intros f i ?%elem_of_nil. Qed.

Lemma bound_le m m' l : bound m l → (m ≤ m')%nat → bound m' l.
Proof. intros H Hm f i Hf Hi. specialize (H f i Hf Hi). lia. Qed.

Ltac by_left := intros i ?; by left.

Lemma top_inv s c : inv s → (c < n)%nat → at_ (cpus s c) = Top → inv (top c s).
Proof.
  intros Hi Hc Hat. pose proof (proj2 Hi c Hc) as Hk. unfold top. set (s0 := State _ _ _ _ _).
  pose proof (proj1 Hi). pose proof (k_posted _ _ Hk) as Hp. pose proof (k_back _ _ Hk) as Hb. pose proof (k_old _ _ Hk) as Hol.
  pose proof (k_new _ _ Hk) as Hnw. rewrite Hat in Hp, Hb, Hol. specialize (Hb eq_refl). rewrite Hb in Hp. cbn in Hp.
  destruct (front (cpus s c)) as [|f l] eqn:Hf.
  - set (F := λ k, goto ICheck (set_waiting [] (kicks k) k)).
    assert (own s (upd c F s0) c (F (cpus s c))) as Ho by (apply upd_own; cbn; try done; try lia; first [by left|by_left]).
    apply (own_inv _ _ _ _ Hi Hc Ho); try done.
    + split; [by intros ? ?%elem_of_nil|done].
    + by left.
    + change (back (F (cpus s c))) with (back (cpus s c)). change (front (F (cpus s c))) with (front (cpus s c)). by rewrite Hb, Hf.
    + cbn. rewrite <- Hf in Hnw. done.
  - set (F := λ k, goto Alloc (switch (readers s0) (set_waiting [] (kicks k) k))).
    assert (own s (upd c F s0) c (F (cpus s c))) as Ho by (apply upd_own; cbn; try done; try lia; first [by left|by_left]).
    assert (back (F (cpus s c)) = f :: l) as EB by (unfold back; cbn; rewrite negb_involutive; apply Hf).
    assert (front (F (cpus s c)) = []) as EF by (apply Hb).
    apply (own_inv _ _ _ _ Hi Hc Ho); try done.
    + split; [by intros ? ?%elem_of_nil|done].
    + by right.
    + rewrite EB, EF. cbn. by rewrite app_nil_r.
    + rewrite EB. done.
    + rewrite EF. apply bound_nil.
Qed.

Lemma clean_inv s s' c :
  inv s → (c < n)%nat → clean_step c (at_ (cpus s c)) s = Some s' → inv s'.
Proof.
  intros Hi Hc Hs. pose proof (proj2 Hi c Hc) as Hk. destruct (k_pc _ _ Hk) as [Ha He].
  pose proof (proj1 Hi). pose proof (k_posted _ _ Hk) as Hp. pose proof (k_back _ _ Hk) as Hb. pose proof (k_old _ _ Hk) as Hol.
  pose proof (k_new _ _ Hk) as Hnw.
  destruct (at_ (cpus s c)) as [| | | | | | | | | | | | | |l| | |] eqn:Hat; cbn in Hs; try done.
  - injection Hs as <-. cbn in He, Hp, Hol. set (F := λ k, goto (Run (back k)) _).
    assert (own s (upd c F s) c (F (cpus s c))) as Ho by (apply upd_own; cbn; try done; try lia; first [by left|by_left]).
    assert (back (F (cpus s c)) = []) as EB by (unfold back; cbn; apply fn_lookup_insert).
    assert (front (F (cpus s c)) = front (cpus s c)) as EF by (unfold front; cbn; apply fn_lookup_insert_ne; by destruct (buf (cpus s c))).
    apply (own_inv _ _ _ _ Hi Hc Ho); rewrite ?EB, ?EF; try done.
    + eapply evolves_passed; [by eapply own_evolves|by rewrite (o_cpu _ _ _ _ Ho)|apply Hk|done].
    + split; [by intros ? ?%elem_of_nil|done].
    + by left.
    + cbn. rewrite app_nil_r. done.
  - specialize (Hb eq_refl). rewrite Hb in Hp, Hol. cbn in He, Hp, Hol. destruct l as [|f l]; injection Hs as <-.
    + set (F := goto Top).
      assert (own s (upd c F s) c (F (cpus s c))) as Ho by (apply upd_own; cbn; try done; try lia; first [by left|by_left]).
      apply (own_inv _ _ _ _ Hi Hc Ho); try done.
      * split; [by intros ? ?%elem_of_nil|done].
      * by left.
      * change (back (F (cpus s c))) with (back (cpus s c)). rewrite Hb. done.
      * change (back (F (cpus s c))) with (back (cpus s c)). rewrite Hb. apply bound_nil.
    + set (F := λ k, goto (Run l) _).
      assert (own s (upd c F s) c (F (cpus s c))) as Ho by (apply upd_own; cbn; try done; try lia; first [by left|by_left]).
      apply (own_inv _ _ _ _ Hi Hc Ho); try done; try change (back (F (cpus s c))) with (back (cpus s c)); rewrite ?Hb.
      * eapply evolves_passed; [by eapply own_evolves|by rewrite (o_cpu _ _ _ _ Ho)|apply Hk|done].
      * split; [by intros ? ?%elem_of_nil|done].
      * by left.
      * cbn. rewrite Hp. by rewrite <- !app_assoc.
      * intros f' i Hf'. apply Hol. cbn. set_solver.
Qed.

Lemma advance_inv s s' c :
  inv s → next_generation s' < 2 ^ 64 - 1 → advance n c s = Some s' → inv s'.
Proof.
  intros Hi Hn Hs. unfold advance in Hs. case_decide as Hc; [|done]. destruct (reader (cpus s c)) eqn:Hrd; [done|].
  pose proof (proj2 Hi c Hc) as Hk.
  destruct (at_ (cpus s c)) as [| |g|g l|g l r|g l|v k|l k|l k|g|g l|g|g| |l| | |] eqn:Hat; rewrite <- ?Hat in Hs;
    try (by eapply request_inv); try (by eapply generation_inv); try (by eapply rcu_wait_inv); try (by eapply clean_inv).
  - injection Hs as <-. by apply top_inv.
  - pose proof (k_gen _ _ Hk). pose proof (proj1 Hi). rewrite wrap64_small in Hs by (unfold u64; lia). injection Hs as <-. by apply alloc_inv.
  - injection Hs as <-. destruct (k_pc _ _ Hk) as [_ He]. rewrite Hat in He.
    moved (ReqLoad g (others n c)) Hat; [by apply moves_goto|]. intros x Hx%others_spec. done.
Qed.

(** The other threads. *)
Lemma released_inv s r nm :
  inv s → inv (State (next_generation s) (readers s) nm r (cpus s)).
Proof. intros [Hn Hi]. split; [done|]. intros c Hc. destruct (Hi c Hc). by split. Qed.

(** A step that leaves the thread of the CPU and the buffers alone. *)
Lemma quiet_inv s c f :
  inv s → (c < n)%nat →
  (∀ k, request (f k) = request k ∧ generation (f k) = generation k ∧ reader (f k) = reader k ∧ at_ (f k) = at_ k ∧
    since (f k) = since k ∧ buf (f k) = buf k ∧ callbacks (f k) = callbacks k ∧ posted (f k) = posted k ∧ ran (f k) = ran k) →
  inv (upd c f s).
Proof.
  intros Hi Hc Hf. split; [apply Hi|]. intros c' Hc'. eapply (evolves_cpu s); [|destruct (Hf (cpus s c)) as (?&?&?&?&?&?&?&?&?)|by apply Hi].
  - destruct (Hf (cpus s c)) as (?&?&E&_). split; [done|done| | |]; intros x; rewrite cpus_upd; destruct (decide (x = c)) as [->|];
      rewrite ?E; try lia; try (by left); intros i ?; by left.
  - rewrite cpus_upd. destruct (decide (c' = c)) as [->|]; done.
Qed.

Lemma active_spec s i : i ∈ active n s ↔ ∃ c, (c < n)%nat ∧ reader (cpus s c) = Some i.
Proof.
  unfold active. rewrite list_elem_of_omap. split; intros (c & H1 & H2); exists c; (split; [|done]); apply elem_of_seq in H1 || apply elem_of_seq; lia.
Qed.

Lemma enter_inv s c x : inv s → (c < n)%nat → inv (enter n c x s).
Proof.
  intros Hi Hc. pose proof (proj2 Hi c Hc) as Hk. unfold enter. case_decide as Hl; [by apply quiet_inv|].
  set (F := λ k, set_logs _ _ _).
  assert (own s (upd c F s) c (F (cpus s c))) as Ho by (pose proof (proj1 Hi); apply upd_own; cbn; try done; try lia; first [by left|by_left]).
  assert (back (F (cpus s c)) = back (cpus s c)) as EB by (unfold back; cbn; apply fn_lookup_insert_ne; by destruct (buf (cpus s c))).
  assert (front (F (cpus s c)) = front (cpus s c) ++ [Cb x (active n s)]) as EF by (unfold front; cbn; apply fn_lookup_insert).
  apply (own_inv _ _ _ _ Hi Hc Ho); rewrite ?EB, ?EF; try (by apply Hk).
  - intros g Hg. by left.
  - eapply evolves_extra; [by eapply own_evolves|by rewrite (o_cpu _ _ _ _ Ho)..|apply Hk|apply (k_pc _ _ Hk)].
  - by left.
  - cbn. rewrite (k_posted _ _ Hk). by rewrite <- !app_assoc.
  - intros f i [Hf| ->%list_elem_of_singleton]%elem_of_app Hin; [by eapply (k_new _ _ Hk)|]. cbn in Hin.
    apply active_spec in Hin as (c' & Hc' & Hr). by eapply (k_reader _ _ (proj2 Hi c' Hc')).
Qed.

(** Sections begin and end. *)
Lemma reader_inv s s0 c x :
  inv s → (c < n)%nat → cpus s0 = cpus s → next_generation s0 = next_generation s → (readers s ≤ readers s0)%nat →
  (∀ i, x = Some i → reader (cpus s c) = Some i ∨ (readers s ≤ i < readers s0)%nat) → inv (upd c (set_reader x) s0).
Proof.
  intros Hi Hc E1 E2 E3 Hx. pose proof (proj2 Hi c Hc) as Hk. pose proof (proj1 Hi).
  assert (own s (upd c (set_reader x) s0) c (set_reader x (cpus s c))) as Ho by (apply upd_own; try done; [lia|by left]).
  apply (own_inv _ _ _ _ Hi Hc Ho); try (by apply Hk).
  - intros g Hg. by left.
  - eapply evolves_extra; [by eapply own_evolves|by rewrite (o_cpu _ _ _ _ Ho)..|apply Hk|apply (k_pc _ _ Hk)].
  - by left.
  - eapply bound_le; [apply Hk|done].
Qed.

Lemma call_inv s s' c o : inv s → call n c o s = Some s' → inv s'.
Proof.
  intros Hi Hs. unfold call in Hs. case_decide as Hc; [|done]. destruct o, (reader (cpus s c)) eqn:Hr; try done; injection Hs as <-.
  - apply (reader_inv s); cbn; try done; [lia|]. intros i [= <-]. right. lia.
  - by apply (reader_inv s).
  - apply enter_inv; [|done]. by apply released_inv.
  - by apply quiet_inv.
  - by apply quiet_inv.
Qed.

Lemma step_preserves s s' : inv s → calm n s s' → inv s'.
Proof.
  intros Hi [[(c & Hc & [Ha|[_ [Hk|[x Hx]]]])|(c & o & Ho)] Hn].
  - by eapply advance_inv.
  - unfold kick in Hk. destruct (kicks (cpus s c)); [done|]. injection Hk as <-. by apply quiet_inv.
  - unfold retry in Hx. case_decide; [|done]. injection Hx as <-. apply enter_inv; [|done]. by apply released_inv.
  - by eapply call_inv.
Qed.

Lemma start_ok : inv start.
Proof.
  split; [done|]. intros c Hc. split; cbn; try done; try lia; try (apply bound_nil).
  split; [by intros ? ?%elem_of_nil|done].
Qed.

Lemma reachable_inv s : rtc (calm n) start s → inv s.
Proof.
  intros Hr. assert (∀ s0, rtc (calm n) s0 s → inv s0 → inv s) as H; [|by apply (H start), start_ok].
  intros s0 H. induction H as [|s0 s1 s2 H1 _ IH]; [done|]. intros Hi. by eapply IH, step_preserves.
Qed.

(** ** Wakeups *)

(** The CPUs that still have to be asked for the generation [g]. *)
Definition unasked (c : nat) (p : pc) : list nat :=
  match p with SetReq _ => others n c | ReqLoad _ l | ReqCas _ l _ => l | ReqWake _ l => tail l | _ => [] end.

(** The thread of [c'] has reached a generation and is about to tell [c]. *)
Definition telling (p : pc) (c : nat) : Prop := match p with Tell l _ | TellWake l _ => c ∈ l | _ => False end.

(** The thread has set its own generation. *)
Definition counted (p : pc) : bool :=
  match p with Tell _ (Cleaning _) | TellWake _ (Cleaning _) | Check _ | Scan _ _ | Sleep _ | Look _ => true | _ => false end.

Definition drowsy (p : pc) : bool := match p with Scan _ _ | Sleep _ | ISleep => true | _ => false end.

Record cpu_live (s : st) (c : nat) : Prop := {
  l_asked : ∀ g c', aim (at_ (cpus s c)) = Some g → (c' < n)%nat → c' ≠ c → c' ∉ unasked c (at_ (cpus s c)) → g ≤ request (cpus s c');
  l_requested : cleaning (at_ (cpus s c)) = true → requested (cpus s c) = true ∨ at_ (cpus s c) = Alloc ∨ ∃ g, at_ (cpus s c) = SetReq g;
  l_counted : ∀ g, aim (at_ (cpus s c)) = Some g → counted (at_ (cpus s c)) = true → g ≤ generation (cpus s c);
  l_set : ∀ v g, at_ (cpus s c) = SetGen v (Cleaning g) → g ≤ v;
  l_drowsy : drowsy (at_ (cpus s c)) = true → woken (cpus s c) = false →
    request (cpus s c) ≤ generation (cpus s c) ∨ ∃ c' g l, (c' < n)%nat ∧ at_ (cpus s c') = ReqWake g (c :: l);
  l_sleep : ∀ g, at_ (cpus s c) = Sleep g → woken (cpus s c) = false →
    ∃ c', (c' < n)%nat ∧ (generation (cpus s c') < g ∨ c' ≠ c ∧ telling (at_ (cpus s c')) c);
  l_waiting : waiting_defers (cpus s c) ≠ [] → length (front (cpus s c)) = queue_size ∧
    (at_ (cpus s c) = ISleep → woken (cpus s c) = false → (0 < kicks (cpus s c))%nat);
  l_due : (due (cpus s c) ≤ length (front (cpus s c)))%nat ∧
    (at_ (cpus s c) = ISleep → woken (cpus s c) = false → due (cpus s c) = 0%nat);
}.

Definition live (s : st) : Prop := ∀ c, (c < n)%nat → cpu_live s c.

(** What a step of [c] does to the wakeups of the others. *)
Record nudges (s s' : st) (c : nat) : Prop := {
  n_same : ∀ x, x ≠ c → at_ (cpus s' x) = at_ (cpus s x) ∧ requested (cpus s' x) = requested (cpus s x) ∧
    generation (cpus s' x) = generation (cpus s x) ∧ waiting_defers (cpus s' x) = waiting_defers (cpus s x) ∧
    kicks (cpus s' x) = kicks (cpus s x) ∧ due (cpus s' x) = due (cpus s x) ∧ front (cpus s' x) = front (cpus s x);
  n_request : ∀ x, request (cpus s x) ≤ request (cpus s' x);
  n_asks : ∀ x, x ≠ c → request (cpus s' x) = request (cpus s x) ∨ ∃ g l, at_ (cpus s' c) = ReqWake g (x :: l);
  n_woken : ∀ x, x ≠ c → woken (cpus s' x) = false → woken (cpus s x) = false;
  n_wake : ∀ x, x ≠ c → woken (cpus s' x) = false → (∃ g l, at_ (cpus s c) = ReqWake g (x :: l)) →
    ∃ g l, at_ (cpus s' c) = ReqWake g (x :: l);
  n_tell : ∀ x, x ≠ c → woken (cpus s' x) = false → requested (cpus s x) = true → telling (at_ (cpus s c)) x →
    telling (at_ (cpus s' c)) x;
  n_gen : generation (cpus s' c) = generation (cpus s c) ∨ ∀ x, x ≠ c → (x < n)%nat → telling (at_ (cpus s' c)) x;
}.

Lemma nudges_live s s' c :
  live s → (c < n)%nat → nudges s s' c → cpu_live s' c → live s'.
Proof.
  intros Hl Hc Hn Hk x Hx. destruct (decide (x = c)) as [->|Hne]; [done|].
  destruct (n_same _ _ _ Hn x Hne) as (Ea & Eq & Eg & Ew & Ek & Ed & Ef). pose proof (Hl x Hx) as [H1 H2 H3 H0 H4 H5 H6 H7].
  split; rewrite ?Ea, ?Eq, ?Eg, ?Ew, ?Ek, ?Ed, ?Ef.
  - intros g c' Ha Hc' Hcx Hu. pose proof (H1 g c' Ha Hc' Hcx Hu). pose proof (n_request _ _ _ Hn c'). lia.
  - done.
  - done.
  - done.
  - intros Hd Hw. destruct (n_asks _ _ _ Hn x Hne) as [Er|(g & l & Ha)]; [|right; by exists c, g, l].
    rewrite Er. destruct (H4 Hd (n_woken _ _ _ Hn x Hne Hw)) as [?|(c' & g & l & Hc' & Ha)]; [by left|]. right.
    destruct (decide (c' = c)) as [->|Hcc].
    + destruct (n_wake _ _ _ Hn x Hne Hw) as (g' & l' & Ha'); [eauto|]. by exists c, g', l'.
    + exists c', g, l. by destruct (n_same _ _ _ Hn c' Hcc) as (-> & _).
  - intros g Hg Hw. destruct (H5 g Hg (n_woken _ _ _ Hn x Hne Hw)) as (c' & Hc' & Hcase). exists c'. split; [done|].
    destruct (decide (c' = c)) as [->|Hcc].
    + destruct Hcase as [Hlt|[_ Ht]].
      * destruct (n_gen _ _ _ Hn) as [->|Ht]; [by left|]. right. split; [done|]. by apply Ht.
      * right. split; [done|]. apply (n_tell _ _ _ Hn x Hne Hw); [|done]. rewrite Hg in H2. destruct (H2 eq_refl) as [?|[?|[? ?]]]; done.
    + destruct (n_same _ _ _ Hn c' Hcc) as (-> & _ & -> & _). done.
  - intros Hwd. destruct (H6 Hwd) as [H61 H62]. split; [done|]. intros Hs Hw. apply H62; [done|]. by apply (n_woken _ _ _ Hn x Hne).
  - destruct H7 as [H71 H72]. split; [done|]. intros Hs Hw. apply H72; [done|]. by apply (n_woken _ _ _ Hn x Hne).
Qed.

(** A step that leaves the other CPUs alone. *)
Lemma nudges_upd s s0 c f :
  cpus s0 = cpus s → request (f (cpus s c)) = request (cpus s c) →
  (∀ g l, at_ (cpus s c) = ReqWake g l → at_ (f (cpus s c)) = at_ (cpus s c)) →
  (∀ x, x ≠ c → requested (cpus s x) = true → telling (at_ (cpus s c)) x → telling (at_ (f (cpus s c))) x) →
  generation (f (cpus s c)) = generation (cpus s c) ∨ (∀ x, x ≠ c → (x < n)%nat → telling (at_ (f (cpus s c))) x) →
  nudges s (upd c f s0) c.
Proof.
  intros Ec Hr Hw Ht Hg. split; rewrite ?cpus_upd, ?(decide_True (P := c = c)), ?Ec by done.
  - intros x Hne. rewrite cpus_upd, decide_False, Ec by done. done.
  - intros x. rewrite cpus_upd, Ec. destruct (decide (x = c)) as [->|]; lia.
  - intros x Hne. rewrite !cpus_upd, decide_False, Ec by done. by left.
  - intros x Hne. rewrite cpus_upd, decide_False, Ec by done. done.
  - intros x Hne _ (g & l & Ha). rewrite (Hw _ _ Ha). eauto.
  - intros x Hne _. auto.
  - done.
Qed.

(** A step that pokes another CPU. *)
Lemma nudges_poke s c c' f p :
  c' ≠ c →
  (∀ k, at_ (f k) = at_ k ∧ requested (f k) = requested k ∧ generation (f k) = generation k ∧ waiting_defers (f k) = waiting_defers k ∧
    kicks (f k) = kicks k ∧ due (f k) = due k ∧ buf (f k) = buf k ∧ callbacks (f k) = callbacks k) →
  request (cpus s c') ≤ request (f (cpus s c')) →
  request (f (cpus s c')) = request (cpus s c') ∨ (∃ g l, p = ReqWake g (c' :: l)) →
  (woken (f (cpus s c')) = false → woken (cpus s c') = false) →
  (∀ g x l, at_ (cpus s c) = ReqWake g (x :: l) → x = c' ∧ woken (f (cpus s c')) = true) →
  (∀ x, x ≠ c → telling (at_ (cpus s c)) x → x = c' ∧ woken (f (cpus s c')) = true ∨ telling p x) →
  nudges s (upd c (goto p) (upd c' f s)) c.
Proof.
  intros Hne Hf Hr Ha Hw Hwk Ht. set (s' := upd _ _ _).
  assert (∀ x, cpus s' x = if decide (x = c) then goto p (cpus s c) else if decide (x = c') then f (cpus s c') else cpus s x) as Hs.
  { intros x. unfold s'. rewrite !cpus_upd. by rewrite (decide_False (P := c = c')). }
  clearbody s'. split; rewrite ?Hs, ?(decide_True (P := c = c)) by done.
  - intros x Hx. rewrite Hs, decide_False by done. destruct (decide (x = c')) as [->|]; [|done].
    destruct (Hf (cpus s c')) as (?&?&?&?&?&?&?&?). repeat split; try done. unfold front. congruence.
  - intros x. rewrite Hs. destruct (decide (x = c)) as [->|]; [done|]. destruct (decide (x = c')) as [->|]; [done|lia].
  - intros x Hx. rewrite !Hs, (decide_False (P := x = c)) by done. destruct (decide (x = c')) as [->|]; [done|by left].
  - intros x Hx. rewrite Hs, decide_False by done. destruct (decide (x = c')) as [->|]; done.
  - intros x Hx Hwx (g & l & Hat). destruct (Hwk g x l Hat) as [-> ?]. rewrite Hs, decide_False, decide_True in Hwx by done. congruence.
  - intros x Hx Hwx _ Htx. destruct (Ht x Hx Htx) as [[-> ?]|?]; [|done]. rewrite Hs, decide_False, decide_True in Hwx by done. congruence.
  - by left.
Qed.

(** The thread that moves. *)
Definition room (k : cpu) : Prop := (waiting_defers k ≠ [] → length (front k) = queue_size) ∧ (due k ≤ length (front k))%nat.

Lemma live_room s c : cpu_live s c → room (cpus s c).
Proof. intros Hk. split; [intros H; by apply (l_waiting _ _ Hk)|apply (l_due _ _ Hk)]. Qed.

Lemma live_rest s c p :
  at_ (cpus s c) = p → aim p = None → p ≠ Clean → p ≠ ISleep → room (cpus s c) → cpu_live s c.
Proof.
  intros Hp Ha Hc Hi [H1 H2]. split; rewrite ?Hp; rewrite ?Ha; try done.
  - intros Hcl. right. left. unfold cleaning in Hcl. rewrite Ha in Hcl. by destruct p.
  - by intros v g ->.
  - by destruct p.
  - by intros g ->.
  - intros ?. split; [auto|done].
Qed.

Lemma live_work s c p g :
  at_ (cpus s c) = p → aim p = Some g → drowsy p = false → room (cpus s c) →
  (∀ c', (c' < n)%nat → c' ≠ c → c' ∉ unasked c p → g ≤ request (cpus s c')) →
  requested (cpus s c) = true ∨ p = SetReq g → (counted p = true → g ≤ generation (cpus s c)) →
  (∀ v, p = SetGen v (Cleaning g) → g ≤ v) → cpu_live s c.
Proof.
  intros Hp Ha Hd [H1 H2] Hask Hr Hc Hset. split; rewrite ?Hp; rewrite ?Ha, ?Hd; try done.
  - by intros g' c' [= <-] ? ?; apply Hask.
  - intros _. destruct Hr as [?|?]; [by left|]. right. right. eauto.
  - by intros g' [= <-].
  - intros v g' ->. injection Ha as <-. by apply Hset.
  - by intros g' ->.
  - intros ?. split; [auto|]. by intros ->.
  - split; [done|]. by intros ->.
Qed.

(** What the thread at a place with the aim [g] has done already. *)
Lemma live_request s c g c' :
  cpu_live s c → aim (at_ (cpus s c)) = Some g → (c' < n)%nat → c' ≠ c → c' ∉ unasked c (at_ (cpus s c)) → g ≤ request (cpus s c').
Proof. intros Hk. apply Hk. Qed.

(** The head of the loop of [request], on the first and on later rounds. *)
Lemma ask_live s c g c' l p0 :
  live s → (c < n)%nat → at_ (cpus s c) = p0 → aim p0 = Some g → unasked c p0 = c' :: l → (∀ x, ¬ telling p0 x) →
  (∀ g' l', p0 ≠ ReqWake g' l') → requested (cpus s c) = true →
  live (upd c (goto (if request (cpus s c') <? g then ReqCas g (c' :: l) (request (cpus s c')) else ReqWake g (c' :: l))) s).
Proof.
  intros Hl Hc Hat Ha Hu Ht Hw Hrq. pose proof (Hl c Hc) as Hk. set (p := if _ <? _ then _ else _).
  assert (aim p = Some g ∧ drowsy p = false ∧ counted p = false ∧ ∀ x, x ∉ unasked c p → x ∉ c' :: l ∨ x = c' ∧ g ≤ request (cpus s c')) as (A1 & A2 & A3 & A4).
  { unfold p. destruct (Z.ltb_spec (request (cpus s c')) g); cbn; split_and!; try done; intros x Hx; [by left|].
    destruct (decide (x = c')) as [->|]; [by right|]. left. by intros [?|?]%elem_of_cons. }
  eapply (nudges_live s _ c); [done|done|apply nudges_upd; rewrite ?Hat; try done; [intros ? ? ?; by edestruct Hw|intros ? ? ? ?; by edestruct Ht|by left]|].
  eapply (live_work _ _ p g); rewrite ?cpus_upd, ?decide_True by done; try done; [by apply live_room| |by left|by rewrite A3|unfold p; by case_match].
  intros x Hx Hxc Hux. rewrite cpus_upd, decide_False by done. destruct (A4 x Hux) as [?|[-> ?]]; [|done].
  apply (l_asked _ _ Hk); rewrite ?Hat, ?Hu; done.
Qed.

Lemma request_live s s' c :
  inv s → live s → (c < n)%nat → request_step c (at_ (cpus s c)) s = Some s' → live s'.
Proof.
  intros Hi Hl Hc Hs. pose proof (Hl c Hc) as Hk. pose proof (k_shape _ _ (proj2 Hi c Hc)) as [Hsh Hsh'].
  pose proof (live_room _ _ Hk) as Hrm. pose proof (l_requested _ _ Hk) as Hrq. pose proof (l_asked _ _ Hk) as Hask.
  destruct (at_ (cpus s c)) as [| | |g l|g l r|g l| | | | | | | | | | | |] eqn:Hat; cbn in Hs; try done;
    (destruct Hrq as [Hrq|[?|[? ?]]]; [done| |done|done]);
    specialize (Hask g); (destruct l as [|c' l]; [try done|destruct (Hsh c') as [Hne Hc']; [elem|]]).
  - injection Hs as <-. eapply (nudges_live s _ c); [done|done|apply nudges_upd; rewrite ?Hat; try done; by left|].
    eapply (live_work _ _ _ g); rewrite ?cpus_upd, ?decide_True by done; try done; [|by left|by intros ? [= <-]].
    intros x Hx Hxc _. rewrite cpus_upd, decide_False by done. apply (Hask x eq_refl Hx Hxc), not_elem_of_nil.
  - injection Hs as <-. eapply ask_live; try done; cbn; intros ? ?; done.
  - destruct (Z.eqb_spec (request (cpus s c')) r) as [Er|Er]; injection Hs as <-; [|eapply ask_live; try done; cbn; intros ? ?; done].
    cbn in Hsh'. eapply (nudges_live s _ c); [done|done|apply nudges_poke; rewrite ?Hat; try done; cbn; [lia|right; eauto]|].
    eapply (live_work _ _ _ g); rewrite ?cpus_poke, ?(decide_True (P := c = c)) by done; try done; [|by left].
    intros x Hx Hxc Hu. rewrite cpus_poke, (decide_False (P := x = c)) by done. destruct (decide (x = c')) as [->|]; [done|].
    apply Hask; try done. by intros [?|?]%elem_of_cons.
  - injection Hs as <-. eapply (nudges_live s _ c); [done|done|apply nudges_poke; rewrite ?Hat; try done; cbn; [by left|by intros ? ? ? [= _ <- _]]|].
    eapply (live_work _ _ _ g); rewrite ?cpus_poke, ?(decide_True (P := c = c)) by done; try done; [|by left].
    intros x Hx Hxc Hu. rewrite cpus_poke, (decide_False (P := x = c)) by done. assert (g ≤ request (cpus s x)) by (by apply Hask). by case_decide; subst.
Qed.

Lemma generation_live s s' c :
  inv s → live s → (c < n)%nat → generation_step n c (at_ (cpus s c)) s = Some s' → live s'.
Proof.
  intros Hi Hl Hc Hs. pose proof (Hl c Hc) as Hk. pose proof (k_shape _ _ (proj2 Hi c Hc)) as [Hsh Hsh'].
  pose proof (live_room _ _ Hk) as Hrm. pose proof (l_requested _ _ Hk) as Hrq. pose proof (l_asked _ _ Hk) as Hask.
  pose proof (l_counted _ _ Hk) as Hcnt.
  destruct (at_ (cpus s c)) as [| | | | | |v k|l k|l k| | | | | | | | |] eqn:Hat; cbn in Hs; try done.
  - injection Hs as <-.
    eapply (nudges_live s _ c); [done|done|apply nudges_upd; rewrite ?Hat; try done; cbn; right; intros x ? ?; by apply others_spec|].
    destruct k as [g|]; [|by eapply live_rest; rewrite ?cpus_upd, ?decide_True].
    destruct Hrq as [Hrq|[?|[? ?]]]; [done| |done|done].
    eapply (live_work _ _ _ g); rewrite ?cpus_upd, ?decide_True by done; try done; [|by left|].
    + intros x Hx Hxc _. rewrite cpus_upd, decide_False by done. apply (Hask g x eq_refl Hx Hxc), not_elem_of_nil.
    + intros _. cbn. by apply (l_set _ _ Hk).
  - destruct l as [|c' l]; injection Hs as <-.
    + eapply (nudges_live s _ c); [done|done|apply nudges_upd; rewrite ?Hat; try done; [by intros ? ? ? ?%elem_of_nil|by left]|].
      destruct k as [g|]; [|by eapply live_rest; rewrite ?cpus_upd, ?decide_True].
      destruct Hrq as [Hrq|[?|[? ?]]]; [done| |done|done].
      eapply (live_work _ _ _ g); rewrite ?cpus_upd, ?decide_True by done; try done; [|by left|by intros _; apply Hcnt].
      intros x Hx Hxc _. rewrite cpus_upd, decide_False by done. apply (Hask g x eq_refl Hx Hxc), not_elem_of_nil.
    + set (p := if requested _ then _ else _).
      assert (aim p = aim (Tell (c' :: l) k) ∧ drowsy p = false ∧ (counted p = counted (Tell (c' :: l) k)) ∧ unasked c p = [] ∧ p ≠ Clean ∧ p ≠ ISleep ∧
        (∀ v g, p ≠ SetGen v (Cleaning g))) as (A1 & A2 & A3 & A4 & A5 & A6 & A7) by (unfold p; by case_match).
      eapply (nudges_live s _ c); [done|done|apply nudges_upd; rewrite ?Hat; try done; [|by left]|].
      * intros x Hx Hrx. unfold p. cbn. destruct (requested (cpus s c')) eqn:E; [done|]. by intros [->|?]%elem_of_cons; [congruence|].
      * destruct k as [g|]; [|by eapply (live_rest _ _ p); rewrite ?cpus_upd, ?decide_True].
        destruct Hrq as [Hrq|[?|[? ?]]]; [done| |done|done].
        eapply (live_work _ _ p g); rewrite ?cpus_upd, ?decide_True by done; try done; [|by left|rewrite A3; by apply Hcnt|intros v E; by destruct (A7 v g)].
        intros x Hx Hxc _. rewrite cpus_upd, decide_False by done. apply (Hask g x eq_refl Hx Hxc), not_elem_of_nil.
  - destruct l as [|c' l]; [done|]. destruct (Hsh c') as [Hne Hc']; [elem|]. injection Hs as <-.
    eapply (nudges_live s _ c); [done|done|apply nudges_poke; rewrite ?Hat; try done; cbn; [by left|]|].
    + intros x Hx [->|?]%elem_of_cons; [by left|by right].
    + destruct k as [g|]; [|eapply live_rest; rewrite ?cpus_poke, ?(decide_True (P := c = c)); done].
      destruct Hrq as [Hrq|[?|[? ?]]]; [done| |done|done].
      eapply (live_work _ _ _ g); rewrite ?cpus_poke, ?(decide_True (P := c = c)) by done; try done; [|by left|by intros _; apply Hcnt].
      intros x Hx Hxc _. rewrite cpus_poke, (decide_False (P := x = c)) by done.
      assert (g ≤ request (cpus s x)) by (by apply (Hask g x eq_refl Hx Hxc), not_elem_of_nil). by case_decide; subst.
Qed.

Ltac work g Hat := eapply (live_work _ _ _ g); rewrite ?cpus_upd, ?decide_True by done; try done.
Ltac rest := eapply live_rest; rewrite ?cpus_upd, ?decide_True by done; try done.
Ltac plain s c Hat := eapply (nudges_live s _ c); [done|done|apply nudges_upd; rewrite ?Hat; try done; by left|].

Lemma asked_upd s c f g c' :
  cpu_live s c → aim (at_ (cpus s c)) = Some g → unasked c (at_ (cpus s c)) = [] → (c' < n)%nat → c' ≠ c →
  g ≤ request (cpus (upd c f s) c').
Proof.
  intros Hk Ha Hu Hc' Hne. rewrite cpus_upd, decide_False by done. apply (l_asked _ _ Hk); try done. rewrite Hu. apply not_elem_of_nil.
Qed.

(** From one CPU to the next, and to sleep. *)
Lemma scan_live s c g l p :
  live s → (c < n)%nat → at_ (cpus s c) = Scan g l → (p = Sleep g ∧ ∃ x, (x < n)%nat ∧ generation (cpus s x) < g) ∨ (∃ l', p = Scan g l') →
  live (upd c (goto p) s).
Proof.
  intros Hl Hc Hat Hp. pose proof (Hl c Hc) as [H1 H2 H3 H0 H4 H5 H6 H7]. rewrite Hat in *.
  assert (aim p = Some g ∧ unasked c p = [] ∧ cleaning p = true ∧ counted p = true ∧ drowsy p = true ∧ p ≠ ISleep ∧
    (∀ l', ¬ telling p l') ∧ ∀ v k, p ≠ SetGen v k) as (A1 & A2 & A3 & A4 & A5 & A6 & A7 & A8) by (destruct Hp as [[-> _]|[l' ->]]; split_and!; try done; cbn; tauto).
  plain s c Hat. split; rewrite ?(cpus_upd c _ s c), ?decide_True by done; cbn [at_ goto]; rewrite ?A1, ?A2; try done.
  - intros g' c' [= <-] Hc' Hne Hu. rewrite cpus_upd, decide_False by done. by apply H1.
  - intros _. left. destruct H2 as [?|[?|[? ?]]]; done.
  - intros g' [= <-] _. by apply H3.
  - by intros v g' ?; edestruct A8.
  - intros _ Hw. destruct (H4 eq_refl Hw) as [?|(c' & g' & l' & Hc' & Ha)]; [by left|]. right. exists c', g', l'. split; [done|].
    rewrite cpus_upd, decide_False; [done|]. intros ->. congruence.
  - intros g' Hg' Hw. destruct Hp as [[-> (x & Hx & Hlt)]|[l' ->]]; [|done]. injection Hg' as <-. exists x. split; [done|]. left.
    rewrite cpus_upd. by case_decide; subst.
  - intros Hwd. split; [by apply H6|done].
  - split; [apply H7|done].
Qed.

Lemma wait_live s s' c :
  inv s → live s → (c < n)%nat → wait_step n c (at_ (cpus s c)) s = Some s' → live s'.
Proof.
  intros Hi Hl Hc Hs. pose proof (Hl c Hc) as Hk. pose proof (k_shape _ _ (proj2 Hi c Hc)) as [_ Hsh'].
  pose proof (live_room _ _ Hk) as Hrm. pose proof (l_requested _ _ Hk) as Hrq. pose proof (λ f g, asked_upd s c f g) as Hask.
  pose proof (l_counted _ _ Hk) as Hcnt.
  destruct (at_ (cpus s c)) as [| | | | | | | | |g|g l|g|g| | | | |] eqn:Hat; cbn in Hs; try done;
    try (destruct Hrq as [Hrq|[?|[? ?]]]; [done| |done|done]).
  - injection Hs as <-. plain s c Hat. destruct (generation (cpus s c) <? request (cpus s c)) eqn:E.
    + eapply (live_work _ _ (Look g) g); rewrite ?cpus_upd, ?decide_True by done; try done; cbn [at_ goto]; rewrite ?E; try done;
        [|by left|by intros _; apply Hcnt]. intros x Hx Hxc _. by apply Hask.
    + split; try (rewrite cpus_upd, decide_True by done; cbn [at_ goto]; rewrite E; done).
      * rewrite cpus_upd, decide_True by done. cbn [at_ goto]. rewrite E. cbn [aim]. intros g' c' [= <-] ? ? _. by apply Hask.
      * intros _. left. rewrite cpus_upd, decide_True by done. done.
      * rewrite cpus_upd, decide_True by done. intros _ _. left. cbn. lia.
      * rewrite cpus_upd, decide_True by done. intros Hw. split; [by apply Hrm|]. cbn [at_ goto]. by rewrite E.
      * rewrite cpus_upd, decide_True by done. split; [by apply Hrm|]. cbn [at_ goto]. by rewrite E.
  - destruct l as [|c' l]; injection Hs as <-.
    + plain s c Hat. work g Hat; [|by left|by intros _; apply Hcnt]. intros x Hx Hxc _. by apply Hask.
    + eapply scan_live; [done|done|done|]. destruct (Z.leb_spec g (generation (cpus s c'))); [right; eauto|left].
      split; [done|]. exists c'. split; [|done]. apply Hsh'. elem.
  - destruct (woken (cpus s c)) eqn:Hw; [|done]. injection Hs as <-. plain s c Hat.
    work g Hat; [|by left|by intros _; apply Hcnt]. intros x Hx Hxc _. by apply Hask.
  - injection Hs as <-. plain s c Hat. destruct (generation (cpus s c) <? request (cpus s c)) eqn:E.
    + eapply (live_work _ _ (SetGen (request (cpus s c)) (Cleaning g)) g); rewrite ?cpus_upd, ?decide_True by done; try done; cbn [at_ goto]; rewrite ?E; try done;
        [|by left|]. { intros x Hx Hxc _. by apply Hask. }
      intros v [= <-]. specialize (Hcnt g eq_refl eq_refl). lia.
    + split; rewrite ?cpus_upd, ?decide_True by done; cbn [at_ goto]; rewrite ?E; try done.
      * intros _. by left.
      * intros Hw. split; [by apply Hrm|done].
      * split; [by apply Hrm|done].
  - injection Hs as <-. plain s c Hat. destruct (generation (cpus s c) <? request (cpus s c)) eqn:E.
    + eapply (live_rest _ _ ILook); rewrite ?cpus_upd, ?decide_True by done; try done; cbn [at_ goto]. by rewrite E.
    + destruct (decide (front (cpus s c) = [])) as [Hf|Hf].
      * destruct Hrm as [R1 R2]. rewrite Hf in R1, R2. cbn in R1, R2.
        split; rewrite ?cpus_upd, ?decide_True by done; cbn [at_ goto]; rewrite ?E, ?(bool_decide_eq_true_2 (front (cpus s c) = [])) by done; try done.
        -- intros _ _. left. cbn. lia.
        -- intros Hw. by specialize (R1 Hw).
        -- split; [cbn; lia|]. intros _ _. cbn. lia.
      * eapply (live_rest _ _ ILook); rewrite ?cpus_upd, ?decide_True by done; try done; cbn [at_ goto]. by rewrite E, bool_decide_eq_false_2.
  - destruct (woken (cpus s c)) eqn:Hw; [|done]. injection Hs as <-. plain s c Hat. rest.
  - injection Hs as <-. plain s c Hat. destruct (generation (cpus s c) <? request (cpus s c)) eqn:E;
      [eapply (live_rest _ _ (SetGen (request (cpus s c)) Serving))|eapply (live_rest _ _ Top)];
      rewrite ?cpus_upd, ?decide_True by done; try done; cbn [at_ goto]; by rewrite E.
Qed.

(** Steps that leave the thread of the CPU where it is. *)
Lemma live_keep s s0 c f :
  live s → (c < n)%nat → cpus s0 = cpus s →
  (let k := cpus s c in at_ (f k) = at_ k ∧ requested (f k) = requested k ∧ generation (f k) = generation k ∧ request (f k) = request k) →
  (woken (f (cpus s c)) = false → woken (cpus s c) = false) →
  (waiting_defers (f (cpus s c)) ≠ [] → length (front (f (cpus s c))) = queue_size ∧
    (at_ (cpus s c) = ISleep → woken (f (cpus s c)) = false → (0 < kicks (f (cpus s c)))%nat)) →
  (due (f (cpus s c)) ≤ length (front (f (cpus s c))))%nat ∧
    (at_ (cpus s c) = ISleep → woken (f (cpus s c)) = false → due (f (cpus s c)) = 0%nat) →
  live (upd c f s0).
Proof.
  intros Hl Hc E0 (Ea & Eq & Eg & Er) Hw Hwd Hd. pose proof (Hl c Hc) as [H1 H2 H3 H0 H4 H5 H6 H7].
  eapply (nudges_live s _ c); [done|done|apply nudges_upd; rewrite ?Ea, ?Eg; try done; by left|].
  assert (∀ x, cpus (upd c f s0) x = if decide (x = c) then f (cpus s c) else cpus s x) as Hs by (intros x; by rewrite cpus_upd, E0).
  split; rewrite ?(Hs c), ?(decide_True (P := c = c)) by done; rewrite ?Ea, ?Eq, ?Eg, ?Er; try done.
  - intros g c' Ha Hc' Hne. rewrite Hs, decide_False by done. by apply H1.
  - intros Hdr Hw'. destruct (H4 Hdr (Hw Hw')) as [?|(c' & g & l & Hc' & Ha)]; [by left|]. right. exists c', g, l. split; [done|].
    rewrite Hs. destruct (decide (c' = c)) as [->|]; [by rewrite Ea|done].
  - intros g Hg Hw'. destruct (H5 g Hg (Hw Hw')) as (c' & Hc' & Hcase). exists c'. split; [done|].
    rewrite Hs. destruct (decide (c' = c)) as [->|]; [by rewrite Eg, Ea|done].
Qed.

Lemma enter_live s c x : live s → (c < n)%nat → live (enter n c x s).
Proof.
  intros Hl Hc. pose proof (Hl c Hc) as Hk. pose proof (l_due _ _ Hk) as Hd. unfold enter.
  case_decide as Hf.
  - apply (live_keep s); try done. intros _. split; [done|]. cbn. lia.
  - set (F := λ k, set_logs _ _ _).
    assert (front (F (cpus s c)) = front (cpus s c) ++ [Cb x (active n s)]) as EF by (unfold front; cbn; apply fn_lookup_insert).
    apply (live_keep s); try done; rewrite EF, length_app.
    + intros Hw. by destruct Hf; apply (l_waiting _ _ Hk).
    + split; [cbn; lia|apply Hd].
Qed.

Lemma advance_live s s' c : inv s → live s → advance n c s = Some s' → live s'.
Proof.
  intros Hi Hl Hs. unfold advance in Hs. case_decide as Hc; [|done]. destruct (reader (cpus s c)) eqn:Hrd; [done|].
  pose proof (proj2 Hi c Hc) as Hk. pose proof (Hl c Hc) as Hv. pose proof (live_room _ _ Hv) as Hrm.
  destruct (at_ (cpus s c)) as [| |g|g l|g l r|g l|v k|l k|l k|g|g l|g|g| |l| | |] eqn:Hat; rewrite <- ?Hat in Hs;
    try (by eapply request_live); try (by eapply generation_live); try (by eapply wait_live).
  - injection Hs as <-. unfold top. pose proof (k_back _ _ Hk) as Hb. rewrite Hat in Hb. specialize (Hb eq_refl).
    destruct (front (cpus s c)) eqn:Hf.
    + eapply (nudges_live s _ c); [done|done|apply nudges_upd; rewrite ?Hat; try done; by left|]. rest. split; [done|apply Hrm].
    + eapply (nudges_live s _ c); [done|done|apply nudges_upd; rewrite ?Hat; try done; by left|]. rest. split; [done|cbn; lia].
  - injection Hs as <-. eapply (nudges_live s _ c); [done|done|apply nudges_upd; rewrite ?Hat; try done; by left|].
    eapply live_work; rewrite ?cpus_upd, ?decide_True by done; try done; [|by right].
    intros x Hx Hxc []. by apply others_spec.
  - injection Hs as <-. plain s c Hat. work g Hat; [|by left]. intros x Hx Hxc []. by apply others_spec.
  - rewrite Hat in Hs. injection Hs as <-. plain s c Hat. rest. split; unfold front; cbn; rewrite fn_lookup_insert_ne by (by destruct (buf (cpus s c))); apply Hrm.
  - rewrite Hat in Hs. destruct l; injection Hs as <-; plain s c Hat; rest.
Qed.

Lemma step_live s s' : inv s → live s → calm n s s' → live s'.
Proof.
  intros Hi Hl [[(c & Hc & [Ha|[_ [Hk|[x Hx]]]])|(c & o & Ho)] Hn].
  - by eapply advance_live.
  - unfold kick in Hk. destruct (kicks (cpus s c)); [done|]. injection Hk as <-. pose proof (Hl c Hc) as Hv.
    apply (live_keep s); try done.
    + intros Hw. split; [by apply (l_waiting _ _ Hv)|done].
    + split; [apply (l_due _ _ Hv)|done].
  - unfold retry in Hx. case_decide; [|done]. injection Hx as <-. apply enter_live; [|done]. intros y Hy. by destruct (Hl y Hy).
  - unfold call in Ho. case_decide as Hc; [|done]. pose proof (Hl c Hc) as Hv.
    destruct o, (reader (cpus s c)) eqn:Hr; try done; injection Ho as <-.
    + apply (live_keep s); try done; apply Hv.
    + apply (live_keep s); try done; apply Hv.
    + apply enter_live; [|done]. intros y Hy. by destruct (Hl y Hy).
    + apply (live_keep s); try done. intros Hw. split; [by apply (l_waiting _ _ Hv)|done].
    + apply (live_keep s); try done. intros Hw. split; [by apply (l_waiting _ _ Hv)|done].
Qed.

Lemma reachable_live s : rtc (calm n) start s → inv s ∧ live s.
Proof.
  intros Hr. assert (∀ s0, rtc (calm n) s0 s → inv s0 ∧ live s0 → inv s ∧ live s) as H.
  - clear Hr. intros s0 H. induction H as [|s0 s1 s2 H1 _ IH]; [done|]. intros [Hi Hl]. apply IH. split; [by eapply step_preserves|by eapply step_live].
  - apply (H start); [done|]. split; [apply start_ok|]. intros c Hc. by apply (live_rest _ _ Top).
Qed.

(** A thread without a step sleeps, and has not been woken. *)
Lemma asleep s c :
  inv s → (c < n)%nat → reader (cpus s c) = None → advance n c s = None →
  ((∃ g, at_ (cpus s c) = Sleep g) ∨ at_ (cpus s c) = ISleep) ∧ woken (cpus s c) = false.
Proof.
  intros Hi Hc Hrd Hn. pose proof (k_shape _ _ (proj2 Hi c Hc)) as [_ Hsh]. unfold advance in Hn. rewrite decide_True, Hrd in Hn by done.
  destruct (at_ (cpus s c)) as [| |g|g l|g l r|g l|v k|l k|l k|g|g l|g|g| |l| | |]; cbn in Hn; try done;
    try (by destruct l); try (destruct l; [done|]; by case_match); destruct (woken (cpus s c)) eqn:Hw; try done; eauto.
Qed.

End Inv.

(** ** Theorems *)

(** C12: A callback given to [rcu_defer] waits for a grace period, and is run once.
    Whenever a CPU is about to run a callback, none of the read-side sections that
    were open on any CPU when it was deferred is open still; and the callbacks of
    a CPU are run in the order in which they were deferred, none of them twice and
    none of them dropped. *)
Theorem rcu_grace_period n s c :
  rtc (calm n) start s → (c < n)%nat →
  (∀ f l c' i, at_ (cpus s c) = Run (f :: l) → (c' < n)%nat → reader (cpus s c') = Some i → i ∉ before f) ∧
  posted (cpus s c) = ran (cpus s c) ++ running (at_ (cpus s c)) ++ back (cpus s c) ++ front (cpus s c).
Proof.
  intros Hr%reachable_inv Hc. pose proof (proj2 Hr c Hc) as Hk. split; [|apply Hk]. intros f l c' i Hat Hc' Hi Hin.
  destruct (k_pc _ _ _ Hk) as [_ He]. pose proof (k_old _ _ _ Hk) as Ho. rewrite Hat in He, Ho. specialize (He c' i Hc' Hi).
  assert (f ∈ running (Run (f :: l)) ++ back (cpus s c)) as Hf by elem. specialize (Ho f i Hf Hin). lia.
Qed.

(** C13: Grace periods end.  If no section is open and none of the threads can go on,
    each of the cleaning threads waits for work: it has answered all requests,
    nobody waits for room in its buffers, and every callback it had been woken for
    has been run; so [rcu_synchronize] returns, and no wakeup is lost. *)
Theorem rcu_live n s c :
  rtc (calm n) start s → (∀ c, (c < n)%nat → reader (cpus s c) = None) → (∀ s', ¬ internal n s s') → (c < n)%nat →
  at_ (cpus s c) = ISleep ∧ request (cpus s c) ≤ generation (cpus s c) ∧ back (cpus s c) = [] ∧
  due (cpus s c) = 0%nat ∧ waiting_defers (cpus s c) = [] ∧ ∀ x, (c, x) ∉ released s.
Proof.
  intros [Hi Hl]%reachable_live Hrd Hn Hc.
  assert (∀ c, (c < n)%nat → ((∃ g, at_ (cpus s c) = Sleep g) ∨ at_ (cpus s c) = ISleep) ∧ woken (cpus s c) = false) as Hs.
  { intros x Hx. apply (asleep n); try done; [by apply Hrd|]. destruct (advance n x s) as [s'|] eqn:E; [|done].
    destruct (Hn s'). exists x. eauto. }
  assert (∀ c, (c < n)%nat → request (cpus s c) ≤ generation (cpus s c)) as Hq.
  { intros x Hx. destruct (Hs x Hx) as [Hat Hw]. destruct (l_drowsy _ _ _ (Hl x Hx)) as [?|(c' & g & l & Hc' & Ha)]; try done.
    - by destruct Hat as [[g ->]| ->].
    - destruct (Hs c' Hc') as [[[? ?]|?] _]; congruence. }
  assert (at_ (cpus s c) = ISleep) as Hat.
  { destruct (Hs c Hc) as [[[g Hat]|?] Hw]; [|done]. exfalso. pose proof (Hl c Hc) as Hk.
    destruct (l_sleep _ _ _ Hk g Hat Hw) as (c' & Hc' & [Hlt|[_ Ht]]).
    - assert (c' ≠ c) as Hne.
      { intros ->. pose proof (l_counted _ _ _ Hk g) as H. rewrite Hat in H. specialize (H eq_refl eq_refl). lia. }
      pose proof (l_asked _ _ _ Hk g c') as H. rewrite Hat in H. specialize (H eq_refl Hc' Hne (not_elem_of_nil _)). specialize (Hq c' Hc'). lia.
    - destruct (Hs c' Hc') as [[[? Ha]|Ha] _]; by rewrite Ha in Ht. }
  destruct (Hs c Hc) as [_ Hw]. pose proof (Hl c Hc) as Hk.
  assert (kicks (cpus s c) = 0%nat) as Hki.
  { destruct (kicks (cpus s c)) eqn:E; [done|]. edestruct Hn. exists c. split; [done|]. right. split; [by apply Hrd|]. left. unfold kick. by rewrite E. }
  split_and!; [done|by apply Hq| | | |].
  - apply (k_back _ _ _ (proj2 Hi c Hc)). by rewrite Hat.
  - by apply (l_due _ _ _ Hk).
  - destruct (waiting_defers (cpus s c)) eqn:E; [done|]. destruct (l_waiting _ _ _ Hk) as [_ H]; [by rewrite E|]. specialize (H Hat Hw). lia.
  - intros x Hx. edestruct Hn. exists c. split; [done|]. right. split; [by apply Hrd|]. right. exists x. unfold retry. by rewrite decide_True.
Qed.

(** *** Instances of the theorems *)

(** A run of two CPUs: calls ([Some o]) and steps ([None]) of the given CPUs. *)
Fixpoint run (l : list (nat * option op)) (s : st) : option st :=
  match l with
  | [] => Some s
  | (c, o) :: l =>
      s ← match o with Some o => call 2 c o s | None => advance 2 c s end;
      if next_generation s <? 2 ^ 64 - 1 then run l s else None
  end.

Lemma run_calm_2 l s s' : run l s = Some s' → rtc (calm 2) s s'.
Proof.
  revert s. induction l as [|[c o] l IH]; intros s H; [injection H as <-; done|]. cbn [run] in H.
  apply bind_Some in H as (s1 & H1 & H). destruct (Z.ltb_spec (next_generation s1) (2 ^ 64 - 1)); [|done].
  apply rtc_l with s1; [|by apply IH]. split; [|done]. destruct o as [o|]; [right; eauto|left].
  exists c. split; [|by left]. unfold advance in H1. by case_decide.
Qed.

(** A callback is deferred on the CPU 0 while the section 0 is open on 1; it is run
    when that one is closed, here with the section 1 open. *)
Definition ex_cleaning : list (nat * option op) :=
  [(1%nat, Some OReadLock); (0%nat, Some ODefer); (0%nat, Some OWake)] ++ replicate 13 (0%nat, None) ++
  [(1%nat, Some OReadUnlock)] ++ replicate 6 (1%nat, None) ++ replicate 7 (0%nat, None) ++ [(1%nat, Some OReadLock)].
Definition ex_cleaning_state : st := default start (run ex_cleaning start).

(** The same, up to the end of the cleanup. *)
Definition ex_rest : list (nat * option op) := ex_cleaning ++ [(1%nat, Some OReadUnlock)] ++ replicate 4 (0%nat, None) ++ replicate 3 (1%nat, None).
Definition ex_rest_state : st := default start (run ex_rest start).

Lemma rcu_grace_period_witness :
  at_ (cpus ex_cleaning_state 0%nat) = Run [Cb 0 [0%nat]] ∧ reader (cpus ex_cleaning_state 1%nat) = Some 1%nat ∧ (1%nat) ∉ [0%nat].
Proof.
  assert (rtc (calm 2) start ex_cleaning_state) as Hr by (apply (run_calm_2 ex_cleaning); vm_compute; reflexivity).
  assert (at_ (cpus ex_cleaning_state 0%nat) = Run [Cb 0 [0%nat]]) as Ha by (vm_compute; reflexivity).
  assert (reader (cpus ex_cleaning_state 1%nat) = Some 1%nat) as Hi by (vm_compute; reflexivity).
  split; [exact Ha|]. split; [exact Hi|].
  destruct (rcu_grace_period 2 ex_cleaning_state 0 Hr) as [H _]; [lia|].
  exact (H (Cb 0 [0%nat]) [] 1%nat 1%nat Ha ltac:(lia) Hi).
Defined.

Lemma two_at_rest s :
  advance 2 0 s = None → advance 2 1 s = None → released s = ∅ → kicks (cpus s 0%nat) = 0%nat → kicks (cpus s 1%nat) = 0%nat →
  ∀ s', ¬ internal 2 s s'.
Proof.
  intros H0 H1 H2 H3 H4 s' (c & Hc & [Ha|[_ [Hk|[x Hx]]]]).
  - destruct c as [|[|c]]; [congruence|congruence|lia].
  - unfold kick in Hk. destruct c as [|[|c]]; [by rewrite H3 in Hk|by rewrite H4 in Hk|lia].
  - unfold retry in Hx. rewrite H2 in Hx. rewrite decide_False in Hx; [done|set_solver].
Qed.

Lemma rcu_live_witness :
  at_ (cpus ex_rest_state 0%nat) = ISleep ∧ ran (cpus ex_rest_state 0%nat) = [Cb 0 [0%nat]] ∧ due (cpus ex_rest_state 0%nat) = 0%nat.
Proof.
  assert (rtc (calm 2) start ex_rest_state) as Hr by (apply (run_calm_2 ex_rest); vm_compute; reflexivity).
  assert (ran (cpus ex_rest_state 0%nat) = [Cb 0 [0%nat]]) as He by (vm_compute; reflexivity).
  assert (∀ s', ¬ internal 2 ex_rest_state s') as Hn by (apply two_at_rest; vm_compute; reflexivity).
  destruct (rcu_live 2 ex_rest_state 0 Hr) as (Ha & _ & _ & Hd & _); [|exact Hn|lia|exact (conj Ha (conj He Hd))].
  intros [|[|c]] Hc; [vm_compute; reflexivity|vm_compute; reflexivity|lia].
Defined.
