(* ===== verification/Sched.v ===== *)
(** * The scheduler: waiting, waking and switching threads

    [core/sched.cc] and [include/osv/sched.hh]: the states of a thread, the run
    queue and the queues of incoming wakeups of each CPU, [reschedule], the idle
    loop, and the paths by which a thread waits, is woken, yields, starts, ends and
    is joined.  A step is the next access of one CPU to memory it shares with other
    CPUs; what a CPU does to its own data with interrupts disabled belongs to the
    step.  A CPU runs an interrupt handler, the scheduler, a wakeup, or its thread,
    in this order.  A wakeup that the thread, or the handler, is busy with is a
    [waker].

    The scheduler orders normal threads by a floating point number, the runtime;
    here it is an integer relative to the CPU's scale.  The values that follow from
    the clock are arguments of the steps, see [ticks].  Threads keep their CPU. *)
From S2P Require Import Prelude.

Module Sched.

(** Every CPU has its idle thread, and a thread that it runs first: [init] on the
    boot CPU, the bring-up thread on the others. *)
Inductive tid := Idle (c : nat) | First (c : nat) | Th (i : nat).

#[export] Instance tid_eq_dec : EqDecision tid.
Proof. solve_decision. Defined.

Inductive status :=
  | invalid | prestarted | unstarted | waiting | sending_lock | running | queued | waking | terminating | terminated.

#[export] Instance status_eq_dec : EqDecision status.
Proof. solve_decision. Defined.

(** What a thread waits for: a condition that those who wake it establish, or the
    end of another thread. *)
Inductive why := Flag | Join (z : tid).

(** Where a thread is. *)
Inductive pc :=
  | New                             (* has not run yet *)
  | Go                              (* in its own code *)
  (* [do_wait_until], [prepare_wait], [wait], [stop_wait] *)
  | Loop (k : why)                  (* before [prepare_wait] *)
  | Prep (k : why)                  (* before the condition *)
  | Block (k : why)                 (* the condition was false *)
  | Slept (k : why)                 (* in [cpu::schedule] *)
  | Stop (o : option why)           (* before the exchange of [stop_wait] *)
  | Stop2 (o : option why)          (* the loop behind it: the first load *)
  | Stop3 (o : option why)          (* the second load *)
  (* [complete] *)
  | Exit1 | Exit2 | Exit3
  (* [do_idle] *)
  | IStart | IPoll (ctr : nat) | IExit | IEnd | IIrq | IHalt | IAfter | ISched.

#[export] Instance why_eq_dec : EqDecision why.
Proof. solve_decision. Defined.
#[export] Instance pc_eq_dec : EqDecision pc.
Proof. solve_decision. Defined.

(** [locks]: the preemption counter of the lock the thread holds, and whether the
    thread has stayed on its CPU since it took the lock. *)
Record thread := T {
  st : status;
  tcpu : nat;
  prio : Z;
  rt : Z;
  need_reschedule : bool;
  at_ : pc;
  joiner : option tid;
  cond : bool;
  locks : option (nat * bool);
}.

(** What a waker does before the wakeup itself, and how far it is in [wake_impl];
    [wcpu] is the CPU it found the thread on.  [WBack] belongs to [wake_lock], which is
    about to take [sending_lock] back. *)
Inductive deed := Nothing | SetFlag | Terminate (z : tid).
Inductive wstage := WAct | WCas | WPush | WSet | WPoll | WSize | WDone | WBack.
Record waker := W { tgt : tid; from_mutex : bool; deed_of : deed; wcpu : nat; stg : wstage }.

(** What follows [handle_incoming_wakeups]. *)
Inductive after := AResched (called_from_yield : bool) | AYield | APoll | AIrq | AHalt.

(** Where the scheduler is. *)
Inductive stage :=
  | HFetch (w : nat) (acc : list nat) (k : after)   (* [fetch_clear] at the word [w] *)
  | HDrain (l : list nat) (k : after)               (* the queues [l] are left *)
  | SPick (called_from_yield : bool)                (* [reschedule_from_interrupt] behind it *)
  | STail                                           (* behind the switch *)
  | SWake.                                          (* and waking a thread that joins *)

Record cpu := C {
  rq : list tid;
  inc : nat → list tid;
  mask : gset nat;
  cur : tid;
  dying : option tid;
  idle_poll : bool;
  ipi : bool;
  irq : bool;
  wk : bool → option waker;
  sched : option stage;
}.

Record state := S_ { thr : tid → thread; cpus : nat → cpu; counters : nat → Z; aborted : bool }.

Definition set_st x (t : thread) := T x (tcpu t) (prio t) (rt t) (need_reschedule t) (at_ t) (joiner t) (cond t) (locks t).
Definition set_tcpu x (t : thread) := T (st t) x (prio t) (rt t) (need_reschedule t) (at_ t) (joiner t) (cond t) (locks t).
Definition set_prio x (t : thread) := T (st t) (tcpu t) x (rt t) (need_reschedule t) (at_ t) (joiner t) (cond t) (locks t).
Definition set_rt x (t : thread) := T (st t) (tcpu t) (prio t) x (need_reschedule t) (at_ t) (joiner t) (cond t) (locks t).
Definition set_need x (t : thread) := T (st t) (tcpu t) (prio t) (rt t) x (at_ t) (joiner t) (cond t) (locks t).
Definition set_pc x (t : thread) := T (st t) (tcpu t) (prio t) (rt t) (need_reschedule t) x (joiner t) (cond t) (locks t).
Definition set_joiner x (t : thread) := T (st t) (tcpu t) (prio t) (rt t) (need_reschedule t) (at_ t) x (cond t) (locks t).
Definition set_cond x (t : thread) := T (st t) (tcpu t) (prio t) (rt t) (need_reschedule t) (at_ t) (joiner t) x (locks t).
Definition set_locks x (t : thread) := T (st t) (tcpu t) (prio t) (rt t) (need_reschedule t) (at_ t) (joiner t) (cond t) x.

Definition set_rq x (k : cpu) := C x (inc k) (mask k) (cur k) (dying k) (idle_poll k) (ipi k) (irq k) (wk k) (sched k).
Definition set_inc x (k : cpu) := C (rq k) x (mask k) (cur k) (dying k) (idle_poll k) (ipi k) (irq k) (wk k) (sched k).
Definition set_mask x (k : cpu) := C (rq k) (inc k) x (cur k) (dying k) (idle_poll k) (ipi k) (irq k) (wk k) (sched k).
Definition set_cur x (k : cpu) := C (rq k) (inc k) (mask k) x (dying k) (idle_poll k) (ipi k) (irq k) (wk k) (sched k).
Definition set_dying x (k : cpu) := C (rq k) (inc k) (mask k) (cur k) x (idle_poll k) (ipi k) (irq k) (wk k) (sched k).
Definition set_poll x (k : cpu) := C (rq k) (inc k) (mask k) (cur k) (dying k) x (ipi k) (irq k) (wk k) (sched k).
Definition set_ipi x (k : cpu) := C (rq k) (inc k) (mask k) (cur k) (dying k) (idle_poll k) x (irq k) (wk k) (sched k).
Definition set_irq x (k : cpu) := C (rq k) (inc k) (mask k) (cur k) (dying k) (idle_poll k) (ipi k) x (wk k) (sched k).
Definition set_wk (b : bool) x (k : cpu) := C (rq k) (inc k) (mask k) (cur k) (dying k) (idle_poll k) (ipi k) (irq k) (<[b := x]> (wk k)) (sched k).
Definition set_sched x (k : cpu) := C (rq k) (inc k) (mask k) (cur k) (dying k) (idle_poll k) (ipi k) (irq k) (wk k) x.

Definition upt (t : tid) (f : thread → thread) (s : state) : state :=
  S_ (<[t := f (thr s t)]> (thr s)) (cpus s) (counters s) (aborted s).
Definition upc (c : nat) (f : cpu → cpu) (s : state) : state :=
  S_ (thr s) (<[c := f (cpus s c)]> (cpus s)) (counters s) (aborted s).
Definition abort (s : state) : state := S_ (thr s) (cpus s) (counters s) true.

Notation current s c := (cur (cpus s c)).
Definition goto (t : tid) (p : pc) (s : state) : state := upt t (set_pc p) s.

Definition max_cpus : nat := 256.
Definition nr_words : nat := 4.
Definition word (i : nat) : nat := (i / 64)%nat.

(** Every CPU runs its first thread, and has started its idle thread. *)
Definition start_thread (t : tid) : thread :=
  match t with
  | Idle c => T queued c 0 0 false IStart None false None
  | First c => T running c 0 0 false Go None false None
  | Th i => T unstarted 0 0 0 false New None false None
  end.
Definition start : state :=
  S_ start_thread (λ c, C [Idle c] (λ _, []) ∅ (First c) None false false false (λ _, None) None) (λ _, 0) false.

(** ** The run queue *)

(** The runtime of the idle thread is infinite. *)
Definition rt_less (s : state) (a b : tid) : bool :=
  match a, b with
  | Idle _, _ => false
  | _, Idle _ => true
  | _, _ => rt (thr s a) <? rt (thr s b)
  end.

(** [thread_runtime_compare] *)
Definition less (s : state) (a b : tid) : bool :=
  if prio (thr s b) <? prio (thr s a) then true
  else if 0 <? prio (thr s b) then false
  else rt_less s a b.

(** [insert_equal]: behind its equals; [insert_before] of [lower_bound]: before. *)
Fixpoint insert_equal (s : state) (t : tid) (l : list tid) : list tid :=
  match l with [] => [t] | u :: l' => if less s t u then t :: l else u :: insert_equal s t l' end.
Fixpoint insert_first (s : state) (t : tid) (l : list tid) : list tid :=
  match l with [] => [t] | u :: l' => if less s u t then u :: insert_first s t l' else t :: l end.

Definition enqueue (c : nat) (t : tid) (s : state) : state := upc c (λ k, set_rq (insert_equal s t (rq k)) k) s.
Definition enqueue_first_equal (c : nat) (t : tid) (s : state) : state := upc c (λ k, set_rq (insert_first s t (rq k)) k) s.

(** ** Preemption *)

Definition preemptable (s : state) (c : nat) : bool :=
  match at_ (thr s (current s c)), wk (cpus s c) false, sched (cpus s c) with
  | (Go | Loop _ | Stop2 _ | Stop3 _), None, None => true
  | _, _, _ => false
  end.

(** [reschedule_from_interrupt] begins. *)
Definition enter (c : nat) (yield : bool) (s : state) : state :=
  upc c (set_sched (Some (HFetch 0 [] (AResched yield)))) (upt (current s c) (set_need false) s).

Definition preempt (c : nat) (s : state) : state :=
  if preemptable s c then enter c false s else upt (current s c) (set_need true) s.

Definition preempt_enable (c : nat) (s : state) : state :=
  if preemptable s c && need_reschedule (thr s (current s c)) then enter c false s else s.

(** ** Wakeups *)

Definition wstep (c : nat) (b : bool) (w : waker) (s : state) : option state :=
  let t := tgt w in
  let d := wcpu w in
  let to x := upc c (set_wk b (Some (W t (from_mutex w) (deed_of w) d x))) in
  match stg w with
  | WAct =>
      let s := match deed_of w with
               | Nothing => s
               | SetFlag => upt t (set_cond true) s
               | Terminate z => upt z (set_st terminated) s
               end in
      Some (to WCas s)
  | WCas =>
      if decide (st (thr s t) = waiting ∨ from_mutex w = true ∧ st (thr s t) = sending_lock)
      then Some (upc c (set_wk b (Some (W t (from_mutex w) (deed_of w) (tcpu (thr s t)) WPush))) (upt t (set_st waking) s)) else Some (to WDone s)
  | WPush => Some (to WSet (upc d (λ k, set_inc (<[c := inc k c ++ [t]]> (inc k)) k) s))
  | WSet =>
      let first := bool_decide (filter (λ i, word i = word c) (mask (cpus s d)) = ∅) in
      let s' := upc d (λ k, set_mask ({[c]} ∪ mask k) k) s in
      if first then
        if decide (d = c) then Some (to WDone (upt (current s c) (set_need true) s')) else Some (to WPoll s')
      else Some (to WDone s')
  | WPoll => Some (to (if idle_poll (cpus s d) then WDone else WSize) s)
  | WSize => Some (to WDone (if decide (length (rq (cpus s d)) ≤ 1)%nat then upc d (set_ipi true) s else s))
  | WDone =>
      let s := upc c (set_wk b None) s in
      Some (if b then s
            else match sched (cpus s c) with
                 | Some SWake => upc c (set_sched None) s
                 | _ => preempt_enable c s
                 end)
  | WBack => Some (to WDone (upt t (set_st waiting) s))
  end.

(** ** The end of a thread *)

(** [destroy], with the [terminating_thread = nullptr] that follows it; [g] is the
    stage of the scheduler while the thread that joins is woken. *)
Definition destroy (c : nat) (z : tid) (g : option stage) (s : state) : state :=
  if decide (current s c = z) then abort s
  else if decide (st (thr s z) = terminating) then
    match joiner (thr s z) with
    | None => upt z (λ t, set_st terminated (set_joiner (Some z) t)) (upc c (λ k, set_sched None (set_dying None k)) s)
    | Some j => upc c (λ k, set_wk false (Some (W j false (Terminate z) 0 WAct)) (set_sched g (set_dying None k))) s
    end
  else abort s.

(** ** [reschedule_from_interrupt] *)

(** What the clock adds to the runtimes: of the thread that ran, before and after the
    hysteresis is given back, of the one that is to run, and of one that wakes. *)
Record ticks := Ticks { ran_for : Z; run_stop : Z; run_start : Z; after_sleep : Z }.

(** The thread [p] goes on, with [t] first in the queue. *)
Definition goes_on (s : state) (yield : bool) (p t : tid) : bool :=
  if yield then (0 <? prio (thr s p)) && (prio (thr s t) <? prio (thr s p))
  else if 0 <? prio (thr s p) then prio (thr s t) <=? prio (thr s p)
  else (prio (thr s t) =? 0) && rt_less s p t.

(** The preemption counters of the locks that the two threads hold. *)
Definition count_out (p : tid) (s : state) : state :=
  match locks (thr s p) with
  | None => s
  | Some (a, _) =>
      let s' := S_ (<[p := set_locks (Some (a, false)) (thr s p)]> (thr s)) (cpus s) (<[a := counters s a + 1]> (counters s)) (aborted s) in
      if counters s a =? 0 then s' else abort s'
  end.
Definition count_in (n : tid) (s : state) : state :=
  match locks (thr s n) with
  | None => s
  | Some (a, _) =>
      let s' := S_ (<[n := set_locks (Some (a, false)) (thr s n)]> (thr s)) (cpus s) (<[a := counters s a - 1]> (counters s)) (aborted s) in
      if counters s a =? 1 then s' else abort s'
  end.

(** The switch from [p] to the first thread of the queue. *)
Definition switch (c : nat) (yield : bool) (r : ticks) (p : tid) (s : state) : state :=
  match rq (cpus s c) with
  | [] => abort s
  | n :: l =>
      let s := upc c (set_rq l) s in
      if decide (st (thr s n) = queued) then
        let s := count_in n (count_out p s) in
        let s := if yield then enqueue c p s else s in
        let s := upt n (λ t, set_rt (run_start r) (set_st running t)) s in
        if decide (n = p) then abort s else upc c (λ k, set_sched (Some STail) (set_cur n k)) s
      else abort s
  end.

(** Behind [handle_incoming_wakeups]. *)
Definition pick (c : nat) (yield : bool) (r : ticks) (s : state) : state :=
  let p := current s c in
  if decide (st (thr s p) = queued) then abort s
  else
    let s := upt p (set_rt (ran_for r)) s in
    if decide (st (thr s p) = running) then
      match rq (cpus s c) with
      | [] => upc c (set_sched None) s
      | t :: _ =>
          if goes_on s yield p t then upc c (set_sched None) s
          else
            let s := upt p (λ t, set_st queued (set_rt (run_stop r) t)) s in
            switch c yield r p (if yield then s else enqueue_first_equal c p s)
      end
    else switch c yield r p (upt p (set_rt (run_stop r)) s).

(** ** [handle_incoming_wakeups] *)

(** A thread from the queues of incoming wakeups. *)
Definition arrive (c : nat) (r : ticks) (t : tid) (s : state) : state :=
  if decide (t = current s c) then upt t (set_st running) s
  else if decide (tcpu (thr s t) = c) then enqueue c t (upt t (λ x, set_rt (after_sleep r) (set_st queued x)) s)
  else s.

(** What follows. *)
Definition proceed (c : nat) (k : after) (s : state) : state :=
  let me := current s c in
  let l := rq (cpus s c) in
  match k with
  | AResched y => upc c (set_sched (Some (SPick y))) s
  | AYield =>
      let out := upc c (set_sched None) s in
      match l with
      | [] => out
      | n :: _ =>
          if decide (st (thr s me) = running) then
            match n with Idle _ => out | _ => enter c true s end
          else abort s
      end
  | APoll =>
      goto me (match l, at_ (thr s me) with
               | _ :: _, _ => IExit
               | [], IPoll ctr => if (Z.of_nat ctr + 1 <? 10000) then IPoll (S ctr) else IEnd
               | [], p => p
               end) (upc c (set_sched None) s)
  | AIrq => goto me (match l with [] => IHalt | _ => ISched end) (upc c (set_sched None) s)
  | AHalt => goto me (match l with [] => IStart | _ => ISched end) (upc c (set_sched None) s)
  end.

Definition sched_step (c : nat) (g : stage) (r : ticks) (s : state) : option state :=
  match g with
  | HFetch w acc k =>
      if decide (w < nr_words)%nat then
        let l := filter (λ i, i ∈ mask (cpus s c) ∧ word i = w) (seq 0 max_cpus) in
        Some (upc c (λ x, set_sched (Some (HFetch (S w) (acc ++ l) k)) (set_mask (mask x ∖ list_to_set l) x)) s)
      else Some (upc c (set_sched (Some (HDrain acc k))) s)
  | HDrain [] k => Some (proceed c k s)
  | HDrain (i :: l) k =>
      match inc (cpus s c) i with
      | [] => Some (upc c (set_sched (Some (HDrain l k))) s)
      | t :: q => Some (arrive c r t (upc c (λ x, set_inc (<[i := q]> (inc x)) x) s))
      end
  | SPick y => Some (pick c y r s)
  | STail =>
      let n := current s c in
      match at_ (thr s n), dying (cpus s c) with
      | New, _ => Some (preempt_enable c (goto n Go (upc c (set_sched None) s)))
      | _, None => Some (upc c (set_sched None) s)
      | _, Some z => Some (destroy c z (Some SWake) s)
      end
  | SWake => match wk (cpus s c) false with Some w => wstep c false w s | None => None end
  end.

(** ** The threads *)

Definition holds (s : state) (t : tid) (k : why) : bool :=
  match k with Flag => cond (thr s t) | Join z => bool_decide (st (thr s z) = terminated) end.

Definition back (o : option why) : pc := match o with Some k => Loop k | None => Go end.

Definition thread_step (c : nat) (s : state) : option state :=
  let t := current s c in
  match at_ (thr s t) with
  | New | Go | IHalt => None
  | Loop k => Some (if decide (st (thr s t) = running) then goto t (Prep k) (upt t (set_st waiting) s) else abort s)
  | Prep k =>
      Some (if holds s t k then goto t (Stop None) (match k with Flag => upt t (set_cond false) s | Join _ => s end)
            else goto t (Block k) s)
  | Block k => Some (enter c false (goto t (Slept k) s))
  | Slept k => Some (goto t (Stop (Some k)) s)
  | Stop o =>
      Some (if decide (st (thr s t) = waiting) then preempt_enable c (goto t (back o) (upt t (set_st running) s))
            else if decide (st (thr s t) = terminated) then enter c false (goto t (Stop2 o) s)
            else preempt_enable c (goto t (Stop2 o) s))
  | Stop2 o => Some (if decide (st (thr s t) = waking) then enter c false s else goto t (Stop3 o) s)
  | Stop3 o =>
      Some (if decide (st (thr s t) = sending_lock) then enter c false (goto t (Stop2 o) s)
            else if decide (st (thr s t) = running) then goto t (back o) s else abort s)
  | Exit1 =>
      Some (goto t Exit2
        (match dying (cpus s c) with Some z => if decide (z = t) then abort s else destroy c z None s | None => s end))
  | Exit2 => Some (goto t Exit3 (upc c (set_dying (Some t)) s))
  | Exit3 => Some (enter c false s)
  | IStart => Some (goto t (IPoll 0) (upc c (set_poll true) s))
  | IPoll _ => Some (upc c (set_sched (Some (HFetch 0 [] APoll))) s)
  | IExit => Some (goto t ISched (upc c (set_poll false) s))
  | IEnd => Some (goto t IIrq (upc c (set_poll false) s))
  | IIrq => Some (upc c (set_sched (Some (HFetch 0 [] AIrq))) s)
  | IAfter => Some (upc c (set_sched (Some (HFetch 0 [] AHalt))) s)
  | ISched => Some (enter c false (goto t IStart s))
  end.

(** ** A CPU *)

Definition cstep (c : nat) (r : ticks) (s : state) : option state :=
  let k := cpus s c in
  if irq k then
    match wk k true with
    | Some w => wstep c true w s
    | None => Some (preempt c (upc c (set_irq false) s))
    end
  else
    match sched k with
    | Some g => sched_step c g r s
    | None => match wk k false with Some w => wstep c false w s | None => thread_step c s end
    end.

Inductive op :=
  | OWait | OJoin (z : tid) | OWake (t : tid) (with_flag mutex : bool) | OWakeLock (t : tid) (locking : bool) | OYield | OExit
  | OStart (t : tid) (c : nat) (p : Z) | OSetPriority (p : Z) | OPushLock (a : nat) | OPopLock (a : nat).

Definition new_waker (t : tid) (with_flag mutex : bool) : waker :=
  W t mutex (if with_flag then SetFlag else Nothing) 0 (if with_flag then WAct else WCas).

(** [wake_lock].  [locking]: the thread does not wait for the record any more, it is
    in the mutex's [lock] already, and then [send_lock_unless_already_waiting] returns
    false.  [wr->clear()] makes the condition true if the thread waits for the record. *)
Definition wake_lock (c : nat) (u : tid) (locking : bool) (s : state) : state :=
  let w x := upc c (set_wk false (Some (W u false Nothing (tcpu (thr s u)) x))) in
  if decide (st (thr s u) = waiting)
  then w (if locking then WBack else WDone) (upt u (set_st sending_lock) s)
  else w WDone (if locking then s else upt u (set_cond true) s).

(** The thread of [c] calls the scheduler: from its own code, or, for a wakeup, when
    it gives a mutex back before it waits.  [push_lock] asserts that preemption is
    off; its caller has disabled it for this one access, which is a step here. *)
Definition call (c : nat) (o : op) (s : state) : option state :=
  let t := current s c in
  match irq (cpus s c), sched (cpus s c), wk (cpus s c) false, at_ (thr s t) with
  | false, None, None, Go =>
      match o with
      | OWait => Some (goto t (Loop Flag) s)
      | OJoin z =>
          if decide (z = t) then None
          else if decide (st (thr s z) = unstarted) then Some s
          else match joiner (thr s z) with
               | None => Some (goto t (Loop (Join z)) (upt z (set_joiner (Some t)) s))
               | Some _ => Some s
               end
      | OWake u f m => Some (upc c (set_wk false (Some (new_waker u f m))) s)
      | OWakeLock u l => Some (wake_lock c u l s)
      | OYield => Some (upc c (set_sched (Some (HFetch 0 [] AYield))) s)
      | OExit => Some (goto t Exit1 (upt t (set_st terminating) s))
      | OStart u d p =>
          if decide (st (thr s u) = unstarted) then
            Some (upc c (set_wk false (Some (new_waker u false false)))
                    (upt u (λ x, set_st waiting (set_prio p (set_tcpu d x))) s))
          else Some (abort s)
      | OSetPriority p => Some (upt t (set_prio p) s)
      | OPushLock a => Some (upt t (set_locks (Some (a, true))) s)
      | OPopLock a =>
          let s' := upt t (set_locks None) s in
          Some (if bool_decide (fst <$> locks (thr s t) = Some a) then s' else abort s')
      end
  | false, None, None, Block _ =>
      match o with OWake u f m => Some (upc c (set_wk false (Some (new_waker u f m))) s) | _ => None end
  | _, _, _, _ => None
  end.

(** Interrupts: from another CPU ([own] false) or from a device. *)
Definition irq_enabled (s : state) (c : nat) : bool :=
  negb (irq (cpus s c)) &&
  match sched (cpus s c) with
  | None | Some (HFetch _ _ (APoll | AHalt)) | Some (HDrain _ (APoll | AHalt)) => true
  | _ => false
  end.

Definition interrupt (c : nat) (device : bool) (s : state) : option state :=
  if irq_enabled s c && (device || ipi (cpus s c)) then
    let s := upc c (λ k, set_irq true (if device then k else set_ipi false k)) s in
    Some (match at_ (thr s (current s c)) with IHalt => goto (current s c) IAfter s | _ => s end)
  else None.

(** A handler wakes a thread. *)
Definition irq_wake (c : nat) (t : tid) (with_flag : bool) (s : state) : option state :=
  match irq (cpus s c), wk (cpus s c) true with
  | true, None => Some (upc c (set_wk true (Some (new_waker t with_flag false))) s)
  | _, _ => None
  end.

(** The waker is going to make the condition of its thread true, or to wake it on
    behalf of a mutex. *)
Definition loud (w : waker) : bool :=
  match stg w with
  | WAct => from_mutex w || match deed_of w with SetFlag => true | _ => false end
  | WCas => from_mutex w
  | _ => false
  end.

(** A [wake_lock] has found [u] in the [lock] of a mutex. *)
Definition handing (s : state) (u : tid) : Prop := ∃ c b w, wk (cpus s c) b = Some w ∧ stg w = WBack ∧ tgt w = u.

(** The thread has let go of the mutex and waits for a record; it is in [lock]. *)
Definition released (p : pc) : bool := match p with Block Flag | Slept Flag => true | _ => false end.
Definition lockable (p : pc) : bool := match p with Prep Flag | Block Flag | Slept Flag => true | _ => false end.

(** What the callers see to: priorities are unsigned; a thread holds one lock at a
    time, gives back the one it holds, and no lock has two holders; a thread that was
    not started is started, once.  [wake_lock] is called with the mutex held: a thread
    that waits for the record has let go of the mutex; one that is in the queue of the
    mutex is not woken by the mutex, nor is its condition made true, before the caller
    has come back and unlocked it. *)
Definition may_wake (s : state) (t : tid) (with_flag mutex : bool) : Prop := with_flag || mutex = true → ¬ handing s t.

Definition allowed (s : state) (c : nat) (o : op) : Prop :=
  match o with
  | OWake u f m => may_wake s u f m
  | OWakeLock u false => (st (thr s u) = waiting → released (at_ (thr s u)) = true) ∧ ¬ handing s u
  | OWakeLock u true =>
      st (thr s u) = waiting →
      lockable (at_ (thr s u)) = true ∧ cond (thr s u) = false ∧ ∀ d b w, wk (cpus s d) b = Some w → tgt w = u → loud w = false
  | OStart u d p => st (thr s u) = unstarted ∧ (d < max_cpus)%nat ∧ 0 ≤ p
  | OSetPriority p => 0 ≤ p
  | OPushLock a => locks (thr s (current s c)) = None ∧ ∀ u b, locks (thr s u) ≠ Some (a, b)
  | OPopLock a => ∃ b, locks (thr s (current s c)) = Some (a, b)
  | _ => True
  end.

Inductive step (s : state) : state → Prop :=
  | step_cpu c r s' : (c < max_cpus)%nat → ran_for r < run_stop r → cstep c r s = Some s' → step s s'
  | step_call c o s' : (c < max_cpus)%nat → allowed s c o → call c o s = Some s' → step s s'
  | step_interrupt c b s' : (c < max_cpus)%nat → interrupt c b s = Some s' → step s s'
  | step_irq_wake c t f s' : (c < max_cpus)%nat → may_wake s t f false → irq_wake c t f s = Some s' → step s s'.

Definition reachable : state → Prop := rtc step start.

End Sched.
