(* ===== verification/SchedInv.v ===== *)
(** * The scheduler: what holds in every reachable state

    The invariant comes in groups that look at few fields each: where a thread is
    ([placed]), what its CPU does with it ([seated]), which wakeups are announced
    ([flow]) and seen before the CPU halts ([awake], [noticed]), who is to be woken ([conds]),
    the threads that end ([term]), the order of the run queue ([order]), the
    preemption counters ([cnt]) and the threads that [wake_lock] is busy with ([backs]). *)
From S2P Require Import Prelude Sched.

Module SchedInv.
Import Sched.

(** ** The invariant *)

Notation stt s t := (st (thr s t)).
Notation pct s t := (at_ (thr s t)).
Notation cput s t := (tcpu (thr s t)).

(** A thread that is [waking] is in a queue of incoming wakeups, or a waker has it. *)
Inductive spot := Nowhere | InQ (i : nat) | Pushing (c : nat) (b : bool).

Definition waker_at (s : state) (x : wstage) (c : nat) (b : bool) (t : tid) : Prop :=
  ∃ w, wk (cpus s c) b = Some w ∧ stg w = x ∧ tgt w = t.

Record placed (s : state) (L : tid → spot) : Prop := Placed {
  p_rq c t : t ∈ rq (cpus s c) ↔ stt s t = queued ∧ cput s t = c;
  p_rq_nodup c : NoDup (rq (cpus s c));
  p_inc c i t : t ∈ inc (cpus s c) i ↔ stt s t = waking ∧ cput s t = c ∧ L t = InQ i;
  p_inc_nodup c i : NoDup (inc (cpus s c) i);
  p_push c b t : waker_at s WPush c b t ↔ stt s t = waking ∧ L t = Pushing c b;
  p_wcpu c b w : wk (cpus s c) b = Some w → stg w = WPush → wcpu w = cput s (tgt w);
  p_waking t : stt s t = waking → L t ≠ Nowhere;
}.

Definition on (s : state) (t : tid) : bool := bool_decide (current s (cput s t) = t).

Definition is_idle (t : tid) : bool := match t with Idle _ => true | _ => false end.
Definition idle_pc (p : pc) : bool :=
  match p with IStart | IPoll _ | IExit | IEnd | IIrq | IHalt | IAfter | ISched => true | _ => false end.

(** The states of a thread that is at [p], on its CPU or not. *)
Definition pc_ok (o : bool) (x : status) (p : pc) : bool :=
  match p, o, x with
  | New, true, running | New, false, (unstarted | waiting | waking | queued) => true
  | (Go | Loop _ | Stop3 _ | IStart), true, running | (Go | Loop _ | Stop3 _ | IStart), false, queued => true
  | (Prep _ | Block _), true, (waiting | waking | sending_lock) => true
  | Slept _, true, (waiting | waking | sending_lock | running) => true
  | Slept _, false, (waiting | waking | sending_lock | queued) => true
  | Stop None, true, (waiting | waking | running) | Stop (Some _), true, running => true
  | Stop2 _, true, (waking | running) | Stop2 _, false, (waking | queued) => true
  | (Exit1 | Exit2 | Exit3), true, terminating | Exit3, false, (terminating | terminated) => true
  | (IPoll _ | IExit | IEnd | IIrq | IHalt | IAfter | ISched), true, running => true
  | _, _, _ => false
  end.

Definition after_ok (k : after) (p : pc) : bool :=
  match k, p with
  | AResched false, (Loop _ | Slept _ | Stop2 _ | Stop3 _ | Exit3 | IStart) => true
  | (AResched _ | AYield), Go | APoll, IPoll _ | AIrq, IIrq | AHalt, IAfter => true
  | _, _ => false
  end.

Definition tail_ok (p : pc) (x : status) : bool :=
  match p, x with (Go | Loop _ | Slept _ | Stop2 _ | Stop3 _ | IStart), running => true | _, _ => false end.

(** The scheduler's stage, the wakeup of the thread, and where the thread is. *)
Definition stage_ok (g : option stage) (w : option waker) (p : pc) (x : status) : bool :=
  match g, w with
  | None, None => match p, x with New, _ => false | Slept _, running => true | Slept _, _ => false | _, _ => true end
  | None, Some _ => match p with Go | Block _ | Exit1 | Exit2 => true | _ => false end
  | Some (HFetch _ _ k), None | Some (HDrain _ k), None => after_ok k p
  | Some (SPick y), None => after_ok (AResched y) p
  | Some STail, None => match p, x with New, running => true | _, _ => tail_ok p x end
  | Some SWake, Some _ => tail_ok p x
  | _, _ => false
  end.

Record seated (s : state) : Prop := Seated {
  se_cur c : cput s (current s c) = c;
  se_idle c : cput s (Idle c) = c;
  se_pc t : pc_ok (on s t) (stt s t) (pct s t) = true;
  se_kind t : idle_pc (pct s t) = is_idle t;
  se_stage c : stage_ok (sched (cpus s c)) (wk (cpus s c) false) (pct s (current s c)) (stt s (current s c)) = true;
}.

(** The queues that the scheduler has taken out of the mask and not emptied. *)
Definition pend (g : option stage) : list nat :=
  match g with Some (HFetch _ acc _) => acc | Some (HDrain l _) => l | _ => [] end.

Record flow (s : state) : Prop := Flow {
  fl_mask c i : i ∈ mask (cpus s c) → (i < max_cpus)%nat;
  fl_inc c i t : t ∈ inc (cpus s c) i →
    i ∈ mask (cpus s c) ∨ i ∈ pend (sched (cpus s c)) ∨ ∃ b w, wk (cpus s i) b = Some w ∧ stg w = WSet ∧ wcpu w = c;
}.

(** The CPU [c] is going to halt and does not look at the word [w] any more. *)
Definition committed (s : state) (c w : nat) : Prop :=
  match sched (cpus s c) with
  | Some (HFetch w' _ AIrq) => (w < w')%nat
  | Some (HDrain _ AIrq) => True
  | None => pct s (current s c) = IHalt
  | _ => False
  end.

Definition may_halt (g : option stage) (p : pc) : bool :=
  match g, p with Some (HFetch (S _) _ AIrq), _ | Some (HDrain _ AIrq), _ | None, IHalt => true | _, _ => false end.

Definition irq_stage (g : option stage) : bool :=
  match g with
  | None | Some (HFetch _ _ (APoll | AHalt)) | Some (HDrain _ (APoll | AHalt)) => true
  | _ => false
  end.

Definition polling (p : pc) : bool := match p with IPoll _ | IExit | IEnd => true | _ => false end.

Record awake (s : state) : Prop := Awake {
  aw_wk c w : wk (cpus s c) true = Some w → irq (cpus s c) = true;
  aw_irq c : irq (cpus s c) = true → irq_stage (sched (cpus s c)) = true ∧ pct s (current s c) ≠ IHalt;
  aw_poll c : idle_poll (cpus s c) = true → polling (pct s (Idle c)) = true;
  aw_halt c : pct s (current s c) = IHalt → rq (cpus s c) = [];
}.

(** An interrupt is on its way to [c], or someone looks whether it has to be. *)
Definition served (s : state) (c : nat) : Prop :=
  ipi (cpus s c) = true ∨ ∃ c' b x, wk (cpus s c') b = Some x ∧ (stg x = WPoll ∨ stg x = WSize) ∧ wcpu x = c.

Definition noticed (s : state) : Prop :=
  ∀ c i, committed s c (word i) → rq (cpus s c) = [] → i ∈ mask (cpus s c) → served s c.

(** The thread [t] waits, or is about to wait again, for the end of [z]. *)
Definition joins (p : pc) : option tid :=
  match p with
  | Loop (Join z) | Prep (Join z) | Block (Join z) | Slept (Join z)
  | Stop (Some (Join z)) | Stop2 (Some (Join z)) | Stop3 (Some (Join z)) => Some z
  | _ => None
  end.
Definition sleeps (p : pc) : option why := match p with Block k | Slept k => Some k | _ => None end.

Definition to_wake (s : state) (t : tid) : Prop := ∃ c b, waker_at s WCas c b t.

Record conds (s : state) : Prop := Conds {
  co_wait t k : sleeps (pct s t) = Some k → stt s t = waiting → holds s t k = true → to_wake s t;
  co_new t : pct s t = New → stt s t = waiting → to_wake s t;
  co_join t z : joins (pct s t) = Some z → joiner (thr s z) = Some t ∧ t ≠ z;
}.

Record term (s : state) : Prop := Term {
  te_dying c z : dying (cpus s c) = Some z →
    stt s z = terminating ∧ pct s z = Exit3 ∧ cput s z = c ∧ (current s c ≠ Idle c ∨ sched (cpus s c) = Some STail);
  te_exit2 c : pct s (current s c) = Exit2 → dying (cpus s c) = None;
  te_exit3 z : stt s z = terminating → pct s z = Exit3 →
    dying (cpus s (cput s z)) = Some z ∨
    ∃ w, wk (cpus s (cput s z)) false = Some w ∧ stg w = WAct ∧ deed_of w = Terminate z;
  te_act c b w z : wk (cpus s c) b = Some w → stg w = WAct → deed_of w = Terminate z →
    joiner (thr s z) = Some (tgt w) ∧ pct s z = Exit3 ∧ current s (cput s z) ≠ z ∧ dying (cpus s (cput s z)) ≠ Some z;
}.

Record order (s : state) : Prop := Order {
  or_rq c : StronglySorted (λ a b, less s b a = false) (rq (cpus s c));
  or_prio t : 0 ≤ prio (thr s t);
  or_idle c : prio (thr s (Idle c)) = 0;
}.

Record cnt (s : state) : Prop := Cnt {
  cn_val t a b : locks (thr s t) = Some (a, b) → counters s a = if on s t then 0 else 1;
  cn_one t u a b b' : locks (thr s t) = Some (a, b) → locks (thr s u) = Some (a, b') → t = u;
  cn_free a : (∀ t b, locks (thr s t) ≠ Some (a, b)) → counters s a = 0;
}.

(** A thread that [wake_lock] has found in the [lock] of a mutex stays there. *)
Record backs (s : state) : Prop := Backs {
  ba_at c b w : wk (cpus s c) b = Some w → stg w = WBack →
    stt s (tgt w) = sending_lock ∧ lockable (pct s (tgt w)) = true ∧ cond (thr s (tgt w)) = false;
  ba_one c b w c' b' w' : wk (cpus s c) b = Some w → stg w = WBack → wk (cpus s c') b' = Some w' → stg w' = WBack →
    tgt w' = tgt w → c' = c ∧ b' = b;
  ba_quiet c b w c' b' w' : wk (cpus s c) b = Some w → stg w = WBack → wk (cpus s c') b' = Some w' → tgt w' = tgt w →
    loud w' = false;
  ba_prep t k : stt s t = sending_lock → pct s t = Prep k → handing s t;
}.

Record inv (s : state) (L : tid → spot) : Prop := Inv {
  i_placed : placed s L;
  i_seated : seated s;
  i_flow : flow s;
  i_awake : awake s;
  i_noticed : noticed s;
  i_conds : conds s;
  i_term : term s;
  i_order : order s;
  i_cnt : cnt s;
  i_backs : backs s;
  i_ok : aborted s = false;
}.

(** ** Updates *)

(** Evaluates the fields of an updated state. *)
Ltac evc :=
  cbn [thr cpus counters aborted st tcpu prio rt need_reschedule at_ joiner cond locks
       rq inc mask cur dying idle_poll ipi irq wk sched tgt from_mutex deed_of wcpu stg
       set_st set_tcpu set_prio set_rt set_need set_pc set_joiner set_cond set_locks
       set_rq set_inc set_mask set_cur set_dying set_poll set_ipi set_irq set_wk set_sched upt upc goto abort].
Ltac evh H :=
  cbn [thr cpus counters aborted st tcpu prio rt need_reschedule at_ joiner cond locks
       rq inc mask cur dying idle_poll ipi irq wk sched tgt from_mutex deed_of wcpu stg
       set_st set_tcpu set_prio set_rt set_need set_pc set_joiner set_cond set_locks
       set_rq set_inc set_mask set_cur set_dying set_poll set_ipi set_irq set_wk set_sched upt upc goto abort] in H.
Ltac ev_case x y :=
  let E := fresh "E" in
  destruct (decide (x = y)) as [E|E];
  [ try (exfalso; match goal with H : ∀ d, Idle d ≠ _ |- _ => exact (H _ E) | H : ∀ d, cur (cpus _ d) ≠ _ |- _ => exact (H _ E) end);
    try match goal with H : ∀ d, cur (cpus _ d) = _ → d = _ |- _ => apply H in E end;
    first [discriminate E | injection E as E; subst x | subst x | subst y | rewrite E in * | idtac]
  | try (by destruct E) ].
Ltac ev_flat x := lazymatch x with context [decide _] => fail | _ => idtac end.
Ltac ev :=
  evc;
  repeat match goal with
  | H : context [upc] |- _ => progress evh H
  | H : context [upt] |- _ => progress evh H
  | H : context [goto] |- _ => progress evh H
  end;
  repeat match goal with
  | |- context [<[_ := _]> _ _] => rewrite !fn_insert_if; evc
  | H : context [<[_ := _]> _ _] |- _ => rewrite !fn_insert_if in H; evh H
  | H : context [decide (?x = ?y)] |- _ => ev_flat x; ev_flat y; ev_case x y; try evh H
  | |- context [decide (?x = ?y)] => ev_flat x; ev_flat y; ev_case x y; evc
  end.
(** What is known of the thread and the CPU that take the step. *)
Ltac known :=
  repeat match goal with
  | H : at_ (thr _ _) = _ |- _ => progress rewrite H
  | H : st (thr _ _) = _ |- _ => progress rewrite H
  | H : sched _ = _ |- _ => progress rewrite H
  | H : wk _ _ = _ |- _ => progress rewrite H
  | H : on _ _ = _ |- _ => progress rewrite H
  | H : is_idle _ = _ |- _ => progress rewrite H
  end.
Ltac fast1 :=
  solve [ assumption | reflexivity | discriminate
        | intros; simplify_eq; cbn [stg deed_of] in *; first [assumption | congruence | destruct_or!; congruence]
        | known; first [reflexivity | discriminate | assumption] | auto 3 ].
Ltac fast :=
  first [ fast1 | lazymatch goal with |- _ ∨ _ => first [left; repeat split; fast1 | right; repeat split; fast1] end ].
Ltac same :=
  intros; ev; simplify_eq;
  try lazymatch goal with
  | |- _ ∨ _ => first [ left; repeat split; fast | right; repeat split; fast | solve [right; eauto] | fast ]
  | _ => first [ fast | repeat split; fast | solve [auto 8] ]
  end.

(** ** What a step leaves alone *)

Lemma placed_frame s s' L :
  placed s L →
  (∀ t, stt s' t = stt s t ∨ stt s t ≠ queued ∧ stt s t ≠ waking ∧ stt s' t ≠ queued ∧ stt s' t ≠ waking) →
  (∀ t, cput s' t = cput s t ∨ stt s t ≠ queued ∧ stt s t ≠ waking) →
  (∀ c, rq (cpus s' c) = rq (cpus s c)) → (∀ c i, inc (cpus s' c) i = inc (cpus s c) i) →
  (∀ c b w, stg w = WPush → wk (cpus s' c) b = Some w ↔ wk (cpus s c) b = Some w) →
  placed s' L.
Proof.
  intros [H1 H2 H3 H4 H5 H6 H7] Hst' Hcpu Hrq Hinc Hwk.
  assert (∀ t, (stt s' t = queued ↔ stt s t = queued) ∧ (stt s' t = waking ↔ stt s t = waking)) as Hst.
  { intros t. destruct (Hst' t) as [->|(? & ? & ? & ?)]; tauto. }
  split.
  - intros c t. rewrite Hrq, H1, (proj1 (Hst t)). destruct (Hcpu t) as [-> |[? _]]; tauto.
  - intros c. by rewrite Hrq.
  - intros c i t. rewrite Hinc, H3, (proj2 (Hst t)). destruct (Hcpu t) as [-> |[_ ?]]; tauto.
  - intros c i. by rewrite Hinc.
  - intros c b t. rewrite (proj2 (Hst t)), <- H5. split; intros (w & Hw & Hs & Ht); exists w; (split; [by apply Hwk|done]).
  - intros c b w Hw Hs. apply Hwk in Hw; [|done]. assert (stt s (tgt w) = waking) as Hx by (apply (H5 c b); by exists w).
    destruct (Hcpu (tgt w)) as [-> |[_ ?]]; [by apply (H6 c b)|done].
  - intros t. rewrite (proj2 (Hst t)). apply H7.
Qed.

Lemma on_same s s' t : current s' (cput s' t) = current s (cput s t) → on s' t = on s t.
Proof. unfold on. by intros ->. Qed.

Lemma seated_upd s s' :
  seated s → (∀ c, current s' c = current s c) → (∀ t, cput s' t = cput s t) →
  (∀ t, stt s' t = stt s t ∧ pct s' t = pct s t ∨
        pc_ok (on s t) (stt s' t) (pct s' t) = true ∧ idle_pc (pct s' t) = is_idle t) →
  (∀ c, sched (cpus s' c) = sched (cpus s c) ∧ (wk (cpus s' c) false = None ↔ wk (cpus s c) false = None) ∧
        stt s' (current s c) = stt s (current s c) ∧ pct s' (current s c) = pct s (current s c) ∨
        stage_ok (sched (cpus s' c)) (wk (cpus s' c) false) (pct s' (current s c)) (stt s' (current s c)) = true) →
  seated s'.
Proof.
  intros [H1 H2 H3 H4 H5] Hcur Hcpu Ht Hc. split.
  - intros c. by rewrite Hcur, Hcpu.
  - intros c. by rewrite Hcpu.
  - intros t. rewrite (on_same s) by (rewrite Hcpu; apply Hcur). destruct (Ht t) as [(-> & ->)|[? _]]; auto.
  - intros t. destruct (Ht t) as [(_ & ->)|[_ ?]]; auto.
  - intros c. rewrite Hcur. destruct (Hc c) as [(-> & Hw & -> & ->)|?]; [|done].
    specialize (H5 c). destruct (wk (cpus s' c) false), (wk (cpus s c) false); try done; destruct Hw as [Hw1 Hw2];
      first [by specialize (Hw1 eq_refl) | by specialize (Hw2 eq_refl)].
Qed.

Lemma flow_frame s s' :
  flow s → (∀ c i, i ∈ mask (cpus s' c) → i ∈ mask (cpus s c)) →
  (∀ c i t, t ∈ inc (cpus s' c) i → t ∈ inc (cpus s c) i) →
  (∀ c i, i ∈ mask (cpus s c) → i ∈ mask (cpus s' c) ∨ i ∈ pend (sched (cpus s' c))) →
  (∀ c, sched (cpus s' c) = sched (cpus s c) ∨ pend (sched (cpus s c)) = []) →
  (∀ c b w, stg w = WSet → wk (cpus s c) b = Some w → wk (cpus s' c) b = Some w) →
  flow s'.
Proof.
  intros [H1 H2] Hm Hi Hp Hp' Hw. split; [eauto|]. intros c i t Ht%Hi.
  destruct (H2 c i t Ht) as [?|[Hpe|(b & w & ? & ? & ?)]].
  - destruct (Hp c i); auto.
  - destruct (Hp' c) as [-> |E]; [auto|]. rewrite E in Hpe. by apply elem_of_nil in Hpe.
  - right. right. exists b, w. auto.
Qed.

Lemma conds_upd s s' :
  conds s →
  (∀ t, stt s' t = stt s t ∨ (stt s' t ≠ waiting ∨ sleeps (pct s' t) = None ∧ pct s' t ≠ New ∨ to_wake s' t) ∧ (stt s' t = terminated → ∀ u, joiner (thr s t) = Some u → u = t ∨ to_wake s' u)) →
  (∀ t, pct s' t = pct s t ∨ (sleeps (pct s' t) = None ∨ sleeps (pct s' t) = sleeps (pct s t)) ∧ pct s' t ≠ New ∧ (joins (pct s' t) = joins (pct s t) ∨ joins (pct s' t) = None)) →
  (∀ t, cond (thr s' t) = cond (thr s t) ∨ cond (thr s' t) = false ∨ to_wake s' t ∨ stt s' t ≠ waiting) →
  (∀ t u, joiner (thr s t) = Some u → joiner (thr s' t) = Some u) →
  (∀ t, stt s' t = waiting → to_wake s t → to_wake s' t) →
  conds s'.
Proof.
  intros [H1 H2 H3] Hst Hpc Hcond Hj Hto. split.
  - intros t k Hs' Hwt Hh. destruct (Hst t) as [Et|[[?|[[? _]|?]] _]]; [|congruence..|done].
    assert (sleeps (pct s t) = Some k) as Hs by (destruct (Hpc t) as [Ep|([?|?] & _)]; congruence). assert (stt s t = waiting) as Hw0 by congruence. destruct k as [|z]; cbn [holds] in *.
    + destruct (Hcond t) as [E|[E|[E|E]]]; [|congruence|done..]. apply (Hto t Hwt), (H1 t Flag Hs Hw0). cbn. congruence.
    + apply bool_decide_eq_true in Hh. assert (Hjo : joins (pct s t) = Some z) by (destruct (pct s t); naive_solver).
      destruct (Hst z) as [E|[_ E]].
      * apply (Hto t Hwt), (H1 t (Join z) Hs Hw0), bool_decide_eq_true. congruence.
      * apply H3 in Hjo as [Hjo Hne]. destruct (E Hh t Hjo); done.
  - intros t Hp Hwt. destruct (Hst t) as [Et|[[?|[[_ ?]|?]] _]]; [|congruence..|done]. destruct (Hpc t) as [Ep|(_ & ? & _)]; [|congruence].
    apply (Hto t Hwt), H2; congruence.
  - intros t z Hp. assert (joins (pct s t) = Some z) as E.
    { destruct (Hpc t) as [E|(_ & _ & [E|E])]; congruence. }
    apply H3 in E as [??]. auto.
Qed.

Lemma to_wake_kept s s' t :
  (∀ c b w, stg w = WCas → tgt w = t → wk (cpus s c) b = Some w → wk (cpus s' c) b = Some w) → to_wake s t → to_wake s' t.
Proof. intros Hw (c & b & w & ? & ? & ?). exists c, b, w. auto. Qed.

Lemma conds_frame s s' :
  conds s →
  (∀ t, stt s' t = stt s t ∨ (stt s' t ≠ waiting ∨ sleeps (pct s' t) = None ∧ pct s' t ≠ New) ∧ stt s' t ≠ terminated) →
  (∀ t, pct s' t = pct s t ∨ (sleeps (pct s' t) = None ∨ sleeps (pct s' t) = sleeps (pct s t)) ∧ pct s' t ≠ New ∧ (joins (pct s' t) = joins (pct s t) ∨ joins (pct s' t) = None)) →
  (∀ t, cond (thr s' t) = cond (thr s t) ∨ cond (thr s' t) = false) →
  (∀ t u, joiner (thr s t) = Some u → joiner (thr s' t) = Some u) →
  (∀ c b w, stg w = WCas → wk (cpus s c) b = Some w → wk (cpus s' c) b = Some w) →
  conds s'.
Proof.
  intros H Hst Hpc Hcond Hj Hw. eapply conds_upd; try done.
  - intros t. destruct (Hst t) as [?|[? ?]]; [by left|]. right. split; [tauto|done].
  - intros t. destruct (Hcond t); auto.
  - intros t _. apply to_wake_kept. auto.
Qed.

Lemma order_frame s s' :
  order s → (∀ c, rq (cpus s' c) = rq (cpus s c)) →
  (∀ t, prio (thr s' t) = prio (thr s t)) → (∀ t, rt (thr s' t) = rt (thr s t)) → order s'.
Proof.
  intros [H1 H2 H3] Hrq Hp Hr. split.
  - intros c. rewrite Hrq. eapply StronglySorted_ind with (P := StronglySorted _); [constructor| |apply H1].
    intros a l _ IH Ha. constructor; [done|]. eapply Forall_impl; [exact Ha|]. cbn. intros b.
    unfold less, rt_less. rewrite !Hp, !Hr. auto.
  - intros t. by rewrite Hp.
  - intros c. by rewrite Hp.
Qed.

Lemma cnt_frame s s' :
  cnt s → (∀ t, on s' t = on s t) →
  (∀ t, locks (thr s' t) = locks (thr s t)) → counters s' = counters s → cnt s'.
Proof.
  intros [H1 H2 H3] Hon Hl Hc. split.
  - intros t a b. rewrite Hl, Hc, Hon. apply H1.
  - intros t u a b b'. rewrite !Hl. apply H2.
  - intros a Ha. rewrite Hc. apply H3. intros t b. rewrite <- Hl. apply Ha.
Qed.

Lemma awake_upd s s' :
  awake s →
  (∀ c, wk (cpus s' c) true ≠ None → irq (cpus s' c) = true ∨ irq (cpus s' c) = irq (cpus s c) ∧ wk (cpus s c) true ≠ None) →
  (∀ c, idle_poll (cpus s' c) = true →
        idle_poll (cpus s c) = true ∧ pct s' (Idle c) = pct s (Idle c) ∨ polling (pct s' (Idle c)) = true) →
  (∀ c, irq (cpus s' c) = irq (cpus s c) ∧ sched (cpus s' c) = sched (cpus s c) ∧
        pct s' (current s' c) = pct s (current s c) ∧ rq (cpus s' c) = rq (cpus s c) ∨
        (irq (cpus s' c) = true → irq_stage (sched (cpus s' c)) = true) ∧ pct s' (current s' c) ≠ IHalt) →
  awake s'.
Proof.
  intros [H1 H2 H3 H4] Hirq Hpoll Hc. split.
  - intros c w Hwk. destruct (Hirq c) as [?|[-> Hne]]; [congruence|done|].
    destruct (wk (cpus s c) true) as [w'|] eqn:E; [by eapply H1|done].
  - intros c Hi. destruct (Hc c) as [(E1 & -> & -> & _)|(? & ?)]; [|auto]. apply H2. congruence.
  - intros c Hi. destruct (Hpoll c Hi) as [(? & ->)|?]; auto.
  - intros c. destruct (Hc c) as [(_ & _ & -> & ->)|(_ & ?)]; [auto|done].
Qed.

Lemma not_committed s c w : may_halt (sched (cpus s c)) (pct s (current s c)) = false → ¬ committed s c w.
Proof. unfold committed. intros H Hc. destruct (sched (cpus s c)) as [[[] ? []|? []| | |]|]; try done; [lia|by rewrite Hc in H]. Qed.

Lemma noticed_duty s s' :
  noticed s →
  (∀ c, sched (cpus s' c) = sched (cpus s c) ∧ pct s' (current s' c) = pct s (current s c) ∧ rq (cpus s' c) = rq (cpus s c) ∧
        (∀ i, committed s c (word i) → i ∈ mask (cpus s' c) → served s' c ∨ ∃ j, j ∈ mask (cpus s c) ∧ word j = word i) ∨
        may_halt (sched (cpus s' c)) (pct s' (current s' c)) = false) →
  (∀ c w, committed s c w → rq (cpus s c) = [] → served s c → served s' c) →
  noticed s'.
Proof.
  intros H Hc Hs c i Hco Hrq Hi. destruct (Hc c) as [(E1 & E2 & E3 & E4)|E]; [|by destruct (not_committed _ _ _ E Hco)].
  unfold committed in Hco. rewrite E1, E2 in Hco. change (committed s c (word i)) in Hco. rewrite E3 in Hrq.
  destruct (E4 i Hco Hi) as [?|(j & Hj & Ej)]; [done|]. rewrite <- Ej in Hco. eapply Hs; eauto.
Qed.

Lemma noticed_upd s s' :
  noticed s →
  (∀ c b w, stg w = WPoll ∨ stg w = WSize → wk (cpus s c) b = Some w → wk (cpus s' c) b = Some w) →
  (∀ c, sched (cpus s' c) = sched (cpus s c) ∧ pct s' (current s' c) = pct s (current s c) ∧ rq (cpus s' c) = rq (cpus s c) ∧
        ipi (cpus s' c) = ipi (cpus s c) ∧ (∀ i, i ∈ mask (cpus s' c) → i ∈ mask (cpus s c)) ∨
        may_halt (sched (cpus s' c)) (pct s' (current s' c)) = false) →
  noticed s'.
Proof.
  intros H Hw Hc. assert (Hse : ∀ c, ipi (cpus s' c) = ipi (cpus s c) → served s c → served s' c).
  { intros c E [?|(c' & b & x & ? & ? & ?)]; [left; congruence|right; exists c', b, x; auto]. }
  intros c i Hco Hrq Hi. destruct (Hc c) as [(E1 & E2 & E3 & E4 & E5)|E]; [|by destruct (not_committed _ _ _ E Hco)].
  apply (Hse _ E4), (H c i); [|congruence|auto]. unfold committed in *. by rewrite E1, E2 in Hco.
Qed.

Lemma term_frame s s' :
  term s → (∀ c, dying (cpus s' c) = dying (cpus s c)) → (∀ t, cput s' t = cput s t ∨ pct s t ≠ Exit3) →
  (∀ t u, joiner (thr s t) = Some u → joiner (thr s' t) = Some u) →
  (∀ t, stt s' t = stt s t ∧ pct s' t = pct s t ∨ pct s t ≠ Exit3 ∧ pct s' t ≠ Exit3) →
  (∀ c, pct s' (current s' c) = Exit2 → pct s (current s c) = Exit2 ∨ dying (cpus s c) = None) →
  (∀ c, dying (cpus s c) ≠ None → current s c ≠ Idle c ∨ sched (cpus s c) = Some STail →
        current s' c ≠ Idle c ∨ sched (cpus s' c) = Some STail) →
  (∀ z, pct s z = Exit3 → current s (cput s z) ≠ z → current s' (cput s z) ≠ z) →
  (∀ c b w z, stg w = WAct → deed_of w = Terminate z → wk (cpus s' c) b = Some w ↔ wk (cpus s c) b = Some w) →
  term s'.
Proof.
  intros [H1 H2 H3 H4] Hd Hcpu Hj Ht Hx Hi Hcur Hw. split.
  - intros c z. rewrite Hd. intros Hz. destruct (H1 c z Hz) as (E1 & E2 & E3 & E4).
    destruct (Ht z) as [(-> & ->)|[? _]]; [|done]. destruct (Hcpu z) as [->|?]; [|done]. repeat split; auto. apply Hi; congruence.
  - intros c Hp. rewrite Hd. destruct (Hx c Hp); auto.
  - intros z Hz1 Hz2. destruct (Ht z) as [(E1 & E2)|[_ ?]]; [|done]. rewrite E1 in Hz1. rewrite E2 in Hz2.
    destruct (Hcpu z) as [->|?]; [|done]. rewrite Hd. destruct (H3 z Hz1 Hz2) as [?|(w & ? & ? & ?)]; [by left|].
    right. exists w. split; [|done]. by eapply Hw.
  - intros c b w z Hwk Hs Hde. destruct (H4 c b w z) as (E1 & E2 & E3 & E4); [by eapply Hw|done|done|].
    destruct (Ht z) as [(? & ->)|[? _]]; [|done]. destruct (Hcpu z) as [->|?]; [|done]. rewrite Hd.
    repeat split; auto.
Qed.

Lemma handing_kept s s' t :
  (∀ c b w, stg w = WBack → wk (cpus s c) b = Some w → wk (cpus s' c) b = Some w) → handing s t → handing s' t.
Proof. intros Hw (c & b & w & ? & ? & ?). exists c, b, w. auto. Qed.

Lemma backs_frame s s' :
  backs s →
  (∀ t, stt s' t = stt s t ∨ stt s t ≠ sending_lock ∧ stt s' t ≠ sending_lock) →
  (∀ t, pct s' t = pct s t ∨ stt s t ≠ sending_lock ∨ (lockable (pct s t) = true → lockable (pct s' t) = true) ∧ sleeps (pct s' t) ≠ None) →
  (∀ t, cond (thr s' t) = cond (thr s t) ∨ stt s t ≠ sending_lock ∨ ¬ handing s t) →
  (∀ c b w, stg w = WBack → wk (cpus s' c) b = Some w ↔ wk (cpus s c) b = Some w) →
  (∀ c b w, wk (cpus s' c) b = Some w → loud w = true →
     wk (cpus s c) b = Some w ∨ ∃ w0, wk (cpus s c) b = Some w0 ∧ loud w0 = true ∧ tgt w0 = tgt w) →
  backs s'.
Proof.
  intros [H1 H2 H3 H4] Hst Hpc Hco Hw Hl. split.
  - intros c b w Hb Hs. apply Hw in Hb; [|done]. destruct (H1 c b w Hb Hs) as (E1 & E2 & E3).
    destruct (Hst (tgt w)) as [-> |[? _]]; [|done]. destruct (Hco (tgt w)) as [->|[?|Hn]]; [|done|by destruct Hn; exists c, b, w].
    destruct (Hpc (tgt w)) as [->|[?|[? _]]]; auto.
  - intros c b w c' b' w' Hb Hs Hb' Hs'. apply Hw in Hb, Hb'; [|done..]. by apply (H2 c b w c' b' w').
  - intros c b w c' b' w' Hb Hs Hb' Ht. destruct (loud w') eqn:E; [|done]. apply Hw in Hb; [|done].
    destruct (Hl c' b' w' Hb' E) as [Hx|(w0 & Hx & E0 & Ht0)].
    + by rewrite (H3 c b w c' b' w') in E.
    + rewrite (H3 c b w c' b' w0) in E0; [done..|congruence].
  - intros t k Hx Hp. destruct (Hst t) as [E|[_ ?]]; [|done]. apply (handing_kept s); [by intros; apply Hw|].
    apply (H4 t k); [congruence|]. destruct (Hpc t) as [<-|[?|[_ Hs]]]; [done|congruence|by rewrite Hp in Hs].
Qed.

(** The groups of the invariant that a step does not touch. *)
Ltac frame F := first [ eassumption | solve [eapply F; [eassumption|same..]] | idtac ].
Ltac frames :=
  split; [frame placed_frame|frame seated_upd|frame flow_frame|frame awake_upd|frame noticed_upd|frame conds_frame|frame term_frame
         |frame order_frame|first [solve [eapply cnt_frame; [eassumption|intros; apply on_same|..]; same]|idtac]
         |frame backs_frame|done].
Ltac parts I := destruct I as [Ip Is If Iw Id Ic It Io In Ib Ia].

Lemma wk_upc s c b x : wk (cpus (upc c (set_wk b x) s) c) b = x.
Proof. cbn [upc cpus]. rewrite fn_lookup_insert. cbn [set_wk wk]. apply fn_lookup_insert. Qed.

Lemma waker_at_upd s c b o X c' b' t :
  waker_at (upc c (set_wk b o) s) X c' b' t ↔
  if decide ((c', b') = (c, b)) then ∃ w, o = Some w ∧ stg w = X ∧ tgt w = t else waker_at s X c' b' t.
Proof.
  unfold waker_at. case_decide as Hd; [simplify_eq; by rewrite wk_upc|].
  assert (wk (cpus (upc c (set_wk b o) s) c') b' = wk (cpus s c') b') as -> by (ev; congruence). done.
Qed.

Lemma waker_at_same s s' X c b t : wk (cpus s' c) b = wk (cpus s c) b → waker_at s' X c b t ↔ waker_at s X c b t.
Proof. unfold waker_at. by intros ->. Qed.

Lemma not_idle t : is_idle t = false → ∀ d, Idle d ≠ t.
Proof. by intros H d <-. Qed.

Lemma cur_inj s c d : seated s → current s d = current s c → d = c.
Proof. intros Hs E. by rewrite <- (se_cur s Hs d), E, (se_cur s Hs). Qed.

Lemma on_cur s c : seated s → on s (current s c) = true.
Proof. intros Hs. apply bool_decide_eq_true. by rewrite (se_cur s Hs). Qed.

(** ** Waking a thread *)

Lemma pc_ok_wake o x p : x = waiting ∨ x = sending_lock → pc_ok o x p = true → pc_ok o waking p = true.
Proof. intros [-> | ->]; destruct p as [| | | | | |[]| | | | | | | | | | | | |], o; done. Qed.

Lemma stage_ok_wake g w p x : x = waiting ∨ x = sending_lock → stage_ok g w p x = true → stage_ok g w p waking = true.
Proof. intros [-> | ->]; destruct g as [[]|], w, p; done. Qed.

Lemma stage_ok_wk g w w' p x : (w' = None ↔ w = None) → stage_ok g w' p x = stage_ok g w p x.
Proof. destruct w as [w|], w' as [w'|]; [by destruct g as [[]|]|..|done]; intros [H1 H2]; [by specialize (H1 eq_refl)|by specialize (H2 eq_refl)]. Qed.

(** ** Consequences *)

Lemma current_idle s c : seated s → idle_pc (pct s (current s c)) = true → current s c = Idle c.
Proof.
  intros [Hcur Hid _ Hk _] Hi. rewrite Hk in Hi. specialize (Hcur c). destruct (current s c) as [d| |]; [|done..].
  by rewrite Hid in Hcur; subst.
Qed.

Lemma committed_idle s c w : seated s → committed s c w → current s c = Idle c ∧ polling (pct s (Idle c)) = false.
Proof.
  intros Hs Hc. pose proof (se_stage s Hs c) as Hst. assert (pct s (current s c) = IHalt ∨ pct s (current s c) = IIrq) as Hp.
  { unfold committed in Hc. destruct (sched (cpus s c)) as [[? ? []|? []| | |]|]; try done; [| |by left]; right;
      destruct (wk (cpus s c) false); try done; cbn in Hst; by destruct (pct s (current s c)). }
  assert (current s c = Idle c) as E by (apply current_idle; [done|by destruct Hp as [-> | ->]]).
  split; [done|]. rewrite <- E. by destruct Hp as [-> | ->].
Qed.

Lemma committed_poll s c w : seated s → awake s → committed s c w → idle_poll (cpus s c) = false.
Proof.
  intros Hs Ha [_ Hp]%committed_idle; [|done]. destruct (idle_poll _) eqn:E; [|done]. apply (aw_poll s Ha) in E. congruence.
Qed.

(** A CPU that is going to halt wakes nobody. *)
Lemma committed_waker s c w b x : seated s → awake s → committed s c w → wk (cpus s c) b = Some x → False.
Proof.
  intros Hs Ha Hc Hx. pose proof (se_stage s Hs c) as Hst. destruct b.
  - apply (aw_wk s Ha), (aw_irq s Ha) in Hx as [Hi Hn]. unfold committed in Hc. by destruct (sched (cpus s c)) as [[? ? []|? []| | |]|].
  - rewrite Hx in Hst. unfold committed in Hc. destruct (sched (cpus s c)) as [[? ? []|? []| | |]|]; try done. by rewrite Hc in Hst.
Qed.

Lemma irq_off s c : awake s → irq_stage (sched (cpus s c)) = false → irq (cpus s c) = false.
Proof. intros Ha Hs. destruct (irq (cpus s c)) eqn:E; [|done]. apply (aw_irq s Ha) in E as [E _]. congruence. Qed.

Lemma served_other s s' c b x d :
  served s d → ipi (cpus s' d) = ipi (cpus s d) ∨ ipi (cpus s' d) = true →
  (∀ c' b' y, (c', b') ≠ (c, b) → wk (cpus s c') b' = Some y → wk (cpus s' c') b' = Some y) →
  wk (cpus s c) b = Some x → (stg x = WPoll ∨ stg x = WSize → wcpu x = d → served s' d) → served s' d.
Proof.
  intros [Hi|(c' & b' & y & Hy & Hst & Hd)] Hipi Hw Hx Hown.
  - left. destruct Hipi; congruence.
  - destruct (decide ((c', b') = (c, b))) as [[= -> ->]|Hne]; [simplify_eq; auto|]. right. exists c', b', y. auto.
Qed.

End SchedInv.
