(* ===== verification/SchedWake.v ===== *)
(** * The scheduler: wakeups keep the invariant *)
From S2P Require Import Prelude Sched SchedInv.

Module SchedWake.
Import Sched SchedInv.

(** ** Wakeups *)

Section wakers.
Context (s : state) (L : tid → spot) (c : nat) (b : bool) (w : waker) (I : inv s L) (Hw : wk (cpus s c) b = Some w).

Notation stage x := (upc c (set_wk b (Some (W (tgt w) (from_mutex w) (deed_of w) (wcpu w) x)))).

(** What a waker does for others is left to it. *)
Lemma noticed_own s' :
  (∀ d, sched (cpus s' d) = sched (cpus s d) ∧ pct s' (current s' d) = pct s (current s d) ∧ rq (cpus s' d) = rq (cpus s d)) →
  (∀ d i, committed s d (word i) → i ∈ mask (cpus s' d) → served s' d ∨ ∃ j, j ∈ mask (cpus s d) ∧ word j = word i) →
  (∀ d, ipi (cpus s' d) = ipi (cpus s d) ∨ ipi (cpus s' d) = true) →
  (∀ c' b' y, (c', b') ≠ (c, b) → wk (cpus s c') b' = Some y → wk (cpus s' c') b' = Some y) →
  (stg w = WPoll ∨ stg w = WSize → ∀ x, committed s (wcpu w) x → rq (cpus s (wcpu w)) = [] → served s' (wcpu w)) →
  noticed s'.
Proof using I Hw.
  parts I. intros Hsame Hm Hi Hwk Hown. eapply noticed_duty; [done| |].
  - intros d. left. destruct (Hsame d) as (-> & -> & ->). auto.
  - intros d x Hco Hrq Hse. eapply (served_other s s'); eauto. intros ? <-. eauto.
Qed.

(** A waker does not become loud, and is not one of [wake_lock]. *)
Lemma backs_own s' w' :
  (∀ t, stt s' t = stt s t ∨ stt s t ≠ sending_lock ∧ stt s' t ≠ sending_lock) →
  (∀ t, pct s' t = pct s t) → (∀ t, cond (thr s' t) = cond (thr s t) ∨ t = tgt w ∧ loud w = true) →
  (∀ c' b', (c', b') ≠ (c, b) → wk (cpus s' c') b' = wk (cpus s c') b') →
  wk (cpus s' c) b = Some w' → stg w ≠ WBack → stg w' ≠ WBack → tgt w' = tgt w → (loud w' = true → loud w = true) → backs s'.
Proof using I Hw.
  parts I. intros Hst Hpc Hco Hwk Hw' Hs Hs' Ht Hl. eapply backs_frame; [done|done|auto|..].
  - intros t. destruct (Hco t) as [?|[-> Hlw]]; [auto|]. right. right. intros (c' & b' & y & Hy & Sy & Ty).
    by rewrite (ba_quiet s Ib c' b' y c b w) in Hlw.
  - intros c' b' y Hy. destruct (decide ((c', b') = (c, b))) as [[= -> ->]|Hne]; [|by rewrite Hwk]. split; congruence.
  - intros c' b' y Hy Hly. destruct (decide ((c', b') = (c, b))) as [[= -> ->]|Hne]; [|rewrite Hwk in Hy; auto].
    right. exists w. simplify_eq. auto.
Qed.

Lemma inv_WPoll : stg w = WPoll → inv (stage (if idle_poll (cpus s (wcpu w)) then WDone else WSize) s) L.
Proof using I Hw.
  intros Hs. pose proof I as I'. parts I'. destruct (idle_poll _) eqn:Hp; frames.
  - apply noticed_own; [same..|]. intros _ x Hco _. rewrite (committed_poll _ _ _ Is Iw Hco) in Hp. done.
  - apply noticed_own; [same..|]. intros _ x Hco _. right. exists c, b. eexists. split; [apply wk_upc|]. cbn. auto.
Qed.

Lemma inv_WSize :
  stg w = WSize →
  inv (stage WDone (if decide (length (rq (cpus s (wcpu w))) ≤ 1)%nat then upc (wcpu w) (set_ipi true) s else s)) L.
Proof using I Hw.
  intros Hs. pose proof I as I'. parts I'. case_decide as Hl; frames.
  - apply noticed_own; [same..|]. intros _ x _ _. left. by ev.
  - apply noticed_own; [same..|]. intros _ x _ Hrq. rewrite Hrq in Hl. cbn in Hl. lia.
Qed.

Lemma inv_WSet x :
  (c < max_cpus)%nat → stg w = WSet →
  x = WPoll ∨ x = WDone ∧ (wcpu w = c ∨ ∃ j, j ∈ mask (cpus s (wcpu w)) ∧ word j = word c) →
  inv (stage x (upc (wcpu w) (λ k, set_mask ({[c]} ∪ mask k) k) s)) L.
Proof using I Hw.
  intros Hc Hs Hx. pose proof I as I'. parts I'. assert (x ≠ WPush ∧ x ≠ WAct) as [Hx1 Hx2] by (destruct_or!; naive_solver). frames.
  - destruct If as [F1 F2]. split.
    + intros d i. ev; rewrite ?elem_of_union, ?elem_of_singleton; intros; destruct_or?; subst; eauto.
    + intros d i t Ht. assert (t ∈ inc (cpus s d) i) as Hti by (by ev).
      destruct (F2 d i t Hti) as [Hm|[Hp|(b' & w' & Hw' & Hs' & Hd)]].
      * left. ev; set_solver.
      * right. left. by ev.
      * destruct (decide ((i, b') = (c, b))) as [[= -> ->]|Hne]; [simplify_eq; left; ev; set_solver|].
        right. right. exists b', w'. split; [|done]. ev; congruence.
  - apply noticed_own; [same.. | | same | same | intros []; congruence]. intros d i Hco Hi.
    destruct (decide (i ∈ mask (cpus s d))) as [?|Hn]; [by right; exists i|].
    assert (d = wcpu w ∧ i = c) as [-> ->] by (ev; set_solver).
    destruct Hx as [-> | [-> [Hd|Hj]]]; [left; right; exists c, b; eexists; split; [apply wk_upc|]; cbn; auto| |by right].
    rewrite Hd in Hco. by destruct (committed_waker s c (word c) b w).
  - eapply backs_own; [same..|apply wk_upc|congruence|by destruct_or!; naive_solver|done|by destruct Hx as [-> | [-> _]]].
Qed.

Lemma inv_WPush :
  stg w = WPush →
  inv (stage WSet (upc (wcpu w) (λ k, set_inc (<[c := inc k c ++ [tgt w]]> (inc k)) k) s)) (<[tgt w := InQ c]> L).
Proof using I Hw.
  intros Hs. pose proof I as I'. parts I'.
  assert (stt s (tgt w) = waking ∧ L (tgt w) = Pushing c b) as [Ht HL] by (apply (p_push _ _ Ip); by exists w).
  pose proof (p_wcpu _ _ Ip c b w Hw Hs) as Hd. frames.
  - destruct Ip as [P1 P2 P3 P4 P5 P6 P7]. split.
    + intros d t. specialize (P1 d t). by ev.
    + intros d. specialize (P2 d). by ev.
    + intros d i t. specialize (P3 d i t). destruct (decide (t = tgt w)) as [->|Hne].
      * rewrite fn_lookup_insert. rewrite HL in P3. ev; rewrite ?elem_of_app, ?list_elem_of_singleton; intuition congruence.
      * rewrite fn_lookup_insert_ne by done. ev; rewrite ?elem_of_app, ?list_elem_of_singleton; intuition congruence.
    + intros d i. pose proof (P4 d i) as Hn. ev; try done;
        (apply NoDup_app; split; [done|]; split; [|apply NoDup_singleton]; intros t Hti ->%list_elem_of_singleton;
         apply P3 in Hti as (_ & _ & ?); congruence).
    + intros c' b' t. rewrite waker_at_upd.
      pose proof (P5 c' b' t) as H5. rewrite <- (waker_at_same s (upc (wcpu w) (λ k, set_inc (<[c:=inc k c ++ [tgt w]]> (inc k)) k) s)) in H5 by (by ev).
      destruct (decide (t = tgt w)) as [->|Hne].
      * rewrite fn_lookup_insert. split; [|by intros [_ ?]]. case_decide; [by intros (? & [= <-] & ? & _)|].
        rewrite H5, HL. intros [_ ?]; congruence.
      * rewrite fn_lookup_insert_ne, <- H5 by done. case_decide as E; [|done]. simplify_eq.
        split; [by intros (? & [= <-] & ? & _)|]. rewrite waker_at_same by (by ev). intros (w' & ? & _ & ?). congruence.
    + intros c' b' w'. specialize (P6 c' b' w'). ev; try done. by intros [= <-].
    + intros t. specialize (P7 t). ev; done.
  - destruct If as [F1 F2]. split; [intros d i; specialize (F1 d i); by ev|].
    intros d i t Hti. assert (t ∈ inc (cpus s d) i ∨ d = wcpu w ∧ i = c) as [Ho|[-> ->]].
    { ev; auto. }
    + destruct (F2 d i t Ho) as [?|[?|(b' & w' & ? & ? & ?)]]; [left; by ev|right; left; by ev|].
      clear Hti. right. right. exists b', w'. split; [|done]. ev; congruence.
    + right. right. exists b. eexists. split; [apply wk_upc|done].
Qed.

Lemma placed_WCas :
  stg w = WCas → stt s (tgt w) = waiting ∨ stt s (tgt w) = sending_lock →
  placed (upc c (set_wk b (Some (W (tgt w) (from_mutex w) (deed_of w) (cput s (tgt w)) WPush))) (upt (tgt w) (set_st waking) s))
    (<[tgt w := Pushing c b]> L).
Proof using I Hw.
  intros Hs Ht. destruct (i_placed _ _ I) as [P1 P2 P3 P4 P5 P6 P7].
  assert (stt s (tgt w) ≠ queued ∧ stt s (tgt w) ≠ waking) as [Hq Hk] by (destruct Ht as [-> | ->]; done). split.
  - intros d t. pose proof (P1 d t). ev; intuition congruence.
  - intros d. pose proof (P2 d). by ev.
  - intros d i t. pose proof (P3 d i t). ev; intuition congruence.
  - intros d i. pose proof (P4 d i). by ev.
  - intros c' b' t. pose proof (P5 c' b' t) as H5. rewrite waker_at_upd. destruct (decide (t = tgt w)) as [->|Hne].
    + rewrite fn_lookup_insert. cbn [thr upc upt]. rewrite fn_lookup_insert. case_decide as E.
      * simplify_eq. split; [done|]. intros _. eexists. split; [done|]. done.
      * split; [|intros [_ [= <- <-]]; done]. rewrite waker_at_same by done. rewrite H5. by intros [? _].
    + rewrite fn_lookup_insert_ne by done. cbn [thr upc upt]. rewrite fn_lookup_insert_ne, <- H5 by done. case_decide as E.
      * simplify_eq. split; [intros (? & [= <-] & _ & <-); done|]. intros (w' & Hw' & ? & ?). cbn [upt cpus] in Hw'. congruence.
      * by rewrite waker_at_same.
  - intros c' b' w' Hw' Hs'. pose proof (P6 c' b' w') as H6. ev; simplify_eq; auto.
  - intros t. pose proof (P7 t). ev; auto.
Qed.

Lemma backs_WCas x :
  stg w = WCas → stt s (tgt w) = waiting ∨ from_mutex w = true ∧ stt s (tgt w) = sending_lock →
  backs (upc c (set_wk b (Some (W (tgt w) (from_mutex w) (deed_of w) x WPush))) (upt (tgt w) (set_st waking) s)).
Proof using I Hw.
  intros Hs Ht. pose proof I as I'. parts I'. pose proof Ib as [B1 B2 B3 B4].
  assert (∀ c' b' w', wk (cpus s c') b' = Some w' → stg w' = WBack → tgt w' ≠ tgt w) as Hne.
  { intros c' b' w' Hw' Hs' E. pose proof (B3 c' b' w' c b w Hw' Hs' Hw (eq_sym E)) as Hl. destruct (B1 c' b' w' Hw' Hs') as (E1 & _).
    unfold loud in Hl. rewrite Hs in Hl. destruct Ht as [?|[? _]]; congruence. }
  split.
  - intros c' b' w' Hw' Hs'. assert (wk (cpus s c') b' = Some w') as H by (ev; simplify_eq; done).
    pose proof (Hne c' b' w' H Hs'). pose proof (B1 c' b' w' H Hs'). clear Hw'. by ev.
  - intros c1 b1 w1 c2 b2 w2 H1 S1 H2 S2. apply (B2 c1 b1 w1 c2 b2 w2); ev; simplify_eq; done.
  - intros c1 b1 w1 c2 b2 w2 H1 S1 H2 E. assert (wk (cpus s c1) b1 = Some w1) as H by (ev; simplify_eq; done). pose proof (Hne _ _ _ H S1).
    pose proof (B3 c1 b1 w1 c2 b2 w2 H S1). ev; simplify_eq; auto.
  - intros t k Hx Hp. assert (t ≠ tgt w) by (intros ->; by ev). eapply handing_kept; [|apply (B4 t k); by ev]. same.
Qed.

Lemma inv_WCas :
  stg w = WCas → stt s (tgt w) = waiting ∨ from_mutex w = true ∧ stt s (tgt w) = sending_lock →
  inv (upc c (set_wk b (Some (W (tgt w) (from_mutex w) (deed_of w) (cput s (tgt w)) WPush))) (upt (tgt w) (set_st waking) s))
    (<[tgt w := Pushing c b]> L).
Proof using I Hw.
  intros Hs Hm. pose proof I as I'. parts I'. pose proof (se_pc s Is (tgt w)) as Hpc.
  assert (stt s (tgt w) = waiting ∨ stt s (tgt w) = sending_lock) as Ht by tauto.
  assert (pct s (tgt w) ≠ Exit3) as Hx by (destruct Ht as [E|E]; rewrite E in Hpc; intros E2; rewrite E2 in Hpc; by destruct (on _ _)).
  frames.
  - by apply placed_WCas.
  - eapply seated_upd; [done|same|same| |].
    + intros t. destruct (decide (t = tgt w)) as [->|]; [right|left; by ev]. split; [|ev; apply Is].
      evc. rewrite fn_lookup_insert. by eapply pc_ok_wake.
    + intros d. destruct (decide (current s d = tgt w)) as [E|]; [right|left; same].
      rewrite E, (stage_ok_wk _ (wk (cpus s d) false)) by same. pose proof (se_stage s Is d) as Hst. rewrite E in Hst.
      replace (sched _) with (sched (cpus s d)) by (by ev). evc. rewrite fn_lookup_insert. by eapply stage_ok_wake.
  - eapply conds_upd; [done|same..|]. intros t Et. apply to_wake_kept. intros c' b' w' H1 H2 H3. ev; simplify_eq; done.
  - by apply backs_WCas.
Qed.

Lemma inv_WFail : 
  stg w = WCas → stt s (tgt w) ≠ waiting → inv (stage WDone s) L.
Proof using I Hw.
  intros Hs Ht. pose proof I as I'. parts I'. frames.
  eapply conds_upd; [done|same..|]. intros t Et. apply to_wake_kept. same.
Qed.

Lemma inv_WFlag :
  stg w = WAct → deed_of w = SetFlag → inv (stage WCas (upt (tgt w) (set_cond true) s)) L.
Proof using I Hw.
  intros Hs Ht. pose proof I as I'. parts I'. frames.
  eapply conds_upd; [done|same|same| |same|].
  - intros t. destruct (decide (t = tgt w)) as [->|]; [|left; by ev]. right. right. left. exists c, b. eexists. by split; [apply wk_upc|].
  - intros t Et. apply to_wake_kept. same.
  - assert (loud w = true) as Hl by (unfold loud; rewrite Hs, Ht; apply orb_true_r).
    eapply backs_own; [same|same| |same|apply wk_upc|congruence|done..].
    intros t. destruct (decide (t = tgt w)); [by right|left; by ev].
Qed.

Lemma inv_WNothing :
  stg w = WAct → deed_of w = Nothing → inv (stage WCas s) L.
Proof using I Hw. 
  intros Hs Ht. pose proof I as I'. parts I'. frames.
  eapply backs_own; [same..|apply wk_upc|congruence|done|done|]. unfold loud. rewrite Hs. cbn. by intros ->.
Qed.

Lemma inv_WTerm z :
  stg w = WAct → deed_of w = Terminate z → inv (stage WCas (upt z (set_st terminated) s)) L.
Proof using I Hw.
  intros Hs Ht. pose proof I as I'. parts I'. destruct (te_act s It c b w z Hw Hs Ht) as (T1 & T2 & T3 & T4).
  pose proof (se_pc s Is z) as Hpc. rewrite T2 in Hpc. assert (on s z = false) as Hon by (by apply bool_decide_eq_false).
  assert (stt s z ≠ queued ∧ stt s z ≠ waking) as [Hq Hk] by (rewrite Hon in Hpc; by destruct (stt s z)).
  frames.
  - eapply seated_upd; [done|same|same| |].
    + intros t. destruct (decide (t = z)) as [->|]; [right|left; by ev]. evc. rewrite fn_lookup_insert. evc.
      rewrite <- (se_kind s Is), Hon, T2. done.
    + intros d. left. assert (current s d ≠ z) as Hne by (intros <-; by rewrite (se_cur s Is) in T3). same.
  - eapply conds_upd; [done| |same|same|same|].
    + intros t. destruct (decide (t = z)) as [->|]; [right|left; by ev]. split; [left; by ev|]. intros _ u Hu.
      right. exists c, b. eexists. split; [apply wk_upc|]. split; [done|]. cbn. congruence.
    + intros t _. apply to_wake_kept. same.
  - destruct It as [D1 D2 D3 D4]. split.
    + intros d y Hy. pose proof (D1 d y) as H1. assert (y ≠ z) as Hne.
      { intros ->. apply T4. replace (cput s z) with d; [by ev|]. symmetry. apply H1. by ev. }
      ev; try done; auto.
    + intros d. pose proof (D2 d). ev; auto.
    + intros y Hy1 Hy2. assert (y ≠ z) as Hne by (intros ->; by ev).
      destruct (D3 y) as [?|(w' & Hw' & Hs' & Hd')]; [by ev..|left; by ev|]. right. exists w'. split; [|done]. clear Hy1 Hy2. same.
    + intros c' b' w' y Hw' Hs' Hd'. pose proof (D4 c' b' w' y). ev; simplify_eq; auto.
  - eapply backs_own; [|same|same|same|apply wk_upc|congruence|done|done|]; [|unfold loud; rewrite Hs; cbn; by intros ->].
    intros t. destruct (decide (t = z)) as [->|]; [right|left; by ev]. split; [|by ev]. rewrite Hon in Hpc. by destruct (stt s z).
Qed.

(** [wake_lock] takes [sending_lock] back. *)
Lemma inv_WBack : stg w = WBack → inv (stage WDone (upt (tgt w) (set_st waiting) s)) L.
Proof using I Hw.
  intros Hs. pose proof I as I'. parts I'. pose proof Ib as [B1 B2 B3 B4]. destruct (B1 c b w Hw Hs) as (Hx & Hp & Hc).
  assert (pct s (tgt w) ≠ Exit3 ∧ pct s (tgt w) ≠ New ∧ (∀ k, sleeps (pct s (tgt w)) = Some k → k = Flag)) as (Hx3 & Hn & Hf).
  { destruct (pct s (tgt w)) as [| | | |[]|[]| | | | | | | | | | | | | |]; naive_solver. }
  frames.
  - eapply seated_upd; [done|same|same| |].
    + intros t. destruct (decide (t = tgt w)) as [->|]; [right|left; by ev]. split; [|ev; apply Is]. pose proof (se_pc s Is (tgt w)) as Hpu.
      rewrite Hx in Hpu. evc. rewrite fn_lookup_insert. evc. by destruct (pct s (tgt w)), (on s (tgt w)).
    + intros d. destruct (decide (current s d = tgt w)) as [E|]; [right|left; same]. pose proof (se_stage s Is d) as Hst. rewrite E in Hst.
      rewrite E, (stage_ok_wk _ (wk (cpus s d) false)) by same. replace (sched _) with (sched (cpus s d)) by (by ev).
      evc. rewrite fn_lookup_insert. evc. rewrite Hx in Hst. by destruct (pct s (tgt w)), (sched (cpus s d)) as [[]|], (wk (cpus s d) false).
  - destruct Ic as [C1 C2 C3]. assert (∀ t, to_wake s t → to_wake (stage WDone (upt (tgt w) (set_st waiting) s)) t) as Hto
      by (intros t; apply to_wake_kept; same).
    split; [|intros t Ht Hw'; apply Hto, C2; by ev|intros t z; pose proof (C3 t z); ev; auto].
    intros t k Hk Hwt Hh. apply Hto. assert (t ≠ tgt w) as Hne.
    { intros ->. assert (k = Flag) as -> by (apply Hf; by ev). cbn [holds] in Hh. clear Hk Hwt. ev. congruence. }
    apply (C1 t k); [by ev..|]. clear Hk Hwt. destruct k; cbn [holds] in *; [by ev|].
    apply bool_decide_eq_true in Hh. apply bool_decide_eq_true. by ev.
  - assert (∀ c' b' w', wk (cpus (stage WDone (upt (tgt w) (set_st waiting) s)) c') b' = Some w' → stg w' = WBack →
              wk (cpus s c') b' = Some w' ∧ tgt w' ≠ tgt w) as Ho.
    { intros c' b' w' H1 H2. assert ((c', b') ≠ (c, b)) as Hne by (intros [= -> ->]; rewrite wk_upc in H1; by simplify_eq).
      assert (wk (cpus s c') b' = Some w') as H by (ev; congruence). split; [done|]. intros E.
      destruct (B2 c b w c' b' w' Hw Hs H H2 E) as [-> ->]. done. }
    split.
    + intros c' b' w' H1 H2. destruct (Ho c' b' w' H1 H2) as [H Hne]. pose proof (B1 c' b' w' H H2). clear H1. by ev.
    + intros c1 b1 w1 c2 b2 w2 H1 S1 H2 S2. by apply (B2 c1 b1 w1 c2 b2 w2); [apply Ho|..|apply Ho|].
    + intros c1 b1 w1 c2 b2 w2 H1 S1 H2. destruct (Ho c1 b1 w1 H1 S1) as [H Hne].
      pose proof (B3 c1 b1 w1 c2 b2 w2 H S1). clear H1. ev; simplify_eq; auto.
    + intros t k H1 H2. assert (t ≠ tgt w) as Hne by (intros ->; by ev). destruct (B4 t k) as (c' & b' & w' & H & S' & E); [by ev..|].
      exists c', b', w'. split; [|done]. assert ((c', b') ≠ (c, b)) by congruence. clear H1 H2. ev; congruence.
Qed.

Lemma inv_WDone : stg w = WDone → b = true ∨ sched (cpus s c) = None → inv (upc c (set_wk b None) s) L.
Proof using I Hw.
  intros Hs Hb. pose proof I as I'. parts I'. frames.
  eapply seated_upd; [done|same..|]. intros d. destruct (decide (d = c)) as [->|]; [|left; same].
  destruct b; [left; same|]. destruct Hb as [?|Hb]; [done|]. right. pose proof (se_stage s Is c) as Hst. rewrite Hw in Hst.
  rewrite wk_upc. replace (sched _) with (sched (cpus s c)) by (by ev). rewrite Hb in *. evc.
  by destruct (pct s (current s c)).
Qed.

Lemma inv_WDoneTail :
  stg w = WDone → b = false → sched (cpus s c) = Some SWake → inv (upc c (set_sched None) (upc c (set_wk b None) s)) L.
Proof using I Hw.
  intros Hs Hb Hsc. pose proof I as I'. parts I'. pose proof (se_stage s Is c) as Hst. rewrite Hsc, <- Hb, Hw in Hst. cbn in Hst.
  assert (irq (cpus s c) = false) as Hirq by (apply irq_off; [done|by rewrite Hsc]).
  assert (stage_ok None None (pct s (current s c)) (stt s (current s c)) = true ∧ may_halt None (pct s (current s c)) = false ∧
          pct s (current s c) ≠ IHalt) as (H1 & H2 & H3).
  { by destruct (pct s (current s c)), (stt s (current s c)). }
  frames.
Qed.

End wakers.

(** ** A step of a waker *)

Lemma inv_need s L t v : inv s L → inv (upt t (set_need v) s) L.
Proof. intros I. parts I. frames. Qed.

(** The scheduler begins, when it has nothing left to do. *)
Definition settled (g : option stage) : Prop := pend g = [] ∧ g ≠ Some STail.

Lemma inv_begin s L c k :
  inv s L → irq (cpus s c) = false → settled (sched (cpus s c)) → wk (cpus s c) false = None → after_ok k (pct s (current s c)) = true →
  inv (upc c (set_sched (Some (HFetch 0 [] k))) s) L.
Proof.
  intros I Hirq [Hpe Htail] Hwk Hk. parts I.
  assert (pct s (current s c) ≠ IHalt) as Hp by (destruct k as [[]| | | |], (pct s (current s c)); done).
  frames.
Qed.

Lemma inv_enter s L c y :
  inv s L → irq (cpus s c) = false → settled (sched (cpus s c)) → wk (cpus s c) false = None →
  after_ok (AResched y) (pct s (current s c)) = true → inv (enter c y s) L.
Proof. intros I ? ? ? Hk. apply inv_begin; [by apply inv_need|done..|]. evc. rewrite fn_lookup_insert. exact Hk. Qed.

Lemma settled_none s c : sched (cpus s c) = None → settled (sched (cpus s c)).
Proof. by intros ->. Qed.
#[export] Hint Resolve settled_none : core.

Lemma preemptable_inv s c :
  preemptable s c = true →
  sched (cpus s c) = None ∧ wk (cpus s c) false = None ∧ after_ok (AResched false) (pct s (current s c)) = true.
Proof. unfold preemptable. by destruct (pct s (current s c)), (wk (cpus s c) false), (sched (cpus s c)). Qed.

Lemma inv_preempt s L c : inv s L → irq (cpus s c) = false → inv (preempt c s) L.
Proof.
  intros I Hirq. unfold preempt. destruct (preemptable s c) eqn:E; [|by apply inv_need].
  apply preemptable_inv in E as (? & ? & ?). apply inv_enter; auto.
Qed.

Lemma inv_preempt_enable s L c : inv s L → irq (cpus s c) = false → inv (preempt_enable c s) L.
Proof.
  intros I Hirq. unfold preempt_enable. destruct (preemptable s c) eqn:E; [|done]. case_match; [|done].
  apply preemptable_inv in E as (? & ? & ?). apply inv_enter; auto.
Qed.

Lemma inv_wstep s L c b w s' :
  inv s L → (c < max_cpus)%nat → wk (cpus s c) b = Some w → (b = false → irq (cpus s c) = false) →
  wstep c b w s = Some s' → ∃ L', inv s' L'.
Proof.
  intros I Hc Hw Hb Hs. unfold wstep in Hs. destruct (stg w) eqn:Hst; cbv zeta in Hs.
  - injection Hs as <-. exists L. destruct (deed_of w) eqn:Hd; rewrite <- Hd.
    + by apply inv_WNothing.
    + by apply inv_WFlag.
    + by apply inv_WTerm.
  - case_decide as Hd; injection Hs as <-.
    + exists (<[tgt w := Pushing c b]> L). by apply inv_WCas.
    + exists L. apply inv_WFail; [done..|]. auto.
  - injection Hs as <-. exists (<[tgt w := InQ c]> L). by apply inv_WPush.
  - exists L. case_bool_decide as Hm; [case_decide as Hd|]; injection Hs as <-.
    + apply (inv_need (upc c _ (upc (wcpu w) _ s))), inv_WSet; auto.
    + apply inv_WSet; auto.
    + apply inv_WSet; auto. right. split; [done|]. right. apply set_choose_L in Hm as [j Hj].
      apply elem_of_filter in Hj as [? ?]. eauto.
  - injection Hs as <-. exists L. by apply inv_WPoll.
  - injection Hs as <-. exists L. by apply inv_WSize.
  - injection Hs as <-. exists L. destruct b; [by apply (inv_WDone s L c true w); [..|left]|].
    pose proof (se_stage s (i_seated _ _ I) c) as Hg. rewrite Hw in Hg.
    assert (sched (<[c := set_wk false None (cpus s c)]> (cpus s) c) = sched (cpus s c)) as -> by (by rewrite fn_lookup_insert).
    destruct (sched (cpus s c)) as [[]|] eqn:Hsc; try done.
    + by apply (inv_WDoneTail s L c false w).
    + apply inv_preempt_enable; [by apply (inv_WDone s L c false w); auto|]. ev. auto.
  - injection Hs as <-. exists L. by apply inv_WBack.
Qed.

End SchedWake.
