(* ===== verification/SchedRun.v ===== *)
(** * The scheduler: threads and CPUs keep the invariant *)
From S2P Require Import Prelude Sched SchedInv SchedWake.

Module SchedRun.
Import Sched SchedInv SchedWake.

Ltac dec := repeat first [rewrite decide_False by done | rewrite decide_True by done].

Section threads.
Context (s : state) (L : tid → spot) (c : nat) (I : inv s L).
Context (Hirq : irq (cpus s c) = false) (Hsc : sched (cpus s c) = None) (Hwk : wk (cpus s c) false = None).

Notation me := (current s c).

Lemma own_facts :
  on s me = true ∧ pc_ok true (stt s me) (pct s me) = true ∧ stage_ok None None (pct s me) (stt s me) = true ∧
  is_idle me = idle_pc (pct s me) ∧ ∀ d, current s d = me → d = c.
Proof using All.
  parts I. pose proof (on_cur s c Is) as Hon. pose proof (se_pc s Is me) as Hpc. pose proof (se_stage s Is c) as Hst.
  rewrite Hon in Hpc. rewrite Hsc, Hwk in Hst. repeat split; [done..|symmetry; apply Is|intros d; by apply cur_inj].
Qed.

Lemma conds_block k : pct s me = Prep k → holds s me k = false → conds (goto me (Block k) s).
Proof using All.
  intros Hp Hh. destruct (i_conds _ _ I) as [C1 C2 C3].
  assert (∀ t k', holds (goto me (Block k) s) t k' = holds s t k') as Hho by (intros t []; cbn [holds]; by ev).
  split.
  - intros t k'. rewrite Hho. destruct (decide (t = me)) as [->|Hne].
    + evc. rewrite fn_lookup_insert. evc. cbn [sleeps]. intros [= <-]. congruence.
    + evc. rewrite fn_lookup_insert_ne by done. apply C1.
  - intros t. pose proof (C2 t). ev; auto. done.
  - intros t z. pose proof (C3 t z) as H3. ev; rewrite ?Hp in H3; auto.
Qed.

(** While [wake_lock] has the thread, its condition is false. *)
Lemma prep_sending k : pct s me = Prep k → stt s me = sending_lock → holds s me k = false.
Proof using All.
  intros Hp Hx. parts I. destruct (ba_prep s Ib me k Hx Hp) as (d & b & w & Hw & Hs & Ht).
  destruct (ba_at s Ib d b w Hw Hs) as (_ & Hl & Hc). rewrite Ht in *. rewrite Hp in Hl. by destruct k.
Qed.

Lemma backs_sleep s' k :
  pct s me = Prep k ∨ pct s me = Block k → pct s' me = Block k ∨ pct s' me = Slept k →
  (∀ t, t ≠ me → pct s' t = pct s t) → (∀ t, stt s' t = stt s t) → (∀ t, cond (thr s' t) = cond (thr s t)) →
  (∀ d b, wk (cpus s' d) b = wk (cpus s d) b) → backs s'.
Proof using I.
  intros Hp Hp' Hpc Hst Hco Hw. eapply backs_frame; [apply I|auto| |auto|by intros; rewrite Hw|intros; rewrite Hw in *; auto].
  intros t. destruct (decide (t = me)) as [->|]; [right; right|auto].
  destruct Hp as [-> | ->], Hp' as [-> | ->]; by destruct k.
Qed.

Lemma inv_wait s' :
  (match pct s me with Loop _ | Prep _ | Block _ | Slept _ => True | _ => False end) →
  thread_step c s = Some s' → inv s' L.
Proof using All.
  destruct own_facts as (Hon & Hpc & Hst & Hk & Hinj). pose proof I as I'. parts I'. intros Hm Hs. unfold thread_step in Hs. destruct (pct s me) eqn:Hp; try done; injection Hs as <-; cbn in Hk;
    pose proof (not_idle _ Hk) as Hni.
  - assert (stt s me = running) as Hx by (by destruct (stt s me)). rewrite Hx, decide_True by done. frames.
  - assert (pc_ok true (stt s me) (Block k) = true) as H2 by (by destruct (stt s me)).
    destruct (holds s me k) eqn:Hh.
    + assert (stt s me ≠ sending_lock) as Hx by (intros E; by rewrite (prep_sending k) in Hh).
      assert (pc_ok true (stt s me) (Stop None) = true) as H1 by (by destruct (stt s me)). destruct k; frames.
    + frames; [by apply conds_block|]. apply (backs_sleep _ k); [auto|left; by ev|intros; by ev..].
  - assert (pc_ok true (stt s me) (Slept k) = true) as H1 by (by destruct (stt s me)). unfold enter. frames.
    apply (backs_sleep _ k); [auto|right; by ev|intros; by ev..].
  - assert (stt s me = running) as Hx by (by destruct (stt s me)). frames.
Qed.

Lemma inv_stop s' :
  (match pct s me with Stop _ | Stop2 _ | Stop3 _ => True | _ => False end) →
  thread_step c s = Some s' → inv s' L.
Proof using All.
  destruct own_facts as (Hon & Hpc & Hst & Hk & Hinj). pose proof I as I'. parts I'.
  intros Hm Hs. unfold thread_step in Hs. destruct (pct s me) eqn:Hp; try done; injection Hs as <-; cbn in Hk;
    pose proof (not_idle _ Hk) as Hni.
  - destruct (stt s me) eqn:Hx; try (by destruct o); dec;
      (apply inv_preempt_enable; [|by ev]).
    + destruct o; [done|]. frames.
    + frames.
    + frames.
  - destruct (stt s me) eqn:Hx; try done; dec.
    + frames.
    + apply inv_enter; auto. by rewrite Hp.
  - destruct (stt s me) eqn:Hx; try done. dec. destruct o; frames.
Qed.

Lemma inv_idle s' :
  idle_pc (pct s me) = true → thread_step c s = Some s' → inv s' L.
Proof using All.
  destruct own_facts as (Hon & Hpc & Hst & Hk & Hinj). pose proof I as I'. parts I'.
  intros Hm Hs. pose proof (current_idle s c Is Hm) as Hme. unfold thread_step in Hs. rewrite Hme in *.
  destruct (pct s (Idle c)) eqn:Hp; try done; injection Hs as <-; cbn in Hk;
    assert (stt s (Idle c) = running) as Hx by (by destruct (stt s (Idle c))).
  - frames.
  - apply inv_begin; auto. by rewrite Hme, Hp.
  - frames.
  - frames.
  - apply inv_begin; auto. by rewrite Hme, Hp.
  - apply inv_begin; auto. by rewrite Hme, Hp.
  - assert (idle_poll (cpus s c) = false) as Hpo by (destruct (idle_poll _) eqn:E; [apply (aw_poll s Iw) in E; by rewrite Hp in E|done]).
    unfold enter. change (current (goto (Idle c) IStart s) c) with (current s c). rewrite Hme. frames.
Qed.

Lemma term_exit2 : pct s me = Exit2 → stt s me = terminating → (∀ d, Idle d ≠ me) → term (goto me Exit3 (upc c (set_dying (Some me)) s)).
Proof using All.
  intros Hp Hx Hni. parts I. destruct It as [D1 D2 D3 D4]. pose proof (se_cur s Is c) as Hc. pose proof (λ d, cur_inj s c d Is) as Hinj.
  pose proof (D2 c Hp) as Hno. split.
  - intros d y Hy. destruct (decide (d = c)) as [->|Hd].
    + assert (y = me) as -> by (revert Hy; evc; rewrite fn_lookup_insert; evc; congruence).
      clear Hy. ev; repeat split; auto.
    + assert (dying (cpus s d) = Some y) as Hy' by (by ev). destruct (D1 d y Hy') as (E1 & E2 & E3 & E4).
      assert (y ≠ me) as Hne by congruence. clear Hy. ev; auto.
  - intros d. pose proof (D2 d). ev; done || auto.
  - intros y Hy1 Hy2. destruct (decide (y = me)) as [->|Hne].
    + left. clear Hy1 Hy2. ev; done.
    + destruct (D3 y) as [E|(w & Hw)]; [by ev..| |].
      * left. assert (cput s y ≠ c) by (intros E'; rewrite E' in E; congruence). clear Hy1 Hy2. ev; done.
      * right. exists w. clear Hy1 Hy2. ev; done.
  - intros c' b w y Hw Hs Hd. destruct (D4 c' b w y) as (E1 & E2 & E3 & E4); [by ev|done|done|].
    assert (y ≠ me) as Hne by congruence. clear Hw. ev; try done; repeat split; auto; congruence.
Qed.

Lemma inv_exit s' :
  (match pct s me with Exit2 | Exit3 => True | _ => False end) → thread_step c s = Some s' → inv s' L.
Proof using All.
  destruct own_facts as (Hon & Hpc & Hst & Hk & Hinj). pose proof I as I'. parts I'. 
  intros Hm Hs. unfold thread_step in Hs. destruct (pct s me) eqn:Hp; try done; injection Hs as <-; cbn in Hk;
    pose proof (not_idle _ Hk) as Hni; assert (stt s me = terminating) as Hx by (by destruct (stt s me)).
  - frames. by apply term_exit2.
  - apply inv_enter; auto. by rewrite Hp.
Qed.

End threads.

(** ** The end of a thread *)

Section destroying.
Context (s : state) (L : tid → spot) (c : nat) (z : tid) (g : option stage) (I : inv s L).
Context (Hd : dying (cpus s c) = Some z) (Hne : current s c ≠ z) (Hwk : wk (cpus s c) false = None).
Context (Hg : sched (cpus s c) = Some STail ∧ pct s (current s c) ≠ New ∧ g = Some SWake ∨
              sched (cpus s c) = None ∧ pct s (current s c) = Exit1 ∧ g = None ∧ irq (cpus s c) = false).

Notation hand j := (upc c (λ k, set_wk false (Some (W j false (Terminate z) 0 WAct)) (set_sched g (set_dying None k))) s).
Notation quiet := (upt z (λ t, set_st terminated (set_joiner (Some z) t)) (upc c (λ k, set_sched None (set_dying None k)) s)).

Lemma dying_facts :
  stt s z = terminating ∧ pct s z = Exit3 ∧ cput s z = c ∧ on s z = false ∧ ∀ d, current s d ≠ z.
Proof using All.
  parts I. destruct (te_dying s It c z Hd) as (T1 & T2 & T3 & _). repeat split; try done.
  - apply bool_decide_eq_false. by rewrite T3.
  - intros d <-. apply Hne. f_equal. by rewrite (se_cur s Is) in T3; subst.
Qed.

(** The thread that runs goes on. *)
Lemma destroyer_facts w :
  stage_ok None None (pct s (current s c)) (stt s (current s c)) = true ∧
  stage_ok g (Some w) (pct s (current s c)) (stt s (current s c)) = true ∧ pend (sched (cpus s c)) = [] ∧ pend g = [] ∧
  irq (cpus s c) = false ∧ pct s (current s c) ≠ IHalt ∧
  may_halt None (pct s (current s c)) = false ∧ may_halt g (pct s (current s c)) = false.
Proof using All.
  parts I. pose proof (se_stage s Is c) as Hst. rewrite Hwk in Hst. destruct Hg as [(E1 & E2 & ->)|(E1 & E2 & -> & E3)]; rewrite E1 in *.
  - assert (irq (cpus s c) = false) as Hirq by (apply irq_off; [done|by rewrite E1]).
    by destruct (pct s (current s c)), (stt s (current s c)).
  - by rewrite E2.
Qed.

Lemma wk_hand j : wk (cpus (hand j) c) false = Some (W j false (Terminate z) 0 WAct).
Proof. by ev. Qed.

Lemma term_hand j : joiner (thr s z) = Some j → term (hand j).
Proof using All.
  intros Hj. destruct dying_facts as (T1 & T2 & T3 & T4 & T5). destruct (i_term _ _ I) as [D1 D2 D3 D4]. split.
  - intros d y. pose proof (D1 d y). ev; done || auto.
  - intros d. pose proof (D2 d). ev; done || auto.
  - intros y Hy1 Hy2. destruct (decide (y = z)) as [->|Hyz].
    + right. change (cput (hand j) z) with (cput s z). rewrite T3. eexists. split; [apply wk_hand|done].
    + destruct (D3 y Hy1 Hy2) as [E|(w & Hw & Hw')].
      * left. assert (cput s y ≠ c) as Hyc by (intros E'; rewrite E' in E; congruence). clear Hy1 Hy2. ev; done.
      * right. exists w. split; [|done]. assert (cput s y ≠ c) as Hyc by (intros E'; rewrite E' in Hw; congruence). clear Hy1 Hy2. ev; done.
  - intros c' b w y Hw Hs Hdw. destruct (decide ((c', b) = (c, false))) as [[= -> ->]|Hcb].
    + rewrite wk_hand in Hw. injection Hw as <-. injection Hdw as <-. change (cput (hand j) z) with (cput s z). rewrite T3. clear Hs.
      repeat split; [done..|by ev|by ev].
    + destruct (D4 c' b w y) as (E1 & E2 & E3 & E4); [|done..|]; [clear Hs Hdw; by ev|].
      repeat split; try done; clear Hw; ev; congruence.
Qed.

Lemma term_quiet : joiner (thr s z) = None → term quiet.
Proof using All.
  intros Hj. destruct dying_facts as (T1 & T2 & T3 & T4 & T5). destruct (i_term _ _ I) as [D1 D2 D3 D4]. split.
  - intros d y Hy. assert (d ≠ c) as Hdc by (intros ->; by ev). assert (dying (cpus s d) = Some y) as Hy' by (by ev).
    destruct (D1 d y Hy') as (E1 & E2 & E3 & E4). assert (y ≠ z) as Hyz by congruence. clear Hy. ev; done.
  - intros d. pose proof (D2 d). ev; done || auto.
  - intros y Hy1 Hy2. assert (y ≠ z) as Hyz by (intros ->; by ev).
    destruct (D3 y) as [E|(w & Hw & Hw')]; [by ev..| |].
    + left. assert (cput s y ≠ c) as Hyc by (intros E'; rewrite E' in E; congruence). clear Hy1 Hy2. ev; done.
    + right. exists w. split; [|done]. clear Hy1 Hy2. ev; congruence.
  - intros c' b w y Hw Hs Hdw. destruct (D4 c' b w y) as (E1 & E2 & E3 & E4); [clear Hs Hdw; by ev|done..|].
    assert (y ≠ z) as Hyz by congruence. clear Hw. ev; repeat split; congruence.
Qed.

Lemma inv_destroy : inv (destroy c z g s) L.
Proof using All.
  destruct dying_facts as (T1 & T2 & T3 & T4 & T5). pose proof I as I'. parts I'.
  pose proof (se_kind s Is z) as Hk. rewrite T2 in Hk. cbn in Hk. symmetry in Hk.
  unfold destroy. dec. destruct (joiner (thr s z)) as [j|] eqn:Hj.
  - destruct (destroyer_facts (W j false (Terminate z) 0 WAct)) as (G1 & G2 & G3 & G4 & Hirq & G5 & G6 & G7). frames.
    by apply term_hand.
  - destruct (destroyer_facts (W z false Nothing 0 WAct)) as (G1 & G2 & G3 & G4 & Hirq & G5 & G6 & G7). frames.
    + eapply conds_upd; [done| |same|same|same|].
      * intros t. destruct (decide (t = z)) as [->|]; [right|left; by ev]. split; [left; by ev|]. congruence.
      * intros t _. apply to_wake_kept. same.
    + by apply term_quiet.
Qed.

Lemma destroy_keeps :
  current (destroy c z g s) c = current s c ∧ irq (cpus (destroy c z g s) c) = irq (cpus s c) ∧
  (g = None → sched (cpus (destroy c z g s) c) = None) ∧ dying (cpus (destroy c z g s) c) = None ∧
  ∀ u, pct (destroy c z g s) u = pct s u.
Proof using All.
  destruct dying_facts as (T1 & _). unfold destroy. dec.
  destruct (joiner (thr s z)); (split; [by ev|]; split; [by ev|]; split; [intros ->; by ev|]; split; [by ev|intros u; by ev]).
Qed.

End destroying.

(** Nobody is left to destroy. *)
Lemma inv_tail_none s L c :
  inv s L → sched (cpus s c) = Some STail → wk (cpus s c) false = None → pct s (current s c) ≠ New → dying (cpus s c) = None →
  inv (upc c (set_sched None) s) L.
Proof.
  intros I Hsc Hwk Hp Hd. parts I. pose proof (se_stage s Is c) as Hst. rewrite Hsc, Hwk in Hst.
  assert (stage_ok None None (pct s (current s c)) (stt s (current s c)) = true ∧ may_halt None (pct s (current s c)) = false ∧
          pct s (current s c) ≠ IHalt) as (H1 & H2 & H3).
  { by destruct (pct s (current s c)), (stt s (current s c)). }
  assert (irq (cpus s c) = false) as Hirq by (apply irq_off; [done|by rewrite Hsc]).
  frames.
Qed.

Lemma inv_goto2 s L c :
  inv s L → irq (cpus s c) = false → sched (cpus s c) = None → pct s (current s c) = Exit1 → dying (cpus s c) = None →
  inv (goto (current s c) Exit2 s) L.
Proof.
  intros I Hirq Hsc Hp Hd. parts I. pose proof (on_cur s c Is) as Hon. pose proof (se_pc s Is (current s c)) as Hpc.
  pose proof (se_kind s Is (current s c)) as Hk. rewrite Hon, Hp in *. assert (stt s (current s c) = terminating) as Hx by (by destruct (stt s (current s c))).
  pose proof (λ d, cur_inj s c d Is) as Hinj. cbn in Hk. symmetry in Hk. pose proof (not_idle _ Hk) as Hni.
  destruct (wk (cpus s c) false) eqn:Hwk; frames.
Qed.

Lemma inv_thread_step s L c s' :
  inv s L → irq (cpus s c) = false → sched (cpus s c) = None → wk (cpus s c) false = None →
  thread_step c s = Some s' → inv s' L.
Proof.
  intros I Hirq Hsc Hwk Hs. destruct (pct s (current s c)) eqn:Hp.
  all: try (eapply inv_wait; [done..|by rewrite Hp|done]).
  all: try (eapply inv_stop; [done..|by rewrite Hp|done]).
  all: try (eapply inv_idle; [done..|by rewrite Hp|done]).
  all: try (eapply inv_exit; [done..|by rewrite Hp|done]).
  all: unfold thread_step in Hs; rewrite Hp in Hs; try done.
  injection Hs as <-. destruct (dying (cpus s c)) as [z|] eqn:Hd; [|by apply inv_goto2].
  assert (z ≠ current s c) as Hne.
  { intros ->. destruct (te_dying s (i_term _ _ I) c _ Hd) as (_ & E & _). congruence. }
  rewrite decide_False by done. pose proof (inv_destroy s L c z None I Hd ltac:(done) Hwk ltac:(by right)) as I'.
  destruct (destroy_keeps s L c z None I Hd ltac:(done) Hwk ltac:(by right)) as (E1 & E2 & E3 & E4 & E5). specialize (E3 eq_refl).
  rewrite <- E1. apply inv_goto2; try congruence.
Qed.

Lemma inv_tail s L c s' r :
  inv s L → sched (cpus s c) = Some STail → wk (cpus s c) false = None → sched_step c STail r s = Some s' → inv s' L.
Proof.
  intros I Hsc Hwk Hs. cbn [sched_step] in Hs.
  assert (irq (cpus s c) = false) as Hirq by (apply irq_off; [apply I|by rewrite Hsc]).
  destruct (decide (pct s (current s c) = New)) as [Hp|Hp].
  - rewrite Hp in Hs. injection Hs as <-. apply inv_preempt_enable; [|by ev]. pose proof I as I'. parts I'.
    pose proof (on_cur s c Is) as Hon. pose proof (se_pc s Is (current s c)) as Hpc. pose proof (se_kind s Is (current s c)) as Hk.
    rewrite Hon, Hp in *. assert (stt s (current s c) = running) as Hx by (by destruct (stt s (current s c))).
    pose proof (λ d, cur_inj s c d Is) as Hinj. cbn in Hk. symmetry in Hk. pose proof (not_idle _ Hk) as Hni.
    frames.
  - destruct (dying (cpus s c)) as [z|] eqn:Hd.
    + destruct (te_dying s (i_term _ _ I) c z Hd) as (T1 & T2 & T3 & T4).
      assert (current s c ≠ z) as Hne.
      { intros <-. pose proof (se_stage s (i_seated _ _ I) c) as Hst. by rewrite Hsc, Hwk, T2 in Hst. }
      assert (s' = destroy c z (Some SWake) s) as -> by (destruct (pct s (current s c)); congruence).
      apply inv_destroy; auto.
    + assert (s' = upc c (set_sched None) s) as -> by (destruct (pct s (current s c)); congruence). by apply inv_tail_none.
Qed.

End SchedRun.
