(* ===== verification/SchedPick.v ===== *)
(** * The scheduler: the run queue and the incoming wakeups keep the invariant *)
From S2P Require Import Prelude Sched SchedInv SchedWake SchedRun.

Module SchedPick.
Import Sched SchedInv SchedWake SchedRun.

(** ** The order of the run queue *)

Definition sorted (s : state) : list tid → Prop := StronglySorted (λ a b, less s b a = false).

Lemma less_spec s a b :
  0 ≤ prio (thr s a) → 0 ≤ prio (thr s b) →
  less s a b = true ↔ prio (thr s b) < prio (thr s a) ∨ prio (thr s a) = prio (thr s b) ∧ prio (thr s b) = 0 ∧ rt_less s a b = true.
Proof.
  intros Ha Hb. unfold less. destruct (Z.ltb_spec (prio (thr s b)) (prio (thr s a))); [naive_solver|].
  destruct (Z.ltb_spec 0 (prio (thr s b))); [split; [done|]; intros [?|(? & ? & _)]; lia|].
  assert (prio (thr s a) = prio (thr s b) ∧ prio (thr s b) = 0) as [E1 E2] by lia. split; [auto|]. intros [?|(_ & _ & ?)]; [lia|done].
Qed.

Lemma less_trans_not s a b d :
  (∀ t, 0 ≤ prio (thr s t)) → less s b a = false → less s d b = false → less s d a = false.
Proof.
  intros Hp. rewrite <- !not_true_iff_false, !less_spec by done. intros H1 H2 H3.
  assert (rt_less s d a = true → rt_less s d b = true ∨ rt_less s b a = true) as Hr.
  { unfold rt_less. destruct a, b, d; rewrite ?Z.ltb_lt; first [lia | intuition congruence | intros; lia]. }
  pose proof (Hp a). pose proof (Hp b). pose proof (Hp d). destruct H3 as [?|(? & ? & ?%Hr)]; [|destruct_or!].
  - destruct (Z.lt_total (prio (thr s b)) (prio (thr s d))) as [?|[?|?]]; [apply H2; auto| |]; apply H1; left; lia.
  - destruct (Z.lt_total (prio (thr s b)) (prio (thr s d))) as [?|[?|?]]; [apply H2; auto|apply H2; right; repeat split; [done|lia|done]|apply H1; left; lia].
  - destruct (Z.lt_total (prio (thr s b)) (prio (thr s d))) as [?|[?|?]]; [apply H2; auto|apply H1; right; repeat split; [lia..|done]|apply H1; left; lia].
Qed.

Lemma less_asym s a b : (∀ t, 0 ≤ prio (thr s t)) → less s a b = true → less s b a = false.
Proof.
  intros Hp. rewrite <- not_true_iff_false, !less_spec by done. intros H1 H2.
  assert (rt_less s a b = true → rt_less s b a = true → False) as Hr.
  { unfold rt_less. destruct a, b; try done; rewrite !Z.ltb_lt; lia. }
  destruct H1 as [?|(? & ? & ?)], H2 as [?|(? & ? & ?)]; [lia..|auto].
Qed.

Lemma insert_equal_elem s t l u : u ∈ insert_equal s t l ↔ u = t ∨ u ∈ l.
Proof. induction l as [|x l IH]; cbn; [|case_match]; rewrite ?elem_of_cons, ?IH, ?elem_of_nil; tauto. Qed.

Lemma insert_first_elem s t l u : u ∈ insert_first s t l ↔ u = t ∨ u ∈ l.
Proof. induction l as [|x l IH]; cbn; [|case_match]; rewrite ?elem_of_cons, ?IH, ?elem_of_nil; tauto. Qed.

Lemma insert_equal_nodup s t l : t ∉ l → NoDup l → NoDup (insert_equal s t l).
Proof.
  induction l as [|x l IH]; cbn; intros Ht Hn; [apply NoDup_singleton|]. case_match; [by constructor|].
  apply NoDup_cons in Hn as [Hx Hn]. apply not_elem_of_cons in Ht as [? ?]. constructor; [|auto].
  rewrite insert_equal_elem. intros [->|?]; done.
Qed.

Lemma insert_first_nodup s t l : t ∉ l → NoDup l → NoDup (insert_first s t l).
Proof.
  induction l as [|x l IH]; cbn; intros Ht Hn; [apply NoDup_singleton|]. case_match; [|by constructor].
  apply NoDup_cons in Hn as [Hx Hn]. apply not_elem_of_cons in Ht as [? ?]. constructor; [|auto].
  rewrite insert_first_elem. intros [->|?]; done.
Qed.

Lemma sorted_cons_le s t u l : (∀ t, 0 ≤ prio (thr s t)) → less s u t = false → sorted s (u :: l) → sorted s (t :: u :: l).
Proof.
  intros Hp Hl Hs. constructor; [done|]. apply StronglySorted_inv in Hs as [_ Hf]. constructor; [done|].
  eapply Forall_impl; [exact Hf|]. cbn. intros x Hx. by eapply less_trans_not.
Qed.

Lemma insert_equal_sorted s t l : (∀ t, 0 ≤ prio (thr s t)) → sorted s l → sorted s (insert_equal s t l).
Proof.
  intros Hp. induction l as [|u l IH]; cbn; intros Hs; [repeat constructor|]. destruct (less s t u) eqn:E.
  - apply sorted_cons_le; [done|by apply less_asym|done].
  - apply StronglySorted_inv in Hs as [Hs Hf]. constructor; [by apply IH|]. apply Forall_forall. intros x [->|Hx]%insert_equal_elem; [done|].
    by apply (proj1 (Forall_forall _ _) Hf).
Qed.

Lemma insert_first_sorted s t l : (∀ t, 0 ≤ prio (thr s t)) → sorted s l → sorted s (insert_first s t l).
Proof.
  intros Hp. induction l as [|u l IH]; cbn; intros Hs; [repeat constructor|]. destruct (less s u t) eqn:E.
  - apply StronglySorted_inv in Hs as [Hs Hf]. constructor; [by apply IH|]. apply Forall_forall. intros x [->|Hx]%insert_first_elem.
    + by apply less_asym.
    + by apply (proj1 (Forall_forall _ _) Hf).
  - by apply sorted_cons_le.
Qed.

Lemma sorted_ext s s' l :
  (∀ t, t ∈ l → prio (thr s' t) = prio (thr s t) ∧ rt (thr s' t) = rt (thr s t)) → sorted s l → sorted s' l.
Proof.
  intros He. induction 1 as [|a l Hs IH Hf]; [constructor|]. constructor.
  - apply IH. intros t Ht. apply He. by right.
  - apply Forall_forall. intros b Hb. pose proof (proj1 (Forall_forall _ _) Hf b Hb) as Hl. cbn in *.
    destruct (He a (list_elem_of_here _ _)) as [Ea1 Ea2]. destruct (He b (list_elem_of_further _ _ _ Hb)) as [Eb1 Eb2].
    revert Hl. unfold less, rt_less. by rewrite Ea1, Ea2, Eb1, Eb2.
Qed.

(** ** [handle_incoming_wakeups] *)

Section handling.
Context (s : state) (L : tid → spot) (c : nat) (I : inv s L).

Definition after_of (g : stage) : option after := match g with HFetch _ _ k | HDrain _ k => Some k | _ => None end.

Lemma handling_facts g g' k :
  sched (cpus s c) = Some g → after_of g = Some k → after_of g' = Some k →
  (irq (cpus s c) = true → irq_stage (Some g') = true) ∧ pct s (current s c) ≠ IHalt ∧
  after_ok k (pct s (current s c)) = true ∧ wk (cpus s c) false = None.
Proof using All.
  intros Hsc Hk Hk'. pose proof (se_stage s (i_seated _ _ I) c) as Hst. rewrite Hsc in Hst.
  assert (after_ok k (pct s (current s c)) = true ∧ wk (cpus s c) false = None) as [Ha Hw].
  { destruct (wk (cpus s c) false), g; naive_solver. }
  split; [|split; [|done]].
  - intros E. apply (aw_irq s (i_awake _ _ I)) in E as [E _]. rewrite Hsc in E. destruct g; try done; injection Hk as ->; destruct g'; try done;
      injection Hk' as ->; by destruct k.
  - intros E. rewrite E in Ha. by destruct k as [[]| | | |].
Qed.

(** Only [c] goes on with the wakeups. *)
Lemma noticed_stage s' :
  (∀ d, ipi (cpus s' d) = ipi (cpus s d)) → (∀ d b, wk (cpus s' d) b = wk (cpus s d) b) → (∀ d, rq (cpus s' d) = rq (cpus s d)) →
  (∀ d, current s' d = current s d) → (∀ t, pct s' t = pct s t) →
  (∀ d, d ≠ c → sched (cpus s' d) = sched (cpus s d) ∧ mask (cpus s' d) = mask (cpus s d)) →
  (∀ i, committed s' c (word i) → i ∈ mask (cpus s' c) → committed s c (word i) ∧ i ∈ mask (cpus s c)) → noticed s'.
Proof using All.
  intros Hipi Hwk Hrq Hcur Hpc Hd Hc d i Hco Hr Hi. rewrite Hrq in Hr.
  assert (committed s d (word i) ∧ i ∈ mask (cpus s d)) as [Hco' Hi'].
  { destruct (decide (d = c)) as [->|Hne]; [auto|]. destruct (Hd d Hne) as [E1 E2]. rewrite E2 in Hi. split; [|done].
    unfold committed in *. by rewrite E1, Hcur, Hpc in Hco. }
  destruct (i_noticed _ _ I d i Hco' Hr Hi') as [?|(c' & b & x & ? & ? & ?)]; [left; congruence|].
  right. exists c', b, x. by rewrite Hwk.
Qed.

Lemma flow_stage g :
  (∀ i t, t ∈ inc (cpus s c) i → i ∈ pend (sched (cpus s c)) → i ∈ pend (Some g)) → flow (upc c (set_sched (Some g)) s).
Proof using All.
  intros Hg. destruct (i_flow _ _ I) as [F1 F2]. split; [intros d i; pose proof (F1 d i); by ev|]. intros d i t Ht.
  assert (t ∈ inc (cpus s d) i) as Ht' by (by ev). clear Ht. destruct (F2 d i t Ht') as [?|[?|(b & w & ? & ?)]].
  - left. by ev.
  - right. left. ev; eauto.
  - right. right. exists b, w. by ev.
Qed.

Lemma inv_fetch w acc k :
  sched (cpus s c) = Some (HFetch w acc k) →
  let l := filter (λ i, i ∈ mask (cpus s c) ∧ word i = w) (seq 0 max_cpus) in
  inv (upc c (λ x, set_sched (Some (HFetch (S w) (acc ++ l) k)) (set_mask (mask x ∖ list_to_set l) x)) s) L.
Proof using All.
  intros Hsc l. pose proof I as I'. parts I'.
  destruct (handling_facts _ (HFetch (S w) (acc ++ l) k) k Hsc eq_refl eq_refl) as (H1 & H2 & H3 & Hwk).
  assert (∀ i, i ∈ l ↔ i ∈ mask (cpus s c) ∧ word i = w) as Hl.
  { intros i. unfold l. rewrite list_elem_of_filter, elem_of_seq. split; [tauto|]. intros [Hi Hw]. pose proof (fl_mask s If c i Hi). split; [done|lia]. }
  clearbody l. frames.
  - destruct If as [F1 F2]. split.
    + intros d i. pose proof (F1 d i). ev; auto. rewrite elem_of_difference. tauto.
    + intros d i t Ht. assert (t ∈ inc (cpus s d) i) as Ht' by (by ev). clear Ht. destruct (decide (d = c)) as [->|Hne].
      * destruct (F2 c i t Ht') as [Hi|[Hi|(b & w' & Hw')]].
        -- destruct (decide (word i = w)); [right; left|left]; ev; [apply elem_of_app; right; by apply Hl|].
           apply elem_of_difference. rewrite elem_of_list_to_set, Hl. naive_solver.
        -- right. left. ev. rewrite Hsc in Hi. cbn in *. apply elem_of_app. by left.
        -- right. right. exists b, w'. ev; done.
      * destruct (F2 d i t Ht') as [Hi|[Hi|(b & w' & Hw')]]; [left; by ev|right; left; by ev|].
        right. right. exists b, w'. ev; done.
  - apply noticed_stage; [by intros; ev..|]. intros i Hco Hi. assert (i ∈ mask (cpus s c) ∧ word i ≠ w) as [Hm Hw].
    { revert Hi. clear Hco. ev. rewrite elem_of_difference, elem_of_list_to_set, Hl. tauto. }
    split; [|done]. unfold committed in *. rewrite Hsc. revert Hco. clear Hi. ev. destruct k; try done. lia.
Qed.

Lemma inv_fetched w acc k :
  sched (cpus s c) = Some (HFetch w acc k) → (nr_words ≤ w)%nat → inv (upc c (set_sched (Some (HDrain acc k))) s) L.
Proof using All.
  intros Hsc Hw. pose proof I as I'. parts I'. destruct (handling_facts _ (HDrain acc k) k Hsc eq_refl eq_refl) as (H1 & H2 & H3 & Hwk).
  frames.
  - apply flow_stage. rewrite Hsc. auto.
  - apply noticed_stage; [by intros; ev..|]. intros i Hco Hi. assert (i ∈ mask (cpus s c)) as Hm by (by ev). split; [|done].
    unfold committed in *. rewrite Hsc. revert Hco. clear Hi. ev. destruct k; try done. intros _.
    pose proof (fl_mask s If c i Hm) as Hb. unfold word, max_cpus, nr_words in *. assert (i / 64 < 4)%nat by (apply Nat.Div0.div_lt_upper_bound; lia). lia.
Qed.

Lemma inv_drained i l k :
  sched (cpus s c) = Some (HDrain (i :: l) k) → inc (cpus s c) i = [] → inv (upc c (set_sched (Some (HDrain l k))) s) L.
Proof using All.
  intros Hsc Hi. pose proof I as I'. parts I'. destruct (handling_facts _ (HDrain l k) k Hsc eq_refl eq_refl) as (H1 & H2 & H3 & Hwk).
  frames.
  - apply flow_stage. rewrite Hsc. intros j t Ht [-> |Hj]%elem_of_cons; [rewrite Hi in Ht; by apply elem_of_nil in Ht|done].
  - apply noticed_stage; [by intros; ev..|]. intros j Hco Hj. assert (j ∈ mask (cpus s c)) as Hm by (by ev). split; [|done].
    unfold committed in *. rewrite Hsc. revert Hco. clear Hj. ev. by destruct k.
Qed.

(** The first thread [t] of an incoming queue is taken out and gets the state [x]. *)
Section arriving.
Context (i : nat) (l : list nat) (k : after) (t : tid) (q : list tid).
Context (Hsc : sched (cpus s c) = Some (HDrain (i :: l) k)) (Hi : inc (cpus s c) i = t :: q).

Notation taken := (upc c (λ x, set_inc (<[i := q]> (inc x)) x) s).

Lemma arriving_facts :
  stt s t = waking ∧ cput s t = c ∧ L t = InQ i ∧ pct s t ≠ Exit3 ∧ pc_ok (on s t) waking (pct s t) = true ∧ t ∉ q ∧ NoDup q.
Proof using All.
  parts I. assert (t ∈ inc (cpus s c) i) as Ht by (rewrite Hi; by left). apply (p_inc _ _ Ip) in Ht as (Hx & Hc & HL).
  pose proof (se_pc s Is t) as Hpc. rewrite Hx in Hpc. repeat split; try done.
  - intros E. rewrite E in Hpc. by destruct (on s t).
  - pose proof (p_inc_nodup _ _ Ip c i) as Hn. rewrite Hi in Hn. by apply NoDup_cons in Hn as [? _].
  - pose proof (p_inc_nodup _ _ Ip c i) as Hn. rewrite Hi in Hn. by apply NoDup_cons in Hn as [_ ?].
Qed.

Lemma placed_arriving s' x :
  (∀ u, cput s' u = cput s u) → (∀ u, u ≠ t → stt s' u = stt s u) → stt s' t = x → x ≠ waking →
  (∀ d, NoDup (rq (cpus s' d))) → (∀ d u, u ∈ rq (cpus s' d) ↔ u ∈ rq (cpus s d) ∨ x = queued ∧ u = t ∧ d = c) →
  (∀ d j, inc (cpus s' d) j = inc (cpus taken d) j) → (∀ d b, wk (cpus s' d) b = wk (cpus s d) b) →
  placed s' (<[t := Nowhere]> L).
Proof using All.
  intros Hcpu Hst Hx Hxw Hnd Hrq Hinc Hwk. destruct arriving_facts as (E1 & E2 & E3 & _ & _ & Htq & Hnq).
  destruct (i_placed _ _ I) as [P1 P2 P3 P4 P5 P6 P7]. split.
  - intros d u. rewrite Hrq, Hcpu, P1. destruct (decide (u = t)) as [->|Hne]; [rewrite Hx; intuition congruence|].
    rewrite Hst by done. intuition congruence.
  - done.
  - intros d j u. rewrite Hinc, Hcpu. pose proof (P3 d j u) as H3. destruct (decide (u = t)) as [->|Hne].
    + rewrite fn_lookup_insert. split; [|intros (_ & _ & ?); congruence]. intros Hu. exfalso.
      assert (t ∈ inc (cpus s d) j ∧ (d, j) ≠ (c, i)) as [Hu' Hdj]; [|apply H3 in Hu' as (_ & ? & ?); congruence].
      ev; split; try done; intros [=]; congruence.
    + rewrite fn_lookup_insert_ne, Hst, <- H3 by done. clear H3. ev; try done. rewrite Hi. rewrite elem_of_cons. tauto.
  - intros d j. rewrite Hinc. pose proof (P4 d j). ev; done.
  - intros d b u. rewrite (waker_at_same s), P5 by done. destruct (decide (u = t)) as [->|Hne].
    + rewrite fn_lookup_insert, E3. intuition congruence.
    + by rewrite fn_lookup_insert_ne, Hst.
  - intros d b w. rewrite Hwk, Hcpu. apply P6.
  - intros u Hu. destruct (decide (u = t)) as [->|Hne]; [congruence|]. rewrite fn_lookup_insert_ne by done. apply P7. by rewrite <- Hst.
Qed.

Lemma inv_arrive_current : t = current s c → inv (upt t (set_st running) taken) (<[t := Nowhere]> L).
Proof using All.
  intros Ht. destruct arriving_facts as (E1 & E2 & E3 & E4 & E5 & E6 & E7). pose proof I as I'. parts I'.
  destruct (handling_facts _ (HDrain (i :: l) k) k Hsc eq_refl eq_refl) as (H1 & H2 & H3 & Hwk).
  assert (on s t = true) as Hon by (subst t; by apply on_cur).
  assert (pc_ok (on s t) running (pct s t) = true) as Hpr by (rewrite Hon in *; rewrite <- Ht in H3; by destruct (pct s t), k as [[]| | | |]).
  assert (∀ u, u ∈ q → u ∈ inc (cpus s c) i) as Hsub by (intros u Hu; rewrite Hi; by right).
  assert (∀ d, current s d = t → d = c) as Hinj by (intros d ->%eq_sym; by rewrite (se_cur s Is) in E2).
  pose proof (se_kind s Is t) as Hk.
  frames.
  eapply placed_arriving; [same| |by ev|done| | |same|same].
  - intros u Hu. by ev.
  - intros d. pose proof (p_rq_nodup _ _ Ip d). by ev.
  - intros d u. ev; intuition congruence.
Qed.

Lemma inv_arrive_other r q' : 
  t ≠ current s c → q' = insert_equal (upt t (λ x, set_rt r (set_st queued x)) taken) t (rq (cpus s c)) →
  inv (upc c (set_rq q') (upt t (λ x, set_rt r (set_st queued x)) taken)) (<[t := Nowhere]> L).
Proof using All.
  intros Ht Hq. destruct arriving_facts as (E1 & E2 & E3 & E4 & E5 & E6 & E7). pose proof I as I'. parts I'.
  destruct (handling_facts _ (HDrain (i :: l) k) k Hsc eq_refl eq_refl) as (H1 & H2 & H3 & Hwk).
  assert (on s t = false) as Hon by (apply bool_decide_eq_false; rewrite E2; auto).
  assert (pc_ok (on s t) queued (pct s t) = true) as Hpr by (rewrite Hon in *; by destruct (pct s t) as [| | | | | |[]| | | | | | | | | | | | |]).
  assert (∀ u, u ∈ q → u ∈ inc (cpus s c) i) as Hsub by (intros u Hu; rewrite Hi; by right).
  assert (∀ d, current s d ≠ t) as Hinj by (intros d <-; by rewrite (se_cur s Is) in E2; subst).
  pose proof (se_kind s Is t) as Hk.
  assert (∀ d, t ∉ rq (cpus s d)) as Hno by (intros d Hd; apply (p_rq _ _ Ip) in Hd as [? _]; congruence).
  assert (∀ u, u ∈ q' ↔ u = t ∨ u ∈ rq (cpus s c)) as Hel by (intros u; rewrite Hq; apply insert_equal_elem).
  assert (NoDup q') as Hnd by (rewrite Hq; apply insert_equal_nodup; [auto|apply Ip]).
  assert (∀ d, sorted (upt t (λ x, set_rt r (set_st queued x)) taken) (rq (cpus s d))) as Hso.
  { intros d. apply (sorted_ext s); [|apply Io]. intros u Hu. assert (u ≠ t) by (intros ->; by apply (Hno d)). by ev. }
  assert (sorted (upt t (λ x, set_rt r (set_st queued x)) taken) q') as Hso'.
  { rewrite Hq. apply insert_equal_sorted; [|done]. intros u. pose proof (or_prio s Io u). by ev. }
  clear Hq. frames.
  - eapply placed_arriving; [same| |by ev|done| | |same|same].
    + intros u Hu. by ev.
    + intros d. pose proof (p_rq_nodup _ _ Ip d). ev; done.
    + intros d u. specialize (Hel u). ev; intuition congruence.
  - intros d j Hco Hrq Hj. destruct (decide (d = c)) as [->|Hne].
    + exfalso. assert (q' = []) as E by (by ev). apply (not_elem_of_nil t). rewrite <- E. apply Hel. by left.
    + destruct (Id d j) as [?|(c' & b & x & Hx & ?)]; [|by ev|by ev|left; by ev|right; exists c', b, x; split; [|done]; clear Hco Hrq Hj; by ev].
      revert Hco. clear Hrq Hj. unfold committed. ev; done.
  - destruct Io as [O1 O2 O3]. split.
    + intros d. pose proof (Hso d) as Hd. clear Hso. revert Hso' Hd. ev; [by intros ? _|by intros _ ?].
    + intros u. pose proof (O2 u). by ev.
    + intros d. pose proof (O3 d). by ev.
Qed.

End arriving.

Lemma inv_arrive i l k t q r :
  sched (cpus s c) = Some (HDrain (i :: l) k) → inc (cpus s c) i = t :: q →
  inv (arrive c r t (upc c (λ x, set_inc (<[i := q]> (inc x)) x) s)) (<[t := Nowhere]> L).
Proof using All.
  intros Hsc Hi. destruct (arriving_facts i l k t q Hsc Hi) as (_ & Hc & _). unfold arrive.
  assert (current (upc c (λ x, set_inc (<[i := q]> (inc x)) x) s) c = current s c) as -> by (by ev).
  case_decide as Hd; [by eapply inv_arrive_current|]. rewrite decide_True by done. unfold enqueue.
  apply (inv_arrive_other i l k t q Hsc Hi); [done|]. f_equal. clear. by ev.
Qed.

(** ** What follows it *)

Context (Hirq : irq (cpus s c) = false).

Notation me := (current s c).

Lemma inv_proceed_resched y : sched (cpus s c) = Some (HDrain [] (AResched y)) → inv (upc c (set_sched (Some (SPick y))) s) L.
Proof using All.
  intros Hsc. pose proof I as I'. parts I'. destruct (handling_facts _ (HDrain [] (AResched y)) _ Hsc eq_refl eq_refl) as (_ & H2 & H3 & Hwk).
  frames.
Qed.

Lemma inv_proceed_none k :
  sched (cpus s c) = Some (HDrain [] k) → pct s me = Go → inv (upc c (set_sched None) s) L.
Proof using All.
  intros Hsc Hp. pose proof I as I'. parts I'. destruct (handling_facts _ (HDrain [] k) _ Hsc eq_refl eq_refl) as (_ & H2 & H3 & Hwk).
  frames.
Qed.

Lemma inv_proceed_idle k p :
  sched (cpus s c) = Some (HDrain [] k) → 
  match k, p with
  | APoll, (IExit | IPoll _ | IEnd) | AIrq, ISched | AHalt, (IStart | ISched) => True
  | _, _ => False
  end →
  inv (goto me p (upc c (set_sched None) s)) L.
Proof using All.
  intros Hsc Hp. pose proof I as I'. parts I'. destruct (handling_facts _ (HDrain [] k) _ Hsc eq_refl eq_refl) as (_ & H2 & H3 & Hwk).
  assert (me = Idle c) as Hme by (apply current_idle; [done|]; by destruct k as [[]| | | |], (pct s me)).
  pose proof (λ d, cur_inj s c d Is) as Hinj. pose proof (on_cur s c Is) as Hon. pose proof (se_pc s Is me) as Hpc.
  pose proof (aw_poll s Iw c) as Hpo. rewrite Hme in *. rewrite Hon in Hpc.
  assert (stt s (Idle c) = running) as Hx by (by destruct (pct s (Idle c)), k as [[]| | | |], (stt s (Idle c))).
  assert (idle_poll (cpus s c) = true → polling p = true) as Hpo'.
  { intros E. apply Hpo in E. by destruct k as [[]| | | |], (pct s (Idle c)), p. }
  assert (pct s (Idle c) ≠ Exit3) as Hx3 by (intros E; rewrite E in H3; by destruct k as [[]| | | |]).
  clear Hpo Hpc H2 H3. destruct k as [[]| | | |], p; try done; frames.
Qed.

(** It halts. *)
Lemma inv_proceed_halt :
  sched (cpus s c) = Some (HDrain [] AIrq) → rq (cpus s c) = [] → inv (goto me IHalt (upc c (set_sched None) s)) L.
Proof using All.
  intros Hsc Hrq. pose proof I as I'. parts I'. destruct (handling_facts _ (HDrain [] AIrq) _ Hsc eq_refl eq_refl) as (_ & H2 & H3 & Hwk).
  assert (pct s me = IIrq) as Hp by (by destruct (pct s me)).
  assert (me = Idle c) as Hme by (apply current_idle; [done|]; by rewrite Hp).
  pose proof (λ d, cur_inj s c d Is) as Hinj. pose proof (on_cur s c Is) as Hon. pose proof (se_pc s Is me) as Hpc.
  rewrite Hme in *. rewrite Hon, Hp in Hpc. assert (stt s (Idle c) = running) as Hx by (by destruct (stt s (Idle c))).
  frames.
  - destruct Iw as [A1 A2 A3 A4]. split.
    + intros d w. pose proof (A1 d w). by ev.
    + intros d. pose proof (A2 d). ev; try done; congruence.
    + intros d. pose proof (A3 d) as H. ev; auto; rewrite Hp in H; auto.
    + intros d. pose proof (A4 d). ev; auto.
  - intros d i Hco Hr Hi. assert (committed s d (word i)) as Hco'.
    { unfold committed in *. destruct (decide (d = c)) as [->|Hne]; [by rewrite Hsc|]. revert Hco. clear Hr Hi. ev; done. }
    destruct (Id d i Hco') as [?|(c' & b & x & Hx' & ?)]; [by ev..|left; by ev|]. right. exists c', b, x. split; [|done]. clear Hr Hi Hco. by ev.
Qed.

Lemma inv_proceed k : sched (cpus s c) = Some (HDrain [] k) → inv (proceed c k s) L.
Proof using All.
  intros Hsc. destruct (handling_facts _ (HDrain [] k) _ Hsc eq_refl eq_refl) as (_ & H2 & H3 & Hwk). unfold proceed. destruct k.
  - by apply inv_proceed_resched.
  - assert (pct s me = Go) as Hp by (by destruct (pct s me)). assert (stt s me = running) as Hx.
    { pose proof (se_pc s (i_seated _ _ I) me) as Hpc. rewrite on_cur, Hp in Hpc by apply I. by destruct (stt s me). }
    destruct (rq (cpus s c)) as [|n ?]; [by eapply inv_proceed_none|]. rewrite decide_True by done.
    destruct n; [by eapply inv_proceed_none|..]; apply inv_enter; try done; first [by rewrite Hp|by rewrite Hsc].
  - assert (∃ ctr, pct s me = IPoll ctr) as [ctr ->] by (destruct (pct s me); try done; eauto).
    apply (inv_proceed_idle APoll); [done|]. destruct (rq (cpus s c)); [by destruct (Z.of_nat ctr + 1 <? 10000)|done].
  - destruct (rq (cpus s c)) eqn:E; [by apply inv_proceed_halt|]. by apply (inv_proceed_idle AIrq).
  - apply (inv_proceed_idle AHalt); [done|]. by destruct (rq (cpus s c)).
Qed.

End handling.

End SchedPick.
