(* ===== verification/SchedSwitch.v ===== *)
(** * The scheduler: switching threads keeps the invariant *)
From S2P Require Import Prelude Sched SchedInv SchedWake SchedRun SchedPick.

Module SchedSwitch.
Import Sched SchedInv SchedWake SchedRun SchedPick.

(** ** The preemption counters *)

(** [t] holds the lock whose counter is [a]. *)
Definition has (s : state) (t : tid) (a : nat) : Prop := fst <$> locks (thr s t) = Some a.

#[export] Instance has_dec s t a : Decision (has s t a).
Proof. unfold has. apply _. Defined.

Lemma has_locks s t a : has s t a ↔ ∃ b, locks (thr s t) = Some (a, b).
Proof. unfold has. destruct (locks (thr s t)) as [[a' b]|]; naive_solver. Qed.

(** What does not depend on the counters. *)
Record same_threads (s s' : state) : Prop := SameThreads {
  sm_st t : stt s' t = stt s t;
  sm_pc t : pct s' t = pct s t;
  sm_cpu t : cput s' t = cput s t;
  sm_prio t : prio (thr s' t) = prio (thr s t);
  sm_rt t : rt (thr s' t) = rt (thr s t);
  sm_joiner t : joiner (thr s' t) = joiner (thr s t);
  sm_cond t : cond (thr s' t) = cond (thr s t);
  sm_has t a : has s' t a ↔ has s t a;
}.

Lemma count_out_spec p s :
  (∀ a, has s p a → counters s a = 0) →
  same_threads s (count_out p s) ∧ cpus (count_out p s) = cpus s ∧ aborted (count_out p s) = aborted s ∧
  ∀ a, counters (count_out p s) a = if decide (has s p a) then 1 else counters s a.
Proof.
  intros H. unfold count_out. destruct (locks (thr s p)) as [[a b]|] eqn:E.
  - assert (has s p a) as Ha by (apply has_locks; eauto). rewrite (H a Ha). cbn [Z.eqb]. repeat split; try done; try (by intros; ev).
    + unfold has. ev; try done. by rewrite E.
    + unfold has. ev; try done. by rewrite E.
    + intros a'. pose proof (H a Ha). unfold has in *. rewrite E in *. cbn in *. evc. rewrite fn_insert_if. destruct (decide (a' = a)) as [->|], (decide (fst <$> locks (thr s p) = _)) as [D|D]; rewrite E in D; cbn in D; congruence || lia.
  - repeat split; try done. intros a. rewrite decide_False; [done|]. unfold has. by rewrite E.
Qed.

Lemma count_in_spec n s :
  (∀ a, has s n a → counters s a = 1) →
  same_threads s (count_in n s) ∧ cpus (count_in n s) = cpus s ∧ aborted (count_in n s) = aborted s ∧
  ∀ a, counters (count_in n s) a = if decide (has s n a) then 0 else counters s a.
Proof.
  intros H. unfold count_in. destruct (locks (thr s n)) as [[a b]|] eqn:E.
  - assert (has s n a) as Ha by (apply has_locks; eauto). rewrite (H a Ha). change (1 =? 1) with true. cbv iota. repeat split; try done; try (by intros; ev).
    + unfold has. ev; try done. by rewrite E.
    + unfold has. ev; try done. by rewrite E.
    + intros a'. pose proof (H a Ha). unfold has in *. rewrite E in *. cbn in *. evc. rewrite fn_insert_if. destruct (decide (a' = a)) as [->|], (decide (fst <$> locks (thr s n) = _)) as [D|D]; rewrite E in D; cbn in D; congruence || lia.
  - repeat split; try done. intros a. rewrite decide_False; [done|]. unfold has. by rewrite E.
Qed.

Lemma counted p n s :
  p ≠ n → (∀ a, has s p a → counters s a = 0) → (∀ a, has s n a → counters s a = 1) →
  let s' := count_in n (count_out p s) in
  same_threads s s' ∧ cpus s' = cpus s ∧ aborted s' = aborted s ∧
  ∀ a, counters s' a = if decide (has s n a) then 0 else if decide (has s p a) then 1 else counters s a.
Proof.
  intros Hne Hp Hn. destruct (count_out_spec p s Hp) as (S1 & C1 & A1 & K1).
  destruct (count_in_spec n (count_out p s)) as (S2 & C2 & A2 & K2).
  { intros a Ha%(sm_has _ _ S1). rewrite K1, decide_False; [auto|]. intros Ha'. pose proof (Hp a Ha'). pose proof (Hn a Ha). lia. }
  cbv zeta. split; [|split; [congruence|split; [congruence|]]].
  - destruct S1, S2. split; intros; try congruence. by rewrite sm_has1.
  - intros a. rewrite K2, K1. pose proof (sm_has _ _ S1 n a). repeat case_decide; tauto || done.
Qed.

(** ** The state behind the switch *)

Section switched.
Context (s s' : state) (L : tid → spot) (c : nat) (y : bool) (n : tid) (l q : list tid) (I : inv s L).
Context (Hsc : sched (cpus s c) = Some (SPick y)) (Hrq : rq (cpus s c) = n :: l).

Notation p := (current s c).

Context (Hpc : ∀ t, pct s' t = pct s t) (Hcpu : ∀ t, cput s' t = cput s t) (Hprio : ∀ t, prio (thr s' t) = prio (thr s t)).
Context (Hj : ∀ t, joiner (thr s' t) = joiner (thr s t)) (Hcond : ∀ t, cond (thr s' t) = cond (thr s t)).
Context (Hrt : ∀ t, t ≠ p → t ≠ n → rt (thr s' t) = rt (thr s t)).
Context (Hst : ∀ t, t ≠ p → t ≠ n → stt s' t = stt s t) (Hn : stt s' n = running).
Context (Hp : stt s p = running ∧ stt s' p = queued ∨ stt s p ≠ running ∧ stt s' p = stt s p).
Context (Hcs : ∀ d, cpus s' d = if decide (d = c) then set_sched (Some STail) (set_cur n (set_rq q (cpus s c))) else cpus s d).
Context (Hq : ∀ u, u ∈ q ↔ u ∈ l ∨ stt s p = running ∧ u = p) (Hqn : NoDup q) (Hqs : sorted s' q).
Context (Hhas : ∀ t a, has s' t a ↔ has s t a).
Context (Hk : ∀ a, counters s' a = if decide (has s n a) then 0 else if decide (has s p a) then 1 else counters s a).
Context (Hab : aborted s' = false).

(** The next thread was queued, the previous one was on the CPU. *)
Lemma switch_facts :
  stt s n = queued ∧ cput s n = c ∧ on s n = false ∧ on s p = true ∧ n ≠ p ∧ n ∉ l ∧ NoDup l ∧ cput s p = c ∧
  after_ok (AResched y) (pct s p) = true ∧ wk (cpus s c) false = None ∧ irq (cpus s c) = false ∧
  pc_ok false queued (pct s n) = true ∧ pc_ok true (stt s p) (pct s p) = true ∧ stt s p ≠ queued.
Proof using I Hsc Hrq.
  parts I. assert (n ∈ rq (cpus s c)) as Hin by (rewrite Hrq; by left). apply (p_rq _ _ Ip) in Hin as [E1 E2].
  pose proof (on_cur s c Is) as Hon. pose proof (se_stage s Is c) as Hg. rewrite Hsc in Hg.
  pose proof (p_rq_nodup _ _ Ip c) as Hnd. rewrite Hrq in Hnd. apply NoDup_cons in Hnd as [Hnl Hnd].
  pose proof (se_pc s Is n) as H1. pose proof (se_pc s Is p) as H2. rewrite Hon in H2. rewrite E1 in H1.
  assert (wk (cpus s c) false = None ∧ after_ok (AResched y) (pct s p) = true) as [H3 H4] by (by destruct (wk (cpus s c) false)).
  assert (stt s p ≠ queued) as H5 by (intros E; rewrite E in H2; by destruct (pct s p) as [| | | | | |[]| | | | | | | | | | | | |]).
  assert (n ≠ p) as Hne by congruence.
  assert (on s n = false) as Hoff by (apply bool_decide_eq_false; by rewrite E2).
  rewrite Hoff in H1. repeat split; try done; [apply Is|]. apply irq_off; [done|]. by rewrite Hsc.
Qed.

Lemma placed_switched : placed s' L.
Proof using All.
  destruct switch_facts as (F1 & F2 & F3 & F4 & F5 & F6 & F7 & F8 & F9 & F10 & F11 & F12 & F13 & F14).
  destruct (i_placed _ _ I) as [P1 P2 P3 P4 P5 P6 P7].
  assert (∀ t, stt s' t = waking ↔ stt s t = waking) as Hw.
  { intros t. destruct (decide (t = p)) as [->|]; [intuition congruence|]. destruct (decide (t = n)) as [->|]; [intuition congruence|].
    by rewrite Hst. }
  split.
  - intros d u. rewrite Hcpu, Hcs. case_decide as Hd; cbn [rq set_rq set_cur set_sched].
    + subst d. rewrite Hq. pose proof (P1 c u) as H1. rewrite Hrq, elem_of_cons in H1.
      destruct (decide (u = p)) as [->|]; [intuition congruence|]. destruct (decide (u = n)) as [->|]; [intuition congruence|].
      rewrite Hst by done. intuition congruence.
    + rewrite P1. destruct (decide (u = p)) as [->|]; [intuition congruence|]. destruct (decide (u = n)) as [->|]; [intuition congruence|].
      by rewrite Hst.
  - intros d. rewrite Hcs. case_decide; [done|apply P2].
  - intros d i u. rewrite Hw, Hcpu, <- P3, Hcs. by case_decide; subst.
  - intros d i. rewrite Hcs. pose proof (P4 d i). by case_decide; subst.
  - intros d b u. rewrite Hw, (waker_at_same s), P5; [done|]. rewrite Hcs. by case_decide; subst.
  - intros d b w. rewrite Hcs, Hcpu. pose proof (P6 d b w). by case_decide; subst.
  - intros u. rewrite Hw. apply P7.
Qed.

Lemma on_switched t : on s' t = if decide (t = n) then true else if decide (t = p) then false else on s t.
Proof using All.
  destruct switch_facts as (F1 & F2 & F3 & F4 & F5 & F6 & F7 & F8 & _). unfold on. rewrite Hcpu, Hcs.
  destruct (decide (t = n)) as [->|H1]; [rewrite decide_True by done; by apply bool_decide_eq_true|].
  destruct (decide (t = p)) as [->|H2]; [rewrite decide_True by done; by apply bool_decide_eq_false|].
  case_decide as E; [|done]. cbn [cur set_sched set_cur]. rewrite E, !bool_decide_eq_false_2 by done. done.
Qed.

Lemma seated_switched : seated s'.
Proof using All.
  destruct switch_facts as (F1 & F2 & F3 & F4 & F5 & F6 & F7 & F8 & F9 & F10 & F11 & F12 & F13 & F14).
  pose proof (i_seated _ _ I) as Is. split.
  - intros d. rewrite Hcpu, Hcs. case_decide; subst; [done|apply Is].
  - intros d. rewrite Hcpu. apply Is.
  - intros t. rewrite on_switched, Hpc. destruct (decide (t = n)) as [->|]; [|destruct (decide (t = p)) as [->|]].
    + rewrite Hn. by destruct (pct s n) as [| | | | | |[]| | | | | | | | | | | | |].
    + destruct Hp as [[Ex ->]|[Ex ->]]; [rewrite Ex in F13|]; destruct (pct s p), y, (stt s p); done.
    + rewrite Hst by done. apply Is.
  - intros t. rewrite Hpc. apply Is.
  - intros d. rewrite Hcs. case_decide as Hd; cbn [sched wk cur set_sched set_cur set_rq].
    + rewrite Hpc, Hn, F10. by destruct (pct s n) as [| | | | | |[]| | | | | | | | | | | | |].
    + assert (current s d ≠ p) as H1 by (intros E; by apply Hd, (cur_inj s c d)).
      assert (current s d ≠ n) as H2 by (intros E; apply Hd; by rewrite <- (se_cur s Is d), E).
      rewrite Hpc, Hst by done. apply Is.
Qed.

(** What a CPU keeps, and its pcs off the CPU. *)
Lemma cpu_switched d :
  inc (cpus s' d) = inc (cpus s d) ∧ mask (cpus s' d) = mask (cpus s d) ∧ dying (cpus s' d) = dying (cpus s d) ∧
  idle_poll (cpus s' d) = idle_poll (cpus s d) ∧ ipi (cpus s' d) = ipi (cpus s d) ∧ irq (cpus s' d) = irq (cpus s d) ∧
  wk (cpus s' d) = wk (cpus s d) ∧ (d ≠ c → cpus s' d = cpus s d) ∧ (d = c → sched (cpus s' d) = Some STail ∧ current s' d = n).
Proof using Hcs. rewrite Hcs. by case_decide; subst. Qed.

Lemma next_pc : pct s n ≠ IHalt ∧ pct s n ≠ Exit2 ∧ pct s n ≠ Exit3.
Proof using I Hsc Hrq.
  destruct switch_facts as (_ & _ & _ & _ & _ & _ & _ & _ & _ & _ & _ & F12 & _). repeat split; intros E; by rewrite E in F12.
Qed.

Lemma flow_switched : flow s'.
Proof using All.
  eapply flow_frame; [apply I|..].
  - intros d i. by destruct (cpu_switched d) as (_ & -> & _).
  - intros d i t. by destruct (cpu_switched d) as (-> & _).
  - intros d i. left. by destruct (cpu_switched d) as (_ & -> & _).
  - intros d. destruct (decide (d = c)) as [->|Hd]; [right; by rewrite Hsc|left]. destruct (cpu_switched d) as (_&_&_&_&_&_&_& E &_). by rewrite E.
  - intros d b w _. by destruct (cpu_switched d) as (_&_&_&_&_&_& -> &_).
Qed.

Lemma awake_switched : awake s'.
Proof using All.
  destruct switch_facts as (F1 & F2 & F3 & F4 & F5 & F6 & F7 & F8 & F9 & F10 & F11 & _). eapply awake_upd; [apply I|..].
  - intros d. destruct (cpu_switched d) as (_&_&_&_&_& -> & -> &_). auto.
  - intros d. destruct (cpu_switched d) as (_&_&_& -> &_). rewrite Hpc. auto.
  - intros d. destruct (cpu_switched d) as (_&_&_&_&_& -> & _ & E1 & E2). destruct (decide (d = c)) as [->|Hd].
    + right. destruct (E2 eq_refl) as [-> ->]. rewrite Hpc. split; [congruence|apply next_pc].
    + left. rewrite E1 by done. by rewrite Hpc.
Qed.

Lemma noticed_switched : noticed s'.
Proof using All.
  eapply noticed_upd; [apply I|..].
  - intros d b w _. by destruct (cpu_switched d) as (_&_&_&_&_&_& -> &_).
  - intros d. destruct (cpu_switched d) as (_&_&_&_&_& _ & _ & E1 & E2). destruct (decide (d = c)) as [->|Hd].
    + right. by destruct (E2 eq_refl) as [-> ->].
    + left. rewrite E1 by done. by rewrite Hpc.
Qed.

Lemma conds_switched : conds s'.
Proof using All.
  eapply conds_frame; [apply I|..].
  - intros t. destruct (decide (t = p)) as [->|]; [|destruct (decide (t = n)) as [->|]; [|left; by apply Hst]].
    + destruct Hp as [[_ ->]|[_ ->]]; [right; split; [by left|done]|by left].
    + right. rewrite Hn. split; [by left|done].
  - intros t. by left.
  - intros t. by left.
  - intros t u. by rewrite Hj.
  - intros d b w _. by destruct (cpu_switched d) as (_&_&_&_&_&_& -> &_).
Qed.

Lemma term_switched : term s'.
Proof using All.
  destruct switch_facts as (F1 & F2 & F3 & F4 & F5 & F6 & F7 & F8 & F9 & F10 & F11 & F12 & F13 & F14). destruct next_pc as (N1 & N2 & N3).
  eapply term_frame; [apply I|..].
  - intros d. by destruct (cpu_switched d) as (_&_& -> &_).
  - intros t. by left.
  - intros t u. by rewrite Hj.
  - intros t. rewrite Hpc. destruct (decide (t = p)) as [->|]; [|destruct (decide (t = n)) as [->|]; [by right|left; by rewrite Hst]].
    destruct Hp as [[E ->]|[_ ->]]; [|by left]. right. rewrite E in F13. split; intros E'; by rewrite E' in F13.
  - intros d. destruct (cpu_switched d) as (_&_&_&_&_&_&_& E1 & E2). destruct (decide (d = c)) as [->|Hd].
    + destruct (E2 eq_refl) as [_ ->]. by rewrite Hpc.
    + rewrite E1, Hpc by done. auto.
  - intros d _. destruct (cpu_switched d) as (_&_&_&_&_&_&_& E1 & E2). destruct (decide (d = c)) as [->|Hd]; [right; by apply E2|].
    by rewrite E1.
  - intros z Hz. destruct (cpu_switched (cput s z)) as (_&_&_&_&_&_&_& E1 & E2). destruct (decide (cput s z = c)) as [E|Hd].
    + destruct (E2 E) as [_ ->]. congruence.
    + by rewrite E1.
  - intros d b w z _ _. by destruct (cpu_switched d) as (_&_&_&_&_&_& -> &_).
Qed.

Lemma order_switched : order s'.
Proof using All.
  destruct switch_facts as (F1 & F2 & F3 & F4 & F5 & F6 & F7 & F8 & F9 & F10 & F11 & F12 & F13 & F14). parts I. split.
  - intros d. rewrite Hcs. case_decide as Hd; [done|]. apply (sorted_ext s); [|apply Io]. intros t [Ht1 Ht2]%(p_rq _ _ Ip).
    split; [done|]. apply Hrt; congruence.
  - intros t. rewrite Hprio. apply Io.
  - intros d. rewrite Hprio. apply Io.
Qed.

Lemma cnt_switched : cnt s'.
Proof using All.
  destruct (i_cnt _ _ I) as [C1 C2 C3].
  assert (∀ t u a, has s t a → has s u a → t = u) as Hone.
  { intros t u a [b Hb]%has_locks [b' Hb']%has_locks. eauto. }
  split.
  - intros t a b Ht. assert (has s t a) as Ha by (apply Hhas, has_locks; eauto). rewrite Hk, on_switched.
    destruct (decide (has s n a)) as [Hna|Hna].
    + rewrite (decide_True (P := t = n)); [done|]. eauto.
    + rewrite (decide_False (P := t = n)) by (by intros ->). destruct (decide (has s p a)) as [Hpa|Hpa].
      * rewrite (decide_True (P := t = p)); [done|]. eauto.
      * rewrite (decide_False (P := t = p)) by (by intros ->). apply has_locks in Ha as [b' Hb']. eauto.
  - intros t u a b b' Ht Hu. apply (Hone t u a); apply Hhas, has_locks; eauto.
  - intros a Ha. assert (∀ t, ¬ has s t a) as Hno.
    { intros t Ht. apply Hhas, has_locks in Ht as [b Hb]. by apply (Ha t b). }
    rewrite Hk, !decide_False by auto. apply C3. intros t b Hb. apply (Hno t), has_locks. eauto.
Qed.

Lemma backs_switched : backs s'.
Proof using All.
  destruct switch_facts as (F1 & _). eapply backs_frame; [apply I| |by left|by left|..].
  - intros t. destruct (decide (t = p)) as [->|]; [|destruct (decide (t = n)) as [->|]; [|left; by apply Hst]].
    + destruct Hp as [[-> ->]|[_ ->]]; [by right|by left].
    + right. by rewrite Hn, F1.
  - intros d b w _. by destruct (cpu_switched d) as (_&_&_&_&_&_& -> &_).
  - intros d b w. destruct (cpu_switched d) as (_&_&_&_&_&_& -> &_). auto.
Qed.

Lemma inv_switched : inv s' L.
Proof using All.
  split; [apply placed_switched|apply seated_switched|apply flow_switched|apply awake_switched|apply noticed_switched
         |apply conds_switched|apply term_switched|apply order_switched|apply cnt_switched|apply backs_switched|done].
Qed.

End switched.

(** ** [switch] *)

(** In [s3] the queue and the counters are as they are behind the switch from the
    current thread of [c] in [s] to [n]. *)
Record ready (s s3 : state) (c : nat) (n : tid) (l q : list tid) : Prop := Ready {
  rd_pc t : pct s3 t = pct s t;
  rd_cpu t : cput s3 t = cput s t;
  rd_prio t : prio (thr s3 t) = prio (thr s t);
  rd_joiner t : joiner (thr s3 t) = joiner (thr s t);
  rd_cond t : cond (thr s3 t) = cond (thr s t);
  rd_other t : t ≠ current s c → stt s3 t = stt s t ∧ rt (thr s3 t) = rt (thr s t);
  rd_p : stt s (current s c) = running ∧ stt s3 (current s c) = queued ∨
         stt s (current s c) ≠ running ∧ stt s3 (current s c) = stt s (current s c);
  rd_cpus d : cpus s3 d = if decide (d = c) then set_rq q (cpus s c) else cpus s d;
  rd_q u : u ∈ q ↔ u ∈ l ∨ stt s (current s c) = running ∧ u = current s c;
  rd_nodup : NoDup q;
  rd_sorted : sorted s3 q;
  rd_has t a : has s3 t a ↔ has s t a;
  rd_counters a : counters s3 a = if decide (has s n a) then 0 else if decide (has s (current s c) a) then 1 else counters s a;
  rd_ok : aborted s3 = false;
}.

(** The next thread runs. *)
Definition run_next (c : nat) (n : tid) (v : Z) (s3 : state) : state :=
  upc c (λ k, set_sched (Some STail) (set_cur n k)) (upt n (λ t, set_rt v (set_st running t)) s3).

Lemma inv_run_next s s3 L c y n l q v :
  inv s L → sched (cpus s c) = Some (SPick y) → rq (cpus s c) = n :: l → ready s s3 c n l q → inv (run_next c n v s3) L.
Proof.
  intros I Hsc Hrq [H1 H2 H3 H4 H5 H6 H7 H8 H9 H10 H11 H12 H13 H14]. unfold run_next.
  destruct (switch_facts s L c y n l I Hsc Hrq) as (F1 & F2 & F3 & F4 & F5 & F6 & _).
  apply (inv_switched s _ L c y n l q); try done.
  - intros t. rewrite <- H1. by ev.
  - intros t. rewrite <- H2. by ev.
  - intros t. rewrite <- H3. by ev.
  - intros t. rewrite <- H4. by ev.
  - intros t. rewrite <- H5. by ev.
  - intros t Ht1 Ht2. rewrite <- (proj2 (H6 t Ht1)). by ev.
  - intros t Ht1 Ht2. rewrite <- (proj1 (H6 t Ht1)). by ev.
  - by ev.
  - cbn [thr upc upt]. by rewrite fn_lookup_insert_ne.
  - intros d. cbn [cpus upc upt]. rewrite fn_insert_if, !H8, (decide_True (P := c = c)) by done. by case_decide.
  - apply (sorted_ext s3); [|done]. intros t Ht. assert (t ≠ n) by (intros ->; apply H9 in Ht as [?|[_ ?]]; done). by ev.
  - intros t a. rewrite <- H12. unfold has. by ev.
Qed.

Section switching.
Context (s S : state) (L : tid → spot) (c : nat) (y : bool) (n : tid) (l l' : list tid) (I : inv s L).
Context (Hsc : sched (cpus s c) = Some (SPick y)) (Hrq : rq (cpus s c) = n :: l).

Notation p := (current s c).

(** [S] is the state once [p] has been put back, or not. *)
Context (Hpc : ∀ t, pct S t = pct s t) (Hcpu : ∀ t, cput S t = cput s t) (Hprio : ∀ t, prio (thr S t) = prio (thr s t)).
Context (Hj : ∀ t, joiner (thr S t) = joiner (thr s t)) (Hcond : ∀ t, cond (thr S t) = cond (thr s t)).
Context (Hlocks : ∀ t, locks (thr S t) = locks (thr s t)).
Context (Hoth : ∀ t, t ≠ p → stt S t = stt s t ∧ rt (thr S t) = rt (thr s t)).
Context (Hp : stt s p = running ∧ stt S p = queued ∨ stt s p ≠ running ∧ stt S p = stt s p).
Context (Hy : y = true → stt s p = running).
Context (Hcs : ∀ d, cpus S d = if decide (d = c) then set_rq (n :: l') (cpus s c) else cpus s d).
Context (Hk : counters S = counters s) (Hab : aborted S = false).
Context (Hl : ∀ u, u ∈ l' ↔ u ∈ l ∨ y = false ∧ stt s p = running ∧ u = p) (Hln : NoDup l') (Hls : sorted S l').

Lemma counted_switch :
  let s' := count_in n (count_out p (upc c (set_rq l') S)) in
  same_threads S s' ∧ (∀ d, cpus s' d = if decide (d = c) then set_rq l' (cpus s c) else cpus s d) ∧ aborted s' = false ∧
  ∀ a, counters s' a = if decide (has s n a) then 0 else if decide (has s p a) then 1 else counters s a.
Proof using All.
  destruct (switch_facts s L c y n l I Hsc Hrq) as (F1 & F2 & F3 & F4 & F5 & _).
  assert (∀ t a, has S t a ↔ has s t a) as Hh by (intros t a; unfold has; by rewrite Hlocks).
  pose proof (i_cnt _ _ I) as [C1 _ _].
  destruct (counted p n (upc c (set_rq l') S)) as (K1 & K2 & K3 & K4); [done|..].
  { intros a [b Hb]%Hh%has_locks. cbn [counters upc]. rewrite Hk. apply C1 in Hb. by rewrite F4 in Hb. }
  { intros a [b Hb]%Hh%has_locks. cbn [counters upc]. rewrite Hk. apply C1 in Hb. by rewrite F3 in Hb. }
  cbv zeta. split; [|split; [|split]].
  - destruct K1. by split.
  - intros d. rewrite K2. cbn [cpus upc]. rewrite fn_insert_if, !Hcs. by repeat case_decide; subst.
  - by rewrite K3.
  - intros a. rewrite K4. cbn [counters upc]. rewrite Hk. pose proof (Hh n a). pose proof (Hh p a).
    change (has (upc c (set_rq l') S)) with (has S). repeat case_decide; tauto || done.
Qed.

Lemma switch_form r : ∃ s3 q, switch c y r p S = run_next c n (run_start r) s3 ∧ ready s s3 c n l q.
Proof using All.
  destruct (switch_facts s L c y n l I Hsc Hrq) as (F1 & F2 & F3 & F4 & F5 & F6 & _).
  unfold switch. rewrite Hcs, decide_True by done. cbn [rq set_rq]. cbv zeta.
  rewrite decide_True by (cbn [thr upc]; rewrite (proj1 (Hoth n F5)); done). rewrite (decide_False (P := n = p)) by done.
  destruct counted_switch as (K1 & K2 & K3 & K4). set (s2 := count_in _ _) in *. clearbody s2.
  set (q := if y then insert_equal s2 p l' else l'). set (s3 := if y then _ else _).
  assert (thr s3 = thr s2 ∧ counters s3 = counters s2 ∧ aborted s3 = aborted s2) as (E1 & E2 & E3) by (unfold s3; by destruct y).
  assert (∀ d, cpus s3 d = if decide (d = c) then set_rq q (cpus s c) else cpus s d) as E4.
  { intros d. unfold s3, q. destruct y; [|apply K2]. unfold enqueue. cbn [cpus upc]. rewrite fn_insert_if, !K2.
    rewrite (decide_True (P := c = c)) by done. by repeat case_decide; subst. }
  clearbody s3. destruct K1 as [M1 M2 M3 M4 M5 M6 M7 M8].
  assert (∀ u, u ∈ q ↔ u ∈ l ∨ stt s p = running ∧ u = p) as Hq.
  { intros u. unfold q. destruct y; [rewrite insert_equal_elem|]; rewrite Hl; intuition congruence. }
  assert (p ∉ l ∧ (y = true → p ∉ l')) as [Hpl Hpl'].
  { destruct (switch_facts s L c y n l I Hsc Hrq) as (_&_&_&_&_&_&_&_&_&_&_&_&_& F). assert (p ∉ l) as H.
    - intros Hin. apply F. apply (p_rq _ _ (i_placed _ _ I) c). rewrite Hrq. by right.
    - split; [done|]. intros ->. rewrite Hl. intros [?|[? _]]; done. }
  assert (n ∉ q) as Hnq by (rewrite Hq; intros [?|[_ ?]]; done).
  assert (NoDup q) as Hqn by (unfold q; destruct y; [apply insert_equal_nodup; auto|done]).
  assert (sorted s2 l') as Hls2 by (apply (sorted_ext S); [intros; by rewrite M4, M5|done]).
  assert (sorted s2 q) as Hqs.
  { unfold q. destruct y; [|done]. apply insert_equal_sorted; [|done]. intros t. rewrite M4, Hprio. apply I. }
  exists s3, q. split; [done|]. clearbody q. split; try done; try (intros t; rewrite E1; congruence).
  - intros t Ht. destruct (Hoth t Ht). rewrite E1. split; congruence.
  - rewrite E1, M1. done.
  - apply (sorted_ext s2); [intros; by rewrite E1|done].
  - unfold has in *. intros t a. rewrite E1, M8, Hlocks. done.
  - intros a. by rewrite E2.
  - by rewrite E3.
Qed.

End switching.

(** ** [reschedule_from_interrupt] behind the incoming wakeups *)

Section picking.
Context (s : state) (L : tid → spot) (c : nat) (y : bool) (I : inv s L).
Context (Hsc : sched (cpus s c) = Some (SPick y)).

Notation p := (current s c).

Lemma pick_facts :
  stt s p ≠ queued ∧ (∀ d, p ∉ rq (cpus s d)) ∧ after_ok (AResched y) (pct s p) = true ∧ wk (cpus s c) false = None ∧
  irq (cpus s c) = false ∧ pc_ok true (stt s p) (pct s p) = true ∧ (y = true → stt s p = running).
Proof using All.
  parts I. pose proof (on_cur s c Is) as Hon. pose proof (se_stage s Is c) as Hg. rewrite Hsc in Hg.
  pose proof (se_pc s Is p) as H2. rewrite Hon in H2.
  assert (wk (cpus s c) false = None ∧ after_ok (AResched y) (pct s p) = true) as [H3 H4] by (by destruct (wk (cpus s c) false)).
  assert (stt s p ≠ queued) as H5 by (intros E; rewrite E in H2; by destruct (pct s p) as [| | | | | |[]| | | | | | | | | | | | |]).
  repeat split; try done.
  - intros d Hd. by apply (p_rq _ _ Ip) in Hd as [? _].
  - apply irq_off; [done|]. by rewrite Hsc.
  - intros ->. destruct (pct s p); try done. by destruct (stt s p).
Qed.

Lemma inv_stay v : stt s p = running → inv (upc c (set_sched None) (upt p (set_rt v) s)) L.
Proof using All.
  intros Hx. destruct pick_facts as (H1 & H2 & H3 & H4 & Hirq & H6 & _). pose proof I as I'. parts I'. rewrite Hx in H6.
  assert (stage_ok None None (pct s p) running = true ∧ may_halt None (pct s p) = false ∧ pct s p ≠ IHalt) as (S1 & S2 & S3).
  { destruct (pct s p), y; done. }
  frames. destruct Io as [O1 O2 O3]. split.
  - intros d. apply (sorted_ext s); [|pose proof (O1 d); by ev]. intros t Ht. assert (t ≠ p) by (intros ->; apply (H2 d); by ev). by ev.
  - intros t. pose proof (O2 t). by ev.
  - intros d. pose proof (O3 d). by ev.
Qed.

(** Someone is always ready: the idle thread. *)
Lemma rq_some : stt s p ≠ running → ∃ n l, rq (cpus s c) = n :: l.
Proof using All.
  intros Hx. parts I. assert (Idle c ∈ rq (cpus s c)) as Hin.
  { apply (p_rq _ _ Ip). split; [|apply Is]. pose proof (se_pc s Is (Idle c)) as Hpc. pose proof (se_kind s Is (Idle c)) as Hk. cbn in Hk.
    destruct (on s (Idle c)) eqn:Hon; [|by destruct (pct s (Idle c)), (stt s (Idle c))].
    apply bool_decide_eq_true in Hon. rewrite (se_idle s Is) in Hon. exfalso. apply Hx. rewrite Hon.
    by destruct (pct s (Idle c)), (stt s (Idle c)). }
  destruct (rq (cpus s c)) as [|n l]; [by apply elem_of_nil in Hin|]. eauto.
Qed.

(** The first thread comes before the one that is put back. *)
Lemma first_less r t l S :
  rq (cpus s c) = t :: l → ran_for r < run_stop r → goes_on (upt p (set_rt (ran_for r)) s) false p t = false →
  thr S = thr (upt p (λ x, set_st queued (set_rt (run_stop r) x)) (upt p (set_rt (ran_for r)) s)) →
  less S t p = true.
Proof using All.
  intros Hrq Hr Hg HS. destruct pick_facts as (_ & H2 & _). parts I.
  assert (t ∈ rq (cpus s c)) as Hin by (rewrite Hrq; by left). assert (t ≠ p) as Hne by (intros ->; by apply (H2 c)).
  apply (p_rq _ _ Ip) in Hin as [_ Ht]. pose proof (or_prio s Io t) as Pt. pose proof (or_prio s Io p) as Pp.
  assert (prio (thr S t) = prio (thr s t) ∧ prio (thr S p) = prio (thr s p) ∧ rt (thr S t) = rt (thr s t) ∧ rt (thr S p) = run_stop r)
    as (E1 & E2 & E3 & E4) by (rewrite HS; clear Hg; by ev).
  apply less_spec; [lia..|]. rewrite E1, E2. unfold goes_on in Hg.
  assert (prio (thr (upt p (set_rt (ran_for r)) s) t) = prio (thr s t) ∧ prio (thr (upt p (set_rt (ran_for r)) s) p) = prio (thr s p) ∧
          rt (thr (upt p (set_rt (ran_for r)) s) t) = rt (thr s t) ∧ rt (thr (upt p (set_rt (ran_for r)) s) p) = ran_for r)
    as (G1 & G2 & G3 & G4) by (clear Hg HS E1 E2 E3 E4; by ev).
  rewrite G1, G2 in Hg. destruct (Z.ltb_spec 0 (prio (thr s p))) as [Hp|Hp]; [apply Z.leb_gt in Hg; lia|].
  destruct (Z.eqb_spec (prio (thr s t)) 0) as [H0|H0]; [|lia]. right. repeat split; [lia..|]. cbn [andb] in Hg.
  unfold rt_less in *. pose proof (se_cur s Is c) as Hc. pose proof (se_idle s Is) as Hid. rewrite ?E3, ?E4, ?G3, ?G4 in *.
  destruct t as [d|d|t'] eqn:Et, p as [d'|d'|p'] eqn:Ep; try done; try (rewrite Hid in *; congruence);
    apply Z.ltb_lt; apply Z.ltb_ge in Hg; lia.
Qed.

(** [p] leaves the CPU and is not put back before the switch. *)
Lemma leave_form r S n l :
  rq (cpus s c) = n :: l → y = true ∧ stt s p = running ∨ stt s p ≠ running →
  S = upt p (if decide (stt s p = running) then λ t, set_st queued (set_rt (run_stop r) t) else set_rt (run_stop r))
        (upt p (set_rt (ran_for r)) s) →
  ∃ s3 q, switch c y r p S = run_next c n (run_start r) s3 ∧ ready s s3 c n l q.
Proof using All.
  intros Hrq Hy ->. destruct pick_facts as (H1 & H2 & H3 & H4 & Hirq & H6 & H7). pose proof I as I'. parts I'.
  apply (switch_form s _ L c y n l l); try done; try (intros t; case_decide; by ev).
  - case_decide as Hd; [left|right]; (split; [done|]); by ev.
  - intros d. cbn [cpus upt]. rewrite <- Hrq. case_decide; subst; [by destruct (cpus s c)|done].
  - intros u. intuition congruence.
  - pose proof (p_rq_nodup _ _ Ip c) as Hn. rewrite Hrq in Hn. by apply NoDup_cons in Hn as [_ ?].
  - apply (sorted_ext s).
    + intros t Ht. assert (t ≠ p) by (intros ->; apply (H2 c); rewrite Hrq; by right). case_decide; by ev.
    + pose proof (or_rq s Io c) as Ho. rewrite Hrq in Ho. by apply StronglySorted_inv in Ho as [? _].
Qed.

(** [p] is preempted and put back before its equals. *)
Lemma preempted_form r n l :
  rq (cpus s c) = n :: l → y = false → stt s p = running → ran_for r < run_stop r →
  goes_on (upt p (set_rt (ran_for r)) s) false p n = false →
  ∃ s3 q, switch c y r p (enqueue_first_equal c p
            (upt p (λ t, set_st queued (set_rt (run_stop r) t)) (upt p (set_rt (ran_for r)) s))) = run_next c n (run_start r) s3 ∧
          ready s s3 c n l q.
Proof using All.
  intros Hrq Hy Hx Hr Hg. destruct pick_facts as (H1 & H2 & H3 & H4 & Hirq & H6 & H7). pose proof I as I'. parts I'.
  set (S := upt p (λ t, set_st queued (set_rt (run_stop r) t)) (upt p (set_rt (ran_for r)) s)).
  assert (∀ t, t ∈ l → t ≠ p) as Hpl by (intros t Ht ->; apply (H2 c); rewrite Hrq; by right).
  assert (sorted S l) as Hs.
  { apply (sorted_ext s); [intros t Ht; specialize (Hpl t Ht); unfold S; by ev|].
    pose proof (or_rq s Io c) as Ho. rewrite Hrq in Ho. by apply StronglySorted_inv in Ho as [? _]. }
  apply (switch_form s _ L c y n l (insert_first S p l)); try done; try (intros t; unfold S, enqueue_first_equal; by ev).
  - left. split; [done|]. unfold S, enqueue_first_equal. by ev.
  - intros d. unfold enqueue_first_equal. cbn [cpus upc]. rewrite fn_insert_if. change (cpus S) with (cpus s). rewrite Hrq. cbn [insert_first].
    rewrite (first_less r n l S Hrq Hr Hg eq_refl). done.
  - intros u. rewrite insert_first_elem. intuition congruence.
  - apply insert_first_nodup; [by intros ?%Hpl|]. pose proof (p_rq_nodup _ _ Ip c) as Hn. rewrite Hrq in Hn. by apply NoDup_cons in Hn as [_ ?].
  - apply (insert_first_sorted S); [|done]. intros t. pose proof (or_prio s Io t). unfold S. by ev.
Qed.

End picking.

(** The current thread stays, or the first one of the queue runs. *)
Lemma pick_form s L c y r :
  inv s L → sched (cpus s c) = Some (SPick y) → ran_for r < run_stop r →
  let p := current s c in
  let s1 := upt p (set_rt (ran_for r)) s in
  stt s p = running ∧ pick c y r s = upc c (set_sched None) s1 ∧
    (∀ n l, rq (cpus s c) = n :: l → goes_on s1 y p n = true) ∨
  ∃ n l s3 q, rq (cpus s c) = n :: l ∧ pick c y r s = run_next c n (run_start r) s3 ∧ ready s s3 c n l q ∧
    (stt s p = running → goes_on s1 y p n = false).
Proof.
  intros I Hsc Hr p s1. destruct (pick_facts s L c y I Hsc) as (H1 & _). unfold pick. fold p. rewrite decide_False by done.
  cbv zeta. fold s1. assert (stt s1 p = stt s p) as E by (unfold s1; by ev). rewrite E. change (cpus s1) with (cpus s). clear E.
  destruct (decide (stt s p = running)) as [Hx|Hx].
  - destruct (rq (cpus s c)) as [|n l] eqn:Hrq; [by left|].
    destruct (goes_on s1 y p n) eqn:Hg; [left; split; [done|]; split; [done|]; congruence|]. right. destruct y.
    + destruct (leave_form s L c true I Hsc r (upt p (λ t, set_st queued (set_rt (run_stop r) t)) s1) n l) as (s3 & q & E & Hrd);
        [done|by left|by rewrite decide_True|]. exists n, l, s3, q. done.
    + destruct (preempted_form s L c false I Hsc r n l) as (s3 & q & E & Hrd); try done. exists n, l, s3, q. done.
  - right. destruct (rq_some s L c y I Hsc Hx) as (n & l & Hrq).
    destruct (leave_form s L c y I Hsc r (upt p (set_rt (run_stop r)) s1) n l) as (s3 & q & E & Hrd); [done|by right|by rewrite decide_False|].
    exists n, l, s3, q. done.
Qed.

Lemma inv_picked s L c y r : inv s L → sched (cpus s c) = Some (SPick y) → ran_for r < run_stop r → inv (pick c y r s) L.
Proof.
  intros I Hsc Hr. destruct (pick_form s L c y r I Hsc Hr) as [(Hx & -> & _)|(n & l & s3 & q & Hrq & -> & Hrd & _)].
  - by apply (inv_stay s L c y).
  - by apply (inv_run_next s s3 L c y n l q).
Qed.

(** Behind it, nobody in the queue has a higher priority than the current thread. *)
Lemma pick_best s L c y r :
  inv s L → sched (cpus s c) = Some (SPick y) → ran_for r < run_stop r →
  let s' := pick c y r s in
  (∀ u, u = current s' c ∨ u ∈ rq (cpus s' c) ↔ u ∈ rq (cpus s c) ∨ u = current s c ∧ stt s (current s c) = running) ∧
  stt s' (current s' c) = running ∧ ∀ u, u ∈ rq (cpus s' c) → prio (thr s' u) ≤ prio (thr s' (current s' c)).
Proof.
  intros I Hsc Hr s'. assert (∀ n l u, rq (cpus s c) = n :: l → u ∈ l → prio (thr s u) ≤ prio (thr s n)) as Hfirst.
  { intros n l u Hrq Hu. pose proof (or_rq s (i_order _ _ I) c) as Ho. rewrite Hrq in Ho. apply StronglySorted_inv in Ho as [_ Hf].
    pose proof (proj1 (Forall_forall _ _) Hf u Hu) as Hl. cbn in Hl. unfold less in Hl.
    destruct (Z.ltb_spec (prio (thr s n)) (prio (thr s u))); [done|lia]. }
  pose proof (or_prio s (i_order _ _ I)) as Hpos. set (p := current s c) in *. set (s1 := upt p (set_rt (ran_for r)) s).
  assert (∀ t, prio (thr s1 t) = prio (thr s t)) as E1 by (intros t; unfold s1; by ev).
  destruct (pick_form s L c y r I Hsc Hr) as [(Hx & E & Hg)|(n & l & s3 & q & Hrq & E & Hrd & Hg)]; fold p s1 in E, Hg; unfold s'; rewrite E; clear s' E.
  - assert (cpus (upc c (set_sched None) s1) c = set_sched None (cpus s c)) as -> by (clear; unfold s1; by ev). cbn [cur rq set_sched]. fold p.
    split; [intros u; intuition congruence|]. split; [unfold s1; by ev|]. intros u Hu. cbn [thr upc]. rewrite !E1.
    destruct (rq (cpus s c)) as [|n l] eqn:Hrq; [by apply elem_of_nil in Hu|]. specialize (Hg n l eq_refl). unfold goes_on in Hg. rewrite !E1 in Hg.
    assert (prio (thr s u) ≤ prio (thr s n)) as Hun by (apply elem_of_cons in Hu as [-> |Hu]; [lia|eauto]).
    pose proof (Hpos p). destruct y; [lia|]. destruct (Z.ltb_spec 0 (prio (thr s p))); lia.
  - destruct Hrd as [_ _ R3 _ _ _ R7 R8 R9 _ _ _ _ _]. fold p in R7, R8, R9.
    assert (cpus (run_next c n (run_start r) s3) c = set_sched (Some STail) (set_cur n (set_rq q (cpus s c)))) as ->.
    { unfold run_next. cbn [cpus upc upt]. rewrite fn_lookup_insert, R8, decide_True by done. done. }
    cbn [cur rq set_sched set_cur set_rq]. rewrite Hrq.
    assert (∀ t, prio (thr (run_next c n (run_start r) s3) t) = prio (thr s t)) as E2 by (intros t; rewrite <- R3; unfold run_next; by ev).
    split; [intros u; rewrite R9, elem_of_cons; intuition congruence|]. split; [unfold run_next; by ev|]. intros u [Hu|[Hx ->]]%R9; rewrite !E2; [eauto|].
    specialize (Hg Hx). unfold goes_on in Hg. rewrite !E1 in Hg. pose proof (Hpos p). pose proof (Hpos n). destruct y; [lia|].
    destruct (Z.ltb_spec 0 (prio (thr s p))); lia.
Qed.

End SchedSwitch.
