(* ===== verification/SchedCall.v ===== *)
(** * The scheduler: calls and interrupts keep the invariant *)
From S2P Require Import Prelude Sched SchedInv SchedWake SchedRun SchedPick SchedSwitch.

Module SchedCall.
Import Sched SchedInv SchedWake SchedRun SchedPick SchedSwitch.

(** A thread that is not queued gets another priority. *)
Lemma order_one s u v s' :
  order s → 0 ≤ v → (∀ d, u ∉ rq (cpus s d)) →
  is_idle u = false → (∀ t, rt (thr s' t) = rt (thr s t)) → (∀ d, rq (cpus s' d) = rq (cpus s d)) →
  (∀ t, prio (thr s' t) = if decide (t = u) then v else prio (thr s t)) → order s'.
Proof.
  intros [O1 O2 O3] Hv Hu Hi Hrt Hrq Hp. split.
  - intros d. rewrite Hrq. apply (sorted_ext s); [|apply O1]. intros t Ht. assert (t ≠ u) as Hne by (intros ->; by apply (Hu d)).
    by rewrite Hp, decide_False.
  - intros t. rewrite Hp. case_decide; auto.
  - intros d. rewrite Hp, decide_False; [done|]. by intros <-.
Qed.

(** A new waker, where there was none. *)
Lemma backs_waker s s' c b w :
  backs s → wk (cpus s c) b = None → wk (cpus s' c) b = Some w → stg w ≠ WBack → (loud w = true → ¬ handing s (tgt w)) →
  (∀ c' b', (c', b') ≠ (c, b) → wk (cpus s' c') b' = wk (cpus s c') b') →
  (∀ t, stt s' t = stt s t ∨ stt s t ≠ sending_lock ∧ (stt s' t ≠ sending_lock ∨ sleeps (pct s t) ≠ None)) →
  (∀ t, pct s' t = pct s t) → (∀ t, cond (thr s' t) = cond (thr s t) ∨ ¬ handing s t) → backs s'.
Proof.
  intros [B1 B2 B3 B4] Hno Hw Hsw Hl Hwk Hst Hpc Hco.
  assert (∀ c' b' y, wk (cpus s' c') b' = Some y → stg y = WBack → wk (cpus s c') b' = Some y) as Ho.
  { intros c' b' y Hy Hs. destruct (decide ((c', b') = (c, b))) as [[= -> ->]|]; [simplify_eq; congruence|by rewrite <- Hwk]. }
  split.
  - intros c' b' y Hy Hs. apply Ho in Hy; [|done]. destruct (B1 c' b' y Hy Hs) as (E1 & E2 & E3). rewrite Hpc.
    destruct (Hst (tgt y)) as [->|[? _]]; [|done]. destruct (Hco (tgt y)) as [->|Hn]; [done|]. destruct Hn. by exists c', b', y.
  - intros c1 b1 w1 c2 b2 w2 H1 S1 H2 S2. apply (B2 c1 b1 w1 c2 b2 w2); auto.
  - intros c1 b1 w1 c2 b2 w2 H1 S1 H2 E. apply Ho in H1; [|done]. destruct (decide ((c2, b2) = (c, b))) as [[= -> ->]|].
    + rewrite Hw in H2. injection H2 as <-. destruct (loud w); [|done]. destruct (Hl eq_refl). rewrite E. by exists c1, b1, w1.
    + rewrite Hwk in H2 by done. by apply (B3 c1 b1 w1 c2 b2 w2).
  - intros t k Hx Hp. rewrite Hpc in Hp. destruct (Hst t) as [E|[_ [?|Hs]]]; [|done|by rewrite Hp in Hs].
    eapply handing_kept; [|apply (B4 t k); congruence]. intros c' b' y Hs Hy. rewrite Hwk; [done|]. congruence.
Qed.

Lemma loud_new t f m : loud (new_waker t f m) = f || m.
Proof. by destruct f, m. Qed.

(** ** Calls *)

Section calls.
Context (s : state) (L : tid → spot) (c : nat) (I : inv s L).
Context (Hirq : irq (cpus s c) = false) (Hsc : sched (cpus s c) = None) (Hwk : wk (cpus s c) false = None).

Notation me := (current s c).

Lemma inv_new_waker t f m :
  may_wake s t f m → pct s me = Go ∨ (∃ k, pct s me = Block k) → inv (upc c (set_wk false (Some (new_waker t f m))) s) L.
Proof using All.
  intros Hm Hp. pose proof I as I'. parts I'.
  assert (stage_ok None (Some (new_waker t f m)) (pct s me) (stt s me) = true) as Hg by (by destruct Hp as [-> | [? ->]]).
  assert (backs (upc c (set_wk false (Some (new_waker t f m))) s)).
  { eapply backs_waker; [done|done|apply wk_upc|by destruct f|by rewrite loud_new|intros; ev; congruence|intros; left; by ev|intros; by ev|intros; left; by ev]. }
  destruct f; frames.
Qed.

Section go.
Context (Hp : pct s me = Go).

Lemma go_facts : stt s me = running ∧ on s me = true ∧ is_idle me = false ∧ (∀ d, Idle d ≠ me) ∧ ∀ d, current s d = me → d = c.
Proof using All.
  destruct (own_facts s L c I Hirq Hsc Hwk) as (Hon & Hpc & Hst & Hk & Hinj). rewrite Hp in *.
  repeat split; try done; [by destruct (stt s me)|by apply not_idle].
Qed.

Lemma inv_call_wait : inv (goto me (Loop Flag) s) L.
Proof using All. destruct go_facts as (Hx & Hon & Hk & Hni & Hinj). pose proof I as I'. parts I'. frames. Qed.

Lemma inv_call_exit : inv (goto me Exit1 (upt me (set_st terminating) s)) L.
Proof using All. destruct go_facts as (Hx & Hon & Hk & Hni & Hinj). pose proof I as I'. parts I'. frames. Qed.

Lemma inv_call_join z :
  z ≠ me → joiner (thr s z) = None → inv (goto me (Loop (Join z)) (upt z (set_joiner (Some me)) s)) L.
Proof using All.
  intros Hz Hj. destruct go_facts as (Hx & Hon & Hk & Hni & Hinj). pose proof I as I'. parts I'. frames.
  destruct Ic as [C1 C2 C3]. split.
  - intros t k Hs Hw Hh. assert (t ≠ me) as Ht by (intros ->; by ev). apply (C1 t k); [by ev..|].
    destruct k; cbn [holds] in *; [clear Hs Hw; by ev|]. apply bool_decide_eq_true in Hh. apply bool_decide_eq_true. clear Hs Hw. by ev.
  - intros t Hn Hw. apply C2; by ev.
  - intros t z' Hz'. destruct (decide (t = me)) as [->|Ht].
    + assert (z' = z) as -> by (revert Hz'; evc; rewrite fn_lookup_insert; evc; cbn [joins]; congruence). clear Hz'. by ev.
    + destruct (C3 t z') as [E1 E2]; [by ev|]. split; [|done]. assert (z' ≠ z) by congruence. clear Hz'. by ev.
Qed.

Lemma seated_wake_lock u x w :
  stt s u = waiting → lockable (pct s u) = true → x = sending_lock →
  seated (upc c (set_wk false (Some w)) (upt u (set_st x) s)).
Proof using All.
  intros Hw Hu ->. destruct go_facts as (Hx & Hon & Hk & Hni & Hinj). pose proof I as I'. parts I'.
  eapply seated_upd; [done|same|same| |].
  - intros t. destruct (decide (t = u)) as [->|]; [right|left; by ev]. split; [|ev; apply Is]. pose proof (se_pc s Is u) as Hpu.
    rewrite Hw in Hpu. evc. rewrite fn_lookup_insert. evc. by destruct (pct s u), (on s u).
  - intros d. destruct (decide (d = c)) as [->|]; [right; by ev; known|]. destruct (decide (current s d = u)) as [E|]; [right|left; same].
    pose proof (se_stage s Is d) as Hst. rewrite E in Hst. replace (wk _ false) with (wk (cpus s d) false) by (by ev).
    replace (sched _) with (sched (cpus s d)) by (by ev). evc. rewrite E, fn_lookup_insert. evc. rewrite Hw in Hst.
    by destruct (pct s u), (sched (cpus s d)) as [[]|], (wk (cpus s d) false).
Qed.

Lemma backs_wake_lock u v :
  stt s u = waiting → lockable (pct s u) = true → cond (thr s u) = false →
  (∀ d b w, wk (cpus s d) b = Some w → tgt w = u → loud w = false) →
  backs (upc c (set_wk false (Some (W u false Nothing v WBack))) (upt u (set_st sending_lock) s)).
Proof using All.
  intros Hw Hu Hc Hl. destruct (i_backs _ _ I) as [B1 B2 B3 B4]. set (s' := upc c _ _).
  assert (wk (cpus s' c) false = Some (W u false Nothing v WBack)) as Hwc by apply wk_upc.
  assert (∀ d b, (d, b) ≠ (c, false) → wk (cpus s' d) b = wk (cpus s d) b) as Hwo by (intros; unfold s'; ev; congruence).
  assert (∀ d b w, wk (cpus s' d) b = Some w → stg w = WBack →
            (d, b) = (c, false) ∧ tgt w = u ∨ wk (cpus s d) b = Some w ∧ tgt w ≠ u) as Ho.
  { intros d b w H S. destruct (decide ((d, b) = (c, false))) as [[= -> ->]|]; [left; rewrite Hwc in H; by injection H as <-|].
    rewrite Hwo in H by done. right. split; [done|]. intros <-. destruct (B1 d b w H S) as (? & _). congruence. }
  split.
  - intros d b w H S. destruct (Ho d b w H S) as [[_ ->]|[H' Hne]]; [unfold s'; by ev|].
    pose proof (B1 d b w H' S). clear H. unfold s'. by ev.
  - intros d b w d' b' w' H S H' S' E. destruct (Ho d b w H S) as [[[= -> ->] E1]|[H1 E1]], (Ho d' b' w' H' S') as [[[= -> ->] E2]|[H2 E2]];
      try congruence; auto. by apply (B2 d b w d' b' w').
  - intros d b w d' b' w' H S H' E. destruct (decide ((d', b') = (c, false))) as [[= -> ->]|]; [rewrite Hwc in H'; by injection H' as <-|].
    rewrite Hwo in H' by done. destruct (Ho d b w H S) as [[_ E1]|[H1 _]]; [apply (Hl d' b' w' H'); congruence|].
    by apply (B3 d b w d' b' w').
  - intros t k Hx Hpk. destruct (decide (t = u)) as [->|Hne]; [by exists c, false, (W u false Nothing v WBack)|].
    assert (handing s t) as (d & b & w & H & S & E) by (apply (B4 t k); unfold s' in *; by ev).
    exists d, b, w. split; [|done]. rewrite Hwo; [done|]. congruence.
Qed.

Lemma inv_call_wake_lock u l : allowed s c (OWakeLock u l) → inv (wake_lock c u l s) L.
Proof using All.
  intros Ha. destruct go_facts as (Hx & Hon & Hk & Hni & Hinj). pose proof I as I'. parts I'. unfold wake_lock. case_decide as Hw.
  - assert (lockable (pct s u) = true) as Hu.
    { destruct l; [by apply Ha|]. destruct Ha as [Ha _]. specialize (Ha Hw). by destruct (pct s u). }
    assert (∀ v, backs (upc c (set_wk false (Some (W u false Nothing v (if l then WBack else WDone)))) (upt u (set_st sending_lock) s))) as Hb.
    { intros v. destruct l; [destruct (Ha Hw) as (_ & ? & ?); by apply backs_wake_lock|]. eapply (backs_waker s _ c false); [done|done|apply wk_upc|done|done
        |intros; ev; congruence| |intros; by ev|intros; left; by ev].
      intros t. destruct (decide (t = u)) as [->|]; [right|left; by ev]. split; [congruence|]. right. destruct Ha as [Ha _].
      specialize (Ha Hw). by destruct (pct s u). }
    assert (pct s u ≠ Exit3 ∧ pct s u ≠ New) as [Hx3 Hn] by (by destruct (pct s u)).
    specialize (Hb (cput s u)). destruct l; frames; by apply seated_wake_lock.
  - assert (∀ v, backs (upc c (set_wk false (Some (W u false Nothing v WDone))) (if l then s else upt u (set_cond true) s))) as Hb.
    { intros v. eapply (backs_waker s _ c false); [done|done|apply wk_upc|done|done|destruct l; intros; ev; congruence|destruct l; intros; left; by ev
        |destruct l; intros; by ev|]. destruct l; [by left|]. intros t. destruct (decide (t = u)) as [->|]; [right; apply Ha|left; by ev]. }
    specialize (Hb (cput s u)). destruct l; frames. eapply conds_upd; [done|same|same| |same|intros t _; apply to_wake_kept; same].
    intros t. destruct (decide (t = u)) as [->|]; [|left; by ev]. do 3 right. by ev.
Qed.

Lemma inv_call_priority v : 0 ≤ v → inv (upt me (set_prio v) s) L.
Proof using All.
  intros Hv. destruct go_facts as (Hx & Hon & Hk & Hni & Hinj). pose proof I as I'. parts I'. frames.
  apply (order_one s me v); [done|done| |done|same|same|same]. intros d Hd. apply (p_rq _ _ Ip) in Hd as [? _]. congruence.
Qed.

Lemma inv_call_push a : locks (thr s me) = None → (∀ u b, locks (thr s u) ≠ Some (a, b)) → inv (upt me (set_locks (Some (a, true))) s) L.
Proof using All.
  intros Hl Ha. destruct go_facts as (Hx & Hon & Hk & Hni & Hinj). pose proof I as I'. parts I'. frames.
  destruct In as [C1 C2 C3]. split.
  - intros t a' b Ht. rewrite (on_same s) by (by ev). destruct (decide (t = me)) as [->|Hne].
    + assert (a' = a) as -> by (revert Ht; evc; rewrite fn_lookup_insert; evc; congruence). rewrite Hon. by apply C3.
    + apply (C1 t a' b). by ev.
  - intros t u a' b b'. pose proof (C2 t u a' b b'). ev; try done; auto; intros; simplify_eq; exfalso; eapply Ha; eauto.
  - intros a' Hno. apply C3. intros t b Ht. apply (Hno t b). assert (t ≠ me) by congruence. by ev.
Qed.

Lemma inv_call_pop a b : locks (thr s me) = Some (a, b) → inv (upt me (set_locks None) s) L.
Proof using All.
  intros Hl. destruct go_facts as (Hx & Hon & Hk & Hni & Hinj). pose proof I as I'. parts I'. frames.
  destruct In as [C1 C2 C3]. split.
  - intros t a' b' Ht. rewrite (on_same s) by (by ev). apply (C1 t a' b'). by ev.
  - intros t u a' b1 b2 Ht Hu. apply (C2 t u a' b1 b2); by ev.
  - intros a' Hno. destruct (decide (a' = a)) as [->|Hne]; [apply C1 in Hl; by rewrite Hon in Hl|]. apply C3. intros t b' Ht.
    apply (Hno t b'). assert (t ≠ me) by congruence. by ev.
Qed.

Lemma inv_call_start u d v :
  stt s u = unstarted → 0 ≤ v →
  inv (upc c (set_wk false (Some (new_waker u false false))) (upt u (λ x, set_st waiting (set_prio v (set_tcpu d x))) s)) L.
Proof using All.
  intros Hu Hv. destruct go_facts as (Hx & Hon & Hk & Hni & Hinj). pose proof I as I'. parts I'. 
  pose proof (se_pc s Is u) as Hpu. rewrite Hu in Hpu. 
  assert (pct s u = New ∧ on s u = false) as [Hpn Hoff].
  { destruct (pct s u) as [| | | | | |[]| | | | | | | | | | | | |], (on s u); done. }
  assert (is_idle u = false) as Hku by (by rewrite <- (se_kind s Is), Hpn). pose proof (not_idle u Hku) as Hnu.
  assert (∀ e, current s e ≠ u) as Hcu by (intros e <-; by rewrite on_cur in Hoff).
  assert (pct s u ≠ Exit3) as Hx3 by congruence.
  set (s' := upc c _ _). assert (∀ t, on s' t = on s t) as Hons.
  { intros t. destruct (decide (t = u)) as [->|Ht]; [rewrite Hoff|apply on_same; unfold s'; by ev].
    apply bool_decide_eq_false. unfold s'. ev; apply Hcu. }
  unfold s' in *; clear s'. frames.
  - split.
    + intros e. pose proof (se_cur s Is e). by ev.
    + intros e. pose proof (se_idle s Is e). by ev.
    + intros t. rewrite Hons. pose proof (se_pc s Is t). ev; [|done]. by rewrite Hoff, Hpn.
    + intros t. pose proof (se_kind s Is t). by ev.
    + intros e. pose proof (se_stage s Is e) as Hst. ev; [by known|]. done.
  - eapply conds_upd; [done| |same|same|same|].
    + intros t. destruct (decide (t = u)) as [->|]; [right|left; by ev]. split; [|by ev]. right. right. exists c, false. eexists.
      split; [apply wk_upc|done].
    + intros t _. apply to_wake_kept. same.
  - apply (order_one s u v); [done|done| |done|same|same|same]. intros e He. apply (p_rq _ _ Ip) in He as [? _]. congruence.
  - eapply cnt_frame; [done|done|same|done].
Qed.

End go.
End calls.

Lemma inv_call s L c o s' : inv s L → allowed s c o → call c o s = Some s' → inv s' L.
Proof.
  intros I Ha Hs. unfold call in Hs.
  destruct (irq (cpus s c)) eqn:Hirq, (sched (cpus s c)) eqn:Hsc, (wk (cpus s c) false) eqn:Hwk; try done.
  destruct (pct s (current s c)) eqn:Hp; try done.
  - destruct o; cbn [allowed] in Ha.
    + injection Hs as <-. by apply inv_call_wait.
    + case_decide; [done|]. case_decide; [by injection Hs as <-|].
      destruct (joiner (thr s z)) eqn:Hj; injection Hs as <-; [done|by apply inv_call_join].
    + injection Hs as <-. apply inv_new_waker; auto.
    + injection Hs as <-. by apply inv_call_wake_lock.
    + injection Hs as <-. apply inv_begin; auto. by rewrite Hp.
    + injection Hs as <-. by apply inv_call_exit.
    + destruct Ha as (Hu & _ & Hv). rewrite decide_True in Hs by done. injection Hs as <-. by apply inv_call_start.
    + injection Hs as <-. by apply inv_call_priority.
    + injection Hs as <-. destruct Ha. by apply inv_call_push.
    + injection Hs as <-. destruct Ha as [b Hb]. rewrite Hb, bool_decide_eq_true_2 by done. by apply inv_call_pop with a b.
  - destruct o; try done. injection Hs as <-. apply inv_new_waker; eauto.
Qed.

Lemma inv_interrupt s L c b s' : inv s L → interrupt c b s = Some s' → inv s' L.
Proof.
  intros I Hs. unfold interrupt in Hs. destruct (irq_enabled s c && (b || ipi (cpus s c))) eqn:He; [|done]. injection Hs as <-.
  apply andb_true_iff in He as [He _]. apply andb_true_iff in He as [Hirq He]. apply negb_true_iff in Hirq.
  assert (irq_stage (sched (cpus s c)) = true) as Hst by (by destruct (sched (cpus s c)) as [[? ? []|? []| | |]|]). clear He.
  rewrite fn_lookup_insert. replace (cur (set_irq _ _)) with (current s c) by (by destruct b). parts I.
  destruct (decide (pct s (current s c) = IHalt)) as [Hp|Hp].
  - rewrite Hp. pose proof (current_idle s c Is ltac:(by rewrite Hp)) as Hme. pose proof (λ d, cur_inj s c d Is) as Hinj.
    pose proof (on_cur s c Is) as Hon. pose proof (se_pc s Is (current s c)) as Hpc. pose proof (aw_poll s Iw c) as Hpo.
    pose proof (se_stage s Is c) as Hg. rewrite Hon, Hp in *. rewrite Hme in *. rewrite Hp in *.
    assert (stt s (Idle c) = running) as Hx by (by destruct (stt s (Idle c))).
    assert (sched (cpus s c) = None ∧ wk (cpus s c) false = None) as [Hsc Hwk].
    { by destruct (sched (cpus s c)) as [[? ? []|? []| | |]|], (wk (cpus s c) false). }
    assert (idle_poll (cpus s c) = false) as Hpo' by (destruct (idle_poll _); [by specialize (Hpo eq_refl)|done]). destruct b; frames.
  - assert (may_halt (sched (cpus s c)) (pct s (current s c)) = false) as Hm.
    { by destruct (sched (cpus s c)) as [[[] ? []|? []| | |]|], (pct s (current s c)). }
    assert (∀ s', inv s' L → inv (match pct s (current s c) with IHalt => goto (current s c) IAfter s' | _ => s' end) L) as Hi
      by (intros s' I'; by destruct (pct s (current s c))).
    apply Hi. destruct b; frames.
Qed.

Lemma inv_irq_wake s L c t f s' : inv s L → may_wake s t f false → irq_wake c t f s = Some s' → inv s' L.
Proof.
  intros I Hm Hs. unfold irq_wake in Hs. destruct (irq (cpus s c)) eqn:Hirq, (wk (cpus s c) true) eqn:Hwk; try done. injection Hs as <-.
  parts I. assert (backs (upc c (set_wk true (Some (new_waker t f false))) s)).
  { eapply backs_waker; [done|done|apply wk_upc|by destruct f|by rewrite loud_new|intros; ev; congruence|intros; left; by ev|intros; by ev
      |intros; left; by ev]. }
  destruct f; frames.
Qed.

Lemma inv_irq_end s L c : inv s L → wk (cpus s c) true = None → inv (upc c (set_irq false) s) L.
Proof.
  intros I Hwk. parts I. frames. destruct Iw as [A1 A2 A3 A4]. split.
  - intros d w. pose proof (A1 d w). ev; auto; congruence.
  - intros d. pose proof (A2 d). ev; auto; done.
  - intros d. pose proof (A3 d). by ev.
  - intros d. pose proof (A4 d). by ev.
Qed.

Lemma inv_sched_step s L c g r s' :
  inv s L → (c < max_cpus)%nat → irq (cpus s c) = false → sched (cpus s c) = Some g → ran_for r < run_stop r →
  sched_step c g r s = Some s' → ∃ L', inv s' L'.
Proof.
  intros I Hc Hirq Hsc Hr Hs. destruct g as [w acc k|l k|y| |]; cbn [sched_step] in Hs.
  - exists L. case_decide; injection Hs as <-; [by apply inv_fetch|]. eapply inv_fetched; [done|done|lia].
  - destruct l as [|i l]; [exists L; injection Hs as <-; by apply inv_proceed|].
    destruct (inc (cpus s c) i) as [|t q] eqn:Hi; injection Hs as <-; [exists L; by eapply inv_drained|].
    eexists. by eapply inv_arrive.
  - exists L. injection Hs as <-. by apply inv_picked.
  - exists L. apply (inv_tail s L c s' r); try done. pose proof (se_stage s (i_seated _ _ I) c) as Hst. rewrite Hsc in Hst.
    by destruct (wk (cpus s c) false).
  - destruct (wk (cpus s c) false) as [w|] eqn:Hwk; [|done]. by eapply inv_wstep.
Qed.

Lemma inv_cstep s L c r s' :
  inv s L → (c < max_cpus)%nat → ran_for r < run_stop r → cstep c r s = Some s' → ∃ L', inv s' L'.
Proof.
  intros I Hc Hr Hs. unfold cstep in Hs. destruct (irq (cpus s c)) eqn:Hirq.
  - destruct (wk (cpus s c) true) as [w|] eqn:Hwk; [by eapply inv_wstep|]. injection Hs as <-. exists L.
    apply inv_preempt; [by apply inv_irq_end|by ev].
  - destruct (sched (cpus s c)) as [g|] eqn:Hsc; [by eapply inv_sched_step|].
    destruct (wk (cpus s c) false) as [w|] eqn:Hwk; [by eapply inv_wstep|]. exists L. by eapply inv_thread_step.
Qed.

Lemma inv_stepped s L s' : inv s L → step s s' → ∃ L', inv s' L'.
Proof.
  intros I. destruct 1 as [c r s' Hc Hr Hs|c o s' Hc Ha Hs|c b s' Hc Hs|c t f s' Hc Hm Hs].
  - by eapply inv_cstep.
  - exists L. by eapply inv_call.
  - exists L. by eapply inv_interrupt.
  - exists L. by eapply inv_irq_wake.
Qed.

Lemma inv_start : inv start (λ _, Nowhere).
Proof.
  split.
  - split; try done.
    + intros c t. cbn. rewrite list_elem_of_singleton. destruct t; cbn; intuition congruence.
    + intros c. apply NoDup_singleton.
    + intros c i t. cbn. rewrite elem_of_nil. intuition congruence.
    + intros c i. apply NoDup_nil_2.
    + intros c b t. split; [by intros (w & ? & _)|]. by intros [_ ?].
    + intros t. by destruct t.
  - split; try done.
    + intros t. destruct t as [c|c|i]; unfold on; cbn; [done|by rewrite bool_decide_eq_true_2|done].
    + intros t. by destruct t.
  - split; cbn; intros; set_solver.
  - split; done.
  - intros c i _ _ Hi. cbn in Hi. set_solver.
  - split; intros t; destruct t; done.
  - split; try done. intros z. by destruct z.
  - split; [intros; repeat constructor|intros t; by destruct t|done].
  - split; try done; intros t; by destruct t.
  - split; try done. intros t. by destruct t.
  - done.
Qed.

Lemma inv_reachable s : reachable s → ∃ L, inv s L.
Proof.
  intros Hs. apply (rtc_ind_r (λ s, ∃ L, inv s L) start) in Hs; [done|eexists; apply inv_start|].
  intros x y _ Hxy [L I]. by eapply inv_stepped.
Qed.

End SchedCall.
