(* ===== verification/SchedSpec.v ===== *)
(** * The scheduler: its properties

    In every reachable state no assertion has failed and every thread is in the place
    its state says; a CPU that halts has nothing to do; the thread that is chosen has
    the highest priority; the preemption counters tell who runs. *)
From S2P Require Import Prelude Sched SchedInv SchedWake SchedRun SchedPick SchedSwitch SchedCall.

Module SchedSpec.
Import Sched SchedInv SchedWake SchedRun SchedPick SchedSwitch SchedCall.

(** ** Where the threads are *)

(** [t] is in one queue of incoming wakeups, once, or in the hands of one waker. *)
Definition in_flight (s : state) (t : tid) : Prop :=
  (∃ i, (∀ d j, t ∈ inc (cpus s d) j ↔ d = tcpu (thr s t) ∧ j = i) ∧ ∀ c b, ¬ waker_at s WPush c b t) ∨
  (∃ c b, (∀ d e, waker_at s WPush d e t ↔ d = c ∧ e = b) ∧ ∀ d j, t ∉ inc (cpus s d) j).

Lemma inv_in_flight s L t : inv s L → st (thr s t) = waking → in_flight s t.
Proof.
  intros I Ht. destruct (i_placed _ _ I) as [_ _ P3 _ P5 _ P7]. specialize (P7 t Ht). unfold in_flight.
  destruct (L t) as [|i|c b] eqn:HL; [done|left; exists i|right; exists c, b].
  - split; [intros d j; rewrite P3; intuition congruence|]. intros c b Hw. apply P5 in Hw as [_ ?]. congruence.
  - split; [intros d e; rewrite P5; intuition congruence|]. intros d j Hi. apply P3 in Hi as (_ & _ & ?). congruence.
Qed.

Lemma inv_off s L t : inv s L → st (thr s t) = terminated ∨ st (thr s t) = unstarted → ∀ c, cur (cpus s c) ≠ t.
Proof.
  intros I Ht c <-. pose proof (se_pc s (i_seated _ _ I) (current s c)) as Hp. rewrite on_cur in Hp by apply I.
  by destruct Ht as [E|E]; rewrite E in Hp; destruct (pct s (current s c)) as [| | | | | |[]| | | | | | | | | | | | |].
Qed.

(** C14: In every reachable state no assertion of the scheduler has failed; the run
    queue of a CPU holds, once, exactly the threads that are queued there; a running
    thread is the current one of its CPU, which is never a queued one; a thread that is
    being woken is in one incoming queue, once, or in the hands of one waker; a
    thread that has ended is on no CPU and in no queue. *)
Theorem sched_places s :
  reachable s →
  aborted s = false ∧
  (∀ c, NoDup (rq (cpus s c)) ∧ st (thr s (cur (cpus s c))) ≠ queued ∧ tcpu (thr s (cur (cpus s c))) = c) ∧
  (∀ c t, t ∈ rq (cpus s c) ↔ st (thr s t) = queued ∧ tcpu (thr s t) = c) ∧
  (∀ t, st (thr s t) = running → cur (cpus s (tcpu (thr s t))) = t) ∧
  (∀ t, st (thr s t) = waking → in_flight s t) ∧
  (∀ t, st (thr s t) = terminated → ∀ c i, cur (cpus s c) ≠ t ∧ t ∉ rq (cpus s c) ∧ t ∉ inc (cpus s c) i).
Proof.
  intros [L I]%inv_reachable. pose proof I as I'. parts I'.
  assert (∀ t, stt s t = queued ∨ stt s t = running → on s t = bool_decide (stt s t = running)) as Hon.
  { intros t Ht. pose proof (se_pc s Is t) as Hp. destruct Ht as [E|E]; rewrite E in *; destruct (on s t); try done;
      by destruct (pct s t) as [| | | | | |[]| | | | | | | | | | | | |]. }
  split; [done|]. split; [|split; [apply Ip|split; [|split]]].
  - intros c. split; [apply Ip|]. split; [|apply Is]. intros E. pose proof (Hon _ (or_introl E)) as H. by rewrite on_cur, E in H.
  - intros t Ht. pose proof (Hon t (or_intror Ht)) as H. rewrite Ht in H. by apply bool_decide_eq_true in H.
  - intros t. by eapply inv_in_flight.
  - intros t Ht c i. split; [eapply inv_off; eauto|]. split; intros Hi.
    + apply (p_rq _ _ Ip) in Hi as [? _]. congruence.
    + apply (p_inc _ _ Ip) in Hi as [? _]. congruence.
Qed.

(** ** The states of a thread *)

(** The state machine transition matrix of [sched.hh].  It lacks one transition of the
    code, from [sending_lock] back to [waiting]. *)
Definition matrix (a b : status) : bool :=
  match a, b with
  | unstarted, (waiting | prestarted) | prestarted, unstarted => true
  | waiting, (waking | running | sending_lock) | sending_lock, waking => true
  | running, (waiting | queued | terminating) | queued, running => true
  | waking, (queued | running) | terminating, terminated => true
  | _, _ => false
  end.

Definition moves (s s' : state) : Prop :=
  ∀ t, st (thr s' t) = st (thr s t) ∨ matrix (st (thr s t)) (st (thr s' t)) = true ∨
       st (thr s t) = sending_lock ∧ st (thr s' t) = waiting ∧ handing s t.

Lemma st_enter c y s t : stt (enter c y s) t = stt s t.
Proof. unfold enter. by ev. Qed.
Lemma st_preempt c s t : stt (preempt c s) t = stt s t.
Proof. unfold preempt. case_match; [apply st_enter|by ev]. Qed.
Lemma st_preempt_enable c s t : stt (preempt_enable c s) t = stt s t.
Proof. unfold preempt_enable. case_match; [apply st_enter|done]. Qed.

Lemma moves_same s s' : (∀ t, stt s' t = stt s t) → moves s s'.
Proof. intros H t. by left. Qed.

Lemma moves_one s s' t : (∀ u, u ≠ t → stt s' u = stt s u) → matrix (stt s t) (stt s' t) = true → moves s s'.
Proof. intros Hu Ht u. destruct (decide (u = t)) as [->|]; [auto|left; auto]. Qed.

Ltac still := apply moves_same; intros; rewrite ?st_preempt_enable, ?st_enter; by ev.
Ltac one t := apply (moves_one _ _ t); [intros; rewrite ?st_preempt_enable, ?st_enter; by ev|rewrite ?st_preempt_enable, ?st_enter; ev].

Lemma moves_wstep s L c b w s' : inv s L → wk (cpus s c) b = Some w → wstep c b w s = Some s' → moves s s'.
Proof.
  intros I Hw Hs. unfold wstep in Hs. destruct (stg w) eqn:Hst; cbv zeta in Hs.
  - injection Hs as <-. destruct (deed_of w) as [| |z] eqn:Hd; [still..|].
    destruct (te_act s (i_term _ _ I) c b w z Hw Hst Hd) as (_ & T2 & T3 & _). pose proof (se_pc s (i_seated _ _ I) z) as Hp.
    assert (on s z = false) as Hon by (by apply bool_decide_eq_false). rewrite Hon, T2 in Hp.
    destruct (stt s z) eqn:Hz; try done; [one z; by known|]. apply moves_same. intros u. ev; congruence.
  - case_decide as Hd; injection Hs as <-; [|still]. one (tgt w). by destruct Hd as [-> | [_ ->]].
  - injection Hs as <-. still.
  - case_bool_decide; [case_decide|]; injection Hs as <-; still.
  - injection Hs as <-. still.
  - injection Hs as <-. case_decide; still.
  - injection Hs as <-. destruct b; [still|]. destruct (sched _) as [[]|]; still.
  - injection Hs as <-. intros t. destruct (decide (t = tgt w)) as [->|]; [right; right|left; by ev].
    destruct (ba_at s (i_backs _ _ I) c b w Hw Hst) as (E & _). split; [done|]. split; [by ev|]. by exists c, b, w.
Qed.

Lemma moves_destroy s L c z g : inv s L → dying (cpus s c) = Some z → moves s (destroy c z g s).
Proof.
  intros I Hd. destruct (te_dying s (i_term _ _ I) c z Hd) as (T1 & _). unfold destroy. case_decide; [still|].
  rewrite decide_True by done. destruct (joiner (thr s z)); [still|]. one z. by rewrite T1.
Qed.

Lemma moves_thread_step s L c s' :
  inv s L → irq (cpus s c) = false → sched (cpus s c) = None → wk (cpus s c) false = None → thread_step c s = Some s' → moves s s'.
Proof.
  intros I Hirq Hsc Hwk Hs. destruct (own_facts s L c I Hirq Hsc Hwk) as (_ & Hpc & _). unfold thread_step in Hs.
  destruct (pct s (current s c)) eqn:Hp; try done; injection Hs as <-; try still.
  - case_decide as Hx; [|still]. one (current s c). by rewrite Hx.
  - case_match; [case_match|]; still.
  - case_decide as Hx; [one (current s c); by rewrite Hx|]. case_decide; still.
  - case_decide; still.
  - destruct (dying (cpus s c)) as [z|] eqn:Hd; [|still]. case_decide; [still|].
    intros t. replace (stt (goto _ _ _) t) with (stt (destroy c z None s) t) by (by ev). by eapply moves_destroy.
Qed.

Lemma moves_pick s L c y r : inv s L → sched (cpus s c) = Some (SPick y) → ran_for r < run_stop r → moves s (pick c y r s).
Proof.
  intros I Hsc Hr. destruct (pick_form s L c y r I Hsc Hr) as [(Hx & -> & _)|(n & l & s3 & q & Hrq & -> & [_ _ _ _ _ R6 R7 _ _ _ _ _ _ _] & _)]; [still|].
  destruct (switch_facts s L c y n l I Hsc Hrq) as (F1 & _ & _ & _ & F5 & _). intros t. unfold run_next.
  destruct (decide (t = n)) as [->|Hn]; [right; left; ev; by rewrite F1|].
  assert (stt (upc c (λ k, set_sched (Some STail) (set_cur n k)) (upt n (λ t, set_rt (run_start r) (set_st running t)) s3)) t = stt s3 t) as -> by (by ev).
  destruct (decide (t = current s c)) as [->|Hc]; [|left; by apply R6]. destruct R7 as [[-> ->]|[_ ->]]; auto.
Qed.

Lemma moves_sched_step s L c g r s' :
  inv s L → sched (cpus s c) = Some g → ran_for r < run_stop r → sched_step c g r s = Some s' → moves s s'.
Proof.
  intros I Hsc Hr Hs. destruct g as [w acc k|l k|y| |]; cbn [sched_step] in Hs.
  - case_decide; injection Hs as <-; still.
  - destruct l as [|i l].
    + injection Hs as <-. unfold proceed. destruct k; try still. destruct (rq (cpus s c)) as [|[]]; try still; case_decide; still.
    + destruct (inc (cpus s c) i) as [|t q] eqn:Hi; injection Hs as <-; [still|].
      destruct (arriving_facts s L c I i l k t q Hsc Hi) as (Hx & Hc & _). unfold arrive, enqueue.
      case_decide; [one t; by rewrite Hx|]. rewrite decide_True by done. one t. by rewrite Hx.
  - injection Hs as <-. by eapply moves_pick.
  - destruct (dying (cpus s c)) as [z|] eqn:Hd.
    + destruct (pct s (current s c)); injection Hs as <-; first [by eapply moves_destroy|still].
    + destruct (pct s (current s c)); injection Hs as <-; still.
  - destruct (wk (cpus s c) false) eqn:Hwk; [|done]. by eapply moves_wstep.
Qed.

Lemma moves_call s L c o s' : inv s L → allowed s c o → call c o s = Some s' → moves s s'.
Proof.
  intros I Ha Hs. unfold call in Hs.
  destruct (irq (cpus s c)) eqn:Hirq, (sched (cpus s c)) eqn:Hsc, (wk (cpus s c) false) eqn:Hwk; try done.
  destruct (pct s (current s c)) eqn:Hp; try done.
  - destruct (go_facts s L c I Hirq Hsc Hwk Hp) as (Hx & _). destruct o; try (injection Hs as <-; still).
    + case_decide; [done|]. case_decide; [injection Hs as <-; still|]. destruct (joiner (thr s z)); injection Hs as <-; still.
    + injection Hs as <-. unfold wake_lock. case_decide as Hw; [one t; by rewrite Hw|]. destruct locking; still.
    + injection Hs as <-. one (current s c). by rewrite Hx.
    + case_decide as Hu; injection Hs as <-; [|still]. one t. by rewrite Hu.
    + injection Hs as <-. case_bool_decide; still.
  - destruct o; try done. injection Hs as <-. still.
Qed.

(** C15: Every step changes the state of a thread only along the transition matrix of
    [sched.hh], but for the one transition the matrix lacks: [wake_lock], when it has
    set a thread to [sending_lock] and finds it in the [lock] of the mutex, sets it
    back to [waiting]. *)
Theorem sched_transitions s s' :
  reachable s → step s s' →
  ∀ t, st (thr s' t) = st (thr s t) ∨ matrix (st (thr s t)) (st (thr s' t)) = true ∨
       st (thr s t) = sending_lock ∧ st (thr s' t) = waiting ∧ handing s t.
Proof.
  intros [L I]%inv_reachable Hs. change (moves s s'). destruct Hs as [c r s' Hc Hr Hs|c o s' Hc Ha Hs|c b s' Hc Hs|c t f s' Hc Hm Hs].
  - unfold cstep in Hs. destruct (irq (cpus s c)) eqn:Hirq.
    + destruct (wk (cpus s c) true) eqn:Hwk; [by eapply moves_wstep|]. injection Hs as <-. apply moves_same. intros t. by rewrite st_preempt.
    + destruct (sched (cpus s c)) eqn:Hsc; [by eapply moves_sched_step|].
      destruct (wk (cpus s c) false) eqn:Hwk; [by eapply moves_wstep|]. by eapply moves_thread_step.
  - by eapply moves_call.
  - unfold interrupt in Hs. case_match; [|done]. injection Hs as <-. case_match; still.
  - unfold irq_wake in Hs. repeat (case_match; try done). injection Hs as <-. still.
Qed.

(** ** A CPU that halts *)

(** The CPU whose thread a waker is after. *)
Definition target (s : state) (w : waker) : nat :=
  match stg w with WAct | WCas => tcpu (thr s (tgt w)) | _ => wcpu w end.

Section halted.
Context (s : state) (L : tid → spot) (c : nat) (I : inv s L).
Context (Hh : at_ (thr s (cur (cpus s c))) = IHalt) (Hi : ipi (cpus s c) = false).
Context (Hw : ∀ d b w, wk (cpus s d) b = Some w → target s w ≠ c).

Lemma halted_facts :
  current s c = Idle c ∧ rq (cpus s c) = [] ∧ mask (cpus s c) = ∅ ∧ (∀ i, inc (cpus s c) i = []) ∧ sched (cpus s c) = None ∧
  wk (cpus s c) false = None.
Proof using All.
  parts I. pose proof (se_stage s Is c) as Hg. rewrite Hh in Hg. pose proof (aw_halt s Iw c Hh) as Hrq.
  assert (sched (cpus s c) = None ∧ wk (cpus s c) false = None) as [Hsc Hwk].
  { by destruct (sched (cpus s c)) as [[? ? [[]| | | |]|? [[]| | | |]|[]| |]|], (wk (cpus s c) false). }
  assert (mask (cpus s c) = ∅) as Hm.
  { apply set_eq. intros i. split; [|set_solver]. intros Him. exfalso.
    destruct (Id c i) as [?|(d & b & x & Hx & Hs & Hd)]; [unfold committed; by rewrite Hsc|done|done|congruence|].
    apply (Hw d b x Hx). unfold target. by destruct Hs as [-> | ->]. }
  repeat split; try done; [apply current_idle; [done|by rewrite Hh]|]. intros i.
  destruct (inc (cpus s c) i) as [|t l] eqn:E; [done|]. exfalso.
  destruct (fl_inc s If c i t) as [?|[?|(b & w & Hx & Hs & Hd)]]; [rewrite E; by left|set_solver|rewrite Hsc in *; set_solver|].
  apply (Hw i b w Hx). unfold target. by rewrite Hs.
Qed.

Lemma to_wake_halted t : tcpu (thr s t) = c → ¬ to_wake s t.
Proof using All. intros Ht (d & b & w & Hx & Hs & E). apply (Hw d b w Hx). unfold target. by rewrite Hs, E. Qed.

Lemma halted_idle t :
  tcpu (thr s t) = c → t ≠ Idle c →
  st (thr s t) = unstarted ∨ st (thr s t) = sending_lock ∨ st (thr s t) = terminated ∨
  st (thr s t) = waiting ∧ ∃ k, at_ (thr s t) = Slept k ∧ holds s t k = false.
Proof using All.
  intros Ht Hne. destruct halted_facts as (F1 & F2 & F3 & F4 & F5 & F6). parts I.
  assert (on s t = false) as Hoff by (apply bool_decide_eq_false; rewrite Ht, F1; auto).
  pose proof (se_pc s Is t) as Hp. rewrite Hoff in Hp. pose proof (to_wake_halted t Ht) as Hno.
  destruct (st (thr s t)) eqn:Hx; auto; try (exfalso; by destruct (pct s t) as [| | | | | |[]| | | | | | | | | | | | |]).
  - right. right. right. split; [done|]. destruct (pct s t) as [| | | | |k|[]| | | | | | | | | | | | |] eqn:Hpt; try done.
    + exfalso. by apply Hno, Ic.
    + exists k. split; [done|]. destruct (holds s t k) eqn:Hho; [|done]. exfalso. apply Hno. apply (co_wait s Ic t k); [by rewrite Hpt|done..].
  - exfalso. assert (t ∈ rq (cpus s c)) as Hin by (by apply (p_rq _ _ Ip)). rewrite F2 in Hin. by apply elem_of_nil in Hin.
  - exfalso. pose proof (p_waking _ _ Ip t Hx) as HL. destruct (L t) as [|i|d b] eqn:E; [done|..].
    + assert (t ∈ inc (cpus s c) i) as Hin by (by apply (p_inc _ _ Ip)). rewrite F4 in Hin. by apply elem_of_nil in Hin.
    + destruct (proj2 (p_push _ _ Ip d b t) ltac:(done)) as (w & H1 & H2 & H3). apply (Hw d b w H1). unfold target.
      rewrite H2, (p_wcpu _ _ Ip d b w H1 H2), H3. done.
  - exfalso. assert (pct s t = Exit3) as Hpt by (by destruct (pct s t) as [| | | | | |[]| | | | | | | | | | | | |]).
    destruct (te_exit3 s It t Hx Hpt) as [Hd|(w & Hd & _)]; rewrite Ht in Hd; [|congruence].
    destruct (te_dying s It c t Hd) as (_ & _ & _ & [?|?]); congruence.
Qed.

End halted.

(** C16: No wakeup is lost: when a CPU has halted, no interrupt is on its way to it and
    nobody is about to wake one of its threads, then none of its threads can run: each
    one has not been started, has ended, is to get a mutex, or waits for a condition
    that does not hold. *)
Theorem sched_no_lost_wakeup s c :
  reachable s → at_ (thr s (cur (cpus s c))) = IHalt → ipi (cpus s c) = false →
  (∀ d b w, wk (cpus s d) b = Some w → target s w ≠ c) →
  ∀ t, tcpu (thr s t) = c → t ≠ Idle c →
    st (thr s t) = unstarted ∨ st (thr s t) = sending_lock ∨ st (thr s t) = terminated ∨
    st (thr s t) = waiting ∧ ∃ k, at_ (thr s t) = Slept k ∧ holds s t k = false.
Proof. intros [L I]%inv_reachable Hh Hi Hw t. by eapply halted_idle. Qed.

(** ** The choice of the next thread *)

(** C17: Behind [reschedule_from_interrupt] the current thread of the CPU runs, and
    no thread of the run queue has a higher realtime priority; the current thread and the
    queue are together those that were queued and the one that ran, if it still can. *)
Theorem sched_pick s c y r :
  reachable s → sched (cpus s c) = Some (SPick y) → ran_for r < run_stop r →
  let s' := pick c y r s in
  let p := cur (cpus s c) in
  let n := cur (cpus s' c) in
  st (thr s' n) = running ∧ (∀ u, u ∈ rq (cpus s' c) → prio (thr s' u) ≤ prio (thr s' n)) ∧ n ∉ rq (cpus s' c) ∧
  (∀ u, u = n ∨ u ∈ rq (cpus s' c) ↔ u ∈ rq (cpus s c) ∨ u = p ∧ st (thr s p) = running) ∧ aborted s' = false.
Proof.
  intros [L I]%inv_reachable Hsc Hr. destruct (pick_best s L c y r I Hsc Hr) as (H1 & H2 & H3).
  pose proof (inv_picked s L c y r I Hsc Hr) as I'. split; [done|]. split; [done|]. split; [|split; [done|apply I']].
  intros Hn. apply (p_rq _ _ (i_placed _ _ I')) in Hn as [E _]. by rewrite H2 in E.
Qed.

(** ** The preemption counters *)

(** C18: The preemption counter of a lock is 0 while its holder is on its CPU, and 1
    while the holder has been switched out; the counter of a lock that nobody holds
    is 0. *)
Theorem sched_counters s :
  reachable s →
  (∀ t a b, locks (thr s t) = Some (a, b) →
     counters s a = if decide (cur (cpus s (tcpu (thr s t))) = t) then 0 else 1) ∧
  (∀ a, (∀ t b, locks (thr s t) ≠ Some (a, b)) → counters s a = 0).
Proof.
  intros [L I]%inv_reachable. destruct (i_cnt _ _ I) as [C1 _ C3]. split; [|done]. intros t a b Ht. rewrite (C1 t a b Ht). unfold on.
  case_decide as E; [by rewrite bool_decide_eq_true_2|by rewrite bool_decide_eq_false_2].
Qed.

(** ** Examples *)

Inductive act := ACpu (c : nat) (r : ticks) | ACall (c : nat) (o : op) | AInterrupt (c : nat) (device : bool).

(** Enough of [allowed] for the examples. *)
Definition allowed_b (s : state) (o : op) : bool :=
  match o with
  | OStart u d p => bool_decide (st (thr s u) = unstarted) && bool_decide (d < max_cpus)%nat && (0 <=? p)
  | OSetPriority p => 0 <=? p
  | OWake _ f m => negb (f || m)
  | OWakeLock _ _ | OPushLock _ | OPopLock _ => false
  | _ => true
  end.

Definition do_act (a : act) (s : state) : option state :=
  match a with
  | ACpu c r => if bool_decide (c < max_cpus)%nat && (ran_for r <? run_stop r) then cstep c r s else None
  | ACall c o => if bool_decide (c < max_cpus)%nat && allowed_b s o then call c o s else None
  | AInterrupt c b => if bool_decide (c < max_cpus)%nat then interrupt c b s else None
  end.

Fixpoint run (l : list act) (s : state) : option state :=
  match l with [] => Some s | a :: l => match do_act a s with Some s' => run l s' | None => None end end.

Lemma do_act_step a s s' : do_act a s = Some s' → step s s'.
Proof.
  destruct a as [c r|c o|c b]; cbn [do_act]; intros Hs.
  - case_bool_decide; [|done]. destruct (Z.ltb_spec (ran_for r) (run_stop r)); [|done]. by apply (step_cpu s c r).
  - case_bool_decide; [|done]. destruct (allowed_b s o) eqn:Ha; [|done]. apply (step_call s c o); [done| |done].
    destruct o; cbn [allowed allowed_b] in *; try done; [intros E; by rewrite E in Ha| |lia]. apply andb_true_iff in Ha as [[H1 H2]%andb_true_iff H3].
    apply bool_decide_eq_true in H1. apply bool_decide_eq_true in H2. apply Z.leb_le in H3. auto.
  - case_bool_decide; [|done]. by apply (step_interrupt s c b).
Qed.

Lemma run_reaches l s s' : run l s = Some s' → rtc step s s'.
Proof.
  revert s. induction l as [|a l IH]; cbn [run]; intros s Hs; [by injection Hs as ->; apply rtc_refl|].
  destruct (do_act a s) eqn:E; [|done]. eapply rtc_l; [by eapply do_act_step|auto].
Qed.

(** The state behind a run that does not get stuck. *)
Definition after_run (l : list act) (s : state) : state := default s (run l s).
Lemma after_run_steps l s : bool_decide (is_Some (run l s)) = true → rtc step s (after_run l s).
Proof. intros [x Hx]%bool_decide_eq_true. unfold after_run. rewrite Hx. by apply (run_reaches l). Qed.

Definition tick := Ticks 0 1 0 0.
Definition goes (n c : nat) : list act := replicate n (ACpu c tick).

(** A thread is started on another CPU, and is on its way there. *)
Definition flying : state := after_run (ACall 0 (OStart (Th 0) 1 5) :: goes 2 0) start.

Lemma sched_places_witness : st (thr flying (Th 0)) = waking ∧ in_flight flying (Th 0) ∧ aborted flying = false.
Proof.
  assert (reachable flying) as Hr by (apply after_run_steps; vm_compute; reflexivity).
  assert (st (thr flying (Th 0)) = waking) as Hw by (vm_compute; reflexivity).
  destruct (sched_places flying Hr) as (H1 & _ & _ & _ & H5 & _). split; [exact Hw|]. split; [exact (H5 _ Hw)|exact H1].
Defined.

(** The first thread waits in the [lock] of a mutex; the one of the next CPU, which has
    the mutex, calls [wake_lock] for it. *)
Definition in_lock : state := after_run (ACall 0 OWait :: goes 12 0) start.
Definition taken : state := wake_lock 1 (First 0) true in_lock.
Definition given_back : state := after_run (goes 1 1) taken.

Lemma taken_reachable : reachable taken.
Proof.
  unfold reachable. transitivity in_lock; [apply after_run_steps; vm_compute; reflexivity|].
  apply rtc_once. apply (step_call in_lock 1 (OWakeLock (First 0) true)); [unfold max_cpus; lia| |vm_compute; reflexivity].
  intros _. split; [vm_compute; reflexivity|]. split; [vm_compute; reflexivity|].
  intros [|[|d]] [] w Hw; vm_compute in Hw; discriminate.
Qed.

Lemma given_back_step : step taken given_back.
Proof. apply (do_act_step (ACpu 1 tick)). reflexivity. Qed.

Lemma sched_transitions_witness :
  st (thr taken (First 0)) = sending_lock ∧ st (thr given_back (First 0)) = waiting ∧ handing taken (First 0) ∧
  matrix sending_lock waiting = false.
Proof.
  assert (st (thr taken (First 0)) = sending_lock) as H1 by (vm_compute; reflexivity).
  assert (st (thr given_back (First 0)) = waiting) as H2 by (vm_compute; reflexivity).
  split; [exact H1|]. split; [exact H2|]. split; [|reflexivity].
  destruct (sched_transitions taken given_back taken_reachable given_back_step (First 0)) as [E|[E|(_ & _ & E)]];
    [rewrite H1, H2 in E; discriminate..|exact E].
Defined.

(** A thread with a higher priority has been started on the same CPU. *)
Definition started : list act := ACall 0 (OStart (Th 0) 0 5) :: goes 12 0.
Definition picking : state := after_run started start.

Lemma sched_pick_witness :
  cur (cpus picking 0) = First 0 ∧ cur (cpus (pick 0 false tick picking) 0) = Th 0 ∧
  ∀ u, u ∈ rq (cpus (pick 0 false tick picking) 0) → prio (thr (pick 0 false tick picking) u) ≤ 5.
Proof.
  assert (reachable picking) as Hr by (apply after_run_steps; vm_compute; reflexivity).
  assert (sched (cpus picking 0) = Some (SPick false)) as Hs by (vm_compute; reflexivity).
  assert (cur (cpus (pick 0 false tick picking) 0) = Th 0) as Hc by (vm_compute; reflexivity).
  assert (prio (thr (pick 0 false tick picking) (Th 0)) = 5) as Hp by (vm_compute; reflexivity).
  destruct (sched_pick picking 0 false tick Hr Hs ltac:(vm_compute; reflexivity)) as (_ & H2 & _).
  split; [vm_compute; reflexivity|]. split; [exact Hc|]. intros u Hu. specialize (H2 u Hu). rewrite Hc, Hp in H2. exact H2.
Defined.

(** The first thread takes a lock, and is switched out. *)
Definition locked : state := upt (First 0) (set_locks (Some (7%nat, true))) start.
Definition preempted : state := after_run (started ++ goes 1 0) locked.

Lemma locked_reachable : reachable locked.
Proof.
  apply rtc_once. apply (step_call start 0 (OPushLock 7)); [unfold max_cpus; lia| |reflexivity].
  split; [done|]. intros u b. by destruct u.
Qed.

Lemma sched_counters_witness :
  locks (thr preempted (First 0)) = Some (7%nat, false) ∧ cur (cpus preempted 0) = Th 0 ∧ counters preempted 7 = 1.
Proof.
  assert (reachable preempted) as Hr.
  { unfold reachable. transitivity locked; [exact locked_reachable|]. apply after_run_steps. vm_compute. reflexivity. }
  assert (locks (thr preempted (First 0)) = Some (7%nat, false)) as Hl by (vm_compute; reflexivity).
  assert (cur (cpus preempted 0) = Th 0) as Hc by (vm_compute; reflexivity).
  destruct (sched_counters preempted Hr) as [H1 _]. split; [exact Hl|]. split; [exact Hc|].
  rewrite (H1 _ _ _ Hl). vm_compute. reflexivity.
Defined.

(** *** The boot CPU, whose first thread waits, halts *)

(** The idle thread is at [p], the scheduler at [g], and nobody else does anything. *)
Record lonely (p : pc) (g : option stage) (s : state) : Prop := Lonely {
  lo_cur : cur (cpus s 0) = Idle 0;
  lo_pc : at_ (thr s (Idle 0)) = p;
  lo_irq : irq (cpus s 0) = false;
  lo_sched : sched (cpus s 0) = g;
  lo_wk d b : wk (cpus s d) b = None;
  lo_mask : mask (cpus s 0) = ∅;
  lo_rq : rq (cpus s 0) = [];
  lo_ipi : ipi (cpus s 0) = false;
  lo_first : tcpu (thr s (First 0)) = 0%nat ∧ st (thr s (First 0)) = waiting;
}.

(** One step leads from [P] to [Q]. *)
Definition leads (P Q : state → Prop) : Prop := ∀ s, P s → ∃ s', rtc step s s' ∧ Q s'.

Lemma leads_trans P Q R : leads P Q → leads Q R → leads P R.
Proof. intros H1 H2 s Hs. destruct (H1 s Hs) as (s1 & ? & HQ). destruct (H2 s1 HQ) as (s2 & ? & ?). exists s2. split; [by transitivity s1|done]. Qed.

Lemma leads_step P Q : (∀ s, P s → ∃ s', cstep 0 tick s = Some s' ∧ Q s') → leads P Q.
Proof.
  intros H s Hs. destruct (H s Hs) as (s' & Hc & HQ). exists s'. split; [|done]. apply rtc_once.
  apply (step_cpu s 0 tick); [unfold max_cpus; lia|done|done].
Qed.

Ltac lonely_step :=
  apply leads_step; intros s [H1 H2 H3 H4 H5 H6 H7 H8 H9]; eexists; split;
  [unfold cstep; rewrite H3, H4, ?H5; try (unfold thread_step; rewrite H1, H2); reflexivity|].
Ltac lonely_end Hw Hf :=
  destruct Hf; split; try (by ev); first [let d := fresh in let b := fresh in intros d b; pose proof (Hw d b); by ev | split; by ev].

Lemma lonely_begin p k :
  match p, k with IPoll _, APoll | IIrq, AIrq => True | _, _ => False end → leads (lonely p None) (lonely p (Some (HFetch 0 [] k))).
Proof. intros Hp. destruct p, k; try done; lonely_step; lonely_end H5 H9. Qed.

Lemma lonely_fetch p w k : (w < nr_words)%nat → leads (lonely p (Some (HFetch w [] k))) (lonely p (Some (HFetch (S w) [] k))).
Proof.
  intros Hw. apply leads_step. intros s [H1 H2 H3 H4 H5 H6 H7 H8 H9]. eexists. split.
  { unfold cstep. rewrite H3, H4. cbn [sched_step]. rewrite decide_True by done. reflexivity. }
  set (l := filter _ _). assert (l = []) as ->.
  { apply elem_of_nil_inv. intros i. unfold l. rewrite list_elem_of_filter, H6. intros [[Hi _] _]. by apply not_elem_of_empty in Hi. }
  destruct H9. split; try (by ev); first [intros d b; pose proof (H5 d b); by ev | ev; rewrite H6; set_solver].
Qed.

Lemma lonely_fetched p k : leads (lonely p (Some (HFetch 4 [] k))) (lonely p (Some (HDrain [] k))).
Proof. lonely_step. lonely_end H5 H9. Qed.

Lemma lonely_handle p k :
  match p, k with IPoll _, APoll | IIrq, AIrq => True | _, _ => False end → leads (lonely p None) (lonely p (Some (HDrain [] k))).
Proof.
  intros Hp. eapply leads_trans; [by apply lonely_begin|]. do 4 (eapply leads_trans; [apply lonely_fetch; unfold nr_words; lia|]).
  apply lonely_fetched.
Qed.

Lemma lonely_more n : Z.of_nat n + 1 < 10000 → leads (lonely (IPoll n) (Some (HDrain [] APoll))) (lonely (IPoll (S n)) None).
Proof.
  intros Hn. apply leads_step. intros s [H1 H2 H3 H4 H5 H6 H7 H8 H9]. eexists. split.
  { unfold cstep. rewrite H3, H4. cbn [sched_step proceed]. rewrite H7, H1, H2. apply Z.ltb_lt in Hn. rewrite Hn. reflexivity. }
  lonely_end H5 H9.
Qed.

Lemma lonely_enough n : Z.of_nat n + 1 = 10000 → leads (lonely (IPoll n) (Some (HDrain [] APoll))) (lonely IEnd None).
Proof.
  intros Hn. apply leads_step. intros s [H1 H2 H3 H4 H5 H6 H7 H8 H9]. eexists. split.
  { unfold cstep. rewrite H3, H4. cbn [sched_step proceed]. rewrite H7, H1, H2. rewrite (proj2 (Z.ltb_ge _ _)) by lia. reflexivity. }
  lonely_end H5 H9.
Qed.

Lemma lonely_end_poll : leads (lonely IEnd None) (lonely IIrq None).
Proof. lonely_step. lonely_end H5 H9. Qed.

Lemma lonely_halt : leads (lonely IIrq (Some (HDrain [] AIrq))) (lonely IHalt None).
Proof.
  apply leads_step. intros s [H1 H2 H3 H4 H5 H6 H7 H8 H9]. eexists. split.
  { unfold cstep. rewrite H3, H4. cbn [sched_step proceed]. rewrite H7, H1. reflexivity. }
  lonely_end H5 H9.
Qed.

Lemma lonely_polls n : Z.of_nat n < 10000 → leads (lonely (IPoll 0) None) (lonely (IPoll n) None).
Proof.
  induction n as [|n IH]; intros Hn; [intros s Hs; by exists s; split; [apply rtc_refl|]|].
  eapply leads_trans; [apply IH; lia|]. eapply leads_trans; [by apply (lonely_handle (IPoll n) APoll)|]. apply lonely_more. lia.
Qed.

Lemma lonely_halts : leads (lonely (IPoll 0) None) (lonely IHalt None).
Proof.
  eapply leads_trans; [apply (lonely_polls (Z.to_nat 9999)); lia|]. eapply leads_trans; [by apply (lonely_handle _ APoll)|].
  eapply leads_trans; [apply lonely_enough; lia|]. eapply leads_trans; [apply lonely_end_poll|].
  eapply leads_trans; [by apply (lonely_handle IIrq AIrq)|]. apply lonely_halt.
Qed.

(** The first thread waits, and the idle thread begins to poll. *)
Definition alone : state := after_run (ACall 0 OWait :: goes 12 0) start.

Lemma alone_lonely : reachable alone ∧ lonely (IPoll 0) None alone.
Proof.
  split; [apply after_run_steps; vm_compute; reflexivity|].
  split; try (vm_compute; reflexivity); [|split; vm_compute; reflexivity]. intros [|d] []; vm_compute; reflexivity.
Qed.

Lemma sched_no_lost_wakeup_witness :
  ∃ s, reachable s ∧ at_ (thr s (cur (cpus s 0))) = IHalt ∧ st (thr s (First 0)) = waiting ∧
    ∃ k, at_ (thr s (First 0)) = Slept k ∧ holds s (First 0) k = false.
Proof.
  destruct alone_lonely as [Hr Hl]. destruct (lonely_halts alone Hl) as (s & Hs & [H1 H2 H3 H4 H5 H6 H7 H8 [H9 H10]]).
  assert (reachable s) as Hre by (unfold reachable; transitivity alone; [exact Hr|exact Hs]).
  assert (at_ (thr s (cur (cpus s 0))) = IHalt) as Hh by (rewrite H1; exact H2).
  exists s. split; [exact Hre|]. split; [exact Hh|]. split; [exact H10|].
  destruct (sched_no_lost_wakeup s 0 Hre Hh H8 ltac:(intros d b w Hw; rewrite H5 in Hw; discriminate) (First 0) H9 ltac:(discriminate))
    as [E|[E|[E|[_ E]]]]; [rewrite H10 in E; discriminate..|exact E].
Defined.

End SchedSpec.
